(* ===== verification/_CoqProject ===== *)
-Q . S2P
Prelude.v
Text.v
Numbers.v
Net.v
Swap.v
Phase.v
Config.v
Document.v
Balancer.v
Context.v
Upstream.v
Health.v
Client.v
Forward.v
HostState.v
HostRace.v
Registry.v
Abi.v
Linker.v
Session.v
Router.v
Peer.v
Shortcut.v
BodyFilter.v
Pipeline.v
Gateway.v
WebSocket.v
DynRoutes.v
Intercept.v
Snapshot.v
Watch.v
Runtime.v
Certs.v
Ingress.v
DynExec.v
DynApi.v
Sdk.v
SdkHost.v
Program.v
Scheduler.v
Samples.v
Admin.v
Listeners.v
Metrics.v
Init.v
Inject.v
Auth.v
Dial.v
Plane.v
Serve.v
Probe.v
Engine.v
Shell.v
