(* ===== verification/Prelude.v ===== *)
(** * A verification library of openrusty

    openrusty is an API gateway and sidecar proxy extended by WebAssembly
    plugins.  This library models the logic of its crates, from the source, as
    executable Rocq definitions, and proves what makes each part correct.

    ** The program and the files

    A connection's request enters [handle_request]
    ([crates/openrusty-server/src/pipeline/mod.rs]).  It is matched to a route,
    runs the pre-proxy phases of every plugin, is sent to peers of the route's
    upstream until one answers, and the answer is streamed back through the
    response phases.  The files follow that path from the leaves up.

    - [Prelude]: bytes, machine-width arithmetic ([wrap], [sat_sub],
      [sat_mul], [in_u]), results, the panic monad [exec], stable sort, the
      hint database and the tactics ([case_bool], [reflect_bool]).
    - [Text], [Net]: the string functions of the standard library the code
      uses (ASCII case, trimming, splitting, UTF-8, number formatting) and
      socket addresses with their [Display].
    - [Phase] ([openrusty-core/src/phase.rs], [openrusty-sdk/src/dispatch.rs]):
      phases, decisions and their integer codes on both sides of the ABI.
    - [Config] ([openrusty-core/src/config.rs] and [config/*.rs]): the typed
      configuration, its defaults and every validation rule.
    - [Document] (the same structs' serde attributes): the parsed document with
      its optional keys and sections, and how defaults fill it in.
    - [Context] ([openrusty-core/src/context.rs]): the per-request context.
    - [Balancer] ([openrusty-proxy/src/balancer.rs]): hashing, smooth weighted
      round robin, least connections.
    - [Upstream] ([openrusty-proxy/src/upstream.rs], [resolve.rs]): runtime
      upstreams, hop-by-hop rules, endpoint resolution.
    - [Health] ([openrusty-proxy/src/health.rs]): the shared registry of passive
      and active health and of in-flight gauges; one step per operation.
    - [Client] ([openrusty-proxy/src/client.rs], [apply_runtime] of
      [openrusty-server/src/state.rs]): the pool of upstream clients.
    - [Forward] ([openrusty-proxy/src/forward.rs], [loop_guard.rs]): failure
      classes, the retry gate, outgoing headers.
    - [HostState] ([openrusty-wasm/src/host_state.rs]): a plugin's shared
      key-value store with deadlines, quotas and scan cursors.
    - [HostRace] (the same file): the same methods as the accesses they make to the
      shared map, counters and cursors, interleaved by threads.
    - [Abi] ([openrusty-wasm/src/abi.rs], [mem.rs], [openrusty-sdk/src/host.rs],
      [ffi.rs]): the TLV codec, guest memory, the two-phase read.
    - [Linker] ([openrusty-wasm/src/linker*.rs], [instance.rs]): each host
      import a guest can call.
    - [Session] ([openrusty-wasm/src/session.rs], [runner.rs]): the plugin chain
      of one request.
    - [Router], [Peer], [Shortcut], [BodyFilter], [Pipeline], [Gateway]
      ([openrusty-server/src/pipeline/mod.rs], [pipeline_peer.rs],
      [resp_shortcut.rs], [body_filter.rs]): route matching, peer selection,
      responses built without an upstream, the streaming body as a poll
      machine, the proxy attempts, and the whole handler.
    - [WebSocket] ([openrusty-server/src/ws.rs]): the upgrade branch of the
      handler, its retry walk, the tunnel and its log.

    Around the path of a request are the planes that change what it sees.

    - [Swap]: the atomically swapped pointer ([ArcSwap]) and the bounded
      compare-and-swap loop the writers share.
    - [Registry] ([openrusty-wasm/src/registry.rs], [registry_validate.rs]):
      discovery, order and loading of plugins, the reload that carries the
      state of surviving plugins over.
    - [DynRoutes] ([openrusty-server/src/dynamic_routes.rs], [state.rs]): the
      dynamic route table, runtime binds and its reconciliation.
    - [Intercept] ([openrusty-proxy/src/detect.rs],
      [openrusty-server/src/transparent.rs], [transparent/prefixed.rs],
      [egress.rs], [h2c.rs]): protocol detection on intercepted connections
      and where each is sent.
    - [Snapshot], [Watch] ([openrusty-k8s/src/snapshot.rs], [watch.rs],
      [model/mod.rs]): the view of the Kubernetes objects and the watch loop
      that keeps it, as a machine over API answers and timers.
    - [Runtime] ([openrusty-server/src/state.rs], [reload.rs],
      [active_probe.rs], [openrusty-proxy/src/tls/mod.rs]): the shared state,
      boot, and the reload of every plane under one gate.
    - [Certs] ([openrusty-server/src/tls/]): certificate sources, the resolver
      tables, protocol negotiation.
    - [Ingress] ([openrusty-k8s/src/render/], [model/ingress.rs],
      [model/secret.rs], [openrusty-server/src/ingress/mod.rs]): rendering of
      Ingresses and Secrets, the merge with the static routes, the apply.
    - [DynExec] ([openrusty-wasm/src/dynamic.rs]): the cache of dynamic modules,
      its per-name gates and versions, resolving as a machine of threads.
    - [DynApi] ([openrusty-server/src/dynamic_api.rs], [dynamic_admin.rs],
      [fallback] of [app.rs]): running a dynamic module for a request, and the
      face that stores, binds and removes modules.
    - [Admin] ([openrusty-server/src/admin_auth.rs], the endpoints of [app.rs]):
      the token guard and the management endpoints over the shared state.
    - [Listeners] ([openrusty-server/src/listeners.rs], [sd_listen.rs],
      [shutdown.rs], the routers of [app.rs]): which router each socket serves,
      inherited sockets, start-up and the drain sequence.
    - [Metrics] ([openrusty-server/src/metrics.rs], [metrics_render.rs]): the
      collector with its counters and float histograms, and the text it exposes.
    - [Init] ([openrusty-server/src/init/]): the traffic hijack of a pod, from
      the flags to the commands and what they do to the nat table.
    - [Inject] ([openrusty-server/src/inject/]): what a workload's annotations
      say, the pieces added to its pod and the sidecar's configuration.
    - [Auth] ([openrusty-k8s/src/auth/], [client.rs]): where credentials come
      from, kubeconfig resolution, the exec plugin, the API client's requests.
    - [Dial] ([openrusty-proxy/src/tls/connector.rs], [orig_dst.rs],
      [openrusty-k8s/src/connector.rs]): the connectors as computations that take
      time and may never end, the errors they are classified into, tunnels.
    - [Plane] ([openrusty-server/src/ingress/mod.rs]): the watch callbacks, the
      shared slots and the apply task of the ingress plane as a machine.
    - [Serve] ([openrusty-server/src/h2c.rs], [tls/accept.rs], [transparent.rs],
      [shutdown.rs]): the accept loops, every connection through handshake,
      routing, serving or tunnelling, the in-flight counter and the signal.
    - [Probe] ([openrusty-server/src/active_probe.rs]): the active prober's
      sweeps against publications of the runtime, as a machine.
    - [Engine] ([openrusty-wasm/src/epoch.rs], [registry.rs], [linker.rs],
      [runner.rs]): the epoch ticker and the deadlines of concurrent guest calls,
      the engine's settings, module validation and instantiation.
    - [Shell] ([openrusty-server/src/main.rs], [check.rs], [logging.rs]): argument
      dispatch, boot, the dry run, the signal loop, the log file.

    The guest's side of the plugin interface is modelled too.

    - [Numbers]: decimal parsing and formatting the plugin and the listeners
      use.
    - [Sdk] ([openrusty-sdk/src/alloc_heap.rs], [sched.rs], [url.rs]): the
      guest's bump allocator, the least-loaded choice, URL helpers.
    - [SdkHost] ([openrusty-sdk/src/host.rs]): the safe wrappers over the host
      imports, composed with [Linker]'s side of each.
    - [Program] ([openrusty-sdk/src/dispatch.rs], [openrusty-macros/src/lib.rs]):
      plugins as programs over host calls, run under any clock and any
      concurrent writers, with the rules to reason about them; the attribute
      that declares a handler.
    - [Scheduler] ([plugins/vllm-kv-scheduler/src/]): the bundled balancer plugin.
    - [Samples] ([plugins/kv-probe/], [plugins/dynamic-echo/],
      [plugins/dynamic-reverse/]): the drill over every host call and the two
      dynamic modules.

    ** How the code is represented

    Strings and byte buffers are lists of bytes.  Integers are [Z] with the
    code's arithmetic written out: the release profile has no overflow checks,
    so a plain [+] is [wrap w (_ + _)], and the saturating operations are
    [sat_sub] and [sat_mul].  A [HashMap] is a [gmap].  Indexing, [assert!] and
    [expect] return [exec], whose [Panic] a theorem must exclude.

    State behind locks and atomics ([Health.HealthRegistry],
    [HostState.HostState], the round-robin weights of [Peer.UpstreamRt]) is
    passed explicitly; one operation is one atomic step, and for the plugins' store,
    whose methods make several accesses, [HostRace] has every access as a step.
    Tasks that interleave are machines over explicit events ([Watch], [DynExec],
    [Plane], [Serve], [Probe], [Engine]).  What other requests
    do in between is universally quantified: the step relations
    [Health.health_step] and [HostState.host_step] with their reachable states,
    and the functions [at_others] of [Pipeline.Attempt], applied where the code
    awaits the network.  Clock readings are arguments, one per reading.

    Code outside the repository is a parameter: the HTTP header parsers, DNS,
    files and rustls as [Runtime.build_tls] uses them ([Runtime.TlsIo]), the TLS
    server-name parser ([ti_name_ok]; [Runtime.names_parse] says that the names of a
    configuration parse, which nothing in the code checks), and the guest.  A guest
    is an instance of [Abi.GuestMemory] and [Session.Guest]; [Session.GuestLaws] says what wasm
    isolation gives, that a guest acts only on its own memory and through the
    imports ([Linker.guest_step]).  [Session.code_guest] is a concrete guest,
    used by the witnesses.

    ** What is proved

    - The request ([Gateway], [Pipeline], [Peer], [Router]): what may be
      dialed, when a request may be sent again, that the loop ends, which
      replies are logged once and with what status, that in-flight slots are
      returned, that
      a pick is a healthy untried peer and exists whenever there is one, that
      routing has its documented precedence, and that nothing here panics.
    - Plugins ([Linker], [Session], [HostState], [HostRace], [Abi], [Phase]):
      confinement to the whitelist, the chain order and the failure policy,
      refinement of a map with deadlines, snapshot isolation of scans, the quotas
      under any interleaving of accesses and how far overlapping sets can exceed
      them, exact codecs.
    - Upstreams ([Health], [Balancer], [Client], [Upstream], [Forward]): the
      health planes against declarative descriptions of probe and failure
      histories, reloads keyed by address, exact distributions of the
      balancers, the pool after a reload, the outgoing header policy.
    - The response ([BodyFilter], [Shortcut]): transparency and one log.
    - [Config]: validation accepts exactly the well-formed configurations.
    - [Document]: filling inverts writing every key out and keeps every number
      inside its type; a missing section is an empty one, except for
      [plugins]; what a document loads as.
    - Changing planes ([Registry], [DynRoutes], [Runtime], [Ingress]): a plugin
      reload publishes once and keeps the state of surviving plugins; the
      dynamic table refines a map and its live updates are atomic; a reload is
      all or nothing up to what the gate protects, and panics exactly on a TLS
      server name that does not parse; an ingress apply publishes exactly the
      composition of static and rendered routes, or panics likewise.
    - Upgrades ([WebSocket]): dialed and logged as safely as requests.
    - Dynamic modules ([DynExec], [DynApi]): a request runs what is on disk
      whatever runs beside it (as far as modification time and size tell), and
      the answer is what the phases decide.
    - Watching ([Snapshot], [Watch]): every snapshot is the listing folded with
      the complete lines received since, and a change is handed over unless a
      resync tick comes while it is pending.
    - Management ([Admin], [Listeners]): the secret guards every endpoint but the
      probes, the planes are mounted apart, sockets are inherited exactly, a
      drain ends by its grace.
    - Guests ([Sdk], [SdkHost], [Scheduler]): the arena hands out each byte once,
      the wrappers return what the host holds, tasks stick to their peer.
    - Intercepted connections ([Intercept]): detection does not depend on how
      the stream is cut and loses no byte; no loop back, egress closed by
      default.

    - The process ([Shell], [Serve], [Engine], [Probe], [Dial]): the dry run
      accepts what boots, up to what it does not try; a started gateway serves a
      well-formed runtime and keeps it so; what the in-flight counter counts (a
      panic for ever) and whom the drain reaches on every kind of listener; guest
      code is cut off within two ticks of its budget while the ticker runs; a probe
      sweep is exact unless a publication crosses it; and what the connectors'
      timeouts do and do not bound.
    - Credentials and the ingress plane ([Auth], [Plane]): the documented order of
      sources, tokens only over the cluster's own endpoint and CA; the apply task
      comes to rest on what was published last.
    - Sample plugins ([Samples]): requests that are not drills pass untouched,
      every phase answers within the wire's codes, the byte count of a body.
    - Operations ([Metrics], [Init], [Inject]): a scrape reads back exactly what
      was recorded; a plan that succeeds redirects every connection but the exempt
      ones and can be run again; injection adds its pieces and nothing else, and the
      init container understands the command it is given.

    Edge behaviours the models exposed are lemmas too:
    [Document.absent_plugins_refused],
    [Health.saturated_timeout_wraps], [Health.duplicate_address_drops_gauge],
    [Health.repeated_address_parts], [HostRace.concurrent_sets_overshoot],
    [Runtime.valid_reload_panics], [DynExec.same_version_served_stale],
    [Gateway.max_retries_never_dials],
    [Gateway.done_status_logged_before_log_phase],
    [Client.unparsable_server_name_panics],
    [DynRoutes.reload_loses_concurrent_bind],
    [DynRoutes.rebound_config_key_dropped], [Watch.resync_drops_pending_change],
    [Runtime.stale_index_marks_other_peer], [Certs.http1_only_alpn_sniffs],
    [Certs.last_static_pair_wins], [Ingress.cross_namespace_upstream_clash],
    [Ingress.static_upstream_shadows],
    [WebSocket.unbuildable_upgrade_leaks_slot],
    [WebSocket.rewrites_do_not_reach_upgrades],
    [DynApi.refused_upload_is_stored], [DynApi.contended_removal_keeps_bindings],
    [DynApi.bodyless_outcome_drops_headers],
    [Admin.status_counts_forgotten_peers],
    [Admin.bearer_scheme_is_case_sensitive], [Sdk.arena_base_alignment],
    [Scheduler.escaped_key_answers], [Scheduler.odd_ttl_never_expires],
    [Scheduler.large_capacity_is_unlimited],
    [Scheduler.oversized_body_is_absent], [Inject.cron_job_template_unread],
    [Inject.gateway_unescaped], [Plane.overlapping_hand_overs_lose_one],
    [Auth.separators_fall_through], [Auth.non_unicode_falls_through],
    [Auth.endpoint_path_dropped],
    [Auth.empty_mounted_token], [Serve.started_after_flip_never_drained],
    [Probe.crossed_probe_marks_the_wrong_peer],
    [Probe.published_without_respawn_is_unprobed], [Engine.deadline_fires_early],
    [Engine.unnamed_memory_accepted], [Engine.probe_ceiling_is_not_the_plugins],
    [Shell.boot_leaves_endpoints_unresolved], [Dial.stalled_handshake_unbounded],
    [Dial.ipv6_apiserver_unreachable], [Samples.repeated_requests_alias],
    [Samples.oversized_chunk_uncounted].

    ** Fuel and bounds

    [Text]'s scanners and [Abi.decode_loop] take the input's length as fuel,
    which every step consumes; number formatting has 40 digits, enough for any
    64-bit value.  [Abi.two_phase_loop] counts the code's own
    three attempts.  [Pipeline.attempt_loop] recurses on the turns left of the
    code's [for] loop, and [BodyFilter.polls] on the events of the upstream.
    [Swap.cas_loop] counts the code's own turns (8 for dynamic routes, 3 for the
    plugin registry); [Watch.take_lines] has the buffer's length, and every line
    taken shortens the buffer.  [Numbers.ascii_loop] fills the code's 20-byte
    buffer and panics beyond it; [Scheduler.field_from] has the body's length,
    and every round drops a byte; [SdkHost.scan_loop] one round more than the
    entries of the snapshot; [Sdk.bump_offset] recurses on the turns the other
    allocators' races give it.  [Init.parse_loop] and [Inject.parse_cli_loop] have
    one turn per argument, and each takes at least one; [Metrics.fmt_wide] has
    400 digits, more than the largest float has before its point, and
    [Metrics.read_labels] the length of the line.

    ** Not modelled

    Sockets, hyper, rustls, wasmtime's compilation, the YAML, TOML and JSON
    libraries, DNS, child processes and the log lines: they are parameters or
    events, with what the code relies on as named hypotheses.  The crate roots only
    re-export, and the unit tests' fixtures are left out.  [Debug] output and the
    trait plumbing of the hyper and rustls adapters (polling one stream through
    another, verifying signatures with the provider's algorithms) only delegate. *)

From Stdlib Require Import ZArith NArith Lia.
From Stdlib Require Import Strings.Byte.
From Stdlib Require Export Init.Byte.
From stdpp Require Export base tactics list option numbers gmap strings sorting.
From stdpp Require Import options.

(** * Bytes *)

(** Rust's [u8] is [byte]; [String], [&str], [Vec<u8>] and [Bytes] are all
    byte sequences (a Rust string is its UTF-8 encoding). *)
Abbreviation byte := Corelib.Init.Byte.byte.
Abbreviation bytes := (list byte).

Definition bs (s : string) : bytes := String.list_byte_of_string s.

#[global] Instance byte_eq_dec : EqDecision byte.
Proof.
  intros a b. destruct (Byte.eqb a b) eqn:E.
  - left. by apply Byte.byte_dec_bl.
  - right. intros ->. by rewrite (Byte.byte_dec_lb eq_refl) in E.
Defined.

#[global] Instance byte_countable : Countable byte :=
  inj_countable Byte.to_N Byte.of_N Byte.of_to_N.

(** Numeric value of a byte. *)
Definition bz (b : byte) : Z := Z.of_N (Byte.to_N b).

(** Truncating cast [z as u8]. *)
Definition byte_of_Z (z : Z) : byte :=
  match Byte.of_N (Z.to_N (z mod 256)) with Some b => b | None => x00 end.

Lemma bz_range (b : byte) : (0 ≤ bz b < 256)%Z.
Proof. unfold bz. pose proof (Byte.to_N_bounded b). lia. Qed.

Lemma bz_of_Z (z : Z) : bz (byte_of_Z z) = (z mod 256)%Z.
Proof.
  unfold byte_of_Z, bz.
  pose proof (Z.mod_pos_bound z 256 ltac:(lia)) as Hb.
  destruct (Byte.of_N _) as [b|] eqn:E.
  - apply Byte.to_of_N in E. rewrite E. lia.
  - apply Byte.of_N_None_iff in E. lia.
Qed.

Lemma bz_inj (a b : byte) : bz a = bz b → a = b.
Proof.
  unfold bz. intros H%N2Z.inj.
  assert (Some a = Some b) by (rewrite <-!Byte.of_to_N, H; done). congruence.
Qed.

Lemma byte_of_bz (b : byte) : byte_of_Z (bz b) = b.
Proof.
  apply bz_inj. rewrite bz_of_Z. apply Z.mod_small, bz_range.
Qed.

(** * Machine integers *)

(** Fixed-width unsigned integers are [Z]; plain [+] compiled in release mode
    wraps ([Cargo.toml] sets no overflow checks for the release profile). *)
Section machine_integers.
Local Open Scope Z_scope.

Definition umax (w : Z) : Z := 2 ^ w - 1.
Definition wrap (w z : Z) : Z := z mod 2 ^ w.
Definition sat_add (w a b : Z) : Z := Z.min (a + b) (umax w).
Definition sat_mul (w a b : Z) : Z := Z.min (a * b) (umax w).
Definition sat_sub (a b : Z) : Z := Z.max 0 (a - b).
Definition checked_add (w a b : Z) : option Z :=
  if a + b <=? umax w then Some (a + b) else None.
Definition checked_mul (w a b : Z) : option Z :=
  if a * b <=? umax w then Some (a * b) else None.

(** [in_u w z]: [z] is a value of the unsigned type of width [w]. *)
Definition in_u (w z : Z) : Prop := 0 <= z < 2 ^ w.

(** Two's complement reinterpretation of the low [w] bits. *)
Definition to_signed (w z : Z) : Z :=
  let m := z mod 2 ^ w in if m <? 2 ^ (w - 1) then m else m - 2 ^ w.

Lemma wrap_small w z : in_u w z → wrap w z = z.
Proof. apply Z.mod_small. Qed.

Lemma wrap_range w z : 0 <= w → in_u w (wrap w z).
Proof. intros. apply Z.mod_pos_bound. lia. Qed.

Lemma to_signed_small w z : 0 < w → 0 <= z < 2 ^ (w - 1) → to_signed w z = z.
Proof.
  intros Hw Hz. unfold to_signed.
  assert (2 ^ w = 2 * 2 ^ (w - 1)).
  { rewrite <-Z.pow_succ_r by lia. f_equal. lia. }
  rewrite Z.mod_small by lia.
  destruct (Z.ltb_spec z (2 ^ (w - 1))); lia.
Qed.
End machine_integers.

(** * Results *)

(** Rust's [Result<A, E>], error type first so that [result E] is a monad. *)
Inductive result (E A : Type) : Type :=
| Ok (a : A)
| Err (e : E).
Arguments Ok {E A} a.
Arguments Err {E A} e.

#[global] Instance result_mbind {E} : MBind (result E) :=
  λ A B f m, match m with Ok a => f a | Err e => Err e end.
#[global] Instance result_mret {E} : MRet (result E) := λ A a, Ok a.

Lemma bind_ok {E A B} (m : result E A) (f : A → result E B) b :
  m ≫= f = Ok b ↔ ∃ a, m = Ok a ∧ f a = Ok b.
Proof.
  destruct m as [a|e]; simpl; [|naive_solver].
  split; [by exists a|]. by intros (? & [= ->] & ?).
Qed.

(** [opt.ok_or_else(|| e)?]. *)
Definition ok_or {A E} (o : option A) (e : E) : result E A :=
  match o with Some a => Ok a | None => Err e end.

(** [if c { return Err(e) }]: the guard the validators are made of. *)
Definition guard_err {E} (bad : bool) (e : E) : result E () :=
  if bad then Err e else Ok ().

Lemma guard_err_ok {E} b (e : E) : guard_err b e = Ok () ↔ b = false.
Proof. by destruct b. Qed.

Definition is_ok {A E} (r : result E A) : bool :=
  match r with Ok _ => true | Err _ => false end.

(** Run a fallible check over a list with indices, stopping at the first
    error (a Rust [for (i, x) in xs.iter().enumerate()] with [?]). *)
Fixpoint try_each {A E} (f : nat → A → result E ()) (i : nat) (l : list A)
    : result E () :=
  match l with
  | [] => Ok ()
  | x :: l => match f i x with Err e => Err e | Ok _ => try_each f (S i) l end
  end.

Lemma try_each_ok {A E} (f : nat → A → result E ()) i l :
  try_each f i l = Ok () ↔ ∀ k x, l !! k = Some x → f (i + k) x = Ok ().
Proof.
  revert i. induction l as [|x l IH]; intros i; simpl.
  { split; [done|]. intros _. done. }
  destruct (f i x) as [[]|e] eqn:Hf.
  - rewrite IH. split.
    + intros H [|k] y Hy; simplify_eq/=.
      * by rewrite Nat.add_0_r.
      * rewrite <-Nat.add_succ_comm. by apply H.
    + intros H k y Hy. rewrite Nat.add_succ_comm. by apply (H (S k)).
  - split; [done|]. intros H. specialize (H 0 x eq_refl).
    rewrite Nat.add_0_r in H. congruence.
Qed.

(** * Panics *)

(** Outcome of code that may panic (indexing, [assert!], [unwrap]). *)
Inductive exec (A : Type) : Type :=
| Ret (a : A)
| Panic.
Arguments Ret {A} a.
Arguments Panic {A}.

#[global] Instance exec_mbind : MBind exec :=
  λ A B f m, match m with Ret a => f a | Panic => Panic end.
#[global] Instance exec_mret : MRet exec := λ A a, Ret a.

(** [v[i]]: indexing out of range panics. *)
Definition index {A} (l : list A) (i : nat) : exec A :=
  match l !! i with Some a => Ret a | None => Panic end.

Lemma index_Ret {A} (l : list A) i a : index l i = Ret a ↔ l !! i = Some a.
Proof. unfold index. destruct (l !! i); naive_solver. Qed.

Lemma index_lt {A} (l : list A) i : i < length l → ∃ a, index l i = Ret a ∧ l !! i = Some a.
Proof.
  intros Hi. destruct (lookup_lt_is_Some_2 l i Hi) as [a Ha].
  exists a. split; [by apply index_Ret|done].
Qed.

(** * Automation *)

Create HintDb gateway.

(** Case analysis on the outermost [if]/[match] of a boolean comparison. *)
Ltac case_bool :=
  match goal with
  | |- context [Z.ltb ?a ?b] => destruct (Z.ltb_spec a b)
  | |- context [Z.leb ?a ?b] => destruct (Z.leb_spec a b)
  | |- context [Z.eqb ?a ?b] => destruct (Z.eqb_spec a b)
  | |- context [Nat.ltb ?a ?b] => destruct (Nat.ltb_spec a b)
  | |- context [Nat.leb ?a ?b] => destruct (Nat.leb_spec a b)
  | |- context [Nat.eqb ?a ?b] => destruct (Nat.eqb_spec a b)
  | |- context [bool_decide ?P] => destruct (decide P); [rewrite (bool_decide_true P) by done | rewrite (bool_decide_false P) by done]
  end.

(** Turn the boolean hypotheses a code guard leaves behind into propositions. *)
Ltac reflect_bool :=
  repeat match goal with
  | H : _ && _ = true |- _ => apply andb_true_iff in H as [? ?]
  | H : _ || _ = false |- _ => apply orb_false_iff in H as [? ?]
  | H : negb _ = true |- _ => apply negb_true_iff in H
  | H : negb _ = false |- _ => apply negb_false_iff in H
  | H : Z.ltb _ _ = true |- _ => apply Z.ltb_lt in H
  | H : Z.ltb _ _ = false |- _ => apply Z.ltb_ge in H
  | H : Z.leb _ _ = true |- _ => apply Z.leb_le in H
  | H : Z.leb _ _ = false |- _ => apply Z.leb_gt in H
  | H : Z.eqb _ _ = true |- _ => apply Z.eqb_eq in H
  | H : Z.eqb _ _ = false |- _ => apply Z.eqb_neq in H
  | H : Nat.ltb _ _ = true |- _ => apply Nat.ltb_lt in H
  | H : Nat.ltb _ _ = false |- _ => apply Nat.ltb_ge in H
  | H : Nat.leb _ _ = true |- _ => apply Nat.leb_le in H
  | H : Nat.leb _ _ = false |- _ => apply Nat.leb_gt in H
  | H : Nat.eqb _ _ = true |- _ => apply Nat.eqb_eq in H
  | H : Nat.eqb _ _ = false |- _ => apply Nat.eqb_neq in H
  | H : bool_decide _ = true |- _ => apply bool_decide_eq_true in H
  | H : bool_decide _ = false |- _ => apply bool_decide_eq_false in H
  end.

(** * Lists *)

Definition zsum (l : list Z) : Z := foldr Z.add 0%Z l.

Lemma zsum_app l1 l2 : zsum (l1 ++ l2) = (zsum l1 + zsum l2)%Z.
Proof. induction l1; simpl; lia. Qed.

Lemma zsum_insert l i x y :
  l !! i = Some x → zsum (<[i:=y]> l) = (zsum l - x + y)%Z.
Proof.
  revert i. induction l as [|a l IH]; intros [|i] H; simplify_eq/=; [lia|].
  rewrite (IH i) by done. lia.
Qed.

Lemma zsum_nonneg l : Forall (λ z, 0 ≤ z)%Z l → (0 ≤ zsum l)%Z.
Proof. induction 1; simpl; lia. Qed.

(** If every element is bounded above by the one of a second list with the
    same sum, the lists are equal. *)
Lemma zsum_le_eq l1 l2 :
  Forall2 Z.le l1 l2 → zsum l1 = zsum l2 → l1 = l2.
Proof.
  intros H Hs.
  assert (zsum l1 ≤ zsum l2)%Z as Hle by (clear Hs; induction H; simpl; lia).
  induction H as [|a b l1 l2 Hab H IH]; [done|]. simpl in *.
  assert (zsum l1 ≤ zsum l2)%Z by (clear -H; induction H; simpl; lia).
  f_equal; [lia|]. apply IH; lia.
Qed.

(** One step of a duplicate check that threads the keys seen so far. *)
Lemma seen_cons_iff {A K} (f : A → K) (x : A) (l : list A) (seen : list K) :
  ((f x ∉ seen) ∧ NoDup (f <$> l) ∧ ∀ y, y ∈ l → f y ∉ f x :: seen) ↔
  (NoDup (f <$> (x :: l)) ∧ ∀ y, y ∈ x :: l → f y ∉ seen).
Proof.
  rewrite fmap_cons, NoDup_cons, list_elem_of_fmap. split.
  - intros (Hx & Hnd & Hs). split_and!; [|done|].
    + intros (y & Hy & Hin). apply (Hs y Hin). rewrite <-Hy. by left.
    + intros y [->|Hin]%elem_of_cons; [done|].
      specialize (Hs y Hin). by apply not_elem_of_cons in Hs as [_ ?].
  - intros ([Hx Hnd] & Hs). split_and!; [apply Hs; by left|done|].
    intros y Hin. apply not_elem_of_cons. split; [|apply Hs; by right].
    intros He. apply Hx. by exists y.
Qed.

(** ** Stable sort *)

(** Stable insertion sort, the reference behaviour of [slice::sort_by]: equal
    elements keep their relative order. *)
Section sort_by.
Context {A : Type} (le : A → A → bool).

Fixpoint insert_after (x : A) (l : list A) : list A :=
  match l with
  | [] => [x]
  | y :: l' => if le y x then y :: insert_after x l' else x :: l
  end.

Definition sort_by (l : list A) : list A :=
  foldl (λ acc x, insert_after x acc) [] l.

Lemma insert_after_perm x l : insert_after x l ≡ₚ x :: l.
Proof.
  induction l as [|y l IH]; simpl; [done|].
  destruct (le y x); [|done]. rewrite IH. by apply Permutation_swap.
Qed.

Lemma sort_by_perm l : sort_by l ≡ₚ l.
Proof.
  unfold sort_by. rewrite <-(app_nil_r l) at 2. generalize (@nil A) as acc.
  induction l as [|x l IH]; intros acc; simpl; [done|].
  rewrite IH, insert_after_perm. by rewrite Permutation_middle.
Qed.

Context (le_total : ∀ x y, le x y = true ∨ le y x = true).

Lemma insert_after_sorted x l :
  Sorted (λ a b, le a b = true) l → Sorted (λ a b, le a b = true) (insert_after x l).
Proof using le_total.
  induction 1 as [|y l Hs IH Hhd]; simpl; [by repeat constructor|].
  destruct (le y x) eqn:E.
  - constructor; [done|].
    destruct Hhd as [|z l Hz]; simpl; [by constructor|].
    destruct (le z x); by constructor.
  - constructor; [by constructor|]. constructor.
    destruct (le_total x y); congruence.
Qed.

Lemma sort_by_sorted l : Sorted (λ a b, le a b = true) (sort_by l).
Proof using le_total.
  unfold sort_by.
  assert (Sorted (λ a b, le a b = true) (@nil A)) as H by constructor.
  revert H. generalize (@nil A) as acc.
  induction l as [|x l IH]; intros acc H; simpl; [done|].
  by apply IH, insert_after_sorted.
Qed.
End sort_by.
