(* ===== verification/Text.v ===== *)
(** Byte-string operations of the Rust standard library that the gateway's
    sources call: ASCII classification and case folding, prefixes and suffixes,
    splitting, Unicode-aware [trim], [char::is_control], lossy UTF-8 decoding,
    integer formatting and lexicographic order.  Strings are their UTF-8 bytes,
    so [trim] and [has_control] match the encodings of the code points Rust
    tests for. *)

From S2P Require Import Prelude.
From Stdlib Require Import ZArith Lia.
From stdpp Require Import options.
Local Open Scope Z_scope.

(** * ASCII *)

Definition in_range (lo hi : Z) (b : byte) : bool := (lo <=? bz b) && (bz b <=? hi).

Definition is_ascii_digit (b : byte) : bool := in_range 48 57 b.
Definition is_ascii_upper (b : byte) : bool := in_range 65 90 b.
Definition is_ascii_lower (b : byte) : bool := in_range 97 122 b.
Definition is_ascii_alphanumeric (b : byte) : bool :=
  is_ascii_digit b || is_ascii_upper b || is_ascii_lower b.
Definition is_ascii_control (b : byte) : bool := in_range 0 31 b || (bz b =? 127).

Definition lower_byte (b : byte) : byte :=
  if is_ascii_upper b then byte_of_Z (bz b + 32) else b.
Definition upper_byte (b : byte) : byte :=
  if is_ascii_lower b then byte_of_Z (bz b - 32) else b.

Definition to_ascii_lowercase (s : bytes) : bytes := map lower_byte s.
Definition to_ascii_uppercase (s : bytes) : bytes := map upper_byte s.

(** [str::eq_ignore_ascii_case]. *)
Definition eq_ignore_ascii_case (a b : bytes) : bool :=
  bool_decide (to_ascii_lowercase a = to_ascii_lowercase b).

Lemma lower_byte_idemp b : lower_byte (lower_byte b) = lower_byte b.
Proof. by destruct b. Qed.

Lemma upper_byte_idemp b : upper_byte (upper_byte b) = upper_byte b.
Proof. by destruct b. Qed.

Lemma to_ascii_lowercase_idemp s :
  to_ascii_lowercase (to_ascii_lowercase s) = to_ascii_lowercase s.
Proof.
  unfold to_ascii_lowercase. rewrite map_map. apply map_ext, lower_byte_idemp.
Qed.

Lemma to_ascii_uppercase_idemp s :
  to_ascii_uppercase (to_ascii_uppercase s) = to_ascii_uppercase s.
Proof.
  unfold to_ascii_uppercase. rewrite map_map. apply map_ext, upper_byte_idemp.
Qed.

(** Case-insensitive equality is an equivalence on strings. *)
Lemma eq_ignore_ascii_case_iff a b :
  eq_ignore_ascii_case a b = true ↔ to_ascii_lowercase a = to_ascii_lowercase b.
Proof. unfold eq_ignore_ascii_case. by rewrite bool_decide_eq_true. Qed.

Lemma eq_ignore_ascii_case_refl a : eq_ignore_ascii_case a a = true.
Proof. by apply eq_ignore_ascii_case_iff. Qed.

Lemma eq_ignore_ascii_case_sym a b :
  eq_ignore_ascii_case a b = eq_ignore_ascii_case b a.
Proof. unfold eq_ignore_ascii_case. apply bool_decide_ext. by split. Qed.

Lemma eq_ignore_ascii_case_trans a b c :
  eq_ignore_ascii_case a b = true → eq_ignore_ascii_case a c = eq_ignore_ascii_case b c.
Proof.
  rewrite eq_ignore_ascii_case_iff. intros H.
  unfold eq_ignore_ascii_case. by rewrite H.
Qed.

Lemma eq_ignore_ascii_case_lower a b :
  eq_ignore_ascii_case (to_ascii_lowercase a) b = eq_ignore_ascii_case a b.
Proof. unfold eq_ignore_ascii_case. by rewrite to_ascii_lowercase_idemp. Qed.

#[export] Hint Resolve eq_ignore_ascii_case_refl : gateway.

(** * Prefixes and suffixes *)

(** [str::strip_prefix]. *)
Fixpoint strip_prefix (p s : bytes) : option bytes :=
  match p, s with
  | [], _ => Some s
  | a :: p, b :: s => if bool_decide (a = b) then strip_prefix p s else None
  | _ :: _, [] => None
  end.

Definition starts_with (p s : bytes) : bool := bool_decide (is_Some (strip_prefix p s)).

(** [str::strip_suffix]. *)
Definition strip_suffix (p s : bytes) : option bytes :=
  reverse <$> strip_prefix (reverse p) (reverse s).

Definition ends_with (p s : bytes) : bool := bool_decide (is_Some (strip_suffix p s)).

Lemma strip_prefix_Some p s r : strip_prefix p s = Some r ↔ s = p ++ r.
Proof.
  revert s. induction p as [|a p IH]; intros s; simpl.
  { split; congruence. }
  destruct s as [|b s]; [split; congruence|].
  case_bool_decide; subst.
  - rewrite IH. split; congruence.
  - split; congruence.
Qed.

Lemma strip_prefix_app p r : strip_prefix p (p ++ r) = Some r.
Proof. by apply strip_prefix_Some. Qed.

Lemma starts_with_iff p s : starts_with p s = true ↔ p `prefix_of` s.
Proof.
  unfold starts_with. rewrite bool_decide_eq_true. split.
  - intros [r Hr]. apply strip_prefix_Some in Hr. by exists r.
  - intros [r ->]. rewrite strip_prefix_app. by eexists.
Qed.

Lemma strip_suffix_Some p s r : strip_suffix p s = Some r ↔ s = r ++ p.
Proof.
  unfold strip_suffix. rewrite fmap_Some. split.
  - intros (x & Hx & ->). apply strip_prefix_Some in Hx.
    apply (f_equal reverse) in Hx. rewrite reverse_involutive, reverse_app in Hx.
    by rewrite Hx, reverse_involutive.
  - intros ->. exists (reverse r). rewrite reverse_app, strip_prefix_app.
    by rewrite reverse_involutive.
Qed.

Lemma ends_with_iff p s : ends_with p s = true ↔ p `suffix_of` s.
Proof.
  unfold ends_with. rewrite bool_decide_eq_true. split.
  - intros [r Hr]. apply strip_suffix_Some in Hr. by exists r.
  - intros [r ->]. exists r. by apply strip_suffix_Some.
Qed.

(** * Splitting and joining *)

(** [s.split(c)]: always at least one piece. *)
Fixpoint split_on (c : byte) (s : bytes) : list bytes :=
  match s with
  | [] => [[]]
  | b :: s =>
      if bool_decide (b = c) then [] :: split_on c s
      else match split_on c s with
           | [] => [[b]]
           | p :: ps => (b :: p) :: ps
           end
  end.

(** [s.split_once(c)]: around the first occurrence. *)
Fixpoint split_once (c : byte) (s : bytes) : option (bytes * bytes) :=
  match s with
  | [] => None
  | b :: s =>
      if bool_decide (b = c) then Some ([], s)
      else match split_once c s with
           | Some (l, r) => Some (b :: l, r)
           | None => None
           end
  end.

(** [s.rsplit_once(c)]: around the last occurrence. *)
Definition rsplit_once (c : byte) (s : bytes) : option (bytes * bytes) :=
  match split_once c (reverse s) with
  | Some (l, r) => Some (reverse r, reverse l)
  | None => None
  end.

(** [parts.join(sep)]. *)
Fixpoint join (sep : bytes) (l : list bytes) : bytes :=
  match l with
  | [] => []
  | [x] => x
  | x :: l => x ++ sep ++ join sep l
  end.

Lemma split_on_nonempty c s : split_on c s ≠ [].
Proof. destruct s; simpl; repeat case_match; done. Qed.

Lemma split_on_join c s : join [c] (split_on c s) = s.
Proof.
  induction s as [|b s IH]; simpl; [done|].
  pose proof (split_on_nonempty c s) as Hne.
  case_bool_decide; subst; destruct (split_on c s) as [|p ps]; try done; simpl in *.
  - by rewrite IH.
  - destruct ps; simpl in *; by rewrite <-IH.
Qed.

Lemma split_on_no_sep c s : Forall (λ p, c ∉ p) (split_on c s).
Proof.
  induction s as [|b s IH]; simpl.
  { repeat constructor. set_solver. }
  case_bool_decide.
  - constructor; [set_solver|done].
  - destruct (split_on c s) as [|p ps].
    + repeat constructor. set_solver.
    + inversion IH; subst. constructor; [set_solver|done].
Qed.

Lemma split_on_app_sep c a b : c ∉ a → split_on c (a ++ c :: b) = a :: split_on c b.
Proof.
  induction a as [|x a IH]; simpl; intros Hn.
  - by rewrite bool_decide_eq_true_2.
  - apply not_elem_of_cons in Hn as [Hx Ha]. rewrite bool_decide_eq_false_2 by done.
    by rewrite (IH Ha).
Qed.

Lemma split_on_clean c a : c ∉ a → split_on c a = [a].
Proof.
  induction a as [|x a IH]; simpl; intros Hn; [done|].
  apply not_elem_of_cons in Hn as [Hx Ha]. rewrite bool_decide_eq_false_2 by done.
  by rewrite (IH Ha).
Qed.

(** Splitting undoes joining when no part holds the separator. *)
Lemma split_on_joined c ps : ps ≠ [] → Forall (λ p, c ∉ p) ps → split_on c (join [c] ps) = ps.
Proof.
  induction ps as [|p ps IH]; [done|]. intros _ [Hp Hps]%Forall_cons.
  destruct ps as [|q ps]; [by apply split_on_clean|].
  change (join [c] (p :: q :: ps)) with (p ++ c :: join [c] (q :: ps)).
  rewrite split_on_app_sep by done. f_equal. by apply IH.
Qed.

Lemma split_once_Some c s l r :
  split_once c s = Some (l, r) ↔ s = l ++ c :: r ∧ c ∉ l.
Proof.
  revert l r. induction s as [|b s IH]; intros l r; simpl.
  { split; [done|]. intros [H _]. by destruct l. }
  case_bool_decide as Hb; subst.
  - split.
    + intros [= <- <-]. split; [done|set_solver].
    + intros [H1 H2]. destruct l as [|a l]; simplify_eq/=; [done|]. set_solver.
  - destruct (split_once c s) as [[l' r']|] eqn:E.
    + destruct (proj1 (IH l' r') eq_refl) as [-> ?]. split.
      * intros [= <- <-]. split; [done|set_solver].
      * intros [H1 H2]. destruct l as [|a l]; simplify_eq/=.
        assert (Some (l', r') = Some (l, r)) as [= -> ->]; [|done].
        apply IH. split; [congruence|set_solver].
    + split; [done|]. intros [H1 H2]. destruct l as [|a l]; simplify_eq/=.
      assert (None = Some (l, r)); [|done]. apply IH. split; [done|set_solver].
Qed.

Lemma split_once_None c s : split_once c s = None ↔ c ∉ s.
Proof.
  induction s as [|b s IH]; simpl; [split; [set_solver|done]|].
  case_bool_decide; subst.
  - split; [done|]. set_solver.
  - destruct (split_once c s) as [[]|]; [|set_solver].
    split; [done|]. intros Hn. destruct IH as [_ IH].
    assert (Some (l, l0) = None) by (apply IH; set_solver). done.
Qed.

(** * Unicode white space and control characters *)

(** UTF-8 encodings of the code points with the [White_Space] property. *)
Definition whitespace_encodings : list bytes :=
  [[x09]; [x0a]; [x0b]; [x0c]; [x0d]; [x20]; [xc2; x85]; [xc2; xa0]; [xe1; x9a; x80];
   [xe2; x80; x80]; [xe2; x80; x81]; [xe2; x80; x82]; [xe2; x80; x83]; [xe2; x80; x84];
   [xe2; x80; x85]; [xe2; x80; x86]; [xe2; x80; x87]; [xe2; x80; x88]; [xe2; x80; x89];
   [xe2; x80; x8a]; [xe2; x80; xa8]; [xe2; x80; xa9]; [xe2; x80; xaf]; [xe2; x81; x9f];
   [xe3; x80; x80]].

(** Drop one encoding of [encs] from the front. *)
Fixpoint strip_any (encs : list bytes) (s : bytes) : option bytes :=
  match encs with
  | [] => None
  | e :: encs =>
      match strip_prefix e s with Some r => Some r | None => strip_any encs s end
  end.

Fixpoint trim_front (fuel : nat) (encs : list bytes) (s : bytes) : bytes :=
  match fuel with
  | O => s
  | S fuel =>
      match strip_any encs s with Some r => trim_front fuel encs r | None => s end
  end.

Definition trim_start (s : bytes) : bytes := trim_front (length s) whitespace_encodings s.
Definition trim_end (s : bytes) : bytes :=
  reverse (trim_front (length s) (map reverse whitespace_encodings) (reverse s)).

(** [str::trim]. *)
Definition trim (s : bytes) : bytes := trim_end (trim_start s).

Lemma strip_any_Some encs s r :
  strip_any encs s = Some r → ∃ e, e ∈ encs ∧ s = e ++ r.
Proof.
  induction encs as [|e encs IH]; simpl; [done|].
  destruct (strip_prefix e s) eqn:E; intros H.
  - exists e. simplify_eq. apply strip_prefix_Some in E. split; [set_solver|done].
  - destruct (IH H) as (e' & ? & ?). exists e'. split; [set_solver|done].
Qed.

Lemma strip_any_None encs s :
  strip_any encs s = None → ∀ e, e ∈ encs → ¬ e `prefix_of` s.
Proof.
  induction encs as [|e encs IH]; simpl; [set_solver|].
  destruct (strip_prefix e s) eqn:E; [done|]. intros H e' [->|He']%elem_of_cons.
  - intros [r ->]. by rewrite strip_prefix_app in E.
  - by apply IH.
Qed.

Lemma trim_front_suffix fuel encs s : trim_front fuel encs s `suffix_of` s.
Proof.
  revert s. induction fuel as [|fuel IH]; intros s; simpl; [done|].
  destruct (strip_any encs s) as [r|] eqn:E; [|done].
  apply strip_any_Some in E as (e & _ & ->).
  etrans; [apply IH|]. by exists e.
Qed.

(** The fuel [length s] is enough: nothing strippable is left in front. *)
Lemma trim_front_done fuel encs s :
  [] ∉ encs → (length s ≤ fuel)%nat → strip_any encs (trim_front fuel encs s) = None.
Proof.
  intros Hne. revert s. induction fuel as [|fuel IH]; intros s Hf; simpl.
  - destruct s; [|simpl in Hf; lia].
    destruct (strip_any encs []) as [r|] eqn:E; [|done].
    apply strip_any_Some in E as (e & He & Her).
    destruct e; [done|by destruct r].
  - destruct (strip_any encs s) as [r|] eqn:E; [|done].
    apply IH. apply strip_any_Some in E as (e & He & ->).
    destruct e as [|b e]; [done|]. simpl in Hf. rewrite length_app in Hf. lia.
Qed.

Lemma trim_idempotent_on_clean s :
  strip_any whitespace_encodings s = None →
  strip_any (map reverse whitespace_encodings) (reverse s) = None → trim s = s.
Proof.
  intros H1 H2. unfold trim, trim_start, trim_end.
  assert (∀ n, trim_front n whitespace_encodings s = s) as ->.
  { intros [|n]; cbn [trim_front]; [done|]. by rewrite H1. }
  assert (∀ n, trim_front n (map reverse whitespace_encodings) (reverse s) = reverse s) as ->.
  { intros [|n]; cbn [trim_front]; [done|]. by rewrite H2. }
  apply reverse_involutive.
Qed.

(** [s.chars().any(char::is_control)]: C0, DEL and C1 (the latter are the
    two-byte encodings [0xC2 0x80..0x9F]). *)
Fixpoint has_control (s : bytes) : bool :=
  match s with
  | [] => false
  | b :: r =>
      is_ascii_control b
      || (bool_decide (b = xc2) &&
          match r with c :: _ => in_range 128 159 c | [] => false end)
      || has_control r
  end.

(** * Lossy UTF-8 decoding *)

Definition is_cont (b : byte) : bool := in_range 128 191 b.
Definition byte_at (s : bytes) (i : nat) : byte := default x00 (s !! i).

(** First scalar value of a non-empty sequence: [(true, n)] for a well-formed
    encoding of [n] bytes, [(false, n)] for an ill-formed one whose maximal
    subpart, of [n] bytes, is replaced as one unit. *)
Definition utf8_step (s : bytes) : bool * nat :=
  let a := byte_at s 0 in let b := byte_at s 1 in
  let c := byte_at s 2 in let d := byte_at s 3 in
  if bz a <? 128 then (true, 1%nat)
  else if in_range 194 223 a then
    if is_cont b then (true, 2%nat) else (false, 1%nat)
  else if in_range 224 239 a then
    if (if bz a =? 224 then in_range 160 191 b
        else if bz a =? 237 then in_range 128 159 b else is_cont b)
    then if is_cont c then (true, 3%nat) else (false, 2%nat)
    else (false, 1%nat)
  else if in_range 240 244 a then
    if (if bz a =? 240 then in_range 144 191 b
        else if bz a =? 244 then in_range 128 143 b else is_cont b)
    then if is_cont c then if is_cont d then (true, 4%nat) else (false, 3%nat)
         else (false, 2%nat)
    else (false, 1%nat)
  else (false, 1%nat).

Definition replacement : bytes := [xef; xbf; xbd].

Fixpoint lossy (fuel : nat) (s : bytes) : bytes :=
  match fuel, s with
  | S fuel, _ :: _ =>
      let '(ok, n) := utf8_step s in
      (if ok then take n s else replacement) ++ lossy fuel (drop n s)
  | _, _ => []
  end.

(** [String::from_utf8_lossy]. *)
Definition from_utf8_lossy (s : bytes) : bytes := lossy (length s) s.

(** [std::str::from_utf8(s).is_ok()]. *)
Fixpoint utf8_ok (fuel : nat) (s : bytes) : bool :=
  match s with
  | [] => true
  | _ :: _ =>
      match fuel with
      | O => false
      | S fuel => let '(ok, n) := utf8_step s in ok && utf8_ok fuel (drop n s)
      end
  end.
Definition valid_utf8 (s : bytes) : bool := utf8_ok (length s) s.

Lemma utf8_ok_mono s fuel fuel' :
  (fuel ≤ fuel')%nat → utf8_ok fuel s = true → utf8_ok fuel' s = true.
Proof.
  revert s fuel'. induction fuel as [|fuel IH]; intros s fuel' Hle H.
  - destruct s; [by destruct fuel'|done].
  - destruct fuel' as [|fuel']; [lia|].
    destruct s as [|b s]; [done|]. cbn [utf8_ok] in *.
    destruct (utf8_step (b :: s)) as [ok n].
    apply andb_true_iff in H as [-> H]. simpl. apply (IH _ fuel'); [lia|done].
Qed.

(** Well-formed text is decoded unchanged. *)
Lemma from_utf8_lossy_valid s : valid_utf8 s = true → from_utf8_lossy s = s.
Proof.
  unfold valid_utf8, from_utf8_lossy. generalize (length s) as fuel.
  intros fuel. revert s. induction fuel as [|fuel IH]; intros [|b s] H; try done.
  cbn [utf8_ok lossy] in *. destruct (utf8_step (b :: s)) as [ok n].
  apply andb_true_iff in H as [-> H]. rewrite IH by done.
  apply take_drop.
Qed.

(** ASCII text is well-formed UTF-8. *)
Lemma ascii_valid_utf8 s : Forall (λ b, bz b < 128) s → valid_utf8 s = true.
Proof.
  unfold valid_utf8. induction 1 as [|b s Hb Hs IH]; [done|].
  cbn [length utf8_ok].
  assert (utf8_step (b :: s) = (true, 1%nat)) as ->; [|done].
  unfold utf8_step. change (byte_at (b :: s) 0) with b.
  apply Z.ltb_lt in Hb. by rewrite Hb.
Qed.

(** * Integer formatting *)

Definition digit_byte (d : Z) : byte :=
  if d <? 10 then byte_of_Z (48 + d) else byte_of_Z (87 + d).

Fixpoint fmt_radix (fuel : nat) (radix z : Z) (acc : bytes) : bytes :=
  match fuel with
  | O => acc
  | S fuel =>
      let acc := digit_byte (z mod radix) :: acc in
      if z / radix =? 0 then acc else fmt_radix fuel radix (z / radix) acc
  end.

(** [{}] of an unsigned integer; 40 digits hold any 128-bit value. *)
Definition fmt_dec (z : Z) : bytes := fmt_radix 40 10 z [].
(** [{:x}] of an unsigned integer. *)
Definition fmt_hex (z : Z) : bytes := fmt_radix 40 16 z [].

(** * Lexicographic order of byte strings ([Ord] for slices) *)

Fixpoint bytes_leb (a b : bytes) : bool :=
  match a, b with
  | [], _ => true
  | _ :: _, [] => false
  | x :: a, y :: b => (bz x <? bz y) || ((bz x =? bz y) && bytes_leb a b)
  end.

Lemma bytes_leb_total a b : bytes_leb a b = true ∨ bytes_leb b a = true.
Proof.
  revert b. induction a as [|x a IH]; intros [|y b]; simpl; auto.
  destruct (IH b) as [H|H]; rewrite H;
    destruct (Z.lt_trichotomy (bz x) (bz y)) as [Hl|[Hl|Hl]].
  all: repeat case_bool; simpl; auto; lia.
Qed.

Lemma bytes_leb_antisym a b : bytes_leb a b = true → bytes_leb b a = true → a = b.
Proof.
  revert b. induction a as [|x a IH]; intros [|y b]; simpl; try done.
  intros H1 H2. apply orb_true_iff in H1, H2.
  assert (bz x = bz y) as Hxy.
  { destruct H1, H2; reflect_bool; lia. }
  apply bz_inj in Hxy as ->. f_equal.
  destruct H1, H2; reflect_bool; try lia. by apply IH.
Qed.

Lemma bytes_leb_trans a b c :
  bytes_leb a b = true → bytes_leb b c = true → bytes_leb a c = true.
Proof.
  revert b c. induction a as [|x a IH]; intros [|y b] [|z c]; simpl; try done.
  intros H1 H2. apply orb_true_iff in H1, H2. apply orb_true_iff.
  destruct H1 as [H1|H1], H2 as [H2|H2]; reflect_bool.
  - left. apply Z.ltb_lt. lia.
  - left. apply Z.ltb_lt. lia.
  - left. apply Z.ltb_lt. lia.
  - right. apply andb_true_iff. split; [apply Z.eqb_eq; lia|by eapply IH].
Qed.
