(* ===== verification/Numbers.v ===== *)
(** Decimal numbers of the standard library and of the bundled scheduler:
    [str::parse] for unsigned integers, [parse_ascii_u64] and [ascii_u64]
    ([plugins/vllm-kv-scheduler/src/choice.rs]), powers of two. *)

From S2P Require Import Prelude Text.
From Stdlib Require Import ZArith Lia.
From stdpp Require Import options.
Local Open Scope Z_scope.

(** Digits read left to right with checked arithmetic below [bound]. *)
Fixpoint parse_digits (bound : Z) (s : bytes) (v : Z) : option Z :=
  match s with
  | [] => Some v
  | b :: s =>
      if negb (is_ascii_digit b) then None
      else
        let v := v * 10 + (bz b - 48) in
        if v <? bound then parse_digits bound s v else None
  end.

Definition parse_ascii_u64 (s : bytes) : option Z :=
  match s with [] => None | _ => parse_digits (2 ^ 64) s 0 end.

(** [str::parse] at width [w]: one leading plus sign is allowed. *)
Definition parse_uint (w : Z) (s : bytes) : option Z :=
  let s := default s (strip_prefix (bs "+") s) in
  match s with [] => None | _ => parse_digits (2 ^ w) s 0 end.

(** The digits of [ascii_u64], least significant first, into a 20-byte buffer. *)
Fixpoint ascii_loop (room : nat) (v : Z) (acc : bytes) : exec bytes :=
  match room with
  | O => Panic
  | S room =>
      let acc := digit_byte (v mod 10) :: acc in
      if v / 10 =? 0 then Ret acc else ascii_loop room (v / 10) acc
  end.

Definition ascii_u64 (v : Z) : exec bytes := ascii_loop 20 v [].

Lemma digit_byte_digit d : 0 <= d < 10 → is_ascii_digit (digit_byte d) = true ∧ bz (digit_byte d) = 48 + d.
Proof.
  intros Hd. assert (d = 0 ∨ d = 1 ∨ d = 2 ∨ d = 3 ∨ d = 4 ∨ d = 5 ∨ d = 6 ∨ d = 7 ∨ d = 8 ∨ d = 9) as H by lia.
  by repeat destruct H as [->|H]; [..|subst d].
Qed.

Lemma ascii_loop_parse room v acc :
  0 <= v < 10 ^ Z.of_nat room → (room > 0)%nat → ∃ s, ascii_loop room v acc = Ret s ∧ s ≠ [] ∧
    ∀ bound, v < bound → parse_digits bound s 0 = parse_digits bound acc v.
Proof.
  revert v acc. induction room as [|room IH]; intros v acc Hv Hr; [lia|]. cbn [ascii_loop].
  destruct (digit_byte_digit (v mod 10)) as [Hd Hz]; [by apply Z.mod_pos_bound|].
  pose proof (Z.div_mod v 10). pose proof (Z.mod_pos_bound v 10).
  assert (∀ bound u, u * 10 + v mod 10 = v → v < bound →
    parse_digits bound (digit_byte (v mod 10) :: acc) u = parse_digits bound acc v) as Hcons.
  { intros bound u Hu Hb. cbn [parse_digits]. rewrite Hd, Hz. cbn [negb].
    replace (u * 10 + (48 + v mod 10 - 48)) with v by lia. by rewrite (proj2 (Z.ltb_lt v bound)). }
  destruct (Z.eqb_spec (v / 10) 0) as [E|E].
  - eexists. split_and!; [done|done|]. intros bound Hb. apply Hcons; [lia|done].
  - destruct (IH (v / 10) (digit_byte (v mod 10) :: acc)) as (s & -> & Hs & Hp).
    { split; [apply Z.div_pos; lia|]. apply Z.div_lt_upper_bound; [lia|].
      rewrite Nat2Z.inj_succ, Z.pow_succ_r in Hv by lia. lia. }
    { destruct room; [|lia]. change (10 ^ Z.of_nat 1) with 10 in Hv. destruct E. by apply Z.div_small. }
    eexists. split_and!; [done|done|]. intros bound Hb. rewrite Hp by lia. apply Hcons; [lia|done].
Qed.

(** Twenty digits are enough for every [u64], and reading them back is exact. *)
Lemma ascii_u64_roundtrip v :
  0 <= v < 2 ^ 64 → ∃ s, ascii_u64 v = Ret s ∧ parse_ascii_u64 s = Some v.
Proof.
  intros Hv. destruct (ascii_loop_parse 20 v []) as (s & E & Hs & Hp); [split; [lia|]; simpl; lia|lia|].
  exists s. split; [done|]. unfold parse_ascii_u64. destruct s; [done|]. rewrite Hp by lia. done.
Qed.

Lemma ascii_loop_length room v acc s : ascii_loop room v acc = Ret s → (length s ≤ room + length acc)%nat.
Proof.
  revert v acc. induction room as [|room IH]; intros v acc; [done|]. cbn [ascii_loop].
  destruct (v / 10 =? 0); [intros [= <-]; simpl; lia|]. intros Hs%IH. simpl in Hs. lia.
Qed.

Lemma parse_digits_range bound s v n :
  0 <= v → v < bound → parse_digits bound s v = Some n → v <= n < bound.
Proof.
  revert v. induction s as [|b s IH]; intros v Hv Hb; simpl; [intros [= <-]; lia|].
  destruct (is_ascii_digit b) eqn:E; [|done]. simpl.
  assert (48 <= bz b <= 57) as Hd.
  { unfold is_ascii_digit, in_range in E. apply andb_true_iff in E as [?%Z.leb_le ?%Z.leb_le]. lia. }
  destruct (Z.ltb_spec (v * 10 + (bz b - 48)) bound); [|done].
  intros H1. apply IH in H1; lia.
Qed.

Lemma parse_ascii_u64_range s n : parse_ascii_u64 s = Some n → 0 <= n < 2 ^ 64.
Proof. destruct s; [done|]. intros Hp. apply parse_digits_range in Hp; [done|lia|lia]. Qed.

(** [fmt_dec] writes digits, and the same ones as the buffer loop. *)
Lemma fmt_radix_digits fuel z acc :
  forallb is_ascii_digit acc = true → forallb is_ascii_digit (fmt_radix fuel 10 z acc) = true.
Proof.
  revert z acc. induction fuel as [|fuel IH]; intros z acc Ha; [done|]. cbn [fmt_radix].
  assert (forallb is_ascii_digit (digit_byte (z mod 10) :: acc) = true) as H.
  { cbn [forallb]. rewrite (proj1 (digit_byte_digit _ (Z.mod_pos_bound z 10 ltac:(lia)))). done. }
  destruct (z / 10 =? 0); [done|]. by apply IH.
Qed.

Lemma fmt_dec_digits z : forallb is_ascii_digit (fmt_dec z) = true.
Proof. by apply fmt_radix_digits. Qed.

Lemma fmt_dec_without c z : is_ascii_digit c = false → c ∉ fmt_dec z.
Proof.
  intros Hc Hin%list_elem_of_In. pose proof (fmt_dec_digits z) as H. rewrite forallb_forall in H.
  apply H in Hin. congruence.
Qed.

Lemma fmt_radix_ascii room v acc s : ascii_loop room v acc = Ret s → fmt_radix room 10 v acc = s.
Proof.
  revert v acc. induction room as [|room IH]; intros v acc; [done|]. cbn [ascii_loop fmt_radix].
  destruct (v / 10 =? 0); [by intros [= <-]|apply IH].
Qed.

(** [str::parse] of a printed number. *)
Lemma parse_fmt_dec w v : 0 <= v < 10 ^ 40 → v < 2 ^ w → parse_uint w (fmt_dec v) = Some v.
Proof.
  intros Hv Hw. destruct (ascii_loop_parse 40 v []) as (s & E & Hne & Hp); [done|lia|].
  apply fmt_radix_ascii in E. change (fmt_radix 40 10 v []) with (fmt_dec v) in E.
  assert (strip_prefix (bs "+") (fmt_dec v) = None) as Hplus.
  { destruct (strip_prefix (bs "+") (fmt_dec v)) as [r|] eqn:Es; [|done]. apply strip_prefix_Some in Es.
    pose proof (fmt_dec_digits v) as H. rewrite Es in H. done. }
  unfold parse_uint. rewrite Hplus. cbn [default from_option]. unfold id. rewrite E.
  destruct s as [|b s]; [done|]. by rewrite (Hp (2 ^ w) Hw).
Qed.

(** [Vec::dedup]: of equal neighbours the first stays. *)
Fixpoint dedup (l : list Z) : list Z :=
  match l with
  | x :: l => match dedup l with
              | y :: r => if x =? y then x :: r else x :: y :: r
              | [] => [x]
              end
  | [] => []
  end.

(** [is_power_of_two]. *)
Definition is_power_of_two (x : Z) : bool := (0 <? x) && (Z.land x (x - 1) =? 0).

Lemma is_power_of_two_spec x : is_power_of_two x = true ↔ ∃ k, 0 <= k ∧ x = 2 ^ k.
Proof.
  unfold is_power_of_two. rewrite andb_true_iff, Z.ltb_lt, Z.eqb_eq. split.
  - intros [Hx Hl]. exists (Z.log2 x). split; [apply Z.log2_nonneg|].
    pose proof (Z.log2_spec x Hx) as [H1 _]. destruct (decide (x = 2 ^ Z.log2 x)) as [|Hne]; [done|].
    assert (Z.log2 (x - 1) = Z.log2 x) as Hlog.
    { apply Z.log2_unique; [apply Z.log2_nonneg|]. pose proof (Z.log2_spec x Hx). lia. }
    assert (Z.testbit (Z.land x (x - 1)) (Z.log2 x) = true) as Hb.
    { rewrite Z.land_spec, Z.bit_log2 by done. rewrite <-Hlog at 1.
      assert (0 < 2 ^ Z.log2 x) by (apply Z.pow_pos_nonneg; [lia|apply Z.log2_nonneg]).
      rewrite Z.bit_log2 by lia. done. }
    rewrite Hl, Z.bits_0 in Hb. done.
  - intros (k & Hk & ->). split; [by apply Z.pow_pos_nonneg|].
    replace (2 ^ k - 1) with (Z.ones k) by (rewrite Z.ones_equiv; lia).
    rewrite Z.land_ones by done. by apply Z.mod_same, Z.pow_nonzero.
Qed.
