(* ===== verification/Net.v ===== *)
(** Socket addresses ([std::net]) with their equality and their [Display]
    form, which the gateway uses as a key (active health plane, forwarded
    [Host], [X-Forwarded-For], client hashing). *)

From S2P Require Import Prelude Text.
From Stdlib Require Import ZArith Lia.
From stdpp Require Import options.
Local Open Scope Z_scope.

(** An IPv4 address is its 32-bit value, an IPv6 address its 128-bit value. *)
Inductive IpAddr :=
| IpV4 (a : Z)
| IpV6 (a : Z).

Inductive SocketAddr :=
| SockV4 (ip port : Z)
| SockV6 (ip port flowinfo scope_id : Z).

#[global] Instance ip_addr_eq_dec : EqDecision IpAddr.
Proof. solve_decision. Defined.
#[global] Instance socket_addr_eq_dec : EqDecision SocketAddr.
Proof. solve_decision. Defined.

#[global] Instance socket_addr_countable : Countable SocketAddr.
Proof.
  refine (inj_countable'
    (λ a, match a with
          | SockV4 i p => inl (i, p)
          | SockV6 i p f s => inr (i, p, f, s)
          end)
    (λ x, match x with
          | inl (i, p) => SockV4 i p
          | inr (i, p, f, s) => SockV6 i p f s
          end) _).
  by intros [].
Defined.

Definition port (a : SocketAddr) : Z :=
  match a with SockV4 _ p => p | SockV6 _ p _ _ => p end.

Definition ip (a : SocketAddr) : IpAddr :=
  match a with SockV4 i _ => IpV4 i | SockV6 i _ _ _ => IpV6 i end.

(** Octet [i] (from the left) of an IPv4 address. *)
Definition octet (a i : Z) : Z := a / 2 ^ (8 * (3 - i)) mod 256.

Definition fmt_v4 (a : Z) : bytes :=
  join (bs ".") (map (λ i, fmt_dec (octet a i)) [0; 1; 2; 3]).

(** The eight 16-bit segments of an IPv6 address. *)
Definition segments (a : Z) : list Z :=
  map (λ i, a / 2 ^ (16 * (7 - i)) mod 65536) [0; 1; 2; 3; 4; 5; 6; 7].

(** Longest run of zero segments, the first one on ties: [(start, len)]. *)
Fixpoint zero_span (i : nat) (segs : list Z) (cur best : nat * nat) : nat * nat :=
  match segs with
  | [] => best
  | s :: segs =>
      if s =? 0 then
        let cur := (if bool_decide (cur.2 = 0%nat) then i else cur.1, S cur.2) in
        zero_span (S i) segs cur (if bool_decide (best.2 < cur.2)%nat then cur else best)
      else zero_span (S i) segs (0%nat, 0%nat) best
  end.

Definition fmt_segs (l : list Z) : bytes := join (bs ":") (map fmt_hex l).

Definition fmt_v6 (a : Z) : bytes :=
  if a / 2 ^ 32 =? 65535 then bs "::ffff:" ++ fmt_v4 (a mod 2 ^ 32)
  else
    let segs := segments a in
    let '(start, len) := zero_span 0 segs (0%nat, 0%nat) (0%nat, 0%nat) in
    if bool_decide (1 < len)%nat
    then fmt_segs (take start segs) ++ bs "::" ++ fmt_segs (drop (start + len) segs)
    else fmt_segs segs.

(** [IpAddr::to_string]. *)
Definition ip_to_string (a : IpAddr) : bytes :=
  match a with IpV4 a => fmt_v4 a | IpV6 a => fmt_v6 a end.

(** [SocketAddr::to_string]. *)
Definition addr_to_string (a : SocketAddr) : bytes :=
  match a with
  | SockV4 i p => fmt_v4 i ++ bs ":" ++ fmt_dec p
  | SockV6 i p _ sc =>
      bs "[" ++ fmt_v6 i ++ (if sc =? 0 then [] else bs "%" ++ fmt_dec sc)
      ++ bs "]:" ++ fmt_dec p
  end.

(** [127.0.0.1] and a loopback address on a port. *)
Definition localhost : Z := 2130706433.
Definition loopback (p : Z) : SocketAddr := SockV4 localhost p.

Example addr_v4_display : addr_to_string (loopback 9001) = bs "127.0.0.1:9001".
Proof. by vm_compute. Qed.

Example addr_v6_display :
  addr_to_string (SockV6 (8193 * 2 ^ 112 + 3512 * 2 ^ 96 + 1) 9000 0 0)
  = bs "[2001:db8::1]:9000".
Proof. by vm_compute. Qed.

Example addr_v6_mapped :
  ip_to_string (IpV6 (65535 * 2 ^ 32 + localhost)) = bs "::ffff:127.0.0.1".
Proof. by vm_compute. Qed.
