(* ===== verification/Swap.v ===== *)
(** Atomically swapped shared values ([arc_swap::ArcSwap]) and the optimistic
    update loop written around [compare_and_swap]. *)

From S2P Require Import Prelude.
From Stdlib Require Import Lia.
From stdpp Require Import options.

(** Each store installs a fresh [Arc], here a fresh version: pointer equality is
    equality of versions. *)
Record ArcSwap (A : Type) := { as_version : nat; as_value : A }.
Arguments as_version {A} _.
Arguments as_value {A} _.
Arguments Build_ArcSwap {A} _ _.

Definition store {A} (c : ArcSwap A) (a : A) : ArcSwap A :=
  {| as_version := S (as_version c); as_value := a |}.

Lemma store_versions {A} (c : ArcSwap A) l :
  as_version (foldl store c l) = length l + as_version c.
Proof. revert c. induction l as [|a l IH]; intros c; simpl; [done|]. rewrite IH. simpl. lia. Qed.

Section cas_loop.
Context {A R E W : Type}.

(** One attempt: from the loaded value, the value to publish.  [W] is what else
    the attempts work on. *)
Context (attempt : nat → W → A → W * result E (A * R)).

(** [for _ in 0..turns]: load, build, publish if nobody else did.  [others i]
    are the values other writers store between the load and the swap of turn
    [i]; [None]: every turn lost. *)
Fixpoint cas_loop (others : nat → list A) (turns i : nat) (w : W) (c : ArcSwap A)
    : W * option (result E R) * ArcSwap A :=
  match turns with
  | O => (w, None, c)
  | S turns =>
      match attempt i w (as_value c) with
      | (w, Err e) => (w, Some (Err e), foldl store c (others i))
      | (w, Ok (next, r)) =>
          let now := foldl store c (others i) in
          if as_version now =? as_version c then (w, Some (Ok r), store now next)
          else cas_loop others turns (S i) w now
      end
  end.

(** What others stored in the first [n] turns from [i]. *)
Definition stored (others : nat → list A) (i n : nat) : list A := concat (map others (seq i n)).

Lemma stored_S others i n : stored others i (S n) = others i ++ stored others (S i) n.
Proof. done. Qed.

Context (grows : W → W → Prop) `{!PreOrder grows}.
Context (attempt_grows : ∀ i w a, grows w (attempt i w a).1).

(** The loop's effect is one attempt, on the value in place when it starts, all
    of the others' values kept before it; a failed attempt publishes nothing. *)
Lemma cas_loop_spec others turns i w c :
  let '(w', r, c') := cas_loop others turns i w c in
  ∃ n w1, n ≤ turns ∧ grows w w1 ∧
    let seen := foldl store c (stored others i n) in
    match r with
    | Some (Ok x) => n < turns ∧ others (i + n) = [] ∧
        ∃ a, attempt (i + n) w1 (as_value seen) = (w', Ok (a, x)) ∧ c' = store seen a
    | Some (Err e) => n < turns ∧
        attempt (i + n) w1 (as_value seen) = (w', Err e) ∧ c' = foldl store seen (others (i + n))
    | None => w' = w1 ∧ c' = seen ∧ n = turns ∧ ∀ k, i ≤ k < i + turns → others k ≠ []
    end.
Proof using All.
  revert i w c. induction turns as [|turns IH]; intros i w c; simpl.
  { exists 0, w. split_and!; try done. intros k Hk. lia. }
  pose proof (attempt_grows i w (as_value c)) as Hg.
  destruct (attempt i w (as_value c)) as [w2 [[next x]|e]] eqn:Ef; simpl in Hg; cycle 1.
  { exists 0, w. rewrite Nat.add_0_r. split_and!; try done; lia. }
  destruct (Nat.eqb_spec (as_version (foldl store c (others i))) (as_version c)) as [Hv|Hv].
  - rewrite store_versions in Hv. assert (others i = []) as Ho by (apply length_zero_iff_nil; lia).
    exists 0, w. rewrite Nat.add_0_r, Ho. split_and!; try done; [lia..|]. by exists next.
  - specialize (IH (S i) w2 (foldl store c (others i))).
    destruct (cas_loop _ _ _ _ _) as [[w' r] c']. destruct IH as (n & w1 & Hn & Hg' & Hr).
    exists (S n), w1. split; [lia|]. split; [by etrans|].
    rewrite stored_S, foldl_app, <-Nat.add_succ_comm. cbn zeta in *.
    destruct r as [[x'|e]|].
    + destruct Hr as (? & ? & Hr). split_and!; [lia|done|done].
    + destruct Hr as (? & Hr). split_and!; [lia|apply Hr..].
    + destruct Hr as (-> & -> & -> & Ho). split_and!; try done.
      intros k Hk. destruct (decide (k = i)) as [->|]; [|apply Ho; lia].
      intros Hx. apply Hv. by rewrite Hx.
Qed.
End cas_loop.
