(* ===== verification/Phase.v ===== *)
(** Request phases and plugin decisions ([openrusty-core/src/phase.rs]) with
    the guest-side encoder of the SDK ([openrusty-sdk/src/dispatch.rs]). *)

From S2P Require Import Prelude Text.
From Stdlib Require Import ZArith Lia.
From stdpp Require Import options.
Local Open Scope Z_scope.

Inductive Phase :=
| PostRead | Rewrite | Access | Content | Balancer | HeaderFilter | BodyFilter | Log.

#[global] Instance phase_eq_dec : EqDecision Phase.
Proof. solve_decision. Defined.

(** [phase as i32]. *)
Definition phase_id (p : Phase) : Z :=
  match p with
  | PostRead => 0 | Rewrite => 1 | Access => 2 | Content => 3
  | Balancer => 4 | HeaderFilter => 5 | BodyFilter => 6 | Log => 7
  end.

Definition PHASE_COUNT : nat := 8.

Definition PRE_PROXY : list Phase := [PostRead; Rewrite; Access; Content].

Definition phase_from_i32 (v : Z) : option Phase :=
  match v with
  | 0 => Some PostRead
  | 1 => Some Rewrite
  | 2 => Some Access
  | 3 => Some Content
  | 4 => Some Balancer
  | 5 => Some HeaderFilter
  | 6 => Some BodyFilter
  | 7 => Some Log
  | _ => None
  end.

Definition phase_name (p : Phase) : bytes :=
  match p with
  | PostRead => bs "post_read"
  | Rewrite => bs "rewrite"
  | Access => bs "access"
  | Content => bs "content"
  | Balancer => bs "balancer"
  | HeaderFilter => bs "header_filter"
  | BodyFilter => bs "body_filter"
  | Log => bs "log"
  end.

(** A [Deny] status is a [u16]. *)
Inductive Decision :=
| DOk
| Declined
| Done
| Deny (status : Z).

#[global] Instance decision_eq_dec : EqDecision Decision.
Proof. solve_decision. Defined.

Module abi.
Definition OK : Z := 0.
Definition DECLINED : Z := -5.
Definition DONE : Z := -4.
Definition ERROR : Z := -1.
End abi.

Definition http_status (c : Z) : bool := (100 <=? c) && (c <=? 599).

(** [Decision::from_abi]. *)
Definition from_abi (code : Z) : option Decision :=
  match code with
  | 0 => Some DOk
  | -5 => Some Declined
  | -4 => Some Done
  | c => if http_status c then Some (Deny (wrap 16 c)) else None
  end.

(** [Decision::to_abi]. *)
Definition to_abi (d : Decision) : Z :=
  match d with
  | DOk => abi.OK
  | Declined => abi.DECLINED
  | Done => abi.DONE
  | Deny status => if http_status status then status else abi.ERROR
  end.

Definition is_terminal (d : Decision) : bool :=
  match d with Done | Deny _ => true | _ => false end.

(** The SDK's own encoder (the guest cannot depend on the core crate) and the
    [orr_on_phase] export its [dispatch!] macro generates from a table of
    handlers. *)
Module Sdk.
Definition BAD_CODE : Z := -1.

Definition to_abi (d : Decision) : Z :=
  match d with
  | DOk => 0
  | Declined => -5
  | Done => -4
  | Deny status => if http_status status then status else BAD_CODE
  end.

(** Handlers run against the guest's world [S]; the first arm whose phase
    id equals [phase] runs, no arm means [Declined]. *)
Definition orr_on_phase {S : Type} (table : list (Phase * (S → Decision * S)))
    (phase : Z) (s : S) : Z * S :=
  match list_find (λ h, phase_id h.1 = phase) table with
  | Some (_, h) => let '(d, s) := h.2 s in (to_abi d, s)
  | None => (to_abi Declined, s)
  end.
End Sdk.

(** Decisions a plugin can actually deliver over the wire. *)
Definition wire_decision (d : Decision) : Prop :=
  match d with Deny s => 100 <= s <= 599 | _ => True end.

Lemma http_status_iff c : http_status c = true ↔ 100 <= c <= 599.
Proof. unfold http_status. rewrite andb_true_iff, !Z.leb_le. done. Qed.

Lemma from_abi_deny c : 100 <= c <= 599 → from_abi c = Some (Deny c).
Proof.
  intros Hc. assert (http_status c = true) as Hs by by apply http_status_iff.
  assert (wrap 16 c = c) as Hw by (apply wrap_small; unfold in_u; lia).
  unfold from_abi. destruct c as [|p|p]; try lia. by rewrite Hs, Hw.
Qed.

Lemma sdk_to_abi_agrees d : Sdk.to_abi d = to_abi d.
Proof. by destruct d. Qed.

(** The decision codec is exact: every representable decision survives the
    round trip guest encoder -> wire -> host decoder; a [Deny] outside
    [100..=599] decodes to nothing (the failure policy applies, never [DOk]);
    and whatever the host decodes re-encodes to the code it came from. *)
Theorem decision_codec_exact :
  (∀ d, wire_decision d → from_abi (Sdk.to_abi d) = Some d) ∧
  (∀ s, ¬ (100 <= s <= 599) → from_abi (Sdk.to_abi (Deny s)) = None) ∧
  (∀ c d, from_abi c = Some d → to_abi d = c ∧ wire_decision d).
Proof.
  split_and!.
  - intros d Hd. rewrite sdk_to_abi_agrees.
    destruct d as [| | |s]; simpl; try done.
    rewrite (proj2 (http_status_iff s)) by done. by apply from_abi_deny.
  - intros s Hs. rewrite sdk_to_abi_agrees. simpl.
    destruct (http_status s) eqn:E; [|done].
    apply http_status_iff in E. done.
  - intros c d H.
    destruct (http_status c) eqn:E.
    + pose proof (proj1 (http_status_iff c) E) as Hc.
      rewrite (from_abi_deny c Hc) in H. injection H as <-. simpl. by rewrite E.
    + unfold from_abi in H. rewrite E in H.
      repeat (case_match; simplify_eq); done.
Qed.

(** Phase ids are dense: decoding inverts the discriminant, and exactly the
    ids below [PHASE_COUNT] decode. *)
Lemma phase_ids_dense v :
  (∃ p, phase_from_i32 v = Some p ∧ phase_id p = v) ↔ 0 <= v < Z.of_nat PHASE_COUNT.
Proof.
  unfold PHASE_COUNT. split.
  - intros (p & _ & <-). by destruct p.
  - intros Hv. assert (v = 0 ∨ v = 1 ∨ v = 2 ∨ v = 3 ∨ v = 4 ∨ v = 5 ∨ v = 6 ∨ v = 7)
      as Hc by lia.
    destruct_or! Hc; subst; eexists; (split; [reflexivity|done]).
Qed.

Lemma phase_from_id p : phase_from_i32 (phase_id p) = Some p.
Proof. by destruct p. Qed.
