(* ===== verification/Config.v ===== *)
(** Configuration: the typed TOML model and its validation
    ([openrusty-core/src/config.rs] and [config/*.rs]).

    Every record mirrors the struct of the same name (field prefixes keep the
    projections apart).  TOML parsing, file reading and DNS resolution are
    parameters.  [ConfigError::Invalid] carries one constructor per error site
    with the values its message interpolates, instead of the rendered text. *)

From S2P Require Import Prelude Text Net.
From Stdlib Require Import ZArith Lia.
From stdpp Require Import options.
Local Open Scope Z_scope.

(** * Data *)

Inductive FailPolicy := FailOpen | FailClosed.
Inductive BalancerKind := Swrr | IpHash | LeastConn.
Inductive ListenerRole := Inbound | Outbound | Admin.
Inductive EgressMode := Direct | Gateway | EgDeny.

#[global] Instance fail_policy_eq_dec : EqDecision FailPolicy.
Proof. solve_decision. Defined.
#[global] Instance balancer_kind_eq_dec : EqDecision BalancerKind.
Proof. solve_decision. Defined.
#[global] Instance listener_role_eq_dec : EqDecision ListenerRole.
Proof. solve_decision. Defined.
#[global] Instance egress_mode_eq_dec : EqDecision EgressMode.
Proof. solve_decision. Defined.

Definition role_as_str (r : ListenerRole) : bytes :=
  match r with
  | Inbound => bs "inbound"
  | Outbound => bs "outbound"
  | Admin => bs "admin"
  end.

Record ListenerConfig := {
  ls_role : ListenerRole;
  ls_listen : SocketAddr;
  ls_http1_only : bool;
  ls_transparent : bool;
  ls_detect_timeout_ms : Z;
  ls_tls : bool;
  ls_tls_cert : option bytes;
  ls_tls_key : option bytes;
}.

Record ServerConfig := {
  sv_listen : SocketAddr;
  sv_log_level : bytes;
  sv_log_file : option bytes;
  sv_http1_only : bool;
  sv_listeners : list ListenerConfig;
  sv_shutdown_grace_ms : Z;
}.

Record AdminConfig := { ad_token : option bytes }.

Record PluginsConfig := {
  pl_dir : bytes;
  pl_order : list bytes;
  pl_timeout_ms : Z;
  pl_max_memory_mb : Z;
  pl_on_failure : FailPolicy;
  pl_settings : gmap bytes (gmap bytes bytes);
  pl_instance_pool_size : Z;
  pl_log_on_no_route : bool;
}.

Record DynamicRoute := {
  dr_method : bytes;
  dr_path : bytes;
  dr_module : bytes;
}.

Record DynamicConfig := {
  dy_dir : bytes;
  dy_timeout_ms : Z;
  dy_max_memory_mb : Z;
  dy_on_failure : FailPolicy;
  dy_max_body_bytes : Z;
  dy_settings : gmap bytes (gmap bytes bytes);
  dy_routes : list DynamicRoute;
}.

Record PeerConfig := { pc_addr : SocketAddr; pc_weight : Z }.

Record ActiveHealthConfig := {
  ah_interval_ms : Z;
  ah_timeout_ms : Z;
  ah_path : bytes;
  ah_unhealthy_threshold : Z;
  ah_healthy_threshold : Z;
}.

Record HealthConfig := {
  hc_max_fails : Z;
  hc_fail_window_s : Z;
  hc_fail_timeout_s : Z;
  hc_active : option ActiveHealthConfig;
}.

Record UpstreamTlsConfig := {
  ut_server_name : bytes;
  ut_ca_cert : option bytes;
  ut_client_cert : option bytes;
  ut_client_key : option bytes;
  ut_insecure_skip_verify : bool;
}.

Record UpstreamConfig := {
  uc_name : bytes;
  uc_balancer : BalancerKind;
  uc_retries : Z;
  uc_retry_on_timeout : bool;
  uc_connect_timeout_ms : Z;
  uc_pool_idle_timeout_ms : Z;
  uc_peers : list PeerConfig;
  uc_endpoints : list bytes;
  uc_tls : option UpstreamTlsConfig;
  uc_health : HealthConfig;
}.

Record RouteConfig := {
  rt_path_prefix : bytes;
  rt_host : option bytes;
  rt_exact : bool;
  rt_upstream : bytes;
  rt_timeout_ms : Z;
}.

Record IngressConfig := {
  in_enabled : bool;
  in_ingress_class : bytes;
  in_kubeconfig : bytes;
  in_namespaces : list bytes;
}.

Record EgressConfig := { eg_mode : EgressMode; eg_gateway : bytes }.

Record Config := {
  cf_server : ServerConfig;
  cf_admin : AdminConfig;
  cf_plugins : PluginsConfig;
  cf_dynamic : option DynamicConfig;
  cf_upstreams : list UpstreamConfig;
  cf_routes : list RouteConfig;
  cf_ingress : IngressConfig;
  cf_egress : EgressConfig;
}.

(** * Defaults *)

Definition default_log_level : bytes := bs "warn".
Definition default_shutdown_grace_ms : Z := 5000.
Definition default_timeout_ms : Z := 50.
Definition default_max_memory_mb : Z := 16.
Definition default_instance_pool_size : Z := 1000.
Definition default_log_on_no_route : bool := true.
Definition default_weight : Z := 1.
Definition default_max_fails : Z := 3.
Definition default_fail_window_s : Z := 10.
Definition default_fail_timeout_s : Z := 10.
Definition default_active_interval_ms : Z := 1000.
Definition default_active_timeout_ms : Z := 1000.
Definition default_active_path : bytes := bs "/".
Definition default_unhealthy_threshold : Z := 2.
Definition default_healthy_threshold : Z := 2.
Definition default_connect_timeout_ms : Z := 2000.
Definition default_pool_idle_timeout_ms : Z := 60000.
Definition default_dynamic_timeout_ms : Z := 50.
Definition default_dynamic_memory_mb : Z := 16.
Definition default_dynamic_max_body_bytes : Z := 1024 * 1024.
Definition default_detect_timeout_ms : Z := 3000.
Definition default_ingress_class : bytes := bs "openrusty".

Definition default_health : HealthConfig := {|
  hc_max_fails := default_max_fails;
  hc_fail_window_s := default_fail_window_s;
  hc_fail_timeout_s := default_fail_timeout_s;
  hc_active := None;
|}.

Definition default_dynamic : DynamicConfig := {|
  dy_dir := [];
  dy_timeout_ms := default_dynamic_timeout_ms;
  dy_max_memory_mb := default_dynamic_memory_mb;
  dy_on_failure := FailOpen;
  dy_max_body_bytes := default_dynamic_max_body_bytes;
  dy_settings := ∅;
  dy_routes := [];
|}.

Definition default_ingress : IngressConfig := {|
  in_enabled := false;
  in_ingress_class := default_ingress_class;
  in_kubeconfig := [];
  in_namespaces := [];
|}.

(** [AdminConfig::effective_token]: blank values disable authentication. *)
Definition effective_token (a : AdminConfig) : option bytes :=
  t ← ad_token a;
  let t := trim t in
  if bool_decide (t = []) then None else Some t.

(** * Errors *)

Inductive invalid :=
| BadLogLevel
| PluginsTimeoutZero
| PluginsMemoryZero
| OrderDuplicate (name : bytes)
| DynTimeoutZero
| DynMemoryZero
| DynBodyZero
| DynDirEmpty
| DynSettingsKey (key : bytes)
| DynRouteMethod (method : bytes)
| DynRoutePath (path : bytes)
| DynRouteModule (module : bytes)
| DynRouteDuplicate (method path : bytes)
| ListenerRoleRepeated (i : nat) (role : ListenerRole)
| ListenerAddrRepeated (i : nat) (addr : SocketAddr)
| ListenerDetectZero (i : nat)
| ListenerTransparentTls (i : nat)
| ListenerStrayTls (i : nat)
| ListenerPartialTls (i : nat)
| ListenerNoCertSource (i : nat)
| IngressClassEmpty
| IngressNamespaceEmpty (i : nat)
| EgressGatewayUnset
| EgressGatewayUnresolvable (gateway : bytes)
| RoutesWithoutUpstreams
| UpstreamEmptyName
| UpstreamDuplicate (name : bytes)
| UpstreamNoPeers (name : bytes)
| UpstreamEndpointEmpty (name : bytes) (i : nat)
| UpstreamZeroWeight (name : bytes) (i : nat)
| TlsServerNameEmpty (name : bytes)
| TlsNoTrustAnchor (name : bytes)
| TlsHalfClientPair (name : bytes)
| ActiveIntervalZero (name : bytes)
| ActiveTimeoutZero (name : bytes)
| ActiveUnhealthyZero (name : bytes)
| ActiveHealthyZero (name : bytes)
| ActivePathRelative (name : bytes)
| RoutePrefixRelative (i : nat)
| RouteHostEmpty (i : nat)
| RouteUnknownUpstream (i : nat) (upstream : bytes).

Inductive ConfigError :=
| CfgIo
| CfgParse
| CfgInvalid (reason : invalid).

Definition bad_if (c : bool) (r : invalid) : result ConfigError () :=
  guard_err c (CfgInvalid r).

Definition is_blank (s : bytes) : bool := bool_decide (trim s = []).

(** * [config/dynamic.rs] *)

Definition valid_module_name (name : bytes) : bool :=
  match name with
  | [] => false
  | c :: rest =>
      is_ascii_alphanumeric c &&
      forallb (λ c, is_ascii_alphanumeric c || bool_decide (c ∈ bs "._-")) rest
  end.

Definition valid_setting_key (name : bytes) : bool := valid_module_name name.

Definition MAX_ROUTE_PATH_LEN : nat := 1024.

Definition is_tchar (b : byte) : bool :=
  is_ascii_alphanumeric b || bool_decide (b ∈ bs "!#$%&'*+-.^_`|~").

Definition normalize_method (method : bytes) : option bytes :=
  let m := trim method in
  if bool_decide (m = []) || (32 <? length m)%nat || negb (forallb is_tchar m)
  then None else Some (to_ascii_uppercase m).

Definition normalize_route_path (path : bytes) : option bytes :=
  if negb (starts_with (bs "/") path) || (MAX_ROUTE_PATH_LEN <? length path)%nat
  then None
  else if existsb (λ b, is_ascii_control b || bool_decide (b ∈ bs "?#")) path
  then None
  else Some path.

(** The base path of a binding: a trailing [/*] stripped. *)
Definition base_path (path : bytes) : bytes := default path (strip_suffix (bs "/*") path).

Fixpoint validate_dynamic_routes (seen : list (bytes * bytes)) (l : list DynamicRoute)
    : result ConfigError () :=
  match l with
  | [] => Ok ()
  | r :: l =>
      method ← ok_or (normalize_method (dr_method r)) (CfgInvalid (DynRouteMethod (dr_method r)));
      bad_if (bool_decide (normalize_route_path (dr_path r) = None)) (DynRoutePath (dr_path r));;
      bad_if (negb (valid_module_name (dr_module r))) (DynRouteModule (dr_module r));;
      let key := (method, base_path (dr_path r)) in
      bad_if (bool_decide (key ∈ seen)) (DynRouteDuplicate (dr_method r) (dr_path r));;
      validate_dynamic_routes (key :: seen) l
  end.

(** Keys of a [BTreeMap], in order. *)
Definition map_keys {V} (m : gmap bytes V) : list bytes :=
  sort_by bytes_leb (map_to_list m).*1.

Definition validate_dynamic (d : DynamicConfig) : result ConfigError () :=
  bad_if (dy_timeout_ms d =? 0) DynTimeoutZero;;
  bad_if (dy_max_memory_mb d =? 0) DynMemoryZero;;
  bad_if (dy_max_body_bytes d =? 0) DynBodyZero;;
  bad_if (is_blank (dy_dir d)) DynDirEmpty;;
  try_each (λ _ key, bad_if (negb (valid_setting_key key)) (DynSettingsKey key)) 0
    (map_keys (dy_settings d));;
  validate_dynamic_routes [] (dy_routes d).

(** * [config/listeners.rs] *)

Definition effective_listeners (cfg : Config) : list ListenerConfig :=
  if bool_decide (length (sv_listeners (cf_server cfg)) ≠ 0%nat)
  then sv_listeners (cf_server cfg)
  else [{|
    ls_role := Inbound;
    ls_listen := sv_listen (cf_server cfg);
    ls_http1_only := sv_http1_only (cf_server cfg);
    ls_transparent := false;
    ls_detect_timeout_ms := default_detect_timeout_ms;
    ls_tls := false;
    ls_tls_cert := None;
    ls_tls_key := None;
  |}].

Definition is_some {A} (o : option A) : bool :=
  match o with Some _ => true | None => false end.

(** The TLS material rules of one (non-outbound) listener. *)
Definition validate_listener_tls (ingress_enabled : bool) (i : nat) (l : ListenerConfig)
    : result ConfigError () :=
  if bool_decide (ls_role l = Outbound) then Ok ()
  else
    bad_if (bool_decide (ls_role l ≠ Admin) && ls_transparent l && ls_tls l)
      (ListenerTransparentTls i);;
    if negb (ls_tls l)
    then bad_if (is_some (ls_tls_cert l) || is_some (ls_tls_key l)) (ListenerStrayTls i)
    else
      let has_static := is_some (ls_tls_cert l) && is_some (ls_tls_key l) in
      let partial := xorb (is_some (ls_tls_cert l)) (is_some (ls_tls_key l)) in
      if negb has_static && negb ingress_enabled
      then if partial then Err (CfgInvalid (ListenerPartialTls i))
           else Err (CfgInvalid (ListenerNoCertSource i))
      else Ok ().

Fixpoint validate_listeners_from (ingress_enabled : bool) (roles : list ListenerRole)
    (addrs : list SocketAddr) (i : nat) (ls : list ListenerConfig)
    : result ConfigError () :=
  match ls with
  | [] => Ok ()
  | l :: ls =>
      bad_if (bool_decide (ls_role l ∈ roles)) (ListenerRoleRepeated i (ls_role l));;
      bad_if (bool_decide (ls_listen l ∈ addrs)) (ListenerAddrRepeated i (ls_listen l));;
      bad_if (ls_transparent l && (ls_detect_timeout_ms l =? 0)) (ListenerDetectZero i);;
      validate_listener_tls ingress_enabled i l;;
      validate_listeners_from ingress_enabled (ls_role l :: roles) (ls_listen l :: addrs)
        (S i) ls
  end.

Definition validate_listeners (cfg : Config) : result ConfigError () :=
  validate_listeners_from (in_enabled (cf_ingress cfg)) [] [] 0
    (sv_listeners (cf_server cfg)).

(** * [config/ingress.rs], [config/egress.rs], [config/tls.rs] *)

Definition validate_ingress (cfg : IngressConfig) : result ConfigError () :=
  bad_if (is_blank (in_ingress_class cfg)) IngressClassEmpty;;
  try_each (λ i ns, bad_if (is_blank ns) (IngressNamespaceEmpty i)) 0 (in_namespaces cfg).

Section resolver.
(** [ToSocketAddrs] of a [host:port] string: the resolver is outside the
    program. *)
Context (to_socket_addrs : bytes → option (list SocketAddr)).

(** Every [SocketAddr] is v4 or v6, so [find] takes the first answer. *)
Definition resolve_gateway (cfg : EgressConfig) : option SocketAddr :=
  addrs ← to_socket_addrs (eg_gateway cfg);
  head addrs.

Definition validate_egress (cfg : EgressConfig) : result ConfigError () :=
  if bool_decide (eg_mode cfg = Gateway) then
    bad_if (is_blank (eg_gateway cfg)) EgressGatewayUnset;;
    bad_if (bool_decide (resolve_gateway cfg = None))
      (EgressGatewayUnresolvable (eg_gateway cfg))
  else Ok ().

Definition validate_tls (upstream_name : bytes) (cfg : UpstreamTlsConfig)
    : result ConfigError () :=
  bad_if (is_blank (ut_server_name cfg)) (TlsServerNameEmpty upstream_name);;
  bad_if (negb (is_some (ut_ca_cert cfg)) && negb (ut_insecure_skip_verify cfg))
    (TlsNoTrustAnchor upstream_name);;
  bad_if (xorb (is_some (ut_client_cert cfg)) (is_some (ut_client_key cfg)))
    (TlsHalfClientPair upstream_name).

(** * [config.rs] *)

Fixpoint validate_order (seen : list bytes) (l : list bytes) : result ConfigError () :=
  match l with
  | [] => Ok ()
  | name :: l =>
      bad_if (bool_decide (name ∈ seen)) (OrderDuplicate name);;
      validate_order (name :: seen) l
  end.

Definition validate_active (name : bytes) (a : ActiveHealthConfig)
    : result ConfigError () :=
  bad_if (ah_interval_ms a =? 0) (ActiveIntervalZero name);;
  bad_if (ah_timeout_ms a =? 0) (ActiveTimeoutZero name);;
  bad_if (ah_unhealthy_threshold a =? 0) (ActiveUnhealthyZero name);;
  bad_if (ah_healthy_threshold a =? 0) (ActiveHealthyZero name);;
  bad_if (negb (starts_with (bs "/") (ah_path a))) (ActivePathRelative name).

Definition from_option_check {A} (f : A → result ConfigError ()) (o : option A)
    : result ConfigError () :=
  match o with Some a => f a | None => Ok () end.

(** One iteration of the upstream loop, past the duplicate-name check. *)
Definition validate_upstream (up : UpstreamConfig) : result ConfigError () :=
  bad_if (bool_decide (uc_peers up = []) && bool_decide (uc_endpoints up = []))
    (UpstreamNoPeers (uc_name up));;
  try_each (λ i ep, bad_if (is_blank ep) (UpstreamEndpointEmpty (uc_name up) i)) 0
    (uc_endpoints up);;
  try_each (λ i p, bad_if (pc_weight p =? 0) (UpstreamZeroWeight (uc_name up) i)) 0
    (uc_peers up);;
  from_option_check (validate_tls (uc_name up)) (uc_tls up);;
  from_option_check (validate_active (uc_name up)) (hc_active (uc_health up)).

Fixpoint validate_upstreams (seen : list bytes) (l : list UpstreamConfig)
    : result ConfigError () :=
  match l with
  | [] => Ok ()
  | up :: l =>
      bad_if (bool_decide (uc_name up = [])) UpstreamEmptyName;;
      bad_if (bool_decide (uc_name up ∈ seen)) (UpstreamDuplicate (uc_name up));;
      validate_upstream up;;
      validate_upstreams (uc_name up :: seen) l
  end.

Definition validate_route (upstreams : list UpstreamConfig) (i : nat) (r : RouteConfig)
    : result ConfigError () :=
  bad_if (negb (starts_with (bs "/") (rt_path_prefix r))) (RoutePrefixRelative i);;
  from_option_check (λ h, bad_if (is_blank h) (RouteHostEmpty i)) (rt_host r);;
  bad_if (negb (existsb (λ u, bool_decide (uc_name u = rt_upstream r)) upstreams))
    (RouteUnknownUpstream i (rt_upstream r)).

Definition log_levels : list bytes :=
  [bs "trace"; bs "debug"; bs "info"; bs "warn"; bs "error"].

(** [config::validate]. *)
Definition validate (cfg : Config) : result ConfigError () :=
  bad_if (bool_decide (sv_log_level (cf_server cfg) ∉ log_levels)) BadLogLevel;;
  bad_if (pl_timeout_ms (cf_plugins cfg) =? 0) PluginsTimeoutZero;;
  bad_if (pl_max_memory_mb (cf_plugins cfg) =? 0) PluginsMemoryZero;;
  from_option_check validate_dynamic (cf_dynamic cfg);;
  validate_listeners cfg;;
  validate_ingress (cf_ingress cfg);;
  validate_egress (cf_egress cfg);;
  validate_order [] (pl_order (cf_plugins cfg));;
  bad_if (bool_decide (cf_upstreams cfg = []) && negb (bool_decide (cf_routes cfg = [])))
    RoutesWithoutUpstreams;;
  validate_upstreams [] (cf_upstreams cfg);;
  try_each (validate_route (cf_upstreams cfg)) 0 (cf_routes cfg).

(** [apply_dynamic_dir_env], with the value of [OPENRUSTY_DYNAMIC_DIR]. *)
Definition apply_dynamic_dir_env (env : option bytes) (dynamic : option DynamicConfig)
    : option DynamicConfig :=
  match env with
  | None => dynamic
  | Some dir =>
      let dir := trim dir in
      if bool_decide (dir = []) then dynamic
      else
        let d := default default_dynamic dynamic in
        Some {|
          dy_dir := dir;
          dy_timeout_ms := dy_timeout_ms d;
          dy_max_memory_mb := dy_max_memory_mb d;
          dy_on_failure := dy_on_failure d;
          dy_max_body_bytes := dy_max_body_bytes d;
          dy_settings := dy_settings d;
          dy_routes := dy_routes d;
        |}
  end.

(** [load_config]: the file read and the TOML parser are outside. *)
Definition load_config (raw : option bytes) (from_str : bytes → option Config)
    (env : option bytes) : result ConfigError Config :=
  raw ← ok_or raw CfgIo;
  cfg ← ok_or (from_str raw) CfgParse;
  let cfg := {|
    cf_server := cf_server cfg;
    cf_admin := cf_admin cfg;
    cf_plugins := cf_plugins cfg;
    cf_dynamic := apply_dynamic_dir_env env (cf_dynamic cfg);
    cf_upstreams := cf_upstreams cfg;
    cf_routes := cf_routes cfg;
    cf_ingress := cf_ingress cfg;
    cf_egress := cf_egress cfg;
  |} in
  validate cfg;;
  Ok cfg.
End resolver.

(** * What validation guarantees *)

(** The declarative reading of a valid configuration, independent of the order
    in which [validate] tests things. *)

Definition dynamic_key (r : DynamicRoute) : bytes * bytes :=
  (default [] (normalize_method (dr_method r)), base_path (dr_path r)).

Record valid_dynamic_route (r : DynamicRoute) : Prop := {
  vdr_method : is_Some (normalize_method (dr_method r));
  vdr_path : is_Some (normalize_route_path (dr_path r));
  vdr_module : valid_module_name (dr_module r) = true;
}.

Record valid_dynamic (d : DynamicConfig) : Prop := {
  vd_timeout : dy_timeout_ms d ≠ 0;
  vd_memory : dy_max_memory_mb d ≠ 0;
  vd_body : dy_max_body_bytes d ≠ 0;
  vd_dir : trim (dy_dir d) ≠ [];
  vd_settings : ∀ k, k ∈ dom (dy_settings d) → valid_module_name k = true;
  vd_routes : Forall valid_dynamic_route (dy_routes d);
  vd_unique : NoDup (dynamic_key <$> dy_routes d);
}.

Record valid_listener (ingress_enabled : bool) (l : ListenerConfig) : Prop := {
  vl_detect : ls_transparent l = true → ls_detect_timeout_ms l ≠ 0;
  vl_intercept : ls_role l = Inbound → ls_transparent l = true → ls_tls l = false;
  vl_material : ls_role l ≠ Outbound → ls_tls l = true →
    (is_Some (ls_tls_cert l) ∧ is_Some (ls_tls_key l)) ∨ ingress_enabled = true;
  vl_stray : ls_role l ≠ Outbound → ls_tls l = false →
    ls_tls_cert l = None ∧ ls_tls_key l = None;
}.

Record valid_tls (cfg : UpstreamTlsConfig) : Prop := {
  vt_name : trim (ut_server_name cfg) ≠ [];
  vt_anchor : is_Some (ut_ca_cert cfg) ∨ ut_insecure_skip_verify cfg = true;
  vt_pair : is_Some (ut_client_cert cfg) ↔ is_Some (ut_client_key cfg);
}.

Record valid_active (a : ActiveHealthConfig) : Prop := {
  va_interval : ah_interval_ms a ≠ 0;
  va_timeout : ah_timeout_ms a ≠ 0;
  va_unhealthy : ah_unhealthy_threshold a ≠ 0;
  va_healthy : ah_healthy_threshold a ≠ 0;
  va_path : bs "/" `prefix_of` ah_path a;
}.

Record valid_upstream (up : UpstreamConfig) : Prop := {
  vu_name : uc_name up ≠ [];
  vu_targets : uc_peers up ≠ [] ∨ uc_endpoints up ≠ [];
  vu_endpoints : Forall (λ ep, trim ep ≠ []) (uc_endpoints up);
  vu_weights : Forall (λ p, pc_weight p ≠ 0) (uc_peers up);
  vu_tls : ∀ t, uc_tls up = Some t → valid_tls t;
  vu_active : ∀ a, hc_active (uc_health up) = Some a → valid_active a;
}.

Record valid_route (names : list bytes) (r : RouteConfig) : Prop := {
  vr_prefix : bs "/" `prefix_of` rt_path_prefix r;
  vr_host : ∀ h, rt_host r = Some h → trim h ≠ [];
  vr_upstream : rt_upstream r ∈ names;
}.

Record valid_config (resolve : bytes → option (list SocketAddr)) (cfg : Config) : Prop := {
  vc_log : sv_log_level (cf_server cfg) ∈ log_levels;
  vc_timeout : pl_timeout_ms (cf_plugins cfg) ≠ 0;
  vc_memory : pl_max_memory_mb (cf_plugins cfg) ≠ 0;
  vc_dynamic : ∀ d, cf_dynamic cfg = Some d → valid_dynamic d;
  vc_listeners : Forall (valid_listener (in_enabled (cf_ingress cfg)))
                   (sv_listeners (cf_server cfg));
  vc_roles : NoDup (ls_role <$> sv_listeners (cf_server cfg));
  vc_addrs : NoDup (ls_listen <$> sv_listeners (cf_server cfg));
  vc_class : trim (in_ingress_class (cf_ingress cfg)) ≠ [];
  vc_namespaces : Forall (λ ns, trim ns ≠ []) (in_namespaces (cf_ingress cfg));
  vc_gateway : eg_mode (cf_egress cfg) = Gateway →
    trim (eg_gateway (cf_egress cfg)) ≠ [] ∧ is_Some (resolve_gateway resolve (cf_egress cfg));
  vc_order : NoDup (pl_order (cf_plugins cfg));
  vc_names : NoDup (uc_name <$> cf_upstreams cfg);
  vc_upstreams : Forall valid_upstream (cf_upstreams cfg);
  vc_routes : Forall (valid_route (uc_name <$> cf_upstreams cfg)) (cf_routes cfg);
}.

(** ** Reflection lemmas, one per validator *)

Lemma bad_if_ok c r : bad_if c r = Ok () ↔ c = false.
Proof. apply guard_err_ok. Qed.

Lemma seq_ok {E} (m : result E ()) (k : result E ()) :
  (m;; k) = Ok () ↔ m = Ok () ∧ k = Ok ().
Proof.
  rewrite bind_ok. split; [|by intros [-> ->]; exists ()].
  by intros ([] & -> & ->).
Qed.

Lemma is_blank_false s : is_blank s = false ↔ trim s ≠ [].
Proof. unfold is_blank. by rewrite bool_decide_eq_false. Qed.

Lemma is_some_true {A} (o : option A) : is_some o = true ↔ is_Some o.
Proof. destruct o; simpl; [|split; [done|by intros []]]. split; [by eexists|done]. Qed.

Lemma from_option_check_ok {A} (f : A → result ConfigError ()) o :
  from_option_check f o = Ok () ↔ ∀ a, o = Some a → f a = Ok ().
Proof. destruct o; simpl; naive_solver. Qed.

Lemma try_each_bad_if {A} (c : A → bool) (r : nat → A → invalid) (P : A → Prop) l :
  (∀ x, c x = false ↔ P x) →
  try_each (λ i x, bad_if (c x) (r i x)) 0 l = Ok () ↔ Forall P l.
Proof.
  intros HP. rewrite try_each_ok, Forall_lookup.
  setoid_rewrite bad_if_ok. setoid_rewrite HP. done.
Qed.

Lemma elem_of_map_keys {V} (m : gmap bytes V) k : k ∈ map_keys m ↔ k ∈ dom m.
Proof.
  unfold map_keys. rewrite (sort_by_perm bytes_leb), list_elem_of_fmap, elem_of_dom.
  split.
  - intros ([k' v] & -> & H%elem_of_map_to_list). by exists v.
  - intros [v Hv]. exists (k, v). split; [done|by apply elem_of_map_to_list].
Qed.

Lemma validate_order_ok seen l :
  validate_order seen l = Ok () ↔ NoDup l ∧ ∀ x, x ∈ l → x ∉ seen.
Proof.
  revert seen. induction l as [|n l IH]; intros seen; simpl.
  { split; [|done]. intros _. split; [constructor|by intros ? ?%elem_of_nil]. }
  rewrite seq_ok, bad_if_ok, IH, bool_decide_eq_false.
  pose proof (seen_cons_iff id n l seen) as Hs. by rewrite !list_fmap_id in Hs.
Qed.

Lemma validate_dynamic_routes_ok seen l :
  validate_dynamic_routes seen l = Ok () ↔
  Forall valid_dynamic_route l ∧ NoDup (dynamic_key <$> l) ∧
  ∀ r, r ∈ l → dynamic_key r ∉ seen.
Proof.
  revert seen. induction l as [|r l IH]; intros seen; cbn [validate_dynamic_routes].
  { split; [|done]. intros _. split_and!; [constructor|constructor|by intros ? ?%elem_of_nil]. }
  rewrite Forall_cons, <-(seen_cons_iff dynamic_key r l seen).
  destruct (normalize_method (dr_method r)) as [m|] eqn:Em.
  2:{ split; [done|]. intros ([[[? ?] _ _] _] & _). congruence. }
  match goal with |- (_ ≫= ?f) = _ ↔ _ => change (ok_or (Some m) _ ≫= f) with (f m) end.
  assert (dynamic_key r = (m, base_path (dr_path r))) as Hk
    by (unfold dynamic_key; by rewrite Em).
  cbv beta zeta. rewrite <-Hk, !seq_ok, !bad_if_ok, IH, !bool_decide_eq_false, negb_false_iff.
  split.
  - intros (Hp & Hm & Hs & Hf & Hnd & Hseen). split_and!; try done.
    constructor; [by eexists| |done]. by apply not_eq_None_Some.
  - intros ([[_ Hp Hm] Hf] & Hs & Hnd & Hseen). split_and!; try done.
    by apply not_eq_None_Some.
Qed.

Lemma validate_dynamic_ok d : validate_dynamic d = Ok () ↔ valid_dynamic d.
Proof.
  unfold validate_dynamic.
  rewrite !seq_ok, !bad_if_ok, is_blank_false, !Z.eqb_neq, validate_dynamic_routes_ok.
  rewrite (try_each_bad_if _ _ (λ k, valid_module_name k = true))
    by (intros; apply negb_false_iff).
  rewrite Forall_forall. setoid_rewrite elem_of_map_keys. split.
  - intros (? & ? & ? & ? & ? & ? & ? & _). by constructor.
  - intros []. split_and!; try done. by intros ? _ ?%elem_of_nil.
Qed.

Lemma validate_listener_tls_ok ing i l :
  validate_listener_tls ing i l = Ok () ↔
  (ls_role l = Inbound → ls_transparent l = true → ls_tls l = false) ∧
  (ls_role l ≠ Outbound → ls_tls l = true →
    (is_Some (ls_tls_cert l) ∧ is_Some (ls_tls_key l)) ∨ ing = true) ∧
  (ls_role l ≠ Outbound → ls_tls l = false → ls_tls_cert l = None ∧ ls_tls_key l = None).
Proof.
  unfold validate_listener_tls.
  destruct l as [[] ? ? [] ? [] [c|] [k|]], ing; simpl;
    (split; [try done; intros _|by intros (?&?&?); try naive_solver]);
    split_and!; try done; intros; eauto.
Qed.

Lemma validate_listeners_from_ok ing roles addrs i ls :
  validate_listeners_from ing roles addrs i ls = Ok () ↔
  Forall (valid_listener ing) ls ∧
  (NoDup (ls_role <$> ls) ∧ ∀ l, l ∈ ls → ls_role l ∉ roles) ∧
  (NoDup (ls_listen <$> ls) ∧ ∀ l, l ∈ ls → ls_listen l ∉ addrs).
Proof.
  revert roles addrs i. induction ls as [|l ls IH]; intros roles addrs i; simpl.
  { split; [|done]. intros _. split_and!; try constructor; by intros ? ?%elem_of_nil. }
  rewrite !seq_ok, !bad_if_ok, validate_listener_tls_ok, IH, !bool_decide_eq_false.
  rewrite Forall_cons, <-(seen_cons_iff ls_role l ls roles),
    <-(seen_cons_iff ls_listen l ls addrs), andb_false_iff, Z.eqb_neq.
  split.
  - intros (Hr & Ha & Hd & (? & ? & ?) & Hf & (? & ?) & (? & ?)).
    split_and!; try done.
    constructor; try done. intros Ht. destruct Hd; congruence.
  - intros ([[Hd ? ? ?] Hf] & (? & ? & ?) & (? & ? & ?)).
    split_and!; try done.
    destruct (ls_transparent l); [right; by apply Hd|by left].
Qed.

Lemma validate_ingress_ok c :
  validate_ingress c = Ok () ↔
  trim (in_ingress_class c) ≠ [] ∧ Forall (λ ns, trim ns ≠ []) (in_namespaces c).
Proof.
  unfold validate_ingress. rewrite seq_ok, bad_if_ok, is_blank_false.
  by rewrite (try_each_bad_if _ _ (λ ns, trim ns ≠ [])) by apply is_blank_false.
Qed.

Lemma validate_egress_ok res c :
  validate_egress res c = Ok () ↔
  (eg_mode c = Gateway → trim (eg_gateway c) ≠ [] ∧ is_Some (resolve_gateway res c)).
Proof.
  unfold validate_egress. case_bool_decide as Hm; [|naive_solver].
  rewrite seq_ok, !bad_if_ok, is_blank_false, bool_decide_eq_false, not_eq_None_Some.
  naive_solver.
Qed.

Lemma validate_tls_ok n c : validate_tls n c = Ok () ↔ valid_tls c.
Proof.
  unfold validate_tls. rewrite !seq_ok, !bad_if_ok, is_blank_false, andb_false_iff.
  rewrite !negb_false_iff, is_some_true. split.
  - intros (H1 & H2 & H3). constructor; [done|done|].
    rewrite <-!is_some_true. destruct (is_some _), (is_some _); naive_solver.
  - intros [H1 H2 H3]. rewrite <-!is_some_true in H3. split_and!; [done|done|].
    destruct (is_some _), (is_some _); naive_solver.
Qed.

Lemma validate_active_ok n a : validate_active n a = Ok () ↔ valid_active a.
Proof.
  unfold validate_active.
  rewrite !seq_ok, !bad_if_ok, !Z.eqb_neq, negb_false_iff, starts_with_iff.
  split; [by intros (?&?&?&?&?); constructor|by intros []].
Qed.

Lemma validate_upstream_ok up :
  uc_name up ≠ [] → validate_upstream up = Ok () ↔ valid_upstream up.
Proof.
  intros Hn. unfold validate_upstream.
  rewrite !seq_ok, bad_if_ok, !from_option_check_ok, andb_false_iff, !bool_decide_eq_false.
  rewrite (try_each_bad_if _ _ (λ ep, trim ep ≠ [])) by apply is_blank_false.
  rewrite (try_each_bad_if _ _ (λ p, pc_weight p ≠ 0)) by (intros; apply Z.eqb_neq).
  setoid_rewrite validate_tls_ok. setoid_rewrite validate_active_ok.
  split; [by intros (?&?&?&?&?); constructor|by intros []].
Qed.

Lemma validate_upstreams_ok seen l :
  validate_upstreams seen l = Ok () ↔
  Forall valid_upstream l ∧ NoDup (uc_name <$> l) ∧ ∀ u, u ∈ l → uc_name u ∉ seen.
Proof.
  revert seen. induction l as [|u l IH]; intros seen; simpl.
  { split; [|done]. intros _. split_and!; try constructor. by intros ? ?%elem_of_nil. }
  rewrite !seq_ok, !bad_if_ok, IH, !bool_decide_eq_false.
  rewrite Forall_cons, <-(seen_cons_iff uc_name u l seen).
  split.
  - intros (Hn & Hs & Hu & Hf & Hnd & Hseen). split_and!; try done.
    by apply validate_upstream_ok.
  - intros ([Hu Hf] & Hnk & Hnd & Hseen). pose proof (vu_name _ Hu) as Hn.
    split_and!; try done. by apply validate_upstream_ok.
Qed.

Lemma validate_route_ok ups i r :
  validate_route ups i r = Ok () ↔ valid_route (uc_name <$> ups) r.
Proof.
  unfold validate_route.
  rewrite !seq_ok, !bad_if_ok, from_option_check_ok, !negb_false_iff, starts_with_iff.
  setoid_rewrite bad_if_ok. setoid_rewrite is_blank_false.
  rewrite existsb_exists. setoid_rewrite bool_decide_eq_true.
  assert ((∃ x, In x ups ∧ uc_name x = rt_upstream r) ↔ rt_upstream r ∈ uc_name <$> ups)
    as ->.
  { rewrite list_elem_of_fmap. setoid_rewrite list_elem_of_In. naive_solver. }
  split; [by intros (?&?&?); constructor|by intros []].
Qed.

(** The whole validator against its declarative reading. *)
Lemma validate_ok (resolve : bytes → option (list SocketAddr)) (cfg : Config) :
  validate resolve cfg = Ok () ↔ valid_config resolve cfg.
Proof.
  unfold validate, validate_listeners.
  rewrite !seq_ok, !bad_if_ok, from_option_check_ok, bool_decide_eq_false, !Z.eqb_neq.
  rewrite validate_listeners_from_ok, validate_ingress_ok, validate_egress_ok.
  rewrite validate_order_ok, validate_upstreams_ok, try_each_ok.
  setoid_rewrite validate_dynamic_ok. setoid_rewrite validate_route_ok.
  rewrite <-(Forall_lookup (valid_route _)).
  rewrite andb_false_iff, bool_decide_eq_false, negb_false_iff, bool_decide_eq_true.
  split.
  - intros (Hl & ? & ? & ? & (? & (? & _) & (? & _)) & (? & ?) & ? & (? & _) & _ & (? & ? & _) & ?).
    constructor; try done. by apply dec_stable in Hl.
  - intros []. split_and!; try done; try by intros ? _ ?%elem_of_nil.
    { by intros ?. }
    destruct (cf_routes cfg) as [|r rs] eqn:E; [by right|left].
    apply Forall_cons in vc_routes0 as [[_ _ Hu] _].
    intros He. rewrite He in Hu. by apply elem_of_nil in Hu.
Qed.

(** C18. [config::validate] accepts a configuration exactly when it satisfies
    the declarative invariants of every section: known log level, non-zero
    budgets, unique listener roles and addresses with consistent TLS material,
    a resolvable gateway in gateway mode, a duplicate-free plugin order, unique
    non-empty upstream names with positive weights, and routes that are
    absolute and name a configured upstream.  So no accepted configuration
    misses an invariant the rest of the gateway relies on, and no valid one is
    refused. *)
Theorem validate_sound_complete (resolve : bytes → option (list SocketAddr)) (cfg : Config) :
  validate resolve cfg = Ok () ↔ valid_config resolve cfg.
Proof. apply validate_ok. Qed.
