(* ===== verification/Document.v ===== *)
(** The configuration document: what [#[serde(default)]] and [derive(Default)]
    make of the sections and keys a TOML file leaves out
    ([openrusty-core/src/config.rs] and [config/*.rs]).

    A document is what the TOML parser hands over once every key is known,
    every value has its type and every key without a default is present; the
    parser itself is a parameter.  Each [Raw] record mirrors a configuration
    struct: a key with a default is optional, a key without one is not.  The
    [fill] functions put in the defaults of the source: the field's function,
    the container's [Default], or the [Default] of a whole missing section. *)

From S2P Require Import Prelude Text Net Config.
From Stdlib Require Import ZArith Lia.
From stdpp Require Import options.
Local Open Scope Z_scope.

(** * Documents *)

Record RawListener := {
  rl_role : ListenerRole;
  rl_listen : SocketAddr;
  rl_http1_only : option bool;
  rl_transparent : option bool;
  rl_detect_timeout_ms : option Z;
  rl_tls : option bool;
  rl_tls_cert : option bytes;
  rl_tls_key : option bytes;
}.

Record RawServer := {
  rs_listen : SocketAddr;
  rs_log_level : option bytes;
  rs_log_file : option bytes;
  rs_http1_only : option bool;
  rs_listeners : option (list RawListener);
  rs_shutdown_grace_ms : option Z;
}.

Record RawPlugins := {
  rp_dir : option bytes;
  rp_order : option (list bytes);
  rp_timeout_ms : option Z;
  rp_max_memory_mb : option Z;
  rp_on_failure : option FailPolicy;
  rp_settings : option (gmap bytes (gmap bytes bytes));
  rp_instance_pool_size : option Z;
  rp_log_on_no_route : option bool;
}.

Record RawDynamic := {
  rd_dir : bytes;
  rd_timeout_ms : option Z;
  rd_max_memory_mb : option Z;
  rd_on_failure : option FailPolicy;
  rd_max_body_bytes : option Z;
  rd_settings : option (gmap bytes (gmap bytes bytes));
  rd_routes : option (list DynamicRoute);
}.

Record RawPeer := { rpe_addr : SocketAddr; rpe_weight : option Z }.

Record RawActive := {
  ra_interval_ms : option Z;
  ra_timeout_ms : option Z;
  ra_path : option bytes;
  ra_unhealthy_threshold : option Z;
  ra_healthy_threshold : option Z;
}.

Record RawHealth := {
  rh_max_fails : option Z;
  rh_fail_window_s : option Z;
  rh_fail_timeout_s : option Z;
  rh_active : option RawActive;
}.

Record RawTls := {
  rtl_server_name : bytes;
  rtl_ca_cert : option bytes;
  rtl_client_cert : option bytes;
  rtl_client_key : option bytes;
  rtl_insecure_skip_verify : option bool;
}.

Record RawUpstream := {
  ru_name : bytes;
  ru_balancer : option BalancerKind;
  ru_retries : option Z;
  ru_retry_on_timeout : option bool;
  ru_connect_timeout_ms : option Z;
  ru_pool_idle_timeout_ms : option Z;
  ru_peers : option (list RawPeer);
  ru_endpoints : option (list bytes);
  ru_tls : option RawTls;
  ru_health : option RawHealth;
}.

Record RawRoute := {
  rr_path_prefix : bytes;
  rr_host : option bytes;
  rr_exact : option bool;
  rr_upstream : bytes;
  rr_timeout_ms : option Z;
}.

Record RawIngress := {
  ri_enabled : option bool;
  ri_ingress_class : option bytes;
  ri_kubeconfig : option bytes;
  ri_namespaces : option (list bytes);
}.

Record RawEgress := { re_mode : option EgressMode; re_gateway : option bytes }.

(** [AdminConfig] has one optional key, so a section of it is its own document. *)
Record RawConfig := {
  rc_server : RawServer;
  rc_admin : option AdminConfig;
  rc_plugins : option RawPlugins;
  rc_dynamic : option RawDynamic;
  rc_upstreams : option (list RawUpstream);
  rc_routes : option (list RawRoute);
  rc_ingress : option RawIngress;
  rc_egress : option RawEgress;
}.

(** * Derived defaults *)

(** [derive(Default)] gives every field the default of its type, whatever the
    field's serde attribute says. *)
Definition derived_plugins : PluginsConfig := {|
  pl_dir := [];
  pl_order := [];
  pl_timeout_ms := 0;
  pl_max_memory_mb := 0;
  pl_on_failure := FailOpen;
  pl_settings := ∅;
  pl_instance_pool_size := 0;
  pl_log_on_no_route := false;
|}.

Definition derived_admin : AdminConfig := {| ad_token := None |}.
Definition derived_egress : EgressConfig := {| eg_mode := Direct; eg_gateway := [] |}.

(** * Filling in *)

Definition fill_listener (r : RawListener) : ListenerConfig := {|
  ls_role := rl_role r;
  ls_listen := rl_listen r;
  ls_http1_only := default false (rl_http1_only r);
  ls_transparent := default false (rl_transparent r);
  ls_detect_timeout_ms := default default_detect_timeout_ms (rl_detect_timeout_ms r);
  ls_tls := default false (rl_tls r);
  ls_tls_cert := rl_tls_cert r;
  ls_tls_key := rl_tls_key r;
|}.

Definition fill_server (r : RawServer) : ServerConfig := {|
  sv_listen := rs_listen r;
  sv_log_level := default default_log_level (rs_log_level r);
  sv_log_file := rs_log_file r;
  sv_http1_only := default false (rs_http1_only r);
  sv_listeners := fill_listener <$> default [] (rs_listeners r);
  sv_shutdown_grace_ms := default default_shutdown_grace_ms (rs_shutdown_grace_ms r);
|}.

(** The container's [default] fills the fields that name no function of their
    own. *)
Definition fill_plugins (r : RawPlugins) : PluginsConfig := {|
  pl_dir := default (pl_dir derived_plugins) (rp_dir r);
  pl_order := default (pl_order derived_plugins) (rp_order r);
  pl_timeout_ms := default default_timeout_ms (rp_timeout_ms r);
  pl_max_memory_mb := default default_max_memory_mb (rp_max_memory_mb r);
  pl_on_failure := default FailOpen (rp_on_failure r);
  pl_settings := default (pl_settings derived_plugins) (rp_settings r);
  pl_instance_pool_size := default default_instance_pool_size (rp_instance_pool_size r);
  pl_log_on_no_route := default default_log_on_no_route (rp_log_on_no_route r);
|}.

Definition fill_dynamic (r : RawDynamic) : DynamicConfig := {|
  dy_dir := rd_dir r;
  dy_timeout_ms := default default_dynamic_timeout_ms (rd_timeout_ms r);
  dy_max_memory_mb := default default_dynamic_memory_mb (rd_max_memory_mb r);
  dy_on_failure := default FailOpen (rd_on_failure r);
  dy_max_body_bytes := default default_dynamic_max_body_bytes (rd_max_body_bytes r);
  dy_settings := default ∅ (rd_settings r);
  dy_routes := default [] (rd_routes r);
|}.

Definition fill_peer (r : RawPeer) : PeerConfig := {|
  pc_addr := rpe_addr r;
  pc_weight := default default_weight (rpe_weight r);
|}.

Definition fill_active (r : RawActive) : ActiveHealthConfig := {|
  ah_interval_ms := default default_active_interval_ms (ra_interval_ms r);
  ah_timeout_ms := default default_active_timeout_ms (ra_timeout_ms r);
  ah_path := default default_active_path (ra_path r);
  ah_unhealthy_threshold := default default_unhealthy_threshold (ra_unhealthy_threshold r);
  ah_healthy_threshold := default default_healthy_threshold (ra_healthy_threshold r);
|}.

Definition fill_health (r : RawHealth) : HealthConfig := {|
  hc_max_fails := default default_max_fails (rh_max_fails r);
  hc_fail_window_s := default default_fail_window_s (rh_fail_window_s r);
  hc_fail_timeout_s := default default_fail_timeout_s (rh_fail_timeout_s r);
  hc_active := fill_active <$> rh_active r;
|}.

Definition fill_tls (r : RawTls) : UpstreamTlsConfig := {|
  ut_server_name := rtl_server_name r;
  ut_ca_cert := rtl_ca_cert r;
  ut_client_cert := rtl_client_cert r;
  ut_client_key := rtl_client_key r;
  ut_insecure_skip_verify := default false (rtl_insecure_skip_verify r);
|}.

Definition fill_upstream (r : RawUpstream) : UpstreamConfig := {|
  uc_name := ru_name r;
  uc_balancer := default Swrr (ru_balancer r);
  uc_retries := default 0 (ru_retries r);
  uc_retry_on_timeout := default false (ru_retry_on_timeout r);
  uc_connect_timeout_ms := default default_connect_timeout_ms (ru_connect_timeout_ms r);
  uc_pool_idle_timeout_ms :=
    default default_pool_idle_timeout_ms (ru_pool_idle_timeout_ms r);
  uc_peers := fill_peer <$> default [] (ru_peers r);
  uc_endpoints := default [] (ru_endpoints r);
  uc_tls := fill_tls <$> ru_tls r;
  uc_health := default default_health (fill_health <$> ru_health r);
|}.

Definition fill_route (r : RawRoute) : RouteConfig := {|
  rt_path_prefix := rr_path_prefix r;
  rt_host := rr_host r;
  rt_exact := default false (rr_exact r);
  rt_upstream := rr_upstream r;
  rt_timeout_ms := default 0 (rr_timeout_ms r);
|}.

Definition fill_ingress (r : RawIngress) : IngressConfig := {|
  in_enabled := default false (ri_enabled r);
  in_ingress_class := default default_ingress_class (ri_ingress_class r);
  in_kubeconfig := default [] (ri_kubeconfig r);
  in_namespaces := default [] (ri_namespaces r);
|}.

Definition fill_egress (r : RawEgress) : EgressConfig := {|
  eg_mode := default Direct (re_mode r);
  eg_gateway := default [] (re_gateway r);
|}.

(** A section that is missing as a whole takes the [Default] of its struct; one
    that is present is filled key by key. *)
Definition fill (r : RawConfig) : Config := {|
  cf_server := fill_server (rc_server r);
  cf_admin := default derived_admin (rc_admin r);
  cf_plugins := default derived_plugins (fill_plugins <$> rc_plugins r);
  cf_dynamic := fill_dynamic <$> rc_dynamic r;
  cf_upstreams := fill_upstream <$> default [] (rc_upstreams r);
  cf_routes := fill_route <$> default [] (rc_routes r);
  cf_ingress := default default_ingress (fill_ingress <$> rc_ingress r);
  cf_egress := default derived_egress (fill_egress <$> rc_egress r);
|}.

(** [toml::from_str::<Config>], up to the parser. *)
Definition from_document (parse : bytes → option RawConfig) (raw : bytes) : option Config :=
  fill <$> parse raw.

(** * Every key written out *)

Definition explicit_listener (l : ListenerConfig) : RawListener := {|
  rl_role := ls_role l;
  rl_listen := ls_listen l;
  rl_http1_only := Some (ls_http1_only l);
  rl_transparent := Some (ls_transparent l);
  rl_detect_timeout_ms := Some (ls_detect_timeout_ms l);
  rl_tls := Some (ls_tls l);
  rl_tls_cert := ls_tls_cert l;
  rl_tls_key := ls_tls_key l;
|}.

Definition explicit_server (s : ServerConfig) : RawServer := {|
  rs_listen := sv_listen s;
  rs_log_level := Some (sv_log_level s);
  rs_log_file := sv_log_file s;
  rs_http1_only := Some (sv_http1_only s);
  rs_listeners := Some (explicit_listener <$> sv_listeners s);
  rs_shutdown_grace_ms := Some (sv_shutdown_grace_ms s);
|}.

Definition explicit_plugins (p : PluginsConfig) : RawPlugins := {|
  rp_dir := Some (pl_dir p);
  rp_order := Some (pl_order p);
  rp_timeout_ms := Some (pl_timeout_ms p);
  rp_max_memory_mb := Some (pl_max_memory_mb p);
  rp_on_failure := Some (pl_on_failure p);
  rp_settings := Some (pl_settings p);
  rp_instance_pool_size := Some (pl_instance_pool_size p);
  rp_log_on_no_route := Some (pl_log_on_no_route p);
|}.

Definition explicit_dynamic (d : DynamicConfig) : RawDynamic := {|
  rd_dir := dy_dir d;
  rd_timeout_ms := Some (dy_timeout_ms d);
  rd_max_memory_mb := Some (dy_max_memory_mb d);
  rd_on_failure := Some (dy_on_failure d);
  rd_max_body_bytes := Some (dy_max_body_bytes d);
  rd_settings := Some (dy_settings d);
  rd_routes := Some (dy_routes d);
|}.

Definition explicit_active (a : ActiveHealthConfig) : RawActive := {|
  ra_interval_ms := Some (ah_interval_ms a);
  ra_timeout_ms := Some (ah_timeout_ms a);
  ra_path := Some (ah_path a);
  ra_unhealthy_threshold := Some (ah_unhealthy_threshold a);
  ra_healthy_threshold := Some (ah_healthy_threshold a);
|}.

Definition explicit_health (h : HealthConfig) : RawHealth := {|
  rh_max_fails := Some (hc_max_fails h);
  rh_fail_window_s := Some (hc_fail_window_s h);
  rh_fail_timeout_s := Some (hc_fail_timeout_s h);
  rh_active := explicit_active <$> hc_active h;
|}.

Definition explicit_peer (p : PeerConfig) : RawPeer := {|
  rpe_addr := pc_addr p;
  rpe_weight := Some (pc_weight p);
|}.

Definition explicit_tls (t : UpstreamTlsConfig) : RawTls := {|
  rtl_server_name := ut_server_name t;
  rtl_ca_cert := ut_ca_cert t;
  rtl_client_cert := ut_client_cert t;
  rtl_client_key := ut_client_key t;
  rtl_insecure_skip_verify := Some (ut_insecure_skip_verify t);
|}.

Definition explicit_upstream (u : UpstreamConfig) : RawUpstream := {|
  ru_name := uc_name u;
  ru_balancer := Some (uc_balancer u);
  ru_retries := Some (uc_retries u);
  ru_retry_on_timeout := Some (uc_retry_on_timeout u);
  ru_connect_timeout_ms := Some (uc_connect_timeout_ms u);
  ru_pool_idle_timeout_ms := Some (uc_pool_idle_timeout_ms u);
  ru_peers := Some (explicit_peer <$> uc_peers u);
  ru_endpoints := Some (uc_endpoints u);
  ru_tls := explicit_tls <$> uc_tls u;
  ru_health := Some (explicit_health (uc_health u));
|}.

Definition explicit_route (r : RouteConfig) : RawRoute := {|
  rr_path_prefix := rt_path_prefix r;
  rr_host := rt_host r;
  rr_exact := Some (rt_exact r);
  rr_upstream := rt_upstream r;
  rr_timeout_ms := Some (rt_timeout_ms r);
|}.

Definition explicit_ingress (i : IngressConfig) : RawIngress := {|
  ri_enabled := Some (in_enabled i);
  ri_ingress_class := Some (in_ingress_class i);
  ri_kubeconfig := Some (in_kubeconfig i);
  ri_namespaces := Some (in_namespaces i);
|}.

Definition explicit_egress (e : EgressConfig) : RawEgress :=
  {| re_mode := Some (eg_mode e); re_gateway := Some (eg_gateway e) |}.

Definition explicit (c : Config) : RawConfig := {|
  rc_server := explicit_server (cf_server c);
  rc_admin := Some (cf_admin c);
  rc_plugins := Some (explicit_plugins (cf_plugins c));
  rc_dynamic := explicit_dynamic <$> cf_dynamic c;
  rc_upstreams := Some (explicit_upstream <$> cf_upstreams c);
  rc_routes := Some (explicit_route <$> cf_routes c);
  rc_ingress := Some (explicit_ingress (cf_ingress c));
  rc_egress := Some (explicit_egress (cf_egress c));
|}.

(** * Sections *)

Definition empty_plugins : RawPlugins := {|
  rp_dir := None; rp_order := None; rp_timeout_ms := None; rp_max_memory_mb := None;
  rp_on_failure := None; rp_settings := None; rp_instance_pool_size := None;
  rp_log_on_no_route := None;
|}.

Definition empty_health : RawHealth :=
  {| rh_max_fails := None; rh_fail_window_s := None; rh_fail_timeout_s := None;
     rh_active := None |}.

Definition empty_ingress : RawIngress :=
  {| ri_enabled := None; ri_ingress_class := None; ri_kubeconfig := None;
     ri_namespaces := None |}.

Definition empty_egress : RawEgress := {| re_mode := None; re_gateway := None |}.

Definition with_plugins (p : option RawPlugins) (r : RawConfig) : RawConfig := {|
  rc_server := rc_server r;
  rc_admin := rc_admin r;
  rc_plugins := p;
  rc_dynamic := rc_dynamic r;
  rc_upstreams := rc_upstreams r;
  rc_routes := rc_routes r;
  rc_ingress := rc_ingress r;
  rc_egress := rc_egress r;
|}.

(** An upstream with its [health] header written out. *)
Definition health_written (u : RawUpstream) : RawUpstream := {|
  ru_name := ru_name u;
  ru_balancer := ru_balancer u;
  ru_retries := ru_retries u;
  ru_retry_on_timeout := ru_retry_on_timeout u;
  ru_connect_timeout_ms := ru_connect_timeout_ms u;
  ru_pool_idle_timeout_ms := ru_pool_idle_timeout_ms u;
  ru_peers := ru_peers u;
  ru_endpoints := ru_endpoints u;
  ru_tls := ru_tls u;
  ru_health := Some (default empty_health (ru_health u));
|}.

(** The same document with every section header written out, [plugins]
    apart. *)
Definition headers_written (r : RawConfig) : RawConfig := {|
  rc_server := rc_server r;
  rc_admin := Some (default derived_admin (rc_admin r));
  rc_plugins := rc_plugins r;
  rc_dynamic := rc_dynamic r;
  rc_upstreams := Some (health_written <$> default [] (rc_upstreams r));
  rc_routes := Some (default [] (rc_routes r));
  rc_ingress := Some (default empty_ingress (rc_ingress r));
  rc_egress := Some (default empty_egress (rc_egress r));
|}.

(** The least document: an address to listen on. *)
Definition minimal (addr : SocketAddr) (p : option RawPlugins) : RawConfig := {|
  rc_server := {| rs_listen := addr; rs_log_level := None; rs_log_file := None;
                  rs_http1_only := None; rs_listeners := None;
                  rs_shutdown_grace_ms := None |};
  rc_admin := None;
  rc_plugins := p;
  rc_dynamic := None;
  rc_upstreams := None;
  rc_routes := None;
  rc_ingress := None;
  rc_egress := None;
|}.

(** * Machine ranges *)

Definition given (P : Z → Prop) (o : option Z) : Prop := ∀ z, o = Some z → P z.

(** What the parser's types promise of a document. *)
Record raw_active_typed (r : RawActive) : Prop := {
  rat_interval : given (in_u 64) (ra_interval_ms r);
  rat_timeout : given (in_u 64) (ra_timeout_ms r);
  rat_unhealthy : given (in_u 32) (ra_unhealthy_threshold r);
  rat_healthy : given (in_u 32) (ra_healthy_threshold r);
}.

Record raw_health_typed (r : RawHealth) : Prop := {
  rht_fails : given (in_u 32) (rh_max_fails r);
  rht_window : given (in_u 64) (rh_fail_window_s r);
  rht_timeout : given (in_u 64) (rh_fail_timeout_s r);
  rht_active : ∀ a, rh_active r = Some a → raw_active_typed a;
}.

Record raw_upstream_typed (r : RawUpstream) : Prop := {
  rut_retries : given (in_u 32) (ru_retries r);
  rut_connect : given (in_u 64) (ru_connect_timeout_ms r);
  rut_idle : given (in_u 64) (ru_pool_idle_timeout_ms r);
  rut_peers : ∀ l, ru_peers r = Some l → Forall (λ p, given (in_u 32) (rpe_weight p)) l;
  rut_health : ∀ h, ru_health r = Some h → raw_health_typed h;
}.

Record raw_typed (r : RawConfig) : Prop := {
  rwt_grace : given (in_u 64) (rs_shutdown_grace_ms (rc_server r));
  rwt_listeners : ∀ l, rs_listeners (rc_server r) = Some l →
    Forall (λ x, given (in_u 64) (rl_detect_timeout_ms x)) l;
  rwt_plugins : ∀ p, rc_plugins r = Some p →
    given (in_u 64) (rp_timeout_ms p) ∧ given (in_u 32) (rp_max_memory_mb p) ∧
    given (in_u 32) (rp_instance_pool_size p);
  rwt_dynamic : ∀ d, rc_dynamic r = Some d →
    given (in_u 64) (rd_timeout_ms d) ∧ given (in_u 32) (rd_max_memory_mb d) ∧
    given (in_u 64) (rd_max_body_bytes d);
  rwt_upstreams : ∀ l, rc_upstreams r = Some l → Forall raw_upstream_typed l;
  rwt_routes : ∀ l, rc_routes r = Some l → Forall (λ x, given (in_u 64) (rr_timeout_ms x)) l;
}.

(** What the configuration's field types promise. *)
Record active_typed (a : ActiveHealthConfig) : Prop := {
  at_interval : in_u 64 (ah_interval_ms a);
  at_timeout : in_u 64 (ah_timeout_ms a);
  at_unhealthy : in_u 32 (ah_unhealthy_threshold a);
  at_healthy : in_u 32 (ah_healthy_threshold a);
}.

Record health_typed (h : HealthConfig) : Prop := {
  ht_fails : in_u 32 (hc_max_fails h);
  ht_window : in_u 64 (hc_fail_window_s h);
  ht_timeout : in_u 64 (hc_fail_timeout_s h);
  ht_active : ∀ a, hc_active h = Some a → active_typed a;
}.

Record upstream_typed (u : UpstreamConfig) : Prop := {
  ut_retries : in_u 32 (uc_retries u);
  ut_connect : in_u 64 (uc_connect_timeout_ms u);
  ut_idle : in_u 64 (uc_pool_idle_timeout_ms u);
  ut_peers : Forall (λ p, in_u 32 (pc_weight p)) (uc_peers u);
  ut_health : health_typed (uc_health u);
}.

Record config_typed (c : Config) : Prop := {
  ct_grace : in_u 64 (sv_shutdown_grace_ms (cf_server c));
  ct_listeners : Forall (λ l, in_u 64 (ls_detect_timeout_ms l)) (sv_listeners (cf_server c));
  ct_timeout : in_u 64 (pl_timeout_ms (cf_plugins c));
  ct_memory : in_u 32 (pl_max_memory_mb (cf_plugins c));
  ct_pool : in_u 32 (pl_instance_pool_size (cf_plugins c));
  ct_dynamic : ∀ d, cf_dynamic c = Some d →
    in_u 64 (dy_timeout_ms d) ∧ in_u 32 (dy_max_memory_mb d) ∧ in_u 64 (dy_max_body_bytes d);
  ct_upstreams : Forall upstream_typed (cf_upstreams c);
  ct_routes : Forall (λ r, in_u 64 (rt_timeout_ms r)) (cf_routes c);
}.

(** * Round trip *)

Lemma list_fmap_cancel {A B} (f : A → B) (g : B → A) (l : list A) : (∀ x, g (f x) = x) → g <$> (f <$> l) = l.
Proof. intros H. induction l as [|x l IH]; [done|]. by rewrite !fmap_cons, H, IH. Qed.

Lemma option_fmap_cancel {A B} (f : A → B) (g : B → A) (o : option A) : (∀ x, g (f x) = x) → g <$> (f <$> o) = o.
Proof. intros H. destruct o as [x|]; [|done]. simpl. by rewrite H. Qed.

Lemma fill_explicit_health h : fill_health (explicit_health h) = h.
Proof.
  destruct h as [? ? ? a]. unfold fill_health, explicit_health. simpl. f_equal.
  apply option_fmap_cancel. by intros [].
Qed.

Lemma fill_explicit_upstream u : fill_upstream (explicit_upstream u) = u.
Proof.
  destruct u. unfold fill_upstream, explicit_upstream. simpl. f_equal.
  - apply list_fmap_cancel. by intros [].
  - apply option_fmap_cancel. by intros [].
  - apply fill_explicit_health.
Qed.

Lemma fill_explicit_server s : fill_server (explicit_server s) = s.
Proof.
  destruct s. unfold fill_server, explicit_server. simpl. f_equal.
  apply list_fmap_cancel. by intros [].
Qed.

(** A document that writes out every key is read back as it is: no default
    overrides a given value. *)
Lemma fill_explicit c : fill (explicit c) = c.
Proof.
  destruct c as [s a p d u r i e]. unfold fill, explicit. simpl. f_equal.
  - apply fill_explicit_server.
  - by destruct p.
  - apply option_fmap_cancel. by intros [].
  - apply list_fmap_cancel, fill_explicit_upstream.
  - apply list_fmap_cancel. by intros [].
  - by destruct i.
  - by destruct e.
Qed.

Lemma explicit_inj c c' : explicit c = explicit c' → c = c'.
Proof. intros H. by rewrite <-(fill_explicit c), H, fill_explicit. Qed.

(** * A missing section is an empty section, except for [plugins] *)

Lemma fill_health_written u : fill_upstream (health_written u) = fill_upstream u.
Proof. by destruct u as [? ? ? ? ? ? ? ? ? []]. Qed.

(** The two default mechanisms agree wherever [Default] is written by hand, or
    every key of the section defaults to its type's default. *)
Lemma absent_section_is_empty r : fill (headers_written r) = fill r.
Proof.
  destruct r as [s a p d u ro i e]. unfold fill, headers_written. simpl. f_equal.
  - rewrite <-list_fmap_compose. apply list_fmap_ext. intros ? ? _.
    apply fill_health_written.
  - by destruct i.
  - by destruct e.
Qed.

(** [PluginsConfig] derives [Default] although four of its keys default to
    something else: leaving the section out is not leaving its keys out. *)
Lemma absent_plugins_differ :
  fill_plugins empty_plugins = {|
    pl_dir := pl_dir derived_plugins;
    pl_order := pl_order derived_plugins;
    pl_timeout_ms := 50;
    pl_max_memory_mb := 16;
    pl_on_failure := pl_on_failure derived_plugins;
    pl_settings := pl_settings derived_plugins;
    pl_instance_pool_size := 1000;
    pl_log_on_no_route := true;
  |} ∧
  pl_timeout_ms derived_plugins = 0 ∧ pl_max_memory_mb derived_plugins = 0 ∧
  pl_instance_pool_size derived_plugins = 0 ∧ pl_log_on_no_route derived_plugins = false.
Proof. done. Qed.

(** * Loading a document *)

Section loading.
Context (resolve : bytes → option (list SocketAddr)) (parse : bytes → option RawConfig).
Context (env : option bytes).

Definition load_document (raw : option bytes) : result ConfigError Config :=
  load_config resolve raw (from_document parse) env.

(** Success: the configuration loaded is the filled document, with the module
    directory of the environment, and it is valid. *)
Lemma load_document_ok raw c :
  load_document raw = Ok c ↔
  ∃ text doc, raw = Some text ∧ parse text = Some doc ∧ valid_config resolve c ∧
    c = {| cf_server := cf_server (fill doc);
           cf_admin := cf_admin (fill doc);
           cf_plugins := cf_plugins (fill doc);
           cf_dynamic := apply_dynamic_dir_env env (cf_dynamic (fill doc));
           cf_upstreams := cf_upstreams (fill doc);
           cf_routes := cf_routes (fill doc);
           cf_ingress := cf_ingress (fill doc);
           cf_egress := cf_egress (fill doc) |}.
Proof.
  unfold load_document, load_config, from_document. split.
  - intros (text & Ht & (c0 & Hc & ([] & Hv & [= <-])%bind_ok)%bind_ok)%bind_ok.
    destruct raw as [t|]; [|done]. injection Ht as <-.
    destruct (parse t) as [doc|] eqn:Ed; [|done]. injection Hc as <-.
    exists t, doc. split_and!; try done. by apply validate_ok.
  - intros (text & doc & -> & Hp & Hv & ->).
    apply bind_ok. exists text. split; [done|]. cbv beta. rewrite Hp.
    apply bind_ok. exists (fill doc). split; [done|]. apply bind_ok. exists (). split; [|done].
    by apply validate_ok.
Qed.

(** Without a [plugins] header no document loads, whatever else it says. *)
Lemma absent_plugins_refused text doc :
  parse text = Some doc → rc_plugins doc = None →
  load_document (Some text) = Err (CfgInvalid PluginsTimeoutZero) ∨
  load_document (Some text) = Err (CfgInvalid BadLogLevel) ∧
    default default_log_level (rs_log_level (rc_server doc)) ∉ log_levels.
Proof.
  intros Hp Hn. unfold load_document, load_config, from_document. simpl. rewrite Hp. simpl.
  unfold validate. simpl. rewrite Hn. simpl.
  destruct (decide (default default_log_level (rs_log_level (rc_server doc)) ∈ log_levels)) as [Hl|Hl].
  - left. rewrite bool_decide_false; [done|]. intros Hc. by apply Hc.
  - right. split; [|done]. by rewrite bool_decide_true.
Qed.

End loading.

Lemma valid_config_plugins res c p :
  valid_config res c →
  pl_timeout_ms p ≠ 0 → pl_max_memory_mb p ≠ 0 → NoDup (pl_order p) →
  valid_config res
    {| cf_server := cf_server c; cf_admin := cf_admin c; cf_plugins := p;
       cf_dynamic := cf_dynamic c; cf_upstreams := cf_upstreams c; cf_routes := cf_routes c;
       cf_ingress := cf_ingress c; cf_egress := cf_egress c |}.
Proof. intros [] ? ? ?. by constructor. Qed.

(** A bare [plugins] header is what decides: any document some [plugins]
    section makes valid is valid with an empty one and invalid with none. *)
Lemma plugins_header_decides res p r :
  valid_config res (fill (with_plugins (Some p) r)) →
  valid_config res (fill (with_plugins (Some empty_plugins) r)) ∧
  ¬ valid_config res (fill (with_plugins None r)).
Proof.
  intros Hv. split.
  - apply (valid_config_plugins res _ (fill_plugins empty_plugins)) in Hv;
      [done|done|done|constructor].
  - intros Hn. by apply vc_timeout in Hn.
Qed.

(** The least document: an address and a bare [plugins] header load, into one
    plaintext HTTP listener on that address with nothing to route to. *)
Lemma minimal_document_loads res parse text addr :
  parse text = Some (minimal addr (Some empty_plugins)) →
  ∃ c, load_document res parse None (Some text) = Ok c ∧
    cf_upstreams c = [] ∧ cf_routes c = [] ∧ cf_dynamic c = None ∧
    effective_token (cf_admin c) = None ∧ eg_mode (cf_egress c) = Direct ∧
    ∃ l, effective_listeners c = [l] ∧ ls_role l = Inbound ∧ ls_listen l = addr ∧
      ls_tls l = false ∧ ls_transparent l = false.
Proof.
  intros Hp. eexists. split.
  { apply load_document_ok. eexists _, _. split_and!; [done|exact Hp| |done].
    apply validate_ok. vm_compute. reflexivity. }
  split_and!; try done. eexists. by split_and!.
Qed.

(** * Machine ranges *)

Lemma given_default (P : Z → Prop) d o : given P o → P d → P (default d o).
Proof. intros Hg Hd. destruct o as [z|]; [by apply Hg|done]. Qed.

(** A key with a default that fits, given a value that fits. *)
Ltac fits :=
  simpl; first [apply given_default; [assumption|] | idtac]; vm_compute; split; congruence.

Lemma fill_active_typed r : raw_active_typed r → active_typed (fill_active r).
Proof. intros []. constructor; fits. Qed.

Lemma fill_health_typed r : raw_health_typed r → health_typed (fill_health r).
Proof.
  intros [? ? ? Ha]. constructor; [fits..|].
  intros a (x & Hx & ->)%fmap_Some. by apply fill_active_typed, Ha.
Qed.

Lemma default_health_typed : health_typed default_health.
Proof. constructor; [fits..|done]. Qed.

(** A list under an optional key, filled element by element. *)
Lemma fill_list_typed {A B} (f : A → B) (P : A → Prop) (Q : B → Prop) (o : option (list A)) :
  (∀ x, P x → Q (f x)) → (∀ l, o = Some l → Forall P l) → Forall Q (f <$> default [] o).
Proof.
  intros Hf Ho. destruct o as [l|]; simpl; [|constructor].
  apply Forall_fmap. eapply Forall_impl; [by apply Ho|exact Hf].
Qed.

Lemma fill_upstream_typed r : raw_upstream_typed r → upstream_typed (fill_upstream r).
Proof.
  intros [? ? ? Hp Hh]. constructor; [fits..| |].
  - eapply fill_list_typed; [|exact Hp]. intros x Hx. fits.
  - simpl. destruct (ru_health r) as [h|]; simpl; [by apply fill_health_typed, Hh|].
    apply default_health_typed.
Qed.

Lemma fill_plugins_typed o :
  (∀ p, o = Some p → given (in_u 64) (rp_timeout_ms p) ∧ given (in_u 32) (rp_max_memory_mb p) ∧
     given (in_u 32) (rp_instance_pool_size p)) →
  let p := default derived_plugins (fill_plugins <$> o) in
  in_u 64 (pl_timeout_ms p) ∧ in_u 32 (pl_max_memory_mb p) ∧ in_u 32 (pl_instance_pool_size p).
Proof.
  intros H. destruct o as [p|]; simpl; [|split_and!; fits].
  destruct (H p eq_refl) as (? & ? & ?). split_and!; fits.
Qed.

(** Filling keeps every number inside the width of its field: the defaults fit
    their types. *)
Lemma fill_typed r : raw_typed r → config_typed (fill r).
Proof.
  intros [Hg Hl (? & ? & ?)%fill_plugins_typed Hd Hu Hr]. constructor; try done.
  - fits.
  - eapply fill_list_typed; [|exact Hl]. intros x Hx. fits.
  - intros d (x & Hx & ->)%fmap_Some. destruct (Hd x Hx) as (? & ? & ?). split_and!; fits.
  - eapply fill_list_typed; [|exact Hu]. exact fill_upstream_typed.
  - eapply fill_list_typed; [|exact Hr]. intros x Hx. fits.
Qed.
