(* ===== verification/Balancer.v ===== *)
(** Peer-selection algorithms ([openrusty-proxy/src/balancer.rs]): FNV-1a
    [ip_hash], nginx smooth weighted round-robin and [least_conn]. *)

From S2P Require Import Prelude Text.
From Stdlib Require Import ZArith Lia.
From stdpp Require Import options.
Local Open Scope Z_scope.

(** What the proxy expects of a balancer over a candidate list: it answers
    nothing exactly when there is no candidate, and otherwise a candidate. *)
Class PickSpec (pick : list nat → option nat) : Prop := {
  pick_none : ∀ l, pick l = None ↔ l = [];
  pick_mem : ∀ l i, pick l = Some i → i ∈ l;
}.

(** * FNV-1a and [ip_hash] *)

Definition FNV_OFFSET : Z := 14695981039346656037. (* 0xcbf29ce484222325 *)
Definition FNV_PRIME : Z := 1099511628211.         (* 0x00000100000001b3 *)

Definition fnv1a64 (data : bytes) : Z :=
  foldl (λ hash b, wrap 64 (Z.lxor hash (bz b) * FNV_PRIME)) FNV_OFFSET data.

Definition ip_hash_pick (client_ip : bytes) (healthy : list nat) : option nat :=
  if bool_decide (healthy = []) then None
  else healthy !! Z.to_nat (fnv1a64 client_ip mod Z.of_nat (length healthy)).

Example fnv1a64_empty : fnv1a64 [] = 0xcbf29ce484222325.
Proof. reflexivity. Qed.
Example fnv1a64_a : fnv1a64 (bs "a") = 0xaf63dc4c8601ec8c.
Proof. reflexivity. Qed.
Example fnv1a64_foobar : fnv1a64 (bs "foobar") = 0x85944171f73967e8.
Proof. reflexivity. Qed.

Lemma ip_hash_slot (ip : bytes) (healthy : list nat) :
  healthy ≠ [] →
  (Z.to_nat (fnv1a64 ip mod Z.of_nat (length healthy)) < length healthy)%nat.
Proof.
  intros H. destruct healthy as [|i l]; [done|].
  pose proof (Z.mod_pos_bound (fnv1a64 ip) (Z.of_nat (length (i :: l)))). simpl length in *. lia.
Qed.

#[export] Instance ip_hash_pick_spec (ip : bytes) : PickSpec (ip_hash_pick ip).
Proof.
  split; unfold ip_hash_pick.
  - intros l. case_bool_decide as Hl; [done|].
    pose proof (ip_hash_slot ip l Hl) as H.
    apply lookup_lt_is_Some_2 in H as [x Hx]. rewrite Hx. done.
  - intros l i. case_bool_decide; [done|]. apply list_elem_of_lookup_2.
Qed.

(** * [least_conn] *)

(** Cross-multiplied comparison [in_flight[i] / weights[i] <
    in_flight[best] / weights[best]] over [u128]. *)
Definition lc_less (in_flight weights : list Z) (i best : nat) : exec bool :=
  fi ← index in_flight i; wb ← index weights best;
  fb ← index in_flight best; wi ← index weights i;
  Ret (wrap 128 (fi * wb) <? wrap 128 (fb * wi)).

Fixpoint lc_loop (in_flight weights : list Z) (best : nat) (l : list nat) : exec nat :=
  match l with
  | [] => Ret best
  | i :: l =>
      less ← lc_less in_flight weights i best;
      lc_loop in_flight weights (if less : bool then i else best) l
  end.

Definition least_conn_pick (in_flight weights : list Z) (healthy : list nat)
    : exec (option nat) :=
  match healthy with
  | [] => Ret None
  | best :: rest => i ← lc_loop in_flight weights best rest; Ret (Some i)
  end.

(** The gauges and weights the gateway passes: [usize] counters, non-zero
    [u32] weights, one of each per peer. *)
Record lc_inputs (in_flight weights : list Z) : Prop := {
  lci_len : length in_flight = length weights;
  lci_flights : Forall (in_u 64) in_flight;
  lci_weights : Forall (λ w, 0 < w < 2 ^ 32) weights;
}.

(** Load ratio order, without division. *)
Definition load_le (in_flight weights : list Z) (i j : nat) : Prop :=
  in_flight !!! i * weights !!! j <= in_flight !!! j * weights !!! i.
Definition load_lt (in_flight weights : list Z) (i j : nat) : Prop :=
  in_flight !!! i * weights !!! j < in_flight !!! j * weights !!! i.

Section least_conn.
Context (in_flight weights : list Z) (Hin : lc_inputs in_flight weights).

Lemma lci_lookup i :
  (i < length weights)%nat →
  ∃ f w, in_flight !! i = Some f ∧ weights !! i = Some w ∧ in_u 64 f ∧ 0 < w < 2 ^ 32.
Proof using Hin.
  destruct Hin as [Hl Hf Hw]. intros Hi.
  destruct (lookup_lt_is_Some_2 weights i Hi) as [w Ew].
  destruct (lookup_lt_is_Some_2 in_flight i) as [f Ef]; [lia|].
  exists f, w. split_and!; try done.
  - by eapply (Forall_lookup_1 (in_u 64)).
  - by apply (Forall_lookup_1 _ _ _ _ Hw Ew).
  - by apply (Forall_lookup_1 _ _ _ _ Hw Ew).
Qed.

Lemma lc_less_exact i b :
  (i < length weights)%nat → (b < length weights)%nat →
  lc_less in_flight weights i b =
    Ret (in_flight !!! i * weights !!! b <? in_flight !!! b * weights !!! i).
Proof using Hin.
  intros Hi Hb.
  destruct (lci_lookup i Hi) as (fi & wi & Efi & Ewi & Hfi & Hwi).
  destruct (lci_lookup b Hb) as (fb & wb & Efb & Ewb & Hfb & Hwb).
  unfold lc_less, index. rewrite Efi, Ewi, Efb, Ewb. simpl.
  rewrite (list_lookup_total_correct _ _ _ Efi), (list_lookup_total_correct _ _ _ Ewi),
    (list_lookup_total_correct _ _ _ Efb), (list_lookup_total_correct _ _ _ Ewb).
  unfold in_u in *. rewrite !wrap_small by (unfold in_u; nia). done.
Qed.

Lemma load_le_refl i : load_le in_flight weights i i.
Proof. unfold load_le. lia. Qed.

Lemma load_lt_le_trans i j k :
  (i < length weights)%nat → (j < length weights)%nat → (k < length weights)%nat →
  load_lt in_flight weights i j → load_le in_flight weights j k →
  load_lt in_flight weights i k.
Proof using Hin.
  unfold load_lt, load_le. intros Hi Hj Hk.
  destruct (lci_lookup i Hi) as (fi & wi & Efi & Ewi & Hfi & Hwi).
  destruct (lci_lookup j Hj) as (fj & wj & Efj & Ewj & Hfj & Hwj).
  destruct (lci_lookup k Hk) as (fk & wk & Efk & Ewk & Hfk & Hwk).
  rewrite !(list_lookup_total_correct _ _ _ Efi), !(list_lookup_total_correct _ _ _ Ewi),
    !(list_lookup_total_correct _ _ _ Efj), !(list_lookup_total_correct _ _ _ Ewj),
    !(list_lookup_total_correct _ _ _ Efk), !(list_lookup_total_correct _ _ _ Ewk).
  unfold in_u in *. intros H1 H2.
  (* fi wj < fj wi and fj wk <= fk wj give fi wk wj < fk wi wj. *)
  assert (fi * wj * wk < fj * wi * wk) by nia.
  assert (fj * wk * wi <= fk * wj * wi) by nia.
  nia.
Qed.

(** The loop keeps a minimum of what it has seen, the earliest on ties. *)
Lemma lc_loop_spec pre best mid l :
  Forall (λ i, i < length weights)%nat (pre ++ best :: mid ++ l) →
  Forall (load_lt in_flight weights best) pre →
  Forall (load_le in_flight weights best) mid →
  ∃ pre' post k, lc_loop in_flight weights best l = Ret k ∧
    pre ++ best :: mid ++ l = pre' ++ k :: post ∧
    Forall (load_lt in_flight weights k) pre' ∧
    Forall (load_le in_flight weights k) post.
Proof using Hin.
  revert pre best mid. induction l as [|i l IH]; intros pre best mid Hrng Hpre Hmid; simpl.
  { exists pre, mid, best. by rewrite app_nil_r. }
  pose proof Hrng as Hr. rewrite !Forall_app, !Forall_cons, Forall_app, Forall_cons in Hr.
  destruct Hr as (Hp & Hb & Hm & Hi & Hl).
  rewrite lc_less_exact by done. simpl. case_bool.
  - assert (∀ x, (x < length weights)%nat → load_le in_flight weights best x →
                 load_lt in_flight weights i x) as Hlt.
    { intros x Hx. by apply load_lt_le_trans. }
    destruct (IH (pre ++ best :: mid) i []) as (pre' & post & k & H'); [| |by constructor|].
    + by rewrite <-app_assoc.
    + rewrite Forall_app, Forall_cons. split_and!; [|done|].
      * eapply Forall_impl; [apply Forall_and, (conj Hp Hpre)|].
        intros x [? ?]. apply Hlt; [done|]. by apply Z.lt_le_incl.
      * eapply Forall_impl; [apply Forall_and, (conj Hm Hmid)|].
        intros x [? ?]. by apply Hlt.
    + exists pre', post, k. by rewrite <-app_assoc in H'.
  - destruct (IH pre best (mid ++ [i])) as (pre' & post & k & H'); [|done| |].
    + by rewrite <-app_assoc.
    + rewrite Forall_app. split; [done|]. by repeat constructor.
    + exists pre', post, k. by rewrite <-app_assoc in H'.
Qed.
End least_conn.

(** [least_conn_pick] over the healthy candidates never panics, answers
    nothing only when there is no candidate, and otherwise the first candidate
    whose in-flight/weight ratio is minimal: strictly smaller than every
    earlier candidate's, no larger than every later one's.  The [u128]
    cross-products never wrap. *)
Theorem least_conn_first_minimum (in_flight weights : list Z) (healthy : list nat) :
  lc_inputs in_flight weights →
  Forall (λ i, i < length weights)%nat healthy →
  (healthy = [] ∧ least_conn_pick in_flight weights healthy = Ret None) ∨
  ∃ pre k post, healthy = pre ++ k :: post ∧
    least_conn_pick in_flight weights healthy = Ret (Some k) ∧
    Forall (load_lt in_flight weights k) pre ∧
    Forall (load_le in_flight weights k) post.
Proof.
  intros Hin Hr. destruct healthy as [|b l]; [by left|right].
  destruct (lc_loop_spec in_flight weights Hin [] b [] l)
    as (pre & post & k & Hk & Hs & ? & ?); [done|by constructor|by constructor|].
  exists pre, k, post. split_and!; try done. simpl. by rewrite Hk.
Qed.

(** * Smooth weighted round-robin *)

Definition i64 (z : Z) : Z := to_signed 64 z.

(** Index of the first maximum, scanning from [i] with [best] so far. *)
Fixpoint argmax_from (best : nat) (bestv : Z) (i : nat) (l : list Z) : nat :=
  match l with
  | [] => best
  | v :: l =>
      if bestv <? v then argmax_from i v (S i) l else argmax_from best bestv (S i) l
  end.

Definition argmax (l : list Z) : nat :=
  match l with [] => 0%nat | v :: l => argmax_from 0 v 1 l end.

(** One step over machine integers; [Panic] is a failed [assert!]. *)
Definition swrr_next (weights current : list Z) : exec (nat * list Z) :=
  if bool_decide (weights = []) then Panic
  else if bool_decide (length weights ≠ length current) then Panic
  else
    let current := zip_with (λ eff w, i64 (eff + w)) current weights in
    let total := foldl (λ t w, i64 (t + w)) 0 weights in
    let best := argmax current in
    v ← index current best;
    Ret (best, <[best := i64 (v - total)]> current).

(** The same step over unbounded integers. *)
Definition swrr_step (weights current : list Z) : nat * list Z :=
  let current := zip_with Z.add current weights in
  let best := argmax current in
  (best, <[best := current !!! best - zsum weights]> current).

(** [n] consecutive picks: the chosen indices and the final state. *)
Fixpoint swrr_run (n : nat) (weights current : list Z) : exec (list nat * list Z) :=
  match n with
  | O => Ret ([], current)
  | S n =>
      '(k, current) ← swrr_next weights current;
      '(ks, current) ← swrr_run n weights current;
      Ret (k :: ks, current)
  end.

(** How often [i] was picked. *)
Definition picks (i : nat) (ks : list nat) : Z :=
  Z.of_nat (length (filter (λ k, k = i) ks)).

Lemma argmax_from_spec best bestv i (l pre : list Z) :
  length pre = i → pre !! best = Some bestv → Forall (λ v, v <= bestv) pre →
  ∃ v, (pre ++ l) !! argmax_from best bestv i l = Some v ∧
       Forall (λ x, x <= v) (pre ++ l).
Proof.
  revert best bestv i pre. induction l as [|v l IH]; intros best bestv i pre Hi Hb Hf; simpl.
  { exists bestv. by rewrite app_nil_r. }
  rewrite (cons_middle v pre l), app_assoc. case_bool; apply IH.
  - rewrite length_app. simpl. lia.
  - rewrite lookup_app_r by lia. by replace (i - length pre)%nat with 0%nat by lia.
  - rewrite Forall_app. split; [|by repeat constructor].
    eapply Forall_impl; [done|]. simpl. lia.
  - rewrite length_app. simpl. lia.
  - by apply lookup_app_l_Some.
  - rewrite Forall_app. split; [done|]. by repeat constructor.
Qed.

(** [argmax] returns the position of a maximum. *)
Lemma argmax_spec (l : list Z) :
  l ≠ [] → ∃ v, l !! argmax l = Some v ∧ Forall (λ x, x <= v) l.
Proof.
  destruct l as [|v l]; [done|]. intros _.
  apply (argmax_from_spec 0 v 1 l [v]); [done|done|by repeat constructor].
Qed.

(** A weight vector as a validated configuration provides it: non-empty,
    non-zero [u32] weights, small enough for [i64] (any pool of at most 46340
    peers qualifies, whatever its weights). *)
Record swrr_weights (w : list Z) : Prop := {
  sw_nonempty : w ≠ [];
  sw_positive : Forall (λ x, 0 < x) w;
  sw_bound : Z.of_nat (length w) * zsum w < 2 ^ 63;
}.

(** State between picks: effective weights sum to zero and none has fallen a
    full cycle behind. *)
Record swrr_inv (w cur : list Z) : Prop := {
  si_len : length cur = length w;
  si_sum : zsum cur = 0;
  si_low : Forall (λ c, - zsum w < c) cur;
}.

Lemma zsum_zip_add (a b : list Z) :
  length a = length b → zsum (zip_with Z.add a b) = zsum a + zsum b.
Proof.
  revert b. induction a as [|x a IH]; intros [|y b]; simpl; try done.
  intros [= H]. rewrite IH by done. lia.
Qed.

Lemma zsum_positive w : w ≠ [] → Forall (λ x, 0 < x) w → 0 < zsum w.
Proof.
  intros Hne H. destruct H as [|x l Hx Hl]; [done|]. simpl.
  pose proof (zsum_nonneg l). enough (0 <= zsum l) by lia. apply H.
  eapply Forall_impl; [done|]. simpl. lia.
Qed.

Lemma zsum_elem_le l x : Forall (λ x, 0 <= x) l → x ∈ l → x <= zsum l.
Proof.
  induction 1 as [|y l Hy Hl IH]; intros Hin; [by apply elem_of_nil in Hin|].
  simpl. pose proof (zsum_nonneg l Hl).
  apply elem_of_cons in Hin as [->|Hin]; [lia|]. specialize (IH Hin). lia.
Qed.

(** Elements bounded below by [- b] with zero sum are bounded above too. *)
Lemma zsum_upper (l : list Z) b i x :
  0 <= b → Forall (λ c, - b < c) l → l !! i = Some x →
  x <= zsum l + Z.of_nat (length l - 1) * b.
Proof.
  intros Hb. revert i. induction l as [|y l IH]; intros [|i] Hf Hx; simplify_eq/=;
    apply Forall_cons in Hf as [Hy Hf].
  - rewrite Nat.sub_0_r.
    enough (- (Z.of_nat (length l) * b) <= zsum l) by lia.
    clear -Hf Hb. induction Hf; simpl; nia.
  - specialize (IH i Hf Hx). destruct l as [|z l]; [done|]. simpl in *. nia.
Qed.

Lemma i64_small z : - 2 ^ 63 <= z < 2 ^ 63 → i64 z = z.
Proof.
  intros Hz. unfold i64, to_signed.
  destruct (decide (0 <= z)).
  - rewrite Z.mod_small by lia. case_bool; lia.
  - rewrite <-(Z.mod_add z 1) by lia. rewrite Z.mod_small by lia. case_bool; lia.
Qed.

Lemma foldl_i64_sum (w : list Z) (t : Z) :
  0 <= t → Forall (λ x, 0 <= x) w → t + zsum w < 2 ^ 63 →
  foldl (λ t w, i64 (t + w)) t w = t + zsum w.
Proof.
  revert t. induction w as [|x w IH]; intros t Ht Hw Hb; simpl in *; [lia|].
  apply Forall_cons in Hw as [Hx Hw]. pose proof (zsum_nonneg w Hw).
  rewrite i64_small by lia. rewrite IH by (done || lia). lia.
Qed.

Section swrr.
Context (w : list Z) (Hw : swrr_weights w).

Lemma sw_total : 0 < zsum w.
Proof using Hw. destruct Hw. by apply zsum_positive. Qed.

Lemma sw_total_i64 : zsum w < 2 ^ 63.
Proof using Hw.
  pose proof sw_total. destruct Hw as [Hne _ Hb].
  destruct w; [done|]. simpl length in *. nia.
Qed.

Lemma sw_nonneg : Forall (λ x, 0 <= x) w.
Proof using Hw. destruct Hw as [_ H _]. eapply Forall_impl; [done|]. simpl. lia. Qed.

(** The pre-subtraction vector of a step: its maximum is positive and fits. *)
Lemma swrr_added cur :
  swrr_inv w cur →
  let c := zip_with Z.add cur w in
  length c = length w ∧
  ∃ v, c !! argmax c = Some v ∧ 0 < v ∧ Forall (λ x, - zsum w < x < 2 ^ 63) c.
Proof using Hw.
  intros [Hl Hs Hlo] c. pose proof sw_total as HW. destruct Hw as [Hne Hp Hb].
  assert (length c = length w) as Hc by (unfold c; rewrite length_zip_with; lia).
  assert (c ≠ []) as Hcne by (destruct c; [destruct w|]; done).
  destruct (argmax_spec c Hcne) as (v & Hv & Hmax).
  split; [done|]. exists v. split_and!; [done| |].
  - destruct (decide (0 < v)) as [|Hn]; [done|exfalso].
    assert (zsum c <= 0) as Hz.
    { clear Hv Hc Hcne. induction Hmax; simpl in *; lia. }
    unfold c in Hz. rewrite zsum_zip_add in Hz by done. lia.
  - apply Forall_lookup. intros i x Hx.
    unfold c in Hx. rewrite lookup_zip_with_Some in Hx.
    destruct Hx as (a & b & -> & Ha & Hb').
    pose proof (Forall_lookup_1 _ _ _ _ Hlo Ha). pose proof (Forall_lookup_1 _ _ _ _ Hp Hb').
    pose proof (zsum_upper cur (zsum w) i a ltac:(lia) Hlo Ha).
    pose proof (zsum_elem_le w b sw_nonneg (list_elem_of_lookup_2 _ _ _ Hb')).
    simpl in *. split; [lia|]. destruct w; [done|]. simpl length in *. nia.
Qed.

(** Overflow freedom: the machine step is the exact one. *)
Lemma swrr_next_exact cur : swrr_inv w cur → swrr_next w cur = Ret (swrr_step w cur).
Proof using Hw.
  intros Hinv. destruct (swrr_added cur Hinv) as (Hl & v & Hv & Hpos & Hf).
  pose proof Hinv as [Hlen _ _]. pose proof sw_total. pose proof sw_total_i64.
  pose proof Hw as [Hne _ _].
  unfold swrr_next, swrr_step.
  rewrite bool_decide_false by done. rewrite bool_decide_false by lia.
  assert (zip_with (λ eff w, i64 (eff + w)) cur w = zip_with Z.add cur w) as ->.
  { apply list_eq. intros i. rewrite !lookup_zip_with.
    destruct (cur !! i) as [a|] eqn:Ea, (w !! i) as [b|] eqn:Eb; try done. simpl.
    f_equal. apply i64_small.
    assert (zip_with Z.add cur w !! i = Some (a + b)) as Hx
      by (rewrite lookup_zip_with, Ea, Eb; done).
    apply (Forall_lookup_1 _ _ _ _ Hf) in Hx. lia. }
  rewrite foldl_i64_sum by (lia || apply sw_nonneg).
  unfold index. rewrite Hv. simpl. rewrite (list_lookup_total_correct _ _ _ Hv).
  rewrite i64_small; [done|].
  pose proof (Forall_lookup_1 _ _ _ _ Hf Hv). simpl in *. lia.
Qed.
(** One exact step keeps the invariant, adds every weight and charges the
    whole cycle to the chosen peer. *)
Lemma swrr_step_spec cur k cur' :
  swrr_inv w cur → swrr_step w cur = (k, cur') →
  (k < length w)%nat ∧ swrr_inv w cur' ∧
  ∀ i, (i < length w)%nat →
    cur' !!! i = cur !!! i + w !!! i - (if decide (k = i) then zsum w else 0).
Proof using Hw.
  intros Hinv. destruct (swrr_added cur Hinv) as (Hl & v & Hv & Hpos & Hf).
  pose proof Hinv as [Hlen Hsum Hlo]. unfold swrr_step.
  set (c := zip_with Z.add cur w) in *. intros [= <- <-].
  assert (argmax c < length c)%nat as Hlt by by eapply lookup_lt_Some.
  split; [lia|]. split; [constructor|].
  - by rewrite length_insert.
  - rewrite (zsum_insert _ _ _ _ Hv), (list_lookup_total_correct _ _ _ Hv).
    unfold c. rewrite zsum_zip_add by done. lia.
  - rewrite (list_lookup_total_correct _ _ _ Hv).
    apply Forall_insert; [|lia].
    eapply Forall_impl; [done|]. simpl. lia.
  - intros i Hi. assert (c !! i = Some (cur !!! i + w !!! i)) as Hci.
    { unfold c. rewrite lookup_zip_with.
      destruct (lookup_lt_is_Some_2 cur i) as [a Ha]; [lia|].
      destruct (lookup_lt_is_Some_2 w i) as [b Hb]; [lia|].
      rewrite Ha, Hb. simpl.
      by rewrite (list_lookup_total_correct _ _ _ Ha), (list_lookup_total_correct _ _ _ Hb). }
    case_decide as Hk.
    + subst i. rewrite list_lookup_total_insert_eq by done.
      rewrite (list_lookup_total_correct _ _ _ Hci). lia.
    + rewrite list_lookup_total_insert_ne by done.
      rewrite (list_lookup_total_correct _ _ _ Hci). lia.
Qed.

Lemma picks_cons i k ks :
  picks i (k :: ks) = (if decide (k = i) then 1 else 0) + picks i ks.
Proof. unfold picks. rewrite filter_cons. case_decide; simpl; lia. Qed.

(** Any run is panic-free, stays in range and is linear in the picks. *)
Lemma swrr_run_spec n cur :
  swrr_inv w cur →
  ∃ ks cur', swrr_run n w cur = Ret (ks, cur') ∧ length ks = n ∧
    Forall (λ k, k < length w)%nat ks ∧ swrr_inv w cur' ∧
    ∀ i, (i < length w)%nat →
      cur' !!! i = cur !!! i + Z.of_nat n * w !!! i - zsum w * picks i ks.
Proof using Hw.
  revert cur. induction n as [|n IH]; intros cur Hinv.
  { exists [], cur. split_and!; try done. intros. unfold picks. simpl. lia. }
  cbn [swrr_run]. rewrite swrr_next_exact by done.
  destruct (swrr_step w cur) as [k cur1] eqn:E. cbn.
  destruct (swrr_step_spec cur k cur1 Hinv E) as (Hk & Hinv1 & Hlin1).
  destruct (IH cur1 Hinv1) as (ks & cur2 & Hrun & Hlen & Hr & Hinv2 & Hlin2).
  rewrite Hrun. exists (k :: ks), cur2. cbn. split_and!; [done|lia|by constructor|done|].
  intros i Hi. rewrite (Hlin2 i Hi), (Hlin1 i Hi), picks_cons. case_decide; lia.
Qed.

Lemma zsum_indicator k a n :
  zsum ((λ i, if decide (k = i) then 1 else 0) <$> seq a n) =
    if decide (a ≤ k < a + n)%nat then 1 else 0.
Proof.
  revert a. induction n as [|n IH]; intros a; simpl.
  { case_decide; [lia|done]. }
  rewrite IH. repeat case_decide; lia.
Qed.

Lemma zsum_picks n ks :
  Forall (λ k, k < n)%nat ks →
  zsum ((λ i, picks i ks) <$> seq 0 n) = Z.of_nat (length ks).
Proof.
  induction 1 as [|k ks Hk Hks IH].
  { generalize (seq 0 n) as l. induction l as [|a l IHl]; [done|].
    rewrite fmap_cons. simpl zsum. rewrite IHl. done. }
  transitivity (zsum ((λ i, if decide (k = i) then 1 else 0) <$> seq 0 n)
                + zsum ((λ i, picks i ks) <$> seq 0 n)).
  - clear. generalize (seq 0 n) as l. induction l as [|a l IHl]; [done|].
    rewrite !fmap_cons. cbn [zsum foldr]. unfold zsum in IHl. rewrite IHl, picks_cons. lia.
  - rewrite IH, zsum_indicator. case_decide; simpl length; lia.
Qed.

(** From the all-zero state a full cycle picks each peer exactly its weight
    and returns to zero. *)
Lemma swrr_cycle_zero ks cur' :
  swrr_run (Z.to_nat (zsum w)) w (replicate (length w) 0) = Ret (ks, cur') →
  cur' = replicate (length w) 0 ∧ ∀ i, (i < length w)%nat → picks i ks = w !!! i.
Proof using Hw.
  pose proof sw_total as HW. intros Hrun.
  destruct (swrr_run_spec (Z.to_nat (zsum w)) (replicate (length w) 0))
    as (ks' & cur'' & Hrun' & Hlen & Hr & [Hl Hs Hlo] & Hlin).
  { constructor; [by rewrite length_replicate| |].
    - clear. induction (length w); simpl; lia.
    - apply Forall_replicate. lia. }
  rewrite Hrun in Hrun'. injection Hrun' as <- <-.
  assert (∀ i, (i < length w)%nat → cur' !!! i = zsum w * (w !!! i - picks i ks)) as Hlin'.
  { intros i Hi. rewrite (Hlin i Hi), lookup_total_replicate_2 by done. lia. }
  assert (((λ i, picks i ks) <$> seq 0 (length w)) = w) as Heq.
  { apply zsum_le_eq.
    - apply Forall2_same_length_lookup. split; [by rewrite length_fmap, length_seq|].
      intros i x y Hx Hy. rewrite list_lookup_fmap, lookup_seq_lt in Hx
        by by eapply lookup_lt_Some. simplify_eq/=.
      assert (i < length w)%nat as Hi by by eapply lookup_lt_Some.
      destruct (lookup_lt_is_Some_2 cur' i) as [c Hc]; [lia|].
      pose proof (Forall_lookup_1 _ _ _ _ Hlo Hc) as Hb. simpl in Hb.
      specialize (Hlin' i Hi). rewrite (list_lookup_total_correct _ _ _ Hc) in Hlin'.
      rewrite (list_lookup_total_correct _ _ _ Hy) in Hlin'. nia.
    - rewrite zsum_picks by done. lia. }
  assert (∀ i, (i < length w)%nat → picks i ks = w !!! i) as Hp.
  { intros i Hi. rewrite <-Heq at 1. rewrite list_lookup_total_alt, list_lookup_fmap.
    by rewrite lookup_seq_lt. }
  split; [|done]. apply list_eq. intros i.
  destruct (decide (i < length w)%nat) as [Hi|Hi].
  - rewrite lookup_replicate_2 by done.
    destruct (lookup_lt_is_Some_2 cur' i) as [c Hc]; [lia|].
    specialize (Hlin' i Hi). rewrite (list_lookup_total_correct _ _ _ Hc), (Hp i Hi) in Hlin'.
    rewrite Hc. f_equal. lia.
  - rewrite !lookup_ge_None_2; rewrite ?length_replicate; try done; lia.
Qed.

Lemma swrr_run_app n m cur ks cur1 ks' cur2 :
  swrr_run n w cur = Ret (ks, cur1) → swrr_run m w cur1 = Ret (ks', cur2) →
  swrr_run (n + m) w cur = Ret (ks ++ ks', cur2).
Proof.
  revert cur ks. induction n as [|n IH]; intros cur ks H1 H2; simpl in *.
  { injection H1 as <- <-. done. }
  destruct (swrr_next w cur) as [[k c]|]; simpl in *; [|done].
  destruct (swrr_run n w c) as [[ks1 c1]|] eqn:E; simpl in *; [|done].
  injection H1 as <- <-. by rewrite (IH c ks1 E H2).
Qed.

Lemma swrr_run_split n m cur ks cur2 :
  swrr_run (n + m) w cur = Ret (ks, cur2) →
  ∃ ks1 cur1 ks2, swrr_run n w cur = Ret (ks1, cur1) ∧
    swrr_run m w cur1 = Ret (ks2, cur2) ∧ ks = ks1 ++ ks2.
Proof.
  revert cur ks. induction n as [|n IH]; intros cur ks H; simpl in *.
  { exists [], cur, ks. done. }
  destruct (swrr_next w cur) as [[k c]|]; simpl in *; [|done].
  destruct (swrr_run (n + m) w c) as [[ks1 c1]|] eqn:E; simpl in *; [|done].
  injection H as <- <-. destruct (IH c ks1 E) as (a & c' & b & Ha & Hb & ->).
  rewrite Ha. by exists (k :: a), c', b.
Qed.
End swrr.

(** C12. Smooth weighted round-robin is exactly fair.  Starting from the
    all-zero effective weights (as [apply_runtime] creates them), whatever
    number [m] of picks came before, the next [sum(weights)] picks choose each
    peer exactly [weight] times and bring the accounting state back to where it
    was; no pick panics or overflows [i64]. *)
Theorem swrr_exact_distribution (w : list Z) (m : nat) :
  swrr_weights w →
  ∃ ks0 cur ks,
    swrr_run m w (replicate (length w) 0) = Ret (ks0, cur) ∧
    swrr_run (Z.to_nat (zsum w)) w cur = Ret (ks, cur) ∧
    ∀ i, (i < length w)%nat → picks i ks = w !!! i.
Proof.
  intros Hw. pose proof (sw_total w Hw) as HW. set (W := Z.to_nat (zsum w)).
  assert (swrr_inv w (replicate (length w) 0)) as H0.
  { constructor; [by rewrite length_replicate| |].
    - clear. induction (length w); simpl; lia.
    - apply Forall_replicate. lia. }
  destruct (swrr_run_spec w Hw m _ H0) as (ks0 & cur & Hrun & Hlen & Hr & Hinv & Hlin).
  destruct (swrr_run_spec w Hw W _ H0) as (ksz & z & Hrunz & _).
  destruct (swrr_cycle_zero w Hw ksz z Hrunz) as [-> Hpz].
  destruct (swrr_run_spec w Hw W _ Hinv) as (ks & cur' & Hrun' & _ & _ & _ & Hlin').
  (* the state [m + W] picks from zero is the state [m] picks from zero *)
  pose proof (swrr_run_app w _ _ _ _ _ _ _ Hrunz Hrun) as HA.
  pose proof (swrr_run_app w _ _ _ _ _ _ _ Hrun Hrun') as HB.
  rewrite Nat.add_comm, HB in HA. injection HA as _ ->.
  exists ks0, cur, ks. split_and!; [done|done|].
  intros i Hi. specialize (Hlin' i Hi). unfold W in Hlin'.
  rewrite Z2Nat.id in Hlin' by lia. nia.
Qed.

Lemma swrr_exact_distribution_witness :
  swrr_weights [5; 1; 1] ∧
  ∃ ks0 cur ks,
    swrr_run 3 [5; 1; 1] [0; 0; 0] = Ret (ks0, cur) ∧
    swrr_run 7 [5; 1; 1] cur = Ret (ks, cur) ∧
    ∀ i, (i < 3)%nat → picks i ks = [5; 1; 1] !!! i.
Proof.
  assert (swrr_weights [5; 1; 1]) as Hw
    by (constructor; [done|repeat constructor|vm_compute; reflexivity]).
  split; [exact Hw|]. exact (swrr_exact_distribution [5; 1; 1] 3 Hw).
Defined.

Lemma least_conn_first_minimum_witness :
  ∃ pre k post, [0; 1]%nat = pre ++ k :: post ∧
    least_conn_pick [2; 3] [1; 2] [0; 1]%nat = Ret (Some k) ∧
    Forall (load_lt [2; 3] [1; 2] k) pre ∧ Forall (load_le [2; 3] [1; 2] k) post.
Proof.
  destruct (least_conn_first_minimum [2; 3] [1; 2] [0; 1]%nat) as [[H _]|H].
  - constructor; [reflexivity| |]; repeat constructor; simpl; lia.
  - repeat constructor.
  - discriminate H.
  - exact H.
Defined.
