(* ===== verification/Context.v ===== *)
(** The per-request context shared by the HTTP pipeline and the plugin host
    ([openrusty-core/src/context.rs]). *)

From S2P Require Import Prelude Text Net.
From Stdlib Require Import ZArith Lia.
From stdpp Require Import options.
Local Open Scope Z_scope.

(** Ordered header list, names and values as decoded strings. *)
Abbreviation headers := (list (bytes * bytes)).

Record ReqCtx := {
  rc_method : bytes;
  rc_path : bytes;
  rc_query : bytes;
  rc_version : bytes;
  rc_client_addr : SocketAddr;
  rc_headers : headers;
  rc_route_index : option nat;
  rc_upstream : option bytes;
  rc_peer_index : option Z;
  rc_attempts : Z;
  rc_tried : list SocketAddr;
}.

Definition ctx_empty : ReqCtx := {|
  rc_method := []; rc_path := []; rc_query := []; rc_version := [];
  rc_client_addr := loopback 0;
  rc_headers := [];
  rc_route_index := None; rc_upstream := None; rc_peer_index := None;
  rc_attempts := 0;
  rc_tried := [];
|}.

(** Field updates of the code's [ctx.field = v]. *)
Definition set_method (v : bytes) (c : ReqCtx) : ReqCtx :=
  {| rc_method := v; rc_path := rc_path c; rc_query := rc_query c;
     rc_version := rc_version c; rc_client_addr := rc_client_addr c;
     rc_headers := rc_headers c; rc_route_index := rc_route_index c;
     rc_upstream := rc_upstream c; rc_peer_index := rc_peer_index c;
     rc_attempts := rc_attempts c; rc_tried := rc_tried c |}.
Definition set_target (path query : bytes) (c : ReqCtx) : ReqCtx :=
  {| rc_method := rc_method c; rc_path := path; rc_query := query;
     rc_version := rc_version c; rc_client_addr := rc_client_addr c;
     rc_headers := rc_headers c; rc_route_index := rc_route_index c;
     rc_upstream := rc_upstream c; rc_peer_index := rc_peer_index c;
     rc_attempts := rc_attempts c; rc_tried := rc_tried c |}.
Definition set_headers (v : headers) (c : ReqCtx) : ReqCtx :=
  {| rc_method := rc_method c; rc_path := rc_path c; rc_query := rc_query c;
     rc_version := rc_version c; rc_client_addr := rc_client_addr c;
     rc_headers := v; rc_route_index := rc_route_index c;
     rc_upstream := rc_upstream c; rc_peer_index := rc_peer_index c;
     rc_attempts := rc_attempts c; rc_tried := rc_tried c |}.
Definition set_route (idx : option nat) (up : option bytes) (c : ReqCtx) : ReqCtx :=
  {| rc_method := rc_method c; rc_path := rc_path c; rc_query := rc_query c;
     rc_version := rc_version c; rc_client_addr := rc_client_addr c;
     rc_headers := rc_headers c; rc_route_index := idx;
     rc_upstream := up; rc_peer_index := rc_peer_index c;
     rc_attempts := rc_attempts c; rc_tried := rc_tried c |}.
Definition set_peer_index (v : option Z) (c : ReqCtx) : ReqCtx :=
  {| rc_method := rc_method c; rc_path := rc_path c; rc_query := rc_query c;
     rc_version := rc_version c; rc_client_addr := rc_client_addr c;
     rc_headers := rc_headers c; rc_route_index := rc_route_index c;
     rc_upstream := rc_upstream c; rc_peer_index := v;
     rc_attempts := rc_attempts c; rc_tried := rc_tried c |}.
Definition set_attempts (v : Z) (c : ReqCtx) : ReqCtx :=
  {| rc_method := rc_method c; rc_path := rc_path c; rc_query := rc_query c;
     rc_version := rc_version c; rc_client_addr := rc_client_addr c;
     rc_headers := rc_headers c; rc_route_index := rc_route_index c;
     rc_upstream := rc_upstream c; rc_peer_index := rc_peer_index c;
     rc_attempts := v; rc_tried := rc_tried c |}.
Definition set_tried (v : list SocketAddr) (c : ReqCtx) : ReqCtx :=
  {| rc_method := rc_method c; rc_path := rc_path c; rc_query := rc_query c;
     rc_version := rc_version c; rc_client_addr := rc_client_addr c;
     rc_headers := rc_headers c; rc_route_index := rc_route_index c;
     rc_upstream := rc_upstream c; rc_peer_index := rc_peer_index c;
     rc_attempts := rc_attempts c; rc_tried := v |}.

(** [client_addr.ip().to_string()]. *)
Definition client_ip (c : ReqCtx) : bytes := ip_to_string (ip (rc_client_addr c)).

Definition is_tried (a : SocketAddr) (c : ReqCtx) : bool := bool_decide (a ∈ rc_tried c).

Definition mark_tried (a : SocketAddr) (c : ReqCtx) : ReqCtx :=
  if is_tried a c then c else set_tried (rc_tried c ++ [a]) c.

(** First value of a header, by case-insensitive name. *)
Definition find_header (name : bytes) (hs : headers) : option bytes :=
  snd ∘ snd <$> list_find (λ h, eq_ignore_ascii_case h.1 name = true) hs.

Definition header (name : bytes) (c : ReqCtx) : option bytes := find_header name (rc_headers c).

(** [core::context::match_route]: first route whose prefix matches. *)
Definition match_prefix {R} (routes : list R) (path : bytes) (prefix_of : R → bytes)
    : option nat :=
  fst <$> list_find (λ r, starts_with (prefix_of r) path = true) routes.

Lemma mark_tried_in a c : a ∈ rc_tried (mark_tried a c).
Proof.
  unfold mark_tried, is_tried. case_bool_decide; [done|].
  simpl. apply elem_of_app. right. by apply list_elem_of_singleton.
Qed.

Lemma mark_tried_incl a b c : b ∈ rc_tried c → b ∈ rc_tried (mark_tried a c).
Proof.
  unfold mark_tried. destruct (is_tried a c); [done|].
  simpl. intros. apply elem_of_app. by left.
Qed.

(** [tried] never repeats an address. *)
Lemma mark_tried_nodup a c : NoDup (rc_tried c) → NoDup (rc_tried (mark_tried a c)).
Proof.
  unfold mark_tried, is_tried. case_bool_decide as Hin; [done|]. simpl. intros Hnd.
  apply NoDup_app. split_and!; [done| |apply NoDup_singleton].
  intros x Hx ->%list_elem_of_singleton. done.
Qed.

(** Header lookup only depends on the name up to ASCII case. *)
Lemma find_header_case n1 n2 hs :
  eq_ignore_ascii_case n1 n2 = true → find_header n1 hs = find_header n2 hs.
Proof.
  intros Hn. unfold find_header.
  assert (∀ k, eq_ignore_ascii_case k n1 = eq_ignore_ascii_case k n2) as He.
  { intros k. rewrite !(eq_ignore_ascii_case_sym k).
    by apply eq_ignore_ascii_case_trans. }
  induction hs as [|[k v] hs IH]; [done|]. cbn [list_find].
  destruct (decide (eq_ignore_ascii_case (k, v).1 n1 = true)) as [H1|H1],
    (decide (eq_ignore_ascii_case (k, v).1 n2 = true)) as [H2|H2];
    simpl in H1, H2; rewrite He in H1; try done.
  rewrite <-!option_fmap_compose. unfold compose. simpl.
  destruct (list_find (λ h, eq_ignore_ascii_case h.1 n1 = true) hs) as [[]|],
    (list_find (λ h, eq_ignore_ascii_case h.1 n2 = true) hs) as [[]|]; simpl in *; congruence.
Qed.
