(* ===== verification/Upstream.v ===== *)
(** Upstream snapshots, header hygiene and endpoint resolution
    ([openrusty-proxy/src/upstream.rs], [resolve.rs] and the identity part of
    [tls/mod.rs]). *)

From S2P Require Import Prelude Text Net Config Context.
From Stdlib Require Import ZArith Lia.
From stdpp Require Import options.
Local Open Scope Z_scope.

Record Peer := { pe_addr : SocketAddr; pe_weight : Z }.

(** Content identity of a TLS configuration, the pool key. *)
Record TlsClientKey := {
  tk_server_name : bytes;
  tk_ca_cert : option bytes;
  tk_client_cert : option bytes;
  tk_client_key : option bytes;
  tk_insecure_skip_verify : bool;
}.

#[global] Instance tls_client_key_eq_dec : EqDecision TlsClientKey.
Proof. solve_decision. Defined.
#[global] Instance tls_client_key_countable : Countable TlsClientKey.
Proof.
  refine (inj_countable'
    (λ k, (tk_server_name k, tk_ca_cert k, tk_client_cert k, tk_client_key k,
           tk_insecure_skip_verify k))
    (λ '(a, b, c, d, e), {| tk_server_name := a; tk_ca_cert := b; tk_client_cert := c;
                            tk_client_key := d; tk_insecure_skip_verify := e |}) _).
  by intros [].
Defined.

Definition tls_key_from_config (cfg : UpstreamTlsConfig) : TlsClientKey := {|
  tk_server_name := ut_server_name cfg;
  tk_ca_cert := ut_ca_cert cfg;
  tk_client_cert := ut_client_cert cfg;
  tk_client_key := ut_client_key cfg;
  tk_insecure_skip_verify := ut_insecure_skip_verify cfg;
|}.

(** Built TLS material; the rustls configuration handle it also carries is
    opaque to every decision of the program. *)
Record UpstreamTls := { tls_server_name : bytes; tls_key : TlsClientKey }.

Record Upstream := {
  up_name : bytes;
  up_kind : BalancerKind;
  up_retries : Z;
  up_retry_on_timeout : bool;
  up_connect_timeout : Z;
  up_pool_idle_timeout : Z;
  up_peers : list Peer;
  up_tls : option UpstreamTls;
  up_health : HealthConfig;
}.

Definition from_config (cfg : UpstreamConfig) (tls : option UpstreamTls) : Upstream := {|
  up_name := uc_name cfg;
  up_kind := uc_balancer cfg;
  up_retries := uc_retries cfg;
  up_retry_on_timeout := uc_retry_on_timeout cfg;
  up_connect_timeout := uc_connect_timeout_ms cfg;
  up_pool_idle_timeout := uc_pool_idle_timeout_ms cfg;
  up_peers := map (λ p, {| pe_addr := pc_addr p; pe_weight := pc_weight p |}) (uc_peers cfg);
  up_tls := tls;
  up_health := uc_health cfg;
|}.

(** * Header hygiene *)

Definition HOP_BY_HOP : list bytes :=
  [bs "connection"; bs "keep-alive"; bs "proxy-authenticate"; bs "proxy-authorization";
   bs "te"; bs "trailer"; bs "upgrade"; bs "transfer-encoding"].

Definition is_hop_by_hop (name : bytes) : bool :=
  existsb (λ h, eq_ignore_ascii_case h (trim name)) HOP_BY_HOP.

Definition strip_hop_by_hop (hs : headers) : headers :=
  filter (λ h, is_hop_by_hop h.1 = false) hs.

(** Comma-separated, trimmed, lower-case tokens of a header value. *)
Definition tokens (value : bytes) : list bytes :=
  map (λ t, to_ascii_lowercase (trim t)) (split_on x2c value).

(** [t.split(';').next().map(str::trim) == Some("websocket")]. *)
Definition is_websocket_token (t : bytes) : bool :=
  bool_decide (trim <$> head (split_on x3b t) = Some (bs "websocket")).

Definition is_websocket_upgrade (method : bytes) (hs : headers) : bool :=
  if negb (eq_ignore_ascii_case method (bs "GET")) then false
  else
    let conn_upgrade :=
      match find_header (bs "connection") hs with
      | Some v => existsb (λ t, bool_decide (t = bs "upgrade")) (tokens v)
      | None => false
      end in
    let ws :=
      match find_header (bs "upgrade") hs with
      | Some v => existsb is_websocket_token (tokens v)
      | None => false
      end in
    conn_upgrade && ws.

Example websocket_params :
  is_websocket_upgrade (bs "get")
    [(bs "Connection", bs "keep-alive, Upgrade"); (bs "UPGRADE", bs "WebSocket; v=13")] = true.
Proof. by vm_compute. Qed.

Example websocket_post :
  is_websocket_upgrade (bs "POST")
    [(bs "connection", bs "upgrade"); (bs "upgrade", bs "websocket")] = false.
Proof. by vm_compute. Qed.

(** * Endpoint resolution *)

Section resolve.
(** [tokio::net::lookup_host]: the answer of one lookup, [None] on failure. *)
Context (lookup_host : bytes → option (list SocketAddr)).

(** [addrs.filter(|a| seen.insert( *a))]: keep first sightings. *)
Fixpoint filter_unseen (seen : gset SocketAddr) (addrs : list SocketAddr)
    : list SocketAddr * gset SocketAddr :=
  match addrs with
  | [] => ([], seen)
  | a :: addrs =>
      if bool_decide (a ∈ seen) then filter_unseen seen addrs
      else
        let '(r, seen) := filter_unseen ({[a]} ∪ seen) addrs in
        (a :: r, seen)
  end.

Definition resolve_endpoint (endpoint : bytes) (seen : gset SocketAddr)
    : list SocketAddr * gset SocketAddr :=
  match lookup_host endpoint with
  | Some addrs => filter_unseen seen addrs
  | None => ([], seen)
  end.

(** [up.peers] and [up.endpoints] of a clone, the other fields kept. *)
Definition with_peers (cfg : UpstreamConfig) (peers : list PeerConfig)
    (endpoints : list bytes) : UpstreamConfig := {|
  uc_name := uc_name cfg;
  uc_balancer := uc_balancer cfg;
  uc_retries := uc_retries cfg;
  uc_retry_on_timeout := uc_retry_on_timeout cfg;
  uc_connect_timeout_ms := uc_connect_timeout_ms cfg;
  uc_pool_idle_timeout_ms := uc_pool_idle_timeout_ms cfg;
  uc_peers := peers;
  uc_endpoints := endpoints;
  uc_tls := uc_tls cfg;
  uc_health := uc_health cfg;
|}.

Definition merge_resolved (cfg : UpstreamConfig) (resolved : list SocketAddr)
    : UpstreamConfig :=
  with_peers cfg (uc_peers cfg ++ map (λ a, {| pc_addr := a; pc_weight := 1 |}) resolved) [].

Fixpoint resolve_endpoints (endpoints : list bytes) (seen : gset SocketAddr)
    : list SocketAddr * gset SocketAddr :=
  match endpoints with
  | [] => ([], seen)
  | e :: endpoints =>
      let '(r1, seen) := resolve_endpoint e seen in
      let '(r2, seen) := resolve_endpoints endpoints seen in
      (r1 ++ r2, seen)
  end.

(** One iteration of [resolve_config]'s loop. *)
Definition resolve_upstream (up : UpstreamConfig) : UpstreamConfig :=
  if bool_decide (uc_endpoints up = []) then up
  else
    let seen : gset SocketAddr := list_to_set (pc_addr <$> uc_peers up) in
    let resolved := (resolve_endpoints (uc_endpoints up) seen).1 in
    if bool_decide (resolved = []) then with_peers up (uc_peers up) []
    else merge_resolved up resolved.

Definition resolve_config (cfg : Config) : Config := {|
  cf_server := cf_server cfg;
  cf_admin := cf_admin cfg;
  cf_plugins := cf_plugins cfg;
  cf_dynamic := cf_dynamic cfg;
  cf_upstreams := map resolve_upstream (cf_upstreams cfg);
  cf_routes := cf_routes cfg;
  cf_ingress := cf_ingress cfg;
  cf_egress := cf_egress cfg;
|}.

Lemma filter_unseen_spec seen addrs r seen' :
  filter_unseen seen addrs = (r, seen') →
  NoDup r ∧ (∀ a, a ∈ r ↔ a ∈ addrs ∧ a ∉ seen) ∧ (∀ a, a ∈ seen' ↔ a ∈ seen ∨ a ∈ r).
Proof.
  revert seen r seen'. induction addrs as [|a addrs IH]; intros seen r seen' H; simpl in H.
  { injection H as <- <-. split_and!; [constructor| |];
      intros a; rewrite elem_of_nil; naive_solver. }
  case_bool_decide as Hin.
  { destruct (IH _ _ _ H) as (? & Hr & ?). split_and!; try done.
    intros b. rewrite Hr, elem_of_cons. naive_solver. }
  destruct (filter_unseen _ addrs) as [r1 s1] eqn:E. injection H as <- <-.
  destruct (IH _ _ _ E) as (Hnd & Hr & Hs). split_and!.
  - constructor; [|done]. rewrite Hr, elem_of_union, elem_of_singleton. naive_solver.
  - intros b. rewrite !elem_of_cons, Hr, elem_of_union, elem_of_singleton.
    destruct (decide (b = a)) as [->|]; naive_solver.
  - intros b. rewrite Hs, elem_of_union, elem_of_singleton, elem_of_cons. naive_solver.
Qed.

Lemma resolve_endpoints_spec endpoints seen r seen' :
  resolve_endpoints endpoints seen = (r, seen') →
  NoDup r ∧
  (∀ a, a ∈ r ↔ (a ∉ seen) ∧ ∃ e addrs, e ∈ endpoints ∧ lookup_host e = Some addrs ∧ a ∈ addrs) ∧
  (∀ a, a ∈ seen' ↔ a ∈ seen ∨ a ∈ r).
Proof.
  revert seen r seen'. induction endpoints as [|e eps IH]; intros seen r seen' H; simpl in H.
  { injection H as <- <-. split_and!; [constructor| |]; intros a; rewrite elem_of_nil.
    - split; [done|]. intros (_ & e & ? & He%elem_of_nil & _). done.
    - naive_solver. }
  destruct (resolve_endpoint e seen) as [r1 s1] eqn:E1.
  destruct (resolve_endpoints eps s1) as [r2 s2] eqn:E2. injection H as <- <-.
  destruct (IH _ _ _ E2) as (Hnd2 & Hr2 & Hs2).
  assert (NoDup r1 ∧ (∀ a, a ∈ r1 ↔ (a ∉ seen) ∧ ∃ addrs, lookup_host e = Some addrs ∧ a ∈ addrs)
          ∧ (∀ a, a ∈ s1 ↔ a ∈ seen ∨ a ∈ r1)) as (Hnd1 & Hr1 & Hs1).
  { unfold resolve_endpoint in E1. destruct (lookup_host e) as [addrs|].
    - destruct (filter_unseen_spec _ _ _ _ E1) as (? & Hr & ?). split_and!; try done.
      intros a. rewrite Hr. naive_solver.
    - injection E1 as <- <-. split_and!; [constructor| |]; intros a; rewrite elem_of_nil;
        naive_solver. }
  split_and!.
  - apply NoDup_app. split_and!; try done. intros a Ha1 Ha2%Hr2.
    destruct Ha2 as [Hn _]. apply Hn, Hs1. by right.
  - intros a. rewrite elem_of_app, Hr1, Hr2, Hs1, Hr1. split.
    + intros [(Hn & addrs & He & Ha)|(Hn & e' & addrs & He' & Hl & Ha)].
      * split; [done|]. exists e, addrs. rewrite elem_of_cons. auto.
      * split; [naive_solver|]. exists e', addrs. rewrite elem_of_cons. auto.
    + intros (Hn & e' & addrs & [->|He]%elem_of_cons & Hl & Ha); [left; eauto|].
      destruct (decide (a ∈ r1)) as [Hin|Hin]; [left; by apply Hr1|right].
      split; [|eauto 6]. intros [?|Hx]; [done|]. apply Hin, Hr1. done.
  - intros a. rewrite Hs2, Hs1, elem_of_app. naive_solver.
Qed.
End resolve.

(** Endpoint resolution consumes every endpoint, keeps the static peers first
    and untouched, and appends each address some endpoint resolves to, exactly
    once and with weight 1, never one a static peer already has; all other
    settings stay as configured.  A lookup that fails contributes nothing and
    never costs the upstream its other peers. *)
Theorem resolve_upstream_spec (lookup_host : bytes → option (list SocketAddr))
    (up : UpstreamConfig) :
  let up' := resolve_upstream lookup_host up in
  ∃ extra : list SocketAddr,
    up' = with_peers up
            (uc_peers up ++ map (λ a, {| pc_addr := a; pc_weight := 1 |}) extra) [] ∧
    NoDup extra ∧
    ∀ a, a ∈ extra ↔
      (a ∉ (pc_addr <$> uc_peers up)) ∧
      ∃ e addrs, e ∈ uc_endpoints up ∧ lookup_host e = Some addrs ∧ a ∈ addrs.
Proof.
  simpl. unfold resolve_upstream. case_bool_decide as He.
  { exists []. rewrite app_nil_r. split_and!; [|constructor|].
    - destruct up; simpl in *; by subst.
    - intros a. rewrite He, elem_of_nil. split; [done|].
      intros (_ & e & ? & Hn%elem_of_nil & _). done. }
  destruct (resolve_endpoints lookup_host (uc_endpoints up) _) as [r s] eqn:E.
  apply resolve_endpoints_spec in E as (Hnd & Hr & _). exists r. split_and!; [|done|].
  - simpl. case_bool_decide; [|done]. subst. simpl. by rewrite app_nil_r.
  - intros a. rewrite Hr, elem_of_list_to_set. done.
Qed.

(** A stripped header list has no hop-by-hop header, keeps everything else in
    order and is stable under a second pass. *)
Lemma strip_hop_by_hop_idemp hs : strip_hop_by_hop (strip_hop_by_hop hs) = strip_hop_by_hop hs.
Proof. unfold strip_hop_by_hop. by rewrite list_filter_filter_l by done. Qed.

(** Hop-by-hop classification ignores ASCII case and surrounding blanks. *)
Lemma is_hop_by_hop_case a b :
  to_ascii_lowercase (trim a) = to_ascii_lowercase (trim b) → is_hop_by_hop a = is_hop_by_hop b.
Proof. unfold is_hop_by_hop, eq_ignore_ascii_case. by intros ->. Qed.
