(* ===== verification/Health.v ===== *)
(** Passive and active peer health and the in-flight gauges
    ([openrusty-proxy/src/health.rs]).

    The registry is explicit state; every public function is one atomic step on
    it (the code takes the registry lock, or works on per-peer atomics).  Slots
    live behind an [Arc] that [register] replaces, so the model keeps one block
    of slots per upstream name. *)

From S2P Require Import Prelude Text Net Config Upstream.
From Stdlib Require Import ZArith Lia.
From stdpp Require Import options.
Local Open Scope Z_scope.

(** * State *)

Record PeerHealth := {
  ph_fails : Z;            (* u32, failures in the current window *)
  ph_window_start : Z;     (* u64 ms *)
  ph_down_until : Z;       (* u64 ms *)
  ph_active_ok : bool;     (* mirrored active-plane verdict *)
  ph_in_flight : Z;        (* usize *)
}.

Record PeerSlots := { sl_addrs : list SocketAddr; sl_peers : list PeerHealth }.

Record ActivePeer := { ap_healthy : bool; ap_fails : Z; ap_successes : Z }.

Record HealthRegistry := {
  hr_upstreams : gmap bytes PeerSlots;
  hr_active : gmap (bytes * bytes) ActivePeer;
}.

Definition new : HealthRegistry := {| hr_upstreams := ∅; hr_active := ∅ |}.

Definition fresh_peer : PeerHealth :=
  {| ph_fails := 0; ph_window_start := 0; ph_down_until := 0; ph_active_ok := true;
     ph_in_flight := 0 |}.

Definition fresh_active : ActivePeer :=
  {| ap_healthy := true; ap_fails := 0; ap_successes := 0 |}.

Definition with_counters (fails window : Z) (p : PeerHealth) : PeerHealth :=
  {| ph_fails := fails; ph_window_start := window; ph_down_until := ph_down_until p;
     ph_active_ok := ph_active_ok p; ph_in_flight := ph_in_flight p |}.
Definition with_down_until (t : Z) (p : PeerHealth) : PeerHealth :=
  {| ph_fails := ph_fails p; ph_window_start := ph_window_start p; ph_down_until := t;
     ph_active_ok := ph_active_ok p; ph_in_flight := ph_in_flight p |}.
Definition with_active_ok (b : bool) (p : PeerHealth) : PeerHealth :=
  {| ph_fails := ph_fails p; ph_window_start := ph_window_start p;
     ph_down_until := ph_down_until p; ph_active_ok := b; ph_in_flight := ph_in_flight p |}.
Definition with_in_flight (n : Z) (p : PeerHealth) : PeerHealth :=
  {| ph_fails := ph_fails p; ph_window_start := ph_window_start p;
     ph_down_until := ph_down_until p; ph_active_ok := ph_active_ok p; ph_in_flight := n |}.

(** * Operations *)

(** Active-plane verdict of a pair; unknown pairs are healthy. *)
Definition is_active_healthy (h : HealthRegistry) (upstream addr : bytes) : bool :=
  match hr_active h !! (upstream, addr) with Some p => ap_healthy p | None => true end.

(** The state a slot block holds per address: [collect] into a map keeps the
    last pair of a repeated address. *)
Definition previous_state (slots : option PeerSlots) : gmap SocketAddr PeerHealth :=
  match slots with
  | Some s => list_to_map (reverse (zip (sl_addrs s) (sl_peers s)))
  | None => ∅
  end.

Definition register (upstream : bytes) (addrs : list SocketAddr) (h : HealthRegistry)
    : HealthRegistry :=
  let previous := previous_state (hr_upstreams h !! upstream) in
  let peers :=
    map (λ addr, with_active_ok (is_active_healthy h upstream (addr_to_string addr))
                   (default fresh_peer (previous !! addr))) addrs in
  {| hr_upstreams := <[upstream := {| sl_addrs := addrs; sl_peers := peers |}]> (hr_upstreams h);
     hr_active := hr_active h |}.

(** [lookup]: the slots of an upstream when [idx] is in range. *)
Definition slot_at (h : HealthRegistry) (upstream : bytes) (idx : nat) : option PeerHealth :=
  slots ← hr_upstreams h !! upstream;
  sl_peers slots !! idx.

(** Store into slot [idx] through the shared handle. *)
Definition update_slot (f : PeerHealth → PeerHealth) (upstream : bytes) (idx : nat)
    (h : HealthRegistry) : HealthRegistry :=
  {| hr_upstreams :=
       alter (λ s, {| sl_addrs := sl_addrs s; sl_peers := alter f idx (sl_peers s) |})
         upstream (hr_upstreams h);
     hr_active := hr_active h |}.

Definition peer_healthy (now_ms : Z) (p : PeerHealth) : bool :=
  (ph_down_until p <=? now_ms) && ph_active_ok p.

Definition is_healthy (h : HealthRegistry) (upstream : bytes) (idx : nat) (now_ms : Z) : bool :=
  match slot_at h upstream idx with Some p => peer_healthy now_ms p | None => true end.

Definition healthy_indices (h : HealthRegistry) (upstream : bytes) (peer_count : nat)
    (now_ms : Z) : list nat :=
  match hr_upstreams h !! upstream with
  | None => seq 0 peer_count
  | Some slots =>
      filter (λ i, match sl_peers slots !! i with
                   | Some p => peer_healthy now_ms p
                   | None => true
                   end = true) (seq 0 peer_count)
  end.

Definition evaluate_failure (fails_after window_start now_ms : Z) (cfg : HealthConfig)
    : option Z :=
  if hc_max_fails cfg =? 0 then None
  else
    let window_ms := sat_mul 64 (hc_fail_window_s cfg) 1000 in
    if window_ms <? sat_sub now_ms window_start then None
    else if hc_max_fails cfg <=? fails_after
    then Some (wrap 64 (now_ms + sat_mul 64 (hc_fail_timeout_s cfg) 1000))
    else None.

(** The update [record_failure] applies to one slot. *)
Definition peer_failure (cfg : HealthConfig) (now_ms : Z) (p : PeerHealth) : PeerHealth :=
  let window_ms := sat_mul 64 (hc_fail_window_s cfg) 1000 in
  let p := if window_ms <? sat_sub now_ms (ph_window_start p)
           then with_counters 0 now_ms p else p in
  let p := with_counters (wrap 32 (ph_fails p + 1)) (ph_window_start p) p in
  match evaluate_failure (ph_fails p) (ph_window_start p) now_ms cfg with
  | Some down_until => with_counters 0 (ph_window_start p) (with_down_until down_until p)
  | None => p
  end.

Definition record_failure (upstream : bytes) (idx : nat) (cfg : HealthConfig) (now_ms : Z)
    (h : HealthRegistry) : HealthRegistry :=
  if hc_max_fails cfg =? 0 then h
  else update_slot (peer_failure cfg now_ms) upstream idx h.

Definition record_success (upstream : bytes) (idx : nat) (now_ms : Z) (h : HealthRegistry)
    : HealthRegistry :=
  update_slot (with_counters 0 now_ms) upstream idx h.

Definition evaluate_active (healthy : bool) (fails successes : Z) (ok : bool)
    (unhealthy_threshold healthy_threshold : Z) : bool * Z * Z :=
  if ok then
    let successes := wrap 32 (successes + 1) in
    (healthy || (healthy_threshold <=? successes), 0, successes)
  else
    let fails := wrap 32 (fails + 1) in
    (healthy && (fails <? unhealthy_threshold), fails, 0).

Definition record_probe (upstream : bytes) (idx : nat) (addr : bytes) (ok : bool)
    (unhealthy_threshold healthy_threshold : Z) (h : HealthRegistry) : bool * HealthRegistry :=
  let peer := default fresh_active (hr_active h !! (upstream, addr)) in
  let '(healthy, fails, successes) :=
    evaluate_active (ap_healthy peer) (ap_fails peer) (ap_successes peer) ok
      unhealthy_threshold healthy_threshold in
  let h := {| hr_upstreams := hr_upstreams h;
              hr_active := <[(upstream, addr) :=
                {| ap_healthy := healthy; ap_fails := fails; ap_successes := successes |}]>
                (hr_active h) |} in
  (healthy, update_slot (with_active_ok healthy) upstream idx h).

(** Lexicographic order on [(upstream, addr, healthy)]. *)
Definition triple_leb (x y : bytes * bytes * bool) : bool :=
  let '(u, a, b) := x in let '(u', a', b') := y in
  if bool_decide (u = u') then
    if bool_decide (a = a') then implb b b' else bytes_leb a a'
  else bytes_leb u u'.

Definition active_peers (h : HealthRegistry) : list (bytes * bytes * bool) :=
  sort_by triple_leb
    (map (λ '((u, a), p), (u, a, ap_healthy p)) (map_to_list (hr_active h))).

(** Slot of an address: the first one. *)
Definition addr_slot (slots : PeerSlots) (addr : SocketAddr) : option nat :=
  fst <$> list_find (λ a, a = addr) (sl_addrs slots).

Definition update_addr (f : PeerHealth → PeerHealth) (upstream : bytes) (addr : SocketAddr)
    (h : HealthRegistry) : HealthRegistry :=
  match hr_upstreams h !! upstream with
  | None => h
  | Some slots =>
      match addr_slot slots addr with
      | None => h
      | Some pos => update_slot f upstream pos h
      end
  end.

(** [fetch_add] wraps; the release clamps at zero. *)
Definition inc_in_flight (upstream : bytes) (addr : SocketAddr) (h : HealthRegistry)
    : HealthRegistry :=
  update_addr (λ p, with_in_flight (wrap 64 (ph_in_flight p + 1)) p) upstream addr h.

Definition dec_in_flight (upstream : bytes) (addr : SocketAddr) (h : HealthRegistry)
    : HealthRegistry :=
  update_addr (λ p, with_in_flight (sat_sub (ph_in_flight p) 1) p) upstream addr h.

Definition slots_gauge (slots : PeerSlots) (addr : SocketAddr) : Z :=
  match addr_slot slots addr with
  | Some pos => match sl_peers slots !! pos with Some p => ph_in_flight p | None => 0 end
  | None => 0
  end.

Definition in_flights (h : HealthRegistry) (upstream : bytes) (peers : list Peer) : list Z :=
  match hr_upstreams h !! upstream with
  | None => replicate (length peers) 0
  | Some slots => map (λ p, slots_gauge slots (pe_addr p)) peers
  end.

(** The gauge of one address. *)
Definition gauge (h : HealthRegistry) (upstream : bytes) (addr : SocketAddr) : Z :=
  match hr_upstreams h !! upstream with Some s => slots_gauge s addr | None => 0 end.

(** * Basic facts *)

Lemma addr_slot_Some slots a pos :
  addr_slot slots a = Some pos →
  sl_addrs slots !! pos = Some a ∧ ∀ j, (j < pos)%nat → sl_addrs slots !! j ≠ Some a.
Proof.
  unfold addr_slot. rewrite fmap_Some. intros ([i x] & (Hx & -> & Hfirst)%list_find_Some & ->).
  simpl. split; [done|]. intros j Hj Hl. by apply (Hfirst j a).
Qed.

Lemma addr_slot_None slots a : addr_slot slots a = None ↔ a ∉ sl_addrs slots.
Proof.
  unfold addr_slot. rewrite fmap_None, list_find_None, Forall_forall. naive_solver.
Qed.

Lemma addr_slot_nodup slots a pos :
  NoDup (sl_addrs slots) → sl_addrs slots !! pos = Some a → addr_slot slots a = Some pos.
Proof.
  intros Hnd Hpos. destruct (addr_slot slots a) as [p|] eqn:E.
  - apply addr_slot_Some in E as [Hp _]. f_equal. by eapply NoDup_lookup.
  - apply addr_slot_None in E. exfalso. apply E. by eapply list_elem_of_lookup_2.
Qed.

Lemma update_slot_same f up idx h s :
  hr_upstreams h !! up = Some s →
  hr_upstreams (update_slot f up idx h) !! up =
    Some {| sl_addrs := sl_addrs s; sl_peers := alter f idx (sl_peers s) |}.
Proof. intros Hs. unfold update_slot. simpl. by rewrite lookup_alter_eq, Hs. Qed.

Lemma update_slot_other f up up' idx h :
  up ≠ up' → hr_upstreams (update_slot f up idx h) !! up' = hr_upstreams h !! up'.
Proof. intros Hne. unfold update_slot. simpl. by rewrite lookup_alter_ne. Qed.

Lemma slot_at_update f up idx h :
  slot_at (update_slot f up idx h) up idx = f <$> slot_at h up idx.
Proof.
  unfold slot_at. destruct (hr_upstreams h !! up) as [s|] eqn:E.
  - rewrite (update_slot_same _ _ _ _ _ E). simpl. by rewrite list_lookup_alter_eq.
  - unfold update_slot. simpl. by rewrite lookup_alter_eq, E.
Qed.

Lemma slot_at_update_other f up idx up' idx' h :
  (up', idx') ≠ (up, idx) → slot_at (update_slot f up idx h) up' idx' = slot_at h up' idx'.
Proof.
  intros Hne. unfold slot_at. destruct (decide (up' = up)) as [->|Hup].
  - destruct (hr_upstreams h !! up) as [s|] eqn:E.
    + rewrite (update_slot_same _ _ _ _ _ E). simpl.
      rewrite list_lookup_alter_ne; [done|]. congruence.
    + unfold update_slot. simpl. by rewrite lookup_alter_eq, E.
  - by rewrite update_slot_other by done.
Qed.

(** * The registry invariant *)

Record peer_ok (p : PeerHealth) : Prop := {
  po_fails : in_u 32 (ph_fails p);
  po_window : in_u 64 (ph_window_start p);
  po_down : in_u 64 (ph_down_until p);
  po_flight : in_u 64 (ph_in_flight p);
}.

(** One slot block: a slot per address, every field in its machine range. *)
Record slots_ok (s : PeerSlots) : Prop := {
  so_len : length (sl_peers s) = length (sl_addrs s);
  so_peers : Forall peer_ok (sl_peers s);
}.

Definition registry_ok (h : HealthRegistry) : Prop :=
  ∀ up s, hr_upstreams h !! up = Some s → slots_ok s.

(** The address of slot [i] is in no other slot: validation does not ask for it. *)
Definition single (s : PeerSlots) (i : nat) : Prop :=
  ∀ j a b, sl_addrs s !! i = Some a → sl_addrs s !! j = Some b → addr_to_string b = addr_to_string a → j = i.

(** The verdict in every slot that has its address for itself is the active plane's
    for that address. *)
Definition mirrored (h : HealthRegistry) : Prop :=
  ∀ up s i a p, hr_upstreams h !! up = Some s → sl_addrs s !! i = Some a → sl_peers s !! i = Some p →
    single s i → ph_active_ok p = is_active_healthy h up (addr_to_string a).

(** A probe's index is the one its address has. *)
Definition direct (h : HealthRegistry) (up : bytes) (idx : nat) (addr : bytes) : Prop :=
  ∃ s a, hr_upstreams h !! up = Some s ∧ sl_addrs s !! idx = Some a ∧ addr = addr_to_string a.

(** The steps the gateway takes on the registry.  A probe reports the index and the address its sweep started with
    ([probe_peer]); only when a registration crossed it do they part. *)
Inductive health_step (crossed : bool) (h : HealthRegistry) : HealthRegistry → Prop :=
| step_register up addrs : health_step crossed h (register up addrs h)
| step_failure up idx cfg now_ms :
    in_u 64 now_ms → health_step crossed h (record_failure up idx cfg now_ms h)
| step_success up idx now_ms :
    in_u 64 now_ms → health_step crossed h (record_success up idx now_ms h)
| step_probe up idx addr ok ut ht :
    (crossed = false → direct h up idx addr) →
    health_step crossed h (record_probe up idx addr ok ut ht h).2
| step_inc up a : health_step crossed h (inc_in_flight up a h)
| step_dec up a : health_step crossed h (dec_in_flight up a h).

Definition reachable (crossed : bool) (h : HealthRegistry) : Prop := rtc (health_step crossed) new h.

Lemma fresh_peer_ok : peer_ok fresh_peer.
Proof. constructor; unfold in_u; simpl; lia. Qed.

Lemma peer_ok_active b p : peer_ok p → peer_ok (with_active_ok b p).
Proof. intros []. by constructor. Qed.

Lemma peer_ok_counters f w p :
  peer_ok p → in_u 32 f → in_u 64 w → peer_ok (with_counters f w p).
Proof. intros [] ??. by constructor. Qed.

Lemma evaluate_failure_range f w now cfg t :
  evaluate_failure f w now cfg = Some t → in_u 64 t.
Proof.
  unfold evaluate_failure. repeat case_match; intros; simplify_eq. by apply wrap_range.
Qed.

Lemma peer_ok_failure cfg now p : in_u 64 now → peer_ok p → peer_ok (peer_failure cfg now p).
Proof.
  intros Hn Hp. unfold peer_failure.
  set (p1 := if _ <? _ then _ else p).
  assert (peer_ok p1) as H1.
  { subst p1. case_match; [|done]. by apply peer_ok_counters; [|unfold in_u; lia|]. }
  clearbody p1. destruct H1 as [? Hw ? ?].
  destruct (evaluate_failure _ _ now cfg) as [t|] eqn:E.
  - apply evaluate_failure_range in E. constructor; simpl; try done.
  - constructor; simpl; try done. by apply wrap_range.
Qed.

#[export] Hint Resolve fresh_peer_ok peer_ok_active peer_ok_counters peer_ok_failure : gateway.

(** Slot updates that keep the ranges keep the layout, and the mirror if they keep
    the verdict. *)
Lemma update_slot_ok f up idx h :
  (∀ p, peer_ok p → peer_ok (f p)) → registry_ok h → registry_ok (update_slot f up idx h).
Proof.
  intros Hf Hok up' s Hs. destruct (decide (up' = up)) as [->|Hne]; cycle 1.
  { rewrite update_slot_other in Hs by done. by apply (Hok up'). }
  destruct (hr_upstreams h !! up) as [s0|] eqn:E; cycle 1.
  { unfold update_slot in Hs. simpl in Hs. by rewrite lookup_alter_eq, E in Hs. }
  rewrite (update_slot_same _ _ _ _ _ E) in Hs. injection Hs as <-.
  destruct (Hok up s0 E) as [Hl Hp]. constructor; simpl.
  - by rewrite length_alter.
  - apply Forall_alter; [done|]. intros. by apply Hf.
Qed.

Lemma update_slot_mirrored f up idx h :
  (∀ p, ph_active_ok (f p) = ph_active_ok p) → mirrored h → mirrored (update_slot f up idx h).
Proof.
  intros Ha Hm up' s i a p Hs Hi Hpi Hsi. destruct (decide (up' = up)) as [->|Hne]; cycle 1.
  { rewrite update_slot_other in Hs by done. by apply (Hm up' s i a p). }
  destruct (hr_upstreams h !! up) as [s0|] eqn:E; cycle 1.
  { unfold update_slot in Hs. simpl in Hs. by rewrite lookup_alter_eq, E in Hs. }
  rewrite (update_slot_same _ _ _ _ _ E) in Hs. injection Hs as <-. simpl in *.
  destruct (decide (i = idx)) as [->|Hi'].
  - rewrite list_lookup_alter_eq in Hpi.
    apply fmap_Some in Hpi as (q & Hq & ->). rewrite Ha. by apply (Hm up s0 idx a q).
  - rewrite list_lookup_alter_ne in Hpi by done. by apply (Hm up s0 i a p).
Qed.

Lemma update_addr_ok f up a h :
  (∀ p, peer_ok p → peer_ok (f p)) → registry_ok h → registry_ok (update_addr f up a h).
Proof.
  intros. unfold update_addr. repeat case_match; try done. by apply update_slot_ok.
Qed.

Lemma update_addr_mirrored f up a h :
  (∀ p, ph_active_ok (f p) = ph_active_ok p) → mirrored h → mirrored (update_addr f up a h).
Proof.
  intros. unfold update_addr. repeat case_match; try done. by apply update_slot_mirrored.
Qed.

(** What [previous] yields comes from a slot. *)
Lemma previous_state_Some s a p :
  previous_state (Some s) !! a = Some p →
  ∃ i, sl_addrs s !! i = Some a ∧ sl_peers s !! i = Some p.
Proof.
  simpl. intros H%elem_of_list_to_map_2. rewrite elem_of_reverse in H.
  apply list_elem_of_lookup in H as [i Hi]. exists i.
  apply lookup_zip_with_Some in Hi as (? & ? & ? & ? & ?). by simplify_eq/=.
Qed.

Lemma register_ok up addrs h : registry_ok h → registry_ok (register up addrs h).
Proof.
  intros Hok up' s Hs. unfold register in Hs. simpl in Hs.
  destruct (decide (up' = up)) as [->|Hne]; cycle 1.
  { rewrite lookup_insert_ne in Hs by done. by apply (Hok up'). }
  rewrite lookup_insert_eq in Hs. injection Hs as <-. constructor; simpl.
  - by rewrite length_map.
  - apply Forall_forall. intros p Hp%list_elem_of_In%in_map_iff.
    destruct Hp as (a & <- & _). apply peer_ok_active.
    destruct (hr_upstreams h !! up) as [s|] eqn:E; [|simpl; rewrite lookup_empty; apply fresh_peer_ok].
    destruct (previous_state (Some s) !! a) as [p|] eqn:Ep; [|apply fresh_peer_ok].
    apply previous_state_Some in Ep as (i & _ & Hi).
    destruct (Hok up s E) as [_ Hp]. by apply (Forall_lookup_1 _ _ _ _ Hp Hi).
Qed.

Lemma register_mirrored up addrs h : mirrored h → mirrored (register up addrs h).
Proof.
  intros Hm up' s i a p Hs Hi Hp Hsi. unfold register in Hs. simpl in Hs.
  destruct (decide (up' = up)) as [->|Hne]; cycle 1.
  { rewrite lookup_insert_ne in Hs by done. by apply (Hm up' s i a p). }
  rewrite lookup_insert_eq in Hs. injection Hs as <-. simpl in Hi, Hp.
  change (map ?f ?l) with (f <$> l) in Hp. rewrite list_lookup_fmap, Hi in Hp. by injection Hp as <-.
Qed.

Lemma record_probe_ok up idx addr ok ut ht h :
  registry_ok h → registry_ok (record_probe up idx addr ok ut ht h).2.
Proof.
  intros Hok. unfold record_probe. destruct (evaluate_active _ _ _ _ _ _) as [[hl fl] su]. simpl.
  apply update_slot_ok; [|done]. intros p. apply peer_ok_active.
Qed.

Lemma record_probe_mirrored up idx s a ok ut ht h :
  hr_upstreams h !! up = Some s → sl_addrs s !! idx = Some a →
  mirrored h → mirrored (record_probe up idx (addr_to_string a) ok ut ht h).2.
Proof.
  intros Hs Ha Hm up' s' i b p Hs' Hi Hpi Hsi. unfold record_probe in *.
  destruct (evaluate_active _ _ _ _ _ _) as [[hl fl] su]. simpl in *.
  unfold is_active_healthy. simpl. set (act := <[_ := _]> (hr_active h)) in *.
  destruct (decide (up' = up)) as [->|Hne].
  - rewrite lookup_alter_eq, Hs in Hs'. injection Hs' as <-. simpl in Hi, Hpi.
    destruct (decide (i = idx)) as [->|Hii].
    + rewrite list_lookup_alter_eq in Hpi.
      apply fmap_Some in Hpi as (q & Hq & ->). simplify_eq.
      unfold act. by rewrite lookup_insert_eq.
    + rewrite list_lookup_alter_ne in Hpi by done.
      unfold act. rewrite lookup_insert_ne; [by apply (Hm up s i b p)|].
      intros [= Heq]. apply Hii. symmetry. by apply (Hsi idx b a).
  - rewrite lookup_alter_ne in Hs' by done. rewrite (Hm up' s' i b p Hs' Hi Hpi Hsi).
    unfold is_active_healthy, act. rewrite lookup_insert_ne; [done|congruence].
Qed.

Lemma health_step_ok crossed h h' : health_step crossed h h' → registry_ok h → registry_ok h'.
Proof.
  intros [] Hok.
  - by apply register_ok.
  - unfold record_failure. case_match; [done|]. apply update_slot_ok; [eauto with gateway|done].
  - apply update_slot_ok; [|done]. intros. apply peer_ok_counters; [done|unfold in_u; lia|done].
  - by apply record_probe_ok.
  - apply update_addr_ok; [|done]. intros p []. constructor; try done. by apply wrap_range.
  - apply update_addr_ok; [|done].
    intros p [? ? ? Hf]. constructor; try done. simpl. unfold in_u, sat_sub in *. lia.
Qed.

Lemma health_step_mirrored h h' : health_step false h h' → mirrored h → mirrored h'.
Proof.
  intros [] Hm.
  - by apply register_mirrored.
  - unfold record_failure. case_match; [done|]. apply update_slot_mirrored; [|done].
    intros p. unfold peer_failure. by repeat case_match.
  - by apply update_slot_mirrored.
  - destruct H as (s & a & Hs & Ha & ->); [done|]. by eapply record_probe_mirrored.
  - by apply update_addr_mirrored.
  - by apply update_addr_mirrored.
Qed.

Lemma new_registry_ok : registry_ok new ∧ mirrored new.
Proof. split; [intros up s Hs|intros up s i a p Hs]; simpl in Hs; by rewrite lookup_empty in Hs. Qed.

Lemma health_reachable_ok crossed h : reachable crossed h → registry_ok h.
Proof.
  unfold reachable. generalize (proj1 new_registry_ok). intros H0 H. revert H0.
  induction H as [|h1 h2 h3 Hs _ IH]; [done|]. intros H1. by apply IH, (health_step_ok crossed h1).
Qed.

Lemma health_reachable_mirrored h : reachable false h → mirrored h.
Proof.
  unfold reachable. generalize (proj2 new_registry_ok). intros H0 H. revert H0.
  induction H as [|h1 h2 h3 Hs _ IH]; [done|]. intros H1. by apply IH, (health_step_mirrored h1).
Qed.

(** C11. In every reachable registry each upstream has one slot per listed address,
    all counters are inside their machine widths, and a peer is reported healthy
    exactly when its passive down period is over and the verdict in its slot is
    healthy.  For an address the upstream lists once, and unless a registration
    crosses a probe on its way, that verdict is the active plane's for the ADDRESS:
    the per-index mirror does not go stale across reloads that reorder, add or drop
    peers.  (Slots that share an address share one verdict and can part from it
    until the next registration, [repeated_address_parts].) *)
Theorem reachable_health_exact (crossed : bool) (h : HealthRegistry) :
  reachable crossed h →
  ∀ up s, hr_upstreams h !! up = Some s →
  length (sl_peers s) = length (sl_addrs s) ∧
  ∀ i a, sl_addrs s !! i = Some a →
  ∃ p, slot_at h up i = Some p ∧ peer_ok p ∧
    (∀ now_ms, is_healthy h up i now_ms = (ph_down_until p <=? now_ms) && ph_active_ok p) ∧
    (crossed = false → single s i → ph_active_ok p = is_active_healthy h up (addr_to_string a)).
Proof.
  intros Hr up s Hs. destruct (health_reachable_ok crossed h Hr up s Hs) as [Hl Hp]. split; [done|].
  intros i a Ha. destruct (lookup_lt_is_Some_2 (sl_peers s) i) as [p Hpi].
  { rewrite Hl. by eapply lookup_lt_Some. }
  assert (slot_at h up i = Some p) as Hslot by (unfold slot_at; rewrite Hs; done).
  exists p. split_and!; [done|by apply (Forall_lookup_1 _ _ _ _ Hp Hpi)| |].
  - intros now_ms. unfold is_healthy, peer_healthy. by rewrite Hslot.
  - intros -> Hsi. by apply (health_reachable_mirrored h Hr up s i a p).
Qed.

(** * Reloads keep state by address *)

Lemma previous_state_lookup s i a p :
  single s i → sl_addrs s !! i = Some a → sl_peers s !! i = Some p →
  previous_state (Some s) !! a = Some p.
Proof.
  intros Hsi Ha Hp. simpl. apply elem_of_list_to_map_1'.
  - intros q Hq. rewrite elem_of_reverse in Hq. apply list_elem_of_lookup in Hq as [j Hj].
    apply lookup_zip_with_Some in Hj as (b & q' & [= <- <-] & Hb & Hq).
    rewrite (Hsi j a a Ha Hb eq_refl) in Hq. congruence.
  - rewrite elem_of_reverse. apply (list_elem_of_lookup_2 _ i).
    apply lookup_zip_with_Some. by exists a, p.
Qed.

Lemma previous_state_fresh s a :
  a ∉ sl_addrs s → previous_state (Some s) !! a = None.
Proof.
  intros Ha. destruct (previous_state (Some s) !! a) as [p|] eqn:E; [|done].
  apply previous_state_Some in E as (i & Hi & _). exfalso.
  apply Ha. by eapply list_elem_of_lookup_2.
Qed.

Lemma register_slot up addrs h j a :
  addrs !! j = Some a →
  slot_at (register up addrs h) up j =
    Some (with_active_ok (is_active_healthy h up (addr_to_string a))
            (default fresh_peer (previous_state (hr_upstreams h !! up) !! a))).
Proof.
  intros Ha. unfold slot_at, register. simpl. rewrite lookup_insert_eq. simpl.
  change (map ?f addrs) with (f <$> addrs). by rewrite list_lookup_fmap, Ha.
Qed.

(** A reload remaps health by ADDRESS.  In a reachable registry, when an
    upstream is registered again with any list of addresses, a peer whose
    address was known, in one slot, keeps its slot (failure counters, down period and in-flight
    gauge) whatever its new index, with the active plane's verdict for its address,
    which is the one it had unless a crossed probe had overwritten it; a new address
    starts fresh with the active plane's verdict, and no other upstream and no
    active-plane counter changes. *)
Theorem register_remaps_by_address (crossed : bool) (h : HealthRegistry) (up : bytes) (s : PeerSlots)
    (addrs : list SocketAddr) (j : nat) (a : SocketAddr) :
  reachable crossed h → hr_upstreams h !! up = Some s → addrs !! j = Some a →
  let h' := register up addrs h in
  (∀ i p, sl_addrs s !! i = Some a → sl_peers s !! i = Some p → single s i →
     slot_at h' up j = Some (with_active_ok (is_active_healthy h up (addr_to_string a)) p) ∧
     (crossed = false → slot_at h' up j = Some p)) ∧
  (a ∉ sl_addrs s →
     slot_at h' up j =
       Some (with_active_ok (is_active_healthy h up (addr_to_string a)) fresh_peer)) ∧
  (∀ up', up' ≠ up → hr_upstreams h' !! up' = hr_upstreams h !! up') ∧
  hr_active h' = hr_active h.
Proof.
  intros Hr Hs Ha h'. unfold h'. split_and!.
  - intros i p Hi Hpi Hsi. rewrite (register_slot _ _ _ _ _ Ha), Hs.
    rewrite (previous_state_lookup s i a p Hsi Hi Hpi). simpl. split; [done|].
    intros ->. rewrite <-(health_reachable_mirrored h Hr up s i a p Hs Hi Hpi Hsi). by destruct p.
  - intros Hn. by rewrite (register_slot _ _ _ _ _ Ha), Hs, previous_state_fresh.
  - intros up' Hne. unfold register. simpl. by rewrite lookup_insert_ne.
  - done.
Qed.

(** * Passive plane *)

(** Failures at the times [ts], in order, on one slot. *)
Definition failures (cfg : HealthConfig) (ts : list Z) (p : PeerHealth) : PeerHealth :=
  foldl (λ p t, peer_failure cfg t p) p ts.

(** Time since the window opened is inside the configured window. *)
Definition in_window (cfg : HealthConfig) (w t : Z) : Prop :=
  w <= t <= w + sat_mul 64 (hc_fail_window_s cfg) 1000.

Definition health_cfg_ok (cfg : HealthConfig) : Prop :=
  0 < hc_max_fails cfg < 2 ^ 32 ∧ 0 <= hc_fail_window_s cfg ∧ 0 <= hc_fail_timeout_s cfg.

Lemma in_window_fresh cfg w t :
  in_window cfg w t → (sat_mul 64 (hc_fail_window_s cfg) 1000 <? sat_sub t w) = false.
Proof. unfold in_window, sat_sub. intros H. apply Z.ltb_ge. lia. Qed.

Lemma peer_failure_in_window cfg t p :
  health_cfg_ok cfg → in_window cfg (ph_window_start p) t →
  0 <= ph_fails p → ph_fails p + 1 < 2 ^ 32 →
  peer_failure cfg t p =
    if hc_max_fails cfg <=? ph_fails p + 1
    then with_counters 0 (ph_window_start p)
           (with_down_until (wrap 64 (t + sat_mul 64 (hc_fail_timeout_s cfg) 1000)) p)
    else with_counters (ph_fails p + 1) (ph_window_start p) p.
Proof.
  intros (Hm & _ & _) Hw H0 Hf. unfold peer_failure, evaluate_failure.
  rewrite (in_window_fresh _ _ _ Hw). simpl. rewrite (in_window_fresh _ _ _ Hw).
  rewrite (proj2 (Z.eqb_neq _ 0)) by lia. rewrite wrap_small by (unfold in_u; lia).
  by destruct (hc_max_fails cfg <=? ph_fails p + 1).
Qed.

(** Below the threshold failures are only counted. *)
Lemma failures_count cfg ts p :
  health_cfg_ok cfg → Forall (in_window cfg (ph_window_start p)) ts →
  0 <= ph_fails p → ph_fails p + Z.of_nat (length ts) < hc_max_fails cfg →
  failures cfg ts p =
    with_counters (ph_fails p + Z.of_nat (length ts)) (ph_window_start p) p.
Proof.
  intros Hc. revert p. induction ts as [|t ts IH]; intros p Hw H0 Hf.
  { simpl. rewrite Z.add_0_r. by destruct p. }
  apply Forall_cons in Hw as [Ht Hw]. pose proof Hc as (Hm & _).
  change (failures cfg (t :: ts) p) with (failures cfg ts (peer_failure cfg t p)).
  simpl length in *. rewrite peer_failure_in_window by (done || lia).
  rewrite (proj2 (Z.leb_gt _ _)) by lia.
  rewrite IH; simpl; try done; try lia.
  replace (ph_fails p + 1 + Z.of_nat (length ts)) with (ph_fails p + Z.of_nat (S (length ts))) by lia.
  done.
Qed.

(** The passive plane trips exactly at [max_fails].  From a closed counter
    (fresh window opened at [w]), failures inside the window leave the peer's
    down period untouched as long as there are fewer than [max_fails] of them;
    the [max_fails]-th, at time [t], marks it down until exactly
    [t + fail_timeout_s * 1000] (when that fits [u64]) and restarts the count;
    until then it is reported unhealthy, afterwards healthy again unless the
    active plane objects. *)
Theorem passive_trips_at_max_fails (cfg : HealthConfig) (p : PeerHealth) (ts : list Z) (t : Z) :
  health_cfg_ok cfg → ph_fails p = 0 →
  Forall (in_window cfg (ph_window_start p)) (ts ++ [t]) →
  Z.of_nat (length ts) + 1 = hc_max_fails cfg →
  0 <= t → t + sat_mul 64 (hc_fail_timeout_s cfg) 1000 < 2 ^ 64 →
  let down := t + sat_mul 64 (hc_fail_timeout_s cfg) 1000 in
  let p' := failures cfg (ts ++ [t]) p in
  (∀ k, (k ≤ length ts)%nat →
     ph_down_until (failures cfg (take k ts) p) = ph_down_until p) ∧
  p' = with_counters 0 (ph_window_start p) (with_down_until down p) ∧
  ∀ now, peer_healthy now p' = (down <=? now) && ph_active_ok p.
Proof.
  intros Hc Hf Hw Hn Ht Hfit down p'. pose proof Hc as (Hm & Hws & Hts).
  apply Forall_app in Hw as [Hw Hwt]. rewrite Forall_singleton in Hwt.
  assert (∀ k, (k ≤ length ts)%nat →
            failures cfg (take k ts) p = with_counters (Z.of_nat k) (ph_window_start p) p) as Hk.
  { intros k Hk. assert (length (take k ts) = k) as Hl by (rewrite length_take; lia).
    rewrite failures_count; rewrite ?Hl; try done; try lia; [by rewrite Hf|].
    by apply Forall_take. }
  assert (p' = with_counters 0 (ph_window_start p) (with_down_until down p)) as Hp'.
  { unfold p', failures. rewrite foldl_app. simpl.
    specialize (Hk (length ts) ltac:(lia)). rewrite firstn_all in Hk.
    unfold failures in Hk. rewrite Hk.
    rewrite peer_failure_in_window by (done || (cbn [with_counters ph_fails]; lia)).
    cbn [with_counters ph_fails].
    rewrite (proj2 (Z.leb_le _ _)) by lia. rewrite wrap_small; [done|].
    unfold in_u, sat_mul, umax in *. lia. }
  split_and!.
  - intros k Hkl. by rewrite Hk.
  - done.
  - intros now. by rewrite Hp'.
Qed.

(** * Active plane *)

(** Length of the run of outcomes [b] at the newest end of a history (newest
    first). *)
Fixpoint run_of (b : bool) (hs : list bool) : nat :=
  match hs with
  | o :: hs => if bool_decide (o = b) then S (run_of b hs) else 0
  | [] => 0
  end.

(** Feed a history (newest first) of probe outcomes for one peer. *)
Fixpoint probes (up : bytes) (idx : nat) (addr : bytes) (ut ht : Z) (hs : list bool)
    (h : HealthRegistry) : HealthRegistry :=
  match hs with
  | [] => h
  | o :: hs => (record_probe up idx addr o ut ht (probes up idx addr ut ht hs h)).2
  end.

(** The peer is down: at some point its last [ut] probes had all failed, and
    since then it never had [ht] successes in a row. *)
Definition marked_down (ut ht : Z) (hs : list bool) : Prop :=
  ∃ recent older, hs = recent ++ older ∧ ut <= Z.of_nat (run_of false older) ∧
    ∀ r1 r2, recent = r1 ++ r2 → Z.of_nat (run_of true (r2 ++ older)) < ht.

Lemma marked_down_nil ut ht : 1 <= ut → ¬ marked_down ut ht [].
Proof.
  intros Hu (r & o & H & Hr & _). symmetry in H. apply app_nil in H as [-> ->].
  simpl in Hr. lia.
Qed.

Lemma marked_down_success ut ht hs :
  1 <= ut →
  marked_down ut ht (true :: hs) ↔
    marked_down ut ht hs ∧ Z.of_nat (run_of true (true :: hs)) < ht.
Proof.
  intros Hu. split.
  - intros ([|o r] & older & H & Hr & Hs); simplify_eq/=; [lia|]. split.
    + exists r, older. split_and!; [done|done|]. intros r1 r2 ->. by apply (Hs (true :: r1)).
    + apply (Hs [] (true :: r) eq_refl).
  - intros [(r & older & -> & Hr & Hs) Hlt]. exists (true :: r), older. split_and!; [done|done|].
    intros [|o r1] r2 H; simplify_eq/=; [done|]. by apply (Hs r1).
Qed.

Lemma marked_down_failure ut ht hs :
  1 <= ht →
  marked_down ut ht (false :: hs) ↔
    marked_down ut ht hs ∨ ut <= Z.of_nat (run_of false (false :: hs)).
Proof.
  intros Hh. split.
  - intros ([|o r] & older & H & Hr & Hs); simplify_eq/=; [by right|left].
    exists r, older. split_and!; [done|done|]. intros r1 r2 ->. by apply (Hs (false :: r1)).
  - intros [(r & older & -> & Hr & Hs)|Hr].
    + exists (false :: r), older. split_and!; [done|done|].
      intros [|o r1] r2 H; simplify_eq/=; [lia|]. by apply (Hs r1).
    + exists [], (false :: hs). split_and!; [done|done|].
      intros r1 r2 H. symmetry in H. apply app_nil in H as [-> ->]. simpl. lia.
Qed.

Lemma run_of_length b hs : (run_of b hs ≤ length hs)%nat.
Proof. induction hs as [|o hs IH]; simpl; [lia|]. case_bool_decide; lia. Qed.

(** The registry's counters are the runs of the history and its verdict the
    declarative one. *)
Lemma probes_state up idx addr ut ht hs h :
  1 <= ut → 1 <= ht → hr_active h !! (up, addr) = None → Z.of_nat (length hs) < 2 ^ 32 →
  ∃ p, default fresh_active (hr_active (probes up idx addr ut ht hs h) !! (up, addr)) = p ∧
    ap_fails p = Z.of_nat (run_of false hs) ∧ ap_successes p = Z.of_nat (run_of true hs) ∧
    (ap_healthy p = false ↔ marked_down ut ht hs).
Proof.
  intros Hu Hh Hn. induction hs as [|o hs IH]; intros Hlen.
  { simpl. rewrite Hn. simpl. exists fresh_active. split_and!; try done.
    split; [done|]. by intros ?%marked_down_nil. }
  simpl length in Hlen.
  destruct IH as (p & Hp & Hf & Hs & Hd); [lia|]. cbn [probes]. unfold record_probe.
  rewrite Hp. pose proof (run_of_length false hs). pose proof (run_of_length true hs).
  destruct o; cbn [evaluate_active update_slot hr_active fst snd];
    rewrite lookup_insert_eq; eexists; (split; [reflexivity|]); cbn [from_option id ap_fails ap_successes ap_healthy].
  - split_and!; [done|rewrite Hs, wrap_small by (unfold in_u; lia); simpl; lia|].
    rewrite marked_down_success, <-Hd, orb_false_iff, Z.leb_gt by done.
    rewrite Hs, wrap_small by (unfold in_u; lia). simpl. rewrite Nat2Z.inj_succ. done.
  - split_and!; [rewrite Hf, wrap_small by (unfold in_u; lia); simpl; lia|done|].
    rewrite marked_down_failure, <-Hd, andb_false_iff, Z.ltb_ge by done.
    rewrite Hf, wrap_small by (unfold in_u; lia). simpl. rewrite Nat2Z.inj_succ. done.
Qed.

(** C13. The active plane implements hysteresis.  For a peer never probed before,
    after any history of probe outcomes (fewer than [2^32], thresholds at least
    one as validation enforces) the verdict is unhealthy exactly when at some
    point [unhealthy_threshold] probes in a row had failed and no
    [healthy_threshold] probes in a row succeeded since. *)
Theorem active_plane_hysteresis (up : bytes) (idx : nat) (addr : bytes) (ut ht : Z)
    (hs : list bool) (h : HealthRegistry) :
  1 <= ut → 1 <= ht → hr_active h !! (up, addr) = None → Z.of_nat (length hs) < 2 ^ 32 →
  is_active_healthy (probes up idx addr ut ht hs h) up addr = false ↔ marked_down ut ht hs.
Proof.
  intros Hu Hh Hn Hl.
  destruct (probes_state up idx addr ut ht hs h Hu Hh Hn Hl) as (p & Hp & _ & _ & <-).
  unfold is_active_healthy.
  destruct (hr_active (probes up idx addr ut ht hs h) !! (up, addr)); simpl in Hp; by subst.
Qed.

(** * In-flight gauges *)

Lemma slots_gauge_alter s pos f a b p :
  sl_addrs s !! pos = Some a → addr_slot s a = Some pos → sl_peers s !! pos = Some p →
  slots_gauge {| sl_addrs := sl_addrs s; sl_peers := alter f pos (sl_peers s) |} b =
    if decide (b = a) then ph_in_flight (f p) else slots_gauge s b.
Proof.
  intros Ha Hpos Hp. unfold slots_gauge.
  change (addr_slot {| sl_addrs := sl_addrs s; sl_peers := alter f pos (sl_peers s) |} b)
    with (addr_slot s b).
  case_decide as Hb.
  - subst b. rewrite Hpos. simpl. by rewrite list_lookup_alter_eq, Hp.
  - destruct (addr_slot s b) as [q|] eqn:E; [|done]. simpl.
    rewrite list_lookup_alter_ne; [done|]. intros <-.
    apply addr_slot_Some in E as [E _]. congruence.
Qed.

(** An in-flight update touches the one gauge it names. *)
Lemma update_addr_gauge f up a h s :
  registry_ok h → hr_upstreams h !! up = Some s → a ∈ sl_addrs s →
  ∃ p, ph_in_flight p = gauge h up a ∧ peer_ok p ∧
    ∀ up' b, gauge (update_addr f up a h) up' b =
      if decide ((up', b) = (up, a)) then ph_in_flight (f p) else gauge h up' b.
Proof.
  intros Hok Hs Hin. destruct (Hok up s Hs) as [Hl Hp].
  destruct (addr_slot s a) as [pos|] eqn:E; [|by apply addr_slot_None in E].
  pose proof (addr_slot_Some _ _ _ E) as [Ha _].
  destruct (lookup_lt_is_Some_2 (sl_peers s) pos) as [p Hpp].
  { rewrite Hl. by eapply lookup_lt_Some. }
  exists p. unfold gauge at 1. rewrite Hs. unfold slots_gauge. rewrite E, Hpp.
  split_and!; [done|by apply (Forall_lookup_1 _ _ _ _ Hp Hpp)|].
  intros up' b. unfold update_addr. rewrite Hs, E. unfold gauge at 1.
  destruct (decide (up' = up)) as [->|Hne].
  - rewrite (update_slot_same _ _ _ _ _ Hs), (slots_gauge_alter s pos f a b p Ha E Hpp).
    unfold gauge. rewrite Hs. repeat case_decide; naive_solver.
  - rewrite update_slot_other by done. case_decide; naive_solver.
Qed.

Lemma inc_gauge up a h s :
  registry_ok h → hr_upstreams h !! up = Some s → a ∈ sl_addrs s →
  gauge h up a + 1 < 2 ^ 64 →
  ∀ up' b, gauge (inc_in_flight up a h) up' b =
    gauge h up' b + (if decide ((up', b) = (up, a)) then 1 else 0).
Proof.
  intros Hok Hs Hin Hb up' b. unfold inc_in_flight.
  edestruct update_addr_gauge as (p & Hp & [_ _ _ Hr] & Hg); [done..|].
  rewrite Hg. simpl. unfold in_u in Hr. case_decide as Heq; [|lia]. injection Heq as -> ->.
  rewrite wrap_small by (unfold in_u; lia). lia.
Qed.

Lemma dec_gauge up a h s :
  registry_ok h → hr_upstreams h !! up = Some s → a ∈ sl_addrs s →
  ∀ up' b, gauge (dec_in_flight up a h) up' b =
    if decide ((up', b) = (up, a)) then Z.max 0 (gauge h up a - 1) else gauge h up' b.
Proof.
  intros Hok Hs Hin up' b. unfold dec_in_flight.
  edestruct update_addr_gauge as (p & Hp & [_ _ _ Hr] & Hg); [done..|].
  rewrite Hg. simpl. case_decide; [|done]. unfold sat_sub. by rewrite Hp.
Qed.

(** The address is registered for the upstream. *)
Definition listed (h : HealthRegistry) (up : bytes) (a : SocketAddr) : Prop :=
  ∃ s, hr_upstreams h !! up = Some s ∧ a ∈ sl_addrs s.

Lemma update_slot_listed f up idx h up' a :
  listed (update_slot f up idx h) up' a ↔ listed h up' a.
Proof.
  unfold listed. destruct (decide (up' = up)) as [->|Hne]; [|by rewrite update_slot_other].
  destruct (hr_upstreams h !! up) as [s|] eqn:E.
  - rewrite (update_slot_same _ _ _ _ _ E). split; intros (s' & [= <-] & ?); by eexists.
  - unfold update_slot. simpl. rewrite lookup_alter_eq, E. done.
Qed.

Lemma update_addr_listed f up a h up' b : listed (update_addr f up a h) up' b ↔ listed h up' b.
Proof. unfold update_addr. repeat case_match; [apply update_slot_listed|done..]. Qed.

(** A slot update that keeps the gauge keeps every gauge. *)
Lemma update_slot_gauge f up idx h up' b :
  (∀ p, ph_in_flight (f p) = ph_in_flight p) →
  gauge (update_slot f up idx h) up' b = gauge h up' b.
Proof.
  intros Hf. unfold gauge. destruct (decide (up' = up)) as [->|Hne]; [|by rewrite update_slot_other].
  destruct (hr_upstreams h !! up) as [s|] eqn:E.
  - rewrite (update_slot_same _ _ _ _ _ E). unfold slots_gauge, addr_slot. simpl.
    destruct (fst <$> _) as [pos|]; [|done]. destruct (decide (pos = idx)) as [->|Hp].
    + rewrite list_lookup_alter_eq. destruct (sl_peers s !! idx); simpl; [apply Hf|done].
    + by rewrite list_lookup_alter_ne.
  - unfold update_slot. simpl. by rewrite lookup_alter_eq, E.
Qed.

Lemma peer_failure_gauge cfg t p : ph_in_flight (peer_failure cfg t p) = ph_in_flight p.
Proof. unfold peer_failure. repeat case_match; done. Qed.

Lemma record_failure_gauge up idx cfg t h up' b :
  gauge (record_failure up idx cfg t h) up' b = gauge h up' b.
Proof. unfold record_failure. case_match; [done|]. apply update_slot_gauge, peer_failure_gauge. Qed.

Lemma record_failure_listed up idx cfg t h up' b :
  listed (record_failure up idx cfg t h) up' b ↔ listed h up' b.
Proof. unfold record_failure. case_match; [done|]. apply update_slot_listed. Qed.

(** * Concrete runs *)

Definition ex_up : bytes := bs "backend".
Definition ex_reg : HealthRegistry := register ex_up [loopback 9001; loopback 9002] new.

Lemma ex_reg_reachable : reachable false ex_reg.
Proof.
  apply rtc_once, step_register.
Qed.

Lemma ex_reg_single i : single {| sl_addrs := [loopback 9001; loopback 9002];
  sl_peers := [with_active_ok true fresh_peer; with_active_ok true fresh_peer] |} i.
Proof.
  intros j a b Ha Hb Hab. destruct i as [|[|i]], j as [|[|j]]; simpl in Ha, Hb; simplify_eq; try done;
    apply (f_equal (λ s, bool_decide (s = addr_to_string (loopback 9001)))) in Hab; vm_compute in Hab; discriminate.
Qed.

Lemma reachable_health_exact_witness :
  ∃ p, slot_at ex_reg ex_up 1 = Some p ∧ peer_ok p ∧
    (∀ now_ms, is_healthy ex_reg ex_up 1 now_ms = (ph_down_until p <=? now_ms) && ph_active_ok p) ∧
    ph_active_ok p = is_active_healthy ex_reg ex_up (addr_to_string (loopback 9002)).
Proof.
  destruct (reachable_health_exact false ex_reg ex_reg_reachable ex_up
    {| sl_addrs := [loopback 9001; loopback 9002];
       sl_peers := [with_active_ok true fresh_peer; with_active_ok true fresh_peer] |} eq_refl) as (_ & H).
  destruct (H 1%nat (loopback 9002) eq_refl) as (p & Hp & Hok & Hh & Ha).
  exists p. split; [exact Hp|]. split; [exact Hok|]. split; [exact Hh|]. exact (Ha eq_refl (ex_reg_single 1)).
Defined.

Lemma register_remaps_by_address_witness :
  slot_at (register ex_up [loopback 9002; loopback 9001] ex_reg) ex_up 1 =
    Some (with_active_ok true fresh_peer).
Proof.
  destruct (register_remaps_by_address false ex_reg ex_up
    {| sl_addrs := [loopback 9001; loopback 9002];
       sl_peers := [with_active_ok true fresh_peer; with_active_ok true fresh_peer] |}
    [loopback 9002; loopback 9001] 1 (loopback 9001) ex_reg_reachable) as (Hk & _); [reflexivity|reflexivity|].
  apply (Hk 0%nat (with_active_ok true fresh_peer)); [reflexivity|reflexivity|apply ex_reg_single|reflexivity].
Defined.

Lemma passive_trips_at_max_fails_witness :
  peer_healthy 10006 (failures default_health [5; 6; 7] fresh_peer) = false ∧
  peer_healthy 10007 (failures default_health [5; 6; 7] fresh_peer) = true.
Proof.
  destruct (passive_trips_at_max_fails default_health fresh_peer [5; 6] 7) as (_ & _ & H);
    [by repeat split|done| |done|done|done|].
  { apply (bool_decide_unpack (Forall (λ t, 0 <= t <= 10000) [5; 6; 7])). by vm_compute. }
  simpl app in H. by rewrite !H.
Defined.

Lemma active_plane_hysteresis_witness :
  is_active_healthy (probes ex_up 0 (bs "a") 2 2 [true; false; false] ex_reg) ex_up (bs "a")
    = false.
Proof.
  apply (active_plane_hysteresis ex_up 0 (bs "a") 2 2 [true; false; false] ex_reg);
    [done|done|reflexivity|done|].
  exists [true], [false; false]. split_and!; [done|done|].
  intros [|o r1] r2 H; [simpl in H; by subst r2|].
  injection H as _ H. symmetry in H. by apply app_nil in H as [-> ->].
Defined.

(** A repeated address: the gauge is kept in the first slot, the reload copies
    the last one, so the reload forgets a request in flight. *)
Lemma duplicate_address_drops_gauge :
  let addrs := [loopback 9001; loopback 9001] in
  let h := inc_in_flight ex_up (loopback 9001) (register ex_up addrs new) in
  gauge h ex_up (loopback 9001) = 1 ∧
  gauge (register ex_up addrs h) ex_up (loopback 9001) = 0.
Proof. by vm_compute. Qed.

(** A repeated address: a probe writes the slot of its own index, so the two slots
    part, and the second from the address's verdict, until a registration. *)
Lemma repeated_address_parts :
  let a := loopback 9001 in
  let h := (record_probe ex_up 0 (addr_to_string a) false 1 1 (register ex_up [a; a] new)).2 in
  is_healthy h ex_up 0 5 = false ∧ is_healthy h ex_up 1 5 = true ∧
  is_active_healthy h ex_up (addr_to_string a) = false ∧
  is_healthy (register ex_up [a; a] h) ex_up 1 5 = false.
Proof. by vm_compute. Qed.

(** A saturated [fail_timeout_s] wraps the down deadline into the past: the
    peer that just failed [max_fails] times is reported healthy. *)
Lemma saturated_timeout_wraps :
  let cfg := {| hc_max_fails := 1; hc_fail_window_s := 10; hc_fail_timeout_s := 2 ^ 62;
                hc_active := None |} in
  ph_down_until (peer_failure cfg 5000 fresh_peer) = 4999 ∧
  peer_healthy 5000 (peer_failure cfg 5000 fresh_peer) = true.
Proof. by vm_compute. Qed.
