(* ===== verification/Client.v ===== *)
(** The pooled-client cache ([openrusty-proxy/src/client.rs]) and the part of
    [server/src/state.rs] ([apply_runtime]) that fills and prunes it.

    A client is a hyper object; the model keeps what the code decides about it:
    its key and the settings fixed when it was built.  Parsing a TLS server name
    ([rustls_pki_types::ServerName::try_from]) is a parameter. *)

From S2P Require Import Prelude Text Net Config Upstream.
From Stdlib Require Import ZArith Lia.
From stdpp Require Import options.
Local Open Scope Z_scope.

Inductive PoolKey :=
| Http (addr : SocketAddr)
| Https (addr : SocketAddr) (key : TlsClientKey).

#[global] Instance pool_key_eq_dec : EqDecision PoolKey.
Proof. solve_decision. Defined.

Record HttpClient := { ht_connect_timeout : Z; ht_idle_timeout : Z }.

Record HttpsClient := {
  hs_addr : SocketAddr;
  hs_server_name : bytes;
  hs_connect_timeout : Z;
  hs_idle_timeout : Z;
}.

Record ClientPool := {
  cp_http : gmap SocketAddr HttpClient;
  cp_https : gmap (SocketAddr * TlsClientKey) HttpsClient;
}.

Definition new_pool : ClientPool := {| cp_http := ∅; cp_https := ∅ |}.

Definition build (connect_timeout pool_idle_timeout : Z) : HttpClient :=
  {| ht_connect_timeout := connect_timeout; ht_idle_timeout := pool_idle_timeout |}.

Definition get (addr : SocketAddr) (connect_timeout pool_idle_timeout : Z) (pool : ClientPool)
    : HttpClient * ClientPool :=
  match cp_http pool !! addr with
  | Some existing => (existing, pool)
  | None =>
      let client := build connect_timeout pool_idle_timeout in
      (client, {| cp_http := <[addr := client]> (cp_http pool); cp_https := cp_https pool |})
  end.

Section tls_clients.
Context (server_name_ok : bytes → bool).

(** [.expect("validated server name")]. *)
Definition build_tls_client (addr : SocketAddr) (tls : UpstreamTls)
    (connect_timeout pool_idle_timeout : Z) : exec HttpsClient :=
  if server_name_ok (tls_server_name tls) then
    Ret {| hs_addr := addr; hs_server_name := tls_server_name tls;
           hs_connect_timeout := connect_timeout; hs_idle_timeout := pool_idle_timeout |}
  else Panic.

Definition get_tls (addr : SocketAddr) (tls : UpstreamTls)
    (connect_timeout pool_idle_timeout : Z) (pool : ClientPool)
    : exec (HttpsClient * ClientPool) :=
  let key := (addr, tls_key tls) in
  match cp_https pool !! key with
  | Some existing => Ret (existing, pool)
  | None =>
      client ← build_tls_client addr tls connect_timeout pool_idle_timeout;
      Ret (client, {| cp_http := cp_http pool; cp_https := <[key := client]> (cp_https pool) |})
  end.

Definition evict_except (keep : list PoolKey) (pool : ClientPool) : ClientPool := {|
  cp_http := filter (λ kv, Http kv.1 ∈ keep) (cp_http pool);
  cp_https := filter (λ kv, Https kv.1.1 kv.1.2 ∈ keep) (cp_https pool);
|}.

(** The key and the prewarming of one peer, as [apply_runtime] does it. *)
Definition pool_key (up : Upstream) (p : Peer) : PoolKey :=
  match up_tls up with
  | Some tls => Https (pe_addr p) (tls_key tls)
  | None => Http (pe_addr p)
  end.

Definition prewarm (up : Upstream) (p : Peer) (pool : ClientPool) : exec ClientPool :=
  match up_tls up with
  | Some tls =>
      r ← get_tls (pe_addr p) tls (up_connect_timeout up) (up_pool_idle_timeout up) pool;
      Ret r.2
  | None => Ret (get (pe_addr p) (up_connect_timeout up) (up_pool_idle_timeout up) pool).2
  end.

Fixpoint prewarm_peers (up : Upstream) (ps : list Peer) (pool : ClientPool) : exec ClientPool :=
  match ps with
  | [] => Ret pool
  | p :: ps => pool ← prewarm up p pool; prewarm_peers up ps pool
  end.

Fixpoint prewarm_all (ups : list Upstream) (pool : ClientPool) : exec ClientPool :=
  match ups with
  | [] => Ret pool
  | up :: ups => pool ← prewarm_peers up (up_peers up) pool; prewarm_all ups pool
  end.

Definition live_keys (ups : list Upstream) : list PoolKey :=
  ups ≫= (λ up, pool_key up <$> up_peers up).

(** The pool side of [apply_runtime]: create the clients of the new snapshot,
    then drop the others. *)
Definition refresh_pool (ups : list Upstream) (pool : ClientPool) : exec ClientPool :=
  pool ← prewarm_all ups pool;
  Ret (evict_except (live_keys ups) pool).

(** Presence of a client under a key. *)
Definition has_client (pool : ClientPool) (k : PoolKey) : Prop :=
  match k with
  | Http a => is_Some (cp_http pool !! a)
  | Https a t => is_Some (cp_https pool !! (a, t))
  end.

(** Clients already present are kept by reference. *)
Definition pool_le (p1 p2 : ClientPool) : Prop :=
  cp_http p1 ⊆ cp_http p2 ∧ cp_https p1 ⊆ cp_https p2.

#[export] Instance pool_le_preorder : PreOrder pool_le.
Proof.
  split; [by split|]. intros a b c [] []. split; by etrans.
Qed.

Lemma has_client_mono p1 p2 k : pool_le p1 p2 → has_client p1 k → has_client p2 k.
Proof. intros [? ?]. destruct k; intros [c ?]; exists c; by eapply lookup_weaken. Qed.

Definition tls_names_ok (ups : list Upstream) : Prop :=
  ∀ up tls, up ∈ ups → up_tls up = Some tls → server_name_ok (tls_server_name tls) = true.

Lemma prewarm_spec up p pool :
  (∀ tls, up_tls up = Some tls → server_name_ok (tls_server_name tls) = true) →
  ∃ pool', prewarm up p pool = Ret pool' ∧ pool_le pool pool' ∧
    has_client pool' (pool_key up p).
Proof.
  intros Hok. unfold prewarm, pool_key. destruct (up_tls up) as [tls|] eqn:E.
  - unfold get_tls. destruct (cp_https pool !! _) as [c|] eqn:Ec; simpl.
    { exists pool. split_and!; [done|done|by eexists]. }
    unfold build_tls_client. rewrite (Hok tls eq_refl). simpl. eexists. split_and!; [done| |].
    + split; simpl; [done|]. by apply insert_subseteq.
    + simpl. rewrite lookup_insert_eq. by eexists.
  - unfold get. destruct (cp_http pool !! _) as [c|] eqn:Ec; simpl.
    { exists pool. split_and!; [done|done|by eexists]. }
    eexists. split_and!; [done| |].
    + split; simpl; [|done]. by apply insert_subseteq.
    + simpl. rewrite lookup_insert_eq. by eexists.
Qed.

Lemma prewarm_peers_spec up ps pool :
  (∀ tls, up_tls up = Some tls → server_name_ok (tls_server_name tls) = true) →
  ∃ pool', prewarm_peers up ps pool = Ret pool' ∧ pool_le pool pool' ∧
    ∀ p, p ∈ ps → has_client pool' (pool_key up p).
Proof.
  intros Hok. revert pool. induction ps as [|p ps IH]; intros pool; simpl.
  { exists pool. split_and!; [done|done|]. by intros ? ?%elem_of_nil. }
  destruct (prewarm_spec up p pool Hok) as (p1 & -> & Hle1 & Hc1). simpl.
  destruct (IH p1) as (p2 & -> & Hle2 & Hc2). exists p2. split_and!; [done|by etrans|].
  intros q [->|Hq]%elem_of_cons; [by eapply has_client_mono|by apply Hc2].
Qed.

(** What prewarming does whatever the server names are: every client is there, or
    one that is missing cannot be built. *)
Lemma prewarm_cases up p pool :
  match prewarm up p pool with
  | Ret pool' => pool_le pool pool' ∧ has_client pool' (pool_key up p) ∧
      ∀ a t, has_client pool' (Https a t) → has_client pool (Https a t) ∨
        ∃ tls, up_tls up = Some tls ∧ t = tls_key tls ∧ server_name_ok (tls_server_name tls) = true
  | Panic => ∃ tls, up_tls up = Some tls ∧ server_name_ok (tls_server_name tls) = false ∧
      ¬ has_client pool (Https (pe_addr p) (tls_key tls))
  end.
Proof.
  unfold prewarm, pool_key. destruct (up_tls up) as [tls|] eqn:E.
  - unfold get_tls. destruct (cp_https pool !! _) as [c|] eqn:Ec; simpl.
    { split_and!; [done|by eexists|by left]. }
    unfold build_tls_client. destruct (server_name_ok (tls_server_name tls)) eqn:En; simpl.
    + split_and!; [by split; [|apply insert_subseteq]|rewrite lookup_insert_eq; by eexists|].
      intros a t [c Hc]. apply lookup_insert_Some in Hc as [[[= <- <-] _]|[_ Hc]]; [right; by exists tls|left; by exists c].
    + exists tls. split_and!; [done|done|]. rewrite Ec. by intros [].
  - unfold get. destruct (cp_http pool !! _) as [c|] eqn:Ec; simpl.
    { split_and!; [done|by eexists|by left]. }
    split_and!; [by split; [apply insert_subseteq|]|rewrite lookup_insert_eq; by eexists|by left].
Qed.

Lemma prewarm_peers_cases up ps pool :
  match prewarm_peers up ps pool with
  | Ret pool' => pool_le pool pool' ∧ (∀ p, p ∈ ps → has_client pool' (pool_key up p)) ∧
      ∀ a t, has_client pool' (Https a t) → has_client pool (Https a t) ∨
        ∃ tls, up_tls up = Some tls ∧ t = tls_key tls ∧ server_name_ok (tls_server_name tls) = true
  | Panic => ∃ tls p, up_tls up = Some tls ∧ server_name_ok (tls_server_name tls) = false ∧ p ∈ ps ∧
      ¬ has_client pool (Https (pe_addr p) (tls_key tls))
  end.
Proof.
  revert pool. induction ps as [|p ps IH]; intros pool; simpl.
  { split_and!; [done| |by left]. by intros ? ?%elem_of_nil. }
  pose proof (prewarm_cases up p pool) as Hp. destruct (prewarm up p pool) as [p1|]; simpl.
  - destruct Hp as (Hle & Hc & Hn). specialize (IH p1). destruct (prewarm_peers up ps p1) as [p2|].
    + destruct IH as (Hle2 & Hc2 & Hn2). split_and!; [by etrans| |].
      * intros q [->|Hq]%elem_of_cons; [by eapply has_client_mono|by apply Hc2].
      * intros a t [Ht|Ht]%Hn2; [by apply Hn|by right].
    + destruct IH as (tls & q & H1 & H2 & H3 & H4). exists tls, q. split_and!; [done|done|by right|].
      intros H. apply H4. by eapply has_client_mono.
  - destruct Hp as (tls & H1 & H2 & H3). exists tls, p. split_and!; [done|done|by left|done].
Qed.

(** A client that is needed, missing, and of a server name that does not parse. *)
Definition unbuildable (ups : list Upstream) (pool : ClientPool) : Prop :=
  ∃ up tls p, up ∈ ups ∧ up_tls up = Some tls ∧ server_name_ok (tls_server_name tls) = false ∧
    p ∈ up_peers up ∧ ¬ has_client pool (Https (pe_addr p) (tls_key tls)).

Lemma prewarm_all_spec ups pool :
  tls_names_ok ups →
  ∃ pool', prewarm_all ups pool = Ret pool' ∧ pool_le pool pool' ∧
    ∀ k, k ∈ live_keys ups → has_client pool' k.
Proof.
  revert pool. induction ups as [|up ups IH]; intros pool Hok; simpl.
  { exists pool. split_and!; [done|done|]. intros k Hk. by apply elem_of_nil in Hk. }
  destruct (prewarm_peers_spec up (up_peers up) pool) as (p1 & -> & Hle1 & Hc1).
  { intros tls Ht. eapply Hok; [by left|done]. }
  simpl. destruct (IH p1) as (p2 & -> & Hle2 & Hc2).
  { intros u tls Hu. apply Hok. by right. }
  exists p2. split_and!; [done|by etrans|].
  intros k [Hk|Hk]%elem_of_app; [|by apply Hc2].
  apply list_elem_of_fmap in Hk as (p & -> & Hp). eapply has_client_mono; [done|]. by apply Hc1.
Qed.

Lemma evict_has_client keep pool k :
  has_client (evict_except keep pool) k ↔ has_client pool k ∧ k ∈ keep.
Proof.
  destruct k as [a|a t]; simpl; unfold is_Some; setoid_rewrite map_lookup_filter_Some; simpl;
    naive_solver.
Qed.
End tls_clients.

(** A reload refreshes the client pool exactly: when every TLS server name
    parses it does not panic, afterwards there is a client for a key exactly
    when the new snapshot dials it (no request pays client construction, no
    client of a removed peer or of changed TLS material lingers), and a client
    that was already pooled under a still-live key is reused, not rebuilt. *)
Theorem refresh_pool_exact (server_name_ok : bytes → bool) (ups : list Upstream)
    (pool : ClientPool) :
  tls_names_ok server_name_ok ups →
  ∃ pool', refresh_pool server_name_ok ups pool = Ret pool' ∧
    (∀ k, has_client pool' k ↔ k ∈ live_keys ups) ∧
    (∀ a c, cp_http pool !! a = Some c → Http a ∈ live_keys ups →
       cp_http pool' !! a = Some c) ∧
    (∀ a t c, cp_https pool !! (a, t) = Some c → Https a t ∈ live_keys ups →
       cp_https pool' !! (a, t) = Some c).
Proof.
  intros Hok. unfold refresh_pool.
  destruct (prewarm_all_spec server_name_ok ups pool Hok) as (p1 & -> & [Hle1 Hle2] & Hc).
  eexists. split_and!; [done| | |].
  - intros k. rewrite evict_has_client. naive_solver.
  - intros a c Ha Hk. apply map_lookup_filter_Some. split; [by eapply lookup_weaken|done].
  - intros a t c Ha Hk. apply map_lookup_filter_Some. split; [by eapply lookup_weaken|done].
Qed.

Definition ex_plain : Upstream := {|
  up_name := bs "u"; up_kind := Swrr; up_retries := 1; up_retry_on_timeout := false;
  up_connect_timeout := 2000; up_pool_idle_timeout := 60000;
  up_peers := [{| pe_addr := loopback 9001; pe_weight := 1 |}];
  up_tls := None; up_health := default_health;
|}.

Lemma refresh_pool_exact_witness :
  ∃ pool', refresh_pool (λ _, false) [ex_plain] new_pool = Ret pool' ∧
    ∀ k, has_client pool' k ↔ k ∈ live_keys [ex_plain].
Proof.
  destruct (refresh_pool_exact (λ _, false) [ex_plain] new_pool) as (pool' & H1 & H2 & _).
  { intros up tls Hup. apply list_elem_of_singleton in Hup. by subst up. }
  by exists pool'.
Defined.

(** Validation only rejects a blank server name, so a name rustls cannot parse
    passes [validate] and panics when the snapshot is applied. *)
Lemma unparsable_server_name_panics (server_name_ok : bytes → bool) (tc : UpstreamTlsConfig) a c i :
  server_name_ok (ut_server_name tc) = false →
  let tls := {| tls_server_name := ut_server_name tc; tls_key := tls_key_from_config tc |} in
  get_tls server_name_ok a tls c i new_pool = Panic.
Proof.
  intros Hn tls. unfold get_tls, build_tls_client. simpl. rewrite lookup_empty. by rewrite Hn.
Qed.
