(* ===== verification/Forward.v ===== *)
(** Request forwarding: failure classes, the retry gate, [X-Forwarded-For]
    merging and the outgoing header policy ([openrusty-proxy/src/forward.rs],
    [loop_guard.rs]).

    The [http] crate's parsers (header names, header values, method and URI) are
    parameters.  Its header map is not modelled: an outgoing request records the
    [append]/[insert] calls made on it, in order. *)

From S2P Require Import Prelude Text Net Context Upstream.
From Stdlib Require Import ZArith Lia.
From stdpp Require Import options.
Local Open Scope Z_scope.

Record ForwardRequest := {
  fr_method : bytes;
  fr_path_and_query : bytes;
  fr_headers : headers;
  fr_body : bytes;
  fr_client_ip : bytes;
}.

(** The constructors' strings are diagnostics. *)
Inductive ForwardError := ErrConnect (m : bytes) | ErrSend (m : bytes) | ErrResponse (m : bytes).

Definition is_retryable (e : ForwardError) : bool :=
  match e with ErrConnect _ | ErrSend _ => true | ErrResponse _ => false end.

Inductive FailureKind := FkConnect | FkSent | FkResponse | FkTimeout.

#[global] Instance failure_kind_eq_dec : EqDecision FailureKind.
Proof. solve_decision. Defined.

Definition failure_kind (e : ForwardError) : FailureKind :=
  match e with
  | ErrConnect _ => FkConnect
  | ErrSend _ => FkSent
  | ErrResponse _ => FkResponse
  end.

Definition is_idempotent (method : bytes) : bool :=
  bool_decide (method ∈ [bs "GET"; bs "HEAD"; bs "OPTIONS"; bs "TRACE"]).

Definition may_retry (method : bytes) (kind : FailureKind) : bool :=
  if is_idempotent method
  then match kind with FkConnect | FkSent | FkTimeout => true | FkResponse => false end
  else match kind with FkConnect => true | _ => false end.

(** [loop_guard::is_loopback]: port-only comparison. *)
Definition is_loopback (original_dst : SocketAddr) (own_ports : list Z) : bool :=
  bool_decide (port original_dst ∈ own_ports).

Definition is_xff (name : bytes) : bool := eq_ignore_ascii_case name (bs "x-forwarded-for").

(** Incoming [X-Forwarded-For] values, in order. *)
Definition xff_values (hs : headers) : list bytes :=
  snd <$> filter (λ h, is_xff h.1 = true) hs.

Definition merge_xff (hs : headers) (client_ip : bytes) : bytes :=
  join (bs ", ") (xff_values hs ++ [client_ip]).

Inductive header_op :=
| Append (name value : bytes)
| Insert (name value : bytes).

Record Outgoing := {
  og_method : bytes;
  og_uri : bytes;
  og_headers : list header_op;
  og_body : bytes;
}.

Section http_crate.
Context (header_name : bytes → option bytes).   (* HeaderName::from_bytes *)
Context (header_value : bytes → option bytes).  (* HeaderValue::from_str *)
Context (request_ok : bytes → bytes → bool).    (* method and URI parse *)

Definition dropped (name : bytes) : bool :=
  is_hop_by_hop name || eq_ignore_ascii_case name (bs "host") || is_xff name.

(** One turn of the copy loop over the caller's headers: [continue], or append. *)
Definition copy_header (h : bytes * bytes) : option header_op :=
  let '(name, value) := h in
  if dropped name then None
  else
    n ← header_name name;
    v ← header_value value;
    Some (Append n v).

Definition copy_headers (hs : headers) : list header_op := omap copy_header hs.

Definition build_outgoing (scheme uri_authority host : bytes) (req : ForwardRequest)
    : result ForwardError Outgoing :=
  let uri := scheme ++ bs "://" ++ uri_authority ++ fr_path_and_query req in
  if negb (request_ok (fr_method req) uri) then Err (ErrSend (bs "invalid method or URI"))
  else
    let ops := copy_headers (fr_headers req) in
    let xff := match header_value (merge_xff (fr_headers req) (fr_client_ip req)) with
               | Some v => [Append (bs "x-forwarded-for") v]
               | None => []
               end in
    host ← ok_or (header_value host) (ErrSend (bs "failed to parse header value"));
    Ok {| og_method := fr_method req; og_uri := uri;
          og_headers := ops ++ xff ++ [Insert (bs "host") host]; og_body := fr_body req |}.

(** The request of each arm of [forward_peer]: the URI authority is the peer
    address, or the TLS server name; [Host] is always the peer address. *)
Definition outgoing_for (up : Upstream) (p : Peer) (req : ForwardRequest)
    : result ForwardError Outgoing :=
  match up_tls up with
  | Some tls => build_outgoing (bs "https") (tls_server_name tls) (addr_to_string (pe_addr p)) req
  | None => build_outgoing (bs "http") (addr_to_string (pe_addr p)) (addr_to_string (pe_addr p)) req
  end.

Lemma copy_headers_spec hs op :
  op ∈ copy_headers hs ↔
    ∃ name value n v, (name, value) ∈ hs ∧ dropped name = false ∧
      header_name name = Some n ∧ header_value value = Some v ∧ op = Append n v.
Proof.
  unfold copy_headers. rewrite list_elem_of_omap. split.
  - intros ([name value] & Hin & H). simpl in H. destruct (dropped name) eqn:Ed; [done|].
    apply bind_Some in H as (n & Hn & H). apply bind_Some in H as (v & Hv & H).
    exists name, value, n, v. by simplify_eq.
  - intros (name & value & n & v & Hin & Hd & Hn & Hv & ->). exists (name, value).
    simpl. by rewrite Hd, Hn, Hv.
Qed.
End http_crate.

(** The values a peer reads back from a merged [X-Forwarded-For]: comma
    separated, blanks trimmed. *)
Definition xff_hops (v : bytes) : list bytes := map trim (split_on x2c v).

(** The client hop is the last element whatever the caller sent. *)
Lemma split_on_last c a b : c ∉ b → last (split_on c (a ++ c :: b)) = Some b.
Proof.
  intros Hb. induction a as [|x a IH]; cbn [app split_on].
  - rewrite bool_decide_eq_true_2 by done. by rewrite (split_on_clean c b Hb).
  - case_bool_decide.
    + rewrite last_cons, IH. done.
    + destruct (split_on c (a ++ c :: b)) as [|p [|q ps]] eqn:E; try done.
      exfalso. pose proof (split_on_join c (a ++ c :: b)) as Hj. rewrite E in Hj. simpl in Hj.
      pose proof (split_on_no_sep c (a ++ c :: b)) as Hf. rewrite E in Hf.
      rewrite Forall_singleton in Hf. apply Hf. rewrite Hj. apply elem_of_app. right. by left.
Qed.

Lemma join_snoc sep l x : l ≠ [] → join sep (l ++ [x]) = join sep l ++ sep ++ x.
Proof.
  induction l as [|a [|b l] IH]; [done| |]; intros _; [done|].
  change (join sep ((a :: b :: l) ++ [x])) with (a ++ sep ++ join sep ((b :: l) ++ [x])).
  rewrite (IH ltac:(done)). change (join sep (a :: b :: l)) with (a ++ sep ++ join sep (b :: l)).
  by rewrite <-!app_assoc.
Qed.

Lemma merge_xff_last hs ip :
  x2c ∉ ip → trim (x20 :: ip) = ip → trim ip = ip →
  last (xff_hops (merge_xff hs ip)) = Some ip.
Proof.
  intros Hc Ht Ht'. unfold xff_hops, merge_xff. rewrite fmap_last.
  destruct (xff_values hs) as [|v vs] eqn:E.
  - simpl. rewrite split_on_clean by done. simpl. by rewrite Ht'.
  - rewrite join_snoc by done. change (bs ", " ++ ip) with (x2c :: x20 :: ip).
    rewrite split_on_last; [simpl; by rewrite Ht|].
    apply not_elem_of_cons. split; [done|done].
Qed.

(** The header policy of every forwarded request.  Whatever the client sent,
    the outgoing request carries its other headers only: each appended header
    comes from a client header that is not hop-by-hop, not [Host] and not
    [X-Forwarded-For]; exactly one [X-Forwarded-For] is added, joining the
    client's values in order with the direct peer's address as the last hop
    (the client cannot forge the last hop); and [Host], set last, is the peer
    address for plain and TLS upstreams alike. *)
Theorem outgoing_header_policy header_name header_value request_ok up p req og vx vh :
  header_value (merge_xff (fr_headers req) (fr_client_ip req)) = Some vx →
  header_value (addr_to_string (pe_addr p)) = Some vh →
  outgoing_for header_name header_value request_ok up p req = Ok og →
  ∃ ops, og_headers og =
      ops ++ [Append (bs "x-forwarded-for") vx; Insert (bs "host") vh] ∧
    (∀ op, op ∈ ops ↔
       ∃ name value n v, (name, value) ∈ fr_headers req ∧
         is_hop_by_hop name = false ∧ eq_ignore_ascii_case name (bs "host") = false ∧
         is_xff name = false ∧
         header_name name = Some n ∧ header_value value = Some v ∧ op = Append n v) ∧
    (x2c ∉ fr_client_ip req → trim (x20 :: fr_client_ip req) = fr_client_ip req →
     trim (fr_client_ip req) = fr_client_ip req →
     last (xff_hops (merge_xff (fr_headers req) (fr_client_ip req))) = Some (fr_client_ip req)).
Proof.
  intros Hx Hh Hout. exists (copy_headers header_name header_value (fr_headers req)). split_and!.
  - unfold outgoing_for, build_outgoing in Hout. rewrite Hx, Hh in Hout.
    destruct (up_tls up); destruct (negb (request_ok _ _)); simpl in Hout; simplify_eq; done.
  - intros op. rewrite copy_headers_spec. unfold dropped.
    split; intros (n1 & v1 & n & v & H); exists n1, v1, n, v;
      rewrite !orb_false_iff in *; tauto.
  - apply merge_xff_last.
Qed.

Lemma outgoing_header_policy_witness :
  ∃ ops, Ok (E := ForwardError) ops =
    outgoing_for Some Some (λ _ _, true)
      {| up_name := bs "u"; up_kind := Config.Swrr; up_retries := 0; up_retry_on_timeout := false;
         up_connect_timeout := 1; up_pool_idle_timeout := 1; up_peers := []; up_tls := None;
         up_health := Config.default_health |}
      {| pe_addr := loopback 80; pe_weight := 1 |}
      {| fr_method := bs "GET"; fr_path_and_query := bs "/";
         fr_headers := [(bs "Host", bs "evil"); (bs "X-Forwarded-For", bs "6.6.6.6");
                        (bs "accept", bs "*")];
         fr_body := []; fr_client_ip := bs "10.0.0.7" |} ∧
    last (xff_hops (merge_xff [(bs "Host", bs "evil"); (bs "X-Forwarded-For", bs "6.6.6.6");
                        (bs "accept", bs "*")] (bs "10.0.0.7"))) = Some (bs "10.0.0.7").
Proof.
  eexists. split; [vm_compute; reflexivity|].
  edestruct (outgoing_header_policy Some Some (λ _ _, true)
      {| up_name := bs "u"; up_kind := Config.Swrr; up_retries := 0; up_retry_on_timeout := false;
         up_connect_timeout := 1; up_pool_idle_timeout := 1; up_peers := []; up_tls := None;
         up_health := Config.default_health |}
      {| pe_addr := loopback 80; pe_weight := 1 |}
      {| fr_method := bs "GET"; fr_path_and_query := bs "/";
         fr_headers := [(bs "Host", bs "evil"); (bs "X-Forwarded-For", bs "6.6.6.6");
                        (bs "accept", bs "*")];
         fr_body := []; fr_client_ip := bs "10.0.0.7" |})
    as (ops & _ & _ & Hl); [reflexivity|reflexivity|reflexivity|].
  apply Hl; [|by vm_compute|by vm_compute].
  apply (bool_decide_unpack (x2c ∉ bs "10.0.0.7")). by vm_compute.
Defined.
