(* ===== verification/HostState.v ===== *)
(** Per-plugin shared state: the quota-bounded KV store with TTLs and the
    snapshot scan cursors ([openrusty-wasm/src/host_state.rs]).

    Every method is one step on explicit state, as a caller that nobody overlaps sees
    it; [HostRace] has the accesses a method makes and their interleavings.  A clock
    reading ([now_ms()]) is an argument, one per reading.  Times are [u64] milliseconds. *)

From S2P Require Import Prelude Text.
From Stdlib Require Import ZArith Lia.
From stdpp Require Import options.
Local Open Scope Z_scope.

Definition U64_MAX : Z := umax 64.

Definition is_expired (expires_at now_ms : Z) : bool :=
  negb (expires_at =? U64_MAX) && (expires_at <=? now_ms).

Record KvEntry := { ke_value : bytes; ke_expires_at : Z }.

Record ScanCursor := {
  sc_entries : list (bytes * bytes);
  sc_pos : nat;
  sc_created_at : Z;
}.

Definition SWEEP_EVERY : Z := 256.
Definition CURSOR_TTL_MS : Z := 60000.
Definition MAX_CURSORS : nat := 64.
Definition KV_MAX_VALUE_BYTES : Z := 64 * 1024.
Definition KV_MAX_TOTAL_BYTES : Z := 1024 * 1024.

Definition blen (b : bytes) : Z := Z.of_nat (length b).

(** Slice lengths are below [2^63], so sums of two do not wrap. *)
Definition kv_set_verdict (key_len val_len total_bytes : Z) : bool :=
  (val_len <=? KV_MAX_VALUE_BYTES) &&
  (sat_add 64 total_bytes (key_len + val_len) <=? KV_MAX_TOTAL_BYTES).

Record HostState := {
  st_name : bytes;
  st_kv : gmap bytes KvEntry;
  st_cursors : gmap Z ScanCursor;
  st_next_cursor : Z;             (* u32 *)
  st_errors : Z;                  (* u64 *)
  st_error_kinds : gmap bytes Z;
  st_stale_ops : Z;               (* u32 *)
  st_total_bytes : Z;             (* usize *)
}.

Definition new (plugin_name : bytes) : HostState := {|
  st_name := plugin_name; st_kv := ∅; st_cursors := ∅; st_next_cursor := 0;
  st_errors := 0; st_error_kinds := ∅; st_stale_ops := 0; st_total_bytes := 0;
|}.

Definition with_kv (kv : gmap bytes KvEntry) (total : Z) (s : HostState) : HostState := {|
  st_name := st_name s; st_kv := kv; st_cursors := st_cursors s;
  st_next_cursor := st_next_cursor s; st_errors := st_errors s;
  st_error_kinds := st_error_kinds s; st_stale_ops := st_stale_ops s; st_total_bytes := total;
|}.
Definition with_cursors (cs : gmap Z ScanCursor) (s : HostState) : HostState := {|
  st_name := st_name s; st_kv := st_kv s; st_cursors := cs;
  st_next_cursor := st_next_cursor s; st_errors := st_errors s;
  st_error_kinds := st_error_kinds s; st_stale_ops := st_stale_ops s;
  st_total_bytes := st_total_bytes s;
|}.
Definition with_next_cursor (n : Z) (s : HostState) : HostState := {|
  st_name := st_name s; st_kv := st_kv s; st_cursors := st_cursors s;
  st_next_cursor := n; st_errors := st_errors s;
  st_error_kinds := st_error_kinds s; st_stale_ops := st_stale_ops s;
  st_total_bytes := st_total_bytes s;
|}.
Definition with_stale_ops (n : Z) (s : HostState) : HostState := {|
  st_name := st_name s; st_kv := st_kv s; st_cursors := st_cursors s;
  st_next_cursor := st_next_cursor s; st_errors := st_errors s;
  st_error_kinds := st_error_kinds s; st_stale_ops := n; st_total_bytes := st_total_bytes s;
|}.
Definition with_errors (n : Z) (kinds : gmap bytes Z) (s : HostState) : HostState := {|
  st_name := st_name s; st_kv := st_kv s; st_cursors := st_cursors s;
  st_next_cursor := st_next_cursor s; st_errors := n; st_error_kinds := kinds;
  st_stale_ops := st_stale_ops s; st_total_bytes := st_total_bytes s;
|}.

(** Bytes an entry counts for. *)
Definition entry_bytes (k : bytes) (e : KvEntry) : Z := blen k + blen (ke_value e).

(** [account]: [fetch_add]/[fetch_sub] of the exact delta. *)
Definition account (added removed total : Z) : Z :=
  if removed <? added then wrap 64 (total + (added - removed))
  else if added <? removed then wrap 64 (total - (removed - added))
  else total.

(** [remove_if] of an expired entry, with its accounting. *)
Definition drop_expired (key : bytes) (now : Z) (s : HostState) : HostState :=
  match st_kv s !! key with
  | Some e =>
      if is_expired (ke_expires_at e) now
      then with_kv (delete key (st_kv s)) (account 0 (entry_bytes key e) (st_total_bytes s)) s
      else s
  | None => s
  end.

Definition kv_get_with {R} (key : bytes) (now : Z) (f : bytes → R) (s : HostState)
    : option R * HostState :=
  match st_kv s !! key with
  | Some e =>
      if negb (is_expired (ke_expires_at e) now) then (Some (f (ke_value e)), s)
      else (None, drop_expired key now s)
  | None => (None, drop_expired key now s)
  end.

Definition kv_get (key : bytes) (now : Z) (s : HostState) : option bytes * HostState :=
  kv_get_with key now id s.

Definition kv_set (key val : bytes) (ttl_ms now : Z) (s : HostState) : bool * HostState :=
  let released := match st_kv s !! key with Some e => entry_bytes key e | None => 0 end in
  let total := st_total_bytes s in
  if negb (kv_set_verdict (blen key) (blen val) (sat_sub total released)) then (false, s)
  else
    let expires_at := if ttl_ms <=? 0 then U64_MAX else sat_add 64 now ttl_ms in
    let added := blen key + blen val in
    let removed := match st_kv s !! key with Some e => entry_bytes key e | None => 0 end in
    (true, with_kv (<[key := {| ke_value := val; ke_expires_at := expires_at |}]> (st_kv s))
             (account added removed total) s).

Definition kv_del (key : bytes) (s : HostState) : bool * HostState :=
  match st_kv s !! key with
  | Some e =>
      (true, with_kv (delete key (st_kv s)) (account 0 (entry_bytes key e) (st_total_bytes s)) s)
  | None => (false, s)
  end.

Definition kv_total_bytes (s : HostState) : Z := st_total_bytes s.

Definition key_leb (a b : bytes * bytes) : bool := bytes_leb a.1 b.1.

Definition kv_scan (prefix : bytes) (now : Z) (s : HostState) : list (bytes * bytes) :=
  sort_by key_leb
    (map (λ '(k, e), (k, ke_value e))
       (filter (λ '(k, e), (starts_with prefix k && negb (is_expired (ke_expires_at e) now)) = true)
          (map_to_list (st_kv s)))).

(** Footprint of a map, the quantity [total_bytes] tracks. *)
Definition footprint (m : gmap bytes KvEntry) : Z :=
  zsum (map (λ '(k, e), entry_bytes k e) (map_to_list m)).

Definition cursor_stale (now : Z) (c : ScanCursor) : bool :=
  (length (sc_entries c) <=? sc_pos c)%nat || (CURSOR_TTL_MS <=? sat_sub now (sc_created_at c)).

Definition sweep (now : Z) (s : HostState) : nat * HostState :=
  let expired := filter (λ kv, is_expired (ke_expires_at kv.2) now = true) (st_kv s) in
  let kept := filter (λ kv, is_expired (ke_expires_at kv.2) now = false) (st_kv s) in
  let cs := filter (λ kv, cursor_stale now kv.2 = false) (st_cursors s) in
  ((size expired + (size (st_cursors s) - size cs))%nat,
   with_cursors cs (with_kv kept (account 0 (footprint expired) (st_total_bytes s)) s)).

(** [t_sweep], [t_scan], [t_created]: the three clock readings. *)
Definition scan_begin (prefix : bytes) (t_sweep t_scan t_created : Z) (s : HostState)
    : Z * HostState :=
  let ops := st_stale_ops s in
  let s := with_stale_ops (wrap 32 (ops + 1)) s in
  let s := if SWEEP_EVERY <=? ops then (sweep t_sweep (with_stale_ops 0 s)).2 else s in
  let entries := kv_scan prefix t_scan s in
  if (MAX_CURSORS <=? size (st_cursors s))%nat then (-1, s)
  else
    let id := st_next_cursor s in
    let s := with_next_cursor (wrap 32 (id + 1)) s in
    if 2 ^ 31 <=? id then (-1, s)
    else (id, with_cursors (<[id := {| sc_entries := entries; sc_pos := 0;
                                       sc_created_at := t_created |}]> (st_cursors s)) s).

Definition cursor_entry (cursor : Z) (s : HostState) : option (bytes * bytes) :=
  c ← st_cursors s !! cursor;
  sc_entries c !! sc_pos c.

Definition scan_peek (cursor : Z) (s : HostState) : option (bytes * bytes) :=
  cursor_entry cursor s.

Definition bump (c : ScanCursor) : ScanCursor :=
  {| sc_entries := sc_entries c; sc_pos := S (sc_pos c); sc_created_at := sc_created_at c |}.

Definition exhausted (c : ScanCursor) : bool := (length (sc_entries c) <=? sc_pos c)%nat.

Definition scan_advance (cursor : Z) (s : HostState) : HostState :=
  match st_cursors s !! cursor with
  | Some c =>
      let c := bump c in
      if exhausted c then with_cursors (delete cursor (st_cursors s)) s
      else with_cursors (<[cursor := c]> (st_cursors s)) s
  | None => s
  end.

Definition scan_is_valid (cursor : Z) (s : HostState) : bool :=
  bool_decide (is_Some (st_cursors s !! cursor)).

Definition scan_next (cursor : Z) (s : HostState) : option (bytes * bytes) * HostState :=
  match cursor_entry cursor s with
  | Some item => (Some item, scan_advance cursor s)
  | None =>
      (None, if scan_is_valid cursor s then with_cursors (delete cursor (st_cursors s)) s else s)
  end.

Definition scan_end (cursor : Z) (s : HostState) : HostState :=
  with_cursors (delete cursor (st_cursors s)) s.

Definition cursors_len (s : HostState) : nat := size (st_cursors s).

Definition record_error (kind : bytes) (s : HostState) : HostState :=
  with_errors (wrap 64 (st_errors s + 1))
    (<[kind := wrap 64 (default 0 (st_error_kinds s !! kind) + 1)]> (st_error_kinds s)) s.

Definition error_count (s : HostState) : Z := st_errors s.

Definition error_kinds (s : HostState) : list (bytes * Z) :=
  sort_by (λ a b, bytes_leb a.1 b.1) (map_to_list (st_error_kinds s)).

Definition kv_len (s : HostState) : nat := size (st_kv s).

(** * Footprint of a map *)

Lemma zsum_perm l1 l2 : l1 ≡ₚ l2 → zsum l1 = zsum l2.
Proof. induction 1; simpl; lia. Qed.

Lemma footprint_empty : footprint ∅ = 0.
Proof. unfold footprint. by rewrite map_to_list_empty. Qed.

Lemma footprint_insert_new m k e :
  m !! k = None → footprint (<[k := e]> m) = entry_bytes k e + footprint m.
Proof.
  intros Hk. unfold footprint.
  rewrite (zsum_perm _ (map (λ '(k, e), entry_bytes k e) ((k, e) :: map_to_list m))); [done|].
  change (map ?f ?l) with (f <$> l). by rewrite map_to_list_insert.
Qed.

Lemma footprint_delete m k e :
  m !! k = Some e → footprint m = entry_bytes k e + footprint (delete k m).
Proof.
  intros Hk. rewrite <-(insert_delete_id m k e Hk) at 1.
  apply footprint_insert_new, lookup_delete_eq.
Qed.

Lemma footprint_insert m k e :
  footprint (<[k := e]> m) =
    footprint m - from_option (entry_bytes k) 0 (m !! k) + entry_bytes k e.
Proof.
  destruct (m !! k) as [e0|] eqn:Hk; simpl.
  - rewrite (footprint_delete _ _ _ Hk), <-(insert_delete_eq m k e),
      footprint_insert_new by apply lookup_delete_eq. lia.
  - rewrite footprint_insert_new by done. lia.
Qed.

Lemma blen_nonneg b : 0 <= blen b.
Proof. unfold blen. lia. Qed.

Lemma entry_bytes_nonneg k e : 0 <= entry_bytes k e.
Proof. unfold entry_bytes. pose proof (blen_nonneg k). pose proof (blen_nonneg (ke_value e)). lia. Qed.

Lemma footprint_nonneg m : 0 <= footprint m.
Proof.
  unfold footprint. apply zsum_nonneg, Forall_forall. intros x Hx.
  apply list_elem_of_In, in_map_iff in Hx as ([k e] & <- & _). apply entry_bytes_nonneg.
Qed.

Lemma footprint_entry_le m k e : m !! k = Some e → entry_bytes k e <= footprint m.
Proof.
  intros Hk. rewrite (footprint_delete m k e Hk). pose proof (footprint_nonneg (delete k m)). lia.
Qed.

Lemma footprint_subseteq m m' : m ⊆ m' → footprint m <= footprint m'.
Proof.
  revert m'. induction m as [|k e m Hk IH] using map_ind; intros m' Hsub.
  { rewrite footprint_empty. apply footprint_nonneg. }
  assert (m' !! k = Some e) as Hk' by (eapply lookup_weaken; [apply lookup_insert_eq|done]).
  rewrite footprint_insert_new by done. pose proof (footprint_delete _ _ _ Hk') as Hd.
  assert (m ⊆ delete k m') as Hm.
  { rewrite <-(delete_insert_id m k e) by done. by apply delete_mono. }
  specialize (IH _ Hm). lia.
Qed.

(** Splitting a map by a test splits its footprint. *)
Lemma footprint_filter (P : KvEntry → bool) m :
  footprint m = footprint (filter (λ kv, P kv.2 = true) m)
              + footprint (filter (λ kv, P kv.2 = false) m).
Proof.
  induction m as [|k e m Hk IH] using map_ind.
  { by rewrite !map_filter_empty, footprint_empty. }
  rewrite footprint_insert_new by done. destruct (P e) eqn:E.
  - rewrite map_filter_insert_True by done.
    rewrite (map_filter_insert_False (λ kv, P kv.2 = false)) by (simpl; congruence).
    rewrite delete_id by done.
    rewrite footprint_insert_new by (apply map_lookup_filter_None; by left). lia.
  - rewrite (map_filter_insert_False (λ kv, P kv.2 = true)) by (simpl; congruence).
    rewrite delete_id by done.
    rewrite map_filter_insert_True by done.
    rewrite footprint_insert_new by (apply map_lookup_filter_None; by left). lia.
Qed.

(** * Invariant *)

Record state_ok (s : HostState) : Prop := {
  ok_total : st_total_bytes s = footprint (st_kv s);
  ok_quota : st_total_bytes s <= KV_MAX_TOTAL_BYTES;
  ok_values : ∀ k e, st_kv s !! k = Some e →
    blen (ke_value e) <= KV_MAX_VALUE_BYTES ∧ in_u 64 (ke_expires_at e);
  ok_cursors : (size (st_cursors s) ≤ MAX_CURSORS)%nat;
  ok_ids : ∀ id, is_Some (st_cursors s !! id) → 0 <= id < 2 ^ 31;
  ok_next : in_u 32 (st_next_cursor s);
}.

(** Everything a plugin or the host does to the state. *)
Inductive host_step (s : HostState) : HostState → Prop :=
| hs_get key now : host_step s (kv_get key now s).2
| hs_set key val ttl now : in_u 64 now → host_step s (kv_set key val ttl now s).2
| hs_del key : host_step s (kv_del key s).2
| hs_scan_begin prefix t1 t2 t3 : host_step s (scan_begin prefix t1 t2 t3 s).2
| hs_scan_advance c : host_step s (scan_advance c s)
| hs_scan_next c : host_step s (scan_next c s).2
| hs_scan_end c : host_step s (scan_end c s)
| hs_sweep now : host_step s (sweep now s).2
| hs_error kind : host_step s (record_error kind s).

Definition reachable (name : bytes) (s : HostState) : Prop := rtc host_step (new name) s.

Lemma new_ok name : state_ok (new name).
Proof.
  constructor; simpl.
  - by rewrite footprint_empty.
  - by unfold KV_MAX_TOTAL_BYTES.
  - intros k e. by rewrite lookup_empty.
  - rewrite map_size_empty. lia.
  - intros id [c Hc]. by rewrite lookup_empty in Hc.
  - unfold in_u. lia.
Qed.

Lemma account_exact added removed total :
  0 <= total - removed + added < 2 ^ 64 → account added removed total = total - removed + added.
Proof.
  intros H. unfold account. repeat case_bool; try (rewrite wrap_small; [lia|unfold in_u; lia]). lia.
Qed.

Lemma kv_set_verdict_true kl vl total :
  kv_set_verdict kl vl total = true ↔
    vl <= KV_MAX_VALUE_BYTES ∧ total + (kl + vl) <= KV_MAX_TOTAL_BYTES.
Proof.
  unfold kv_set_verdict, sat_add, umax, KV_MAX_TOTAL_BYTES. rewrite andb_true_iff, !Z.leb_le. lia.
Qed.

(** Removing a sub-map keeps the invariant of the KV part. *)
Lemma with_kv_delete_ok key e s :
  state_ok s → st_kv s !! key = Some e →
  state_ok (with_kv (delete key (st_kv s)) (account 0 (entry_bytes key e) (st_total_bytes s)) s).
Proof.
  intros [Ht Hq Hv Hc Hi Hn] Hk.
  pose proof (footprint_delete _ _ _ Hk) as Hd. pose proof (footprint_nonneg (delete key (st_kv s))).
  pose proof (entry_bytes_nonneg key e).
  rewrite account_exact by (unfold KV_MAX_TOTAL_BYTES in *; lia).
  constructor; simpl; try done; try lia.
  intros k e' [_ Hl]%lookup_delete_Some. by apply (Hv k).
Qed.

Lemma drop_expired_ok key now s : state_ok s → state_ok (drop_expired key now s).
Proof.
  intros Hs. unfold drop_expired. repeat case_match; try done. by apply with_kv_delete_ok.
Qed.

Lemma kv_set_ok key val ttl now s :
  in_u 64 now → state_ok s → state_ok (kv_set key val ttl now s).2.
Proof.
  intros Hnow [Ht Hq Hv Hc Hi Hn]. unfold kv_set.
  set (rel := match st_kv s !! key with Some e => entry_bytes key e | None => 0 end).
  assert (rel = from_option (entry_bytes key) 0 (st_kv s !! key)) as Hrel
    by (subst rel; by destruct (st_kv s !! key)).
  assert (0 <= rel <= footprint (st_kv s)) as Hr.
  { subst rel. destruct (st_kv s !! key) eqn:E.
    - split; [apply entry_bytes_nonneg|by apply footprint_entry_le].
    - split; [done|apply footprint_nonneg]. }
  destruct (kv_set_verdict _ _ _) eqn:E; simpl; [|by constructor].
  apply kv_set_verdict_true in E as [Hval Htot]. unfold sat_sub in Htot.
  pose proof (blen_nonneg key). pose proof (blen_nonneg val).
  rewrite account_exact by (unfold KV_MAX_TOTAL_BYTES in *; lia).
  constructor; simpl; try done.
  - rewrite footprint_insert, <-Hrel. unfold entry_bytes. simpl. lia.
  - lia.
  - intros k e. rewrite lookup_insert_Some. intros [[<- <-]|[_ Hl]]; [|by apply (Hv k)].
    simpl. split; [done|]. repeat case_match; unfold in_u, U64_MAX, umax, sat_add in *; reflect_bool;
      unfold umax; lia.
Qed.

Lemma cursors_ok cs s :
  state_ok s → (size cs ≤ MAX_CURSORS)%nat →
  (∀ id, is_Some (cs !! id) → 0 <= id < 2 ^ 31) → state_ok (with_cursors cs s).
Proof. intros [] ??. by constructor. Qed.

Lemma cursors_sub_ok cs s : state_ok s → cs ⊆ st_cursors s → state_ok (with_cursors cs s).
Proof.
  intros Hs Hsub. pose proof Hs as [_ _ _ Hc Hi _]. apply cursors_ok; [done| |].
  - pose proof (map_subseteq_size _ _ Hsub). lia.
  - intros id [c Hl]. apply Hi. exists c. by eapply lookup_weaken.
Qed.

Lemma scan_advance_ok c s : state_ok s → state_ok (scan_advance c s).
Proof.
  intros Hs. unfold scan_advance. destruct (st_cursors s !! c) as [cu|] eqn:E; [|done].
  case_match; [apply cursors_sub_ok; [done|apply delete_subseteq]|].
  pose proof Hs as [_ _ _ Hc Hi _]. apply cursors_ok; [done| |].
  - rewrite map_size_insert_Some by (by eexists). done.
  - intros id. rewrite lookup_insert_is_Some. intros [<-|[_ ?]]; apply Hi; [by eexists|done].
Qed.

Lemma sweep_ok now s : state_ok s → state_ok (sweep now s).2.
Proof.
  intros Hs. unfold sweep. simpl.
  apply (cursors_sub_ok _ (with_kv _ _ s)); [|simpl; apply map_filter_subseteq].
  pose proof Hs as [Ht Hq Hv Hc Hi Hn].
  pose proof (footprint_filter (λ e, is_expired (ke_expires_at e) now) (st_kv s)) as Hf.
  simpl in Hf. set (ex := filter (λ kv, _ = true) (st_kv s)) in *.
  set (kp := filter (λ kv, _ = false) (st_kv s)) in *.
  pose proof (footprint_nonneg ex). pose proof (footprint_nonneg kp).
  rewrite account_exact by (unfold KV_MAX_TOTAL_BYTES in *; lia).
  constructor; simpl; try done; try lia.
  intros k e Hk. apply (Hv k). by apply map_lookup_filter_Some in Hk as [? _].
Qed.

Lemma stale_ops_ok n s : state_ok s → state_ok (with_stale_ops n s).
Proof. intros []. by constructor. Qed.

Lemma next_cursor_ok n s : in_u 32 n → state_ok s → state_ok (with_next_cursor n s).
Proof. intros ? []. by constructor. Qed.

#[export] Hint Resolve new_ok drop_expired_ok with_kv_delete_ok kv_set_ok scan_advance_ok
  sweep_ok stale_ops_ok next_cursor_ok : gateway.

Lemma scan_begin_ok prefix t1 t2 t3 s : state_ok s → state_ok (scan_begin prefix t1 t2 t3 s).2.
Proof.
  intros Hs. unfold scan_begin. set (s1 := if SWEEP_EVERY <=? _ then _ else _).
  assert (state_ok s1) as H1 by (subst s1; case_match; eauto with gateway).
  clearbody s1. destruct (Nat.leb_spec MAX_CURSORS (size (st_cursors s1))) as [|Hlt]; [done|].
  pose proof H1 as [_ _ _ Hc Hi Hn].
  assert (state_ok (with_next_cursor (wrap 32 (st_next_cursor s1 + 1)) s1)) as H2
    by (apply next_cursor_ok; [by apply wrap_range|done]).
  destruct (Z.leb_spec (2 ^ 31) (st_next_cursor s1)) as [|Hid]; [done|]. simpl.
  apply cursors_ok; [done| |].
  - simpl. rewrite map_size_insert. case_match; simpl; lia.
  - simpl. intros id. rewrite lookup_insert_is_Some. intros [<-|[_ ?]]; [|by apply Hi].
    unfold in_u in Hn. lia.
Qed.

Lemma host_step_ok s s' : host_step s s' → state_ok s → state_ok s'.
Proof.
  intros [] Hs.
  - unfold kv_get, kv_get_with. repeat case_match; simpl; eauto with gateway.
  - by apply kv_set_ok.
  - unfold kv_del. case_match; simpl; eauto with gateway.
  - by apply scan_begin_ok.
  - by apply scan_advance_ok.
  - unfold scan_next. repeat case_match; simpl; eauto with gateway.
    apply cursors_sub_ok; [done|apply delete_subseteq].
  - unfold scan_end. apply cursors_sub_ok; [done|apply delete_subseteq].
  - by apply sweep_ok.
  - destruct Hs. by constructor.
Qed.

Lemma reachable_ok name s : reachable name s → state_ok s.
Proof.
  unfold reachable. intros H. pose proof (new_ok name) as H0. revert H0.
  induction H as [|s1 s2 s3 H1 _ IH]; [done|]. eauto using host_step_ok.
Qed.

(** The KV quotas hold in every state that calls reach one after the other: the byte
    counter is exactly the sum of key and value sizes over the entries held,
    never exceeds 1 MiB, no value exceeds 64 KiB, and at most 64 scan cursors
    are live, all under ids a guest's [i32] can name ([HostRace] has the calls that
    overlap). *)
Lemma kv_quota_invariant (name : bytes) (s : HostState) :
  reachable name s →
  kv_total_bytes s = footprint (st_kv s) ∧
  0 <= kv_total_bytes s <= KV_MAX_TOTAL_BYTES ∧
  (∀ k e, st_kv s !! k = Some e → blen (ke_value e) <= KV_MAX_VALUE_BYTES) ∧
  (cursors_len s ≤ MAX_CURSORS)%nat ∧
  (∀ id, scan_is_valid id s = true → 0 <= id < 2 ^ 31).
Proof.
  intros [Ht Hq Hv Hc Hi Hn]%reachable_ok. unfold kv_total_bytes. split_and!; try done.
  - rewrite Ht. apply footprint_nonneg.
  - intros k e Hk. by apply (Hv k e).
  - intros id Hid. apply Hi. by apply bool_decide_eq_true in Hid.
Qed.

Lemma kv_quota_invariant_witness :
  kv_total_bytes (kv_set (bs "k") (bs "value") 0 5 (new (bs "p"))).2 = 6.
Proof.
  destruct (kv_quota_invariant (bs "p") (kv_set (bs "k") (bs "value") 0 5 (new (bs "p"))).2)
    as (H & _); [|rewrite H; reflexivity].
  apply rtc_once, hs_set. unfold in_u. lia.
Defined.

(** * The store as a timed map *)

(** The value a key has at time [now]: the abstract view of the store. *)
Definition live (s : HostState) (now : Z) (k : bytes) : option bytes :=
  e ← st_kv s !! k;
  if is_expired (ke_expires_at e) now then None else Some (ke_value e).

(** Two states agree on every key from time [now] on. *)
Definition same_from (now : Z) (s s' : HostState) : Prop :=
  ∀ t k, now <= t → live s' t k = live s t k.

#[export] Instance same_from_equiv now : Equivalence (same_from now).
Proof.
  split.
  - by intros s t k _.
  - intros s s' H t k Ht. by rewrite H.
  - intros a b c H1 H2 t k Ht. by rewrite H2, H1.
Qed.

Lemma is_expired_mono e now t : now <= t → is_expired e now = true → is_expired e t = true.
Proof. unfold is_expired. intros Ht H. reflect_bool. apply andb_true_iff. split; [by apply negb_true_iff, Z.eqb_neq|apply Z.leb_le; lia]. Qed.

Lemma drop_expired_same key now s : same_from now s (drop_expired key now s).
Proof.
  intros t k Ht. unfold drop_expired. destruct (st_kv s !! key) as [e|] eqn:E; [|done].
  destruct (is_expired (ke_expires_at e) now) eqn:Ex; [|done].
  unfold live. simpl. destruct (decide (k = key)) as [->|Hne].
  - rewrite lookup_delete_eq, E. simpl. by rewrite (is_expired_mono _ now).
  - by rewrite lookup_delete_ne.
Qed.

Lemma sweep_same now s : same_from now s (sweep now s).2.
Proof.
  intros t k Ht. unfold live, sweep. simpl.
  destruct (st_kv s !! k) as [e|] eqn:E; simpl.
  - destruct (is_expired (ke_expires_at e) now) eqn:Ex.
    + rewrite (is_expired_mono _ now) by done.
      rewrite map_lookup_filter, E. simpl. rewrite option_guard_False by congruence. done.
    + rewrite map_lookup_filter, E. simpl. by rewrite option_guard_True.
  - by rewrite map_lookup_filter, E.
Qed.

(** C10. The store refines a map from keys to values with deadlines.  A read
    returns exactly the value live now and changes no key's future; a set that
    is admitted makes its value readable until [now + ttl] (for ever when
    [ttl <= 0]) and touches no other key; a set is refused exactly when the
    value exceeds 64 KiB or the footprint after replacement would exceed
    1 MiB, and then nothing changes; a delete removes exactly its key; a sweep
    is invisible. *)
Theorem kv_refines_timed_map (name : bytes) (s : HostState) (key val : bytes) (ttl now : Z) :
  reachable name s →
  (let '(r, s') := kv_get key now s in r = live s now key ∧ same_from now s s') ∧
  (let '(ok, s') := kv_set key val ttl now s in
   (ok = true ↔ blen val <= KV_MAX_VALUE_BYTES ∧
      footprint (delete key (st_kv s)) + blen key + blen val <= KV_MAX_TOTAL_BYTES) ∧
   (ok = false → s' = s) ∧
   (ok = true → ∀ t k, now <= t < U64_MAX →
      live s' t k = if decide (k = key) then
                      if decide (ttl <= 0 ∨ t < now + ttl) then Some val else None
                    else live s t k)) ∧
  (let '(ok, s') := kv_del key s in
   (ok = true ↔ is_Some (st_kv s !! key)) ∧
   ∀ t k, live s' t k = if decide (k = key) then None else live s t k) ∧
  same_from now s (sweep now s).2.
Proof.
  intros [Ht Hq Hv Hc Hi Hn]%reachable_ok. split_and!.
  - unfold kv_get, kv_get_with. unfold live at 1. pose proof (drop_expired_same key now s).
    destruct (st_kv s !! key) as [e|]; simpl; [|done]. by destruct (is_expired _ now).
  - destruct (kv_set key val ttl now s) as [ok s'] eqn:E. unfold kv_set in E.
    set (rel := match st_kv s !! key with Some e => entry_bytes key e | None => 0 end) in E.
    assert (sat_sub (st_total_bytes s) rel = footprint (delete key (st_kv s))) as Hrel.
    { unfold sat_sub, rel. rewrite Ht. pose proof (footprint_nonneg (delete key (st_kv s))).
      destruct (st_kv s !! key) as [e|] eqn:Ek.
      - rewrite (footprint_delete _ _ _ Ek). lia.
      - rewrite delete_id by done. pose proof (footprint_nonneg (st_kv s)). lia. }
    rewrite Hrel in E. pose proof (kv_set_verdict_true (blen key) (blen val)
      (footprint (delete key (st_kv s)))) as Hverd.
    destruct (kv_set_verdict _ _ _); simplify_eq/=.
    + split_and!; [|done|].
      { rewrite <-(Z.add_assoc (footprint _)). tauto. }
      intros _ t k Hk. unfold live. simpl. case_decide as Hd.
      * subst k. rewrite lookup_insert_eq. simpl.
        unfold is_expired, sat_add, U64_MAX, umax in *.
        repeat case_bool; case_decide; simpl; try done; lia.
      * by rewrite lookup_insert_ne.
    + split_and!; [|done|done]. split; [done|]. intros Hx. apply Hverd. lia.
  - unfold kv_del. destruct (st_kv s !! key) as [e|] eqn:Ek; simpl.
    + split; [by split; [eexists|]|]. intros t k. unfold live. simpl. case_decide as Hd.
      * subst. by rewrite lookup_delete_eq.
      * by rewrite lookup_delete_ne.
    + split; [split; [done|by intros []]|]. intros t k. case_decide; [|done].
      subst. unfold live. by rewrite Ek.
  - apply sweep_same.
Qed.

Lemma kv_refines_timed_map_witness :
  live (kv_set (bs "k") (bs "v") 50 50 (new (bs "p"))).2 99 (bs "k") = Some (bs "v").
Proof.
  destruct (kv_refines_timed_map (bs "p") (new (bs "p")) (bs "k") (bs "v") 50 50 (rtc_refl _ _))
    as (_ & Hset & _).
  destruct (kv_set (bs "k") (bs "v") 50 50 (new (bs "p"))) as [ok s'].
  destruct Hset as (Hok & _ & Hlive). simpl.
  rewrite Hlive; [reflexivity| |by vm_compute]. apply Hok. by vm_compute.
Defined.

(** * Scans *)

Definition key_lt (a b : bytes * bytes) : Prop := key_leb a b = true ∧ a.1 ≠ b.1.

Lemma key_leb_total a b : key_leb a b = true ∨ key_leb b a = true.
Proof. apply bytes_leb_total. Qed.

Lemma scan_pairs_nodup prefix now s :
  NoDup (map (λ '(k, e), (k, ke_value e))
    (filter (λ '(k, e), (starts_with prefix k && negb (is_expired (ke_expires_at e) now)) = true)
      (map_to_list (st_kv s)))).*1.
Proof.
  pose proof (NoDup_fst_map_to_list (st_kv s)) as Hnd. revert Hnd.
  generalize (map_to_list (st_kv s)) as l. induction l as [|[k e] l IH]; intros Hnd; [constructor|].
  rewrite fmap_cons in Hnd. apply NoDup_cons in Hnd as [Hk Hnd]. rewrite filter_cons.
  case_decide; [|by apply IH]. simpl. constructor; [|by apply IH].
  intros Hin. apply Hk. apply list_elem_of_fmap in Hin as ([k' v] & -> & Hin).
  apply list_elem_of_In, in_map_iff in Hin as ([k2 e2] & [= -> <-] & Hin).
  apply list_elem_of_In, list_elem_of_filter in Hin as [_ Hin].
  apply list_elem_of_fmap. by exists (k', e2).
Qed.

Lemma strictly_sorted l :
  Sorted (λ a b, key_leb a b = true) l → NoDup l.*1 → StronglySorted key_lt l.
Proof.
  intros Hs%Sorted_StronglySorted; [|intros a b c; apply bytes_leb_trans].
  induction Hs as [|a l Hs IH Hall]; intros Hnd; [constructor|].
  rewrite fmap_cons in Hnd. apply NoDup_cons in Hnd as [Ha Hnd]. constructor; [by apply IH|].
  apply Forall_forall. intros b Hb. split.
  - by apply (proj1 (Forall_forall _ _) Hall).
  - intros He. apply Ha. rewrite He. apply list_elem_of_fmap. by exists b.
Qed.

(** A scan returns exactly the live entries under the prefix, in strictly
    increasing key order. *)
Lemma kv_scan_spec prefix now s :
  StronglySorted key_lt (kv_scan prefix now s) ∧
  ∀ k v, (k, v) ∈ kv_scan prefix now s ↔ prefix `prefix_of` k ∧ live s now k = Some v.
Proof.
  unfold kv_scan. split.
  - apply strictly_sorted; [apply sort_by_sorted, key_leb_total|].
    rewrite sort_by_perm. apply scan_pairs_nodup.
  - intros k v. rewrite sort_by_perm, list_elem_of_In, in_map_iff. unfold live. split.
    + intros ([k' e] & [= -> <-] & Hin%list_elem_of_In).
      apply list_elem_of_filter in Hin as [Hf Hin%elem_of_map_to_list].
      reflect_bool. rewrite Hin. simpl. split; [by apply starts_with_iff|]. by case_match.
    + intros [Hp H]. apply bind_Some in H as (e & He & H). exists (k, e).
      destruct (is_expired _ now) eqn:Ex; simplify_eq. split; [done|].
      apply list_elem_of_In, list_elem_of_filter. rewrite elem_of_map_to_list. split; [|done].
      rewrite (proj2 (starts_with_iff prefix k)) by done. by rewrite Ex.
Qed.

(** Mutations a plugin may make while it iterates. *)
Inductive kv_write :=
| WSet (key val : bytes) (ttl now : Z)
| WDel (key : bytes)
| WGet (key : bytes) (now : Z).

Definition apply_write (s : HostState) (w : kv_write) : HostState :=
  match w with
  | WSet k v ttl now => (kv_set k v ttl now s).2
  | WDel k => (kv_del k s).2
  | WGet k now => (kv_get k now s).2
  end.

(** Iterate a cursor, with arbitrary writes before each [scan_next]. *)
Fixpoint iterate (cursor : Z) (ws : list (list kv_write)) (s : HostState)
    : list (option (bytes * bytes)) * HostState :=
  match ws with
  | [] => ([], s)
  | w :: ws =>
      let '(item, s) := scan_next cursor (foldl apply_write s w) in
      let '(items, s) := iterate cursor ws s in
      (item :: items, s)
  end.

Lemma apply_write_cursors s w : st_cursors (apply_write s w) = st_cursors s.
Proof.
  destruct w; simpl; unfold kv_set, kv_del, kv_get, kv_get_with, drop_expired;
    repeat case_match; simpl; congruence.
Qed.

Lemma writes_cursors w s : st_cursors (foldl apply_write s w) = st_cursors s.
Proof.
  revert s. induction w as [|x w IH]; intros s; simpl; [done|].
  by rewrite IH, apply_write_cursors.
Qed.

Lemma scan_next_cursors c s1 s2 :
  st_cursors s1 = st_cursors s2 →
  (scan_next c s1).1 = (scan_next c s2).1 ∧
  st_cursors (scan_next c s1).2 = st_cursors (scan_next c s2).2.
Proof.
  intros He. unfold scan_next, cursor_entry, scan_is_valid, scan_advance. rewrite He.
  by repeat case_match.
Qed.

Lemma iterate_spec c cu rest ws s :
  st_cursors s !! c = Some cu → drop (sc_pos cu) (sc_entries cu) = rest →
  length ws = S (length rest) →
  (iterate c ws s).1 = map Some rest ++ [None] ∧ st_cursors (iterate c ws s).2 !! c = None.
Proof.
  revert cu rest s. induction ws as [|w ws IH]; intros cu rest s Hc Hd Hl; [done|].
  cbn [iterate].
  destruct (scan_next_cursors c (foldl apply_write s w) s (writes_cursors w s)) as [H1 H2].
  destruct (scan_next c (foldl apply_write s w)) as [item s1]. simpl in H1, H2. subst item.
  revert H2. unfold scan_next, cursor_entry. rewrite Hc. simpl.
  destruct rest as [|x rest].
  - assert (sc_entries cu !! sc_pos cu = None) as ->.
    { apply lookup_ge_None_2. pose proof (length_drop (sc_entries cu) (sc_pos cu)) as Hx.
      rewrite Hd in Hx. simpl in Hx. lia. }
    unfold scan_is_valid. rewrite Hc, bool_decide_eq_true_2 by (by eexists). simpl. intros H2.
    destruct ws; [|done]. simpl. split; [done|]. by rewrite H2, lookup_delete_eq.
  - assert (sc_entries cu !! sc_pos cu = Some x) as Hx.
    { rewrite <-(Nat.add_0_r (sc_pos cu)), <-lookup_drop, Hd. done. }
    assert (drop (S (sc_pos cu)) (sc_entries cu) = rest) as Hd'.
    { by rewrite <-Nat.add_1_r, <-drop_drop, Hd. }
    rewrite Hx. simpl. unfold scan_advance. rewrite Hc. intros H2. simpl length in Hl.
    destruct (exhausted (bump cu)) eqn:Ex.
    + unfold exhausted in Ex. simpl in Ex. apply Nat.leb_le in Ex.
      rewrite drop_ge in Hd' by lia. subst rest. simpl in H2.
      destruct ws as [|w2 [|w3 ws]]; try done. cbn [iterate].
      destruct (scan_next_cursors c (foldl apply_write s1 w2) s1 (writes_cursors w2 s1)) as [G1 G2].
      destruct (scan_next c (foldl apply_write s1 w2)) as [item s2]. simpl in G1, G2. subst item.
      revert G2. unfold scan_next, cursor_entry, scan_is_valid.
      rewrite H2, lookup_delete_eq. simpl. intros G2. split; [done|].
      by rewrite G2, H2, lookup_delete_eq.
    + simpl in H2. destruct (IH (bump cu) rest s1) as [I1 I2]; [|done|lia|].
      { by rewrite H2, lookup_insert_eq. }
      destruct (iterate c ws s1) as [items s2]. simpl in *. by subst.
Qed.

(** Scans are snapshots.  A successful [scan_begin] yields a cursor that
    delivers exactly the entries live under the prefix at that moment, in
    strictly increasing key order, each once, whatever the plugin writes,
    deletes or expires in between; then it reports the end and the cursor is
    gone. *)
Theorem scan_snapshot_isolation (name prefix : bytes) (t1 t2 t3 id : Z) (s s' : HostState)
    (ws : list (list kv_write)) :
  reachable name s → scan_begin prefix t1 t2 t3 s = (id, s') → 0 <= id →
  t1 <= t2 →
  ∃ items,
    StronglySorted key_lt items ∧
    (∀ k v, (k, v) ∈ items ↔ prefix `prefix_of` k ∧ live s t2 k = Some v) ∧
    (length ws = S (length items) →
      (iterate id ws s').1 = map Some items ++ [None] ∧
      scan_is_valid id (iterate id ws s').2 = false).
Proof.
  intros Hr Hb Hid Ht. unfold scan_begin in Hb.
  set (s1 := if SWEEP_EVERY <=? _ then _ else _) in Hb.
  assert (∀ k, live s1 t2 k = live s t2 k) as Hlive.
  { intros k. subst s1. destruct (SWEEP_EVERY <=? st_stale_ops s); [|done].
    rewrite (sweep_same t1 (with_stale_ops 0 (with_stale_ops (wrap 32 (st_stale_ops s + 1)) s)) t2 k) by lia.
    done. }
  clearbody s1. exists (kv_scan prefix t2 s1).
  destruct (kv_scan_spec prefix t2 s1) as [Hs Hm]. split_and!; [done| |].
  - intros k v. by rewrite Hm, Hlive.
  - intros Hl. repeat case_match; simplify_eq; try lia.
    set (cu := {| sc_entries := kv_scan prefix t2 s1; sc_pos := 0; sc_created_at := t3 |}).
    match goal with |- context [iterate _ ws ?st] =>
      destruct (iterate_spec (st_next_cursor s1) cu (kv_scan prefix t2 s1) ws st) as [H1 H2];
        [simpl; apply lookup_insert_eq|done|done|] end.
    split; [exact H1|]. unfold scan_is_valid. rewrite H2.
    apply bool_decide_eq_false_2. by intros [].
Qed.

Lemma scan_snapshot_isolation_witness :
  let s := (kv_set (bs "a") (bs "1") 0 5 (new (bs "p"))).2 in
  let s' := (scan_begin [] 6 6 6 s).2 in
  ∃ items, (∀ k v, (k, v) ∈ items ↔ [] `prefix_of` k ∧ live s 6 k = Some v) ∧
    (2%nat = S (length items) →
     (iterate 0 [[WDel (bs "a")]; []] s').1 = map Some items ++ [None]).
Proof.
  intros s s'.
  destruct (scan_snapshot_isolation (bs "p") [] 6 6 6 0 s s' [[WDel (bs "a")]; []])
    as (items & _ & Hm & Hi); [|reflexivity|done|done|].
  { apply rtc_once, hs_set. unfold in_u. lia. }
  exists items. split; [exact Hm|]. intros Hl. by apply Hi.
Defined.
