(* ===== verification/HostRace.v ===== *)
(** The per-plugin state under concurrent requests ([openrusty-wasm/src/host_state.rs]):
    the small steps every method takes on the shared map, counters and cursors, as
    threads that interleave at any of them.

    [HostState] has each method as one step; [alone_set], [alone_del], [alone_get]
    and [alone_sweep] show that a call nobody interrupts is that step. *)

From S2P Require Import Prelude Text HostState.
From Stdlib Require Import ZArith Lia.
From stdpp Require Import options.
Local Open Scope Z_scope.

(** A method as a request calls it; the clock is read on the way. *)
Inductive Call :=
| CGet (key : bytes)
| CSet (key val : bytes) (ttl_ms : Z)
| CDel (key : bytes)
| CScanBegin (prefix : bytes)
| CScanAdvance (cursor : Z)
| CScanNext (cursor : Z)
| CScanEnd (cursor : Z)
| CSweep
| CError (kind : bytes).

(** Where a thread stands between two accesses to the shared state. *)
Inductive Pc :=
| Idle
| GetMissed (key : bytes) (now : Z)                       (* before [remove_if] *)
| SetCredited (key val : bytes) (ttl_ms released : Z)     (* before the load of the total *)
| SetAdmitted (key val : bytes) (ttl_ms : Z)              (* before the insert *)
| Accounting (added removed : Z)                          (* the map changed, the total did not yet *)
| Sweeping (next : option bytes) (now : Z) (shard : nat) (expired_bytes : Z)
| SweepCounted (next : option bytes) (now : Z)            (* before the cursors *)
| ScanReset (prefix : bytes)                              (* before [stale_ops.store(0)] *)
| Scanning (prefix : bytes) (now : Z) (shard : nat) (found : list (bytes * bytes))
| ScanReady (entries : list (bytes * bytes))              (* before the cursor lock *)
| ErrorCounted (kind : bytes).                            (* before the kinds lock *)

(** Accesses of a thread: a new call, or the next access of the one it is in, at the
    clock reading it may take there. *)
Inductive Event := Begin (c : Call) (now : Z) | Go (now : Z).

Section machine.
(** The sharding of the map: its hash and the number of shards. *)
Context (shard_of : bytes → nat) (shards : nat).

(** [retain] on one shard. *)
Definition sweep_shard (now : Z) (i : nat) (m : gmap bytes KvEntry) : gmap bytes KvEntry :=
  filter (λ kv, (Nat.eqb (shard_of kv.1) i && is_expired (ke_expires_at kv.2) now) = false) m.

Definition swept_bytes (now : Z) (i : nat) (m : gmap bytes KvEntry) : Z :=
  footprint (filter (λ kv, (Nat.eqb (shard_of kv.1) i && is_expired (ke_expires_at kv.2) now) = true) m).

(** What the scan's iterator yields of one shard. *)
Definition scan_shard (prefix : bytes) (now : Z) (i : nat) (m : gmap bytes KvEntry) : list (bytes * bytes) :=
  map (λ '(k, e), (k, ke_value e))
    (filter (λ '(k, e), (Nat.eqb (shard_of k) i && (starts_with prefix k && negb (is_expired (ke_expires_at e) now))) = true)
       (map_to_list m)).

(** The last part of [scan_begin], under the cursor lock. *)
Definition open_cursor (entries : list (bytes * bytes)) (now : Z) (s : HostState) : HostState :=
  if (MAX_CURSORS <=? size (st_cursors s))%nat then s
  else
    let id := st_next_cursor s in
    let s := with_next_cursor (wrap 32 (id + 1)) s in
    if 2 ^ 31 <=? id then s
    else with_cursors (<[id := {| sc_entries := entries; sc_pos := 0; sc_created_at := now |}]> (st_cursors s)) s.

(** The first access of a call. *)
Definition begin (c : Call) (now : Z) (s : HostState) : HostState * Pc :=
  match c with
  | CGet key =>
      match st_kv s !! key with
      | Some e => if negb (is_expired (ke_expires_at e) now) then (s, Idle) else (s, GetMissed key now)
      | None => (s, GetMissed key now)
      end
  | CSet key val ttl =>
      (s, SetCredited key val ttl (match st_kv s !! key with Some e => entry_bytes key e | None => 0 end))
  | CDel key =>
      match st_kv s !! key with
      | Some e => (with_kv (delete key (st_kv s)) (st_total_bytes s) s, Accounting 0 (entry_bytes key e))
      | None => (s, Idle)
      end
  | CScanBegin prefix =>
      let ops := st_stale_ops s in
      (with_stale_ops (wrap 32 (ops + 1)) s,
       if SWEEP_EVERY <=? ops then ScanReset prefix else Scanning prefix now 0 [])
  | CScanAdvance cursor => (scan_advance cursor s, Idle)
  | CScanNext cursor => ((scan_next cursor s).2, Idle)
  | CScanEnd cursor => (scan_end cursor s, Idle)
  | CSweep => (s, Sweeping None now 0 0)
  | CError kind => (with_errors (wrap 64 (st_errors s + 1)) (st_error_kinds s) s, ErrorCounted kind)
  end.

(** The next access. *)
Definition go (now : Z) (s : HostState) (p : Pc) : HostState * Pc :=
  match p with
  | Idle => (s, Idle)
  | GetMissed key t =>
      match st_kv s !! key with
      | Some e =>
          if is_expired (ke_expires_at e) t
          then (with_kv (delete key (st_kv s)) (st_total_bytes s) s, Accounting 0 (entry_bytes key e))
          else (s, Idle)
      | None => (s, Idle)
      end
  | SetCredited key val ttl released =>
      if negb (kv_set_verdict (blen key) (blen val) (sat_sub (st_total_bytes s) released)) then (s, Idle)
      else (s, SetAdmitted key val ttl)
  | SetAdmitted key val ttl =>
      let expires_at := if ttl <=? 0 then U64_MAX else sat_add 64 now ttl in
      (with_kv (<[key := {| ke_value := val; ke_expires_at := expires_at |}]> (st_kv s)) (st_total_bytes s) s,
       Accounting (blen key + blen val)
         (match st_kv s !! key with Some e => entry_bytes key e | None => 0 end))
  | Accounting added removed =>
      (with_kv (st_kv s) (account added removed (st_total_bytes s)) s, Idle)
  | Sweeping next t i expired =>
      if (i <? shards)%nat
      then (with_kv (sweep_shard t i (st_kv s)) (st_total_bytes s) s,
            Sweeping next t (S i) (expired + swept_bytes t i (st_kv s)))
      else (with_kv (st_kv s) (account 0 expired (st_total_bytes s)) s, SweepCounted next t)
  | SweepCounted next t =>
      (with_cursors (filter (λ kv, cursor_stale t kv.2 = false) (st_cursors s)) s,
       match next with Some prefix => Scanning prefix now 0 [] | None => Idle end)
  | ScanReset prefix => (with_stale_ops 0 s, Sweeping (Some prefix) now 0 0)
  | Scanning prefix t i found =>
      if (i <? shards)%nat then (s, Scanning prefix t (S i) (found ++ scan_shard prefix t i (st_kv s)))
      else (s, ScanReady (sort_by key_leb found))
  | ScanReady entries => (open_cursor entries now s, Idle)
  | ErrorCounted kind =>
      (with_errors (st_errors s) (<[kind := wrap 64 (default 0 (st_error_kinds s !! kind) + 1)]> (st_error_kinds s)) s, Idle)
  end.

(** One event of one thread; a thread only begins a call when it is in none. *)
Definition advance (e : Event) (s : HostState) (p : Pc) : HostState * Pc :=
  match e, p with
  | Begin c now, Idle => begin c now s
  | Begin _ _, _ => (s, p)
  | Go now, _ => go now s p
  end.

(** The shared state and its threads. *)
Definition Machine : Type := HostState * list Pc.

Definition step (m : Machine) (ev : nat * Event) : Machine :=
  match m.2 !! ev.1 with
  | Some p => let '(s, p) := advance ev.2 m.1 p in (s, <[ev.1 := p]> m.2)
  | None => m
  end.

Definition run (schedule : list (nat * Event)) (m : Machine) : Machine := foldl step m schedule.

Definition start (name : bytes) (n : nat) : Machine := (new name, replicate n Idle).

(** ** A call nobody interrupts *)

Definition alone (c : Call) (t0 : Z) (ts : list Z) (s : HostState) : HostState * Pc :=
  foldl (λ st t, go t st.1 st.2) (begin c t0 s) ts.

Lemma alone_idle ts s : foldl (λ st t, go t st.1 st.2) (s, Idle) ts = (s, Idle).
Proof using Type. induction ts as [|t ts IH]; [done|exact IH]. Qed.

Lemma with_kv_twice kv t kv' t' s : with_kv kv t (with_kv kv' t' s) = with_kv kv t s.
Proof using Type. done. Qed.

Lemma alone_set key val ttl t0 t1 now t3 s :
  alone (CSet key val ttl) t0 [t1; now; t3] s = ((kv_set key val ttl now s).2, Idle).
Proof using Type.
  unfold alone, kv_set. cbn [foldl begin fst snd go].
  by destruct (negb (kv_set_verdict _ _ _)).
Qed.

Lemma alone_del key t0 t1 s : alone (CDel key) t0 [t1] s = ((kv_del key s).2, Idle).
Proof using Type. unfold alone, kv_del. cbn [foldl begin]. by destruct (st_kv s !! key). Qed.

Lemma alone_get key now t1 t2 s : alone (CGet key) now [t1; t2] s = ((kv_get key now s).2, Idle).
Proof using Type.
  unfold alone, kv_get, kv_get_with, drop_expired. cbn [foldl begin].
  destruct (st_kv s !! key) as [e|] eqn:E; [|cbn; by rewrite E].
  destruct (negb (is_expired (ke_expires_at e) now)) eqn:Ex; [done|]. cbn. rewrite E.
  apply negb_false_iff in Ex. by rewrite Ex.
Qed.

(** Splitting a map by any test splits its footprint. *)
Lemma footprint_split (P : bytes * KvEntry → bool) m :
  footprint m = footprint (filter (λ kv, P kv = true) m) + footprint (filter (λ kv, P kv = false) m).
Proof using Type.
  induction m as [|k e m Hk IH] using map_ind; [by rewrite !map_filter_empty, footprint_empty|].
  rewrite footprint_insert_new by done. destruct (P (k, e)) eqn:E.
  - rewrite map_filter_insert_True by done.
    rewrite (map_filter_insert_False (λ kv, P kv = false)) by congruence. rewrite delete_id by done.
    rewrite footprint_insert_new by (apply map_lookup_filter_None; by left). lia.
  - rewrite (map_filter_insert_False (λ kv, P kv = true)) by congruence. rewrite delete_id by done.
    rewrite map_filter_insert_True by done.
    rewrite footprint_insert_new by (apply map_lookup_filter_None; by left). lia.
Qed.

Lemma swept_split now i m : footprint m = swept_bytes now i m + footprint (sweep_shard now i m).
Proof using Type.
  exact (footprint_split (λ kv, Nat.eqb (shard_of kv.1) i && is_expired (ke_expires_at kv.2) now) m).
Qed.

(** The shards from [i] on, one after the other. *)
Lemma sweep_shards t k ts s i b :
  length ts = k → (i + k = shards)%nat →
  foldl (λ st t, go t st.1 st.2) (s, Sweeping None t i b) ts =
    (let m := filter (λ kv, ((i <=? shard_of kv.1)%nat && (shard_of kv.1 <? shards)%nat &&
                               is_expired (ke_expires_at kv.2) t) = false) (st_kv s) in
     with_kv m (st_total_bytes s) s, Sweeping None t shards
       (b + (footprint (st_kv s) - footprint (filter (λ kv, ((i <=? shard_of kv.1)%nat && (shard_of kv.1 <? shards)%nat &&
                               is_expired (ke_expires_at kv.2) t) = false) (st_kv s))))).
Proof using Type.
  revert ts s i b. induction k as [|k IH]; intros [|now ts] s i b; try done; intros Hl Hi.
  - assert (i = shards) as -> by lia. cbn [foldl].
    rewrite map_filter_id.
    + rewrite Z.sub_diag, Z.add_0_r. by destruct s.
    + intros k e _. simpl. destruct (Nat.leb_spec shards (shard_of k)), (Nat.ltb_spec (shard_of k) shards); simpl; try done; lia.
  - cbn [foldl fst snd go]. rewrite (proj2 (Nat.ltb_lt i shards)) by lia.
    rewrite IH by (simpl in Hl; lia). cbn [st_kv st_total_bytes with_kv].
    assert (filter (λ kv, ((S i <=? shard_of kv.1)%nat && (shard_of kv.1 <? shards)%nat &&
        is_expired (ke_expires_at kv.2) t) = false) (sweep_shard t i (st_kv s)) =
      filter (λ kv, ((i <=? shard_of kv.1)%nat && (shard_of kv.1 <? shards)%nat &&
        is_expired (ke_expires_at kv.2) t) = false) (st_kv s)) as ->.
    { unfold sweep_shard. rewrite map_filter_filter. apply map_filter_ext. intros k' e _. cbn [fst snd].
      destruct (is_expired (ke_expires_at e) t); [|rewrite !andb_false_r; naive_solver].
      rewrite !andb_true_r. destruct (Nat.eqb_spec (shard_of k') i), (Nat.leb_spec (S i) (shard_of k')),
        (Nat.leb_spec i (shard_of k')), (Nat.ltb_spec (shard_of k') shards); simpl; intuition (try lia; try discriminate). }
    rewrite (swept_split t i (st_kv s)). do 2 f_equal. lia.
Qed.

(** A sweep alone is the atomic one when the hash stays in range. *)
Lemma alone_sweep now ts t1 t2 s :
  (∀ k, (shard_of k < shards)%nat) → length ts = shards →
  alone CSweep now (ts ++ [t1; t2]) s = ((sweep now s).2, Idle).
Proof using Type.
  intros Hs Hl. unfold alone, begin. rewrite foldl_app.
  rewrite (sweep_shards now shards ts s 0 0 Hl) by lia. cbn [foldl fst snd go].
  rewrite Nat.ltb_irrefl. cbn [fst snd go st_kv st_total_bytes with_kv st_cursors].
  unfold sweep. f_equal.
  assert (filter (λ kv, ((0 <=? shard_of kv.1)%nat && (shard_of kv.1 <? shards)%nat &&
      is_expired (ke_expires_at kv.2) now) = false) (st_kv s) =
    filter (λ kv, is_expired (ke_expires_at kv.2) now = false) (st_kv s)) as ->.
  { apply map_filter_ext. intros k e _. simpl. by rewrite (proj2 (Nat.ltb_lt _ _) (Hs k)). }
  pose proof (footprint_filter (λ e, is_expired (ke_expires_at e) now) (st_kv s)) as Hf. simpl in Hf.
  cbn [snd]. unfold with_cursors, with_kv. simpl. f_equal. f_equal. lia.
Qed.

(** ** Accounting in flight *)

(** What a thread changed in the map and not yet in the counter. *)
Definition pend (p : Pc) : Z :=
  match p with
  | Accounting added removed => added - removed
  | Sweeping _ _ _ expired => - expired
  | _ => 0
  end.

(** What it was admitted to add and did not add yet. *)
Definition resv (p : Pc) : Z := match p with SetAdmitted key val _ => blen key + blen val | _ => 0 end.

(** The most [n] threads can store together. *)
Definition cap (n : nat) : Z := (Z.of_nat n + 1) * KV_MAX_TOTAL_BYTES.

(** So few threads and shards that no counter of bytes in flight nears [2^63]. *)
Definition roomy (n : nat) : Prop := (Z.of_nat n * (Z.of_nat shards + 1) + 2) * cap n < 2 ^ 63.

Definition pc_ok (n : nat) (p : Pc) : Prop :=
  match p with
  | SetCredited _ _ _ released => 0 <= released <= KV_MAX_TOTAL_BYTES
  | SetAdmitted key val _ => blen val <= KV_MAX_VALUE_BYTES ∧ blen key + blen val <= KV_MAX_TOTAL_BYTES
  | Accounting added removed => 0 <= added <= KV_MAX_TOTAL_BYTES ∧ 0 <= removed <= KV_MAX_TOTAL_BYTES
  | Sweeping _ _ i expired => (i <= shards)%nat ∧ 0 <= expired <= Z.of_nat i * cap n
  | _ => True
  end.

Lemma cap_pos n : KV_MAX_TOTAL_BYTES <= cap n.
Proof using Type. unfold cap, KV_MAX_TOTAL_BYTES. lia. Qed.

Lemma pend_resv n p : pc_ok n p →
  - ((Z.of_nat shards + 1) * cap n) <= pend p ∧ 0 <= resv p ∧ pend p + resv p <= KV_MAX_TOTAL_BYTES.
Proof using Type.
  pose proof (cap_pos n) as Hcap.
  assert (0 <= Z.of_nat shards * cap n) by (unfold KV_MAX_TOTAL_BYTES in *; nia).
  assert (KV_MAX_TOTAL_BYTES <= (Z.of_nat shards + 1) * cap n) by lia.
  assert (0 < KV_MAX_TOTAL_BYTES) by done.
  destruct p as [| | |key val| |next now i b| | | | |]; simpl; intros Hp; try lia.
  - pose proof (blen_nonneg key). pose proof (blen_nonneg val). lia.
  - destruct Hp as [Hi Hb]. assert (Z.of_nat i * cap n <= Z.of_nat shards * cap n) by nia. lia.
Qed.

(** Entries were all admitted. *)
Definition entries_ok (m : gmap bytes KvEntry) : Prop :=
  map_Forall (λ k e, blen (ke_value e) <= KV_MAX_VALUE_BYTES ∧ entry_bytes k e <= KV_MAX_TOTAL_BYTES) m.

(** The store, as thread [p] sees it beside others that hold [P] in flight and [R]
    admitted. *)
Record kv_ok (n : nat) (P R : Z) (s : HostState) (p : Pc) : Prop := {
  ko_total : st_total_bytes s = wrap 64 (footprint (st_kv s) - (pend p + P));
  ko_cap : footprint (st_kv s) + (resv p + R) <= cap n;
  ko_pc : pc_ok n p;
  ko_entries : entries_ok (st_kv s);
}.

(** What the other threads can hold. *)
Definition others_ok (n : nat) (P R : Z) : Prop :=
  - ((Z.of_nat n - 1) * ((Z.of_nat shards + 1) * cap n)) <= P ∧ 0 <= R ∧
  P + R <= (Z.of_nat n - 1) * KV_MAX_TOTAL_BYTES.

Lemma kv_ok_plain n P R s p s' p' :
  kv_ok n P R s p → st_kv s' = st_kv s → st_total_bytes s' = st_total_bytes s →
  pend p' = pend p → resv p' <= resv p → pc_ok n p' → kv_ok n P R s' p'.
Proof using Type.
  intros [Ht Hc Hp He] E1 E2 E3 E4 Hp'. constructor; rewrite ?E1, ?E2, ?E3; [done|lia|done|done].
Qed.

Lemma held_bytes m key : entries_ok m →
  0 <= match m !! key with Some e => entry_bytes key e | None => 0 end <= KV_MAX_TOTAL_BYTES.
Proof using Type.
  intros He. destruct (m !! key) as [e|] eqn:E; [|by vm_compute].
  split; [apply entry_bytes_nonneg|by apply (He key e)].
Qed.

(** An entry leaves the map before its bytes leave the counter. *)
Lemma kv_ok_remove n P R s p key e :
  kv_ok n P R s p → pend p = 0 → resv p = 0 → st_kv s !! key = Some e →
  kv_ok n P R (with_kv (delete key (st_kv s)) (st_total_bytes s) s) (Accounting 0 (entry_bytes key e)).
Proof using Type.
  intros [Ht Hc Hp He] E1 E2 Hk. rewrite E1 in Ht. rewrite E2 in Hc.
  pose proof (footprint_delete _ _ _ Hk) as Hd. pose proof (entry_bytes_nonneg key e).
  constructor; simpl.
  - rewrite Ht. f_equal. lia.
  - lia.
  - pose proof (He _ _ Hk) as [_ Hq]. split_and!; try done; lia.
  - by apply map_Forall_delete.
Qed.

Lemma account_wrap added removed x : account added removed (wrap 64 x) = wrap 64 (x + (added - removed)).
Proof using Type.
  unfold account, wrap. repeat case_bool.
  - by rewrite Zplus_mod_idemp_l.
  - rewrite Zminus_mod_idemp_l. f_equal. lia.
  - f_equal. lia.
Qed.

Lemma kv_ok_account n P R s p added removed p' :
  kv_ok n P R s p → pend p = added - removed → resv p = 0 → pend p' = 0 → resv p' = 0 → pc_ok n p' →
  kv_ok n P R (with_kv (st_kv s) (account added removed (st_total_bytes s)) s) p'.
Proof using Type.
  intros [Ht Hc Hp He] E1 E2 E3 E4 Hp'. constructor; simpl; [|lia|done|done].
  rewrite Ht, account_wrap, E1, E3. f_equal. lia.
Qed.

Lemma wrap_below x : - 2 ^ 64 <= x < 0 → wrap 64 x = x + 2 ^ 64.
Proof using Type.
  intros Hx. unfold wrap. rewrite <-(Z.mod_small (x + 2 ^ 64) (2 ^ 64)) by lia.
  by rewrite <-Zplus_mod_idemp_r, Z_mod_same_full, Z.add_0_r.
Qed.

(** The admission: the total it read is off by what the others hold. *)
Lemma kv_ok_admit n P R s key val ttl released :
  roomy n → others_ok n P R → (1 <= n)%nat →
  kv_ok n P R s (SetCredited key val ttl released) →
  kv_set_verdict (blen key) (blen val) (sat_sub (st_total_bytes s) released) = true →
  kv_ok n P R s (SetAdmitted key val ttl).
Proof using Type.
  intros Hroom (Hlo & HR & Hhi) Hn [Ht Hc Hp He] [Hv Hq]%kv_set_verdict_true. cbn [pend resv pc_ok] in *.
  pose proof (footprint_nonneg (st_kv s)) as Hf. pose proof (cap_pos n) as Hcap.
  pose proof (blen_nonneg key). pose proof (blen_nonneg val).
  assert (released <= KV_MAX_TOTAL_BYTES) as Hrel by lia. unfold sat_sub in Hq.
  set (F := footprint (st_kv s)) in *. set (T := st_total_bytes s) in *.
  assert (T <= 2 * KV_MAX_TOTAL_BYTES) as HT by lia.
  assert ((Z.of_nat n - 1) * KV_MAX_TOTAL_BYTES <= cap n) as Hcn by (unfold cap, KV_MAX_TOTAL_BYTES; lia).
  assert (F - (0 + P) = T) as HX.
  { unfold roomy in Hroom. assert (0 <= Z.of_nat n * (Z.of_nat shards + 1)) by lia.
    assert (0 <= cap n) by (unfold KV_MAX_TOTAL_BYTES in *; lia).
    assert (F - P <= (Z.of_nat n * (Z.of_nat shards + 1) + 2) * cap n) as Hup by nia.
    assert (2 * cap n <= (Z.of_nat n * (Z.of_nat shards + 1) + 2) * cap n) as Hle2 by nia.
    destruct (Z.neg_nonneg_cases (F - (0 + P))) as [Hneg|Hpos].
    - rewrite wrap_below in Ht by lia. unfold KV_MAX_TOTAL_BYTES in *. lia.
    - rewrite wrap_small in Ht by (unfold in_u; lia). lia. }
  constructor; cbn [pend resv pc_ok]; [exact Ht| |split; lia|done].
  fold F. unfold cap. lia.
Qed.

Lemma kv_ok_insert n P R s key val ttl ex :
  kv_ok n P R s (SetAdmitted key val ttl) →
  kv_ok n P R (with_kv (<[key := {| ke_value := val; ke_expires_at := ex |}]> (st_kv s)) (st_total_bytes s) s)
    (Accounting (blen key + blen val) (match st_kv s !! key with Some e => entry_bytes key e | None => 0 end)).
Proof using Type.
  intros [Ht Hc [Hv Hq] He]. cbn [pend resv] in *. pose proof (held_bytes (st_kv s) key He) as Hh.
  assert (from_option (entry_bytes key) 0 (st_kv s !! key) =
    match st_kv s !! key with Some e => entry_bytes key e | None => 0 end) as Hr by (by destruct (st_kv s !! key)).
  pose proof (blen_nonneg key). pose proof (blen_nonneg val).
  assert (entry_bytes key {| ke_value := val; ke_expires_at := ex |} = blen key + blen val) as Hnew by done.
  constructor; cbn [with_kv st_kv st_total_bytes pend resv pc_ok].
  - rewrite footprint_insert, Hr, Hnew, Ht. f_equal. lia.
  - rewrite footprint_insert, Hr, Hnew. lia.
  - split_and!; lia.
  - apply map_Forall_insert_2; [|done]. by split.
Qed.

Lemma sweep_shard_sub now i m : sweep_shard now i m ⊆ m.
Proof using Type. apply map_filter_subseteq. Qed.

Lemma kv_ok_sweep n P R s next t i b :
  kv_ok n P R s (Sweeping next t i b) → (i < shards)%nat → 0 <= R →
  kv_ok n P R (with_kv (sweep_shard t i (st_kv s)) (st_total_bytes s) s)
    (Sweeping next t (S i) (b + swept_bytes t i (st_kv s))).
Proof using Type.
  intros [Ht Hc [Hi Hb] He] Hlt HR. cbn [pend resv] in *. pose proof (swept_split t i (st_kv s)) as Hs.
  pose proof (footprint_nonneg (sweep_shard t i (st_kv s))).
  assert (0 <= swept_bytes t i (st_kv s)) by apply footprint_nonneg.
  constructor; cbn [with_kv st_kv st_total_bytes pend resv pc_ok].
  - rewrite Ht. f_equal. lia.
  - lia.
  - split; [lia|]. rewrite Nat2Z.inj_succ. nia.
  - intros k e Hk. apply (He k e). by eapply lookup_weaken, sweep_shard_sub.
Qed.

(** Every access keeps the store as it should be. *)
Lemma advance_kv_ok n P R e s p :
  roomy n → others_ok n P R → (1 <= n)%nat → kv_ok n P R s p →
  kv_ok n P R (advance e s p).1 (advance e s p).2.
Proof using Type.
  intros Hroom Hoth Hn Hok. pose proof (ko_entries _ _ _ _ _ Hok) as He.
  destruct e as [c now|now]; cbn [advance].
  - destruct p; try exact Hok. destruct c as [key|key val ttl|key|prefix|c|c|c| |kind]; cbn [begin].
    + repeat case_match; apply (kv_ok_plain _ _ _ _ _ _ _ Hok); done.
    + apply (kv_ok_plain _ _ _ _ _ _ _ Hok); try done. by apply held_bytes.
    + destruct (st_kv s !! key) eqn:E; [by eapply kv_ok_remove|exact Hok].
    + cbv zeta. destruct (SWEEP_EVERY <=? st_stale_ops s); by apply (kv_ok_plain _ _ _ _ _ _ _ Hok).
    + unfold scan_advance. repeat case_match; by apply (kv_ok_plain _ _ _ _ _ _ _ Hok).
    + unfold scan_next, scan_advance. repeat case_match; by apply (kv_ok_plain _ _ _ _ _ _ _ Hok).
    + by apply (kv_ok_plain _ _ _ _ _ _ _ Hok).
    + apply (kv_ok_plain _ _ _ _ _ _ _ Hok); try done. simpl. lia.
    + by apply (kv_ok_plain _ _ _ _ _ _ _ Hok).
  - destruct p as [|key t|key val ttl released|key val ttl|added removed|next t i b|next t|prefix|prefix t i found|entries|kind];
      cbn [go].
    + done.
    + destruct (st_kv s !! key) as [e|] eqn:E; [|by apply (kv_ok_plain _ _ _ _ _ _ _ Hok)].
      destruct (is_expired _ t); [by eapply kv_ok_remove|by apply (kv_ok_plain _ _ _ _ _ _ _ Hok)].
    + destruct (kv_set_verdict _ _ _) eqn:E; cbn [negb]; [by eapply kv_ok_admit|by apply (kv_ok_plain _ _ _ _ _ _ _ Hok)].
    + cbv zeta. eapply kv_ok_insert. exact Hok.
    + by eapply kv_ok_account.
    + destruct (Nat.ltb_spec i shards) as [Hi|Hi]; [apply kv_ok_sweep; [done|done|apply Hoth]|].
      eapply kv_ok_account; [exact Hok|simpl; lia|done..].
    + destruct next; apply (kv_ok_plain _ _ _ _ _ _ _ Hok); done.
    + apply (kv_ok_plain _ _ _ _ _ _ _ Hok); try done. simpl. lia.
    + destruct (i <? shards)%nat; by apply (kv_ok_plain _ _ _ _ _ _ _ Hok).
    + unfold open_cursor. cbv zeta. repeat case_match; by apply (kv_ok_plain _ _ _ _ _ _ _ Hok).
    + by apply (kv_ok_plain _ _ _ _ _ _ _ Hok).
Qed.

(** ** Cursors *)

(** The cursor limits, as [HostState] states them: nothing of the store matters. *)
Definition cursors_fine (s : HostState) : Prop := state_ok (with_kv ∅ 0 s).

Lemma fine_with (s s' : HostState) : with_kv ∅ 0 s' = with_kv ∅ 0 s → cursors_fine s → cursors_fine s'.
Proof using Type. unfold cursors_fine. by intros ->. Qed.

Lemma scan_advance_kv c m t s : with_kv m t (scan_advance c s) = scan_advance c (with_kv m t s).
Proof using Type. unfold scan_advance. simpl. by repeat case_match. Qed.

Lemma scan_next_kv c m t s : with_kv m t (scan_next c s).2 = (scan_next c (with_kv m t s)).2.
Proof using Type.
  unfold scan_next, cursor_entry, scan_is_valid. simpl. destruct (st_cursors s !! c) as [cu|]; simpl; [|done].
  destruct (sc_entries cu !! sc_pos cu); simpl; [apply scan_advance_kv|done].
Qed.

Lemma open_cursor_fine entries now s : cursors_fine s → cursors_fine (open_cursor entries now s).
Proof using Type.
  unfold cursors_fine, open_cursor. intros Hs.
  destruct (Nat.leb_spec MAX_CURSORS (size (st_cursors s))) as [|Hlt]; [done|].
  pose proof Hs as [_ _ _ Hc Hi Hn]. simpl in *.
  assert (state_ok (with_next_cursor (wrap 32 (st_next_cursor s + 1)) (with_kv ∅ 0 s))) as H2
    by (apply next_cursor_ok; [by apply wrap_range|done]).
  destruct (Z.leb_spec (2 ^ 31) (st_next_cursor s)) as [|Hid]; [exact H2|].
  eapply (cursors_ok _ _ H2).
  - simpl. rewrite map_size_insert. case_match; simpl; lia.
  - simpl. intros id. rewrite lookup_insert_is_Some. intros [<-|[_ ?]]; [|by apply Hi].
    unfold in_u in Hn. lia.
Qed.

Lemma advance_fine e s p : cursors_fine s → cursors_fine (advance e s p).1.
Proof using Type.
  intros Hs. destruct e as [c now|now]; cbn [advance].
  - destruct p; try done. destruct c as [key|key val ttl|key|prefix|c|c|c| |kind]; cbn [begin]; try done.
    + by repeat case_match.
    + by case_match.
    + by apply (stale_ops_ok _ (with_kv ∅ 0 s)).
    + unfold cursors_fine. simpl. rewrite scan_advance_kv. by apply scan_advance_ok.
    + unfold cursors_fine. cbn [fst]. rewrite scan_next_kv. by apply (host_step_ok _ _ (hs_scan_next _ c)).
    + by apply (host_step_ok _ _ (hs_scan_end (with_kv ∅ 0 s) c)).
    + destruct Hs. by constructor.
  - destruct p; cbn [go]; try done.
    + by repeat case_match.
    + by case_match.
    + by case_match.
    + unfold cursors_fine. simpl. apply (cursors_sub_ok _ (with_kv ∅ 0 s)); [done|apply map_filter_subseteq].
    + by apply (stale_ops_ok _ (with_kv ∅ 0 s)).
    + by case_match.
    + by apply open_cursor_fine.
    + destruct Hs. by constructor.
Qed.

(** ** The machine *)

Record machine_ok (n : nat) (m : Machine) : Prop := {
  mo_threads : length m.2 = n;
  mo_total : st_total_bytes m.1 = wrap 64 (footprint (st_kv m.1) - zsum (pend <$> m.2));
  mo_cap : footprint (st_kv m.1) + zsum (resv <$> m.2) <= cap n;
  mo_pcs : Forall (pc_ok n) m.2;
  mo_entries : entries_ok (st_kv m.1);
  mo_cursors : cursors_fine m.1;
}.

Lemma pcs_sums n l : Forall (pc_ok n) l →
  - (Z.of_nat (length l) * ((Z.of_nat shards + 1) * cap n)) <= zsum (pend <$> l) ∧ 0 <= zsum (resv <$> l) ∧
  zsum (pend <$> l) + zsum (resv <$> l) <= Z.of_nat (length l) * KV_MAX_TOTAL_BYTES.
Proof using Type.
  induction 1 as [|p l Hp _ IH]; [simpl; lia|]. rewrite !fmap_cons. cbn [zsum foldr length].
  fold (zsum (pend <$> l)) (zsum (resv <$> l)). pose proof (pend_resv n p Hp). rewrite Nat2Z.inj_succ. lia.
Qed.

(** A thread and the others. *)
Lemma machine_thread n s l i p : machine_ok n (s, l) → l !! i = Some p →
  (1 <= n)%nat ∧ others_ok n (zsum (pend <$> l) - pend p) (zsum (resv <$> l) - resv p) ∧
  kv_ok n (zsum (pend <$> l) - pend p) (zsum (resv <$> l) - resv p) s p.
Proof using Type.
  intros [Hn Ht Hc Hp He Hf] Hi. cbn [fst snd] in *. pose proof (lookup_lt_Some _ _ _ Hi) as Hlt.
  split; [lia|]. pose proof (Forall_lookup_1 _ _ _ _ Hp Hi) as Hpi.
  apply list_elem_of_split_length in Hi as (l1 & l2 & -> & ->).
  apply Forall_app in Hp as [H1 [_ H2]%Forall_cons].
  apply pcs_sums in H1 as (A1 & A2 & A3). apply pcs_sums in H2 as (B1 & B2 & B3).
  rewrite !fmap_app, !zsum_app, !fmap_cons in *. cbn [zsum foldr] in *.
  fold (zsum (pend <$> l2)) (zsum (resv <$> l2)) in *.
  rewrite length_app in Hn. simpl in Hn. assert (Z.of_nat n - 1 = Z.of_nat (length l1) + Z.of_nat (length l2)) as Hz by lia.
  split.
  - unfold others_ok. rewrite Hz. lia.
  - constructor; [rewrite Ht; f_equal; lia|lia|done|done].
Qed.

Lemma step_ok n m ev : roomy n → machine_ok n m → machine_ok n (step m ev).
Proof using Type.
  intros Hroom Hm. unfold step. destruct (m.2 !! ev.1) as [p|] eqn:Hi; [|done]. destruct m as [s l]. cbn [fst snd] in *.
  destruct (machine_thread n s l _ p Hm Hi) as (Hn & Hoth & Hk).
  apply (advance_kv_ok _ _ _ ev.2) in Hk; [|done..].
  pose proof (advance_fine ev.2 s p (mo_cursors _ _ Hm)) as Hf.
  destruct (advance ev.2 s p) as [s' p']. cbn [fst snd] in *. destruct Hk as [Ht Hc Hp He].
  destruct Hm as [Hl _ _ Hpcs _ _]. cbn [fst snd] in *.
  assert (∀ f : Pc → Z, (f <$> l) !! ev.1 = Some (f p)) as Hfl by (intros f; by rewrite list_lookup_fmap, Hi).
  constructor; cbn [fst snd]; try done.
  - by rewrite length_insert.
  - rewrite list_fmap_insert, (zsum_insert _ _ _ _ (Hfl pend)), Ht. f_equal. lia.
  - rewrite list_fmap_insert, (zsum_insert _ _ _ _ (Hfl resv)). lia.
  - by apply Forall_insert.
Qed.

Lemma zsum_zero {A} (f : A → Z) l : Forall (λ x, f x = 0) l → zsum (f <$> l) = 0.
Proof using Type. induction 1 as [|x l Hx _ IH]; [done|]. rewrite fmap_cons. simpl. fold (zsum (f <$> l)). lia. Qed.

Lemma start_ok name n : machine_ok n (start name n).
Proof using Type.
  assert (∀ f : Pc → Z, f Idle = 0 → zsum (f <$> replicate n Idle) = 0) as Hz.
  { intros f Hf. apply zsum_zero, Forall_replicate. exact Hf. }
  pose proof (cap_pos n). assert (0 < KV_MAX_TOTAL_BYTES) by done.
  unfold start. constructor; cbn [fst snd new st_kv st_total_bytes].
  - apply length_replicate.
  - by rewrite footprint_empty, Hz.
  - rewrite footprint_empty, Hz by done. lia.
  - by apply Forall_replicate.
  - apply map_Forall_empty.
  - apply (new_ok name).
Qed.

Lemma run_ok name n schedule : roomy n → machine_ok n (run schedule (start name n)).
Proof using Type.
  intros Hroom. unfold run. pose proof (start_ok name n) as Hs. revert Hs.
  generalize (start name n). induction schedule as [|ev schedule IH]; intros m Hm; [done|].
  apply IH. by apply step_ok.
Qed.

(** ** One thread alone *)

(** What a single thread was told stays true. *)
Definition solo (s : HostState) (p : Pc) : Prop :=
  footprint (st_kv s) <= KV_MAX_TOTAL_BYTES ∧
  match p with
  | SetCredited key _ _ released =>
      released = match st_kv s !! key with Some e => entry_bytes key e | None => 0 end
  | SetAdmitted key val _ =>
      footprint (st_kv s) - (match st_kv s !! key with Some e => entry_bytes key e | None => 0 end) +
        (blen key + blen val) <= KV_MAX_TOTAL_BYTES
  | _ => True
  end.

Lemma footprint_sub m m' : m ⊆ m' → footprint m <= footprint m'.
Proof using Type.
  revert m'. induction m as [|k e m Hk IH] using map_ind; intros m' Hs.
  { rewrite footprint_empty. apply footprint_nonneg. }
  assert (m' !! k = Some e) as Hk' by (eapply lookup_weaken; [apply lookup_insert_eq|done]).
  rewrite footprint_insert_new, (footprint_delete m' k e) by done.
  assert (m ⊆ delete k m') as Hd; [|by apply IH in Hd; lia].
  apply map_subseteq_spec. intros k' e' Hm. destruct (decide (k' = k)) as [->|Hne]; [congruence|].
  rewrite lookup_delete_ne by done. eapply lookup_weaken; [|exact Hs]. by rewrite lookup_insert_ne.
Qed.

Lemma solo_sub m t s p : m ⊆ st_kv s → footprint (st_kv s) <= KV_MAX_TOTAL_BYTES →
  match p with SetCredited _ _ _ _ | SetAdmitted _ _ _ => False | _ => True end → solo (with_kv m t s) p.
Proof using Type.
  intros Hs%footprint_sub Hf Hp. split; [simpl; lia|]. by destruct p.
Qed.

Lemma advance_solo e s p : kv_ok 1 0 0 s p → solo s p → solo (advance e s p).1 (advance e s p).2.
Proof using Type.
  intros Hok [Hf Hp]. destruct e as [c now|now]; cbn [advance].
  - destruct p; try done. destruct c as [key|key val ttl|key|prefix|c|c|c| |kind]; cbn [begin]; try done.
    + by repeat case_match.
    + destruct (st_kv s !! key) eqn:E; [apply solo_sub; [apply delete_subseteq|done..]|done].
    + cbv zeta. by destruct (SWEEP_EVERY <=? st_stale_ops s).
    + unfold scan_advance. by repeat case_match.
    + unfold scan_next, scan_advance. by repeat case_match.
  - destruct p as [|key t|key val ttl released|key val ttl|added removed|next t i b|next t|prefix|prefix t i found|entries|kind];
      cbn [go]; try done.
    + destruct (st_kv s !! key) as [e|]; [|done].
      destruct (is_expired _ t); [apply solo_sub; [apply delete_subseteq|done..]|done].
    + destruct (kv_set_verdict _ _ _) eqn:E; [|done]. cbn [negb fst snd]. split; [done|].
      apply kv_set_verdict_true in E as [_ E]. destruct Hok as [Ht _ Hr _]. simpl in Ht, Hr.
      pose proof (footprint_nonneg (st_kv s)). unfold KV_MAX_TOTAL_BYTES in *.
      rewrite Ht, wrap_small in E by (unfold in_u; lia). unfold sat_sub in E. subst released. lia.
    + cbv zeta. split; [|done]. cbn [fst with_kv st_kv]. rewrite footprint_insert.
      assert (∀ ex, entry_bytes key {| ke_value := val; ke_expires_at := ex |} = blen key + blen val) as -> by done.
      destruct (st_kv s !! key); simpl in *; lia.
    + destruct (i <? shards)%nat; [apply solo_sub; [apply sweep_shard_sub|done..]|done].
    + by destruct next.
    + by destruct (i <? shards)%nat.
    + unfold open_cursor. cbv zeta. by repeat case_match.
Qed.

Lemma run_solo name schedule : roomy 1 →
  ∃ s p, run schedule (start name 1) = (s, [p]) ∧ kv_ok 1 0 0 s p ∧ solo s p.
Proof using Type.
  intros Hroom. unfold run. pose proof (start_ok name 1) as Hs.
  assert (∃ s p, start name 1 = (s, [p]) ∧ machine_ok 1 (s, [p]) ∧ solo s p) as H0.
  { exists (new name), Idle. split_and!; [done|done|]. split; [|done]. simpl. rewrite footprint_empty. done. }
  clear Hs. revert H0. generalize (start name 1).
  induction schedule as [|ev schedule IH]; intros m (s & p & -> & Hm & Hso).
  - exists s, p. split; [done|]. split; [|done].
    destruct (machine_thread 1 s [p] 0 p Hm eq_refl) as (_ & _ & Hk). simpl in Hk.
    by rewrite !Z.add_0_r, !Z.sub_diag in Hk.
  - cbn [foldl]. apply IH. pose proof (step_ok 1 _ ev Hroom Hm) as Hm'.
    unfold step in *. cbn [fst snd] in *. destruct ev as [[|i] e]; cbn [lookup list_lookup fst snd] in *.
    + destruct (machine_thread 1 s [p] 0 p Hm eq_refl) as (_ & _ & Hk). simpl in Hk.
      rewrite !Z.add_0_r, !Z.sub_diag in Hk. pose proof (advance_solo e s p Hk Hso) as Hs'.
      destruct (advance e s p) as [s' p']. exists s', p'. by split_and!.
    + by exists s, p.
Qed.

(** C9. The KV limits under concurrency.  However [n] threads interleave, access by
    access, over the methods of one plugin's state ([n] inside [roomy]: [n] squared
    times the shards, in MiB, stays within 63 bits): the byte counter is the sum of
    key and value sizes over the entries held, but for what calls in progress have
    changed in the map and not yet added to or taken from it (so it is exact when
    none is in that gap, and never drifts through overwrites, deletes, lazy expiry or
    sweeps); no value exceeds 64 KiB; at most 64 scan cursors are live, all under ids
    a guest's [i32] can name.  What is stored stays within [n + 1] times the 1 MiB
    quota, together with what was admitted and is not inserted yet; within the quota
    itself when the calls do not overlap ([n = 1]).  Overlapping sets do exceed the
    quota ([concurrent_sets_overshoot]). *)
Theorem kv_limits_concurrent (name : bytes) (n : nat) (schedule : list (nat * Event)) :
  roomy n →
  let '(s, pcs) := run schedule (start name n) in
  kv_total_bytes s = wrap 64 (footprint (st_kv s) - zsum (pend <$> pcs)) ∧
  (Forall (λ p, pend p = 0) pcs → kv_total_bytes s = footprint (st_kv s)) ∧
  footprint (st_kv s) + zsum (resv <$> pcs) <= (Z.of_nat n + 1) * KV_MAX_TOTAL_BYTES ∧
  (n = 1%nat → footprint (st_kv s) <= KV_MAX_TOTAL_BYTES) ∧
  (∀ k e, st_kv s !! k = Some e → blen (ke_value e) <= KV_MAX_VALUE_BYTES) ∧
  (cursors_len s ≤ MAX_CURSORS)%nat ∧
  (∀ id, scan_is_valid id s = true → 0 <= id < 2 ^ 31).
Proof using Type.
  intros Hroom. pose proof (run_ok name n schedule Hroom) as Hm. pose proof (run_solo name schedule) as Hsolo.
  destruct (run schedule (start name n)) as [s pcs] eqn:Er.
  destruct Hm as [Hl Ht Hc Hp He Hf]. cbn [fst snd] in *. unfold kv_total_bytes.
  pose proof (pcs_sums n pcs Hp) as (_ & HR & _). pose proof (footprint_nonneg (st_kv s)) as Hf0.
  split_and!.
  - exact Ht.
  - intros Hz. rewrite (zsum_zero pend pcs Hz) in Ht. rewrite Ht, Z.sub_0_r, wrap_small; [done|].
    unfold roomy in Hroom. assert (0 <= Z.of_nat n * (Z.of_nat shards + 1)) by lia.
    assert (0 <= cap n) by (unfold cap, KV_MAX_TOTAL_BYTES; lia). unfold in_u. nia.
  - exact Hc.
  - intros ->. destruct (Hsolo Hroom) as (s' & p & Hr & _ & Hs & _). rewrite Er in Hr. by injection Hr as -> ->.
  - intros k e Hk. by apply (He k e).
  - exact (ok_cursors _ Hf).
  - intros id Hid. apply (ok_ids _ Hf). by apply bool_decide_eq_true in Hid.
Qed.

(** A sequence of accesses, one thread after the other at each. *)
Lemma run_cons ev schedule m : run (ev :: schedule) m = run schedule (step m ev).
Proof using Type. done. Qed.

(** Steps of two threads. *)
Lemma step_first e s p q s' p' : advance e s p = (s', p') → step (s, [p; q]) (0%nat, e) = (s', [p'; q]).
Proof using Type. unfold step. cbn [fst snd]. change ([p; q] !! 0%nat) with (Some p). cbv beta iota. by intros ->. Qed.

Lemma step_second e s p q s' q' : advance e s q = (s', q') → step (s, [p; q]) (1%nat, e) = (s', [p; q']).
Proof using Type. unfold step. cbn [fst snd]. change ([p; q] !! 1%nat) with (Some q). cbv beta iota. by intros ->. Qed.

(** Two sets that overlap are both admitted on the empty store and leave it at twice
    the quota: the total each reads misses what the other is about to insert, so the
    verdict of a concurrent write is not only conservative. *)
Lemma concurrent_sets_overshoot (name k1 k2 : bytes) :
  k1 ≠ k2 → blen k1 = KV_MAX_TOTAL_BYTES → blen k2 = KV_MAX_TOTAL_BYTES →
  let '(s, pcs) := run [(0, Begin (CSet k1 [] 0) 0); (1, Begin (CSet k2 [] 0) 0); (0, Go 0); (1, Go 0);
                        (0, Go 0); (1, Go 0); (0, Go 0); (1, Go 0)]%nat (start name 2) in
  pcs = [Idle; Idle] ∧ footprint (st_kv s) = 2 * KV_MAX_TOTAL_BYTES ∧
  kv_total_bytes s = 2 * KV_MAX_TOTAL_BYTES.
Proof using Type.
  intros Hne H1 H2.
  assert (∀ k, blen k = KV_MAX_TOTAL_BYTES → kv_set_verdict (blen k) (blen []) (sat_sub 0 0) = true) as Hv
    by (intros k ->; by vm_compute).
  assert (∀ k, entry_bytes k {| ke_value := []; ke_expires_at := U64_MAX |} = blen k) as Hb.
  { intros k. unfold entry_bytes, blen. simpl. lia. }
  unfold start. cbn [replicate]. rewrite !run_cons.
  erewrite step_first by reflexivity. cbn [new st_kv]. rewrite lookup_empty.
  erewrite step_second by reflexivity. cbn [new st_kv]. rewrite lookup_empty.
  rewrite (step_first _ _ _ _ (new name) (SetAdmitted k1 [] 0)) by (cbn [advance go new st_total_bytes]; by rewrite Hv).
  rewrite (step_second _ _ _ _ (new name) (SetAdmitted k2 [] 0)) by (cbn [advance go new st_total_bytes]; by rewrite Hv).
  erewrite step_first by reflexivity.
  cbn [new st_kv]. rewrite lookup_empty.
  erewrite step_second by reflexivity. cbn [with_kv st_kv]. rewrite lookup_insert_ne, lookup_empty by done.
  erewrite step_first by reflexivity. erewrite step_second by reflexivity. unfold run. cbn [foldl].
  split; [done|]. unfold kv_total_bytes. cbn [with_kv st_kv st_total_bytes Z.leb Z.compare].
  split.
  - rewrite !footprint_insert, lookup_insert_ne, lookup_empty, footprint_empty, !Hb, H1, H2 by done.
    rewrite lookup_empty. simpl. lia.
  - rewrite H1, H2. by vm_compute.
Qed.

End machine.

(** * A concrete interleaving *)

(** Two threads set one key while a third sweeps; every key hashes to its length. *)
Definition ex_shard (k : bytes) : nat := (length k `mod` 4)%nat.

Definition ex_schedule : list (nat * Event) :=
  [(0, Begin (CSet (bs "k") (bs "value") 50) 0); (1, Begin (CSet (bs "k") (bs "v") 0) 0); (0, Go 0); (1, Go 0);
   (2, Begin CSweep 100); (0, Go 10); (2, Go 100); (2, Go 100); (0, Go 10); (1, Go 10); (2, Go 100); (2, Go 100);
   (1, Go 10)]%nat.

(** The sweep has passed both shards of interest: it took the first value, between
    its insert and its accounting, and has not counted it yet; the counter still
    holds it, the store only the second value. *)
Lemma kv_limits_concurrent_witness :
  let '(s, pcs) := run ex_shard 4 ex_schedule (start (bs "p") 3) in
  kv_total_bytes s = 8 ∧ footprint (st_kv s) = 2 ∧ zsum (pend <$> pcs) = -6 ∧
  footprint (st_kv s) <= 4 * KV_MAX_TOTAL_BYTES.
Proof.
  assert (roomy 4 3) as Hr by by vm_compute.
  pose proof (kv_limits_concurrent ex_shard 4 (bs "p") 3 ex_schedule Hr) as Hm.
  assert ((let '(s, pcs) := run ex_shard 4 ex_schedule (start (bs "p") 3) in
    (footprint (st_kv s), zsum (pend <$> pcs), zsum (resv <$> pcs))) = (2, -6, 0)) as Hv by (vm_compute; reflexivity).
  destruct (run ex_shard 4 ex_schedule (start (bs "p") 3)) as [s pcs].
  destruct Hm as (Ht & _ & Hc & _). injection Hv as Hf Hp Hs.
  rewrite Hf, Hp in Ht. rewrite Hs, Z.add_0_r in Hc. split; [rewrite Ht; reflexivity|]. split; [exact Hf|]. split; [exact Hp|exact Hc].
Defined.
