(* ===== verification/Registry.v ===== *)
(** The plugin registry: discovery, order, and reloads that publish a new
    snapshot while each plugin's shared state lives on
    ([openrusty-wasm/src/registry.rs], [registry_validate.rs]).

    The file system and wasmtime are parameters: what a directory listing
    answers, and what reading, compiling and validating a module yields.  A
    plugin's [Arc<HostState>] is a location in a store of states. *)

From S2P Require Import Prelude Text Net Config HostState Swap.
From Stdlib Require Import ZArith Lia.
From stdpp Require Import options.
Local Open Scope Z_scope.

(** * Discovery *)

(** A readable directory entry: its name and whether [metadata] says it is a
    regular file. *)
Record DirEntry := { de_file_name : bytes; de_is_file : bool }.

(** [Path::file_stem] and [Path::extension] of a file name. *)
Definition split_file_name (name : bytes) : bytes * option bytes :=
  match rsplit_once x2e name with
  | Some (stem, ext) => if bool_decide (stem = []) then (name, None) else (stem, Some ext)
  | None => (name, None)
  end.

Definition plugin_name (e : option DirEntry) : option bytes :=
  e ← e;
  let '(stem, ext) := split_file_name (de_file_name e) in
  if bool_decide (ext = Some (bs "wasm")) && de_is_file e && valid_utf8 stem then Some stem else None.

Inductive RegistryError :=
| RegIo
| RegCompile (plugin : bytes)
| RegAbi (plugin : bytes)
| RegConflict.

(** [discover]; the directory is [None] when it cannot be read, an entry when it
    cannot. *)
Definition discover (dir : option (list (option DirEntry))) : result RegistryError (list bytes) :=
  match dir with
  | None => Err RegIo
  | Some entries => Ok (sort_by bytes_leb (omap plugin_name entries))
  end.

Definition order_plugins (files order : list bytes) : list bytes :=
  let out := filter (λ n, n ∈ files) order in
  foldl (λ out f, if bool_decide (f ∈ out) then out else out ++ [f]) out files.

(** * Engine parameters *)

Definition WASM_PAGE : Z := 64 * 1024.
Definition MAX_SLOT : Z := 4 * 1024 * 1024 * 1024 - WASM_PAGE.

Definition memory_slot_bytes (max_memory_mb : Z) : Z :=
  let bytes := sat_mul 64 max_memory_mb (1024 * 1024) in
  Z.min (wrap 64 (bytes + WASM_PAGE - 1) / WASM_PAGE * WASM_PAGE) MAX_SLOT.

Section registry.
(** A compiled module with its import-resolved plan. *)
Context {Module_ : Type}.

Record Loaded := {
  ld_name : bytes;
  ld_module : Module_;
  ld_state : nat;                 (* location of the shared state *)
  ld_settings : gmap bytes bytes;
  ld_timeout : Z;
  ld_fail_policy : FailPolicy;
  ld_memory_mb : Z;
  ld_has_dealloc : bool;
}.

Record PluginSnapshot := { ps_generation : Z; ps_plugins : list Loaded }.

(** The shared states ever created. *)
Record States := { sto_next : nat; sto_map : gmap nat HostState }.

Definition new_state (name : bytes) (w : States) : nat * States :=
  (sto_next w, {| sto_next := S (sto_next w);
                  sto_map := <[sto_next w := HostState.new name]> (sto_map w) |}).

(** The map built from the previous snapshot: the last plugin of a name. *)
Definition prev_states (prev : option PluginSnapshot) : gmap bytes nat :=
  match prev with
  | None => ∅
  | Some s => foldl (λ m p, <[ld_name p := ld_state p]> m) ∅ (ps_plugins s)
  end.

(** Reading [name.wasm], compiling it, validating its ABI and resolving its
    imports: the module and whether it exports [orr_dealloc]. *)
Abbreviation Prepare := (bytes → result RegistryError (Module_ * bool)).

Definition load_plugin (prepare : Prepare) (cfg : Config) (prev : gmap bytes nat) (name : bytes)
    (w : States) : States * result RegistryError Loaded :=
  match prepare name with
  | Err e => (w, Err e)
  | Ok (m, dealloc) =>
      let '(st, w) := match prev !! name with
                      | Some st => (st, w)
                      | None => new_state name w
                      end in
      (w, Ok {| ld_name := name; ld_module := m; ld_state := st;
                ld_settings := default ∅ (pl_settings (cf_plugins cfg) !! name);
                ld_timeout := pl_timeout_ms (cf_plugins cfg);
                ld_fail_policy := pl_on_failure (cf_plugins cfg);
                ld_memory_mb := pl_max_memory_mb (cf_plugins cfg);
                ld_has_dealloc := dealloc |})
  end.

Fixpoint load_plugins (prepare : Prepare) (cfg : Config) (prev : gmap bytes nat)
    (names : list bytes) (w : States) : States * result RegistryError (list Loaded) :=
  match names with
  | [] => (w, Ok [])
  | name :: names =>
      match load_plugin prepare cfg prev name w with
      | (w, Err e) => (w, Err e)
      | (w, Ok p) =>
          match load_plugins prepare cfg prev names w with
          | (w, Err e) => (w, Err e)
          | (w, Ok ps) => (w, Ok (p :: ps))
          end
      end
  end.

(** [bootstrap], after the engine and linker exist. *)
Definition bootstrap (dir : option (list (option DirEntry))) (prepare : Prepare) (cfg : Config)
    (w : States) : States * result RegistryError PluginSnapshot :=
  match discover dir with
  | Ok ((_ :: _) as names) =>
      match load_plugins prepare cfg ∅ (order_plugins names (pl_order (cf_plugins cfg))) w with
      | (w, Ok ps) => (w, Ok {| ps_generation := 1; ps_plugins := ps |})
      | (w, Err e) => (w, Err e)
      end
  | _ => (w, Ok {| ps_generation := 0; ps_plugins := [] |})
  end.

Definition RELOAD_ATTEMPTS : nat := 3.

(** One build of [reload]: the closure [work]. *)
Definition build_snapshot (dir : option (list (option DirEntry))) (prepare : Prepare)
    (cfg : Config) (w : States) (build_from : PluginSnapshot)
    : States * result RegistryError (PluginSnapshot * Z) :=
  match discover dir with
  | Err e => (w, Err e)
  | Ok names =>
      match load_plugins prepare cfg (prev_states (Some build_from))
              (order_plugins names (pl_order (cf_plugins cfg))) w with
      | (w, Err e) => (w, Err e)
      | (w, Ok ps) =>
          let generation := wrap 64 (ps_generation build_from + 1) in
          (w, Ok ({| ps_generation := generation; ps_plugins := ps |}, generation))
      end
  end.

(** [reload]; the directory and the modules as each attempt finds them, and the
    snapshots concurrent reloads publish meanwhile. *)
Definition reload (dir : nat → option (list (option DirEntry))) (prepare : nat → Prepare)
    (others : nat → list PluginSnapshot) (cfg : Config) (w : States) (c : ArcSwap PluginSnapshot)
    : States * result RegistryError Z * ArcSwap PluginSnapshot :=
  let '(w, r, c) := cas_loop (λ i w s, build_snapshot (dir i) (prepare i) cfg w s)
                      others RELOAD_ATTEMPTS 0 w c in
  (w, default (Err RegConflict) r, c).

(** [status]. *)
Definition status (w : States) (s : PluginSnapshot) : list (bytes * Z) :=
  map (λ p, (ld_name p, from_option st_errors 0 (sto_map w !! ld_state p))) (ps_plugins s).

(** * Order *)

Lemma order_plugins_fold (files out : list bytes) :
  NoDup files → NoDup out →
  let r := foldl (λ out f, if bool_decide (f ∈ out) then out else out ++ [f]) out files in
  NoDup r ∧ r = out ++ filter (λ f, f ∉ out) files.
Proof.
  revert out. induction files as [|f files IH]; intros out Hf Ho; simpl.
  { by rewrite app_nil_r. }
  apply NoDup_cons in Hf as [Hn Hf]. case_bool_decide as Hin.
  - rewrite filter_cons_False by tauto. by apply IH.
  - rewrite filter_cons_True by done. destruct (IH (out ++ [f])) as [Hd He]; [done| |].
    { apply NoDup_app. split_and!; [done| |apply NoDup_singleton].
      intros x Hx ->%list_elem_of_singleton. done. }
    split; [done|]. rewrite He, <-app_assoc. simpl.
    assert (filter (λ g, g ∉ out ++ [f]) files = filter (λ g, g ∉ out) files) as ->; [|done].
    clear -Hn. induction files as [|g files IH]; [done|]. apply not_elem_of_cons in Hn as [? Hn].
    rewrite !filter_cons, IH by done. repeat case_decide; try done; exfalso; set_solver.
Qed.

(** Without duplicates in either list: the ordered ones that exist, then the
    others. *)
Lemma order_plugins_spec (files order : list bytes) :
  NoDup files → NoDup order →
  NoDup (order_plugins files order) ∧ order_plugins files order ≡ₚ files ∧
  order_plugins files order =
    filter (λ n, n ∈ files) order ++ filter (λ f, f ∉ order) files.
Proof.
  intros Hf Ho. unfold order_plugins.
  destruct (order_plugins_fold files (filter (λ n, n ∈ files) order)) as [Hd He];
    [done|by apply NoDup_filter|].
  split; [done|]. rewrite He in Hd |- *.
  assert (filter (λ f, f ∉ filter (λ n, n ∈ files) order) files = filter (λ f, f ∉ order) files) as Heq.
  { assert (∀ l : list bytes, (∀ x, x ∈ l → x ∈ files) → filter (λ f, f ∉ filter (λ n, n ∈ files) order) l =
      filter (λ f, f ∉ order) l) as Hl; [|by apply Hl].
    induction l as [|g l IH]; intros Hsub; [done|].
    rewrite !filter_cons, IH by (intros; apply Hsub; by right).
    assert (g ∈ files) as Hg by (apply Hsub; by left). clear IH Hsub He Hd.
    assert (g ∈ filter (λ n, n ∈ files) order ↔ g ∈ order) as Hiff.
    { rewrite list_elem_of_filter. tauto. }
    repeat case_decide; try done; exfalso; tauto. }
  split; [|by rewrite Heq]. apply NoDup_Permutation; [done|done|].
  intros x. rewrite elem_of_app, !list_elem_of_filter.
  destruct (decide (x ∈ order)); naive_solver.
Qed.

(** * Discovery names *)

Lemma plugin_name_file e n :
  plugin_name e = Some n → ∃ d, e = Some d ∧ de_file_name d = n ++ bs ".wasm".
Proof.
  destruct e as [d|]; [|done]. unfold plugin_name, split_file_name. simpl. intros H.
  exists d. split; [done|]. unfold rsplit_once in H.
  destruct (split_once x2e (reverse (de_file_name d))) as [[l r]|] eqn:E; [|by rewrite bool_decide_false in H].
  apply split_once_Some in E as [E _]. apply (f_equal reverse) in E.
  rewrite reverse_involutive, reverse_app, reverse_cons, <-app_assoc in E. simpl in E.
  case_bool_decide; [by rewrite bool_decide_false in H|]. case_bool_decide as Hext; [|done].
  injection Hext as Hext. destruct (_ && _); [|done]. injection H as <-. by rewrite E, Hext.
Qed.

(** File names are distinct, hence so are plugin names. *)
Definition distinct_entries (dir : option (list (option DirEntry))) : Prop :=
  NoDup (de_file_name <$> omap id (default [] dir)).

Lemma discover_spec dir files :
  discover dir = Ok files → distinct_entries dir →
  NoDup files ∧ Sorted (λ a b, bytes_leb a b = true) files ∧
  ∀ n, n ∈ files ↔ ∃ e, e ∈ default [] dir ∧ plugin_name e = Some n.
Proof.
  unfold discover, distinct_entries. destruct dir as [es|]; [|done]. simpl. intros [= <-] Hd.
  split_and!.
  - rewrite sort_by_perm. clear -Hd. induction es as [|e es IH]; simpl; [constructor|].
    assert (NoDup (omap plugin_name es)) as Hes.
    { apply IH. destruct e; simpl in Hd; [by apply NoDup_cons in Hd as [_ ?]|done]. }
    destruct (plugin_name e) as [n|] eqn:En; [|done].
    apply plugin_name_file in En as (d & -> & Hn). simpl in Hd. apply NoDup_cons in Hd as [Hd _].
    apply NoDup_cons. split; [|done]. intros (e' & He' & Hn')%list_elem_of_omap.
    apply Hd. apply plugin_name_file in Hn' as (d' & -> & Hn'). apply list_elem_of_fmap.
    exists d'. split; [congruence|]. apply list_elem_of_omap. by exists (Some d').
  - apply sort_by_sorted, bytes_leb_total.
  - intros n. rewrite sort_by_perm. apply list_elem_of_omap.
Qed.

(** * Loading *)

(** States are only ever added. *)
Definition grows (w w' : States) : Prop :=
  (sto_next w ≤ sto_next w')%nat ∧ ∀ l, (l < sto_next w)%nat → sto_map w' !! l = sto_map w !! l.

#[export] Instance grows_preorder : PreOrder grows.
Proof.
  split; [done|]. intros a b c [Hn1 H1] [Hn2 H2]. split; [lia|].
  intros l Hl. rewrite H2 by lia. by apply H1.
Qed.

(** The plugins of a snapshot have distinct names and states, each its own. *)
Record plugins_ok (w : States) (ps : list Loaded) : Prop := {
  po_names : NoDup (ld_name <$> ps);
  po_states : NoDup (ld_state <$> ps);
  po_own : ∀ p, p ∈ ps → (ld_state p < sto_next w)%nat ∧
    ∃ st, sto_map w !! ld_state p = Some st ∧ st_name st = ld_name p;
}.

Lemma plugins_ok_grows w w' ps : grows w w' → plugins_ok w ps → plugins_ok w' ps.
Proof.
  intros [Hn Hm] [Hd Hs Ho]. split; [done..|]. intros p Hp. destruct (Ho p Hp) as [Hl Hst].
  split; [lia|]. by rewrite Hm.
Qed.

(** What loading gives a plugin. *)
Record loaded_as (prepare : Prepare) (cfg : Config) (prev : gmap bytes nat) (w : States)
    (name : bytes) (p : Loaded) (w' : States) : Prop := {
  la_name : ld_name p = name;
  la_module : prepare name = Ok (ld_module p, ld_has_dealloc p);
  la_settings : ld_settings p = default ∅ (pl_settings (cf_plugins cfg) !! name);
  la_timeout : ld_timeout p = pl_timeout_ms (cf_plugins cfg);
  la_policy : ld_fail_policy p = pl_on_failure (cf_plugins cfg);
  la_memory : ld_memory_mb p = pl_max_memory_mb (cf_plugins cfg);
  la_state : match prev !! name with
             | Some st => ld_state p = st
             | None => (sto_next w ≤ ld_state p < sto_next w')%nat ∧
                 sto_map w' !! ld_state p = Some (HostState.new name)
             end;
}.

Lemma load_plugin_spec prepare cfg prev name w :
  match load_plugin prepare cfg prev name w with
  | (w', Ok p) => grows w w' ∧ loaded_as prepare cfg prev w name p w'
  | (w', Err e) => w' = w
  end.
Proof.
  unfold load_plugin. destruct (prepare name) as [[m d]|] eqn:Ep; [|done].
  destruct (prev !! name) as [st|] eqn:Es; simpl.
  - split; [done|]. by split; simpl; rewrite ?Es.
  - split.
    + split; simpl; [lia|]. intros l Hl. rewrite lookup_insert_ne; [done|lia].
    + split; simpl; rewrite ?Es; try done. split; [lia|]. by rewrite lookup_insert_eq.
Qed.

Lemma loaded_as_grows prepare cfg prev w0 w name p w1 w2 :
  grows w0 w → grows w1 w2 → loaded_as prepare cfg prev w name p w1 →
  loaded_as prepare cfg prev w0 name p w2.
Proof.
  intros [Hn0 _] [Hn1 Hm1] []. split; try done. destruct (prev !! name); [done|].
  destruct la_state0 as [? <-]. split; [lia|]. apply Hm1. lia.
Qed.

Lemma load_plugins_spec prepare cfg prev names w :
  match load_plugins prepare cfg prev names w with
  | (w', Ok ps) => grows w w' ∧
      Forall2 (λ name p, loaded_as prepare cfg prev w name p w') names ps ∧
      NoDup (ld_state <$> filter (λ p, prev !! ld_name p = None) ps)
  | (w', Err e) => grows w w'
  end.
Proof.
  revert w. induction names as [|name names IH]; intros w; simpl.
  { split_and!; [done|constructor|constructor]. }
  pose proof (load_plugin_spec prepare cfg prev name w) as Hl.
  destruct (load_plugin prepare cfg prev name w) as [w1 [p|e]]; [|by subst].
  destruct Hl as [Hg Hp]. specialize (IH w1).
  destruct (load_plugins prepare cfg prev names w1) as [w2 [ps|e]]; [|by etrans].
  destruct IH as (Hg' & Hps & Hnd). split_and!; [by etrans| |].
  - constructor; [eapply loaded_as_grows; [reflexivity|exact Hg'|exact Hp]|]. eapply Forall2_impl; [exact Hps|].
    intros n q Hq. eapply loaded_as_grows; [exact Hg|reflexivity|exact Hq].
  - rewrite filter_cons. case_decide as Hf; [|done]. simpl. apply NoDup_cons. split; [|done].
    intros (q & Hq & Hin)%list_elem_of_fmap. apply list_elem_of_filter in Hin as [Hqf Hin].
    apply list_elem_of_lookup in Hin as [k Hk].
    destruct (Forall2_lookup_r _ _ _ _ _ Hps Hk) as (n & _ & Hqa).
    pose proof (la_state _ _ _ _ _ _ _ Hqa) as Hqs. rewrite <-(la_name _ _ _ _ _ _ _ Hqa), Hqf in Hqs.
    pose proof (la_state _ _ _ _ _ _ _ Hp) as Hps'. rewrite <-(la_name _ _ _ _ _ _ _ Hp), Hf in Hps'.
    lia.
Qed.

Lemma prev_states_lookup s name st :
  NoDup (ld_name <$> ps_plugins s) →
  prev_states (Some s) !! name = Some st ↔
    ∃ p, p ∈ ps_plugins s ∧ ld_name p = name ∧ ld_state p = st.
Proof.
  unfold prev_states. induction (ps_plugins s) as [|p ps IH] using rev_ind.
  { intros _. simpl. rewrite lookup_empty. set_solver. }
  rewrite fmap_app, NoDup_app. intros (Hd & Hx & _). rewrite foldl_app. simpl.
  setoid_rewrite elem_of_app. setoid_rewrite list_elem_of_singleton.
  destruct (decide (ld_name p = name)) as [<-|Hn].
  - rewrite lookup_insert_eq. split; [intros [= <-]; exists p; auto|].
    intros (q & [Hq| ->] & Hqn & <-); [|done]. exfalso. apply (Hx (ld_name p)).
    + rewrite <-Hqn. by apply list_elem_of_fmap_2.
    + by left.
  - rewrite lookup_insert_ne, IH by done. naive_solver.
Qed.

Lemma nodup_fmap_inj {A B} (f : A → B) l x y :
  NoDup (f <$> l) → x ∈ l → y ∈ l → f x = f y → x = y.
Proof.
  intros Hd Hx Hy He. apply list_elem_of_lookup in Hx as [i Hi], Hy as [j Hj].
  assert (i = j) as ->; [|congruence].
  eapply (NoDup_lookup (f <$> l)); [done| |]; rewrite list_lookup_fmap.
  - by rewrite Hi.
  - by rewrite Hj, He.
Qed.

Lemma forall2_own {A B} (f : A → B) (R : B → A → Prop) l x :
  Forall2 R (f <$> l) l → x ∈ l → R (f x) x.
Proof.
  rewrite Forall2_fmap_l. induction l as [|y l IH]; [by intros _ ?%elem_of_nil|].
  intros H Hin. inversion H; subst. apply elem_of_cons in Hin as [->|?]; [done|by apply IH].
Qed.

(** * One build *)

(** [s'] is the build on [s], with [w'] the states afterwards. *)
Record built (dir : option (list (option DirEntry))) (prepare : Prepare) (cfg : Config)
    (w : States) (s : PluginSnapshot) (w' : States) (s' : PluginSnapshot) : Prop := {
  bt_generation : ps_generation s' = wrap 64 (ps_generation s + 1);
  bt_names : ∃ files, discover dir = Ok files ∧
    ld_name <$> ps_plugins s' =
      filter (λ n, n ∈ files) (pl_order (cf_plugins cfg)) ++
      filter (λ f, f ∉ pl_order (cf_plugins cfg)) files;
  bt_ok : plugins_ok w' (ps_plugins s');
  bt_carried : ∀ p q, p ∈ ps_plugins s' → q ∈ ps_plugins s → ld_name q = ld_name p →
    ld_state p = ld_state q;
  bt_fresh : ∀ p, p ∈ ps_plugins s' → ld_name p ∉ ld_name <$> ps_plugins s →
    (sto_next w ≤ ld_state p)%nat ∧ sto_map w' !! ld_state p = Some (HostState.new (ld_name p));
  bt_loaded : ∀ p, p ∈ ps_plugins s' →
    prepare (ld_name p) = Ok (ld_module p, ld_has_dealloc p) ∧
    ld_settings p = default ∅ (pl_settings (cf_plugins cfg) !! ld_name p) ∧
    ld_timeout p = pl_timeout_ms (cf_plugins cfg) ∧
    ld_fail_policy p = pl_on_failure (cf_plugins cfg) ∧
    ld_memory_mb p = pl_max_memory_mb (cf_plugins cfg);
}.

(** Loading onto a good snapshot keeps names and states apart. *)
Lemma loaded_ok prepare cfg w w' s names ps :
  plugins_ok w (ps_plugins s) → NoDup names → grows w w' →
  Forall2 (λ name p, loaded_as prepare cfg (prev_states (Some s)) w name p w') names ps →
  NoDup (ld_state <$> filter (λ p, prev_states (Some s) !! ld_name p = None) ps) →
  ld_name <$> ps = names ∧ plugins_ok w' ps.
Proof.
  intros [Hn Hs Ho] Hnd [Hgn Hgm] Hf Hfresh.
  assert (ld_name <$> ps = names) as <-.
  { clear -Hf. induction Hf as [|n p ns ps Hp Hf IH]; [done|].
    rewrite fmap_cons. f_equal; [by apply la_name in Hp|done]. }
  split; [done|].
  assert (∀ p, p ∈ ps → loaded_as prepare cfg (prev_states (Some s)) w (ld_name p) p w') as Hp.
  { intros p Hp. by apply (forall2_own ld_name _ ps p Hf). }
  split; [done| |].
  - apply NoDup_fmap_2_strong; [|by eapply NoDup_fmap_1]. intros p q Hin Hin' Heq.
    pose proof (la_state _ _ _ _ _ _ _ (Hp p Hin)) as Hsp.
    pose proof (la_state _ _ _ _ _ _ _ (Hp q Hin')) as Hsq.
    destruct (prev_states (Some s) !! ld_name p) as [sp|] eqn:Ep,
      (prev_states (Some s) !! ld_name q) as [sq|] eqn:Eq.
    + apply prev_states_lookup in Ep as (p0 & Hp0 & Hpn & Hpst), Eq as (q0 & Hq0 & Hqn & Hqst); [|done..].
      assert (p0 = q0) as -> by (apply (nodup_fmap_inj ld_state (ps_plugins s)); [done..|congruence]).
      apply (nodup_fmap_inj ld_name ps); [done..|congruence].
    + apply prev_states_lookup in Ep as (p0 & Hp0 & Hpn & Hpst); [|done].
      destruct (Ho p0 Hp0) as [? _]. lia.
    + apply prev_states_lookup in Eq as (q0 & Hq0 & Hqn & Hqst); [|done].
      destruct (Ho q0 Hq0) as [? _]. lia.
    + eapply nodup_fmap_inj; [exact Hfresh|by apply list_elem_of_filter..|done].
  - intros p Hin. pose proof (la_state _ _ _ _ _ _ _ (Hp p Hin)) as Hsp.
    destruct (prev_states (Some s) !! ld_name p) as [sp|] eqn:Ep.
    + apply prev_states_lookup in Ep as (p0 & Hp0 & Hpn & <-); [|done].
      destruct (Ho p0 Hp0) as [? (st & Hst & ?)]. rewrite Hsp. split; [lia|].
      exists st. split; [by rewrite Hgm|congruence].
    + destruct Hsp as [? Hst]. split; [lia|]. by eexists.
Qed.

Lemma build_spec dir prepare cfg w s :
  plugins_ok w (ps_plugins s) → NoDup (pl_order (cf_plugins cfg)) → distinct_entries dir →
  match build_snapshot dir prepare cfg w s with
  | (w', Ok (s', g)) => built dir prepare cfg w s w' s' ∧ g = ps_generation s'
  | _ => True
  end.
Proof.
  intros Hok Hord Hdir. unfold build_snapshot. destruct (discover dir) as [files|] eqn:Ed; [|done].
  destruct (discover_spec dir files Ed Hdir) as (Hf & _ & _).
  destruct (order_plugins_spec files (pl_order (cf_plugins cfg)) Hf Hord) as (Hnd & _ & Heq).
  set (names := order_plugins _ _) in *.
  pose proof (load_plugins_spec prepare cfg (prev_states (Some s)) names w) as Hl.
  destruct (load_plugins _ _ _ _ _) as [w' [ps|]]; [|done]. destruct Hl as (Hg & Hps & Hfr).
  destruct (loaded_ok prepare cfg w w' s names ps Hok Hnd Hg Hps Hfr) as [Hnames Hok'].
  assert (∀ p, p ∈ ps → loaded_as prepare cfg (prev_states (Some s)) w (ld_name p) p w') as Hp.
  { intros p Hp. rewrite <-Hnames in Hps. by apply (forall2_own ld_name _ ps p Hps). }
  split; [|done]. split; simpl; [done| |done| | |].
  - exists files. split; [done|]. congruence.
  - intros p q Hin Hq He. pose proof (la_state _ _ _ _ _ _ _ (Hp p Hin)) as Hs.
    rewrite (proj2 (prev_states_lookup s (ld_name p) (ld_state q) (po_names _ _ Hok))) in Hs; [done|].
    by exists q.
  - intros p Hin Hn. pose proof (la_state _ _ _ _ _ _ _ (Hp p Hin)) as Hs.
    destruct (prev_states (Some s) !! ld_name p) as [sp|] eqn:Ep; [|by destruct Hs as [[? _] ?]].
    apply prev_states_lookup in Ep as (q & Hq & Hqn & _); [|by apply po_names in Hok].
    exfalso. apply Hn. rewrite <-Hqn. by apply list_elem_of_fmap_2.
  - intros p Hin. by destruct (Hp p Hin).
Qed.

Lemma build_grows dir prepare cfg w s : grows w (build_snapshot dir prepare cfg w s).1.
Proof.
  unfold build_snapshot. destruct (discover dir) as [files|]; [|done].
  pose proof (load_plugins_spec prepare cfg (prev_states (Some s))
    (order_plugins files (pl_order (cf_plugins cfg))) w) as Hl.
  destruct (load_plugins _ _ _ _ _) as [w' [ps|]]; simpl; [by destruct Hl|done].
Qed.

(** Unconditionally: success reports the generation it published, failure leaves
    the registry to what others published, and states are only added. *)
Lemma reload_outcome dir prepare others cfg w c :
  let '(w', r, c') := reload dir prepare others cfg w c in
  grows w w' ∧
  match r with
  | Ok g => g = ps_generation (as_value c')
  | Err _ => ∃ l, c' = foldl store c l ∧ ∀ s, s ∈ l → ∃ i, s ∈ others i
  end.
Proof.
  unfold reload.
  pose proof (cas_loop_spec (λ i w s, build_snapshot (dir i) (prepare i) cfg w s) grows
    (λ i w s, build_grows (dir i) (prepare i) cfg w s) others RELOAD_ATTEMPTS 0 w c) as Hs.
  destruct (cas_loop _ _ _ _ _ _) as [[w' r] c']. destruct Hs as (n & w1 & Hn & Hg & Hs).
  assert (∀ m s, s ∈ stored others 0 m → ∃ i, s ∈ others i) as Hst.
  { intros m s Hx. unfold stored in Hx. apply list_elem_of_In, in_concat in Hx as (l' & Hl & Hx).
    apply in_map_iff in Hl as (i & <- & _). exists i. by apply list_elem_of_In. }
  cbn zeta in Hs. destruct r as [[g|e]|]; simpl.
  - destruct Hs as (_ & _ & s & Hb & ->).
    pose proof (build_grows (dir n) (prepare n) cfg w1 (as_value (foldl store c (stored others 0 n)))) as Hg1.
    simpl in Hb. rewrite Hb in Hg1. split; [by etrans|]. simpl. unfold build_snapshot in Hb.
    destruct (discover _); [|done]. destruct (load_plugins _ _ _ _ _) as [? [?|]]; [|done].
    by injection Hb as _ <- <-.
  - destruct Hs as (_ & Hb & ->).
    pose proof (build_grows (dir n) (prepare n) cfg w1 (as_value (foldl store c (stored others 0 n)))) as Hg1.
    simpl in Hb. rewrite Hb in Hg1. split; [by etrans|]. exists (stored others 0 n ++ others n).
    rewrite foldl_app. split; [done|]. intros s [?|?]%elem_of_app; [by eapply Hst|by exists n].
  - destruct Hs as (-> & -> & -> & _). split; [done|]. exists (stored others 0 RELOAD_ATTEMPTS).
    split; [done|]. by apply Hst.
Qed.

(** * Theorems *)

(** C19. A plugin reload is atomic and keeps shared state.  With an order list
    that names no plugin twice, whatever concurrent reloads publish meanwhile, a
    successful reload publishes once, on top of the snapshot it was built from:
    the next generation, the plugins of the order list that exist followed by the
    others alphabetically, each with the module and settings just read; a plugin
    of the previous snapshot keeps the very same shared state, a new one gets a
    fresh state of its own, no two share one.  A failed or conflicting reload
    publishes nothing, and no existing state is ever changed. *)
Theorem registry_reload_exact (dir : nat → option (list (option DirEntry))) (prepare : nat → Prepare)
    (others : nat → list PluginSnapshot) (cfg : Config) (w : States) (c : ArcSwap PluginSnapshot) :
  plugins_ok w (ps_plugins (as_value c)) →
  (∀ i s, s ∈ others i → plugins_ok w (ps_plugins s)) →
  NoDup (pl_order (cf_plugins cfg)) →
  (∀ i, distinct_entries (dir i)) →
  let '(w', r, c') := reload dir prepare others cfg w c in
  grows w w' ∧ ∃ n, (n ≤ RELOAD_ATTEMPTS)%nat ∧
    let seen := foldl store c (stored others 0 n) in
    match r with
    | Ok g => others n = [] ∧ ∃ w1 s, grows w w1 ∧ c' = store seen s ∧ g = ps_generation s ∧
        built (dir n) (prepare n) cfg w1 (as_value seen) w' s
    | Err _ => c' = seen ∨ c' = foldl store seen (others n)
    end.
Proof.
  intros Hc Ho Hord Hdir. unfold reload.
  pose proof (cas_loop_spec (λ i w s, build_snapshot (dir i) (prepare i) cfg w s) grows
    (λ i w s, build_grows (dir i) (prepare i) cfg w s) others RELOAD_ATTEMPTS 0 w c) as Hs.
  destruct (cas_loop _ _ _ _ _ _) as [[w' r] c']. destruct Hs as (n & w1 & Hn & Hg & Hs).
  assert (∀ m, plugins_ok w (ps_plugins (as_value (foldl store c (stored others 0 m))))) as Hseen.
  { intros m. destruct (stored others 0 m) as [|x l _] eqn:El using rev_ind; [done|].
    rewrite foldl_app. simpl. assert (x ∈ stored others 0 m) as Hx by (rewrite El; set_solver).
    unfold stored in Hx. apply list_elem_of_In, in_concat in Hx as (l' & Hl & Hx).
    apply in_map_iff in Hl as (i & <- & _). apply (Ho i). by apply list_elem_of_In. }
  cbn zeta in Hs. destruct r as [[g|e]|]; simpl.
  - destruct Hs as (Hlt & Hon & s & Hb & ->).
    pose proof (build_grows (dir n) (prepare n) cfg w1 (as_value (foldl store c (stored others 0 n)))) as Hg1.
    pose proof (build_spec (dir n) (prepare n) cfg w1 (as_value (foldl store c (stored others 0 n)))) as Hbs.
    simpl in Hb. rewrite Hb in Hg1, Hbs. split; [by etrans|]. exists n. split; [done|]. split; [done|].
    destruct Hbs as [Hbs ->]; [by eapply plugins_ok_grows|done|done|]. by exists w1, s.
  - destruct Hs as (Hlt & Hb & ->).
    pose proof (build_grows (dir n) (prepare n) cfg w1 (as_value (foldl store c (stored others 0 n)))) as Hg1.
    simpl in Hb. rewrite Hb in Hg1. split; [by etrans|]. exists n. split; [done|]. by right.
  - destruct Hs as (-> & -> & -> & _). split; [done|]. exists RELOAD_ATTEMPTS. split; [done|]. by left.
Qed.

End registry.

(** A pool slot is whole pages, below the 4 GiB reservation, and holds the
    configured maximum whenever that fits. *)
Lemma memory_slot_bytes_ok mb :
  in_u 32 mb →
  (WASM_PAGE | memory_slot_bytes mb) ∧ memory_slot_bytes mb <= MAX_SLOT ∧
  (mb < 4096 → mb * (1024 * 1024) <= memory_slot_bytes mb).
Proof.
  intros Hm. assert (0 <= mb < 4294967296) as Hr by exact Hm.
  assert (memory_slot_bytes mb = Z.min (mb * 16 * 65536) (65535 * 65536)) as ->.
  { unfold memory_slot_bytes, sat_mul, MAX_SLOT, WASM_PAGE.
    rewrite (Z.min_l (mb * (1024 * 1024))) by (change (umax 64) with 18446744073709551615; lia).
    rewrite wrap_small by (unfold in_u; change (2 ^ 64) with 18446744073709551616; lia).
    replace (mb * (1024 * 1024) + 64 * 1024 - 1) with (65535 + (mb * 16) * (64 * 1024)) by lia.
    rewrite Z.div_add by lia. change (65535 / (64 * 1024)) with 0. f_equal. }
  change MAX_SLOT with (65535 * 65536). change WASM_PAGE with 65536.
  split_and!; [|lia..].
  destruct (Z.min_spec (mb * 16 * 65536) (65535 * 65536)) as [[_ ->]|[_ ->]]; by eexists.
Qed.

(** * A concrete registry *)

Definition ex_plugins (order : list string) : PluginsConfig := {|
  pl_dir := bs "plugins"; pl_order := bs <$> order; pl_timeout_ms := default_timeout_ms;
  pl_max_memory_mb := default_max_memory_mb; pl_on_failure := FailOpen; pl_settings := ∅;
  pl_instance_pool_size := default_instance_pool_size; pl_log_on_no_route := true;
|}.

Definition ex_config (order : list string) : Config := {|
  cf_server := {| sv_listen := loopback 8080; sv_log_level := default_log_level;
                  sv_log_file := None; sv_http1_only := false; sv_listeners := [];
                  sv_shutdown_grace_ms := default_shutdown_grace_ms |};
  cf_admin := {| ad_token := None |}; cf_plugins := ex_plugins order; cf_dynamic := None;
  cf_upstreams := []; cf_routes := []; cf_ingress := default_ingress;
  cf_egress := {| eg_mode := Direct; eg_gateway := [] |};
|}.

Definition ex_entry (name : string) (is_file : bool) : option DirEntry :=
  Some {| de_file_name := bs name; de_is_file := is_file |}.

Definition ex_dir : option (list (option DirEntry)) :=
  Some [ex_entry "b.wasm" true; ex_entry "notes.txt" true; None; ex_entry "a.wasm" true;
        ex_entry "c.wasm" false].

Definition ex_prepare (name : bytes) : result RegistryError (() * bool) := Ok ((), true).

(** Booted with [b] alone; [a] is there at the reload. *)
Definition ex_boot : States * PluginSnapshot :=
  match bootstrap (Some [ex_entry "b.wasm" true]) ex_prepare (ex_config [])
          {| sto_next := 0; sto_map := ∅ |} with
  | (w, Ok s) => (w, s)
  | (w, Err _) => (w, {| ps_generation := 0; ps_plugins := [] |})
  end.

Lemma registry_reload_exact_witness :
  let '(w', r, c') := reload (λ _, ex_dir) (λ _, ex_prepare) (λ _, []) (ex_config ["b"%string])
    ex_boot.1 {| as_version := 0; as_value := ex_boot.2 |} in
  r = Ok 2 ∧ map ld_name (ps_plugins (as_value c')) = [bs "b"; bs "a"] ∧
  map ld_state (ps_plugins (as_value c')) = [0%nat; 1%nat] ∧ grows ex_boot.1 w'.
Proof.
  pose proof (registry_reload_exact (λ _, ex_dir) (λ _, ex_prepare) (λ _, [])
    (ex_config ["b"%string]) ex_boot.1 {| as_version := 0; as_value := ex_boot.2 |}) as H.
  destruct (reload _ _ _ _ _ _) as [[w' r] c'] eqn:E. destruct H as [Hg _].
  - split; [vm_compute; repeat constructor; set_solver..|].
    intros p Hp. vm_compute in Hp. apply list_elem_of_singleton in Hp as ->.
    split; [vm_compute; lia|]. eexists. split; vm_compute; reflexivity.
  - by intros ? ? ?%elem_of_nil.
  - apply NoDup_singleton.
  - intros i. apply (bool_decide_unpack (NoDup _)). vm_compute. reflexivity.
  - vm_compute in E. injection E as <- <- <-. split_and!; [reflexivity..|exact Hg].
Defined.
