(* ===== verification/Abi.v ===== *)
(** The byte-level ABI between gateway and plugin: the TLV codec of the host
    ([openrusty-wasm/src/abi.rs]) and of the guest SDK ([openrusty-sdk/src/host.rs]),
    guest-memory access ([openrusty-wasm/src/mem.rs]) and the SDK's two-phase
    read ([openrusty-sdk/src/ffi.rs]).

    A guest linear memory belongs to wasmtime: it is an interface with the
    documented bounds-checked access laws, and a byte-list instance. *)

From S2P Require Import Prelude Text.
From Stdlib Require Import ZArith Lia.
From stdpp Require Import options.
Local Open Scope Z_scope.

(** * TLV lists *)

(** [u32::to_le_bytes] and [u32::from_le_bytes]. *)
Definition to_le_bytes (z : Z) : bytes :=
  map (λ i, byte_of_Z (z / 2 ^ (8 * i))) [0; 1; 2; 3].

Definition from_le_bytes (l : bytes) : Z :=
  match l with
  | [b0; b1; b2; b3] => bz b0 + bz b1 * 2 ^ 8 + bz b2 * 2 ^ 16 + bz b3 * 2 ^ 24
  | _ => 0
  end.

Definition encode_item (item : bytes) : bytes :=
  to_le_bytes (wrap 32 (Z.of_nat (length item))) ++ item.

Definition encode_tlv (items : list bytes) : bytes := concat (map encode_item items).

(** Host decoder: any malformed input is rejected.  [fuel] bounds the number of
    items; each consumes at least four bytes. *)
Fixpoint decode_loop (fuel : nat) (buf : bytes) : option (list bytes) :=
  match buf, fuel with
  | [], _ => Some []
  | _, O => None
  | _, S fuel =>
      if (length buf <? 4)%nat then None
      else
        let len := Z.to_nat (from_le_bytes (take 4 buf)) in
        let rest := drop 4 buf in
        if (length rest <? len)%nat then None
        else
          items ← decode_loop fuel (drop len rest);
          Some (take len rest :: items)
  end.

Definition decode_tlv (buf : bytes) : option (list bytes) := decode_loop (length buf) buf.

Definition encode_kv_pair (key value : bytes) : bytes := encode_tlv [key; value].

(** Guest decoder: stops at the first malformed item. *)
Fixpoint parse_loop (fuel : nat) (data : bytes) : list bytes :=
  match fuel with
  | O => []
  | S fuel =>
      if (length data <? 4)%nat then []
      else
        let len := Z.to_nat (from_le_bytes (take 4 data)) in
        let rest := drop 4 data in
        if (length rest <? len)%nat then []
        else take len rest :: parse_loop fuel (drop len rest)
  end.

Definition parse_tlv (data : bytes) : list bytes := parse_loop (length data) data.

Definition kv_pair_from_tlv (tlv : bytes) : bytes * bytes :=
  let items := parse_tlv tlv in
  (default [] (items !! 0%nat), default [] (items !! 1%nat)).

Record PeerInfo := { pi_name : bytes; pi_addr : bytes; pi_healthy : bool }.

Definition peer_from_tlv (tlv : bytes) : PeerInfo :=
  let items := parse_tlv tlv in
  let text i := from_utf8_lossy (default [] (items !! i)) in
  {| pi_name := text 0%nat; pi_addr := text 1%nat;
     pi_healthy := bool_decide (items !! 2%nat = Some (bs "1")) |}.

Definition u32_len (b : bytes) : Prop := Z.of_nat (length b) < 2 ^ 32.

Lemma to_le_bytes_length z : length (to_le_bytes z) = 4%nat.
Proof. done. Qed.

Lemma le_bytes_roundtrip z : 0 <= z < 2 ^ 32 → from_le_bytes (to_le_bytes z) = z.
Proof.
  intros Hz. unfold to_le_bytes, from_le_bytes. cbn [map]. rewrite !bz_of_Z.
  change (8 * 0) with 0. change (8 * 1) with 8. change (8 * 2) with 16. change (8 * 3) with 24.
  rewrite Z.pow_0_r, Z.div_1_r.
  assert (z / 2 ^ 16 = z / 2 ^ 8 / 256) as E2 by (rewrite Z.div_div by lia; f_equal).
  assert (z / 2 ^ 24 = z / 2 ^ 8 / 256 / 256) as E3 by (rewrite !Z.div_div by lia; f_equal).
  rewrite E2, E3. change (2 ^ 8) with 256 in *.
  pose proof (Z.div_mod z 256 ltac:(lia)). pose proof (Z.mod_pos_bound z 256 ltac:(lia)).
  pose proof (Z.div_mod (z / 256) 256 ltac:(lia)).
  pose proof (Z.mod_pos_bound (z / 256) 256 ltac:(lia)).
  pose proof (Z.div_mod (z / 256 / 256) 256 ltac:(lia)).
  pose proof (Z.mod_pos_bound (z / 256 / 256) 256 ltac:(lia)).
  assert (0 <= z / 256 / 256 / 256 < 256).
  { rewrite !Z.div_div by lia. split; [apply Z.div_pos; lia|apply Z.div_lt_upper_bound; lia]. }
  rewrite (Z.mod_small (z / 256 / 256 / 256)) in * by lia. lia.
Qed.

Lemma from_le_bytes_range l : 0 <= from_le_bytes l < 2 ^ 32.
Proof.
  unfold from_le_bytes. destruct l as [|b0 [|b1 [|b2 [|b3 [|]]]]]; try lia.
  pose proof (bz_range b0). pose proof (bz_range b1). pose proof (bz_range b2).
  pose proof (bz_range b3). lia.
Qed.

Lemma le_bytes_inverse l : length l = 4%nat → to_le_bytes (from_le_bytes l) = l.
Proof.
  destruct l as [|b0 [|b1 [|b2 [|b3 [|]]]]]; try done. intros _.
  unfold to_le_bytes, from_le_bytes. cbn [map].
  pose proof (bz_range b0). pose proof (bz_range b1). pose proof (bz_range b2).
  pose proof (bz_range b3).
  set (z := bz b0 + bz b1 * 2 ^ 8 + bz b2 * 2 ^ 16 + bz b3 * 2 ^ 24).
  assert (∀ i b, (z / 2 ^ (8 * i)) mod 256 = bz b → byte_of_Z (z / 2 ^ (8 * i)) = b) as Hb.
  { intros i b Hz. apply bz_inj. by rewrite bz_of_Z. }
  repeat f_equal; apply Hb; unfold z.
  - change (8 * 0) with 0. rewrite Z.pow_0_r, Z.div_1_r.
    replace (bz b0 + _ + _ + _) with (bz b0 + (bz b1 + bz b2 * 2 ^ 8 + bz b3 * 2 ^ 16) * 256) by lia.
    rewrite Z.mod_add by lia. by apply Z.mod_small.
  - change (8 * 1) with 8.
    replace (bz b0 + _ + _ + _) with (bz b0 + (bz b1 + (bz b2 + bz b3 * 256) * 256) * 2 ^ 8) by lia.
    rewrite Z.div_add, Z.div_small, Z.add_0_l, Z.mod_add by lia. by apply Z.mod_small.
  - change (8 * 2) with 16.
    replace (bz b0 + _ + _ + _) with ((bz b0 + bz b1 * 2 ^ 8) + (bz b2 + bz b3 * 256) * 2 ^ 16) by lia.
    rewrite Z.div_add, Z.div_small, Z.add_0_l, Z.mod_add by lia. by apply Z.mod_small.
  - change (8 * 3) with 24.
    replace (bz b0 + _ + _ + _) with ((bz b0 + bz b1 * 2 ^ 8 + bz b2 * 2 ^ 16) + bz b3 * 2 ^ 24) by lia.
    rewrite Z.div_add, Z.div_small, Z.add_0_l by lia. by apply Z.mod_small.
Qed.

Lemma encode_tlv_cons x items : encode_tlv (x :: items) = encode_item x ++ encode_tlv items.
Proof. done. Qed.

(** Reading one encoded item off the front of a buffer. *)
Lemma encode_item_split x rest :
  u32_len x →
  let buf := encode_item x ++ rest in
  (length buf <? 4)%nat = false ∧
  Z.to_nat (from_le_bytes (take 4 buf)) = length x ∧
  drop 4 buf = x ++ rest ∧ take (length x) (x ++ rest) = x ∧ drop (length x) (x ++ rest) = rest.
Proof.
  intros Hx buf. unfold u32_len in Hx.
  assert (buf = to_le_bytes (Z.of_nat (length x)) ++ (x ++ rest)) as ->.
  { unfold buf, encode_item. rewrite wrap_small by (unfold in_u; lia). by rewrite <-app_assoc. }
  split_and!.
  - apply Nat.ltb_ge. rewrite length_app, to_le_bytes_length. lia.
  - rewrite take_app_length' by done. rewrite le_bytes_roundtrip by lia. lia.
  - by rewrite drop_app_length' by done.
  - by rewrite take_app_length.
  - by rewrite drop_app_length.
Qed.

Lemma encode_item_length x : (4 ≤ length (encode_item x))%nat.
Proof. unfold encode_item. rewrite length_app, to_le_bytes_length. lia. Qed.

Lemma decode_loop_encode fuel items :
  Forall u32_len items → (length (encode_tlv items) ≤ fuel)%nat →
  decode_loop fuel (encode_tlv items) = Some items.
Proof.
  intros H. revert fuel. induction H as [|x items Hx H IH]; intros fuel Hf; [by destruct fuel|].
  rewrite encode_tlv_cons in *. pose proof (encode_item_length x). rewrite length_app in Hf.
  destruct (encode_item_split x (encode_tlv items) Hx) as (H1 & H2 & H3 & H4 & H5).
  destruct fuel as [|fuel]; [lia|].
  destruct (encode_item x ++ encode_tlv items) as [|b buf] eqn:E; [done|].
  cbn [decode_loop]. rewrite H1, H2, H3, H4, H5.
  rewrite (proj2 (Nat.ltb_ge _ _)) by (rewrite length_app; lia).
  rewrite (IH fuel) by lia. done.
Qed.

Lemma parse_loop_encode fuel items :
  Forall u32_len items → (length (encode_tlv items) ≤ fuel)%nat →
  parse_loop fuel (encode_tlv items) = items.
Proof.
  intros H. revert fuel. induction H as [|x items Hx H IH]; intros fuel Hf; [by destruct fuel|].
  rewrite encode_tlv_cons in *. pose proof (encode_item_length x). rewrite length_app in Hf.
  destruct (encode_item_split x (encode_tlv items) Hx) as (H1 & H2 & H3 & H4 & H5).
  destruct fuel as [|fuel]; [lia|].
  cbn [parse_loop]. rewrite H1, H2, H3, H4, H5.
  rewrite (proj2 (Nat.ltb_ge _ _)) by (rewrite length_app; lia).
  by rewrite (IH fuel) by lia.
Qed.

Lemma decode_loop_canonical fuel buf items :
  decode_loop fuel buf = Some items → encode_tlv items = buf ∧ Forall u32_len items.
Proof.
  revert buf items. induction fuel as [|fuel IH]; intros buf items H.
  { destruct buf; simplify_eq/=. by split. }
  destruct buf as [|b buf]; [simplify_eq/=; by split|].
  cbn [decode_loop] in H.
  destruct (Nat.ltb_spec (length (b :: buf)) 4) as [|Hl4]; [done|].
  set (l4 := take 4 (b :: buf)) in *. set (rest := drop 4 (b :: buf)) in *.
  assert (l4 ++ rest = b :: buf) as Hsplit by apply take_drop.
  assert (length l4 = 4%nat) as Hl by (unfold l4; rewrite length_take; lia).
  clearbody l4 rest.
  destruct (Nat.ltb_spec (length rest) (Z.to_nat (from_le_bytes l4))) as [|Hlen]; [done|].
  apply bind_Some in H as (items' & Hd & H). injection H as <-.
  destruct (IH _ _ Hd) as [He Hf]. pose proof (from_le_bytes_range l4).
  assert (length (take (Z.to_nat (from_le_bytes l4)) rest) = Z.to_nat (from_le_bytes l4)) as Htl
    by (rewrite length_take; lia).
  split.
  - rewrite encode_tlv_cons, He. unfold encode_item. rewrite Htl.
    rewrite Z2Nat.id by lia. rewrite wrap_small by (unfold in_u; lia).
    rewrite le_bytes_inverse by done. by rewrite <-app_assoc, take_drop.
  - constructor; [|done]. unfold u32_len. rewrite Htl. lia.
Qed.

(** C16. The TLV codec is a bijection between item lists and well-formed buffers:
    host decoder and guest decoder both recover every encoded list, and the
    host decoder accepts a buffer only when it is the encoding of the list it
    returns (no trailing bytes, no truncated item, no second spelling). *)
Theorem tlv_codec_exact (items : list bytes) (buf : bytes) :
  (Forall u32_len items →
     decode_tlv (encode_tlv items) = Some items ∧ parse_tlv (encode_tlv items) = items) ∧
  (decode_tlv buf = Some items ↔ buf = encode_tlv items ∧ Forall u32_len items).
Proof.
  split_and!.
  - intros H. split; [by apply decode_loop_encode|by apply parse_loop_encode].
  - split.
    + intros H. destruct (decode_loop_canonical _ _ _ H). done.
    + intros [-> H]. by apply decode_loop_encode.
Qed.

(** * Guest memory *)

(** What the host relies on in a wasmtime [Memory]: a size, and reads and
    writes that succeed exactly inside it. *)
Class GuestMemory (M : Type) := {
  mem_size : M → nat;
  mem_read : M → nat → nat → option bytes;
  mem_write : M → nat → bytes → option M;
}.

Class GuestMemoryLaws (M : Type) `{GuestMemory M} : Prop := {
  mem_read_some : ∀ m p n b, mem_read m p n = Some b → (p + n ≤ mem_size m)%nat ∧ length b = n;
  mem_read_in : ∀ m p n, (p + n ≤ mem_size m)%nat → is_Some (mem_read m p n);
  mem_read_prefix : ∀ m p n k b, mem_read m p n = Some b → (k ≤ n)%nat →
    mem_read m p k = Some (take k b);
  mem_write_in : ∀ m p b, (p + length b ≤ mem_size m)%nat → is_Some (mem_write m p b);
  mem_write_some : ∀ m p b m', mem_write m p b = Some m' →
    (p + length b ≤ mem_size m)%nat ∧ mem_size m' = mem_size m ∧
    mem_read m' p (length b) = Some b ∧
    ∀ q n, (q + n ≤ p ∨ p + length b ≤ q)%nat → mem_read m' q n = mem_read m q n;
}.

(** A linear memory as a byte list. *)
#[global] Instance list_memory : GuestMemory bytes := {
  mem_size := length;
  mem_read m p n := if decide (p + n ≤ length m)%nat then Some (take n (drop p m)) else None;
  mem_write m p b :=
    if decide (p + length b ≤ length m)%nat
    then Some (take p m ++ b ++ drop (p + length b) m) else None;
}.

#[global] Instance list_memory_laws : GuestMemoryLaws bytes.
Proof.
  split; unfold mem_read, mem_write, mem_size; simpl.
  - intros m p n b H. case_decide; [|done]. injection H as <-.
    rewrite length_take, length_drop. lia.
  - intros m p n H. rewrite decide_True by done. by eexists.
  - intros m p n k b H Hk. case_decide; [|done]. injection H as <-.
    rewrite decide_True by lia. by rewrite take_take, Nat.min_l.
  - intros m p b H. rewrite decide_True by done. by eexists.
  - intros m p b m' H. case_decide as Hd; [|done]. injection H as <-.
    assert (length (take p m) = p) as Hp by (rewrite length_take; lia).
    assert (length (take p m ++ b ++ drop (p + length b) m) = length m) as Hl.
    { rewrite !length_app, Hp, length_drop. lia. }
    split_and!; [done|done| |].
    + rewrite Hl, decide_True by done. rewrite drop_app_length' by done.
      by rewrite take_app_length' by done.
    + intros q n Hq. rewrite Hl. destruct (decide (q + n ≤ length m)%nat) as [Hn|]; [|done].
      f_equal. apply list_eq. intros i. destruct (decide (i < n)%nat) as [Hi|Hi]; cycle 1.
      { rewrite !lookup_ge_None_2; [done| |]; rewrite length_take; lia. }
      rewrite !lookup_take_lt, !lookup_drop by done. destruct Hq as [Hq|Hq].
      * rewrite lookup_app_l by lia. by rewrite lookup_take_lt by lia.
      * rewrite !lookup_app_r by lia. rewrite lookup_drop. f_equal. lia.
Qed.

Definition i32_max : Z := 2 ^ 31 - 1.

Section memory.
Context `{GuestMemory M}.

(** [read_guest]; the memory handle always exists once instantiated. *)
Definition read_guest (m : M) (ptr len : Z) : option bytes :=
  if (ptr <? 0) || (len <? 0) then None
  else
    let len := Z.to_nat len in
    if (mem_size m <? len)%nat then None
    else mem_read m (Z.to_nat ptr) len.

Definition read_guest_str (m : M) (ptr len : Z) : option bytes :=
  from_utf8_lossy <$> read_guest m ptr len.

(** [write_out]: the bytes written, or the negated required length. *)
Definition write_out (out_ptr out_cap : Z) (payload : bytes) (m : M) : Z * M :=
  if bool_decide (payload = []) then (0, m)
  else
    let len := Z.of_nat (length payload) in
    let required := - Z.min len i32_max in
    if (out_ptr <? 0) || (out_cap <? 0) || (out_cap <? len) then (required, m)
    else match mem_write m (Z.to_nat out_ptr) payload with
         | None => (required, m)
         | Some m => (to_signed 32 len, m)
         end.

(** * The guest's two-phase read *)

Definition HEAP_SIZE : nat := 1024 * 1024.
Definition MAX_READ_LEN : nat := HEAP_SIZE.
Definition START_LEN : nat := 256.

(** One buffer per attempt: [place n] is where the guest's allocator puts a
    buffer of [n] bytes; the buffer's contents after the call are read back from
    memory.  [read] is a host import of type [(out_ptr, out_cap) -> i32]. *)
Fixpoint two_phase_loop (attempts : nat) (place : nat → nat) (read : Z → Z → M → Z * M)
    (cap : nat) (m : M) : option bytes * M :=
  match attempts with
  | O => (None, m)
  | S attempts =>
      let '(ret, m) := read (Z.of_nat (place cap)) (Z.of_nat cap) m in
      if 0 <=? ret then
        (take (Z.to_nat ret) <$> mem_read m (place cap) cap, m)
      else
        let need := Z.to_nat (- ret) in
        if (need <=? cap)%nat || (MAX_READ_LEN <? need)%nat then (None, m)
        else two_phase_loop attempts place read need m
  end.

Definition read_two_phase (place : nat → nat) (read : Z → Z → M → Z * M) (m : M)
    : option bytes * M :=
  two_phase_loop 3 place read START_LEN m.

Context `{!GuestMemoryLaws M}.

Lemma write_out_fits ptr cap payload m :
  (length payload ≤ cap)%nat → (ptr + cap ≤ mem_size m)%nat → Z.of_nat cap < 2 ^ 31 →
  ∃ m', write_out (Z.of_nat ptr) (Z.of_nat cap) payload m = (Z.of_nat (length payload), m') ∧
    mem_size m' = mem_size m ∧ mem_read m' ptr (length payload) = Some payload ∧
    ∀ q n, (q + n ≤ ptr ∨ ptr + length payload ≤ q)%nat → mem_read m' q n = mem_read m q n.
Proof using All.
  intros Hl Hm Hc. unfold write_out. case_bool_decide as He.
  { subst payload. exists m. split_and!; try done. simpl.
    destruct (mem_read_in m ptr 0) as [b Hb]; [lia|]. rewrite Hb.
    apply mem_read_some in Hb as [_ Hb]. f_equal. by destruct b. }
  rewrite (proj2 (Z.ltb_ge (Z.of_nat ptr) 0)), (proj2 (Z.ltb_ge (Z.of_nat cap) 0)),
    (proj2 (Z.ltb_ge (Z.of_nat cap) (Z.of_nat (length payload)))) by lia.
  simpl. rewrite Nat2Z.id.
  destruct (mem_write_in m ptr payload) as [m' Hw]; [lia|]. rewrite Hw.
  apply mem_write_some in Hw as (_ & Hs & Hr & Ho). exists m'. split_and!; try done.
  rewrite to_signed_small by lia. done.
Qed.

Lemma write_out_too_small ptr cap payload m :
  (cap < length payload)%nat → Z.of_nat (length payload) < 2 ^ 31 →
  write_out (Z.of_nat ptr) (Z.of_nat cap) payload m = (- Z.of_nat (length payload), m).
Proof using.
  intros Hl Hc. unfold write_out, i32_max.
  rewrite bool_decide_eq_false_2 by (intros ->; simpl in *; lia).
  rewrite (proj2 (Z.ltb_lt (Z.of_nat cap) (Z.of_nat (length payload)))) by lia. rewrite orb_true_r.
  f_equal. lia.
Qed.

(** A successful call delivers the payload at the front of the buffer. *)
Lemma read_back p cap payload m :
  (length payload ≤ cap)%nat → (p + cap ≤ mem_size m)%nat →
  mem_read m p (length payload) = Some payload →
  take (length payload) <$> mem_read m p cap = Some payload.
Proof using All.
  intros Hl Hm Hr. destruct (mem_read_in m p cap Hm) as [a Ha].
  rewrite (mem_read_prefix _ _ _ _ _ Ha Hl) in Hr. by rewrite Ha.
Qed.

(** A read against an import that answers with one payload from this memory, and
    moves the host on by [g] when it has written it: a buffer that is too small is
    left untouched, so the second attempt meets the same memory. *)
Lemma two_phase_answers (g : M → M) (place : nat → nat) (read : Z → Z → M → Z * M) (payload : bytes) (m : M) :
  (∀ m p n, mem_read (g m) p n = mem_read m p n) →
  (∀ n, (n ≤ MAX_READ_LEN)%nat → (place n + n ≤ mem_size m)%nat) →
  Z.of_nat (length payload) < 2 ^ 31 →
  (∀ ptr cap, read ptr cap m =
     let '(r, m') := write_out ptr cap payload m in (r, if 0 <=? r then g m' else m')) →
  if decide (length payload ≤ MAX_READ_LEN)%nat
  then ∃ m' ptr cap r, read_two_phase place read m = (Some payload, g m') ∧
         write_out ptr cap payload m = (r, m')
  else read_two_phase place read m = (None, m).
Proof using All.
  intros Hg Hp Hl Hread. unfold read_two_phase, two_phase_loop.
  assert (∀ cap, (cap ≤ MAX_READ_LEN)%nat → (length payload ≤ cap)%nat →
    ∃ m', read (Z.of_nat (place cap)) (Z.of_nat cap) m = (Z.of_nat (length payload), g m') ∧
          write_out (Z.of_nat (place cap)) (Z.of_nat cap) payload m = (Z.of_nat (length payload), m') ∧
          take (length payload) <$> mem_read (g m') (place cap) cap = Some payload) as Hfit.
  { intros cap Hc Hlc. specialize (Hp cap Hc).
    assert (Z.of_nat cap < 2 ^ 31) by (unfold MAX_READ_LEN, HEAP_SIZE in Hc; lia).
    destruct (write_out_fits (place cap) cap payload m) as (m' & Hw & Hs' & Hr & _); [done|lia|done|].
    exists m'. rewrite Hread, Hw, (proj2 (Z.leb_le 0 _)), Hg by lia.
    split_and!; [done|done|]. apply read_back; [done|lia|done]. }
  destruct (decide (length payload ≤ START_LEN)%nat) as [Hsmall|Hbig].
  - destruct (Hfit START_LEN) as (m' & Hw & Hw' & Hr); [by unfold MAX_READ_LEN, HEAP_SIZE, START_LEN; lia|done|].
    rewrite decide_True by (unfold MAX_READ_LEN, HEAP_SIZE, START_LEN in *; lia).
    rewrite Hw. rewrite (proj2 (Z.leb_le 0 _)) by lia. rewrite Nat2Z.id, Hr. by eexists _, _, _, _.
  - assert (read (Z.of_nat (place START_LEN)) (Z.of_nat START_LEN) m =
      (- Z.of_nat (length payload), m)) as Hw0.
    { rewrite Hread, (write_out_too_small _ START_LEN) by (lia || exact Hl). cbv beta iota.
      by rewrite (proj2 (Z.leb_gt 0 (- Z.of_nat (length payload)))) by lia. }
    rewrite Hw0. clear Hw0.
    rewrite (proj2 (Z.leb_gt 0 _)) by lia. rewrite Z.opp_involutive, Nat2Z.id.
    rewrite (proj2 (Nat.leb_gt _ _)) by lia. simpl orb. case_decide as Hd.
    + rewrite (proj2 (Nat.ltb_ge _ _)) by done.
      destruct (Hfit (length payload)) as (m' & Hw & Hw' & Hr); [done|done|].
      rewrite Hw. rewrite (proj2 (Z.leb_le 0 _)) by lia. rewrite Nat2Z.id, Hr. by eexists _, _, _, _.
    + rewrite (proj2 (Nat.ltb_lt _ _)) by lia. done.
Qed.

(** The two-phase read protocol is lossless.  Against a host import that
    answers with [write_out payload], the guest's [read_two_phase] returns
    exactly the payload for every payload up to the 1 MiB read limit (growing
    its buffer at most once), and [None], without touching memory, beyond it,
    whatever the allocator's placement of the buffers inside guest memory. *)
Theorem two_phase_read_exact (place : nat → nat) (payload : bytes) (m : M) :
  (∀ n, (n ≤ MAX_READ_LEN)%nat → (place n + n ≤ mem_size m)%nat) →
  Z.of_nat (length payload) < 2 ^ 31 →
  let read ptr cap := write_out ptr cap payload in
  if decide (length payload ≤ MAX_READ_LEN)%nat
  then (read_two_phase place read m).1 = Some payload
  else read_two_phase place read m = (None, m).
Proof using All.
  intros Hp Hl read. pose proof (two_phase_answers id place read payload m (λ _ _ _, eq_refl) Hp Hl) as Ha.
  assert (∀ ptr cap, read ptr cap m =
    let '(r, m') := write_out ptr cap payload m in (r, if 0 <=? r then id m' else m')) as Hr.
  { intros ptr cap. unfold read. destruct (write_out ptr cap payload m) as [r m1]. by destruct (0 <=? r). }
  specialize (Ha Hr). clearbody read. case_decide; [|done]. by destruct Ha as (m' & ptr & cap & r & -> & _).
Qed.
End memory.

Lemma two_phase_read_exact_witness :
  (read_two_phase (λ _, 0%nat) (λ ptr cap, write_out ptr cap (bs "hello"))
     (replicate MAX_READ_LEN x00)).1 = Some (bs "hello").
Proof.
  apply (two_phase_read_exact (λ _, 0%nat) (bs "hello") (replicate MAX_READ_LEN x00)).
  - intros n Hn. change (mem_size ?m) with (length m). rewrite length_replicate. lia.
  - simpl. lia.
Defined.
