(* ===== verification/Linker.v ===== *)
(** The import whitelist a plugin can call ([openrusty-wasm/src/linker.rs],
    [linker_req.rs], [linker_rewrite.rs], [linker_kv.rs]) over the per-request
    host data ([instance.rs]).

    [import] lists every host function with its wasm arguments; [run_import] is
    its body.  The clock readings an import takes come with the call. *)

From S2P Require Import Prelude Text Net Context HostState Abi.
From Stdlib Require Import ZArith Lia.
From stdpp Require Import options.
Local Open Scope Z_scope.

Record PeerView := { pv_name : bytes; pv_addr : bytes; pv_healthy : bool }.

Inductive HeaderEdit := EditSet (name val : bytes) | EditDel (name : bytes).

Inductive ReqEdit :=
| SetUri (v : bytes)
| SetQuery (v : bytes)
| SetHeader (name val : bytes)
| DelHeader (name : bytes).

(** Data of one wasmtime store; the limits and the memory handle belong to the
    runtime. *)
Record HostData := {
  hd_ctx : ReqCtx;
  hd_peers : list PeerView;
  hd_settings : gmap bytes bytes;
  hd_resp_edits : list HeaderEdit;
  hd_req_edits : list ReqEdit;
  hd_resp_headers : headers;
  hd_resp_body : option bytes;
  hd_req_body : bytes;
  hd_body_chunk : bytes;
  hd_body_last : bool;
}.

Definition new_host_data (ctx : ReqCtx) (peers : list PeerView) (settings : gmap bytes bytes)
    : HostData := {|
  hd_ctx := ctx; hd_peers := peers; hd_settings := settings;
  hd_resp_edits := []; hd_req_edits := []; hd_resp_headers := []; hd_resp_body := None;
  hd_req_body := []; hd_body_chunk := []; hd_body_last := false;
|}.

Definition hd_set_ctx (c : ReqCtx) (d : HostData) : HostData := {|
  hd_ctx := c; hd_peers := hd_peers d; hd_settings := hd_settings d;
  hd_resp_edits := hd_resp_edits d; hd_req_edits := hd_req_edits d;
  hd_resp_headers := hd_resp_headers d; hd_resp_body := hd_resp_body d;
  hd_req_body := hd_req_body d; hd_body_chunk := hd_body_chunk d; hd_body_last := hd_body_last d;
|}.
Definition hd_rewrite (c : ReqCtx) (e : ReqEdit) (d : HostData) : HostData := {|
  hd_ctx := c; hd_peers := hd_peers d; hd_settings := hd_settings d;
  hd_resp_edits := hd_resp_edits d; hd_req_edits := hd_req_edits d ++ [e];
  hd_resp_headers := hd_resp_headers d; hd_resp_body := hd_resp_body d;
  hd_req_body := hd_req_body d; hd_body_chunk := hd_body_chunk d; hd_body_last := hd_body_last d;
|}.
Definition hd_resp (hs : headers) (e : HeaderEdit) (d : HostData) : HostData := {|
  hd_ctx := hd_ctx d; hd_peers := hd_peers d; hd_settings := hd_settings d;
  hd_resp_edits := hd_resp_edits d ++ [e]; hd_req_edits := hd_req_edits d;
  hd_resp_headers := hs; hd_resp_body := hd_resp_body d;
  hd_req_body := hd_req_body d; hd_body_chunk := hd_body_chunk d; hd_body_last := hd_body_last d;
|}.
Definition hd_set_resp_body (b : option bytes) (d : HostData) : HostData := {|
  hd_ctx := hd_ctx d; hd_peers := hd_peers d; hd_settings := hd_settings d;
  hd_resp_edits := hd_resp_edits d; hd_req_edits := hd_req_edits d;
  hd_resp_headers := hd_resp_headers d; hd_resp_body := b;
  hd_req_body := hd_req_body d; hd_body_chunk := hd_body_chunk d; hd_body_last := hd_body_last d;
|}.

(** * Request facts *)

Definition header_item (h : bytes * bytes) : bytes := h.1 ++ bs ": " ++ h.2.

Definition req_meta_payload (ctx : ReqCtx) (body key : bytes) : bytes :=
  if bool_decide (key = bs "method") then rc_method ctx
  else if bool_decide (key = bs "path") then rc_path ctx
  else if bool_decide (key = bs "query") then rc_query ctx
  else if bool_decide (key = bs "version") then rc_version ctx
  else if bool_decide (key = bs "client_ip") then client_ip ctx
  else if bool_decide (key = bs "upstream") then default [] (rc_upstream ctx)
  else if bool_decide (key = bs "body") then body
  else if bool_decide (key = bs "headers") then encode_tlv (map header_item (rc_headers ctx))
  else match strip_prefix (bs "header:") key with
       | Some name => default [] (header name ctx)
       | None => []
       end.

Definition peer_payload (p : PeerView) : bytes :=
  encode_tlv [pv_name p; pv_addr p; if pv_healthy p then bs "1" else bs "0"].

(** * Rewrites *)

Definition MAX_PART_BYTES : nat := 8 * 1024.
Definition PROTECTED_HEADER : bytes := bs "content-length".
Definition RESP_BODY_MAX_BYTES : Z := 1024 * 1024.

Definition valid_uri (v : bytes) : bool :=
  negb (bool_decide (v = [])) && starts_with (bs "/") v && (length v <=? MAX_PART_BYTES)%nat &&
  negb (existsb (λ b, bool_decide (b ∈ bs "?#")) v || has_control v).

Definition valid_query (v : bytes) : bool :=
  (length v <=? MAX_PART_BYTES)%nat && negb (starts_with (bs "?") v) && negb (has_control v).

Definition is_protected_header (name : bytes) : bool :=
  eq_ignore_ascii_case name PROTECTED_HEADER.

Definition del_header (hs : headers) (name : bytes) : headers :=
  filter (λ h, eq_ignore_ascii_case h.1 name = false) hs.

Definition set_header (hs : headers) (name value : bytes) : headers :=
  del_header hs name ++ [(name, value)].

(** [resp_header_set]: replace the value of the first match, or append. *)
Definition resp_set (hs : headers) (name value : bytes) : headers :=
  match list_find (λ h, eq_ignore_ascii_case h.1 name = true) hs with
  | Some (i, h) => <[i := (h.1, value)]> hs
  | None => hs ++ [(name, value)]
  end.

(** * Imports *)

Inductive import :=
| HostLog (level ptr len : Z)
| HostNowMs (now : Z)
| ReqMeta (key_ptr key_len out_ptr out_cap : Z)
| ReqPeerCount
| ReqPeerGet (idx out_ptr out_cap : Z)
| BalancerSetPeer (idx : Z)
| ReqSetUri (ptr len : Z)
| ReqSetQuery (ptr len : Z)
| ReqSetHeader (name_ptr name_len val_ptr val_len : Z)
| ReqDelHeader (name_ptr name_len : Z)
| KvGet (now key_ptr key_len out_ptr out_cap : Z)
| KvSet (now key_ptr key_len val_ptr val_len ttl_ms : Z)
| KvDel (key_ptr key_len : Z)
| KvScanBegin (t_sweep t_scan t_created prefix_ptr prefix_len : Z)
| KvScanNext (cursor out_ptr out_cap : Z)
| KvScanEnd (cursor : Z)
| RespHeaderGet (name_ptr name_len out_ptr out_cap : Z)
| RespHeaderSet (name_ptr name_len val_ptr val_len : Z)
| RespHeaderDel (name_ptr name_len : Z)
| RespBodySet (ptr len : Z)
| BodyChunk (out_ptr out_cap : Z)
| BodyIsLast
| CfgGet (key_ptr key_len out_ptr out_cap : Z).

(** Clock readings are [u64]. *)
Definition import_times (i : import) : Prop :=
  match i with
  | KvGet now _ _ _ _ | KvSet now _ _ _ _ _ | HostNowMs now => in_u 64 now
  | KvScanBegin t1 t2 t3 _ _ => in_u 64 t1 ∧ in_u 64 t2 ∧ in_u 64 t3
  | _ => True
  end.

Section linker.
Context `{GuestMemory M}.

(** What an import can see: guest memory, the store's host data and the
    plugin's shared state. *)
Record Caller := { ca_mem : M; ca_data : HostData; ca_state : HostState }.

Definition on_data (f : HostData → HostData) (c : Caller) : Caller :=
  {| ca_mem := ca_mem c; ca_data := f (ca_data c); ca_state := ca_state c |}.
Definition on_state (s : HostState) (c : Caller) : Caller :=
  {| ca_mem := ca_mem c; ca_data := ca_data c; ca_state := s |}.

(** [mem::write_out] on the caller. *)
Definition out (out_ptr out_cap : Z) (payload : bytes) (c : Caller) : Z * Caller :=
  let '(r, m) := write_out out_ptr out_cap payload (ca_mem c) in
  (r, {| ca_mem := m; ca_data := ca_data c; ca_state := ca_state c |}).

Definition rd (c : Caller) (ptr len : Z) : option bytes := read_guest (ca_mem c) ptr len.
Definition rds (c : Caller) (ptr len : Z) : option bytes := read_guest_str (ca_mem c) ptr len.

(** Request and balancer imports. *)
Definition req_meta (kp kl op oc : Z) (c : Caller) : Z * Caller :=
  match rds c kp kl with
  | None => (0, c)
  | Some key => out op oc (req_meta_payload (hd_ctx (ca_data c)) (hd_req_body (ca_data c)) key) c
  end.

(** [peers.get(idx as usize)]: a negative [i32] casts to a huge index. *)
Definition req_peer_get (idx op oc : Z) (c : Caller) : Z * Caller :=
  match (if idx <? 0 then None else hd_peers (ca_data c) !! Z.to_nat idx) with
  | None => (-2, c)
  | Some p => out op oc (peer_payload p) c
  end.

Definition balancer_set_peer (idx : Z) (c : Caller) : Z * Caller :=
  if (0 <=? idx) && (idx <? Z.of_nat (length (hd_peers (ca_data c))))
  then (0, on_data (λ d, hd_set_ctx (set_peer_index (Some idx) (hd_ctx d)) d) c)
  else (-1, c).

(** Rewrite imports: the context and the edit log change together. *)
Definition req_set_uri (ptr len : Z) (c : Caller) : Z * Caller :=
  match rds c ptr len with
  | None => (-1, c)
  | Some v =>
      if negb (valid_uri v) then (-1, c)
      else (0, on_data (λ d, hd_rewrite (set_target v (rc_query (hd_ctx d)) (hd_ctx d)) (SetUri v) d) c)
  end.

Definition req_set_query (ptr len : Z) (c : Caller) : Z * Caller :=
  match rds c ptr len with
  | None => (-1, c)
  | Some v =>
      if negb (valid_query v) then (-1, c)
      else (0, on_data (λ d, hd_rewrite (set_target (rc_path (hd_ctx d)) v (hd_ctx d)) (SetQuery v) d) c)
  end.

Definition req_set_header (np nl vp vl : Z) (c : Caller) : Z * Caller :=
  match rds c np nl with
  | None => (-1, c)
  | Some name =>
      match rds c vp vl with
      | None => (-1, c)
      | Some val =>
          if is_protected_header name then (-1, c)
          else (0, on_data (λ d, hd_rewrite
                 (set_headers (set_header (rc_headers (hd_ctx d)) name val) (hd_ctx d))
                 (SetHeader name val) d) c)
      end
  end.

Definition req_del_header (np nl : Z) (c : Caller) : Z * Caller :=
  match rds c np nl with
  | None => (-1, c)
  | Some name =>
      if is_protected_header name then (0, c)
      else (0, on_data (λ d, hd_rewrite
             (set_headers (del_header (rc_headers (hd_ctx d)) name) (hd_ctx d))
             (DelHeader name) d) c)
  end.

(** KV imports. *)
Definition kv_get_import (now kp kl op oc : Z) (c : Caller) : Z * Caller :=
  match rd c kp kl with
  | None => (0, c)
  | Some key =>
      let '(r, s) := kv_get_with key now (λ v, out op oc v c) (ca_state c) in
      match r with
      | Some (ret, c') => (ret, on_state s c')
      | None => (0, on_state s c)
      end
  end.

Definition kv_set_import (now kp kl vp vl ttl_ms : Z) (c : Caller) : Z * Caller :=
  match rd c kp kl with
  | None => (-1, c)
  | Some key =>
      match rd c vp vl with
      | None => (-1, c)
      | Some val =>
          let '(ok, s) := kv_set key val ttl_ms now (ca_state c) in
          (if ok : bool then 0 else -1, on_state s c)
      end
  end.

Definition kv_del_import (kp kl : Z) (c : Caller) : Z * Caller :=
  match rd c kp kl with
  | None => (0, c)
  | Some key => let '(ok, s) := kv_del key (ca_state c) in (if ok : bool then 1 else 0, on_state s c)
  end.

Definition kv_scan_begin (t1 t2 t3 pp pl : Z) (c : Caller) : Z * Caller :=
  match rd c pp pl with
  | None => (-1, c)
  | Some prefix => let '(id, s) := scan_begin prefix t1 t2 t3 (ca_state c) in (id, on_state s c)
  end.

Definition kv_scan_next (cursor op oc : Z) (c : Caller) : Z * Caller :=
  if cursor <? 0 then (-1, c)
  else if negb (scan_is_valid cursor (ca_state c)) then (-1, c)
  else match scan_peek cursor (ca_state c) with
       | Some (k, v) =>
           let '(r, c) := out op oc (encode_kv_pair k v) c in
           (r, if 0 <=? r then on_state (scan_advance cursor (ca_state c)) c else c)
       | None => (0, on_state (scan_next cursor (ca_state c)).2 c)
       end.

Definition kv_scan_end (cursor : Z) (c : Caller) : Z * Caller :=
  (0, if 0 <=? cursor then on_state (scan_end cursor (ca_state c)) c else c).

(** Response imports. *)
Definition resp_header_get (np nl op oc : Z) (c : Caller) : Z * Caller :=
  match rds c np nl with
  | None => (0, c)
  | Some name =>
      match find_header name (hd_resp_headers (ca_data c)) with
      | Some v => out op oc v c
      | None => (0, c)
      end
  end.

Definition resp_header_set (np nl vp vl : Z) (c : Caller) : Z * Caller :=
  match rds c np nl with
  | None => (-1, c)
  | Some name =>
      match rds c vp vl with
      | None => (-1, c)
      | Some val =>
          (0, on_data (λ d, hd_resp (resp_set (hd_resp_headers d) name val) (EditSet name val) d) c)
      end
  end.

Definition resp_header_del (np nl : Z) (c : Caller) : Z * Caller :=
  match rds c np nl with
  | None => (-1, c)
  | Some name =>
      (0, on_data (λ d, hd_resp (del_header (hd_resp_headers d) name) (EditDel name) d) c)
  end.

Definition resp_body_set (ptr len : Z) (c : Caller) : Z * Caller :=
  if (len <? 0) || (RESP_BODY_MAX_BYTES <? len) then (-1, c)
  else match rd c ptr len with
       | None => (-1, c)
       | Some b => (len, on_data (hd_set_resp_body (Some b)) c)
       end.

Definition cfg_get (kp kl op oc : Z) (c : Caller) : Z * Caller :=
  match rds c kp kl with
  | None => (0, c)
  | Some key =>
      match hd_settings (ca_data c) !! key with
      | Some v => out op oc v c
      | None => (0, c)
      end
  end.

Definition run_import (i : import) (c : Caller) : Z * Caller :=
  match i with
  | HostLog _ _ _ => (0, c)
  | HostNowMs now => (to_signed 64 now, c)
  | ReqMeta kp kl op oc => req_meta kp kl op oc c
  | ReqPeerCount => (to_signed 32 (Z.of_nat (length (hd_peers (ca_data c)))), c)
  | ReqPeerGet idx op oc => req_peer_get idx op oc c
  | BalancerSetPeer idx => balancer_set_peer idx c
  | ReqSetUri p l => req_set_uri p l c
  | ReqSetQuery p l => req_set_query p l c
  | ReqSetHeader np nl vp vl => req_set_header np nl vp vl c
  | ReqDelHeader np nl => req_del_header np nl c
  | KvGet now kp kl op oc => kv_get_import now kp kl op oc c
  | KvSet now kp kl vp vl ttl => kv_set_import now kp kl vp vl ttl c
  | KvDel kp kl => kv_del_import kp kl c
  | KvScanBegin t1 t2 t3 pp pl => kv_scan_begin t1 t2 t3 pp pl c
  | KvScanNext cu op oc => kv_scan_next cu op oc c
  | KvScanEnd cu => kv_scan_end cu c
  | RespHeaderGet np nl op oc => resp_header_get np nl op oc c
  | RespHeaderSet np nl vp vl => resp_header_set np nl vp vl c
  | RespHeaderDel np nl => resp_header_del np nl c
  | RespBodySet p l => resp_body_set p l c
  | BodyChunk op oc => out op oc (hd_body_chunk (ca_data c)) c
  | BodyIsLast => (if hd_body_last (ca_data c) then 1 else 0, c)
  | CfgGet kp kl op oc => cfg_get kp kl op oc c
  end.

(** A guest acts on the host by calling imports, and on its own memory
    freely. *)
Inductive guest_step : Caller → Caller → Prop :=
| gs_import i c : import_times i → guest_step c (run_import i c).2
| gs_memory m c :
    guest_step c {| ca_mem := m; ca_data := ca_data c; ca_state := ca_state c |}.
End linker.
Arguments Caller M : clear implicits.

(** * Confinement *)

(** The protected part of a header list. *)
Definition protected_headers (hs : headers) : headers :=
  filter (λ h, is_protected_header h.1 = true) hs.

(** What a plugin can at most have done to a request context with [n] peers. *)
Record confined (n : nat) (c c' : ReqCtx) : Prop := {
  cf_method : rc_method c' = rc_method c;
  cf_version : rc_version c' = rc_version c;
  cf_client : rc_client_addr c' = rc_client_addr c;
  cf_route : rc_route_index c' = rc_route_index c;
  cf_upstream : rc_upstream c' = rc_upstream c;
  cf_attempts : rc_attempts c' = rc_attempts c;
  cf_tried : rc_tried c' = rc_tried c;
  cf_protected : protected_headers (rc_headers c') = protected_headers (rc_headers c);
  cf_path : rc_path c' = rc_path c ∨ valid_uri (rc_path c') = true;
  cf_query : rc_query c' = rc_query c ∨ valid_query (rc_query c') = true;
  cf_peer : rc_peer_index c' = rc_peer_index c ∨
    ∃ i, rc_peer_index c' = Some i ∧ 0 <= i < Z.of_nat n;
}.

#[export] Instance confined_preorder n : PreOrder (confined n).
Proof.
  split; [intros c; constructor; auto|].
  intros a b c [] []. constructor; try congruence.
  - destruct cf_path1 as [->|]; auto.
  - destruct cf_query1 as [->|]; auto.
  - destruct cf_peer1 as [->|]; auto.
Qed.

Lemma protected_del hs name :
  is_protected_header name = false → protected_headers (del_header hs name) = protected_headers hs.
Proof.
  intros Hn. unfold protected_headers, del_header, is_protected_header in *.
  induction hs as [|[k v] hs IH]; [done|]. rewrite filter_cons. simpl.
  case_decide as Hk; rewrite !filter_cons; simpl.
  - case_decide; by rewrite IH.
  - rewrite decide_False; [done|]. intros Hp.
    apply not_false_iff_true in Hk.
    rewrite (eq_ignore_ascii_case_trans k name _ Hk) in Hp. congruence.
Qed.

Lemma protected_set hs name val :
  is_protected_header name = false →
  protected_headers (set_header hs name val) = protected_headers hs.
Proof.
  intros Hn. unfold set_header, protected_headers. rewrite filter_app.
  rewrite filter_cons, decide_False, filter_nil, app_nil_r by (simpl; congruence).
  by apply protected_del.
Qed.

(** Replaying an edit log on a context. *)
Definition apply_edit (c : ReqCtx) (e : ReqEdit) : ReqCtx :=
  match e with
  | SetUri v => set_target v (rc_query c) c
  | SetQuery v => set_target (rc_path c) v c
  | SetHeader n v => set_headers (set_header (rc_headers c) n v) c
  | DelHeader n => set_headers (del_header (rc_headers c) n) c
  end.

(** Context up to the balancer's pin, which the edit log does not record. *)
Definition unpinned (c : ReqCtx) : ReqCtx := set_peer_index None c.

Lemma apply_edit_unpinned c e : unpinned (apply_edit c e) = apply_edit (unpinned c) e.
Proof. by destruct e. Qed.

Lemma replay_unpinned es c : unpinned (foldl apply_edit c es) = foldl apply_edit (unpinned c) es.
Proof. revert c. induction es as [|e es IH]; intros c; simpl; [done|]. by rewrite IH, apply_edit_unpinned. Qed.

Section confinement.
Context `{GuestMemory M}.

(** One import's effect on the host side. *)
Record import_effect (c c' : Caller M) : Prop := {
  ie_ctx : confined (length (hd_peers (ca_data c))) (hd_ctx (ca_data c)) (hd_ctx (ca_data c'));
  ie_peers : hd_peers (ca_data c') = hd_peers (ca_data c);
  ie_settings : hd_settings (ca_data c') = hd_settings (ca_data c);
  ie_req_body : hd_req_body (ca_data c') = hd_req_body (ca_data c);
  ie_chunk : hd_body_chunk (ca_data c') = hd_body_chunk (ca_data c);
  ie_last : hd_body_last (ca_data c') = hd_body_last (ca_data c);
  ie_log : ∃ es, hd_req_edits (ca_data c') = hd_req_edits (ca_data c) ++ es ∧
    unpinned (hd_ctx (ca_data c')) = foldl apply_edit (unpinned (hd_ctx (ca_data c))) es;
  ie_state : rtc host_step (ca_state c) (ca_state c');
}.

Lemma effect_same_data c c' :
  ca_data c' = ca_data c → rtc host_step (ca_state c) (ca_state c') → import_effect c c'.
Proof.
  intros Hd Hs. constructor; rewrite ?Hd; try done.
  exists []. by rewrite app_nil_r.
Qed.

Lemma effect_refl c : import_effect c c.
Proof. by apply effect_same_data. Qed.

Lemma effect_trans a b c : import_effect a b → import_effect b c → import_effect a c.
Proof.
  intros [C1 P1 S1 R1 K1 L1 (e1 & H1 & U1) T1] [C2 P2 S2 R2 K2 L2 (e2 & H2 & U2) T2].
  constructor; try congruence.
  - rewrite P1 in C2. by etrans.
  - exists (e1 ++ e2). rewrite H2, H1, <-app_assoc. split; [done|].
    by rewrite U2, U1, foldl_app.
  - by etrans.
Qed.

(** A rewrite that moves context and log together. *)
Lemma effect_rewrite c e :
  confined (length (hd_peers (ca_data c))) (hd_ctx (ca_data c)) (apply_edit (hd_ctx (ca_data c)) e) →
  import_effect c (on_data (λ d, hd_rewrite (apply_edit (hd_ctx d) e) e d) c).
Proof.
  intros Hc. constructor; try done. simpl. exists [e]. split; [done|]. by rewrite apply_edit_unpinned.
Qed.

Lemma effect_out op oc payload c : import_effect c (out op oc payload c).2.
Proof. unfold out. destruct (write_out _ _ _ _). by apply effect_same_data. Qed.

Lemma effect_out_state op oc payload c r c' s :
  out op oc payload c = (r, c') → rtc host_step (ca_state c) s → import_effect c (on_state s c').
Proof.
  unfold out. destruct (write_out _ _ _ _). intros [= <- <-] Hs. by apply effect_same_data.
Qed.
End confinement.

#[export] Hint Resolve effect_refl effect_out : gateway.

Section import_effects.
Context `{GuestMemory M}.

Lemma req_imports_effect i (c : Caller M) :
  match i with
  | ReqMeta _ _ _ _ | ReqPeerGet _ _ _ | BalancerSetPeer _ | ReqSetUri _ _ | ReqSetQuery _ _
  | ReqSetHeader _ _ _ _ | ReqDelHeader _ _ => True
  | _ => False
  end → import_effect c (run_import i c).2.
Proof.
  destruct i; try done; intros _; cbn [run_import].
  - unfold req_meta. case_match; eauto with gateway.
  - unfold req_peer_get. repeat case_match; eauto with gateway.
  - unfold balancer_set_peer. case_match eqn:E; [|apply effect_refl]. reflect_bool.
    constructor; simpl; try done.
    + constructor; simpl; auto. right. by exists idx.
    + exists []. by rewrite app_nil_r.
  - unfold req_set_uri. destruct (rds c ptr len) as [v|]; [|apply effect_refl].
    destruct (valid_uri v) eqn:Ev; [|apply effect_refl]. simpl.
    apply (effect_rewrite c (SetUri v)). constructor; simpl; auto.
  - unfold req_set_query. destruct (rds c ptr len) as [v|]; [|apply effect_refl].
    destruct (valid_query v) eqn:Ev; [|apply effect_refl]. simpl.
    apply (effect_rewrite c (SetQuery v)). constructor; simpl; auto.
  - unfold req_set_header. destruct (rds c name_ptr _) as [n|]; [|apply effect_refl].
    destruct (rds c val_ptr _) as [v|]; [|apply effect_refl].
    destruct (is_protected_header n) eqn:Ep; [apply effect_refl|]. simpl.
    apply (effect_rewrite c (SetHeader n v)). constructor; simpl; auto. by apply protected_set.
  - unfold req_del_header. destruct (rds c name_ptr _) as [n|]; [|apply effect_refl].
    destruct (is_protected_header n) eqn:Ep; [apply effect_refl|]. simpl.
    apply (effect_rewrite c (DelHeader n)). constructor; simpl; auto. by apply protected_del.
Qed.

Lemma kv_imports_effect i (c : Caller M) :
  import_times i →
  match i with
  | KvGet _ _ _ _ _ | KvSet _ _ _ _ _ _ | KvDel _ _ | KvScanBegin _ _ _ _ _
  | KvScanNext _ _ _ | KvScanEnd _ => True
  | _ => False
  end → import_effect c (run_import i c).2.
Proof.
  intros Ht. destruct i; try done; intros _; cbn [run_import import_times] in *.
  - unfold kv_get_import. destruct (rd c _ _) as [key|]; [|apply effect_refl].
    assert (rtc host_step (ca_state c)
      (kv_get_with key now (λ v, out out_ptr out_cap v c) (ca_state c)).2) as Hs.
    { pose proof (hs_get (ca_state c) key now) as Hstep. apply rtc_once.
      unfold kv_get, kv_get_with in *. by repeat case_match. }
    revert Hs. unfold kv_get_with. repeat case_match; simpl; intros Hs; simplify_eq;
      try (by apply effect_same_data); eapply effect_out_state; done.
  - unfold kv_set_import. destruct (rd c key_ptr _) as [key|]; [|apply effect_refl].
    destruct (rd c val_ptr _) as [val|]; [|apply effect_refl].
    pose proof (hs_set (ca_state c) key val ttl_ms now Ht) as Hs.
    destruct (kv_set _ _ _ _ _) as [ok s]. apply effect_same_data; [done|]. by apply rtc_once.
  - unfold kv_del_import. destruct (rd c _ _) as [key|]; [|apply effect_refl].
    pose proof (hs_del (ca_state c) key) as Hs. destruct (kv_del _ _) as [ok s].
    apply effect_same_data; [done|]. by apply rtc_once.
  - unfold kv_scan_begin. destruct (rd c _ _) as [p|]; [|apply effect_refl].
    pose proof (hs_scan_begin (ca_state c) p t_sweep t_scan t_created) as Hs.
    destruct (scan_begin _ _ _ _ _) as [id s]. apply effect_same_data; [done|]. by apply rtc_once.
  - unfold kv_scan_next. destruct (cursor <? 0); [apply effect_refl|].
    destruct (negb (scan_is_valid cursor _)); [apply effect_refl|].
    destruct (scan_peek cursor _) as [[k v]|].
    + destruct (out out_ptr out_cap (encode_kv_pair k v) c) as [r c1] eqn:E. simpl.
      pose proof (effect_out out_ptr out_cap (encode_kv_pair k v) c) as He. rewrite E in He.
      destruct (0 <=? r); [|exact He].
      assert (ca_state c1 = ca_state c) as ->.
      { revert E. unfold out. destruct (write_out _ _ _ _). by intros [= <- <-]. }
      eapply effect_out_state; [done|]. apply rtc_once, hs_scan_advance.
    + apply effect_same_data; [done|]. apply rtc_once, hs_scan_next.
  - unfold kv_scan_end. simpl. case_match; [|apply effect_refl].
    apply effect_same_data; [done|]. apply rtc_once, hs_scan_end.
Qed.

Lemma resp_imports_effect i (c : Caller M) :
  match i with
  | RespHeaderGet _ _ _ _ | RespHeaderSet _ _ _ _ | RespHeaderDel _ _ | RespBodySet _ _
  | BodyChunk _ _ | BodyIsLast | CfgGet _ _ _ _ | HostLog _ _ _ | HostNowMs _
  | ReqPeerCount => True
  | _ => False
  end → import_effect c (run_import i c).2.
Proof.
  assert (∀ f, (∀ d, hd_ctx (f d) = hd_ctx d ∧ hd_peers (f d) = hd_peers d ∧
     hd_settings (f d) = hd_settings d ∧ hd_req_body (f d) = hd_req_body d ∧
     hd_body_chunk (f d) = hd_body_chunk d ∧ hd_body_last (f d) = hd_body_last d ∧
     hd_req_edits (f d) = hd_req_edits d) → import_effect c (on_data f c)) as Hresp.
  { intros f Hf. destruct (Hf (ca_data c)) as (H1 & H2 & H3 & H4 & H5 & H6 & H7).
    constructor; simpl; rewrite ?H1, ?H2, ?H3, ?H4, ?H5, ?H6, ?H7; try done.
    exists []. by rewrite app_nil_r. }
  destruct i; try done; intros _; cbn [run_import]; try apply effect_refl.
  - unfold resp_header_get. repeat case_match; eauto with gateway.
  - unfold resp_header_set. repeat case_match; try apply effect_refl. by apply Hresp.
  - unfold resp_header_del. repeat case_match; try apply effect_refl. by apply Hresp.
  - unfold resp_body_set. repeat case_match; try apply effect_refl. by apply Hresp.
  - apply effect_out.
  - unfold cfg_get. repeat case_match; eauto with gateway.
Qed.

Lemma run_import_effect i (c : Caller M) : import_times i → import_effect c (run_import i c).2.
Proof.
  intros Ht. destruct i; first
    [by apply req_imports_effect | by apply resp_imports_effect | by apply kv_imports_effect].
Qed.

Lemma guest_effect (c c' : Caller M) : rtc guest_step c c' → import_effect c c'.
Proof.
  induction 1 as [|a b c [i x Ht|m x] _ IH]; [apply effect_refl| |];
    (eapply effect_trans; [|exact IH]).
  - by apply run_import_effect.
  - by apply effect_same_data.
Qed.
End import_effects.

(** C6. A plugin is confined to its whitelist.  Whatever sequence of imports a
    guest calls with whatever pointers, and whatever it does to its memory: the
    request's method, version, client address, route, upstream, attempt
    counter and tried peers are untouched; every [Content-Length] header
    survives unchanged; a rewritten path or query is one the validators accept;
    a pinned peer is in range; the request body, the response chunk and the
    settings are read-only; the recorded edit log replayed on the old context
    gives the new one; and the shared KV store stays within its quotas. *)
Theorem plugin_confinement `{GuestMemory M} (c c' : Caller M) (name : bytes) :
  reachable name (ca_state c) → rtc guest_step c c' →
  confined (length (hd_peers (ca_data c))) (hd_ctx (ca_data c)) (hd_ctx (ca_data c')) ∧
  hd_peers (ca_data c') = hd_peers (ca_data c) ∧
  hd_settings (ca_data c') = hd_settings (ca_data c) ∧
  hd_req_body (ca_data c') = hd_req_body (ca_data c) ∧
  hd_body_chunk (ca_data c') = hd_body_chunk (ca_data c) ∧
  (∃ es, hd_req_edits (ca_data c') = hd_req_edits (ca_data c) ++ es ∧
     unpinned (hd_ctx (ca_data c')) = foldl apply_edit (unpinned (hd_ctx (ca_data c))) es) ∧
  kv_total_bytes (ca_state c') <= KV_MAX_TOTAL_BYTES ∧
  (cursors_len (ca_state c') ≤ MAX_CURSORS)%nat.
Proof.
  intros Hr [H1 H2 H3 H4 H5 _ H6 H7]%guest_effect.
  assert (reachable name (ca_state c')) as Hr' by (unfold reachable in *; by etrans).
  destruct (reachable_ok name _ Hr') as [_ Hq _ Hc _ _]. by split_and!.
Qed.

Definition ex_caller : Caller bytes := {|
  ca_mem := bs "/v2content-length";
  ca_data := new_host_data (set_headers [(bs "Content-Length", bs "3")] ctx_empty)
               [{| pv_name := bs "a"; pv_addr := bs "a"; pv_healthy := true |}] ∅;
  ca_state := new (bs "p");
|}.

Lemma plugin_confinement_witness :
  let c' := (run_import (ReqSetUri 0 3) ex_caller).2 in
  rc_path (hd_ctx (ca_data c')) = bs "/v2" ∧
  confined 1 (hd_ctx (ca_data ex_caller)) (hd_ctx (ca_data c')).
Proof.
  intros c'. split; [by vm_compute|].
  apply (plugin_confinement ex_caller c' (bs "p")); [apply rtc_refl|].
  apply rtc_once, gs_import. done.
Defined.

(** The scan import never loses an entry to a short buffer: a negative answer
    leaves the cursor where it was, and a too-small buffer is told the exact
    size to retry with, which can never be mistaken for the invalid-cursor
    marker. *)
Lemma kv_scan_next_lossless `{GuestMemory M} cursor op oc (c : Caller M) r c' :
  kv_scan_next cursor op oc c = (r, c') → r < 0 → ca_state c' = ca_state c.
Proof.
  unfold kv_scan_next. intros Hk Hr. destruct (cursor <? 0); [by simplify_eq|].
  destruct (negb _); [by simplify_eq|].
  destruct (scan_peek cursor _) as [[k v]|]; [|simplify_eq; lia].
  destruct (out op oc _ c) as [r1 c1] eqn:E. injection Hk as <- <-.
  rewrite (proj2 (Z.leb_gt 0 r1)) by done. revert E. unfold out.
  destruct (write_out _ _ _ _). by intros [= <- <-].
Qed.
