(* ===== verification/Session.v ===== *)
(** One request flowing through the plugin chain ([openrusty-wasm/src/session.rs])
    and the execution of one phase in one instance ([runner.rs]).

    A guest module runs inside wasmtime: its start and phase calls are the
    operations of an interface ([Guest]) whose laws say that a guest reaches the
    host only through the import whitelist.  Wall-clock statistics are not
    modelled; the invocation counters are. *)

From S2P Require Import Prelude Text Net Phase Config Context HostState Abi Linker.
From Stdlib Require Import ZArith Lia.
From stdpp Require Import options.
Local Open Scope Z_scope.

(** The part of a loaded plugin a session uses. *)
Record LoadedPlugin := {
  lp_name : bytes;
  lp_fail_policy : FailPolicy;
  lp_settings : gmap bytes bytes;
}.

(** Why a guest call did not return: the epoch deadline or any other trap. *)
Inductive TrapKind := Interrupt | OtherTrap.

Inductive ErrorKind := KTrap | KTimeout | KBadCode (code : Z).

Inductive PhaseOutcome :=
| OutDecision (d : Decision)
| OutError (kind : ErrorKind).

(** [fallback_decision]. *)
Definition fallback_decision (policy : FailPolicy) : Decision :=
  match policy with FailOpen => Declined | FailClosed => Deny 503 end.

Definition trap_label (t : TrapKind) : bytes :=
  match t with Interrupt => bs "timeout" | OtherTrap => bs "trap" end.

(** Guest code as wasmtime runs it: instantiation (with the module's start
    section) and [orr_on_phase]. *)
Class Guest (M : Type) := {
  g_start : LoadedPlugin → HostData → HostState → result TrapKind M * (HostData * HostState);
  g_on_phase : LoadedPlugin → Phase → Caller M → result TrapKind Z * Caller M;
}.

Class GuestLaws (M : Type) `{GuestMemory M} `{Guest M} : Prop := {
  g_start_confined : ∀ p d s r d' s', g_start p d s = (r, (d', s')) →
    ∃ m m', rtc guest_step {| ca_mem := m; ca_data := d; ca_state := s |}
                           {| ca_mem := m'; ca_data := d'; ca_state := s' |};
  g_phase_confined : ∀ p ph c r c', g_on_phase p ph c = (r, c') → rtc guest_step c c';
}.

(** * Running one phase in one instance ([runner.rs]) *)

Section runner.
Context `{GuestMemory M} `{!Guest M}.

Definition run_phase_outcome (p : LoadedPlugin) (phase : Phase) (c : Caller M)
    : PhaseOutcome * Caller M :=
  let '(r, c) := g_on_phase p phase c in
  match r with
  | Ok code =>
      match from_abi code with
      | Some d => (OutDecision d, c)
      | None => (OutError (KBadCode code), on_state (record_error (bs "bad_code") (ca_state c)) c)
      end
  | Err t =>
      (OutError (match t with Interrupt => KTimeout | OtherTrap => KTrap end),
       on_state (record_error (trap_label t) (ca_state c)) c)
  end.

Definition runner_run_phase (p : LoadedPlugin) (phase : Phase) (c : Caller M)
    : Decision * Caller M :=
  match run_phase_outcome p phase c with
  | (OutDecision d, c) => (d, c)
  | (OutError _, c) => (fallback_decision (lp_fail_policy p), c)
  end.
End runner.

(** * The session *)

(** One instantiated plugin: its store data and its memory. *)
Record PluginRt (M : Type) := { rt_data : HostData; rt_mem : M }.
Arguments rt_data {M} _.
Arguments rt_mem {M} _.

Record Session (M : Type) := {
  ss_plugins : list LoadedPlugin;
  ss_states : list HostState;          (* the plugins' shared states *)
  ss_rts : list (option (PluginRt M));
  ss_ctx : ReqCtx;
  ss_peers : list PeerView;
  ss_body_chunk : bytes;
  ss_body_last : bool;
  ss_resp_headers : headers;
  ss_resp_body : option bytes;
  ss_req_body : bytes;
  ss_calls : list Z;                   (* invocations per phase id *)
}.
Arguments ss_plugins {M} _.
Arguments ss_states {M} _.
Arguments ss_rts {M} _.
Arguments ss_ctx {M} _.
Arguments ss_peers {M} _.
Arguments ss_body_chunk {M} _.
Arguments ss_body_last {M} _.
Arguments ss_resp_headers {M} _.
Arguments ss_resp_body {M} _.
Arguments ss_req_body {M} _.
Arguments ss_calls {M} _.

Section session.
Context `{GuestMemory M} `{!Guest M}.
Abbreviation session := (Session M).

Definition new_session (plugins : list LoadedPlugin) (states : list HostState) (ctx : ReqCtx)
    (peers : list PeerView) : session := {|
  ss_plugins := plugins; ss_states := states; ss_rts := replicate (length plugins) None;
  ss_ctx := ctx; ss_peers := peers; ss_body_chunk := []; ss_body_last := false;
  ss_resp_headers := []; ss_resp_body := None; ss_req_body := [];
  ss_calls := replicate PHASE_COUNT 0;
|}.

Definition ss_set_ctx (c : ReqCtx) (s : session) : session := {|
  ss_plugins := ss_plugins s; ss_states := ss_states s; ss_rts := ss_rts s;
  ss_ctx := c; ss_peers := ss_peers s; ss_body_chunk := ss_body_chunk s;
  ss_body_last := ss_body_last s; ss_resp_headers := ss_resp_headers s;
  ss_resp_body := ss_resp_body s; ss_req_body := ss_req_body s; ss_calls := ss_calls s;
|}.
Definition set_body_chunk (chunk : bytes) (last : bool) (s : session) : session := {|
  ss_plugins := ss_plugins s; ss_states := ss_states s; ss_rts := ss_rts s;
  ss_ctx := ss_ctx s; ss_peers := ss_peers s; ss_body_chunk := chunk;
  ss_body_last := last; ss_resp_headers := ss_resp_headers s;
  ss_resp_body := ss_resp_body s; ss_req_body := ss_req_body s; ss_calls := ss_calls s;
|}.
Definition set_resp_headers (hs : headers) (s : session) : session := {|
  ss_plugins := ss_plugins s; ss_states := ss_states s; ss_rts := ss_rts s;
  ss_ctx := ss_ctx s; ss_peers := ss_peers s; ss_body_chunk := ss_body_chunk s;
  ss_body_last := ss_body_last s; ss_resp_headers := hs;
  ss_resp_body := ss_resp_body s; ss_req_body := ss_req_body s; ss_calls := ss_calls s;
|}.
Definition set_req_body (b : bytes) (s : session) : session := {|
  ss_plugins := ss_plugins s; ss_states := ss_states s; ss_rts := ss_rts s;
  ss_ctx := ss_ctx s; ss_peers := ss_peers s; ss_body_chunk := ss_body_chunk s;
  ss_body_last := ss_body_last s; ss_resp_headers := ss_resp_headers s;
  ss_resp_body := ss_resp_body s; ss_req_body := b; ss_calls := ss_calls s;
|}.
Definition ss_set_runtime (states : list HostState) (rts : list (option (PluginRt M)))
    (s : session) : session := {|
  ss_plugins := ss_plugins s; ss_states := states; ss_rts := rts;
  ss_ctx := ss_ctx s; ss_peers := ss_peers s; ss_body_chunk := ss_body_chunk s;
  ss_body_last := ss_body_last s; ss_resp_headers := ss_resp_headers s;
  ss_resp_body := ss_resp_body s; ss_req_body := ss_req_body s; ss_calls := ss_calls s;
|}.

(** [record_phase_time], without the wall time. *)
Definition count_call (phase : Phase) (s : session) : session := {|
  ss_plugins := ss_plugins s; ss_states := ss_states s; ss_rts := ss_rts s;
  ss_ctx := ss_ctx s; ss_peers := ss_peers s; ss_body_chunk := ss_body_chunk s;
  ss_body_last := ss_body_last s; ss_resp_headers := ss_resp_headers s;
  ss_resp_body := ss_resp_body s; ss_req_body := ss_req_body s;
  ss_calls := alter (λ n, wrap 64 (n + 1)) (Z.to_nat (phase_id phase)) (ss_calls s);
|}.

(** The push half of the bracket: [mem::take] moves the request state into the
    instance. *)
Definition push (s : session) (d : HostData) : HostData := {|
  hd_ctx := ss_ctx s; hd_peers := ss_peers s; hd_settings := hd_settings d;
  hd_resp_edits := hd_resp_edits d; hd_req_edits := hd_req_edits d;
  hd_resp_headers := ss_resp_headers s; hd_resp_body := hd_resp_body d;
  hd_req_body := ss_req_body s; hd_body_chunk := ss_body_chunk s; hd_body_last := ss_body_last s;
|}.

(** What the take-back leaves in the instance. *)
Definition emptied (d : HostData) : HostData := {|
  hd_ctx := ctx_empty; hd_peers := []; hd_settings := hd_settings d;
  hd_resp_edits := hd_resp_edits d; hd_req_edits := hd_req_edits d;
  hd_resp_headers := []; hd_resp_body := None;
  hd_req_body := []; hd_body_chunk := []; hd_body_last := hd_body_last d;
|}.

(** The take-back half: the session owns the data again; a response body only
    replaces the carried one when the plugin wrote it. *)
Definition pull (i : nat) (c : Caller M) (s : session) : session := {|
  ss_plugins := ss_plugins s;
  ss_states := <[i := ca_state c]> (ss_states s);
  ss_rts := <[i := Some {| rt_data := emptied (ca_data c); rt_mem := ca_mem c |}]> (ss_rts s);
  ss_ctx := hd_ctx (ca_data c); ss_peers := hd_peers (ca_data c);
  ss_body_chunk := hd_body_chunk (ca_data c); ss_body_last := hd_body_last (ca_data c);
  ss_resp_headers := hd_resp_headers (ca_data c);
  ss_resp_body := match hd_resp_body (ca_data c) with Some b => Some b | None => ss_resp_body s end;
  ss_req_body := hd_req_body (ca_data c); ss_calls := ss_calls s;
|}.

(** Lazy instantiation of slot [i] ([instantiate_one]). *)
Definition ensure_rt (i : nat) (p : LoadedPlugin) (s : session)
    : result TrapKind (PluginRt M) * session :=
  match ss_rts s !! i with
  | Some (Some rt) => (Ok rt, s)
  | _ =>
      let '(r, (d, st)) := g_start p (new_host_data ctx_empty [] (lp_settings p))
                             (default (new (lp_name p)) (ss_states s !! i)) in
      match r with
      | Ok m =>
          let rt := {| rt_data := d; rt_mem := m |} in
          (Ok rt, ss_set_runtime (<[i := st]> (ss_states s)) (<[i := Some rt]> (ss_rts s)) s)
      | Err t =>
          (Err t, ss_set_runtime (<[i := record_error (trap_label t) st]> (ss_states s)) (ss_rts s) s)
      end
  end.

(** One turn of [run_phase]'s loop: the decision of plugin [i]. *)
Definition run_plugin (phase : Phase) (i : nat) (p : LoadedPlugin) (s : session)
    : Decision * session :=
  match ensure_rt i p s with
  | (Err _, s) => (fallback_decision (lp_fail_policy p), count_call phase s)
  | (Ok rt, s) =>
      let c := {| ca_mem := rt_mem rt; ca_data := push s (rt_data rt);
                  ca_state := default (new (lp_name p)) (ss_states s !! i) |} in
      let '(d, c) := runner_run_phase p phase c in
      (d, count_call phase (pull i c s))
  end.

(** The loop from plugin [i] on, with the last decision so far. *)
Fixpoint run_chain (phase : Phase) (i : nat) (ps : list LoadedPlugin) (last : Decision)
    (s : session) : Decision * session :=
  match ps with
  | [] => (last, s)
  | p :: ps =>
      let '(d, s) := run_plugin phase i p s in
      if is_terminal d && negb (bool_decide (phase = Log)) then (d, s)
      else run_chain phase (S i) ps d s
  end.

Definition run_phase (phase : Phase) (s : session) : Decision * session :=
  run_chain phase 0 (ss_plugins s) Declined s.

(** Drains. *)
Definition take_resp_body (s : session) : option bytes * session :=
  (match ss_resp_body s with Some [] => None | o => o end,
   {| ss_plugins := ss_plugins s; ss_states := ss_states s;
      ss_rts := map (option_map (λ rt, {| rt_data := hd_set_resp_body None (rt_data rt);
                                          rt_mem := rt_mem rt |})) (ss_rts s);
      ss_ctx := ss_ctx s; ss_peers := ss_peers s; ss_body_chunk := ss_body_chunk s;
      ss_body_last := ss_body_last s; ss_resp_headers := ss_resp_headers s;
      ss_resp_body := None; ss_req_body := ss_req_body s; ss_calls := ss_calls s |}).

Definition take_phase_stats (s : session) : list (bytes * Z) * session :=
  (omap (λ i : nat, n ← ss_calls s !! i; p ← phase_from_i32 (Z.of_nat i);
               if n =? 0 then None else Some (phase_name p, n)) (seq 0 PHASE_COUNT),
   {| ss_plugins := ss_plugins s; ss_states := ss_states s; ss_rts := ss_rts s;
      ss_ctx := ss_ctx s; ss_peers := ss_peers s; ss_body_chunk := ss_body_chunk s;
      ss_body_last := ss_body_last s; ss_resp_headers := ss_resp_headers s;
      ss_resp_body := ss_resp_body s; ss_req_body := ss_req_body s;
      ss_calls := map (λ _, 0) (ss_calls s) |}).

(** * The chain *)

(** Plugins [ps], from index [i] on, each run once in order with the session
    threaded through; [ds] are their decisions. *)
Inductive ran (phase : Phase) : nat → list LoadedPlugin → session → list Decision → session → Prop :=
| ran_nil i s : ran phase i [] s [] s
| ran_cons i p ps s d s1 ds s2 :
    run_plugin phase i p s = (d, s1) → ran phase (S i) ps s1 ds s2 →
    ran phase i (p :: ps) s (d :: ds) s2.

(** A decision after which the chain goes on. *)
Definition continues (phase : Phase) (d : Decision) : Prop :=
  is_terminal d = false ∨ phase = Log.

Lemma run_chain_ran phase i ps last0 s :
  ∃ ds s', run_chain phase i ps last0 s = (default last0 (last ds), s') ∧
    ran phase i (take (length ds) ps) s ds s' ∧ (length ds ≤ length ps)%nat ∧
    (∀ k d, ds !! k = Some d → (S k < length ds)%nat → continues phase d) ∧
    ((length ds < length ps)%nat →
       ∃ d, last ds = Some d ∧ is_terminal d = true ∧ phase ≠ Log).
Proof.
  revert i last0 s. induction ps as [|p ps IH]; intros i last0 s; simpl.
  { exists [], s. split_and!; [done|constructor|done|done|simpl; lia]. }
  destruct (run_plugin phase i p s) as [d s1] eqn:E.
  destruct (is_terminal d && negb (bool_decide (phase = Log))) eqn:Et.
  - exists [d], s1. reflect_bool. split_and!; [done| |simpl; lia| |].
    + simpl. econstructor; [done|constructor].
    + intros [|k] d' Hk Hl; simpl in *; [lia|done].
    + intros _. by exists d.
  - destruct (IH (S i) d s1) as (ds & s2 & Hr & Hran & Hl & Hc & Ht).
    exists (d :: ds), s2. split_and!.
    + rewrite Hr, last_cons. by destruct (last ds).
    + simpl. by econstructor.
    + simpl. lia.
    + intros [|k] d' Hk Hlt; simpl in *; [|apply (Hc k); [done|lia]]. simplify_eq.
      unfold continues. apply andb_false_iff in Et as [Et|Et]; [by left|right].
      by apply negb_false_iff, bool_decide_eq_true in Et.
    + intros Hlt. simpl in Hlt. destruct Ht as (d' & Hd' & ?); [lia|].
      exists d'. by rewrite last_cons, Hd'.
Qed.

(** * What one plugin run can change *)

Record session_effect (s s' : session) : Prop := {
  se_plugins : ss_plugins s' = ss_plugins s;
  se_ctx : confined (length (ss_peers s)) (ss_ctx s) (ss_ctx s');
  se_peers : ss_peers s' = ss_peers s;
  se_req_body : ss_req_body s' = ss_req_body s;
  se_chunk : ss_body_chunk s' = ss_body_chunk s;
  se_last : ss_body_last s' = ss_body_last s;
  se_states : Forall2 (rtc host_step) (ss_states s) (ss_states s');
}.

#[local] Instance session_effect_preorder : PreOrder session_effect.
Proof.
  split.
  - intros s. constructor; try done.
  - intros a b c [P1 C1 E1 R1 K1 L1 S1] [P2 C2 E2 R2 K2 L2 S2]. constructor; try congruence.
    + rewrite E1 in C2. by etrans.
    + by etrans.
Qed.

Lemma effect_count phase s : session_effect s (count_call phase s).
Proof. by constructor. Qed.

(** Replacing one state by a later one. *)
Lemma states_step (sts : list HostState) i (st : HostState) :
  (∀ st0, sts !! i = Some st0 → rtc host_step st0 st) → Forall2 (rtc host_step) sts (<[i := st]> sts).
Proof.
  intros Hs. apply Forall2_same_length_lookup. split; [by rewrite length_insert|].
  intros j a b Ha Hb. destruct (decide (i = j)) as [<-|Hij].
  - rewrite list_lookup_insert_eq in Hb by (by eapply lookup_lt_Some). simplify_eq. by apply Hs.
  - rewrite list_lookup_insert_ne in Hb by done. by simplify_eq.
Qed.

Context `{!GuestLaws M}.

Lemma ensure_rt_effect i p s r s' :
  ensure_rt i p s = (r, s') → session_effect s s' ∧
    (∀ rt, r = Ok rt → ss_rts s !! i ≠ None → ss_rts s' !! i = Some (Some rt)).
Proof using All.
  unfold ensure_rt. intros He.
  assert (∀ st0 d r d' st st',
    ss_states s !! i = Some st0 → g_start p d (default (new (lp_name p)) (ss_states s !! i)) = (r, (d', st)) →
    (st' = st ∨ ∃ t, st' = record_error t st) → rtc host_step st0 st') as Hst.
  { intros st0 d r0 d' st st' Hi Hg Hst'. rewrite Hi in Hg.
    apply g_start_confined in Hg as (m & m' & Hr). apply guest_effect, ie_state in Hr. simpl in Hr.
    destruct Hst' as [->|[t ->]]; [done|]. eapply rtc_r; [done|constructor]. }
  destruct (ss_rts s !! i) as [[rt|]|] eqn:Er.
  - injection He as <- <-. split; [done|]. by intros ? [= ->].
  - destruct (g_start _ _ _) as [[m|t] [d st]] eqn:Hg; injection He as <- <-.
    + split.
      * constructor; try done. simpl. apply states_step. intros st0 Hi. eapply Hst; eauto.
      * intros rt [= <-] _. simpl. apply list_lookup_insert_eq. by eapply lookup_lt_Some.
    + split; [|done]. constructor; try done. simpl. apply states_step.
      intros st0 Hi. eapply Hst; eauto.
  - destruct (g_start _ _ _) as [[m|t] [d st]] eqn:Hg; injection He as <- <-.
    + split; [|done]. constructor; try done. simpl. apply states_step.
      intros st0 Hi. eapply Hst; eauto.
    + split; [|done]. constructor; try done. simpl. apply states_step.
      intros st0 Hi. eapply Hst; eauto.
Qed.

Lemma runner_effect p phase (c : Caller M) d c' :
  runner_run_phase p phase c = (d, c') → import_effect c c'.
Proof using All.
  unfold runner_run_phase, run_phase_outcome. destruct (g_on_phase p phase c) as [r c1] eqn:E.
  apply g_phase_confined, guest_effect in E.
  assert (∀ k, import_effect c (on_state (record_error k (ca_state c1)) c1)) as He.
  { intros k. eapply effect_trans; [exact E|]. apply effect_same_data; [done|].
    apply rtc_once, hs_error. }
  repeat case_match; intros; simplify_eq; auto.
Qed.

Lemma run_plugin_effect phase i p s d s' :
  run_plugin phase i p s = (d, s') → session_effect s s'.
Proof using All.
  unfold run_plugin. destruct (ensure_rt i p s) as [r s1] eqn:Ee.
  destruct (ensure_rt_effect _ _ _ _ _ Ee) as [H1 _].
  destruct r as [rt|t]; cycle 1.
  { intros [= <- <-]. etrans; [done|apply effect_count]. }
  set (c := {| ca_mem := _ |}). destruct (runner_run_phase p phase c) as [d1 c1] eqn:Er.
  intros [= <- <-]. etrans; [exact H1|]. etrans; [|apply effect_count].
  apply runner_effect in Er as [C P S R K L _ T]. simpl in *.
  constructor; simpl; try done. apply states_step. intros st0 Hi. by rewrite Hi in T.
Qed.

Lemma ran_effect phase i ps s ds s' : ran phase i ps s ds s' → session_effect s s'.
Proof using All.
  induction 1 as [|i p ps s d s1 ds s2 Hp _ IH]; [done|].
  etrans; [by eapply run_plugin_effect|exact IH].
Qed.

Lemma run_phase_effect phase s d s' : run_phase phase s = (d, s') → session_effect s s'.
Proof using All.
  unfold run_phase. destruct (run_chain_ran phase 0 (ss_plugins s) Declined s)
    as (ds & s1 & Hr & Hran & _). rewrite Hr. intros [= _ <-]. by eapply ran_effect.
Qed.
End session.

Section chain_theorems.
Context `{GuestMemory M} `{!Guest M}.

Lemma run_chain_app phase i ps1 ps2 last0 (s : Session M) ds s' :
  ran phase i ps1 s ds s' → Forall (continues phase) ds →
  run_chain phase i (ps1 ++ ps2) last0 s =
    run_chain phase (i + length ps1) ps2 (default last0 (last ds)) s'.
Proof.
  intros Hran. revert last0. induction Hran as [i s|i p ps1 s d s1 ds s2 Hp _ IH]; intros last0 Hc.
  { simpl. by rewrite Nat.add_0_r. }
  apply Forall_cons in Hc as [Hd Hc]. cbn [app run_chain]. rewrite Hp.
  assert (is_terminal d && negb (bool_decide (phase = Log)) = false) as ->.
  { destruct Hd as [->| ->]; [done|]. rewrite bool_decide_eq_true_2 by done. apply andb_false_r. }
  rewrite (IH d Hc), last_cons. simpl length. rewrite Nat.add_succ_comm.
  by destruct (last ds).
Qed.

(** Chain semantics of a phase.  Plugins run once each, in snapshot order,
    threading the session; the chain stops right after the first terminal
    decision ([Done]/[Deny]) and only there, except in the log phase, which
    always runs every plugin; the phase's verdict is the last decision taken,
    [Declined] when there is no plugin. *)
Theorem run_phase_chain (phase : Phase) (s : Session M) :
  ∃ ds s', run_phase phase s = (default Declined (last ds), s') ∧
    ran phase 0 (take (length ds) (ss_plugins s)) s ds s' ∧
    (length ds ≤ length (ss_plugins s))%nat ∧
    (∀ k d, ds !! k = Some d → (S k < length ds)%nat → is_terminal d = false ∨ phase = Log) ∧
    (length ds = length (ss_plugins s) ∨
     ∃ d, last ds = Some d ∧ is_terminal d = true ∧ phase ≠ Log).
Proof.
  unfold run_phase.
  destruct (run_chain_ran phase 0 (ss_plugins s) Declined s) as (ds & s' & H1 & H2 & H3 & H4 & H5).
  exists ds, s'. split_and!; try done.
  destruct (decide (length ds = length (ss_plugins s))); [by left|]. right. apply H5. lia.
Qed.

(** A plugin fails: it cannot be instantiated, traps, times out or returns a
    code outside the ABI. *)
Definition plugin_fails (phase : Phase) (i : nat) (p : LoadedPlugin) (s : Session M) : Prop :=
  (∃ t s1, ensure_rt i p s = (Err t, s1)) ∨
  (∃ rt s1 k c', ensure_rt i p s = (Ok rt, s1) ∧
     run_phase_outcome p phase
       {| ca_mem := rt_mem rt; ca_data := push s1 (rt_data rt);
          ca_state := default (new (lp_name p)) (ss_states s1 !! i) |} = (OutError k, c')).

Lemma plugin_fails_fallback phase i p s :
  plugin_fails phase i p s → (run_plugin phase i p s).1 = fallback_decision (lp_fail_policy p).
Proof.
  intros [(t & s1 & He)|(rt & s1 & k & c' & He & Ho)]; unfold run_plugin; rewrite He; [done|].
  unfold runner_run_phase. by rewrite Ho.
Qed.

(** Failure policy.  When plugin [k] is reached and fails, a fail-closed
    plugin ends the phase with [Deny 503] (outside the log phase) and no later
    plugin runs; a fail-open plugin behaves exactly as if it had declined: the
    rest of the chain runs, and its verdict is the phase's. *)
Theorem failing_plugin_policy (phase : Phase) (s sk : Session M) (k : nat) (p : LoadedPlugin)
    (ds : list Decision) :
  ss_plugins s !! k = Some p →
  ran phase 0 (take k (ss_plugins s)) s ds sk → Forall (continues phase) ds →
  plugin_fails phase k p sk →
  let s1 := (run_plugin phase k p sk).2 in
  (lp_fail_policy p = FailClosed → phase ≠ Log → run_phase phase s = (Deny 503, s1)) ∧
  (lp_fail_policy p = FailOpen →
     run_phase phase s = run_chain phase (S k) (drop (S k) (ss_plugins s)) Declined s1).
Proof.
  intros Hk Hran Hc Hf s1. pose proof (plugin_fails_fallback _ _ _ _ Hf) as Hfb.
  unfold run_phase. rewrite <-(take_drop_middle _ _ _ Hk) at 1 2.
  rewrite (run_chain_app _ _ _ _ _ _ _ _ Hran Hc).
  rewrite length_take_le by (apply lookup_lt_Some in Hk; lia). simpl.
  unfold s1. destruct (run_plugin phase k p sk) as [d s2]. simpl in *. subst d.
  split; intros Hp; rewrite Hp; [|done]. intros Hl. simpl. by rewrite bool_decide_eq_false_2.
Qed.

(** The session gets everything back.  Whatever the plugins do, after a phase
    the session again owns the request: its context differs from before at most
    by what the whitelist allows, peers, request body, response chunk and
    plugin list are intact, and every plugin's shared state was only moved
    through its own operations, so its quotas still hold. *)
Theorem run_phase_returns_session `{!GuestLaws M} (phase : Phase) (s s' : Session M)
    (d : Decision) :
  run_phase phase s = (d, s') →
  ss_plugins s' = ss_plugins s ∧
  confined (length (ss_peers s)) (ss_ctx s) (ss_ctx s') ∧
  ss_peers s' = ss_peers s ∧ ss_req_body s' = ss_req_body s ∧
  ss_body_chunk s' = ss_body_chunk s ∧ ss_body_last s' = ss_body_last s ∧
  ∀ i st name, ss_states s !! i = Some st → reachable name st →
    ∃ st', ss_states s' !! i = Some st' ∧ reachable name st'.
Proof.
  intros [H1 H2 H3 H4 H5 H6 H7]%run_phase_effect. split_and!; try done.
  intros i st name Hi Hr. destruct (Forall2_lookup_l _ _ _ _ _ H7 Hi) as (st' & Hi' & Hs).
  exists st'. split; [done|]. unfold reachable in *. by etrans.
Qed.
End chain_theorems.

(** * A concrete guest: it returns fixed codes and touches nothing *)

Definition code_guest (code : bytes → Phase → result TrapKind Z) : Guest bytes := {|
  g_start p d s := (Ok [], (d, s));
  g_on_phase p ph c := (code (lp_name p) ph, c);
|}.

Lemma code_guest_laws code : @GuestLaws bytes _ (code_guest code).
Proof.
  split; simpl.
  - intros p d s r d' s' [= <- <- <-]. by exists [], [].
  - intros p ph c r c' [= <- <-]. done.
Qed.

Definition ex_plugin (name : string) (pol : FailPolicy) : LoadedPlugin :=
  {| lp_name := bs name; lp_fail_policy := pol; lp_settings := ∅ |}.

(** Plugin [a] declines, everything else traps. *)
Definition ex_code (name : bytes) (ph : Phase) : result TrapKind Z :=
  if bool_decide (name = bs "a") then Ok (-5) else Err OtherTrap.

Definition ex_session : Session bytes :=
  new_session [ex_plugin "a" FailOpen; ex_plugin "b" FailClosed; ex_plugin "c" FailOpen]
    [new (bs "a"); new (bs "b"); new (bs "c")] ctx_empty [].

#[local] Instance ex_guest : Guest bytes := code_guest ex_code.
#[local] Instance ex_guest_laws : GuestLaws bytes := code_guest_laws ex_code.

Lemma failing_plugin_policy_witness : (run_phase Access ex_session).1 = Deny 503.
Proof.
  destruct (failing_plugin_policy Access ex_session
    (run_plugin Access 0 (ex_plugin "a" FailOpen) ex_session).2 1 (ex_plugin "b" FailClosed)
    [Declined]) as [Hc _]; [done| | | |].
  - econstructor; [reflexivity|constructor].
  - constructor; [by left|constructor].
  - right. do 4 eexists. split; reflexivity.
  - by rewrite Hc.
Defined.

Lemma run_phase_returns_session_witness :
  let s' := (run_phase Access ex_session).2 in
  ss_plugins s' = ss_plugins ex_session ∧ ss_peers s' = [].
Proof.
  intros s'.
  destruct (run_phase_returns_session Access ex_session s' (run_phase Access ex_session).1)
    as (H1 & _ & H2 & _); [apply surjective_pairing|]. by rewrite H1, H2.
Defined.
