(* ===== verification/Router.v ===== *)
(** Host-aware routing ([openrusty-server/src/pipeline/mod.rs]: [match_route],
    [path_in_class], [host_matches], [request_host], [fold_h2_authority]). *)

From S2P Require Import Prelude Text Net Config Context.
From Stdlib Require Import ZArith Lia.
From stdpp Require Import options.
Local Open Scope Z_scope.

Definition host_matches (route_host req_host : option bytes) : bool :=
  match route_host, req_host with
  | None, _ => true
  | Some _, None => false
  | Some r, Some h => eq_ignore_ascii_case r h
  end.

(** One turn of the loop over the candidates of a class. *)
Definition class_step (path : bytes) (acc : option nat * option (nat * nat))
    (c : nat * RouteConfig) : option nat * option (nat * nat) :=
  let '(exact, best) := acc in
  let '(i, r) := c in
  if rt_exact r then
    (if negb (is_some exact) && bool_decide (rt_path_prefix r = path) then Some i else exact, best)
  else
    let p := rt_path_prefix r in
    if bool_decide (path = p) || starts_with p path then
      match best with
      | Some (_, len) => if (length p <=? len)%nat then (exact, best) else (exact, Some (i, length p))
      | None => (exact, Some (i, length p))
      end
    else (exact, best).

Definition path_in_class (cands : list (nat * RouteConfig)) (path : bytes) : option nat :=
  let '(exact, best) := foldl (class_step path) (None, None) cands in
  match exact with Some i => Some i | None => fst <$> best end.

Definition enumerate {A} (l : list A) : list (nat * A) := zip (seq 0 (length l)) l.

Definition host_class (host : option bytes) (routes : list RouteConfig) : list (nat * RouteConfig) :=
  filter (λ c, is_some (rt_host c.2) && host_matches (rt_host c.2) host = true) (enumerate routes).

Definition catch_all_class (routes : list RouteConfig) : list (nat * RouteConfig) :=
  filter (λ c, rt_host c.2 = None) (enumerate routes).

Definition match_route (routes : list RouteConfig) (host : option bytes) (path : bytes)
    : option nat :=
  match path_in_class (host_class host routes) path with
  | Some i => Some i
  | None => path_in_class (catch_all_class routes) path
  end.

Definition fold_h2_authority (hs : headers) (authority : option bytes) : headers :=
  if existsb (λ h, eq_ignore_ascii_case h.1 (bs "host")) hs then hs
  else match authority with Some a => hs ++ [(bs "host", a)] | None => hs end.

Definition request_host (hs : headers) : option bytes :=
  v ← find_header (bs "host") hs;
  let raw := trim v in
  if bool_decide (raw = []) then None
  else
    let bare :=
      match strip_prefix (bs "[") raw with
      | Some rest => default rest (head (split_on x5d rest))
      | None =>
          match rsplit_once x3a raw with
          | Some (h, port) => if forallb is_ascii_digit port then h else raw
          | None => raw
          end
      end in
    Some (to_ascii_lowercase bare).

Example host_port : request_host [(bs "HOST", bs " Example.com:8443 ")] = Some (bs "example.com").
Proof. by vm_compute. Qed.
Example host_v6 : request_host [(bs "host", bs "[::1]:8080")] = Some (bs "::1").
Proof. by vm_compute. Qed.
Example host_blank : request_host [(bs "host", bs "  ")] = None.
Proof. by vm_compute. Qed.

(** * What routing promises *)

Definition hits_exact (path : bytes) (r : RouteConfig) : Prop :=
  rt_exact r = true ∧ rt_path_prefix r = path.
Definition hits_prefix (path : bytes) (r : RouteConfig) : Prop :=
  rt_exact r = false ∧ rt_path_prefix r `prefix_of` path.

(** The winner of a class: the first exact hit, else the first of the longest
    prefix hits. *)
Definition class_winner (cands : list (nat * RouteConfig)) (path : bytes) (i : nat) : Prop :=
  (∃ pre r post, cands = pre ++ (i, r) :: post ∧ hits_exact path r ∧
     Forall (λ c, ¬ hits_exact path c.2) pre) ∨
  (Forall (λ c, ¬ hits_exact path c.2) cands ∧
   ∃ pre r post, cands = pre ++ (i, r) :: post ∧ hits_prefix path r ∧
     Forall (λ c, hits_prefix path c.2 →
       length (rt_path_prefix c.2) < length (rt_path_prefix r))%nat pre ∧
     Forall (λ c, hits_prefix path c.2 →
       length (rt_path_prefix c.2) ≤ length (rt_path_prefix r))%nat post).

Definition no_hit (cands : list (nat * RouteConfig)) (path : bytes) : Prop :=
  Forall (λ c, ¬ hits_exact path c.2 ∧ ¬ hits_prefix path c.2) cands.

(** Loop invariant of [path_in_class] over the candidates seen so far. *)
Record class_inv (path : bytes) (seen : list (nat * RouteConfig))
    (acc : option nat * option (nat * nat)) : Prop := {
  ci_exact : match acc.1 with
    | Some i => ∃ pre r post, seen = pre ++ (i, r) :: post ∧ hits_exact path r ∧
                  Forall (λ c, ¬ hits_exact path c.2) pre
    | None => Forall (λ c, ¬ hits_exact path c.2) seen
    end;
  ci_best : match acc.2 with
    | Some (i, len) => ∃ pre r post, seen = pre ++ (i, r) :: post ∧ hits_prefix path r ∧
        len = length (rt_path_prefix r) ∧
        Forall (λ c, hits_prefix path c.2 → length (rt_path_prefix c.2) < len)%nat pre ∧
        Forall (λ c, hits_prefix path c.2 → length (rt_path_prefix c.2) ≤ len)%nat post
    | None => Forall (λ c, ¬ hits_prefix path c.2) seen
    end;
}.

Lemma prefix_test path p : bool_decide (path = p) || starts_with p path = true ↔ p `prefix_of` path.
Proof.
  rewrite orb_true_iff, bool_decide_eq_true, starts_with_iff. split; [|by right].
  by intros [->|?].
Qed.

(** Extending the seen list by a candidate that is not a hit of the kind. *)
Lemma keep_exact path seen o (c : nat * RouteConfig) :
  (match o with
   | Some i => ∃ pre r post, seen = pre ++ (i, r) :: post ∧ hits_exact path r ∧
                 Forall (λ c, ¬ hits_exact path c.2) pre
   | None => Forall (λ c, ¬ hits_exact path c.2) seen
   end) →
  (o = None → ¬ hits_exact path c.2) →
  match o with
  | Some i => ∃ pre r post, seen ++ [c] = pre ++ (i, r) :: post ∧ hits_exact path r ∧
                Forall (λ c, ¬ hits_exact path c.2) pre
  | None => Forall (λ c, ¬ hits_exact path c.2) (seen ++ [c])
  end.
Proof.
  intros H Hc. destruct o as [i|].
  - destruct H as (pre & r & post & -> & ? & ?). exists pre, r, (post ++ [c]).
    by rewrite <-app_assoc.
  - apply Forall_app. split; [done|]. constructor; [by apply Hc|done].
Qed.

Lemma keep_best path seen o (c : nat * RouteConfig) :
  (match o with
   | Some (i, len) => ∃ pre r post, seen = pre ++ (i, r) :: post ∧ hits_prefix path r ∧
       len = length (rt_path_prefix r) ∧
       Forall (λ c, hits_prefix path c.2 → length (rt_path_prefix c.2) < len)%nat pre ∧
       Forall (λ c, hits_prefix path c.2 → length (rt_path_prefix c.2) ≤ len)%nat post
   | None => Forall (λ c, ¬ hits_prefix path c.2) seen
   end) →
  (hits_prefix path c.2 → ∃ i len, o = Some (i, len) ∧ (length (rt_path_prefix c.2) ≤ len)%nat) →
  match o with
  | Some (i, len) => ∃ pre r post, seen ++ [c] = pre ++ (i, r) :: post ∧ hits_prefix path r ∧
      len = length (rt_path_prefix r) ∧
      Forall (λ c, hits_prefix path c.2 → length (rt_path_prefix c.2) < len)%nat pre ∧
      Forall (λ c, hits_prefix path c.2 → length (rt_path_prefix c.2) ≤ len)%nat post
  | None => Forall (λ c, ¬ hits_prefix path c.2) (seen ++ [c])
  end.
Proof.
  intros H Hc. destruct o as [[i len]|].
  - destruct H as (pre & r & post & -> & ? & ? & ? & ?). exists pre, r, (post ++ [c]).
    rewrite <-app_assoc. split_and!; try done. apply Forall_app. split; [done|].
    constructor; [|done]. intros Hh. by destruct (Hc Hh) as (? & ? & [= <- <-] & ?).
  - apply Forall_app. split; [done|]. constructor; [|done].
    intros Hh. by destruct (Hc Hh) as (? & ? & ? & _).
Qed.

(** A candidate that beats everything seen becomes the best. *)
Lemma new_best path (seen : list (nat * RouteConfig)) i r :
  hits_prefix path r →
  Forall (λ c, hits_prefix path c.2 →
    length (rt_path_prefix c.2) < length (rt_path_prefix r))%nat seen →
  ∃ pre r0 post, seen ++ [(i, r)] = pre ++ (i, r0) :: post ∧ hits_prefix path r0 ∧
    length (rt_path_prefix r) = length (rt_path_prefix r0) ∧
    Forall (λ c, hits_prefix path c.2 →
      length (rt_path_prefix c.2) < length (rt_path_prefix r))%nat pre ∧
    Forall (λ c, hits_prefix path c.2 →
      length (rt_path_prefix c.2) ≤ length (rt_path_prefix r))%nat post.
Proof. intros Hr Hs. by exists seen, r, []. Qed.

Lemma class_step_inv path seen acc c :
  class_inv path seen acc → class_inv path (seen ++ [c]) (class_step path acc c).
Proof.
  destruct acc as [exact best], c as [i r]. intros [He Hb]. simpl in He, Hb.
  unfold class_step. destruct (rt_exact r) eqn:Er.
  - assert (¬ hits_prefix path r) as Hnp by (intros [? _]; congruence).
    constructor; simpl.
    + destruct exact as [e|]; simpl.
      * by apply (keep_exact path seen (Some e)).
      * case_bool_decide as Hp.
        -- by exists seen, r, [].
        -- apply (keep_exact path seen None); [done|]. by intros _ [_ ?].
    + apply keep_best; [done|]. done.
  - assert (¬ hits_exact path r) as Hne by (intros [? _]; congruence).
    assert (hits_prefix path r ↔ bool_decide (path = rt_path_prefix r) || starts_with (rt_path_prefix r) path = true)
      as Hh by (rewrite prefix_test; unfold hits_prefix; naive_solver).
    destruct (bool_decide _ || _) eqn:Et; cycle 1.
    + constructor; simpl; [by apply keep_exact|]. apply keep_best; [done|].
      simpl. intros Hx%Hh. done.
    + assert (hits_prefix path r) as Hhit by by apply Hh.
      destruct best as [[b len]|]; [destruct (Nat.leb_spec (length (rt_path_prefix r)) len)|];
        constructor; simpl; try (by apply keep_exact).
      * apply (keep_best path seen (Some (b, len))); [done|]. simpl. intros _. by exists b, len.
      * apply new_best; [done|]. destruct Hb as (pre & r0 & post & -> & ? & ? & H1 & H2).
        apply Forall_app. split; [|constructor]; simpl.
        -- eapply Forall_impl; [exact H1|]. simpl. intros ? Hx ?. specialize (Hx ltac:(done)). lia.
        -- lia.
        -- eapply Forall_impl; [exact H2|]. simpl. intros ? Hx ?. specialize (Hx ltac:(done)). lia.
      * apply new_best; [done|]. eapply Forall_impl; [exact Hb|]. done.
Qed.

Lemma class_fold_inv path seen acc cands :
  class_inv path seen acc → class_inv path (seen ++ cands) (foldl (class_step path) acc cands).
Proof.
  revert seen acc. induction cands as [|c cands IH]; intros seen acc H; simpl.
  { by rewrite app_nil_r. }
  rewrite cons_middle, app_assoc. by apply IH, class_step_inv.
Qed.

Lemma path_in_class_spec cands path :
  match path_in_class cands path with
  | Some i => class_winner cands path i
  | None => no_hit cands path
  end.
Proof.
  assert (class_inv path cands (foldl (class_step path) (None, None) cands)) as [He Hb].
  { apply (class_fold_inv path [] (None, None)). constructor; simpl; constructor. }
  unfold path_in_class. destruct (foldl _ _ _) as [[i|] best]; simpl in *; [by left|].
  destruct best as [[i len]|]; simpl.
  - right. split; [done|]. destruct Hb as (pre & r & post & ? & ? & -> & ? & ?). by exists pre, r, post.
  - apply Forall_and. done.
Qed.

(** C8. Routing follows host-then-path precedence.  The routed request goes to
    the winner of its host's class (first exact hit, otherwise the longest
    prefix, the earliest on ties); only when no route of that class matches the
    path does the winner of the host-less class apply, however long its prefix;
    and no route is chosen exactly when no route of either class matches. *)
Theorem match_route_precedence (routes : list RouteConfig) (host : option bytes) (path : bytes) :
  match match_route routes host path with
  | Some i => class_winner (host_class host routes) path i ∨
              (no_hit (host_class host routes) path ∧
               class_winner (catch_all_class routes) path i)
  | None => no_hit (host_class host routes) path ∧ no_hit (catch_all_class routes) path
  end.
Proof.
  unfold match_route. pose proof (path_in_class_spec (host_class host routes) path) as H1.
  destruct (path_in_class (host_class host routes) path); [by left|].
  pose proof (path_in_class_spec (catch_all_class routes) path) as H2.
  destruct (path_in_class (catch_all_class routes) path); [by right|done].
Qed.

Lemma enumerate_lookup {A} (l : list A) i x : (i, x) ∈ enumerate l ↔ l !! i = Some x.
Proof.
  unfold enumerate. rewrite list_elem_of_lookup. split.
  - intros (k & Hk). apply lookup_zip_with_Some in Hk as (a & b & [= -> ->] & Ha & Hb).
    by apply lookup_seq in Ha as [-> _].
  - intros Hi. exists i. apply lookup_zip_with_Some. exists i, x. split_and!; try done.
    apply lookup_seq. split; [done|]. by eapply lookup_lt_Some.
Qed.

Lemma class_winner_elem cands path i : class_winner cands path i → ∃ r, (i, r) ∈ cands.
Proof.
  intros [(pre & r & post & -> & _)|(_ & pre & r & post & -> & _)]; exists r;
    apply elem_of_app; right; by left.
Qed.

(** A routed index names a route of the table that matches the request. *)
Lemma match_route_in_range routes host path i :
  match_route routes host path = Some i → ∃ r, routes !! i = Some r.
Proof.
  unfold match_route.
  pose proof (path_in_class_spec (host_class host routes) path) as H1.
  pose proof (path_in_class_spec (catch_all_class routes) path) as H2.
  destruct (path_in_class (host_class host routes) path);
    [|destruct (path_in_class (catch_all_class routes) path); [|done]]; intros [= ->];
    [apply class_winner_elem in H1 as [r Hr]|apply class_winner_elem in H2 as [r Hr]];
    apply list_elem_of_filter in Hr as [_ Hr]; exists r; by apply enumerate_lookup.
Qed.
