(* ===== verification/Peer.v ===== *)
(** Peer selection ([openrusty-server/src/pipeline_peer.rs]): the balancer phase,
    re-validation of a plugin's choice, and the configured balancer over the
    healthy peers this request has not tried yet. *)

From S2P Require Import Prelude Text Net Phase Config Balancer Context Upstream Health.
From S2P Require Import HostState Abi Linker Session.
From Stdlib Require Import ZArith Lia.
From stdpp Require Import options.
Local Open Scope Z_scope.

Record UpstreamRt := { ur_up : Upstream; ur_swrr : list Z }.

Inductive Pick := PickPeer (i : nat) | PickDeny (status : Z) | PickNone.

Definition untried_healthy (peers : list Peer) (healthy : list nat) (tried : list SocketAddr)
    : list nat :=
  filter (λ i, match peers !! i with
               | Some p => bool_decide (pe_addr p ∉ tried)
               | None => false
               end = true) healthy.

Definition pin_is_valid (up_rt : UpstreamRt) (idx : nat) (healthy : bool)
    (tried : list SocketAddr) : bool :=
  match up_peers (ur_up up_rt) !! idx with
  | Some p => healthy && bool_decide (pe_addr p ∉ tried)
  | None => false
  end.

(** [Vec::resize(n, 0)]. *)
Definition resize_zero (n : nat) (l : list Z) : list Z := take n (l ++ replicate n 0).

Fixpoint index_all {A} (l : list A) (ids : list nat) : exec (list A) :=
  match ids with
  | [] => Ret []
  | i :: ids => x ← index l i; xs ← index_all l ids; Ret (x :: xs)
  end.

(** [for (j, &i) in healthy.iter().enumerate() { cur[i] = subset[j]; }]. *)
Definition write_back (cur : list Z) (healthy : list nat) (subset : list Z) : list Z :=
  foldl (λ cur '(i, v), <[i := v]> cur) cur (zip healthy subset).

Definition swrr_pick (up_rt : UpstreamRt) (healthy : list nat) : exec (option nat * UpstreamRt) :=
  if bool_decide (healthy = []) then Ret (None, up_rt)
  else
    let n := length (up_peers (ur_up up_rt)) in
    let cur := if bool_decide (length (ur_swrr up_rt) ≠ n) then resize_zero n (ur_swrr up_rt)
               else ur_swrr up_rt in
    ps ← index_all (up_peers (ur_up up_rt)) healthy;
    subset ← index_all cur healthy;
    '(k, subset) ← swrr_next (map pe_weight ps) subset;
    i ← index healthy k;
    Ret (Some i, {| ur_up := ur_up up_rt; ur_swrr := write_back cur healthy subset |}).

Section pick.
Context `{GuestMemory M} `{!Guest M}.

(** The default balancer over the candidates. *)
Definition balance (h : HealthRegistry) (up_rt : UpstreamRt) (client_ip : bytes)
    (candidates : list nat) : exec (option nat * UpstreamRt) :=
  let up := ur_up up_rt in
  match up_kind up with
  | Swrr => swrr_pick up_rt candidates
  | IpHash => Ret (ip_hash_pick client_ip candidates, up_rt)
  | LeastConn =>
      r ← least_conn_pick (in_flights h (up_name up) (up_peers up))
            (map pe_weight (up_peers up)) candidates;
      Ret (r, up_rt)
  end.

(** [pick_peer]; [t_pin] and [t_pick] are its two clock readings. *)
Definition pick_peer (t_pin t_pick : Z) (h : HealthRegistry) (up_rt : UpstreamRt)
    (s : Session M) : exec (Pick * HealthRegistry * UpstreamRt * Session M) :=
  let up := ur_up up_rt in
  let '(d, s) := run_phase Balancer s in
  match d with
  | Deny st => Ret (PickDeny st, h, up_rt, s)
  | _ =>
      let tried := rc_tried (ss_ctx s) in
      let pinned :=
        match rc_peer_index (ss_ctx s) with
        | Some i =>
            let idx := Z.to_nat i in
            if pin_is_valid up_rt idx (is_healthy h (up_name up) idx t_pin) tried
            then Some idx else None
        | None => None
        end in
      match pinned with
      | Some idx =>
          p ← index (up_peers up) idx;
          Ret (PickPeer idx, inc_in_flight (up_name up) (pe_addr p) h, up_rt, s)
      | None =>
          let s := ss_set_ctx (set_peer_index None (ss_ctx s)) s in
          let healthy := healthy_indices h (up_name up) (length (up_peers up)) t_pick in
          let candidates := untried_healthy (up_peers up) healthy tried in
          if bool_decide (candidates = []) then Ret (PickNone, h, up_rt, s)
          else
            '(chosen, up_rt) ← balance h up_rt (client_ip (ss_ctx s)) candidates;
            match chosen with
            | Some i =>
                p ← index (up_peers up) i;
                Ret (PickPeer i, inc_in_flight (up_name up) (pe_addr p) h, up_rt, s)
            | None => Ret (PickNone, h, up_rt, s)
            end
      end
  end.
End pick.

Definition release_peer (h : HealthRegistry) (up_rt : UpstreamRt) (idx : nat) : HealthRegistry :=
  match up_peers (ur_up up_rt) !! idx with
  | Some p => dec_in_flight (up_name (ur_up up_rt)) (pe_addr p) h
  | None => h
  end.

(** * Selection lemmas *)

Lemma healthy_indices_elem h up n t i :
  i ∈ healthy_indices h up n t ↔ (i < n)%nat ∧ is_healthy h up i t = true.
Proof.
  unfold healthy_indices, is_healthy, slot_at.
  destruct (hr_upstreams h !! up) as [s|]; simpl.
  - rewrite list_elem_of_filter, elem_of_seq. naive_solver lia.
  - rewrite elem_of_seq. naive_solver lia.
Qed.

(** A peer the request may still use. *)
Definition usable (h : HealthRegistry) (up : Upstream) (tried : list SocketAddr) (t : Z) (i : nat)
    : Prop :=
  ∃ p, up_peers up !! i = Some p ∧ is_healthy h (up_name up) i t = true ∧ pe_addr p ∉ tried.

Lemma candidates_elem h up tried t i :
  i ∈ untried_healthy (up_peers up) (healthy_indices h (up_name up) (length (up_peers up)) t) tried
    ↔ usable h up tried t i.
Proof.
  unfold untried_healthy, usable. rewrite list_elem_of_filter, healthy_indices_elem. split.
  - intros [Hm [_ Hh]]. destruct (up_peers up !! i) as [p|]; [|done].
    exists p. by apply bool_decide_eq_true in Hm.
  - intros (p & Hp & Hh & Ht). rewrite Hp. split_and!; [by apply bool_decide_eq_true| |done].
    by eapply lookup_lt_Some.
Qed.

Lemma index_all_total {A} (l : list A) ids :
  Forall (λ i, i < length l)%nat ids → ∃ xs, index_all l ids = Ret xs ∧ length xs = length ids.
Proof.
  induction 1 as [|i ids Hi _ IH]; simpl; [by eexists|].
  destruct (index_lt l i Hi) as (x & -> & _). destruct IH as (xs & -> & Hl).
  simpl. exists (x :: xs). simpl. by rewrite Hl.
Qed.

Lemma swrr_next_total w c :
  w ≠ [] → length w = length c →
  ∃ k c', swrr_next w c = Ret (k, c') ∧ (k < length w)%nat ∧ length c' = length c.
Proof.
  intros Hne Hl. unfold swrr_next. rewrite bool_decide_eq_false_2 by done.
  rewrite bool_decide_eq_false_2 by (intros Hx; by apply Hx).
  set (cur := zip_with _ c w).
  assert (length cur = length c) as Hc by (unfold cur; rewrite length_zip_with; lia).
  destruct (argmax_spec cur) as (v & Hv & _).
  { intros Hx. rewrite Hx in Hc. destruct w; simpl in *; [done|lia]. }
  unfold index. rewrite Hv. simpl. do 2 eexists. split_and!; [done| |].
  - apply lookup_lt_Some in Hv. lia.
  - by rewrite length_insert.
Qed.

Lemma resize_zero_length n l : length (resize_zero n l) = n.
Proof. unfold resize_zero. rewrite length_take, length_app, length_replicate. lia. Qed.

Lemma write_back_length cur hs sub : length (write_back cur hs sub) = length cur.
Proof.
  unfold write_back. generalize (zip hs sub) as l. intros l. revert cur.
  induction l as [|[i v] l IH]; intros cur; simpl; [done|]. by rewrite IH, length_insert.
Qed.

(** SWRR over any non-empty set of candidates picks one of them and keeps one
    effective weight per peer. *)
Lemma swrr_pick_total up_rt cands :
  cands ≠ [] → Forall (λ i, i < length (up_peers (ur_up up_rt)))%nat cands →
  ∃ i up_rt', swrr_pick up_rt cands = Ret (Some i, up_rt') ∧ i ∈ cands ∧
    ur_up up_rt' = ur_up up_rt ∧ length (ur_swrr up_rt') = length (up_peers (ur_up up_rt)).
Proof.
  intros Hne Hr. unfold swrr_pick. rewrite bool_decide_eq_false_2 by done.
  set (n := length (up_peers (ur_up up_rt))) in *. set (cur := if bool_decide _ then _ else _).
  assert (length cur = n) as Hcur.
  { subst cur. case_bool_decide as Hd; [apply resize_zero_length|]. by destruct (decide (length (ur_swrr up_rt) = n)). }
  destruct (index_all_total (up_peers (ur_up up_rt)) cands Hr) as (ps & -> & Hps). simpl.
  destruct (index_all_total cur cands) as (sub & -> & Hsub); [by rewrite Hcur|]. simpl.
  destruct (swrr_next_total (map pe_weight ps) sub) as (k & sub' & -> & Hk & Hl).
  { intros Hx. apply (f_equal length) in Hx. rewrite length_map, Hps in Hx.
    by destruct cands. }
  { by rewrite length_map, Hps, Hsub. }
  rewrite length_map, Hps in Hk. simpl.
  destruct (index_lt cands k Hk) as (i & -> & Hi). simpl. do 2 eexists.
  split_and!; [done|by eapply list_elem_of_lookup_2|done|]. simpl. by rewrite write_back_length.
Qed.

Lemma lc_loop_total fl w best l :
  length fl = length w → Forall (λ i, i < length w)%nat (best :: l) →
  ∃ k, lc_loop fl w best l = Ret k ∧ k ∈ best :: l.
Proof.
  intros Hl. revert best. induction l as [|i l IH]; intros best Hr; simpl.
  { exists best. split; [done|by left]. }
  apply Forall_cons in Hr as [Hb Hr]. apply Forall_cons in Hr as [Hi Hr].
  unfold lc_less.
  destruct (index_lt fl i) as (? & -> & _); [lia|]. destruct (index_lt w best) as (? & -> & _); [lia|].
  destruct (index_lt fl best) as (? & -> & _); [lia|]. destruct (index_lt w i) as (? & -> & _); [lia|].
  simpl. case_match.
  - destruct (IH i) as (k & Hk & Hin); [by constructor|]. exists k. split; [done|]. by right.
  - destruct (IH best) as (k & Hk & Hin); [by constructor|]. exists k. split; [done|].
    apply elem_of_cons in Hin as [->|Hin]; [by left|]. right. by right.
Qed.

Lemma in_flights_length h up ps : length (in_flights h up ps) = length ps.
Proof. unfold in_flights. case_match; [by rewrite length_map|by rewrite length_replicate]. Qed.

(** Every configured balancer answers with a candidate, never panics and never
    refuses a non-empty candidate set. *)
Lemma balance_total h up_rt ip cands :
  cands ≠ [] → Forall (λ i, i < length (up_peers (ur_up up_rt)))%nat cands →
  ∃ i up_rt', balance h up_rt ip cands = Ret (Some i, up_rt') ∧ i ∈ cands ∧
    ur_up up_rt' = ur_up up_rt.
Proof.
  intros Hne Hr. unfold balance. destruct (up_kind (ur_up up_rt)).
  - destruct (swrr_pick_total up_rt cands Hne Hr) as (i & r & ? & ? & ? & _). by exists i, r.
  - destruct (ip_hash_pick ip cands) as [i|] eqn:E; cycle 1.
    { by apply pick_none in E. }
    exists i, up_rt. split_and!; try done. by apply (pick_mem cands i).
  - destruct cands as [|b l]; [done|]. unfold least_conn_pick.
    destruct (lc_loop_total (in_flights h (up_name (ur_up up_rt)) (up_peers (ur_up up_rt)))
      (map pe_weight (up_peers (ur_up up_rt))) b l) as (k & -> & Hk).
    { by rewrite in_flights_length, length_map. }
    { by rewrite length_map. }
    simpl. by exists k, up_rt.
Qed.

Section pick_theorems.
Context `{GuestMemory M} `{!Guest M} `{!GuestLaws M}.

(** What one pick may change of a session: the balancer phase's effect, and the
    pin. *)
Record pick_effect (s s' : Session M) : Prop := {
  pk_tried : rc_tried (ss_ctx s') = rc_tried (ss_ctx s);
  pk_client : rc_client_addr (ss_ctx s') = rc_client_addr (ss_ctx s);
  pk_attempts : rc_attempts (ss_ctx s') = rc_attempts (ss_ctx s);
  pk_peers : ss_peers s' = ss_peers s;
  pk_req_body : ss_req_body s' = ss_req_body s;
  pk_plugins : ss_plugins s' = ss_plugins s;
}.

Lemma pick_effect_phase ph s d s' : run_phase ph s = (d, s') → pick_effect s s'.
Proof using All. intros [H1 [] H3 H4 _ _ _]%run_phase_effect. by constructor. Qed.

Lemma pick_peer_total t_pin t_pick h up_rt (s : Session M) :
  ∃ r h' up_rt' s', pick_peer t_pin t_pick h up_rt s = Ret (r, h', up_rt', s') ∧
    ur_up up_rt' = ur_up up_rt ∧ pick_effect s s' ∧
    match r with
    | PickPeer i => ∃ p, up_peers (ur_up up_rt) !! i = Some p ∧
        (pe_addr p ∉ rc_tried (ss_ctx s)) ∧
        (is_healthy h (up_name (ur_up up_rt)) i t_pin = true ∨
         is_healthy h (up_name (ur_up up_rt)) i t_pick = true) ∧
        h' = inc_in_flight (up_name (ur_up up_rt)) (pe_addr p) h
    | PickNone => h' = h ∧ ∀ i, ¬ usable h (ur_up up_rt) (rc_tried (ss_ctx s)) t_pick i
    | PickDeny st => h' = h ∧ (run_phase Balancer s).1 = Deny st
    end.
Proof using All.
  unfold pick_peer. destruct (run_phase Balancer s) as [d s1] eqn:Ep.
  pose proof (pick_effect_phase _ _ _ _ Ep) as He. pose proof He as [Htr _ _ _ _ _].
  rewrite Htr. set (up := ur_up up_rt). set (tried := rc_tried (ss_ctx s)).
  assert ((∃ st, d = Deny st) ∨ ¬ ∃ st, d = Deny st) as [[st ->]|Hd]
    by (destruct d as [| | |st]; [right; by intros []..|left; by exists st]).
  { exists (PickDeny st), h, up_rt, s1. by split_and!. }
  set (pinned := match rc_peer_index (ss_ctx s1) with Some i => _ | None => None end).
  assert (∀ idx, pinned = Some idx → ∃ p, up_peers up !! idx = Some p ∧
    is_healthy h (up_name up) idx t_pin = true ∧ pe_addr p ∉ tried) as Hpin.
  { intros idx. subst pinned. destruct (rc_peer_index (ss_ctx s1)) as [i|]; [|done].
    unfold pin_is_valid. fold up. destruct (up_peers up !! Z.to_nat i) as [p|] eqn:Ei; [|done].
    destruct (_ && _) eqn:Ev; [|done]. intros [= <-]. reflect_bool. by exists p. }
  clearbody pinned.
  set (s2 := ss_set_ctx (set_peer_index None (ss_ctx s1)) s1).
  assert (pick_effect s s2) as He2 by (destruct He; by constructor).
  set (cands := untried_healthy (up_peers up) (healthy_indices h (up_name up) _ t_pick) tried).
  assert (∀ i, i ∈ cands ↔ usable h up tried t_pick i) as Hc by apply candidates_elem.
  assert (Forall (λ i, i < length (up_peers up))%nat cands) as Hr.
  { apply Forall_forall. intros i (p & Hp & _)%Hc. by eapply lookup_lt_Some. }
  clearbody cands s2.
  assert (∃ r h' up_rt' s',
    match pinned with
    | Some idx => p ← index (up_peers up) idx;
        Ret (PickPeer idx, inc_in_flight (up_name up) (pe_addr p) h, up_rt, s1)
    | None => if bool_decide (cands = []) then Ret (PickNone, h, up_rt, s2)
        else '(chosen, up_rt) ← balance h up_rt (client_ip (ss_ctx s2)) cands;
          match chosen with
          | Some i => p ← index (up_peers up) i;
              Ret (PickPeer i, inc_in_flight (up_name up) (pe_addr p) h, up_rt, s2)
          | None => Ret (PickNone, h, up_rt, s2)
          end
    end = Ret (r, h', up_rt', s') ∧
    ur_up up_rt' = up ∧ pick_effect s s' ∧
    match r with
    | PickPeer i => ∃ p, up_peers up !! i = Some p ∧ (pe_addr p ∉ tried) ∧
        (is_healthy h (up_name up) i t_pin = true ∨ is_healthy h (up_name up) i t_pick = true) ∧
        h' = inc_in_flight (up_name up) (pe_addr p) h
    | PickNone => h' = h ∧ ∀ i, ¬ usable h up tried t_pick i
    | PickDeny st => h' = h ∧ d = Deny st
    end) as Hgoal.
  { destruct pinned as [idx|].
    - destruct (Hpin idx eq_refl) as (p & Hp & Hh & Ht). unfold index. rewrite Hp. simpl.
      do 4 eexists. split_and!; [reflexivity|done|done|]. exists p. auto.
    - case_bool_decide as Hnil.
      + do 4 eexists. split_and!; [reflexivity|done|done|]. split; [done|].
        intros i Hi%Hc. rewrite Hnil in Hi. by apply elem_of_nil in Hi.
      + destruct (balance_total h up_rt (client_ip (ss_ctx s2)) cands Hnil Hr)
          as (i & up_rt' & Hb & Hin & Hup). rewrite Hb. simpl.
        apply Hc in Hin as (p & Hp & Hh & Ht). unfold index. rewrite Hp. simpl.
        do 4 eexists. split_and!; [reflexivity|done|done|]. exists p. auto. }
  destruct d; try exact Hgoal. exfalso. apply Hd. by eexists.
Qed.

(** C7. Peer selection is safe and complete.  Whatever the plugins do and
    whichever balancer is configured, a pick never panics; a picked peer is in
    range, healthy and not yet tried by this request, and its in-flight gauge is
    raised once; no peer is returned only when the balancer phase denies or no
    healthy untried peer exists; in both cases the gauges stay put. *)
Theorem pick_peer_safe_complete (t_pin t_pick : Z) (h : HealthRegistry) (up_rt : UpstreamRt)
    (s : Session M) :
  let up := ur_up up_rt in
  ∃ r h' up_rt' s', pick_peer t_pin t_pick h up_rt s = Ret (r, h', up_rt', s') ∧
    rc_tried (ss_ctx s') = rc_tried (ss_ctx s) ∧
    match r with
    | PickPeer i => ∃ p, up_peers up !! i = Some p ∧ (pe_addr p ∉ rc_tried (ss_ctx s)) ∧
        (is_healthy h (up_name up) i t_pin = true ∨ is_healthy h (up_name up) i t_pick = true) ∧
        h' = inc_in_flight (up_name up) (pe_addr p) h
    | PickNone => h' = h ∧
        ¬ ∃ i p, up_peers up !! i = Some p ∧ is_healthy h (up_name up) i t_pick = true ∧
                 pe_addr p ∉ rc_tried (ss_ctx s)
    | PickDeny st => h' = h ∧ (run_phase Balancer s).1 = Deny st
    end.
Proof using All.
  destruct (pick_peer_total t_pin t_pick h up_rt s) as (r & h' & up_rt' & s' & Hp & _ & [Ht _ _ _ _ _] & Hr).
  exists r, h', up_rt', s'. split_and!; [done|done|]. destruct r; try done.
  destruct Hr as [-> Hr]. split; [done|]. intros (i & p & ?). apply (Hr i). by exists p.
Qed.
End pick_theorems.

(** * A concrete pick *)

#[local] Existing Instance ex_guest.
#[local] Existing Instance ex_guest_laws.

Definition ex_upstream : Upstream := {|
  up_name := ex_up;
  up_peers := [{| pe_addr := loopback 9001; pe_weight := 1 |}; {| pe_addr := loopback 9002; pe_weight := 1 |}];
  up_kind := Swrr; up_retries := 1; up_retry_on_timeout := false; up_connect_timeout := 500;
  up_pool_idle_timeout := 500; up_health := default_health;
  up_tls := None |}.

Lemma pick_peer_safe_complete_witness :
  ∃ r h' up_rt' s', pick_peer 10 10 ex_reg {| ur_up := ex_upstream; ur_swrr := [] |}
      (new_session [ex_plugin "a" FailOpen] [new (bs "a")] ctx_empty []) = Ret (r, h', up_rt', s') ∧
    rc_tried (ss_ctx s') = [].
Proof.
  destruct (pick_peer_safe_complete 10 10 ex_reg {| ur_up := ex_upstream; ur_swrr := [] |}
    (new_session [ex_plugin "a" FailOpen] [new (bs "a")] ctx_empty []))
    as (r & h' & u & s' & Hp & Ht & _).
  by exists r, h', u, s'.
Defined.
