(* ===== verification/Shortcut.v ===== *)
(** Short-circuit responses ([openrusty-server/src/resp_shortcut.rs]) and the
    plain responses of [pipeline/mod.rs].

    A response records its status, the header appends made on the builder, in
    order, and its body; the [http] crate's header parsers are parameters. *)

From S2P Require Import Prelude Text Net Context Forward.
From S2P Require Import HostState Abi Linker Session.
From Stdlib Require Import ZArith Lia.
From stdpp Require Import options.
Local Open Scope Z_scope.

Record Response := {
  rs_status : Z;
  rs_headers : headers;
  rs_body : bytes;
}.

Definition text_type : bytes * bytes := (bs "content-type", bs "text/plain; charset=utf-8").

Definition text_response (status : Z) (msg : bytes) : Response :=
  {| rs_status := status; rs_headers := [text_type]; rs_body := msg |}.

Definition empty_response (status : Z) : Response :=
  {| rs_status := status; rs_headers := []; rs_body := [] |}.

(** [format!("{status}\n")]. *)
Definition status_line (status : Z) : bytes := fmt_dec status ++ [x0a].

Section shortcut.
Context {M : Type}.
Context (header_name : bytes → option bytes) (header_value : bytes → option bytes).

Definition carried_body (s : Session M) : option bytes :=
  match ss_resp_body s with Some [] => None | o => o end.

(** Headers that parse, in order. *)
Definition valid_header (h : bytes * bytes) : option (bytes * bytes) :=
  n ← header_name h.1; v ← header_value h.2; Some (n, v).

Definition plugin_header (h : bytes * bytes) : option (bytes * bytes) :=
  if eq_ignore_ascii_case h.1 (bs "content-length") then None else valid_header h.

Definition with_plugin_headers (s : Session M) (default_content_type : bool) : headers :=
  let has_content_type :=
    existsb (λ h, eq_ignore_ascii_case h.1 (bs "content-type")) (ss_resp_headers s) in
  omap plugin_header (ss_resp_headers s) ++
  (if default_content_type && negb has_content_type then [text_type] else []).

Definition body_response (s : Session M) (status : Z) (body : bytes) : Response :=
  {| rs_status := status; rs_headers := with_plugin_headers s true; rs_body := body |}.

Definition done_response (s : Session M) : Response :=
  match carried_body s with
  | Some body => body_response s 200 body
  | None => {| rs_status := 204; rs_headers := with_plugin_headers s false; rs_body := [] |}
  end.

Definition deny_response (s : Session M) (status : Z) : Response :=
  body_response s status (default (status_line status) (carried_body s)).

Definition log_status (s : Session M) (fallback : Z) : Z :=
  match carried_body s with Some _ => 200 | None => fallback end.

(** The status logged for a [Done] is the one the response built from the same
    session carries. *)
Lemma log_status_done s : log_status s 204 = rs_status (done_response s).
Proof. unfold log_status, done_response. by destruct (carried_body s). Qed.

(** No plugin can set [Content-Length] on a short-circuit response. *)
Lemma no_plugin_content_length s d n v :
  (∀ x y, header_name x = Some y → eq_ignore_ascii_case x y = true) →
  (n, v) ∈ with_plugin_headers s d → eq_ignore_ascii_case n (bs "content-length") = false.
Proof.
  intros Hname [Hin|Hin]%elem_of_app.
  - apply list_elem_of_omap in Hin as ([x y] & _ & H). unfold plugin_header, valid_header in H.
    simpl in H. destruct (eq_ignore_ascii_case x (bs "content-length")) eqn:E; [done|].
    apply bind_Some in H as (n' & Hn & H). apply bind_Some in H as (v' & _ & H). simplify_eq.
    rewrite <-(eq_ignore_ascii_case_trans x n _ (Hname _ _ Hn)). done.
  - case_match; [|by apply elem_of_nil in Hin].
    apply list_elem_of_singleton in Hin as [= -> ->]. by vm_compute.
Qed.
End shortcut.
