(* ===== verification/BodyFilter.v ===== *)
(** The streaming response body ([openrusty-server/src/body_filter.rs]): every
    data frame passes the body_filter phase and is yielded unchanged; the final
    filter call and the log phase run when the stream ends, errors, or is
    dropped by a disconnecting client. *)

From S2P Require Import Prelude Text Net Phase Context.
From S2P Require Import HostState Abi Linker Session.
From Stdlib Require Import ZArith Lia.
From stdpp Require Import options.
Local Open Scope Z_scope.

(** A frame of the upstream body: data, or trailers. *)
Inductive Frame := Data (b : bytes) | Trailers.

(** What one poll of the upstream stream answers. *)
Inductive PollEvent :=
| Pending
| Chunk (f : Frame)
| StreamError
| End.

(** What one poll of the filtered body answers. *)
Inductive PollResult :=
| PrPending
| PrFrame (f : Frame)
| PrError
| PrNone.

Section body_filter.
Context `{GuestMemory M} `{!Guest M}.

Record FilteredBody := {
  fb_open : bool;                   (* inner.is_some() *)
  fb_session : Session M;
  fb_bytes : Z;
  fb_last_sent : bool;
  fb_log_done : bool;
  fb_calls : list (bytes * bool);   (* body_filter runs so far: chunk, last *)
  fb_logs : nat;                    (* log phase runs so far *)
}.

Definition fb_new (s : Session M) : FilteredBody := {|
  fb_open := true; fb_session := s; fb_bytes := 0; fb_last_sent := false;
  fb_log_done := false; fb_calls := []; fb_logs := 0;
|}.

Definition run_filter (chunk : bytes) (last : bool) (b : FilteredBody) : FilteredBody := {|
  fb_open := fb_open b;
  fb_session := (run_phase Phase.BodyFilter (set_body_chunk chunk last (fb_session b))).2;
  fb_bytes := fb_bytes b; fb_last_sent := fb_last_sent b; fb_log_done := fb_log_done b;
  fb_calls := fb_calls b ++ [(chunk, last)]; fb_logs := fb_logs b;
|}.

Definition run_log (b : FilteredBody) : FilteredBody := {|
  fb_open := fb_open b;
  fb_session := (take_phase_stats (run_phase Phase.Log (fb_session b)).2).2;
  fb_bytes := fb_bytes b; fb_last_sent := fb_last_sent b; fb_log_done := fb_log_done b;
  fb_calls := fb_calls b; fb_logs := S (fb_logs b);
|}.

Definition set_flags (o ls ld : bool) (b : FilteredBody) : FilteredBody := {|
  fb_open := o; fb_session := fb_session b; fb_bytes := fb_bytes b;
  fb_last_sent := ls; fb_log_done := ld; fb_calls := fb_calls b; fb_logs := fb_logs b;
|}.

Definition add_bytes (n : Z) (b : FilteredBody) : FilteredBody := {|
  fb_open := fb_open b; fb_session := fb_session b; fb_bytes := wrap 64 (fb_bytes b + n);
  fb_last_sent := fb_last_sent b; fb_log_done := fb_log_done b;
  fb_calls := fb_calls b; fb_logs := fb_logs b;
|}.

(** The guarded finalization shared by end, error and drop. *)
Definition finalize (b : FilteredBody) : FilteredBody :=
  let b := if fb_last_sent b then b
           else run_filter [] true (set_flags (fb_open b) true (fb_log_done b) b) in
  if fb_log_done b then b else run_log (set_flags (fb_open b) (fb_last_sent b) true b).

Definition poll_frame (e : PollEvent) (b : FilteredBody) : PollResult * FilteredBody :=
  if negb (fb_open b) then (PrNone, b)
  else match e with
       | Pending => (PrPending, b)
       | Chunk f =>
           (PrFrame f,
            match f with
            | Data d => run_filter d false (add_bytes (Z.of_nat (length d)) b)
            | Trailers => b
            end)
       | StreamError => (PrError, finalize (set_flags false (fb_last_sent b) (fb_log_done b) b))
       | End => (PrNone, finalize (set_flags false (fb_last_sent b) (fb_log_done b) b))
       end.

(** [Drop]. *)
Definition drop_body (b : FilteredBody) : FilteredBody := finalize b.

(** Poll with a sequence of upstream answers; the yielded results. *)
Fixpoint polls (es : list PollEvent) (b : FilteredBody) : list PollResult * FilteredBody :=
  match es with
  | [] => ([], b)
  | e :: es =>
      let '(r, b) := poll_frame e b in
      let '(rs, b) := polls es b in
      (r :: rs, b)
  end.

Definition data_of (es : list PollEvent) : list bytes :=
  omap (λ e, match e with Chunk (Data d) => Some d | _ => None end) es.

(** Upstream answers up to and including the first that ends the stream. *)
Fixpoint until_end (es : list PollEvent) : list PollEvent :=
  match es with
  | [] => []
  | End :: _ => [End]
  | StreamError :: _ => [StreamError]
  | e :: es => e :: until_end es
  end.

Definition ended (es : list PollEvent) : bool :=
  existsb (λ e, match e with End | StreamError => true | _ => false end) es.

(** The answer the client must get for each upstream answer. *)
Definition passthrough (e : PollEvent) : PollResult :=
  match e with
  | Pending => PrPending
  | Chunk f => PrFrame f
  | StreamError => PrError
  | End => PrNone
  end.

Lemma finalize_open o b :
  fb_last_sent b = false → fb_log_done b = false →
  let b' := finalize (set_flags o (fb_last_sent b) (fb_log_done b) b) in
  fb_calls b' = fb_calls b ++ [([], true)] ∧ fb_logs b' = S (fb_logs b) ∧
  fb_last_sent b' = true ∧ fb_log_done b' = true ∧ fb_open b' = o ∧ fb_bytes b' = fb_bytes b.
Proof. destruct b. simpl. by intros -> ->. Qed.

Lemma finalize_done b : fb_last_sent b = true → fb_log_done b = true → finalize b = b.
Proof. intros H1 H2. unfold finalize. rewrite H1, H2. done. Qed.

(** A closed body only answers [None]. *)
Lemma polls_closed es b :
  fb_open b = false → polls es b = (map (λ _, PrNone) es, b).
Proof.
  intros Hc. induction es as [|e es IH]; [done|]. cbn [polls]. unfold poll_frame.
  rewrite Hc. simpl. by rewrite IH.
Qed.

Lemma polls_spec es b :
  fb_open b = true → fb_last_sent b = false → fb_log_done b = false → fb_logs b = 0%nat →
  let '(rs, b') := polls es b in
  rs = map passthrough (until_end es) ++
       map (λ _, PrNone) (drop (length (until_end es)) es) ∧
  fb_calls b' = fb_calls b ++ ((λ d, (d, false)) <$> data_of (until_end es)) ++
                (if ended es then [([], true)] else []) ∧
  (if ended es
   then fb_logs b' = 1%nat ∧ fb_open b' = false ∧ fb_last_sent b' = true ∧ fb_log_done b' = true
   else fb_logs b' = 0%nat ∧ fb_open b' = true ∧ fb_last_sent b' = false ∧ fb_log_done b' = false).
Proof.
  revert b. induction es as [|e es IH]; intros b Ho Hl Hd Hn.
  { cbn. rewrite app_nil_r. by split_and!. }
  cbn [polls]. unfold poll_frame. rewrite Ho. cbn [negb].
  destruct e as [|f| |].
  - specialize (IH b Ho Hl Hd Hn). destruct (polls es b) as [rs b']. cbn.
    destruct IH as (-> & -> & H3). by split_and!.
  - set (b1 := match f with Data d => _ | Trailers => b end).
    specialize (IH b1). destruct (polls es b1) as [rs b']. cbn.
    destruct IH as (-> & Hc & H3); [by destruct f..|]. split_and!; [done| |done].
    rewrite Hc. destruct f; simpl; [|done]. by rewrite <-app_assoc.
  - destruct (finalize_open false b Hl Hd) as (Hc & Hlog & Hls & Hld & Hop & _).
    rewrite polls_closed by done. cbn. rewrite Hc, Hlog, Hn. by split_and!.
  - destruct (finalize_open false b Hl Hd) as (Hc & Hlog & Hls & Hld & Hop & _).
    rewrite polls_closed by done. cbn. rewrite Hc, Hlog, Hn. by split_and!.
Qed.

(** C17. The response body is transparent and accounted exactly once.  For every
    sequence of upstream answers the client receives exactly those answers, in
    order, up to the end or error of the stream and only end-of-stream after
    it; plugins observe each data chunk once and in order.  The moment the stream
    ends or errors, not earlier, the final empty chunk has been filtered and the log
    phase has run once, and a later drop by the client does nothing more; a drop
    before that does both. *)
Theorem body_transparent_logged_once (es : list PollEvent) (s : Session M) :
  let '(rs, b) := polls es (fb_new s) in
  let chunks := (λ d, (d, false)) <$> data_of (until_end es) in
  rs = map passthrough (until_end es) ++ map (λ _, PrNone) (drop (length (until_end es)) es) ∧
  (if ended es
   then fb_calls b = chunks ++ [([], true)] ∧ fb_logs b = 1%nat ∧ fb_open b = false ∧ drop_body b = b
   else fb_calls b = chunks ∧ fb_logs b = 0%nat ∧ fb_open b = true) ∧
  fb_calls (drop_body b) = chunks ++ [([], true)] ∧
  fb_logs (drop_body b) = 1%nat.
Proof.
  pose proof (polls_spec es (fb_new s) eq_refl eq_refl eq_refl eq_refl) as Hp.
  destruct (polls es (fb_new s)) as [rs b]. destruct Hp as (-> & Hc & Hend). cbn zeta.
  split; [done|]. unfold drop_body. destruct (ended es).
  - destruct Hend as (Hn & Ho & Hl & Hd). rewrite finalize_done by done. by split_and!.
  - destruct Hend as (Hn & Ho & Hl & Hd). rewrite app_nil_r in Hc.
    destruct (finalize_open (fb_open b) b Hl Hd) as (Hc' & Hn' & _).
    assert (set_flags (fb_open b) (fb_last_sent b) (fb_log_done b) b = b) as He by by destruct b.
    rewrite He in Hc', Hn'. rewrite Hc', Hn', Hn. split_and!; try done. by rewrite Hc.
Qed.
End body_filter.
