(* ===== verification/Pipeline.v ===== *)
(** The proxy attempts of one request: the retry loop of [handle_request]
    ([openrusty-server/src/pipeline/mod.rs]).

    What an attempt meets is data: the clock readings taken around it, the
    outcome of the network exchange, whether the route timer fired first, and
    whatever the rest of the gateway did to the shared health registry and
    round-robin state while the attempt was in flight. *)

From S2P Require Import Prelude Text Net Phase Config Balancer Context Upstream Health Forward.
From S2P Require Import HostState Abi Linker Session Router Peer Shortcut BodyFilter.
From Stdlib Require Import ZArith Lia.
From stdpp Require Import options.
Local Open Scope Z_scope.

Record UpResponse := {
  ur_status : Z;
  ur_headers : list (bytes * option bytes);   (* value when it is visible text *)
}.

(** One proxy attempt's environment. *)
Record Attempt := {
  at_pin : Z;
  at_pick : Z;
  at_record : Z;
  at_elapsed : bool;
  at_result : result ForwardError UpResponse;
  at_others : HealthRegistry → HealthRegistry;
  at_others_swrr : list Z → list Z;
}.

Definition RESULT_SUCCESS : bytes := bs "success".
Definition RESULT_CONNECT_FAIL : bytes := bs "connect_fail".
Definition RESULT_TIMEOUT : bytes := bs "timeout".
Definition RESULT_NO_PEER : bytes := bs "no_peer".

Definition may_retry_timeout (retry_on_timeout : bool) (attempt attempts : Z) : bool :=
  retry_on_timeout && (wrap 32 (attempt + 1) <? attempts).

Definition route_timeout (timeout_ms : Z) : option Z :=
  if 0 <? timeout_ms then Some timeout_ms else None.

Section pipeline.
Context `{GuestMemory M} `{!Guest M}.

(** State a request threads: the shared registry and the upstream's round-robin
    weights, its session, the attempt counters it bumped, the requests it sent
    and the statuses it logged. *)
Record World := {
  w_health : HealthRegistry;
  w_up : UpstreamRt;
  w_session : Session M;
  w_attempts : list (bytes * bytes);
  w_dialed : list (SocketAddr * ForwardRequest);
  w_logged : list Z;
}.

Definition w_set_health (h : HealthRegistry) (w : World) : World :=
  {| w_health := h; w_up := w_up w; w_session := w_session w; w_attempts := w_attempts w;
     w_dialed := w_dialed w; w_logged := w_logged w |}.
Definition w_set_session (s : Session M) (w : World) : World :=
  {| w_health := w_health w; w_up := w_up w; w_session := s; w_attempts := w_attempts w;
     w_dialed := w_dialed w; w_logged := w_logged w |}.
Definition w_picked (h : HealthRegistry) (u : UpstreamRt) (s : Session M) (w : World) : World :=
  {| w_health := h; w_up := u; w_session := s; w_attempts := w_attempts w;
     w_dialed := w_dialed w; w_logged := w_logged w |}.
Definition on_ctx (f : ReqCtx → ReqCtx) (w : World) : World :=
  w_set_session (ss_set_ctx (f (ss_ctx (w_session w))) (w_session w)) w.
Definition record_attempt (r : bytes) (w : World) : World :=
  {| w_health := w_health w; w_up := w_up w; w_session := w_session w;
     w_attempts := w_attempts w ++ [(up_name (ur_up (w_up w)), r)];
     w_dialed := w_dialed w; w_logged := w_logged w |}.

(** The log phase and the one drain of the phase statistics. *)
Definition log_phase (s : Session M) : Session M :=
  (take_phase_stats (run_phase Phase.Log s).2).2.

(** [finish_log]. *)
Definition finish_log (status : Z) (w : World) : World :=
  {| w_health := w_health w; w_up := w_up w;
     w_session := log_phase (w_session w);
     w_attempts := w_attempts w; w_dialed := w_dialed w; w_logged := w_logged w ++ [status] |}.

(** The exchange is sent, and others run while it is in flight. *)
Definition exchange (p : Peer) (fwd : ForwardRequest) (env : Attempt) (w : World) : World :=
  {| w_health := at_others env (w_health w);
     w_up := {| ur_up := ur_up (w_up w); ur_swrr := at_others_swrr env (ur_swrr (w_up w)) |};
     w_session := w_session w; w_attempts := w_attempts w;
     w_dialed := w_dialed w ++ [(pe_addr p, fwd)]; w_logged := w_logged w |}.

Definition release (idx : nat) (w : World) : World :=
  w_set_health (release_peer (w_health w) (w_up w) idx) w.

Definition note_failure (idx : nat) (t : Z) (w : World) : World :=
  let up := ur_up (w_up w) in
  w_set_health (record_failure (up_name up) idx (up_health up) t (w_health w)) w.

(** [Display] of a transport error. *)
Definition show_error (e : ForwardError) : bytes :=
  match e with
  | ErrConnect m => bs "connect error: " ++ m
  | ErrSend m => bs "send error: " ++ m
  | ErrResponse m => bs "response error: " ++ m
  end.

(** How the loop ends: a response to filter, or a reply already logged. *)
Inductive LoopEnd :=
| Answered (idx : nat) (r : UpResponse)
| Replied (r : Response)
| Exhausted.

(** Retry on, after marking the peer, or give up with a 502. *)
Definition reply_502 (msg : bytes) (w : World) : LoopEnd * World :=
  (Replied (text_response 502 msg), finish_log 502 w).

(** [tokio::time::timeout] around the exchange; [None]: the timer won. *)
Definition attempt_outcome (timeout : option Z) (env : Attempt)
    : option (result ForwardError UpResponse) :=
  if is_some timeout && at_elapsed env then None else Some (at_result env).

(** The loop body's three arms after the exchange; [None] continues. *)
Definition conclude (method : bytes) (timeout : option Z) (attempt attempts : Z) (idx : nat)
    (p : Peer) (env : Attempt) (w : World) : option LoopEnd * World :=
  let up := ur_up (w_up w) in
  match attempt_outcome timeout env with
  | Some (Ok r) =>
      let w := w_set_health (record_success (up_name up) idx (at_record env) (w_health w)) w in
      (Some (Answered idx r), record_attempt RESULT_SUCCESS (release idx w))
  | Some (Err e) =>
      let w := release idx (record_attempt RESULT_CONNECT_FAIL (note_failure idx (at_record env) w)) in
      if may_retry method (failure_kind e)
      then (None, on_ctx (mark_tried (pe_addr p)) w)
      else let '(r, w) := reply_502 (bs "502 upstream error: " ++ show_error e ++ [x0a]) w in (Some r, w)
  | None =>
      let w := release idx (record_attempt RESULT_TIMEOUT (note_failure idx (at_record env) w)) in
      if may_retry method FkTimeout && may_retry_timeout (up_retry_on_timeout up) attempt attempts
      then (None, on_ctx (mark_tried (pe_addr p)) w)
      else let '(r, w) := reply_502 (bs "502 upstream timeout" ++ [x0a]) w in (Some r, w)
  end.

(** One turn of the retry loop. *)
Definition attempt_once (method : bytes) (timeout : option Z) (attempt attempts : Z)
    (env : Attempt) (fwd : ForwardRequest) (w : World) : exec (option LoopEnd * World) :=
  let w := on_ctx (λ c, set_peer_index None (set_attempts (wrap 32 (attempt + 1)) c)) w in
  '(pick, h, u, s) ← pick_peer (at_pin env) (at_pick env) (w_health w) (w_up w) (w_session w);
  let w := w_picked h u s w in
  match pick with
  | PickDeny st => Ret (Some (Replied (text_response st (status_line st))), finish_log st w)
  | PickNone =>
      let w := finish_log 502 (record_attempt RESULT_NO_PEER w) in
      Ret (Some (Replied (text_response 502 (bs "502 no healthy upstream" ++ [x0a]))), w)
  | PickPeer idx =>
      let w := on_ctx (set_peer_index (Some (Z.of_nat idx))) w in
      p ← index (up_peers (ur_up (w_up w))) idx;
      Ret (conclude method timeout attempt attempts idx p env (exchange p fwd env w))
  end.

(** [for attempt in 0..attempts]; [n] turns are left. *)
Fixpoint attempt_loop (method : bytes) (timeout : option Z) (attempts : Z) (fwd : ForwardRequest)
    (envs : nat → Attempt) (n : nat) (attempt : nat) (w : World) : exec (LoopEnd * World) :=
  match n with
  | O => Ret (Exhausted, w)
  | S n =>
      r ← attempt_once method timeout (Z.of_nat attempt) attempts (envs attempt) fwd w;
      match r with
      | (Some e, w) => Ret (e, w)
      | (None, w) => attempt_loop method timeout attempts fwd envs n (S attempt) w
      end
  end.

(** * What one attempt does *)

(** The registry after one dialed attempt: the gauge raised by the pick, the
    others' steps, the outcome recorded, the gauge released. *)
Definition settle (up : Upstream) (i : nat) (timeout : option Z) (env : Attempt)
    (h : HealthRegistry) : HealthRegistry :=
  match attempt_outcome timeout env with
  | Some (Ok _) => record_success (up_name up) i (at_record env) h
  | _ => record_failure (up_name up) i (up_health up) (at_record env) h
  end.

Definition dial_health (up : Upstream) (i : nat) (p : Peer) (timeout : option Z) (env : Attempt)
    (h : HealthRegistry) : HealthRegistry :=
  dec_in_flight (up_name up) (pe_addr p)
    (settle up i timeout env (at_others env (inc_in_flight (up_name up) (pe_addr p) h))).

(** Why the loop went on after an attempt. *)
Definition retried (method : bytes) (timeout : option Z) (up : Upstream) (attempt attempts : Z)
    (env : Attempt) : Prop :=
  match attempt_outcome timeout env with
  | Some (Ok _) => False
  | Some (Err e) => may_retry method (failure_kind e) = true
  | None => may_retry method FkTimeout = true ∧
            may_retry_timeout (up_retry_on_timeout up) attempt attempts = true
  end.

(** Fields an attempt keeps. *)
Record kept (w w' : World) : Prop := {
  kp_up : ur_up (w_up w') = ur_up (w_up w);
  kp_peers : ss_peers (w_session w') = ss_peers (w_session w);
}.

#[export] Instance kept_preorder : PreOrder kept.
Proof. split; [by constructor|]. intros a b c [] []. constructor; congruence. Qed.

Abbreviation tried w := (rc_tried (ss_ctx (w_session w))).

(** An attempt that sends nothing: denied, or no peer is left. *)
Record undialed (w : World) (r : Response) (w' : World) : Prop := {
  ud_kept : kept w w';
  ud_dialed : w_dialed w' = w_dialed w;
  ud_health : w_health w' = w_health w;
  ud_logged : w_logged w' = w_logged w ++ [rs_status r];
}.

(** An attempt that dials peer [i], and how the loop goes on. *)
Record dialed (method : bytes) (timeout : option Z) (attempt attempts : Z) (env : Attempt)
    (fwd : ForwardRequest) (w : World) (i : nat) (p : Peer) (e : option LoopEnd) (w' : World)
    : Prop := {
  dl_kept : kept w w';
  dl_peer : up_peers (ur_up (w_up w)) !! i = Some p;
  dl_fresh : pe_addr p ∉ tried w;
  dl_dialed : w_dialed w' = w_dialed w ++ [(pe_addr p, fwd)];
  dl_health : w_health w' = dial_health (ur_up (w_up w)) i p timeout env (w_health w);
  dl_end : match e with
    | None => tried w' = tried w ++ [pe_addr p] ∧ w_logged w' = w_logged w ∧
        retried method timeout (ur_up (w_up w)) attempt attempts env
    | Some (Answered j r) => j = i ∧ w_logged w' = w_logged w ∧
        attempt_outcome timeout env = Some (Ok r) ∧
        rc_peer_index (ss_ctx (w_session w')) = Some (Z.of_nat i)
    | Some (Replied r) => rs_status r = 502 ∧ w_logged w' = w_logged w ++ [502]
    | Some Exhausted => False
    end;
}.

Context `{!GuestLaws M}.

Lemma log_phase_peers (s : Session M) : ss_peers (log_phase s) = ss_peers s.
Proof using All.
  unfold log_phase. simpl. destruct (run_phase Log s) as [d s'] eqn:E. simpl.
  by apply run_phase_effect in E as [].
Qed.

Lemma finish_log_kept st w : kept w (finish_log st w).
Proof using All. constructor; [done|]. apply log_phase_peers. Qed.

Lemma conclude_spec method timeout attempt attempts i p env fwd w w1 r w' :
  up_peers (ur_up (w_up w)) !! i = Some p → pe_addr p ∉ tried w →
  kept w w1 → tried w1 = tried w → w_dialed w1 = w_dialed w → w_logged w1 = w_logged w →
  rc_peer_index (ss_ctx (w_session w1)) = Some (Z.of_nat i) →
  w_health w1 = inc_in_flight (up_name (ur_up (w_up w))) (pe_addr p) (w_health w) →
  conclude method timeout attempt attempts i p env (exchange p fwd env w1) = (r, w') →
  dialed method timeout attempt attempts env fwd w i p r w'.
Proof using All.
  intros Hp Hf Hk Ht Hd Hl Hi Hh. pose proof (kp_up _ _ Hk) as Hup.
  assert (∀ w2, w_health w2 = settle (ur_up (w_up w)) i timeout env
            (at_others env (inc_in_flight (up_name (ur_up (w_up w))) (pe_addr p) (w_health w))) →
          ur_up (w_up w2) = ur_up (w_up w) →
          w_health (release i w2) = dial_health (ur_up (w_up w)) i p timeout env (w_health w)) as Hrel.
  { intros w2 H2 Hu. unfold release, release_peer, dial_health. simpl. by rewrite Hu, Hp, H2. }
  unfold conclude. destruct (attempt_outcome timeout env) as [[rsp|e]|] eqn:Eo.
  - intros [= <- <-]. split; try done.
    + etrans; [exact Hk|by constructor].
    + simpl. by rewrite Hd.
    + change (w_health (release i (w_set_health (record_success (up_name (ur_up (w_up w1))) i
        (at_record env) (at_others env (w_health w1))) (exchange p fwd env w1))) =
        dial_health (ur_up (w_up w)) i p timeout env (w_health w)).
      apply Hrel; [|done].
      simpl. unfold settle. by rewrite Eo, Hup, Hh.
  - set (w2 := record_attempt _ _).
    assert (w_health (release i w2) = dial_health (ur_up (w_up w)) i p timeout env (w_health w)) as Hhe.
    { apply Hrel; [|done]. simpl. unfold settle. by rewrite Eo, Hup, Hh. }
    destruct (may_retry method (failure_kind e)) eqn:Er.
    + intros [= <- <-]. split; try done; [etrans; [exact Hk|by constructor]|simpl; by rewrite Hd|].
      simpl. unfold mark_tried, is_tried, retried. rewrite Ht, Eo.
      by rewrite bool_decide_eq_false_2.
    + intros [= <- <-]. split; try done; [|simpl; by rewrite Hd|simpl; by rewrite Hl].
      etrans; [exact Hk|]. etrans; [|apply finish_log_kept]. by constructor.
  - set (w2 := record_attempt _ _).
    assert (w_health (release i w2) = dial_health (ur_up (w_up w)) i p timeout env (w_health w)) as Hhe.
    { apply Hrel; [|done]. simpl. unfold settle. by rewrite Eo, Hup, Hh. }
    destruct (_ && _) eqn:Er.
    + intros [= <- <-]. split; try done; [etrans; [exact Hk|by constructor]|simpl; by rewrite Hd|].
      simpl. unfold mark_tried, is_tried, retried. rewrite Ht, Eo.
      rewrite bool_decide_eq_false_2 by done. simpl. reflect_bool.
      by rewrite <-Hup.
    + intros [= <- <-]. split; try done; [|simpl; by rewrite Hd|simpl; by rewrite Hl].
      etrans; [exact Hk|]. etrans; [|apply finish_log_kept]. by constructor.
Qed.

Lemma attempt_once_spec method timeout attempt attempts env fwd w :
  ∃ r w', attempt_once method timeout attempt attempts env fwd w = Ret (r, w') ∧
    ((∃ rsp, r = Some (Replied rsp) ∧ undialed w rsp w') ∨
     ∃ i p, dialed method timeout attempt attempts env fwd w i p r w').
Proof using All.
  unfold attempt_once. set (w0 := on_ctx _ w).
  destruct (pick_peer_total (at_pin env) (at_pick env) (w_health w0) (w_up w0) (w_session w0))
    as (pick & h & u & s & -> & Hu & [Ht _ _ Hps _ _] & Hpick).
  change (ur_up u = ur_up (w_up w)) in Hu. simpl. simpl in Hpick. destruct pick as [i|st|].
  - destruct Hpick as (p & Hp & Hf & _ & ->). simpl. unfold index. rewrite Hu, Hp. simpl.
    set (w1 := on_ctx (set_peer_index (Some (Z.of_nat i))) _).
    destruct (conclude method timeout attempt attempts i p env (exchange p fwd env w1))
      as [r w'] eqn:Ec.
    exists r, w'. split; [done|]. right. exists i, p.
    eapply (conclude_spec _ _ _ _ _ _ _ _ w w1); try done.
  - destruct Hpick as [-> _]. do 2 eexists. split; [reflexivity|]. left. eexists. split; [done|].
    split; try done. etrans; [|apply finish_log_kept]. by constructor.
  - destruct Hpick as [-> _]. do 2 eexists. split; [reflexivity|]. left. eexists. split; [done|].
    split; try done. etrans; [|apply finish_log_kept]. by constructor.
Qed.

(** The attempts of one request, with the peers dialed in order. *)
Inductive trials (method : bytes) (timeout : option Z) (attempts : Z) (fwd : ForwardRequest)
    (envs : nat → Attempt) : nat → nat → World → list (nat * Peer) → LoopEnd → World → Prop :=
| tr_out a w : trials method timeout attempts fwd envs 0 a w [] Exhausted w
| tr_undialed n a w r w' :
    undialed w r w' → trials method timeout attempts fwd envs (S n) a w [] (Replied r) w'
| tr_end n a w i p e w' :
    dialed method timeout (Z.of_nat a) attempts (envs a) fwd w i p (Some e) w' →
    trials method timeout attempts fwd envs (S n) a w [(i, p)] e w'
| tr_retry n a w i p w1 ps e w' :
    dialed method timeout (Z.of_nat a) attempts (envs a) fwd w i p None w1 →
    trials method timeout attempts fwd envs n (S a) w1 ps e w' →
    trials method timeout attempts fwd envs (S n) a w ((i, p) :: ps) e w'.

Lemma attempt_loop_trials method timeout attempts fwd envs n a w :
  ∃ ps e w', attempt_loop method timeout attempts fwd envs n a w = Ret (e, w') ∧
    trials method timeout attempts fwd envs n a w ps e w'.
Proof using All.
  revert a w. induction n as [|n IH]; intros a w; simpl.
  { do 3 eexists. split; [reflexivity|constructor]. }
  destruct (attempt_once_spec method timeout (Z.of_nat a) attempts (envs a) fwd w)
    as (r & w1 & -> & [(rsp & -> & Hu)|(i & p & Hd)]); simpl.
  { do 3 eexists. split; [reflexivity|by constructor]. }
  destruct r as [e|].
  - do 3 eexists. split; [reflexivity|by eapply tr_end].
  - destruct (IH (S a) w1) as (ps & e & w' & -> & Ht). do 3 eexists.
    split; [reflexivity|by eapply tr_retry].
Qed.

Lemma trials_kept method timeout attempts fwd envs n a w ps e w' :
  trials method timeout attempts fwd envs n a w ps e w' → kept w w'.
Proof.
  induction 1 as [|??? r w' Hu|??????? Hd|????????? Hd _ IH]; [done|apply Hu|apply Hd|].
  etrans; [apply Hd|done].
Qed.

Lemma trials_dials method timeout attempts fwd envs n a w ps e w' :
  trials method timeout attempts fwd envs n a w ps e w' →
  w_dialed w' = w_dialed w ++ map (λ ip : nat * Peer, (pe_addr ip.2, fwd)) ps ∧
  (length ps ≤ n)%nat ∧ NoDup (map (λ ip : nat * Peer, pe_addr ip.2) ps) ∧
  Forall (λ ip : nat * Peer, up_peers (ur_up (w_up w)) !! ip.1 = Some ip.2 ∧
            pe_addr ip.2 ∉ tried w) ps.
Proof.
  induction 1 as [|????? []|??????? []|????? w1 ??? [[Hup _] Hp Hf Hd _ [Ht _]] _ (IH1 & IH2 & IH3 & IH4)].
  - rewrite app_nil_r. split_and!; try done. constructor.
  - rewrite app_nil_r. split_and!; try done; [simpl; lia|constructor].
  - simpl. split_and!; [done|lia| |by repeat constructor].
    apply NoDup_cons. split; [apply not_elem_of_nil|constructor].
  - simpl. rewrite IH1, Hd, <-app_assoc. rewrite Hup, Ht in IH4. split_and!; [done|lia| |].
    + apply NoDup_cons. split; [|done]. intros ((j & q) & Heq & Hin)%list_elem_of_fmap.
      rewrite Forall_forall in IH4. apply (IH4 _ Hin). simpl in Heq. rewrite Heq.
      apply elem_of_app. right. by apply list_elem_of_singleton.
    + constructor; [done|]. eapply Forall_impl; [exact IH4|]. intros [j q] [? Hn]. split; [done|].
      intros Hx. apply Hn, elem_of_app. by left.
Qed.

Lemma trials_end method timeout attempts fwd envs n a w ps e w' :
  trials method timeout attempts fwd envs n a w ps e w' →
  match e with
  | Answered i r => w_logged w' = w_logged w ∧
      last (map snd ps) = up_peers (ur_up (w_up w)) !! i ∧
      rc_peer_index (ss_ctx (w_session w')) = Some (Z.of_nat i) ∧ is_Some (last (map snd ps))
  | Replied r => w_logged w' = w_logged w ++ [rs_status r]
  | Exhausted => w_logged w' = w_logged w ∧ length ps = n
  end.
Proof.
  induction 1 as [|??? r w' []|??? i p e w' []|??? i p w1 ps e w' [] Ht IH]; [done..| |].
  - destruct e as [j r|r|]; [|by destruct dl_end0 as [-> ->]|done].
    destruct dl_end0 as (-> & ? & ? & ?). split_and!; [done|by rewrite dl_peer0|done|by eexists].
  - destruct dl_end0 as (_ & Hlog & _). destruct dl_kept0 as [Hup _].
    rewrite Hup, Hlog in IH. simpl map. destruct e as [j r|r|]; simpl; [|done|].
    + destruct IH as (? & ? & ? & [q Hq]). rewrite last_cons, Hq in *. eauto.
    + destruct IH as [? ->]. done.
Qed.

(** ** In-flight accounting *)

(** The registry is consistent and knows every peer of the upstream. *)
Definition tracked (up : Upstream) (h : HealthRegistry) : Prop :=
  registry_ok h ∧ Forall (λ p, listed h (up_name up) (pe_addr p)) (up_peers up).

(** Concurrent activity: while this request's exchange [k] is in flight the others'
    outstanding counts go from [out k] to [out (S k)], by requests of theirs that
    start and finish, and nothing else changes the gauges; reloads keep this
    upstream's peers.  The registries they meet show what they have outstanding and
    at most the one slot of this request on top. *)
Definition others_accounted (up : Upstream) (envs : nat → Attempt)
    (out : nat → bytes → SocketAddr → Z) : Prop :=
  (∀ k u b, 0 <= out k u b < 2 ^ 63) ∧
  ∀ k h, tracked up h → (∀ u b, out k u b <= gauge h u b <= out k u b + 1) →
    tracked up (at_others (envs k) h) ∧
    ∀ u b, gauge (at_others (envs k) h) u b = gauge h u b + (out (S k) u b - out k u b).

Lemma settle_tracked up i timeout env h :
  in_u 64 (at_record env) → tracked up h → tracked up (settle up i timeout env h).
Proof.
  intros Ht [Hok Hl]. unfold settle. split.
  - destruct (attempt_outcome timeout env) as [[]|];
      (eapply (health_step_ok true); [|exact Hok]); by constructor.
  - eapply Forall_impl; [exact Hl|]. intros p Hp. simpl.
    destruct (attempt_outcome timeout env) as [[]|];
      first [by apply update_slot_listed|by apply record_failure_listed].
Qed.

Lemma settle_gauge up i timeout env h u b : gauge (settle up i timeout env h) u b = gauge h u b.
Proof.
  unfold settle. destruct (attempt_outcome timeout env) as [[]|];
    first [apply record_failure_gauge|by apply update_slot_gauge].
Qed.

Lemma tracked_step up h f a :
  registry_ok (update_addr f (up_name up) a h) → tracked up h →
  tracked up (update_addr f (up_name up) a h).
Proof.
  intros Hok [_ Hl]. split; [done|]. eapply Forall_impl; [exact Hl|]. intros p Hp.
  by apply update_addr_listed.
Qed.

(** Requests of others that start and finish at peers of this upstream. *)
Inductive SlotOp := TakeSlot (a : SocketAddr) | GiveSlot (a : SocketAddr).

Definition op_addr (o : SlotOp) : SocketAddr := match o with TakeSlot a | GiveSlot a => a end.

Definition run_op (up : Upstream) (h : HealthRegistry) (o : SlotOp) : HealthRegistry :=
  match o with
  | TakeSlot a => inc_in_flight (up_name up) a h
  | GiveSlot a => dec_in_flight (up_name up) a h
  end.

Definition op_out (up : Upstream) (o : SlotOp) (out : bytes → SocketAddr → Z) (u : bytes) (b : SocketAddr) : Z :=
  out u b + (if decide ((u, b) = (up_name up, op_addr o)) then match o with TakeSlot _ => 1 | GiveSlot _ => -1 end
             else 0).

(** Every one that finishes had started. *)
Fixpoint paired (up : Upstream) (ops : list SlotOp) (out : bytes → SocketAddr → Z) : Prop :=
  match ops with
  | [] => True
  | o :: ops => op_addr o ∈ pe_addr <$> up_peers up ∧
      0 <= op_out up o out (up_name up) (op_addr o) < 2 ^ 63 ∧ paired up ops (op_out up o out)
  end.

Definition outs (up : Upstream) (ops : list SlotOp) (out : bytes → SocketAddr → Z) : bytes → SocketAddr → Z :=
  foldl (λ out o, op_out up o out) out ops.

Lemma run_op_gauge up o h out :
  op_addr o ∈ pe_addr <$> up_peers up → 0 <= op_out up o out (up_name up) (op_addr o) < 2 ^ 63 →
  tracked up h → (∀ u b, out u b <= gauge h u b <= out u b + 1) →
  tracked up (run_op up h o) ∧ (∀ u b, gauge (run_op up h o) u b = gauge h u b + (op_out up o out u b - out u b)).
Proof.
  intros Hin Hr Htr Hg. pose proof Htr as [Hok Hl]. apply list_elem_of_fmap in Hin as (p & Ha & Hp).
  rewrite Forall_forall in Hl. destruct (Hl p Hp) as (s & Hs & Hsa). rewrite <-Ha in Hsa.
  specialize (Hg (up_name up) (op_addr o)) as Hga. unfold op_out in Hr.
  rewrite (decide_True_pi (P := (up_name up, op_addr o) = (up_name up, op_addr o)) eq_refl) in Hr.
  destruct o as [a|a]; simpl in *.
  - split; [apply tracked_step; [eapply (health_step_ok true); [apply step_inc|done]|done]|].
    intros u b. rewrite (inc_gauge _ a h s Hok Hs Hsa) by lia. unfold op_out. simpl. case_decide; lia.
  - split; [apply tracked_step; [eapply (health_step_ok true); [apply step_dec|done]|done]|].
    intros u b. rewrite (dec_gauge _ a h s Hok Hs Hsa). unfold op_out. simpl.
    case_decide as Hd; [injection Hd as -> ->; lia|lia].
Qed.

(** Any such sequence is accounted for. *)
Lemma paired_gauge up ops h out :
  paired up ops out → tracked up h → (∀ u b, out u b <= gauge h u b <= out u b + 1) →
  tracked up (foldl (run_op up) h ops) ∧
  ∀ u b, gauge (foldl (run_op up) h ops) u b = gauge h u b + (outs up ops out u b - out u b).
Proof.
  revert h out. induction ops as [|o ops IH]; intros h out; simpl; [intros _ ? _; split; [done|intros; lia]|].
  intros (Hin & Hr & Hp) Htr Hg. destruct (run_op_gauge up o h out Hin Hr Htr Hg) as [Htr' Hg'].
  destruct (IH (run_op up h o) (op_out up o out) Hp Htr') as [Ht2 Hg2].
  { intros u b. rewrite Hg'. specialize (Hg u b). lia. }
  split; [done|]. intros u b. rewrite Hg2, Hg'. unfold outs. lia.
Qed.

(** A slot raised, kept while others run and [f] records the outcome, and
    lowered again leaves the gauges to the others. *)
Lemma slot_round_trip (f : HealthRegistry → HealthRegistry) up i p envs k out h :
  (∀ h, tracked up h → tracked up (f h)) → (∀ h u b, gauge (f h) u b = gauge h u b) →
  others_accounted up envs out → up_peers up !! i = Some p →
  tracked up h → (∀ u b, gauge h u b = out k u b) →
  let h' := dec_in_flight (up_name up) (pe_addr p)
              (f (at_others (envs k) (inc_in_flight (up_name up) (pe_addr p) h))) in
  tracked up h' ∧ ∀ u b, gauge h' u b = out (S k) u b.
Proof.
  intros Hft Hfg [Hr Ho] Hp Htr Hg. pose proof Htr as [Hok Hl].
  pose proof (Forall_lookup_1 _ _ _ _ Hl Hp) as (s & Hs & Hin).
  set (n := up_name up) in *. set (a := pe_addr p) in *.
  assert (∀ u b, gauge (inc_in_flight n a h) u b =
            out k u b + (if decide ((u, b) = (n, a)) then 1 else 0)) as Hinc.
  { intros u b. rewrite (inc_gauge n a h s Hok Hs Hin), Hg; [done|].
    rewrite Hg. specialize (Hr k n a). lia. }
  assert (tracked up (inc_in_flight n a h)) as Htr1.
  { apply tracked_step; [|done]. eapply (health_step_ok true); [apply step_inc|done]. }
  destruct (Ho k (inc_in_flight n a h) Htr1) as [Htr2 Hg2].
  { intros u b. rewrite Hinc. case_decide; lia. }
  apply Hft in Htr2 as Htr3. set (h3 := f _) in *.
  assert (∀ u b, gauge h3 u b = out (S k) u b + (if decide ((u, b) = (n, a)) then 1 else 0)) as Hg3.
  { intros u b. unfold h3. rewrite Hfg, Hg2, Hinc. lia. }
  pose proof Htr3 as [Hok3 Hl3]. pose proof (Forall_lookup_1 _ _ _ _ Hl3 Hp) as (s3 & Hs3 & Hin3).
  intros h'. subst h'. split.
  - apply tracked_step; [|done]. eapply (health_step_ok true); [apply step_dec|done].
  - intros u b. rewrite (dec_gauge n a h3 s3 Hok3 Hs3 Hin3), !Hg3.
    rewrite (decide_True_pi (P := (n, a) = (n, a)) eq_refl). specialize (Hr (S k) n a).
    case_decide as Hd; [injection Hd as -> ->; lia|lia].
Qed.

(** One dial returns its slot. *)
Lemma dial_health_gauge up i p timeout envs k out h :
  others_accounted up envs out → in_u 64 (at_record (envs k)) →
  up_peers up !! i = Some p → tracked up h → (∀ u b, gauge h u b = out k u b) →
  tracked up (dial_health up i p timeout (envs k) h) ∧
  ∀ u b, gauge (dial_health up i p timeout (envs k) h) u b = out (S k) u b.
Proof.
  intros Ho Ht Hp Htr Hg.
  apply (slot_round_trip (settle up i timeout (envs k)) up i p envs k out h); try done.
  - intros. by apply settle_tracked.
  - intros. apply settle_gauge.
Qed.

(** C3. The retry loop terminates without a panic.  Whatever the plugins, the
    network and concurrent requests do, it makes at most [attempts] dials, each
    to a peer of the upstream and never twice to the same address, not even when
    the peer list repeats it, all with the one forwarded request; it ends with
    the response of the last peer dialed, not logged yet, with a reply logged
    exactly once with its own status, or with all turns used. *)
Theorem retry_loop_safe (method : bytes) (timeout : option Z) (attempts : Z)
    (fwd : ForwardRequest) (envs : nat → Attempt) (n a : nat) (w : World) :
  ∃ e w' ps, attempt_loop method timeout attempts fwd envs n a w = Ret (e, w') ∧
    w_dialed w' = w_dialed w ++ map (λ p, (pe_addr p, fwd)) ps ∧
    (length ps ≤ n)%nat ∧ NoDup (pe_addr <$> ps) ∧
    Forall (λ p, p ∈ up_peers (ur_up (w_up w)) ∧ pe_addr p ∉ tried w) ps ∧
    match e with
    | Answered i r => w_logged w' = w_logged w ∧ last ps = up_peers (ur_up (w_up w)) !! i ∧
        rc_peer_index (ss_ctx (w_session w')) = Some (Z.of_nat i) ∧ is_Some (last ps)
    | Replied r => w_logged w' = w_logged w ++ [rs_status r]
    | Exhausted => w_logged w' = w_logged w ∧ length ps = n
    end.
Proof using All.
  destruct (attempt_loop_trials method timeout attempts fwd envs n a w) as (ps & e & w' & Hl & Ht).
  exists e, w', (map snd ps).
  destruct (trials_dials _ _ _ _ _ _ _ _ _ _ _ Ht) as (Hd & Hn & Hnd & Hf).
  split_and!; [done|by rewrite Hd, map_map|by rewrite length_map| | |].
  - change (pe_addr <$> map snd ps) with (map pe_addr (map snd ps)). by rewrite map_map.
  - apply Forall_map. eapply Forall_impl; [exact Hf|]. intros [i p] [Hp ?]. simpl in *.
    split; [|done]. by eapply list_elem_of_lookup_2.
  - apply trials_end in Ht. destruct e; try done. by rewrite length_map.
Qed.

(** C2. A request is replayed only when that is safe.  Every dial but the last
    failed: with a connect error, which never delivers the request; or, for an
    idempotent method only, while sending, or at the route timeout when the
    upstream allows retrying on timeout.  A response, or a failure after the
    response head, is never followed by another dial. *)
Theorem replay_only_when_safe (method : bytes) (timeout : option Z) (attempts : Z)
    (fwd : ForwardRequest) (envs : nat → Attempt) (n a : nat) (w : World) :
  ∃ e w' ps, attempt_loop method timeout attempts fwd envs n a w = Ret (e, w') ∧
    w_dialed w' = w_dialed w ++ map (λ p, (pe_addr p, fwd)) ps ∧
    ∀ k, (S k < length ps)%nat →
      match attempt_outcome timeout (envs (a + k)%nat) with
      | Some (Err (ErrConnect _)) => True
      | Some (Err (ErrSend _)) => is_idempotent method = true
      | None => is_idempotent method = true ∧ up_retry_on_timeout (ur_up (w_up w)) = true
      | Some (Err (ErrResponse _)) | Some (Ok _) => False
      end.
Proof using All.
  destruct (attempt_loop_trials method timeout attempts fwd envs n a w) as (ps & e & w' & Hl & Ht).
  exists e, w', (map snd ps).
  destruct (trials_dials _ _ _ _ _ _ _ _ _ _ _ Ht) as (Hd & _).
  split_and!; [done|by rewrite Hd, map_map|]. clear -Ht. rewrite length_map.
  induction Ht as [| | |??? i p w1 ps e w' [] Ht IH]; [intros k Hk; simpl in Hk; lia..|].
  destruct dl_end0 as (_ & _ & Hr). destruct dl_kept0 as [Hup _]. intros [|k] Hk; simpl in Hk.
  - rewrite Nat.add_0_r. unfold retried in Hr.
    destruct (attempt_outcome timeout _) as [[|err]|]; [done| |].
    + unfold may_retry in Hr. destruct (is_idempotent method), err; done.
    + destruct Hr as [Hm Ho]. unfold may_retry, may_retry_timeout in *. reflect_bool.
      by destruct (is_idempotent method).
  - specialize (IH k ltac:(lia)). rewrite Hup in IH. by rewrite <-Nat.add_succ_comm.
Qed.

(** C5. Every in-flight slot taken is given back.  However the attempts end
    (answered, retried, given up, denied, no peer left), and however many requests of
    others start and finish at the peers meanwhile, afterwards each gauge shows
    exactly what the others have outstanding, provided theirs are paired (see
    [paired_gauge]) and a reload meanwhile keeps the upstream's addresses. *)
Theorem in_flight_released (method : bytes) (timeout : option Z) (attempts : Z)
    (fwd : ForwardRequest) (envs : nat → Attempt) (n a : nat) (w w' : World) (e : LoopEnd)
    (out : nat → bytes → SocketAddr → Z) :
  others_accounted (ur_up (w_up w)) envs out →
  (∀ k, in_u 64 (at_record (envs k))) →
  tracked (ur_up (w_up w)) (w_health w) → (∀ u b, gauge (w_health w) u b = out a u b) →
  attempt_loop method timeout attempts fwd envs n a w = Ret (e, w') →
  ∃ k, length (w_dialed w') = (length (w_dialed w) + k)%nat ∧
    tracked (ur_up (w_up w)) (w_health w') ∧
    ∀ u b, gauge (w_health w') u b = out (a + k)%nat u b.
Proof using All.
  intros Ho Hr Htr Hg Hl.
  destruct (attempt_loop_trials method timeout attempts fwd envs n a w) as (ps & e2 & w2 & Hl2 & Ht).
  rewrite Hl in Hl2. injection Hl2 as -> ->. clear Hl. exists (length ps).
  split; [destruct (trials_dials _ _ _ _ _ _ _ _ _ _ _ Ht) as [-> _]; by rewrite length_app, length_map|].
  induction Ht as [|n a w r w' []|n a w i p e w' []|n a w i p w1 ps e w' [] Ht IH]; simpl.
  - by rewrite Nat.add_0_r.
  - by rewrite Nat.add_0_r, ud_health0.
  - rewrite dl_health0, Nat.add_1_r. by apply (dial_health_gauge _ _ _ _ envs a out).
  - destruct (dial_health_gauge (ur_up (w_up w)) i p timeout envs a out (w_health w))
      as [Htr1 Hg1]; [done..|]. rewrite <-dl_health0 in Htr1, Hg1.
    destruct dl_kept0 as [Hup _]. rewrite Hup in IH. rewrite <-Nat.add_succ_comm. by apply IH.
Qed.
End pipeline.

(** * Concrete attempts *)

#[local] Existing Instance ex_guest.
#[local] Existing Instance ex_guest_laws.

(** The first exchange fails to connect, the second is answered. *)
Definition ex_attempt (k : nat) : Attempt := {|
  at_pin := 10; at_pick := 10; at_record := 20; at_elapsed := false;
  at_result := match k with
               | O => Err (ErrConnect (bs "refused"))
               | _ => Ok {| ur_status := 200; ur_headers := [] |}
               end;
  at_others := λ h, h;
  at_others_swrr := λ l, l;
|}.

Definition ex_world : World (M := bytes) := {|
  w_health := ex_reg; w_up := {| ur_up := ex_upstream; ur_swrr := [] |};
  w_session := new_session [ex_plugin "a" FailOpen] [new (bs "a")] ctx_empty []; w_attempts := []; w_dialed := []; w_logged := [];
|}.

Definition ex_forward : ForwardRequest := {|
  fr_method := bs "POST"; fr_path_and_query := bs "/"; fr_headers := []; fr_body := [];
  fr_client_ip := bs "10.0.0.1" |}.

Lemma retry_loop_safe_witness :
  ∃ e w' ps,
    attempt_loop (bs "POST") None 2 ex_forward ex_attempt 2 0 ex_world = Ret (e, w') ∧
    NoDup (pe_addr <$> ps) ∧ (length ps ≤ 2)%nat ∧
    w_dialed w' = map (λ p, (pe_addr p, ex_forward)) ps.
Proof.
  destruct (retry_loop_safe (bs "POST") None 2 ex_forward ex_attempt 2 0 ex_world)
    as (e & w' & ps & Hl & Hd & Hn & Hnd & _).
  exists e, w', ps. exact (conj Hl (conj Hnd (conj Hn Hd))).
Defined.

(** The second dial of the POST is allowed only because the first never
    connected. *)
Lemma replay_only_when_safe_witness :
  ∃ e w' (ps : list Peer),
    attempt_loop (bs "POST") None 2 ex_forward ex_attempt 2 0 ex_world = Ret (e, w') ∧
    length (w_dialed w') = length ps ∧
    ((1 < length ps)%nat → ∃ m, at_result (ex_attempt 0) = Err (ErrConnect m)).
Proof.
  destruct (replay_only_when_safe (bs "POST") None 2 ex_forward ex_attempt 2 0 ex_world)
    as (e & w' & ps & Hl & Hd & Hk). exists e, w', ps.
  split_and!; [done|rewrite Hd; simpl; apply length_map|]. intros H1. by eexists.
Defined.

Lemma ex_reg_gauge u b : gauge ex_reg u b = 0.
Proof.
  unfold gauge, ex_reg, register. simpl. destruct (decide (u = ex_up)) as [->|Hne].
  - rewrite lookup_insert_eq. unfold slots_gauge.
    destruct (addr_slot _ b) as [[|[|?]]|]; done.
  - by rewrite lookup_insert_ne.
Qed.

Lemma ex_reg_tracked : tracked ex_upstream ex_reg.
Proof.
  split; [exact (Health.health_reachable_ok false ex_reg ex_reg_reachable)|].
  repeat constructor; eexists; (split; [apply lookup_insert_eq|]); simpl; [by left|by right; left].
Qed.

(** The first peer as others use it: a request of theirs starts at it during this
    request's first exchange and finishes during the second. *)
Definition ex_ops (k : nat) : list SlotOp :=
  match k with
  | 0%nat => [TakeSlot (loopback 9001)]
  | 1%nat => [GiveSlot (loopback 9001)]
  | _ => []
  end.

Definition ex_busy (k : nat) : Attempt := {|
  at_pin := at_pin (ex_attempt k); at_pick := at_pick (ex_attempt k); at_record := at_record (ex_attempt k);
  at_elapsed := at_elapsed (ex_attempt k); at_result := at_result (ex_attempt k);
  at_others := λ h, foldl (run_op ex_upstream) h (ex_ops k); at_others_swrr := λ l, l |}.

Definition ex_out (k : nat) (u : bytes) (b : SocketAddr) : Z :=
  if decide (k = 1%nat ∧ (u, b) = (ex_up, loopback 9001)) then 1 else 0.

Lemma ex_busy_accounted : others_accounted ex_upstream ex_busy ex_out.
Proof.
  split; [intros k u b; unfold ex_out; case_decide; lia|]. intros k h Htr Hg.
  assert (∀ u b, outs ex_upstream (ex_ops k) (ex_out k) u b = ex_out (S k) u b) as Ho.
  { intros u b. destruct k as [|[|k]]; unfold outs; cbn [ex_ops foldl]; unfold op_out, ex_out; simpl;
      repeat case_decide; intuition congruence || lia. }
  destruct (paired_gauge ex_upstream (ex_ops k) h (ex_out k)) as [Ht Hga]; [|done|done|].
  - destruct k as [|[|k]]; simpl; [split_and!; [by left|by vm_compute|by vm_compute|done]..|done].
  - split; [exact Ht|]. intros u b. rewrite <-Ho. apply Hga.
Qed.

Lemma in_flight_released_witness :
  match attempt_loop (bs "POST") None 2 ex_forward ex_busy 2 0 ex_world with
  | Ret (_, w') => length (w_dialed w') = 2%nat ∧ ∀ a, gauge (w_health w') ex_up a = 0
  | Panic => False
  end.
Proof.
  assert (match attempt_loop (bs "POST") None 2 ex_forward ex_busy 2 0 ex_world with
          | Ret (_, w') => bool_decide (length (w_dialed w') = 2%nat) | Panic => false end = true) as Hn
    by (vm_compute; reflexivity).
  destruct (attempt_loop (bs "POST") None 2 ex_forward ex_busy 2 0 ex_world) as [[e w']|] eqn:E; [|discriminate Hn].
  apply bool_decide_eq_true in Hn. split; [exact Hn|].
  destruct (in_flight_released (bs "POST") None 2 ex_forward ex_busy 2 0 ex_world w' e ex_out)
    as (k & Hk & _ & Hg);
    [exact ex_busy_accounted|done|exact ex_reg_tracked|intros u b; rewrite ex_reg_gauge; reflexivity|exact E|].
  rewrite Hn in Hk. simpl in Hk. subst k. intros a. rewrite Hg. reflexivity.
Defined.
