(* ===== verification/Gateway.v ===== *)
(** One request from accept to response ([openrusty-server/src/pipeline/mod.rs],
    [handle_request]): routing, the phases before the proxy attempts, the
    attempts, the header filter and the hand-off to the streaming body.  The
    WebSocket branch ([ws.rs]) is continued in [WebSocket]. *)

From S2P Require Import Prelude Text Net Phase Config Context Upstream Health Forward.
From S2P Require Import HostState Abi Linker Session Router Peer Shortcut Pipeline.
From Stdlib Require Import ZArith Lia.
From stdpp Require Import options.
Local Open Scope Z_scope.

Definition req_ctx (method path query version : bytes) (client_addr : SocketAddr) (hs : headers)
    (routing : option nat * option bytes) : ReqCtx := {|
  rc_method := method; rc_path := path; rc_query := query; rc_version := version;
  rc_client_addr := client_addr; rc_headers := hs; rc_route_index := routing.1;
  rc_upstream := routing.2; rc_peer_index := None; rc_attempts := 0; rc_tried := [];
|}.

Section gateway.
Context `{GuestMemory M} `{!Guest M}.
Context (header_name : bytes → option bytes) (header_value : bytes → option bytes).

Record Request := {
  rq_method : bytes;
  rq_path : bytes;
  rq_query : option bytes;
  rq_http2 : bool;
  rq_headers : list (bytes * option bytes);
  rq_authority : option bytes;
  rq_remote : SocketAddr;
  rq_body : option bytes;               (* [None]: over the limit or unreadable *)
}.

(** Pinned snapshots and settings the request runs against. *)
Record Gateway := {
  gw_plugins : list LoadedPlugin;
  gw_states : list HostState;
  gw_routes : list RouteConfig;
  gw_upstreams : gmap bytes UpstreamRt;
  gw_health : HealthRegistry;
  gw_log_on_no_route : bool;
  gw_now : Z;                           (* the routing-time clock reading *)
}.

Inductive Reply :=
| Plain (r : Response)
| Streamed (status : Z) (hs : headers) (peer : bytes) (s : Session M)
| Upgrade (s : Session M).

(** The reply, its metrics label, and what the request did. *)
Record Handled := {
  ha_reply : Reply;
  ha_label : option bytes;
  ha_logged : list Z;
  ha_dialed : list (SocketAddr * ForwardRequest);
  ha_health : HealthRegistry;
  ha_upstream : option UpstreamRt;
  ha_attempts : list (bytes * bytes);
  ha_session : option (Session M);
}.

Definition visible_headers (hs : list (bytes * option bytes)) : headers :=
  omap (λ h, v ← h.2; Some (h.1, v)) hs.

Definition peer_views (h : HealthRegistry) (up : Upstream) (now : Z) : list PeerView :=
  imap (λ i p, {| pv_name := addr_to_string (pe_addr p); pv_addr := addr_to_string (pe_addr p);
                  pv_healthy := is_healthy h (up_name up) i now |}) (up_peers up).

Definition handled (label : option bytes) (r : Reply) (w : World) : Handled :=
  {| ha_reply := r; ha_label := label; ha_logged := w_logged w; ha_dialed := w_dialed w;
     ha_health := w_health w; ha_upstream := Some (w_up w); ha_attempts := w_attempts w;
     ha_session := Some (w_session w) |}.

(** The short-circuit of a terminal decision. *)
Definition short_circuit (d : Decision) (w : World) : option (Reply * World) :=
  match d with
  | Deny st =>
      let w := finish_log st w in
      Some (Plain (deny_response header_name header_value (w_session w) st), w)
  | Done =>
      let w := finish_log (log_status (w_session w) 204) w in
      Some (Plain (done_response header_name header_value (w_session w)), w)
  | _ => None
  end.

Fixpoint pre_proxy (phases : list Phase) (w : World) : option (Reply * World) * World :=
  match phases with
  | [] => (None, w)
  | ph :: phases =>
      let '(d, s) := run_phase ph (w_session w) in
      let w := w_set_session s w in
      match short_circuit d w with
      | Some r => (Some r, w)
      | None => pre_proxy phases w
      end
  end.

(** The response side: header filter, then hand-off to the streaming body. *)
Definition seeded_headers (r : UpResponse) : headers :=
  filter (λ h, (starts_with (bs ":") h.1 || is_hop_by_hop h.1) = false)
    (visible_headers (ur_headers r)).

Definition respond (r : UpResponse) (w : World) : exec (Reply * World) :=
  let w := w_set_session (set_resp_headers (seeded_headers r) (w_session w)) w in
  let '(d, s) := run_phase HeaderFilter (w_session w) in
  let w := w_set_session s w in
  match d with
  | Deny st => Ret (Plain (text_response st (status_line st)), finish_log st w)
  | _ =>
      p ← index (up_peers (ur_up (w_up w)))
            (from_option Z.to_nat 0%nat (rc_peer_index (ss_ctx s)));
      Ret (Streamed (ur_status r) (omap (valid_header header_name header_value) (ss_resp_headers s))
             (addr_to_string (pe_addr p)) s, w)
  end.

(** The request forwarded upstream, from the post-phase context. *)
Definition forward_of (rq : Request) (body : bytes) (ctx : ReqCtx) : ForwardRequest := {|
  fr_method := rq_method rq;
  fr_path_and_query := if bool_decide (rc_query ctx = []) then rc_path ctx
                       else rc_path ctx ++ bs "?" ++ rc_query ctx;
  fr_headers := rc_headers ctx; fr_body := body;
  fr_client_ip := ip_to_string (ip (rq_remote rq)) |}.

(** Steps 10-12: the proxy attempts and what follows them. *)
Definition proxy_request (rq : Request) (timeout : option Z) (body : bytes)
    (envs : nat → Attempt) (w : World) : exec (Reply * World) :=
  let fwd := forward_of rq body (ss_ctx (w_session w)) in
  let attempts := wrap 32 (up_retries (ur_up (w_up w)) + 1) in
  '(e, w) ← attempt_loop (rq_method rq) timeout attempts fwd envs (Z.to_nat attempts) 0 w;
  match e with
  | Answered _ r => respond r w
  | Replied r => Ret (Plain r, w)
  | Exhausted =>
      Ret (Plain (text_response 502 (bs "502 no upstream responded" ++ [x0a])), finish_log 502 w)
  end.

(** Steps 6-12, once the request is routed. *)
Definition routed (rq : Request) (timeout : option Z) (envs : nat → Attempt) (w : World)
    : exec (Reply * World) :=
  match pre_proxy [PostRead; Rewrite; Access] w with
  | (Some (r, w), _) => Ret (r, w)
  | (None, w) =>
      if is_websocket_upgrade (rq_method rq) (rc_headers (ss_ctx (w_session w)))
      then Ret (Upgrade (w_session w), w)
      else match rq_body rq with
           | None =>
               Ret (Plain (text_response 413 (bs "413 payload too large" ++ [x0a])),
                    finish_log 413 w)
           | Some body =>
               let w := w_set_session (set_req_body body (w_session w)) w in
               match pre_proxy [Content] w with
               | (Some (r, w), _) => Ret (r, w)
               | (None, w) => proxy_request rq timeout body envs w
               end
           end
  end.

(** A request that reaches no upstream: logged when so configured. *)
Definition unrouted (gw : Gateway) (ctx : ReqCtx) (status : Z) (msg : bytes)
    (label : option bytes) : Handled :=
  let s := new_session (gw_plugins gw) (gw_states gw) ctx [] in
  {| ha_reply := Plain (text_response status msg); ha_label := label;
     ha_logged := if gw_log_on_no_route gw then [status] else [];
     ha_dialed := []; ha_health := gw_health gw; ha_upstream := None; ha_attempts := [];
     ha_session := if gw_log_on_no_route gw then Some (log_phase s) else None |}.

Definition handle_request (gw : Gateway) (rq : Request) (envs : nat → Attempt) : exec Handled :=
  let hs := fold_h2_authority (visible_headers (rq_headers rq)) (rq_authority rq) in
  let mk := req_ctx (rq_method rq) (rq_path rq) (default [] (rq_query rq))
              (if rq_http2 rq then bs "HTTP/2" else bs "HTTP/1.1") (rq_remote rq) hs in
  match match_route (gw_routes gw) (request_host hs) (rq_path rq) with
  | None => Ret (unrouted gw (mk (None, None)) 404 (bs "404 not found" ++ [x0a]) None)
  | Some idx =>
      route ← index (gw_routes gw) idx;
      match gw_upstreams gw !! rt_upstream route with
      | None =>
          Ret (unrouted gw (mk (Some idx, Some (rt_upstream route))) 502
                 (bs "502 unknown upstream" ++ [x0a]) (Some (rt_path_prefix route)))
      | Some up_rt =>
          let s := new_session (gw_plugins gw) (gw_states gw)
                     (mk (Some idx, Some (up_name (ur_up up_rt))))
                     (peer_views (gw_health gw) (ur_up up_rt) (gw_now gw)) in
          let w := {| w_health := gw_health gw; w_up := up_rt; w_session := s;
                      w_attempts := []; w_dialed := []; w_logged := [] |} in
          '(r, w) ← routed rq (route_timeout (rt_timeout_ms route)) envs w;
          Ret (handled (Some (rt_path_prefix route)) r w)
      end
  end.

(** * What a request does *)

(** Phases that ran in order, none of them deciding the request. *)
Inductive passed : list Phase → Session M → Session M → Prop :=
| passed_nil s : passed [] s s
| passed_cons ph phases s d s1 s2 :
    run_phase ph s = (d, s1) → is_terminal d = false → passed phases s1 s2 →
    passed (ph :: phases) s s2.

(** A complete reply is logged once, with its own status, except that a [Done]
    reply is built from the session the log phase leaves; a streamed reply or an
    upgrade is left to its body or tunnel. *)
Definition reply_logged (rep : Reply) (before : list Z) (w' : World (M := M)) : Prop :=
  match rep with
  | Plain r => ∃ st, w_logged w' = before ++ [st] ∧
      (rs_status r = st ∨ ∃ s, w_session w' = log_phase s ∧
         st = rs_status (done_response header_name header_value s) ∧
         r = done_response header_name header_value (w_session w'))
  | _ => w_logged w' = before
  end.

(** Each world the request goes through keeps the sessions' peer views in step
    with the upstream. *)
Definition views_ok (w : World (M := M)) : Prop :=
  length (ss_peers (w_session w)) = length (up_peers (ur_up (w_up w))).

(** What plugins can have done to the routed request's context. *)
Definition ctx_effect (s s' : Session M) : Prop :=
  confined (length (ss_peers s)) (ss_ctx s) (ss_ctx s') ∧ ss_peers s' = ss_peers s.

#[local] Instance ctx_effect_preorder : PreOrder ctx_effect.
Proof.
  split; [by intros s|]. intros a b c [H1 E1] [H2 E2]. rewrite E1 in H2.
  split; [by etrans|congruence].
Qed.

Context `{!GuestLaws M}.

Lemma run_phase_ctx ph s d s' : run_phase ph s = (d, s') → ctx_effect s s'.
Proof using All. by intros []%run_phase_effect. Qed.

Lemma passed_ctx phases s s' : passed phases s s' → ctx_effect s s'.
Proof using All.
  induction 1 as [|?????? H1 _ _ IH]; [done|]. etrans; [by eapply run_phase_ctx|exact IH].
Qed.

Lemma short_circuit_spec d w :
  match short_circuit d w with
  | None => is_terminal d = false
  | Some (rep, w') => is_terminal d = true ∧ reply_logged rep (w_logged w) w' ∧
      ∃ st, w' = finish_log st w
  end.
Proof using Type.
  destruct d as [| | |st]; simpl; try done; (split_and!; [done| |by eexists]);
    eexists; (split; [reflexivity|]); [right|by left].
  exists (w_session w). split_and!; [done|apply log_status_done|done].
Qed.

Lemma pre_proxy_spec phases w :
  match pre_proxy phases w with
  | (None, w') => passed phases (w_session w) (w_session w') ∧
      w' = w_set_session (w_session w') w
  | (Some (rep, w'), _) => reply_logged rep (w_logged w) w' ∧ w_dialed w' = w_dialed w ∧
      w_health w' = w_health w
  end.
Proof using Type.
  revert w. induction phases as [|ph phases IH]; intros w; cbn [pre_proxy].
  { split; [constructor|by destruct w]. }
  destruct (run_phase ph (w_session w)) as [d s] eqn:E. simpl.
  pose proof (short_circuit_spec d (w_set_session s w)) as Hs.
  destruct (short_circuit _ _) as [[rep w']|].
  - by destruct Hs as (_ & ? & st & ->).
  - specialize (IH (w_set_session s w)). destruct (pre_proxy _ _) as [[[rep w']|] w1]; [done|].
    destruct IH as [Hp Hw]. split; [by econstructor|]. by rewrite Hw at 1.
Qed.

Lemma respond_spec r i w :
  views_ok w → rc_peer_index (ss_ctx (w_session w)) = Some (Z.of_nat i) →
  (i < length (up_peers (ur_up (w_up w))))%nat →
  ∃ rep w', respond r w = Ret (rep, w') ∧ reply_logged rep (w_logged w) w' ∧
    w_dialed w' = w_dialed w.
Proof using All.
  intros Hv Hi Hlt. unfold respond. set (s0 := set_resp_headers _ _).
  destruct (run_phase HeaderFilter s0) as [d s] eqn:E. simpl. rewrite E.
  apply run_phase_ctx in E as [C _].
  assert (∃ p, index (up_peers (ur_up (w_up w)))
            (from_option Z.to_nat 0%nat (rc_peer_index (ss_ctx s))) = Ret p) as [p Hp].
  { destruct (index_lt (up_peers (ur_up (w_up w)))
      (from_option Z.to_nat 0%nat (rc_peer_index (ss_ctx s)))) as (p & ? & _); [|by exists p].
    destruct (cf_peer _ _ _ C) as [->|(j & -> & Hj)]; simpl.
    - rewrite Hi. simpl. lia.
    - change (ss_peers s0) with (ss_peers (w_session w)) in Hj. rewrite Hv in Hj. lia. }
  destruct d; simpl; try (rewrite Hp; simpl; by do 2 eexists).
  do 2 eexists. split; [done|]. split; [|done]. eexists. split; [done|by left].
Qed.

Lemma proxy_request_spec rq timeout body envs w :
  views_ok w → ∃ rep w' ds, proxy_request rq timeout body envs w = Ret (rep, w') ∧
    reply_logged rep (w_logged w) w' ∧ w_dialed w' = w_dialed w ++ ds ∧
    Z.of_nat (length ds) <= wrap 32 (up_retries (ur_up (w_up w)) + 1) ∧ NoDup (map fst ds) ∧
    Forall (λ d, d.1 ∈ pe_addr <$> up_peers (ur_up (w_up w)) ∧
                 d.2 = forward_of rq body (ss_ctx (w_session w))) ds.
Proof using All.
  intros Hv. unfold proxy_request. set (fwd := forward_of _ _ _).
  set (attempts := wrap 32 _). set (n := Z.to_nat attempts).
  assert (0 <= attempts) as Hpos by (apply (wrap_range 32); lia).
  destruct (attempt_loop_trials (rq_method rq) timeout attempts fwd envs n 0 w)
    as (ps & e & w1 & -> & Ht).
  destruct (trials_dials _ _ _ _ _ _ _ _ _ _ _ Ht) as (Hd & Hn & Hnd & Hf).
  set (ds := map (λ ip : nat * Peer, (pe_addr ip.2, fwd)) ps) in *.
  assert (Z.of_nat (length ds) <= attempts ∧ NoDup (map fst ds) ∧
    Forall (λ d, d.1 ∈ pe_addr <$> up_peers (ur_up (w_up w)) ∧ d.2 = fwd) ds) as Hds.
  { unfold ds. rewrite length_map, map_map. split_and!; [lia|done|]. apply Forall_map.
    eapply Forall_impl; [exact Hf|]. intros [i p] [Hp _]. simpl. split; [|done].
    apply list_elem_of_fmap. exists p. split; [done|]. by eapply list_elem_of_lookup_2. }
  apply trials_kept in Ht as Hk. destruct Hk as [Hup Hps]. apply trials_end in Ht.
  destruct e as [i r|r|]; simpl.
  - destruct Ht as (Hl & Hla & Hi & Hs). rewrite Hla in Hs.
    destruct (respond_spec r i w1) as (rep & w' & -> & Hr & Hdd).
    { unfold views_ok. by rewrite Hps, Hup. } { done. }
    { rewrite Hup. by apply lookup_lt_is_Some_1. }
    exists rep, w', ds. rewrite Hl in Hr. by rewrite Hdd.
  - exists (Plain r), w1, ds. split_and!; try done; try apply Hds. eexists. split; [done|by left].
  - do 3 eexists. split; [reflexivity|]. destruct Ht as [Hl _]. simpl. split_and!; try done; try apply Hds.
    eexists. simpl. rewrite Hl. split; [done|by left].
Qed.

(** A dial the phases allowed: none of the four phases before it decided the
    request, it is no upgrade, its body was read in full, and what is sent is
    the phases' version of the request. *)
Definition allowed (rq : Request) (s0 : Session M) (fwd : ForwardRequest) : Prop :=
  ∃ s1 s2 body, passed [PostRead; Rewrite; Access] s0 s1 ∧
    is_websocket_upgrade (rq_method rq) (rc_headers (ss_ctx s1)) = false ∧
    rq_body rq = Some body ∧ passed [Content] (set_req_body body s1) s2 ∧
    fwd = forward_of rq body (ss_ctx s2).

Lemma routed_spec rq timeout envs w :
  views_ok w → ∃ rep w' ds, routed rq timeout envs w = Ret (rep, w') ∧
    reply_logged rep (w_logged w) w' ∧ w_dialed w' = w_dialed w ++ ds ∧
    Z.of_nat (length ds) <= wrap 32 (up_retries (ur_up (w_up w)) + 1) ∧ NoDup (map fst ds) ∧
    Forall (λ d, d.1 ∈ pe_addr <$> up_peers (ur_up (w_up w)) ∧
                 allowed rq (w_session w) d.2) ds.
Proof using All.
  intros Hv. unfold routed. pose proof (pre_proxy_spec [PostRead; Rewrite; Access] w) as H1.
  assert (0 <= wrap 32 (up_retries (ur_up (w_up w)) + 1)) as Hpos by (apply (wrap_range 32); lia).
  assert (∀ rep (w' : World (M := M)), reply_logged rep (w_logged w) w' → w_dialed w' = w_dialed w →
    ∃ rep0 w0 ds, Ret (rep, w') = Ret (rep0, w0) ∧ reply_logged rep0 (w_logged w) w0 ∧
      w_dialed w0 = w_dialed w ++ ds ∧
      Z.of_nat (length ds) <= wrap 32 (up_retries (ur_up (w_up w)) + 1) ∧ NoDup (map fst ds) ∧
      Forall (λ d, d.1 ∈ pe_addr <$> up_peers (ur_up (w_up w)) ∧ allowed rq (w_session w) d.2) ds)
    as Hstop.
  { intros rep w' Hr Hd. exists rep, w', []. rewrite app_nil_r. split_and!; try done. constructor. }
  destruct (pre_proxy _ w) as [[[rep w']|] w1]; [by apply Hstop; apply H1|].
  destruct H1 as [Hp Hw]. revert Hp Hw. generalize (w_session w1) as s1. intros s1 Hp ->.
  change (w_session (w_set_session s1 w)) with s1.
  destruct (is_websocket_upgrade _ _) eqn:Ews; [by apply Hstop|].
  destruct (rq_body rq) as [body|] eqn:Eb; cycle 1.
  { apply Hstop; [|done]. eexists. split; [done|by left]. }
  set (w1 := w_set_session _ (w_set_session s1 w)).
  pose proof (pre_proxy_spec [Content] w1) as H2.
  destruct (pre_proxy [Content] w1) as [[[rep w']|] w2]; [by apply Hstop; apply H2|].
  destruct H2 as [Hp2 Hw2].
  apply passed_ctx in Hp as C1. apply passed_ctx in Hp2 as C2.
  destruct C1 as [_ C1]. destruct C2 as [_ C2]. simpl in C2.
  destruct (proxy_request_spec rq timeout body envs w2) as (rep & w' & ds & -> & Hr & Hd & Hl & Hnd & Hf).
  { unfold views_ok. rewrite C2, Hw2. simpl. by rewrite C1. }
  rewrite Hw2 in Hr, Hd, Hl, Hf. simpl in *. exists rep, w', ds. split_and!; try done.
  eapply Forall_impl; [exact Hf|]. intros d [Ha Hd2]. split; [done|].
  by exists s1, (w_session w2), body.
Qed.

(** How a routed request starts. *)
Definition start_session (gw : Gateway) (rq : Request) (idx : nat) (up : Upstream) : Session M :=
  new_session (gw_plugins gw) (gw_states gw)
    (req_ctx (rq_method rq) (rq_path rq) (default [] (rq_query rq))
       (if rq_http2 rq then bs "HTTP/2" else bs "HTTP/1.1") (rq_remote rq)
       (fold_h2_authority (visible_headers (rq_headers rq)) (rq_authority rq))
       (Some idx, Some (up_name up)))
    (peer_views (gw_health gw) up (gw_now gw)).

Lemma handle_request_spec gw rq envs :
  let hs := fold_h2_authority (visible_headers (rq_headers rq)) (rq_authority rq) in
  ∃ ha, handle_request gw rq envs = Ret ha ∧
    match match_route (gw_routes gw) (request_host hs) (rq_path rq) with
    | None => ha_label ha = None ∧ ha_dialed ha = [] ∧ ∃ r, ha_reply ha = Plain r ∧
        rs_status r = 404 ∧ ha_logged ha = if gw_log_on_no_route gw then [404] else []
    | Some idx => ∃ route, gw_routes gw !! idx = Some route ∧
        ha_label ha = Some (rt_path_prefix route) ∧
        match gw_upstreams gw !! rt_upstream route with
        | None => ha_dialed ha = [] ∧ ∃ r, ha_reply ha = Plain r ∧ rs_status r = 502 ∧
            ha_logged ha = if gw_log_on_no_route gw then [502] else []
        | Some up_rt => ∃ w', reply_logged (ha_reply ha) [] w' ∧
            ha_logged ha = w_logged w' ∧ ha_session ha = Some (w_session w') ∧
            Z.of_nat (length (ha_dialed ha)) <= wrap 32 (up_retries (ur_up up_rt) + 1) ∧
            NoDup (map fst (ha_dialed ha)) ∧
            Forall (λ d, d.1 ∈ pe_addr <$> up_peers (ur_up up_rt) ∧
              allowed rq (start_session gw rq idx (ur_up up_rt)) d.2) (ha_dialed ha)
        end
    end.
Proof using All.
  intros hs. unfold handle_request. fold hs.
  destruct (match_route _ _ _) as [idx|] eqn:Em; cycle 1.
  { eexists. split; [reflexivity|]. split_and!; try done. by eexists. }
  apply match_route_in_range in Em as [route Hr].
  pose proof (proj2 (index_Ret _ _ _) Hr) as ->. simpl.
  destruct (gw_upstreams gw !! rt_upstream route) as [up_rt|] eqn:Eu; cycle 1.
  { eexists. split; [reflexivity|]. exists route. split_and!; try done. rewrite Eu.
    split; [done|]. by eexists. }
  set (w := {| w_health := _ |}).
  destruct (routed_spec rq (route_timeout (rt_timeout_ms route)) envs w)
    as (rep & w' & ds & -> & Hl & Hd & Hn & Hnd & Hf).
  { unfold views_ok. simpl. unfold peer_views. by rewrite length_imap. }
  eexists. split; [reflexivity|]. exists route. split_and!; try done. rewrite Eu.
  exists w'. simpl in *. rewrite Hd. by split_and!.
Qed.

Lemma allowed_confined rq s0 fwd :
  allowed rq s0 fwd →
  ∃ c body, rq_body rq = Some body ∧ confined (length (ss_peers s0)) (ss_ctx s0) c ∧
    fwd = forward_of rq body c.
Proof using All.
  intros (s1 & s2 & body & Hp & _ & Hb & Hc & ->). exists (ss_ctx s2), body.
  split_and!; [done| |done]. apply passed_ctx in Hp as [C1 E1]. apply passed_ctx in Hc as [C2 _].
  simpl in C2. rewrite E1 in C2. by etrans.
Qed.

(** C4. The handler always answers, and a complete reply is logged exactly once,
    with two exceptions.  For any plugins, network behaviour and concurrent activity
    [handle_request] returns without a panic; a complete reply was logged once with
    its own status, except that a [Done] reply is logged with the status it had
    before the log phase ran and built from the session that phase left (the two can
    differ), and that the 404 and 502 of a request no route or upstream serves are
    not logged at all when [log_on_no_route] is off; a streamed reply or an upgrade
    is not logged yet; the label is missing exactly for unrouted requests. *)
Theorem handle_request_logs_once (gw : Gateway) (rq : Request) (envs : nat → Attempt) :
  let hs := fold_h2_authority (visible_headers (rq_headers rq)) (rq_authority rq) in
  ∃ ha, handle_request gw rq envs = Ret ha ∧
    (ha_label ha = None ↔ match_route (gw_routes gw) (request_host hs) (rq_path rq) = None) ∧
    match ha_reply ha with
    | Plain r =>
        (∃ st, ha_logged ha = [st] ∧
           (rs_status r = st ∨ ∃ s, ha_session ha = Some (log_phase s) ∧
              st = rs_status (done_response header_name header_value s) ∧
              r = done_response header_name header_value (log_phase s))) ∨
        (ha_logged ha = [] ∧ gw_log_on_no_route gw = false ∧ ha_dialed ha = [] ∧
           rs_status r ∈ [404; 502])
    | _ => ha_logged ha = []
    end.
Proof using All.
  intros hs. destruct (handle_request_spec gw rq envs) as (ha & Hha & Hs). fold hs in Hs.
  exists ha. split; [done|]. destruct (match_route _ _ _) as [idx|].
  - destruct Hs as (route & _ & Hla & Hs). split; [by rewrite Hla|].
    destruct (gw_upstreams gw !! rt_upstream route) as [up_rt|].
    + destruct Hs as (w' & Hr & Hl & Hse & _). rewrite Hl. destruct (ha_reply ha); [|done..].
      left. destruct Hr as (st & Hst & Hd). exists st. split; [done|].
      destruct Hd as [?|(s & Hs & ? & Hr)]; [by left|right]. exists s. by rewrite Hse, <-Hs.
    + destruct Hs as (Hd & r & -> & Hst & Hl). rewrite Hl. destruct (gw_log_on_no_route gw).
      * left. exists 502. split; [done|by left].
      * right. split_and!; try done. rewrite Hst. by right; left.
  - destruct Hs as (Hla & Hd & r & -> & Hst & Hl). split; [by rewrite Hla|]. rewrite Hl.
    destruct (gw_log_on_no_route gw).
    + left. exists 404. split; [done|by left].
    + right. split_and!; try done. rewrite Hst. by left.
Qed.

(** C1. What can reach an upstream.  Every dial of a request goes to a peer of
    the upstream its route names, no address twice and at most [retries + 1]
    times; the pre-proxy phases all ran and none decided the request; the body
    was read in full; and the request sent is the client's, with its method,
    body and [content-length] headers untouched and any rewritten path or query
    validated. *)
Theorem dials_are_gated (gw : Gateway) (rq : Request) (envs : nat → Attempt) (ha : Handled)
    (a : SocketAddr) (fwd : ForwardRequest) :
  handle_request gw rq envs = Ret ha → (a, fwd) ∈ ha_dialed ha →
  let hs := fold_h2_authority (visible_headers (rq_headers rq)) (rq_authority rq) in
  ∃ idx route up_rt,
    match_route (gw_routes gw) (request_host hs) (rq_path rq) = Some idx ∧
    gw_routes gw !! idx = Some route ∧ gw_upstreams gw !! rt_upstream route = Some up_rt ∧
    (∃ p, p ∈ up_peers (ur_up up_rt) ∧ pe_addr p = a) ∧ NoDup (map fst (ha_dialed ha)) ∧
    Z.of_nat (length (ha_dialed ha)) <= wrap 32 (up_retries (ur_up up_rt) + 1) ∧
    allowed rq (start_session gw rq idx (ur_up up_rt)) fwd ∧
    fr_method fwd = rq_method rq ∧ rq_body rq = Some (fr_body fwd) ∧
    protected_headers (fr_headers fwd) = protected_headers hs ∧
    ∃ p q, fr_path_and_query fwd = (if bool_decide (q = []) then p else p ++ bs "?" ++ q) ∧
      (p = rq_path rq ∨ valid_uri p = true) ∧ (q = default [] (rq_query rq) ∨ valid_query q = true).
Proof using All.
  intros Hh Hin hs. destruct (handle_request_spec gw rq envs) as (ha2 & Hha & Hs). fold hs in Hs.
  rewrite Hh in Hha. injection Hha as <-. destruct (match_route _ _ _) as [idx|]; cycle 1.
  { destruct Hs as (_ & Hd & _). rewrite Hd in Hin. by apply elem_of_nil in Hin. }
  destruct Hs as (route & Hr & _ & Hs). exists idx, route.
  destruct (gw_upstreams gw !! rt_upstream route) as [up_rt|]; cycle 1.
  { destruct Hs as (Hd & _). rewrite Hd in Hin. by apply elem_of_nil in Hin. }
  destruct Hs as (w' & _ & _ & _ & Hn & Hnd & Hf). exists up_rt.
  rewrite Forall_forall in Hf. destruct (Hf _ Hin) as [Ha Hal]. simpl in Ha, Hal.
  destruct (allowed_confined _ _ _ Hal) as (c & body & Hb & C & Hc).
  apply list_elem_of_fmap in Ha as (p & -> & Hp). split_and!; try done.
  - by exists p.
  - by rewrite Hc.
  - by rewrite Hc.
  - rewrite Hc. exact (cf_protected _ _ _ C).
  - rewrite Hc. exists (rc_path c), (rc_query c). split_and!; [done|apply (cf_path _ _ _ C)|].
    apply (cf_query _ _ _ C).
Qed.
End gateway.

(** * Concrete requests *)

#[local] Existing Instance ex_guest.
#[local] Existing Instance ex_guest_laws.

Definition ex_route : RouteConfig := {|
  rt_path_prefix := bs "/"; rt_host := None; rt_exact := false; rt_upstream := ex_up;
  rt_timeout_ms := 0 |}.

Definition ex_gateway : Gateway := {|
  gw_plugins := [ex_plugin "a" FailOpen]; gw_states := [new (bs "a")]; gw_routes := [ex_route];
  gw_upstreams := {[ ex_up := {| ur_up := ex_upstream; ur_swrr := [] |} ]};
  gw_health := ex_reg; gw_log_on_no_route := true; gw_now := 5 |}.

Definition ex_request (method path : string) : Request := {|
  rq_method := bs method; rq_path := bs path; rq_query := Some (bs "q=1"); rq_http2 := false;
  rq_headers := [(bs "host", Some (bs "example.org")); (bs "content-length", Some (bs "4"))];
  rq_authority := None; rq_remote := loopback 50000; rq_body := Some (bs "body") |}.

Abbreviation ex_handled rq := (handle_request Some Some ex_gateway rq ex_attempt).

Lemma handle_request_logs_once_witness :
  ∃ ha, ex_handled (ex_request "GET" "/a") = Ret ha ∧ ha_label ha ≠ None.
Proof.
  destruct (handle_request_logs_once Some Some ex_gateway (ex_request "GET" "/a") ex_attempt)
    as (ha & Hh & Hl & _).
  exists ha. split; [done|]. rewrite Hl. by vm_compute.
Defined.

(** Two dials of one POST: the first peer refused the connection. *)
Lemma dials_are_gated_witness :
  match ex_handled (ex_request "POST" "/a") with
  | Ret ha => length (ha_dialed ha) = 2%nat ∧
      Forall (λ d, protected_headers (fr_headers d.2) =
                     [(bs "content-length", bs "4")] ∧
                   fr_body d.2 = bs "body") (ha_dialed ha)
  | Panic => False
  end.
Proof.
  assert (match ex_handled (ex_request "POST" "/a") with
          | Ret ha => length (ha_dialed ha) = 2%nat | Panic => False end) as Hn by by vm_compute.
  destruct (ex_handled (ex_request "POST" "/a")) as [ha|] eqn:E; [|done]. split; [done|].
  apply Forall_forall. intros [a fwd] Hin.
  destruct (dials_are_gated Some Some ex_gateway (ex_request "POST" "/a") ex_attempt ha a fwd E Hin)
    as (idx & route & up & _ & _ & _ & _ & _ & _ & _ & _ & Hb & Hp & _).
  cbn [snd]. split; [rewrite Hp; vm_compute; reflexivity|].
  change (Some (bs "body") = Some (fr_body fwd)) in Hb. injection Hb as <-. reflexivity.
Defined.

(** ** Behaviours at the edges *)

(** [retries + 1] wraps: the largest configured value makes no attempt at all. *)
Lemma max_retries_never_dials `{GuestMemory M} `{!Guest M} hn hv (rq : Request)
    (timeout : option Z) (body : bytes) (envs : nat → Attempt) (w : World (M := M)) :
  up_retries (ur_up (w_up w)) = 2 ^ 32 - 1 →
  ∃ r w', proxy_request hn hv rq timeout body envs w = Ret (Plain r, w') ∧
    rs_status r = 502 ∧ w_dialed w' = w_dialed w.
Proof. intros Hr. unfold proxy_request. rewrite Hr. do 2 eexists. by split. Qed.

(** A guest that ends every request in the access phase and writes a response
    body in the log phase. *)
Definition late_body_guest : Guest bytes := {|
  g_start p d s := (Ok [], (d, s));
  g_on_phase p ph c := match ph with
    | Access => (Ok (-4), c)
    | Log => (Ok (-5), on_data (hd_set_resp_body (Some (bs "late"))) c)
    | _ => (Ok (-5), c)
    end;
|}.

(** The status sent differs from the status logged when the log phase writes a
    response body. *)
Lemma done_status_logged_before_log_phase :
  match @handle_request bytes late_body_guest Some Some ex_gateway (ex_request "GET" "/") ex_attempt with
  | Ret ha => ha_logged ha = [204] ∧
      match ha_reply ha with Plain r => rs_status r = 200 | _ => False end
  | Panic => False
  end.
Proof. by vm_compute. Qed.
