(* ===== verification/WebSocket.v ===== *)
(** WebSocket pass-through ([openrusty-server/src/ws.rs]): the upgrade handshake
    with its walk over the healthy peers, the answer to the client, and the
    tunnel task that runs the log phase.

    An attempt's environment is that of [Pipeline.Attempt]; the pooled client is
    part of the exchange.  What the [http] crate parses is a parameter. *)

From S2P Require Import Prelude Text Net Phase Config Context Upstream Health Forward.
From S2P Require Import HostState Abi Linker Session Router Peer Shortcut Pipeline Gateway.
From Stdlib Require Import ZArith Lia.
From stdpp Require Import options.
Local Open Scope Z_scope.

Definition CONNECTION_UPGRADE : bytes := bs "upgrade".
Definition UPGRADE_WEBSOCKET : bytes := bs "websocket".

Definition handshake_headers (client_headers : headers) (peer_addr client_ip : bytes) : headers :=
  filter (λ h, eq_ignore_ascii_case h.1 (bs "host") || is_xff h.1 = false)
    (strip_hop_by_hop client_headers) ++
  [(bs "host", peer_addr); (bs "connection", CONNECTION_UPGRADE);
   (bs "upgrade", UPGRADE_WEBSOCKET); (bs "x-forwarded-for", merge_xff client_headers client_ip)].

(** The re-issued upgrade request; its body is empty. *)
Record Handshake := { hk_method : bytes; hk_uri : bytes; hk_headers : headers }.

Section websocket.
Context `{GuestMemory M} `{!Guest M}.
Context (header_name : bytes → option bytes) (header_value : bytes → option bytes).
Context (uri_ok : bytes → bool).                (* the URI of the request builder parses *)
Context (show_status : Z → bytes).              (* [StatusCode]'s [Display] *)

(** Scheme and authority follow the TLS plan. *)
Definition handshake_uri (up : Upstream) (p : Peer) (path_and_query : bytes) : bytes :=
  match up_tls up with
  | Some tls => bs "https://" ++ tls_server_name tls ++ path_and_query
  | None => bs "http://" ++ addr_to_string (pe_addr p) ++ path_and_query
  end.

(** The outbound request; [None]: the builder refuses it. *)
Definition handshake (up : Upstream) (p : Peer) (method path_and_query : bytes)
    (client_headers : headers) (client_ip : bytes) : option Handshake :=
  let uri := handshake_uri up p path_and_query in
  if uri_ok uri then Some {|
    hk_method := method; hk_uri := uri;
    hk_headers := omap (valid_header header_name header_value)
      (handshake_headers client_headers (addr_to_string (pe_addr p)) client_ip) |}
  else None.

(** How the walk over the peers ends. *)
Inductive WsEnd :=
| WsAnswered (idx : nat) (r : UpResponse) (now : Z)
| WsRefused (r : Response).

Abbreviation Sent := (list (SocketAddr * Handshake)).

(** Others run while the handshake is in flight. *)
Definition ws_exchange (env : Attempt) (w : World (M := M)) : World :=
  w_picked (at_others env (w_health w))
    {| ur_up := ur_up (w_up w); ur_swrr := at_others_swrr env (ur_swrr (w_up w)) |} (w_session w) w.

Definition ws_reply (status : Z) (msg : bytes) (w : World (M := M)) : WsEnd * World :=
  (WsRefused (text_response status msg), finish_log status w).

(** After the exchange: an answer ends the walk, an error or the timer marks the
    peer tried. *)
Definition ws_conclude (timeout : option Z) (idx : nat) (p : Peer) (env : Attempt)
    (w : World (M := M)) : option WsEnd * World :=
  match attempt_outcome timeout env with
  | Some (Ok r) => (Some (WsAnswered idx r (at_record env)), release idx w)
  | Some (Err _) | None =>
      (None, on_ctx (mark_tried (pe_addr p)) (release idx (note_failure idx (at_record env) w)))
  end.

(** One turn of the loop; [None] continues. *)
Definition ws_attempt (timeout : option Z) (method path_and_query : bytes)
    (client_headers : headers) (client_ip : bytes) (env : Attempt) (w : World (M := M))
    (sent : Sent) : exec (option WsEnd * World * Sent) :=
  let w := on_ctx (set_peer_index None) w in
  '(pick, h, u, s) ← pick_peer (at_pin env) (at_pick env) (w_health w) (w_up w) (w_session w);
  let w := w_picked h u s w in
  match pick with
  | PickDeny st => let '(e, w) := ws_reply st (status_line st) w in Ret (Some e, w, sent)
  | PickNone =>
      let '(e, w) := ws_reply 502 (bs "502 no healthy upstream" ++ [x0a]) w in Ret (Some e, w, sent)
  | PickPeer idx =>
      let w := on_ctx (λ c, set_peer_index (Some (Z.of_nat idx))
                              (set_attempts (wrap 32 (rc_attempts c + 1)) c)) w in
      p ← index (up_peers (ur_up (w_up w))) idx;
      match handshake (ur_up (w_up w)) p method path_and_query client_headers client_ip with
      | None =>
          let '(e, w) := ws_reply 502 (bs "502 bad request" ++ [x0a]) w in Ret (Some e, w, sent)
      | Some out =>
          let '(e, w) := ws_conclude timeout idx p env (ws_exchange env w) in
          Ret (e, w, sent ++ [(pe_addr p, out)])
      end
  end.

(** The loop, for at most [n] turns from turn [k]; [None]: [n] was too small. *)
Fixpoint ws_loop (timeout : option Z) (method path_and_query : bytes) (client_headers : headers)
    (client_ip : bytes) (envs : nat → Attempt) (n k : nat) (w : World (M := M)) (sent : Sent)
    : exec (option (WsEnd * World * Sent)) :=
  match n with
  | O => Ret None
  | S n =>
      '(e, w, sent) ← ws_attempt timeout method path_and_query client_headers client_ip (envs k) w sent;
      match e with
      | Some e => Ret (Some (e, w, sent))
      | None => ws_loop timeout method path_and_query client_headers client_ip envs n (S k) w sent
      end
  end.

Definition SWITCHING_PROTOCOLS : Z := 101.

(** The handshake headers copied to the client. *)
Definition answer_headers (hs : list (bytes * option bytes)) : headers :=
  omap (valid_header header_name header_value)
    (visible_headers (filter (λ h, h.1 ∈ [bs "upgrade"; bs "connection"; bs "sec-websocket-accept"]) hs)).

(** What the handler returns: a complete reply, or a 101 and a tunnel that owns
    the session. *)
Inductive WsReply :=
| WsPlain (r : Response)
| WsTunnel (hs : headers) (s : Session M).

(** After the walk. *)
Definition ws_finish (e : WsEnd) (w : World (M := M)) : WsReply * World :=
  match e with
  | WsRefused r => (WsPlain r, w)
  | WsAnswered idx r now =>
      if bool_decide (ur_status r ≠ SWITCHING_PROTOCOLS)
      then (WsPlain (text_response 502 (bs "502 upstream refused upgrade (" ++ show_status (ur_status r)
                                         ++ bs ")" ++ [x0a])), finish_log 502 w)
      else
        let w := w_set_health (record_success (up_name (ur_up (w_up w))) idx now (w_health w)) w in
        (WsTunnel (answer_headers (ur_headers r)) (w_session w), w)
  end.

Definition path_and_query (rq : Request) : bytes :=
  match rq_query rq with Some q => rq_path rq ++ bs "?" ++ q | None => rq_path rq end.

(** [proxy_websocket], its loop bounded by [n] turns. *)
Definition proxy_websocket (rq : Request) (timeout : option Z) (envs : nat → Attempt) (n : nat)
    (w : World (M := M)) : exec (option (WsReply * World * Sent)) :=
  if rq_http2 rq
  then Ret (Some (WsPlain (text_response 502 (bs "502 websocket requires http/1.1" ++ [x0a])),
                  finish_log 502 w, []))
  else
    r ← ws_loop timeout (rq_method rq) (path_and_query rq) (visible_headers (rq_headers rq))
          (client_ip (ss_ctx (w_session w))) envs n 0 w [];
    match r with
    | None => Ret None
    | Some (e, w, sent) => let '(r, w) := ws_finish e w in Ret (Some (r, w, sent))
    end.

(** ** The tunnel task *)

(** [run_ws_log]. *)
Definition run_ws_log (s : Session M) : Session M := log_phase s.

(** How the two upgrades and the byte copy ended. *)
Inductive TunnelEnd := ClientUpgradeFailed | UpstreamUpgradeFailed | TunnelClosed (ok : bool).

Definition tunnel_task (upgraded_in upgraded_out : bool) (tunnel : bool) (s : Session M)
    : TunnelEnd * Session M :=
  if negb upgraded_in then (ClientUpgradeFailed, run_ws_log s)
  else if negb upgraded_out then (UpstreamUpgradeFailed, run_ws_log s)
  else (TunnelClosed tunnel, run_ws_log s).

(** ** The handler with its WebSocket branch *)

Inductive Served :=
| ServedHttp (ha : Handled (M := M))
| ServedWs (label : option bytes) (r : WsReply) (w : World (M := M)) (sent : Sent).

(** [handle_request], the upgrade branch included: the walk gets the state the
    phases left, and as many turns as there are peers and one more. *)
Definition serve (gw : Gateway) (rq : Request) (envs : nat → Attempt) : exec (option Served) :=
  let hs := fold_h2_authority (visible_headers (rq_headers rq)) (rq_authority rq) in
  ha ← handle_request (M := M) header_name header_value gw rq envs;
  match ha_reply ha, ha_upstream ha, match_route (gw_routes gw) (request_host hs) (rq_path rq)
  return exec (option Served) with
  | Upgrade s, Some u, Some idx =>
      route ← index (gw_routes gw) idx;
      let w := {| w_health := ha_health ha; w_up := u; w_session := s; w_attempts := ha_attempts ha;
                  w_dialed := ha_dialed ha; w_logged := ha_logged ha |} in
      r ← proxy_websocket rq (route_timeout (rt_timeout_ms route)) envs
            (S (length (up_peers (ur_up u)))) w;
      Ret (match r with
           | Some (r, w, sent) => Some (ServedWs (ha_label ha) r w sent)
           | None => None
           end)
  | _, _, _ => Ret (Some (ServedHttp ha))
  end.

(** * The walk *)

Lemma mark_tried_fresh a c :
  a ∉ rc_tried c → rc_tried (mark_tried a c) = rc_tried c ++ [a].
Proof using Type.
  intros Hn. unfold mark_tried, is_tried. by rewrite bool_decide_eq_false_2.
Qed.

Context `{!GuestLaws M}.

Abbreviation tried w := (rc_tried (ss_ctx (w_session w))).

Section walk.
Context (timeout : option Z) (method pq : bytes) (client_headers : headers) (cip : bytes).

Abbreviation outgoing up p := (handshake up p method pq client_headers cip).

(** A turn that sends nothing.  A peer picked but not sent to keeps its slot
    raised. *)
Record ws_undialed (w : World (M := M)) (r : Response) (w' : World (M := M)) : Prop := {
  wu_kept : kept w w';
  wu_dialed : w_dialed w' = w_dialed w;
  wu_logged : w_logged w' = w_logged w ++ [rs_status r];
  wu_health : w_health w' = w_health w ∨
    ∃ p, p ∈ up_peers (ur_up (w_up w)) ∧ outgoing (ur_up (w_up w)) p = None ∧
      w_health w' = inc_in_flight (up_name (ur_up (w_up w))) (pe_addr p) (w_health w);
}.

(** The registry after an answered handshake. *)
Definition answered_health (up : Upstream) (p : Peer) (env : Attempt) (h : HealthRegistry)
    : HealthRegistry :=
  dec_in_flight (up_name up) (pe_addr p) (at_others env (inc_in_flight (up_name up) (pe_addr p) h)).

(** A turn that sends a handshake to peer [i]. *)
Record ws_dialed (env : Attempt) (w : World (M := M)) (i : nat) (p : Peer) (out : Handshake)
    (e : option WsEnd) (w' : World (M := M)) : Prop := {
  wd_kept : kept w w';
  wd_dialed : w_dialed w' = w_dialed w;
  wd_logged : w_logged w' = w_logged w;
  wd_peer : up_peers (ur_up (w_up w)) !! i = Some p;
  wd_fresh : pe_addr p ∉ tried w;
  wd_out : outgoing (ur_up (w_up w)) p = Some out;
  wd_end : match e with
    | None => tried w' = tried w ++ [pe_addr p] ∧
        (∀ r, attempt_outcome timeout env ≠ Some (Ok r)) ∧
        w_health w' = dial_health (ur_up (w_up w)) i p timeout env (w_health w)
    | Some (WsAnswered j r t) => j = i ∧ t = at_record env ∧
        attempt_outcome timeout env = Some (Ok r) ∧
        w_health w' = answered_health (ur_up (w_up w)) p env (w_health w)
    | Some (WsRefused _) => False
    end;
}.

Lemma ws_attempt_spec env w sent :
  ∃ e w' sent', ws_attempt timeout method pq client_headers cip env w sent = Ret (e, w', sent') ∧
    ((∃ r, e = Some (WsRefused r) ∧ sent' = sent ∧ ws_undialed w r w') ∨
     ∃ i p out, sent' = sent ++ [(pe_addr p, out)] ∧ ws_dialed env w i p out e w').
Proof using All.
  unfold ws_attempt. set (w0 := on_ctx _ w).
  destruct (pick_peer_total (at_pin env) (at_pick env) (w_health w0) (w_up w0) (w_session w0))
    as (pick & h & u & s & -> & Hu & [Ht _ _ Hps _ _] & Hpick).
  change (ur_up u = ur_up (w_up w)) in Hu. simpl. simpl in Hpick. simpl in Ht, Hps.
  destruct pick as [i|st|].
  - destruct Hpick as (p & Hp & Hf & _ & ->). unfold index. rewrite Hu, Hp. simpl.
    set (w1 := on_ctx (λ c, set_peer_index (Some (Z.of_nat i))
      (set_attempts (wrap 32 (rc_attempts c + 1)) c)) _).
    assert (kept w w1) as Hk by by constructor.
    assert (rc_tried (mark_tried (pe_addr p) (ss_ctx (w_session w1))) = tried w ++ [pe_addr p])
      as Hmark by (rewrite mark_tried_fresh; simpl; by rewrite Ht).
    destruct (handshake _ _ _ _ _ _) as [out|] eqn:Eo.
    + destruct (ws_conclude timeout i p env (ws_exchange env w1)) as [e w'] eqn:Ec.
      exists e, w', (sent ++ [(pe_addr p, out)]). split; [done|]. right. exists i, p, out.
      split; [done|]. revert Ec. unfold ws_conclude.
      destruct (attempt_outcome timeout env) as [[r|err]|] eqn:Eoc; intros [= <- <-].
      * split; try done. split_and!; try done.
        unfold release, release_peer. simpl. rewrite Hu, Hp. done.
      * split; try done. simpl. split_and!; [by apply Hmark|by rewrite Eoc|].
        unfold release_peer, dial_health, settle. simpl. rewrite Hu, Hp, Eoc. done.
      * split; try done. simpl. split_and!; [by apply Hmark|by rewrite Eoc|].
        unfold release_peer, dial_health, settle. simpl. rewrite Hu, Hp, Eoc. done.
    + do 3 eexists. split; [reflexivity|]. left. eexists. split_and!; [done..|].
      split; try done; [etrans; [exact Hk|apply finish_log_kept]|]. right. exists p.
      split_and!; [by eapply list_elem_of_lookup_2|done|done].
  - destruct Hpick as [-> _]. do 3 eexists. split; [reflexivity|]. left. eexists.
    split_and!; [done..|]. split; try done; [etrans; [|apply finish_log_kept]; by constructor|by left].
  - destruct Hpick as [-> _]. do 3 eexists. split; [reflexivity|]. left. eexists.
    split_and!; [done..|]. split; try done; [etrans; [|apply finish_log_kept]; by constructor|by left].
Qed.

(** The whole walk: the failed peers, then how it ended. *)
Inductive ws_walk (envs : nat → Attempt) : nat → World → Sent → WsEnd → World → Prop :=
| wk_stop k w r w' : ws_undialed w r w' → ws_walk envs k w [] (WsRefused r) w'
| wk_answer k w i p out r t w' :
    ws_dialed (envs k) w i p out (Some (WsAnswered i r t)) w' →
    ws_walk envs k w [(pe_addr p, out)] (WsAnswered i r t) w'
| wk_next k w i p out w1 ds e w' :
    ws_dialed (envs k) w i p out None w1 → ws_walk envs (S k) w1 ds e w' →
    ws_walk envs k w ((pe_addr p, out) :: ds) e w'.

(** Peers whose address is untried. *)
Definition untried (peers : list Peer) (t : list SocketAddr) : nat :=
  length (filter (λ p, pe_addr p ∉ t) peers).

Lemma untried_le peers t : (untried peers t ≤ length peers)%nat.
Proof using Type. apply length_filter. Qed.

Lemma untried_cons q peers t :
  untried (q :: peers) t = ((if decide (pe_addr q ∈ t) then 0 else 1) + untried peers t)%nat.
Proof using Type.
  unfold untried. rewrite filter_cons.
  destruct (decide (pe_addr q ∈ t)) as [H1|H1], (decide (pe_addr q ∉ t)) as [H2|H2]; done.
Qed.

Lemma untried_mono peers t a : (untried peers (t ++ [a]) ≤ untried peers t)%nat.
Proof using Type.
  induction peers as [|q peers IH]; [done|]. rewrite !untried_cons.
  destruct (decide (pe_addr q ∈ t)) as [H1|H1], (decide (pe_addr q ∈ t ++ [a])) as [H2|H2]; try lia.
  destruct H2. apply elem_of_app. by left.
Qed.

Lemma untried_snoc peers t p :
  p ∈ peers → pe_addr p ∉ t → (untried peers (t ++ [pe_addr p]) < untried peers t)%nat.
Proof using Type.
  intros Hin Hn. apply list_elem_of_split in Hin as (l1 & l2 & ->).
  induction l1 as [|q l1 IH]; cbn [app]; rewrite !untried_cons.
  - rewrite decide_True, decide_False by first [done|apply elem_of_app; right; by left].
    pose proof (untried_mono l2 t (pe_addr p)). lia.
  - destruct (decide (pe_addr q ∈ t)) as [H1|H1], (decide (pe_addr q ∈ t ++ [pe_addr p])) as [H2|H2];
      try lia. destruct H2. apply elem_of_app. by left.
Qed.

Lemma ws_loop_walk envs n k w sent :
  (untried (up_peers (ur_up (w_up w))) (tried w) < n)%nat →
  ∃ ds e w', ws_loop timeout method pq client_headers cip envs n k w sent =
      Ret (Some (e, w', sent ++ ds)) ∧ ws_walk envs k w ds e w'.
Proof using All.
  revert k w sent. induction n as [|n IH]; intros k w sent Hn; [lia|]. cbn [ws_loop].
  destruct (ws_attempt_spec (envs k) w sent)
    as (e & w1 & sent' & -> & [(r & -> & -> & Hu)|(i & p & out & -> & Hd)]); simpl.
  { exists [], (WsRefused r), w1. rewrite app_nil_r. split; [done|by constructor]. }
  destruct e as [e|].
  - destruct e as [j r t|r]; [|by destruct Hd]. assert (j = i) as -> by apply Hd.
    do 3 eexists. split; [reflexivity|by eapply wk_answer].
  - pose proof Hd as []. destruct wd_end0 as (Ht & _). destruct wd_kept0 as [Hup _].
    destruct (IH (S k) w1 (sent ++ [(pe_addr p, out)])) as (ds & e & w' & -> & Hw).
    { rewrite Hup, Ht. eapply Nat.lt_le_trans; [apply untried_snoc|lia]; [|done].
      by eapply list_elem_of_lookup_2. }
    exists ((pe_addr p, out) :: ds), e, w'. rewrite <-app_assoc. split; [done|by eapply wk_next].
Qed.

Lemma ws_walk_spec envs k w ds e w' :
  ws_walk envs k w ds e w' →
  kept w w' ∧ w_dialed w' = w_dialed w ∧ NoDup (map fst ds) ∧
  Forall (λ d, (d.1 ∉ tried w) ∧ ∃ p, p ∈ up_peers (ur_up (w_up w)) ∧ d.1 = pe_addr p ∧
            outgoing (ur_up (w_up w)) p = Some d.2) ds ∧
  (∀ j r, (S j < length ds)%nat → attempt_outcome timeout (envs (k + j)%nat) ≠ Some (Ok r)) ∧
  match e with
  | WsRefused r => w_logged w' = w_logged w ++ [rs_status r]
  | WsAnswered i r t => w_logged w' = w_logged w ∧ ∃ j, length ds = S j ∧
      attempt_outcome timeout (envs (k + j)%nat) = Some (Ok r)
  end.
Proof using Type.
  induction 1 as [k w r w' []|k w i p out r t w' []|k w i p out w1 ds e w' [] _ IH].
  - split_and!; try done; [constructor..|]. intros j r2 Hj. simpl in Hj. lia.
  - destruct wd_end0 as (_ & _ & Hr & _). split_and!; try done.
    + apply NoDup_singleton.
    + apply Forall_singleton. split; [done|]. exists p. split_and!; [|done..].
      by eapply list_elem_of_lookup_2.
    + intros j r2 Hj. simpl in Hj. lia.
    + exists 0%nat. by rewrite Nat.add_0_r.
  - destruct wd_end0 as (Ht & Ho & _). destruct wd_kept0 as [Hup Hps].
    destruct IH as (Hk & Hd & Hnd & Hf & Hj & He). rewrite Hup, Ht in Hf. split_and!.
    + etrans; [by constructor|exact Hk].
    + congruence.
    + simpl. apply NoDup_cons. split; [|done]. intros (d & Hd1 & Hin)%list_elem_of_fmap.
      rewrite Forall_forall in Hf. apply (Hf _ Hin). rewrite <-Hd1. apply elem_of_app. right.
      by apply list_elem_of_singleton.
    + constructor.
      * split; [done|]. exists p. split_and!; [|done..]. by eapply list_elem_of_lookup_2.
      * eapply Forall_impl; [exact Hf|]. intros d [Hn Hp]. split; [|done]. intros Hx. apply Hn.
        apply elem_of_app. by left.
    + intros [|j] r Hlt; [rewrite Nat.add_0_r; apply Ho|]. rewrite <-Nat.add_succ_comm.
      apply Hj. simpl in Hlt. lia.
    + destruct e as [j r t|r]; [|by rewrite He, wd_logged0].
      destruct He as (Hl & m & Hm & Hr). split; [congruence|]. exists (S m).
      rewrite <-Nat.add_succ_comm. simpl. by rewrite Hm.
Qed.

End walk.

(** ** The handler *)

(** Theorem material: what [proxy_websocket] returns and leaves. *)
Definition handed_over (rq : Request) (timeout : option Z) (envs : nat → Attempt)
    (w w' : World (M := M)) (sent : Sent) (out : WsReply) : Prop :=
  let up := ur_up (w_up w) in
  NoDup (map fst sent) ∧
  Forall (λ d, (d.1 ∉ tried w) ∧ ∃ p, p ∈ up_peers up ∧ d.1 = pe_addr p ∧
    handshake up p (rq_method rq) (path_and_query rq) (visible_headers (rq_headers rq))
      (client_ip (ss_ctx (w_session w))) = Some d.2) sent ∧
  (∀ j r, (S j < length sent)%nat → attempt_outcome timeout (envs j) ≠ Some (Ok r)) ∧
  match out with
  | WsPlain r => w_logged w' = w_logged w ++ [rs_status r]
  | WsTunnel hs s => w_logged w' = w_logged w ∧ s = w_session w' ∧ rq_http2 rq = false ∧
      ∃ j r, length sent = S j ∧ attempt_outcome timeout (envs j) = Some (Ok r) ∧
        ur_status r = SWITCHING_PROTOCOLS ∧ hs = answer_headers (ur_headers r)
  end.

Lemma proxy_websocket_spec rq timeout envs n w :
  (length (up_peers (ur_up (w_up w))) < n)%nat →
  ∃ out w' sent, proxy_websocket rq timeout envs n w = Ret (Some (out, w', sent)) ∧
    w_dialed w' = w_dialed w ∧ handed_over rq timeout envs w w' sent out.
Proof using All.
  intros Hn. unfold proxy_websocket. destruct (rq_http2 rq) eqn:E2.
  { do 3 eexists. split; [reflexivity|]. split; [done|].
    split_and!; [constructor|constructor| |done]. intros j r Hj. simpl in Hj. lia. }
  destruct (ws_loop_walk timeout (rq_method rq) (path_and_query rq) (visible_headers (rq_headers rq))
    (client_ip (ss_ctx (w_session w))) envs n 0 w []) as (ds & e & w1 & -> & Hw).
  { eapply Nat.le_lt_trans; [apply untried_le|done]. }
  apply ws_walk_spec in Hw as (Hk & Hd & Hnd & Hf & Hj & He). simpl.
  destruct e as [i r t|r]; cbn [ws_finish].
  - destruct He as (Hl & j & Hlen & Ho). case_bool_decide as Hst.
    + do 3 eexists. split; [reflexivity|]. split; [done|]. split_and!; try done. simpl. by rewrite Hl.
    + do 3 eexists. split; [reflexivity|]. split; [done|]. split_and!; try done. exists j, r.
      split_and!; try done.
  - do 3 eexists. split; [reflexivity|]. split; [done|]. by split_and!.
Qed.

Lemma pre_proxy_plain phases w rep w' w1 :
  pre_proxy header_name header_value phases w = (Some (rep, w'), w1) → ∃ r, rep = Plain r.
Proof using Type.
  revert w. induction phases as [|ph phases IH]; intros w; cbn [pre_proxy]; [done|].
  destruct (run_phase ph (w_session w)) as [d s].
  destruct d as [| | |st]; simpl; try apply IH; intros [= <- _ _]; by eexists.
Qed.

Lemma proxy_request_no_upgrade rq timeout body envs w s w' :
  proxy_request header_name header_value rq timeout body envs w ≠ Ret (Upgrade s, w').
Proof using Type.
  unfold proxy_request. destruct (attempt_loop _ _ _ _ _ _ _ _) as [[[i r|r|] w1]|]; simpl; try done.
  unfold respond. destruct (run_phase _ _) as [d s1]. destruct d; simpl; try done;
    by destruct (index _ _).
Qed.

(** Which requests are handed to the WebSocket branch, and with what. *)
Lemma routed_upgrade rq timeout envs w s w' :
  routed header_name header_value rq timeout envs w = Ret (Upgrade s, w') →
  passed [PostRead; Rewrite; Access] (w_session w) s ∧
  is_websocket_upgrade (rq_method rq) (rc_headers (ss_ctx s)) = true ∧ w' = w_set_session s w.
Proof using Type.
  unfold routed. pose proof (pre_proxy_spec header_name header_value [PostRead; Rewrite; Access] w) as H1.
  destruct (pre_proxy _ _ [PostRead; Rewrite; Access] w) as [[[rep w1]|] w2] eqn:E1.
  { destruct (pre_proxy_plain _ _ _ _ _ E1) as [r ->]. done. }
  destruct H1 as [Hp Hw]. destruct (is_websocket_upgrade _ _) eqn:Ews.
  { intros [= <- <-]. by split_and!. }
  destruct (rq_body rq) as [body|]; [|done].
  destruct (pre_proxy _ _ [Content] _) as [[[rep w3]|] w4] eqn:E2.
  { destruct (pre_proxy_plain _ _ _ _ _ E2) as [r ->]. done. }
  intros Hx. by apply proxy_request_no_upgrade in Hx.
Qed.

Lemma handle_request_upgrade gw rq envs ha s :
  handle_request header_name header_value gw rq envs = Ret ha → ha_reply ha = Upgrade s →
  ∃ idx route up_rt,
    match_route (gw_routes gw) (request_host (fold_h2_authority (visible_headers (rq_headers rq))
      (rq_authority rq))) (rq_path rq) = Some idx ∧
    gw_routes gw !! idx = Some route ∧ gw_upstreams gw !! rt_upstream route = Some up_rt ∧
    passed [PostRead; Rewrite; Access] (start_session gw rq idx (ur_up up_rt)) s ∧
    is_websocket_upgrade (rq_method rq) (rc_headers (ss_ctx s)) = true ∧
    ha_upstream ha = Some up_rt ∧ ha_health ha = gw_health gw ∧ ha_logged ha = [] ∧
    ha_dialed ha = [] ∧ ha_attempts ha = [] ∧ ha_label ha = Some (rt_path_prefix route).
Proof using Type.
  unfold handle_request. destruct (match_route _ _ _) as [idx|]; [|by intros [= <-]].
  destruct (index (gw_routes gw) idx) as [route|] eqn:Er; [|done]. simpl.
  apply index_Ret in Er. destruct (gw_upstreams gw !! rt_upstream route) as [up_rt|] eqn:Eu;
    [|by intros [= <-]].
  destruct (routed _ _ _ _ _ _) as [[rep w']|] eqn:Ero; [|done]. intros [= <-]. simpl. intros ->.
  apply routed_upgrade in Ero as (Hp & Hu & ->). exists idx, route, up_rt. by split_and!.
Qed.

(** C14. Upgrades are served as safely as requests.  The handler with its
    WebSocket branch always returns.  A request reaches the branch only when the
    phases before it all ran and decided nothing and the headers they left ask
    for the upgrade; the walk needs no more turns than the upstream has peers and
    one, sends the client's method, URI and end-to-end headers to peers of the
    upstream, never twice to one address, and goes on only after an error or a
    timeout.  A refusal is logged exactly once with its status; a tunnel opens
    only on a 101 of the last peer, unlogged, and logs when it closes. *)
Theorem websocket_served (gw : Gateway) (rq : Request) (envs : nat → Attempt) :
  ∃ sv, serve gw rq envs = Ret (Some sv) ∧
    match sv with
    | ServedHttp ha => handle_request header_name header_value gw rq envs = Ret ha ∧
        ∀ s, ha_reply ha ≠ Upgrade s
    | ServedWs label out w' sent => ∃ idx route up_rt s w,
        gw_routes gw !! idx = Some route ∧ label = Some (rt_path_prefix route) ∧
        gw_upstreams gw !! rt_upstream route = Some up_rt ∧
        passed [PostRead; Rewrite; Access] (start_session gw rq idx (ur_up up_rt)) s ∧
        is_websocket_upgrade (rq_method rq) (rc_headers (ss_ctx s)) = true ∧
        w_session w = s ∧ w_up w = up_rt ∧ w_health w = gw_health gw ∧ w_logged w = [] ∧
        handed_over rq (route_timeout (rt_timeout_ms route)) envs w w' sent out ∧
        ∀ hs s', out = WsTunnel hs s' → ∀ a b c, (tunnel_task a b c s').2 = log_phase (w_session w')
    end.
Proof using All.
  unfold serve. destruct (handle_request_spec header_name header_value gw rq envs) as (ha & Hh & _).
  rewrite Hh. simpl. destruct (ha_reply ha) as [r|st hs peer s|s] eqn:Er;
    [by exists (ServedHttp ha); rewrite Er..|].
  destruct (handle_request_upgrade _ _ _ _ _ Hh Er)
    as (idx & route & up_rt & -> & Hr & Hu & Hp & Hw & -> & Hhe & Hlo & _ & _ & ->).
  pose proof (proj2 (index_Ret _ _ _) Hr) as ->. simpl.
  set (w := {| w_health := _ |}).
  destruct (proxy_websocket_spec rq (route_timeout (rt_timeout_ms route)) envs
    (S (length (up_peers (ur_up up_rt)))) w) as (out & w' & sent & -> & _ & Ho); [simpl; lia|].
  eexists. split; [reflexivity|]. simpl. exists idx, route, up_rt, s, w. split_and!; try done.
  intros hs s' ->. destruct Ho as (_ & _ & _ & _ & -> & _). by intros [] [] c.
Qed.

(** ** In-flight slots *)

Lemma ws_walk_gauge timeout method pq hs cip envs out k w ds e w' :
  let up := ur_up (w_up w) in
  ws_walk timeout method pq hs cip envs k w ds e w' →
  others_accounted up envs out → (∀ k, in_u 64 (at_record (envs k))) →
  (∀ p, p ∈ up_peers up → handshake up p method pq hs cip ≠ None) →
  tracked up (w_health w) → (∀ u b, gauge (w_health w) u b = out k u b) →
  tracked up (w_health w') ∧ ∀ u b, gauge (w_health w') u b = out (k + length ds)%nat u b.
Proof using Type.
  induction 1 as [k w r w' []|k w i p o r t w' []|k w i p o w1 ds e w' [] _ IH];
    intros Ho Hr Hb Htr Hg; simpl.
  - rewrite Nat.add_0_r. destruct wu_health0 as [->|(p & Hp & Hn & _)]; [done|]. by destruct (Hb p).
  - destruct wd_end0 as (_ & _ & _ & ->). rewrite Nat.add_1_r.
    by apply (slot_round_trip id _ i p envs k out).
  - destruct wd_end0 as (_ & _ & Hh).
    destruct (dial_health_gauge (ur_up (w_up w)) i p timeout envs k out (w_health w)) as [Htr1 Hg1];
      [done..|]. rewrite <-Hh in Htr1, Hg1. destruct wd_kept0 as [Hup _]. rewrite Hup in IH.
    rewrite <-Nat.add_succ_comm. by apply IH.
Qed.

(** The slots the walk raised are lowered again when every peer's request can be
    built: an upgrade leaves each gauge to the others' requests, tunnel open or
    not. *)
Lemma websocket_slots_released rq timeout envs n w out w' sent r :
  let up := ur_up (w_up w) in
  others_accounted up envs out → (∀ k, in_u 64 (at_record (envs k))) →
  (∀ p, p ∈ up_peers up → uri_ok (handshake_uri up p (path_and_query rq)) = true) →
  tracked up (w_health w) → (∀ u b, gauge (w_health w) u b = out 0%nat u b) →
  (length (up_peers up) < n)%nat →
  proxy_websocket rq timeout envs n w = Ret (Some (r, w', sent)) →
  ∀ u b, gauge (w_health w') u b = out (length sent) u b.
Proof using All.
  intros up Ho Hr Hb Htr Hg Hn. unfold proxy_websocket.
  destruct (rq_http2 rq); [intros [= <- <- <-]; apply Hg|].
  destruct (ws_loop_walk timeout (rq_method rq) (path_and_query rq) (visible_headers (rq_headers rq))
    (client_ip (ss_ctx (w_session w))) envs n 0 w []) as (ds & e & w1 & -> & Hw).
  { eapply Nat.le_lt_trans; [apply untried_le|done]. }
  simpl. destruct (ws_finish e w1) as [r2 w2] eqn:Ef. intros [= <- <- <-] u b.
  apply (ws_walk_gauge _ _ _ _ _ envs out) in Hw as [_ Hw]; [|done|done| |done|done].
  - rewrite <-Hw. destruct e as [i rr t|rr]; simpl in Ef; [|by injection Ef as _ <-].
    case_bool_decide; injection Ef as _ <-; [done|]. by apply update_slot_gauge.
  - intros p Hp. unfold handshake. specialize (Hb p Hp). subst up. by rewrite Hb.
Qed.

(** When the request cannot be built (a TLS server name that is no URI
    authority), the reply leaves the picked peer's slot raised. *)
Lemma unbuildable_upgrade_leaks_slot timeout method pq hs cip env w sent r w' sent' :
  (∀ p, uri_ok (handshake_uri (ur_up (w_up w)) p pq) = false) →
  ws_attempt timeout method pq hs cip env w sent = Ret (Some (WsRefused r), w', sent') →
  (∃ p, p ∈ up_peers (ur_up (w_up w)) ∧
     w_health w' = inc_in_flight (up_name (ur_up (w_up w))) (pe_addr p) (w_health w)) ∨
  w_health w' = w_health w.
Proof using All.
  intros Hb Ha. destruct (ws_attempt_spec timeout method pq hs cip env w sent)
    as (e & w1 & sent1 & Ha2 & [(r2 & -> & -> & [])|(i & p & o & -> & [])]).
  - rewrite Ha in Ha2. injection Ha2 as <- <- <-. destruct wu_health0 as [?|(p & ? & _ & ?)]; [by right|].
    left. by exists p.
  - unfold handshake in wd_out0. by rewrite Hb in wd_out0.
Qed.

End websocket.

(** ** Header policy of the handshake *)

(** Every client header that is not hop-by-hop, [Host] or [X-Forwarded-For], in
    order; then exactly the gateway's own four. *)
Lemma handshake_header_policy hs peer_addr cip :
  ∃ kept, handshake_headers hs peer_addr cip = kept ++
      [(bs "host", peer_addr); (bs "connection", bs "upgrade"); (bs "upgrade", bs "websocket");
       (bs "x-forwarded-for", merge_xff hs cip)] ∧
    kept = filter (λ h, is_hop_by_hop h.1 || eq_ignore_ascii_case h.1 (bs "host") || is_xff h.1 = false) hs.
Proof.
  eexists. split; [reflexivity|]. unfold strip_hop_by_hop. rewrite list_filter_filter.
  apply list_filter_iff. intros h. destruct (is_hop_by_hop h.1); naive_solver.
Qed.

(** * A concrete upgrade *)

#[local] Existing Instance ex_guest.
#[local] Existing Instance ex_guest_laws.

Definition ex_upgrade : Request := {|
  rq_method := bs "GET"; rq_path := bs "/chat"; rq_query := Some (bs "room=1"); rq_http2 := false;
  rq_headers := [(bs "host", Some (bs "example.org")); (bs "connection", Some (bs "keep-alive, Upgrade"));
                 (bs "upgrade", Some (bs "websocket")); (bs "sec-websocket-key", Some (bs "k"))];
  rq_authority := None; rq_remote := loopback 50000; rq_body := None |}.

(** The first peer times out, the second answers 101. *)
Definition ex_ws_attempt (k : nat) : Attempt := {|
  at_pin := 10; at_pick := 10; at_record := 20; at_elapsed := false;
  at_result := match k with
               | O => Err (ErrConnect (bs "refused"))
               | _ => Ok {| ur_status := 101; ur_headers := [(bs "upgrade", Some (bs "websocket"));
                                                             (bs "server", Some (bs "x"))] |}
               end;
  at_others := λ h, h;
  at_others_swrr := λ l, l;
|}.

Definition ex_serve (rq : Request) (envs : nat → Attempt) :=
  serve (M := bytes) Some Some (λ _, true) fmt_dec ex_gateway rq envs.

(** A handshake retried on the second peer opens the tunnel. *)
Definition ex_tunnelled (sv : Served (M := bytes)) : bool :=
  match sv with
  | ServedWs _ (WsTunnel hs _) w sent =>
      bool_decide (hs = [(bs "upgrade", bs "websocket")]) && bool_decide (length sent = 2%nat) &&
      bool_decide (w_logged w = [])
  | _ => false
  end.

Lemma websocket_served_witness :
  ∃ sv, ex_serve ex_upgrade ex_ws_attempt = Ret (Some sv) ∧ ex_tunnelled sv = true.
Proof.
  destruct (websocket_served (M := bytes) Some Some (λ _, true) fmt_dec ex_gateway ex_upgrade ex_ws_attempt)
    as (sv & He & _).
  change (ex_serve ex_upgrade ex_ws_attempt = Ret (Some sv)) in He. exists sv. split; [exact He|].
  assert (match ex_serve ex_upgrade ex_ws_attempt with
          | Ret (Some sv) => ex_tunnelled sv | _ => false end = true) as Ht
    by (vm_compute; reflexivity).
  rewrite He in Ht. exact Ht.
Defined.

(** A guest that rewrites every request's path. *)
Definition rewriting_guest : Guest bytes := {|
  g_start p d s := (Ok [], (d, s));
  g_on_phase p ph c := match ph with
    | Rewrite => (Ok (-5), on_data (λ d, hd_set_ctx (set_target (bs "/internal") [] (hd_ctx d)) d) c)
    | _ => (Ok (-5), c)
    end;
|}.

(** The walk sends the client's own target: a path the phases rewrote reaches
    the upstream for a plain request, but not for an upgrade. *)
Definition upgrade_sent_original (r : exec (option (Served (M := bytes)))) : bool :=
  match r with
  | Ret (Some (ServedWs _ _ w sent)) =>
      bool_decide (rc_path (ss_ctx (w_session w)) = bs "/internal") &&
      forallb (λ d, ends_with (bs "/chat?room=1") (hk_uri d.2)) sent && bool_decide (length sent = 2%nat)
  | _ => false
  end.

Definition request_sent_rewritten (r : exec (Handled (M := bytes))) : bool :=
  match r with
  | Ret ha => forallb (λ d, bool_decide (fr_path_and_query d.2 = bs "/internal")) (ha_dialed ha) &&
      bool_decide (length (ha_dialed ha) = 2%nat)
  | Panic => false
  end.

Lemma rewrites_do_not_reach_upgrades :
  upgrade_sent_original
    (serve (M := bytes) (Guest0 := rewriting_guest) Some Some (λ _, true) fmt_dec ex_gateway ex_upgrade
       ex_ws_attempt) = true ∧
  request_sent_rewritten
    (handle_request (M := bytes) (Guest0 := rewriting_guest) Some Some ex_gateway
       (ex_request "GET" "/chat") ex_attempt) = true.
Proof. split; vm_compute; reflexivity. Qed.
