(* ===== verification/DynRoutes.v ===== *)
(** The binding table of the dynamic execution API
    ([openrusty-server/src/dynamic_routes.rs]) and its two writers
    ([bind_dynamic_route], [unbind_dynamic_module] and [apply_dynamic_routes] of
    [state.rs]).

    A table is an immutable value; the live one sits behind an [ArcSwap].  The
    abstract table is the map [bound] from keys to shapes and modules, and every
    operation is shown to act on it as one map operation. *)

From S2P Require Import Prelude Text Config Swap.
From Stdlib Require Import ZArith Lia.
From stdpp Require Import options.
Local Open Scope Z_scope.

Definition MAX_BINDINGS : Z := 4096.

Abbreviation Key := (bytes * bytes)%type.

Record DynamicRoutes := {
  dt_exact : gmap Key bytes;
  dt_prefix : list (Key * bytes);
  dt_config_keys : list Key;
}.

Definition new : DynamicRoutes := {| dt_exact := ∅; dt_prefix := []; dt_config_keys := [] |}.

Definition len (t : DynamicRoutes) : nat := (size (dt_exact t) + length (dt_prefix t))%nat.

Definition is_empty (t : DynamicRoutes) : bool :=
  bool_decide (dt_exact t = ∅) && bool_decide (dt_prefix t = []).

Definition has_prefix (k : Key) (t : DynamicRoutes) : bool :=
  existsb (λ e, bool_decide (e.1 = k)) (dt_prefix t).

Definition base_key (method path : bytes) : Key := (method, base_path path).

(** Order of [entries]: by method, then path. *)
Definition route_leb (a b : DynamicRoute) : bool :=
  if bool_decide (dr_method a = dr_method b) then bytes_leb (dr_path a) (dr_path b)
  else bytes_leb (dr_method a) (dr_method b).

Definition entries (t : DynamicRoutes) : list DynamicRoute :=
  sort_by route_leb
    (map (λ e : Key * bytes, {| dr_method := e.1.1; dr_path := e.1.2; dr_module := e.2 |})
       (map_to_list (dt_exact t))) ++
  sort_by route_leb
    (map (λ e : Key * bytes, {| dr_method := e.1.1; dr_path := e.1.2 ++ bs "/*"; dr_module := e.2 |})
       (dt_prefix t)).

(** A prefix owns its own path and everything below it. *)
Definition covers (p path : bytes) : bool :=
  match strip_prefix p path with
  | Some rest => bool_decide (rest = []) || starts_with (bs "/") rest
  | None => false
  end.

Definition lookup_route (method path : bytes) (t : DynamicRoutes) : option bytes :=
  let method := to_ascii_uppercase method in
  match dt_exact t !! (method, path) with
  | Some module => Some module
  | None =>
      snd ∘ snd <$> list_find (λ e : Key * bytes,
        bool_decide (e.1.1 = method) && covers e.1.2 path = true) (dt_prefix t)
  end.

Definition key_len (k : Key) : nat := (length k.1 + length k.2)%nat.

(** Longest first. *)
Definition prefix_leb (a b : Key * bytes) : bool := (key_len b.1 <=? key_len a.1)%nat.

Definition drop_key (k : Key) (l : list (Key * bytes)) : list (Key * bytes) :=
  filter (λ e, e.1 ≠ k) l.

Inductive BindError :=
| BadMethod (m : bytes) | BadPath (p : bytes) | BadModule (m : bytes) | TableFull | Contention.

(** The new table of [bind_owned], past its guards. *)
Definition put (is_prefix : bool) (key : Key) (module : bytes) (owned : bool) (t : DynamicRoutes)
    : DynamicRoutes := {|
  dt_exact := if is_prefix then delete key (dt_exact t) else <[key := module]> (dt_exact t);
  dt_prefix := if is_prefix
               then sort_by prefix_leb (drop_key key (dt_prefix t) ++ [(key, module)])
               else drop_key key (dt_prefix t);
  dt_config_keys := if owned then filter (λ k, k ≠ key) (dt_config_keys t) ++ [key]
                    else dt_config_keys t;
|}.

Definition bind_owned (method path module : bytes) (owned : bool) (t : DynamicRoutes)
    : result BindError DynamicRoutes :=
  m ← ok_or (normalize_method method) (BadMethod method);
  p ← ok_or (normalize_route_path path) (BadPath path);
  if negb (valid_module_name module) then Err (BadModule module)
  else
    let key := base_key m p in
    let replacing := is_some (dt_exact t !! key) || has_prefix key t in
    if negb replacing && (MAX_BINDINGS <=? Z.of_nat (len t)) then Err TableFull
    else Ok (put (ends_with (bs "/*") p) key module owned t).

Definition bind (method path module : bytes) (t : DynamicRoutes)
    : result BindError DynamicRoutes := bind_owned method path module false t.

Definition unbind (method path : bytes) (t : DynamicRoutes) : DynamicRoutes :=
  match normalize_method method, normalize_route_path path with
  | Some m, Some p =>
      let key := base_key m p in
      {| dt_exact := delete key (dt_exact t); dt_prefix := drop_key key (dt_prefix t);
         dt_config_keys := filter (λ k, k ≠ key) (dt_config_keys t) |}
  | _, _ => t
  end.

Definition unbind_module (module : bytes) (t : DynamicRoutes) : DynamicRoutes * nat :=
  let exact := filter (λ kv, kv.2 ≠ module) (dt_exact t) in
  let prefix := filter (λ e : Key * bytes, e.2 ≠ module) (dt_prefix t) in
  let next := {|
    dt_exact := exact; dt_prefix := prefix;
    dt_config_keys := filter (λ k, is_some (exact !! k) ||
      existsb (λ e : Key * bytes, bool_decide (e.1 = k)) prefix = true) (dt_config_keys t) |} in
  (next, (len t - len next)%nat).

(** The two loops of [reconcile]. *)
Definition drop_stale (t : DynamicRoutes) : DynamicRoutes :=
  foldl (λ t key, {| dt_exact := delete key (dt_exact t); dt_prefix := drop_key key (dt_prefix t);
                     dt_config_keys := dt_config_keys t |})
    {| dt_exact := dt_exact t; dt_prefix := dt_prefix t; dt_config_keys := [] |}
    (dt_config_keys t).

Definition overlay (t : DynamicRoutes) (r : DynamicRoute) : DynamicRoutes :=
  match bind_owned (dr_method r) (dr_path r) (dr_module r) true t with
  | Ok t' => t'
  | Err _ => t
  end.

Definition reconcile (cfg : list DynamicRoute) (t : DynamicRoutes) : DynamicRoutes :=
  foldl overlay (drop_stale t) cfg.

(** [apply_dynamic_routes]. *)
Definition apply_dynamic_routes (cfg : option DynamicConfig) (t : DynamicRoutes) : DynamicRoutes :=
  match cfg with
  | None => new
  | Some d => reconcile (dy_routes d) t
  end.

(** * The abstract table *)

(** Key to shape ([true]: a prefix binding) and module. *)
Definition bound (t : DynamicRoutes) : gmap Key (bool * bytes) :=
  (pair false <$> dt_exact t) ∪ (pair true <$> list_to_map (dt_prefix t)).

Record table_ok (t : DynamicRoutes) : Prop := {
  tk_unique : NoDup (dt_prefix t).*1;
  tk_disjoint : ∀ k, k ∈ (dt_prefix t).*1 → dt_exact t !! k = None;
  tk_sorted : Sorted (λ a b, prefix_leb a b = true) (dt_prefix t);
  tk_bounded : Z.of_nat (len t) <= MAX_BINDINGS;
  tk_owned : ∀ k, k ∈ dt_config_keys t → is_Some (bound t !! k);
  tk_owned_unique : NoDup (dt_config_keys t);
}.

Lemma prefix_leb_total a b : prefix_leb a b = true ∨ prefix_leb b a = true.
Proof. unfold prefix_leb. repeat case_bool; auto; lia. Qed.

Lemma sorted_filter {A} (R : A → A → Prop) (P : A → Prop) `{∀ x, Decision (P x)} l :
  Transitive R → Sorted R l → Sorted R (filter P l).
Proof.
  intros Ht Hs. apply StronglySorted_Sorted. apply Sorted_StronglySorted in Hs; [|done].
  induction Hs as [|x l Hs IH Hf]; [constructor|]. rewrite filter_cons. case_decide; [|done].
  constructor; [done|]. apply Forall_forall. intros y Hy%list_elem_of_filter.
  rewrite Forall_forall in Hf. apply Hf, Hy.
Qed.

#[local] Instance prefix_leb_trans : Transitive (λ a b, prefix_leb a b = true).
Proof. intros a b c. unfold prefix_leb. rewrite !Nat.leb_le. lia. Qed.

Lemma drop_key_map k l :
  (list_to_map (drop_key k l) : gmap Key bytes) = delete k (list_to_map l).
Proof.
  induction l as [|[k' m] l IH]; [symmetry; apply (delete_empty (M := gmap Key))|].
  unfold drop_key in *. rewrite filter_cons. case_decide as Hd.
  - simpl. rewrite IH. symmetry. apply delete_insert_ne. intros ->. by apply Hd.
  - simpl in Hd. subst k'. rewrite IH. simpl. by rewrite delete_insert_eq.
Qed.

Lemma drop_key_elem k l k' : k' ∈ (drop_key k l).*1 ↔ k' ∈ l.*1 ∧ k' ≠ k.
Proof.
  unfold drop_key. rewrite !list_elem_of_fmap. setoid_rewrite list_elem_of_filter. naive_solver.
Qed.

Lemma nodup_filter_keys (P : Key * bytes → Prop) `{∀ x, Decision (P x)} l :
  NoDup l.*1 → NoDup (filter P l).*1.
Proof. intros Hn. eapply sublist_NoDup; [exact Hn|]. apply fmap_sublist, sublist_filter. Qed.

Lemma drop_key_nodup k l : NoDup l.*1 → NoDup (drop_key k l).*1.
Proof. apply nodup_filter_keys. Qed.

Lemma bound_lookup t k :
  bound t !! k = match dt_exact t !! k with
                 | Some m => Some (false, m)
                 | None => pair true <$> (list_to_map (dt_prefix t) : gmap Key bytes) !! k
                 end.
Proof.
  unfold bound. rewrite lookup_union, !lookup_fmap. destruct (dt_exact t !! k); simpl.
  - by rewrite union_Some_l.
  - by rewrite option_union_left_id.
Qed.

Lemma bound_exact t k m : bound t !! k = Some (false, m) ↔ dt_exact t !! k = Some m.
Proof.
  rewrite bound_lookup. destruct (dt_exact t !! k); [split; congruence|].
  destruct ((list_to_map (dt_prefix t) : gmap Key bytes) !! k); simpl; split; congruence.
Qed.

Lemma bound_prefix t k m :
  table_ok t → bound t !! k = Some (true, m) ↔ (k, m) ∈ dt_prefix t.
Proof.
  intros [Hu Hd _ _ _ _]. rewrite bound_lookup, (elem_of_list_to_map (M := gmap Key) _ k m Hu).
  destruct (dt_exact t !! k) eqn:E.
  - split; [done|]. intros Hin. apply elem_of_list_to_map_2 in Hin.
    assert (k ∈ (dt_prefix t).*1) as Hk by (apply list_elem_of_fmap; by exists (k, m)).
    by rewrite (Hd _ Hk) in E.
  - destruct ((list_to_map (dt_prefix t) : gmap Key bytes) !! k); simpl; split; congruence.
Qed.

(** A table's length is the number of keys bound. *)
Lemma len_bound t :
  NoDup (dt_prefix t).*1 → (∀ k, k ∈ (dt_prefix t).*1 → dt_exact t !! k = None) →
  len t = size (bound t).
Proof.
  intros Hu Hd. unfold bound. rewrite map_size_disj_union, !map_size_fmap.
  - by rewrite map_size_list_to_map.
  - apply map_disjoint_spec. intros k a b Ha Hb. rewrite lookup_fmap in Ha, Hb.
    apply fmap_Some in Ha as (x & Hx & _). apply fmap_Some in Hb as (y & Hy & _).
    apply elem_of_list_to_map_2 in Hy.
    rewrite (Hd k) in Hx; [done|]. apply list_elem_of_fmap. by exists (k, y).
Qed.

Lemma replacing_iff t key :
  is_some (dt_exact t !! key) || has_prefix key t = true ↔ is_Some (bound t !! key).
Proof.
  rewrite bound_lookup. destruct (dt_exact t !! key); simpl; [by split|].
  unfold has_prefix. split.
  - intros ([k m] & Hin & Hk)%existsb_exists. reflect_bool. simpl in Hk. subst k.
    rewrite fmap_is_Some. apply list_elem_of_In in Hin.
    destruct ((list_to_map (dt_prefix t) : gmap Key bytes) !! key) eqn:E; [by eexists|].
    apply not_elem_of_list_to_map in E. exfalso. apply E, list_elem_of_fmap. by exists (key, m).
  - rewrite fmap_is_Some. intros [m Hm%elem_of_list_to_map_2]. apply existsb_exists.
    exists (key, m). split; [by apply list_elem_of_In|]. by apply bool_decide_eq_true.
Qed.

Lemma bound_drop exact prefix owned key k :
  bound {| dt_exact := delete key exact; dt_prefix := drop_key key prefix; dt_config_keys := owned |}
    !! k =
  delete key (bound {| dt_exact := exact; dt_prefix := prefix; dt_config_keys := owned |}) !! k.
Proof.
  rewrite bound_lookup. simpl. rewrite drop_key_map. destruct (decide (k = key)) as [->|Hk].
  - by rewrite !lookup_delete_eq.
  - rewrite !lookup_delete_ne by done. by rewrite bound_lookup.
Qed.

Lemma sorted_push_nodup key module l :
  NoDup l.*1 → NoDup (sort_by prefix_leb (drop_key key l ++ [(key, module)])).*1.
Proof.
  intros Hn. rewrite (sort_by_perm prefix_leb), fmap_app. apply NoDup_app. split_and!.
  - by apply drop_key_nodup.
  - intros k Hk%drop_key_elem Hk2. apply list_elem_of_singleton in Hk2. by destruct Hk.
  - apply NoDup_singleton.
Qed.

Lemma put_bound s key module owned t :
  table_ok t → bound (put s key module owned t) = <[key := (s, module)]> (bound t).
Proof.
  intros [Hu Hd _ _ _ _]. apply map_eq. intros k. rewrite bound_lookup. destruct s; simpl.
  - rewrite (list_to_map_proper (M := gmap Key) _ (drop_key key (dt_prefix t) ++ [(key, module)]));
      [|by apply sorted_push_nodup|apply sort_by_perm].
    rewrite list_to_map_app, drop_key_map, lookup_union, lookup_insert.
    destruct (decide (key = k)) as [->|Hk].
    + rewrite !lookup_delete_eq. simpl. by rewrite lookup_insert_eq.
    + rewrite !lookup_delete_ne by done. simpl. rewrite lookup_insert_ne, lookup_empty by done.
      rewrite option_union_right_id. by rewrite bound_lookup.
  - rewrite drop_key_map. destruct (decide (key = k)) as [->|Hk].
    + by rewrite !lookup_insert_eq.
    + rewrite !lookup_insert_ne, lookup_delete_ne by done. by rewrite bound_lookup.
Qed.

Lemma put_ok s key module owned t :
  table_ok t → (is_Some (bound t !! key) ∨ Z.of_nat (len t) < MAX_BINDINGS) →
  table_ok (put s key module owned t).
Proof.
  intros Hok Hroom. pose proof (put_bound s key module owned t Hok) as Hb.
  pose proof Hok as [Hu Hd Hs Hl Ho Hou].
  assert (NoDup (dt_prefix (put s key module owned t)).*1) as Hu'.
  { destruct s; simpl; [by apply sorted_push_nodup|by apply drop_key_nodup]. }
  assert (∀ k, k ∈ (dt_prefix (put s key module owned t)).*1 →
            dt_exact (put s key module owned t) !! k = None) as Hd'.
  { destruct s; simpl; intros k.
    - rewrite (sort_by_perm prefix_leb), fmap_app, elem_of_app, drop_key_elem.
      change ([(key, module)].*1) with [key]. rewrite list_elem_of_singleton. intros [[Hk ?]|Hk]; simpl in *; [rewrite lookup_delete_ne by done; by apply Hd|].
      subst. apply lookup_delete_eq.
    - rewrite drop_key_elem. intros [Hk ?]. rewrite lookup_insert_ne by done. by apply Hd. }
  constructor; try done.
  - destruct s; simpl; [apply sort_by_sorted, prefix_leb_total|].
    apply sorted_filter; [apply _|done].
  - rewrite (len_bound _ Hu' Hd').
    rewrite Hb, map_size_insert. rewrite (len_bound t Hu Hd) in *. destruct (bound t !! key); [done|].
    destruct Hroom as [[? ?]|?]; [done|lia].
  - intros k Hk. rewrite Hb. destruct (decide (key = k)) as [->|Hne].
    + rewrite lookup_insert_eq. by eexists.
    + rewrite lookup_insert_ne by done. apply Ho. destruct owned; simpl in Hk; [|done].
      apply elem_of_app in Hk as [Hk|Hk]; [by apply list_elem_of_filter in Hk as [_ ?]|].
      by apply list_elem_of_singleton in Hk.
  - destruct owned; simpl; [|done]. apply NoDup_app. split_and!.
    + by apply NoDup_filter.
    + intros k Hk%list_elem_of_filter Hk2. apply list_elem_of_singleton in Hk2. by destruct Hk.
    + apply NoDup_singleton.
Qed.

(** The key and shape a method and path name. *)
Definition bind_key (method path : bytes) : option (Key * bool) :=
  m ← normalize_method method;
  p ← normalize_route_path path;
  Some (base_key m p, ends_with (bs "/*") p).

Lemma bind_owned_spec method path module owned t :
  table_ok t →
  match bind_owned method path module owned t with
  | Ok t' => valid_module_name module = true ∧ ∃ k s, bind_key method path = Some (k, s) ∧
      table_ok t' ∧ bound t' = <[k := (s, module)]> (bound t) ∧
      (∀ x, x ∈ dt_config_keys t' ↔ x ∈ dt_config_keys t ∨ (owned = true ∧ x = k)) ∧
      t' = put s k module owned t
  | Err TableFull => valid_module_name module = true ∧ ∃ k s, bind_key method path = Some (k, s) ∧
      bound t !! k = None ∧ MAX_BINDINGS <= Z.of_nat (size (bound t))
  | Err (BadModule _) => valid_module_name module = false
  | Err (BadMethod _) | Err (BadPath _) => bind_key method path = None
  | Err Contention => False
  end.
Proof.
  intros Hok. pose proof Hok as [Hu Hd _ _ _ _]. unfold bind_owned, bind_key.
  destruct (normalize_method method) as [m|]; simpl; [|done].
  destruct (normalize_route_path path) as [p|]; simpl; [|done].
  destruct (valid_module_name module); simpl; [|done].
  set (k := base_key m p). pose proof (replacing_iff t k) as Hr.
  destruct (_ && _) eqn:Efull.
  - apply andb_true_iff in Efull as [E1 E2]. reflect_bool. split; [done|].
    eexists _, _. split; [done|]. fold k. rewrite <-(len_bound t Hu Hd). split; [|done].
    destruct (bound t !! k); [|done]. exfalso.
    destruct Hr as [_ Hr]. rewrite orb_true_iff in Hr. destruct Hr; [by eexists|congruence..].
  - split; [done|]. eexists k, _. split; [done|].
    assert (is_Some (bound t !! k) ∨ Z.of_nat (len t) < MAX_BINDINGS) as Hroom.
    { apply andb_false_iff in Efull as [E|E]; reflect_bool; [left; by apply Hr|by right]. }
    split_and!; [by apply put_ok|by apply put_bound| |done].
    intros x. destruct owned; simpl; [|naive_solver].
    rewrite elem_of_app, list_elem_of_filter, list_elem_of_singleton.
    destruct (decide (x = k)); naive_solver.
Qed.

Lemma remove_ok t' t :
  table_ok t → dt_exact t' ⊆ dt_exact t → dt_prefix t' `sublist_of` dt_prefix t →
  Sorted (λ a b, prefix_leb a b = true) (dt_prefix t') → NoDup (dt_config_keys t') →
  (∀ k, k ∈ dt_config_keys t' → is_Some (bound t' !! k)) → table_ok t'.
Proof.
  intros [Hu Hd Hs Hl Ho Hou] He Hp Hs' Hn Hb.
  assert (NoDup (dt_prefix t').*1) as Hu'.
  { eapply sublist_NoDup; [exact Hu|]. by apply fmap_sublist. }
  constructor; try done.
  - intros k Hk. assert (k ∈ (dt_prefix t).*1) as Hk'.
    { apply list_elem_of_fmap in Hk as (e & -> & Hin). apply list_elem_of_fmap. exists e.
      split; [done|]. by eapply elem_of_sublist. }
    apply Hd in Hk'. eapply lookup_weaken_None; done.
  - unfold len in *. apply sublist_length in Hp. apply map_subseteq_size in He. lia.
Qed.

Lemma unbind_spec method path t :
  table_ok t → table_ok (unbind method path t) ∧
  bound (unbind method path t) =
    match bind_key method path with Some (k, _) => delete k (bound t) | None => bound t end.
Proof.
  intros Hok. unfold unbind, bind_key. destruct (normalize_method method) as [m|]; [|done]. simpl.
  destruct (normalize_route_path path) as [p|]; [|done]. simpl. set (k := base_key m p).
  assert (∀ x, bound {| dt_exact := delete k (dt_exact t); dt_prefix := drop_key k (dt_prefix t);
     dt_config_keys := filter (λ k0, k0 ≠ k) (dt_config_keys t) |} !! x = delete k (bound t) !! x) as Hb.
  { intros x. rewrite bound_drop. by destruct t. }
  split; [|by apply map_eq]. destruct Hok as [Hu Hd Hs Hl Ho Hou] eqn:Eok. clear Eok.
  apply (remove_ok _ t); simpl.
  - by constructor.
  - apply delete_subseteq.
  - apply sublist_filter.
  - apply sorted_filter; [apply _|done].
  - by apply NoDup_filter.
  - intros x [Hx Hin]%list_elem_of_filter. rewrite Hb, lookup_delete_ne by done. by apply Ho.
Qed.

Lemma filter_entries_map module (l : list (Key * bytes)) k :
  NoDup l.*1 →
  (list_to_map (filter (λ e : Key * bytes, e.2 ≠ module) l) : gmap Key bytes) !! k =
    (m ← (list_to_map l : gmap Key bytes) !! k; if decide (m ≠ module) then Some m else None).
Proof.
  intros Hn. apply option_eq. intros m.
  rewrite <-(elem_of_list_to_map (M := gmap Key)) by by apply nodup_filter_keys.
  rewrite list_elem_of_filter, bind_Some. simpl. split.
  - intros [Hp Hin]. exists m. rewrite <-(elem_of_list_to_map (M := gmap Key)) by done.
    split; [done|]. by rewrite decide_True.
  - intros (m' & Hm & Hd). rewrite <-(elem_of_list_to_map (M := gmap Key)) in Hm by done.
    case_decide; [|done]. by simplify_eq.
Qed.

Lemma unbind_module_spec module t :
  table_ok t → let '(t', removed) := unbind_module module t in
  table_ok t' ∧ bound t' = filter (λ kv, kv.2.2 ≠ module) (bound t) ∧
  removed = (size (bound t) - size (bound t'))%nat.
Proof.
  intros Hok. pose proof Hok as [Hu Hd Hs Hl Ho Hou]. unfold unbind_module.
  set (t' := {| dt_exact := _ |}).
  assert (bound t' = filter (λ kv, kv.2.2 ≠ module) (bound t)) as Hb.
  { apply map_eq. intros k. rewrite map_lookup_filter, !bound_lookup. unfold t'. simpl.
    rewrite map_lookup_filter, (filter_entries_map module _ _ Hu).
    destruct (dt_exact t !! k) as [m|] eqn:E; simpl.
    - destruct (decide (m ≠ module)); [by rewrite !option_guard_True by done|].
      rewrite !option_guard_False by done. simpl.
      destruct ((list_to_map (dt_prefix t) : gmap Key bytes) !! k) eqn:E2; simpl; [|done].
      apply elem_of_list_to_map_2 in E2. rewrite (Hd k) in E; [done|].
      apply list_elem_of_fmap. eexists; split; [|exact E2]; done.
    - destruct ((list_to_map (dt_prefix t) : gmap Key bytes) !! k) as [m|]; simpl; [|done].
      destruct (decide (m ≠ module)); simpl; [by rewrite option_guard_True by done|].
      by rewrite option_guard_False by done. }
  assert (table_ok t') as Hok'.
  { apply (remove_ok _ t); [done|apply map_filter_subseteq|apply sublist_filter| | |].
    - apply sorted_filter; [apply _|done].
    - by apply NoDup_filter.
    - intros k [Hk _]%list_elem_of_filter. apply replacing_iff. exact Hk. }
  split_and!; [done|done|]. unfold len at 1. fold (len t). fold (len t').
  destruct Hok'. by rewrite !len_bound.
Qed.

(** The bindings a reload may not touch. *)
Definition runtime_bindings (t : DynamicRoutes) : gmap Key (bool * bytes) :=
  filter (λ kv, kv.1 ∉ dt_config_keys t) (bound t).

Lemma drop_stale_spec t :
  table_ok t → table_ok (drop_stale t) ∧ bound (drop_stale t) = runtime_bindings t ∧
  dt_config_keys (drop_stale t) = [].
Proof.
  intros Hok. unfold drop_stale, runtime_bindings.
  set (t0 := {| dt_exact := dt_exact t; dt_prefix := dt_prefix t; dt_config_keys := [] |}).
  assert (table_ok t0) as H0.
  { destruct Hok. constructor; simpl; try done; [by intros k Hk%elem_of_nil|constructor]. }
  change (bound t) with (bound t0). assert (dt_config_keys t0 = []) as Hc by done.
  clearbody t0. generalize (dt_config_keys t) as ks. intros ks. revert t0 H0 Hc.
  induction ks as [|key ks IH]; intros t0 H0 Hc; simpl.
  { split_and!; try done. apply map_eq. intros k. rewrite map_lookup_filter.
    destruct (bound t0 !! k); done. }
  set (t1 := {| dt_exact := delete key (dt_exact t0) |}).
  assert (∀ k, bound t1 !! k = delete key (bound t0) !! k) as Hb.
  { intros k. unfold t1. rewrite bound_drop. by destruct t0. }
  assert (table_ok t1) as H1.
  { pose proof H0 as [_ _ Hs _ _ _].
    apply (remove_ok _ t0); [done|apply delete_subseteq|apply sublist_filter| | |]; simpl.
    - apply sorted_filter; [apply _|done].
    - rewrite Hc. constructor.
    - rewrite Hc. by intros k Hk%elem_of_nil. }
  destruct (IH t1 H1 Hc) as (Hok' & Hb' & Hc'). split_and!; [done| |done].
  rewrite Hb'. apply map_eq. intros k. rewrite !map_lookup_filter, Hb.
  destruct (decide (k = key)) as [->|Hne].
  - rewrite lookup_delete_eq. destruct (bound t0 !! key); [|done]. simpl.
    rewrite option_guard_False; [done|]. intros H. apply H. by left.
  - rewrite lookup_delete_ne by done. destruct (bound t0 !! k); [|done]. simpl.
    destruct (decide (k ∈ ks)).
    + rewrite !option_guard_False; [done|intros H; apply H; by right|by intros H].
    + rewrite !option_guard_True; [done| |done]. rewrite elem_of_cons. naive_solver.
Qed.

(** ** Reloads *)

(** What a configured route binds. *)
Definition route_entry (r : DynamicRoute) : option (Key * (bool * bytes)) :=
  if valid_module_name (dr_module r)
  then '(k, s) ← bind_key (dr_method r) (dr_path r); Some (k, (s, dr_module r))
  else None.

Definition add_entry (m : gmap Key (bool * bytes)) (r : DynamicRoute) : gmap Key (bool * bytes) :=
  match route_entry r with Some (k, v) => <[k := v]> m | None => m end.

(** The table a configuration declares; a later entry wins. *)
Definition cfg_table (cfg : list DynamicRoute) : gmap Key (bool * bytes) := foldl add_entry ∅ cfg.

Lemma add_entries_union cfg m : foldl add_entry m cfg = cfg_table cfg ∪ m.
Proof.
  unfold cfg_table. rewrite <-(map_empty_union m) at 1. generalize (∅ : gmap Key (bool * bytes)) as m0.
  induction cfg as [|r cfg IH]; intros m0; simpl; [done|].
  rewrite <-IH. f_equal. unfold add_entry. destruct (route_entry r) as [[k v]|]; [|done].
  apply insert_union_l.
Qed.

Lemma overlay_spec t r :
  table_ok t → Z.of_nat (size (bound t)) < MAX_BINDINGS →
  table_ok (overlay t r) ∧ bound (overlay t r) = add_entry (bound t) r ∧
  ∀ k, k ∈ dt_config_keys (overlay t r) ↔
    k ∈ dt_config_keys t ∨ is_Some (fst <$> route_entry r) ∧ fst <$> route_entry r = Some k.
Proof.
  intros Hok Hroom. unfold overlay, add_entry, route_entry.
  pose proof (bind_owned_spec (dr_method r) (dr_path r) (dr_module r) true t Hok) as Hs.
  destruct (bind_owned _ _ _ _ _) as [t'|[]].
  - destruct Hs as (-> & k & s & -> & Hok' & Hb & Hk & _). simpl. split_and!; [done|done|].
    intros x. rewrite Hk. split; [intros [?|[_ ->]]; [by left|right; split; [by eexists|done]]|].
    intros [?|[_ [= ->]]]; auto.
  - destruct (valid_module_name _); rewrite ?Hs; simpl; (split_and!; [done|done|]);
      intros x; split; [by left|intros [?|[[? ?] ?]]; done|by left|intros [?|[[? ?] ?]]; done].
  - destruct (valid_module_name _); rewrite ?Hs; simpl; (split_and!; [done|done|]);
      intros x; split; [by left|intros [?|[[? ?] ?]]; done|by left|intros [?|[[? ?] ?]]; done].
  - rewrite Hs. split_and!; [done|done|]. intros x.
    split; [by left|intros [?|[[? ?] ?]]; done].
  - destruct Hs as (_ & ? & ? & _ & _ & ?). lia.
  - done.
Qed.

Lemma add_entry_size m r : (size (add_entry m r) ≤ S (size m))%nat.
Proof.
  unfold add_entry. destruct (route_entry r) as [[k v]|]; [|lia].
  rewrite map_size_insert. case_match; simpl; lia.
Qed.

Lemma overlays_spec cfg t :
  table_ok t → Z.of_nat (size (bound t) + length cfg) <= MAX_BINDINGS →
  table_ok (foldl overlay t cfg) ∧ bound (foldl overlay t cfg) = foldl add_entry (bound t) cfg ∧
  ∀ k, k ∈ dt_config_keys (foldl overlay t cfg) ↔
    k ∈ dt_config_keys t ∨ ∃ r, r ∈ cfg ∧ fst <$> route_entry r = Some k.
Proof.
  revert t. induction cfg as [|r cfg IH]; intros t Hok Hroom; cbn [foldl length] in *.
  { split_and!; [done|done|]. intros k. split; [by left|].
    intros [?|(r & Hr%elem_of_nil & _)]; done. }
  destruct (overlay_spec t r Hok) as (Hok1 & Hb1 & Hk1); [lia|].
  destruct (IH (overlay t r) Hok1) as (Hok2 & Hb2 & Hk2).
  { rewrite Hb1. pose proof (add_entry_size (bound t) r). lia. }
  split_and!; [done|by rewrite Hb2, Hb1|]. intros k. rewrite Hk2, Hk1. setoid_rewrite elem_of_cons.
  split.
  - intros [[?|[_ Hr]]|(r' & ? & ?)]; [by left|right; exists r; auto|right; exists r'; auto].
  - intros [?|(r' & [->|?] & Hr')]; [auto|left; right; rewrite Hr'; eauto|right; eauto].
Qed.

Lemma cfg_table_domain cfg k :
  is_Some (cfg_table cfg !! k) ↔ ∃ r, r ∈ cfg ∧ fst <$> route_entry r = Some k.
Proof.
  unfold cfg_table.
  assert (∀ m, is_Some (foldl add_entry m cfg !! k) ↔
    is_Some (m !! k) ∨ ∃ r, r ∈ cfg ∧ fst <$> route_entry r = Some k) as H.
  { induction cfg as [|r cfg IH]; intros m; simpl.
    { split; [by left|]. intros [?|(r & Hr%elem_of_nil & _)]; done. }
    rewrite IH. setoid_rewrite elem_of_cons. unfold add_entry.
    destruct (route_entry r) as [[k' v]|] eqn:E.
    - rewrite lookup_insert_is_Some'. split.
      + intros [[->|?]|(r' & ? & ?)]; [right; exists r; rewrite E; auto|auto|eauto].
      + intros [?|(r' & [->|?] & Hr)]; [auto| |eauto]. rewrite E in Hr. left. left. by injection Hr.
    - split; [intros [?|(r' & ? & ?)]; eauto|].
      intros [?|(r' & [->|?] & Hr)]; [auto|by rewrite E in Hr|eauto]. }
  rewrite H, lookup_empty. split; [intros [[? ?]|?]; done|by right].
Qed.

(** ** Lookup *)

Lemma covers_iff p path :
  covers p path = true ↔ path = p ∨ ∃ rest, path = p ++ bs "/" ++ rest.
Proof.
  unfold covers. destruct (strip_prefix p path) as [rest|] eqn:E.
  - apply strip_prefix_Some in E as ->. rewrite orb_true_iff, bool_decide_eq_true, starts_with_iff.
    split.
    + intros [->|[r ->]]; [left; apply app_nil_r|right; by exists r].
    + intros [H|[r H]].
      * left. by apply (app_inv_head p); rewrite app_nil_r.
      * right. exists r. by apply (app_inv_head p).
  - split; [done|]. intros H. exfalso.
    assert (∃ r, path = p ++ r) as [r Hr].
    { destruct H as [->|[r ->]]; [exists []; by rewrite app_nil_r|by eexists]. }
    apply strip_prefix_Some in Hr. congruence.
Qed.

(** Two prefixes of one path of the same length are the same. *)
Lemma covers_inj p1 p2 path :
  covers p1 path = true → covers p2 path = true → length p1 = length p2 → p1 = p2.
Proof.
  rewrite !covers_iff. intros H1 H2 Hl.
  assert (∃ r1, path = p1 ++ r1) as [r1 E1]
    by (destruct H1 as [->|[r ->]]; [exists []; by rewrite app_nil_r|by eexists]).
  assert (∃ r2, path = p2 ++ r2) as [r2 E2]
    by (destruct H2 as [->|[r ->]]; [exists []; by rewrite app_nil_r|by eexists]).
  rewrite E1 in E2. by apply app_inj_1 in E2 as [? _].
Qed.

Lemma find_longest (P : Key * bytes → Prop) `{∀ x, Decision (P x)} l i e e' :
  Sorted (λ a b, prefix_leb a b = true) l → list_find P l = Some (i, e) →
  e' ∈ l → P e' → (key_len e'.1 ≤ key_len e.1)%nat.
Proof.
  intros Hs Hf [j Hj]%list_elem_of_lookup Hp. apply list_find_Some in Hf as (Hi & _ & Hfirst).
  destruct (decide (i = j)) as [->|Hne]; [by simplify_eq|].
  assert (i < j)%nat as Hij.
  { destruct (decide (j < i)%nat) as [Hlt|]; [|lia]. exfalso. by apply (Hfirst j e'). }
  apply Sorted_StronglySorted in Hs; [|apply _]. clear Hfirst Hne.
  revert i j Hi Hj Hij. induction Hs as [|x l _ IH Hall]; intros [|i] [|j] Hi Hj Hij; try lia;
    simpl in *; try done.
  - injection Hi as ->. rewrite Forall_forall in Hall.
    apply Nat.leb_le, (Hall e'). by eapply list_elem_of_lookup_2.
  - apply (IH i j); [done..|lia].
Qed.

(** The most specific binding of a request. *)
Definition best_binding (m : gmap Key (bool * bytes)) (method path module : bytes) : Prop :=
  let method := to_ascii_uppercase method in
  m !! (method, path) = Some (false, module) ∨
  ((∀ x, m !! (method, path) ≠ Some (false, x)) ∧
   ∃ p, m !! (method, p) = Some (true, module) ∧ covers p path = true ∧
     ∀ p' x, m !! (method, p') = Some (true, x) → covers p' path = true →
       (length p' ≤ length p)%nat).

Lemma lookup_route_spec method path t module :
  table_ok t → lookup_route method path t = Some module ↔ best_binding (bound t) method path module.
Proof.
  intros Hok. unfold lookup_route, best_binding. set (M := to_ascii_uppercase method).
  destruct (dt_exact t !! (M, path)) as [x|] eqn:E.
  { apply bound_exact in E as Eb. rewrite Eb. split; [intros [= ->]; by left|].
    intros [[= ->]|[Hn _]]; [done|]. by destruct (Hn x). }
  assert (∀ x, bound t !! (M, path) ≠ Some (false, x)) as Hno.
  { intros x Hx%bound_exact. congruence. }
  set (P := λ e : Key * bytes, bool_decide (e.1.1 = M) && covers e.1.2 path = true).
  pose proof (tk_sorted t Hok) as Hs. split.
  - intros ([i [[m p] y]] & Hf & Hm)%fmap_Some. simpl in Hm. subst y. right. split; [done|].
    pose proof Hf as (Hi & HP & _)%list_find_Some. apply andb_true_iff in HP as [Hb Hc].
    apply bool_decide_eq_true in Hb. simpl in Hb, Hc. subst m. exists p. split_and!; [|done|].
    + apply bound_prefix; [done|]. by eapply list_elem_of_lookup_2.
    + intros p' y Hy Hc'. apply bound_prefix in Hy; [|done].
      pose proof (find_longest P _ _ _ _ Hs Hf Hy) as Hl. unfold key_len in Hl. simpl in Hl.
      assert (P (M, p', y)) as HP' by (unfold P; simpl; by rewrite bool_decide_eq_true_2, Hc').
      specialize (Hl HP'). lia.
  - intros [?|(_ & p & Hp & Hc & Hbest)]; [by destruct (Hno module)|].
    apply bound_prefix in Hp as Hin; [|done].
    assert (P (M, p, module)) as HP by (unfold P; simpl; by rewrite bool_decide_eq_true_2, Hc).
    destruct (list_find_elem_of P _ _ Hin HP) as [[i [[m' p'] y]] Hf].
    change (snd ∘ snd <$> list_find P (dt_prefix t) = Some module). rewrite Hf. simpl.
    pose proof (find_longest P _ _ _ _ Hs Hf Hin HP) as Hl.
    apply list_find_Some in Hf as (Hi & HP' & _). apply andb_true_iff in HP' as [Hb Hc'].
    apply bool_decide_eq_true in Hb. simpl in Hb, Hc'. subst m'. unfold key_len in Hl. simpl in Hl.
    assert (bound t !! (M, p') = Some (true, y)) as Hy.
    { apply bound_prefix; [done|]. by eapply list_elem_of_lookup_2. }
    pose proof (Hbest _ _ Hy Hc'). assert (p' = p) as -> by (apply (covers_inj _ _ path); [done..|lia]).
    congruence.
Qed.

(** * The live table *)

Definition CAS_TURNS : nat := 8.

(** [others i] are the tables other writers store during turn [i]. *)
Definition bind_dynamic_route (others : nat → list DynamicRoutes) (method path module : bytes)
    (c : ArcSwap DynamicRoutes) : result BindError () * ArcSwap DynamicRoutes :=
  let '(_, r, c) := cas_loop
    (λ _ u t, (u, t ← bind method path module t; Ok (t, ()))) others CAS_TURNS 0 () c in
  (default (Err Contention) r, c).

Definition unbind_dynamic_module (others : nat → list DynamicRoutes) (module : bytes)
    (c : ArcSwap DynamicRoutes) : nat * ArcSwap DynamicRoutes :=
  let '(_, r, c) := cas_loop
    (λ _ u t, (u, Ok (unbind_module module t) : result () (DynamicRoutes * nat)))
    others CAS_TURNS 0 () c in
  (match r with Some (Ok n) => n | _ => 0%nat end, c).

(** [apply_dynamic_routes] on the live table: one load, one unconditional store;
    [others] are the tables stored in between. *)
Definition apply_live (others : list DynamicRoutes) (cfg : option DynamicConfig)
    (c : ArcSwap DynamicRoutes) : ArcSwap DynamicRoutes :=
  store (foldl store c others) (apply_dynamic_routes cfg (as_value c)).

(** What a history of calls and reloads does to the table. *)
Inductive table_step (t : DynamicRoutes) : DynamicRoutes → Prop :=
| ts_bind method path module t' : bind method path module t = Ok t' → table_step t t'
| ts_unbind method path : table_step t (unbind method path t)
| ts_unbind_module module : table_step t (unbind_module module t).1
| ts_apply cfg : table_step t (apply_dynamic_routes cfg t).

Definition reachable_table (t : DynamicRoutes) : Prop := rtc table_step new t.

Lemma new_table_ok : table_ok new.
Proof.
  constructor; simpl; try constructor; try done; intros k Hk; by apply elem_of_nil in Hk.
Qed.

Lemma overlay_ok t r : table_ok t → table_ok (overlay t r).
Proof.
  intros Hok. unfold overlay.
  pose proof (bind_owned_spec (dr_method r) (dr_path r) (dr_module r) true t Hok) as Hs.
  destruct (bind_owned _ _ _ _ _) as [t'|]; [|done]. by destruct Hs as (_ & ? & ? & _ & ? & _).
Qed.

Lemma table_step_ok t t' : table_step t t' → table_ok t → table_ok t'.
Proof.
  intros [method path module t1 Hb|method path|module|[d|]] Hok.
  - pose proof (bind_owned_spec method path module false t Hok) as Hs. unfold bind in Hb.
    rewrite Hb in Hs. by destruct Hs as (_ & ? & ? & _ & ? & _).
  - by apply unbind_spec.
  - pose proof (unbind_module_spec module t Hok) as Hs. by destruct (unbind_module module t), Hs.
  - simpl. unfold reconcile. pose proof (drop_stale_spec t Hok) as [Hok0 _].
    generalize dependent (drop_stale t). induction (dy_routes d) as [|r l IH]; intros t0 H0; [done|].
    simpl. by apply IH, overlay_ok.
  - apply new_table_ok.
Qed.

Lemma reachable_table_ok t : reachable_table t → table_ok t.
Proof.
  unfold reachable_table. intros H. pose proof new_table_ok as H0. revert H0.
  induction H as [|t1 t2 t3 Hs _ IH]; [done|]. intros H1. by apply IH, (table_step_ok t1).
Qed.

(** * Theorems *)

(** C20. The binding table refines a map.  In every table reached from the empty
    one by binds, unbinds and reloads there are at most 4096 bindings, one per
    method and base path; a request is dispatched to its exact binding, else to
    the longest prefix binding that covers its path on a [/] boundary, else
    nowhere; a bind inserts exactly its key and is refused only for a bad name
    or, on a new key, a full table; an unbind deletes exactly its key, and
    unbinding a module deletes exactly its bindings and counts them. *)
Theorem dynamic_table_refines_map (t : DynamicRoutes) (method path module : bytes) :
  reachable_table t →
  len t = size (bound t) ∧ Z.of_nat (len t) <= MAX_BINDINGS ∧
  (∀ m, lookup_route method path t = Some m ↔ best_binding (bound t) method path m) ∧
  match bind method path module t with
  | Ok t' => ∃ k s, bind_key method path = Some (k, s) ∧ bound t' = <[k := (s, module)]> (bound t)
  | Err _ => bind_key method path = None ∨ valid_module_name module = false ∨
      (len t = Z.to_nat MAX_BINDINGS ∧ ∃ k s, bind_key method path = Some (k, s) ∧ bound t !! k = None)
  end ∧
  bound (unbind method path t) =
    match bind_key method path with Some (k, _) => delete k (bound t) | None => bound t end ∧
  let '(t', n) := unbind_module module t in
  bound t' = filter (λ kv, kv.2.2 ≠ module) (bound t) ∧ (n = size (bound t) - size (bound t'))%nat.
Proof.
  intros Hok%reachable_table_ok. pose proof Hok as [Hu Hd _ Hl _ _].
  split_and!; [by apply len_bound|done|intros m; by apply lookup_route_spec| |by apply unbind_spec|].
  - pose proof (bind_owned_spec method path module false t Hok) as Hs. unfold bind.
    destruct (bind_owned _ _ _ _ _) as [t'|[]].
    + destruct Hs as (_ & k & s & ? & _ & ? & _). by exists k, s.
    + by left.
    + by left.
    + right. by left.
    + destruct Hs as (_ & k & s & Hk & Hn & Hf). right. right. rewrite <-(len_bound t Hu Hd) in Hf.
      split; [|by exists k, s]. lia.
    + done.
  - pose proof (unbind_module_spec module t Hok) as Hs. destruct (unbind_module module t). tauto.
Qed.

(** A reload enforces the configuration and keeps runtime bindings.  When
    the configured routes fit beside the runtime ones, afterwards every
    configured route is bound exactly as configured (over any runtime binding of
    its key), every key only the old configuration owned is gone, every other
    runtime binding is untouched, and exactly the configured keys are owned by
    the configuration; without a [dynamic] section the table is empty. *)
Theorem dynamic_reload_exact (t : DynamicRoutes) (d : DynamicConfig) :
  reachable_table t →
  Z.of_nat (size (runtime_bindings t) + length (dy_routes d)) <= MAX_BINDINGS →
  let t' := apply_dynamic_routes (Some d) t in
  (∀ k, bound t' !! k =
     match cfg_table (dy_routes d) !! k with
     | Some v => Some v
     | None => if decide (k ∈ dt_config_keys t) then None else bound t !! k
     end) ∧
  (∀ k, k ∈ dt_config_keys t' ↔ is_Some (cfg_table (dy_routes d) !! k)) ∧
  apply_dynamic_routes None t = new.
Proof.
  intros Hok%reachable_table_ok Hroom t'. destruct (drop_stale_spec t Hok) as (Hok0 & Hb0 & Hk0).
  destruct (overlays_spec (dy_routes d) (drop_stale t) Hok0) as (Hok1 & Hb1 & Hk1).
  { by rewrite Hb0. }
  split_and!; [| |done].
  - intros k. unfold t'. simpl. unfold reconcile. rewrite Hb1, add_entries_union, Hb0, lookup_union.
    destruct (cfg_table (dy_routes d) !! k); [by rewrite union_Some_l|]. rewrite option_union_left_id.
    unfold runtime_bindings. rewrite map_lookup_filter. destruct (bound t !! k); simpl; [|by case_decide].
    destruct (decide (k ∈ dt_config_keys t)); [by rewrite option_guard_False by (intros Hx; by apply Hx)|].
    by rewrite option_guard_True.
  - intros k. unfold t'. simpl. unfold reconcile. rewrite Hk1, Hk0, cfg_table_domain.
    split; [intros [Hx%elem_of_nil|?]; done|by right].
Qed.

(** Registrations are atomic.  Whatever tables other writers store between
    the load and the swap of each turn, a bind behaves as if it ran alone on the
    table the others left: it either installs exactly its own change on top of
    all of theirs, or reports its error there and changes nothing; it reports
    contention only after losing all eight turns. *)
Theorem live_bind_atomic (others : nat → list DynamicRoutes) (method path module : bytes)
    (c : ArcSwap DynamicRoutes) :
  let '(r, c') := bind_dynamic_route others method path module c in
  ∃ n, (n ≤ CAS_TURNS)%nat ∧
    let seen := foldl store c (stored others 0 n) in
    match r with
    | Ok _ => ∃ t', bind method path module (as_value seen) = Ok t' ∧ c' = store seen t' ∧
        others n = []
    | Err Contention => c' = seen ∧ ∀ k, (k < CAS_TURNS)%nat → others k ≠ []
    | Err e => bind method path module (as_value seen) = Err e ∧ c' = foldl store seen (others n)
    end.
Proof.
  unfold bind_dynamic_route. pose proof (cas_loop_spec
    (λ _ (u : ()) t, (u, t ← bind method path module t; Ok (t, ()))) eq (λ _ _ _, eq_refl)
    others CAS_TURNS 0 () c) as Hs.
  destruct (cas_loop _ _ _ _ _ _) as [[[] r] c'].
  destruct Hs as (n & [] & Hn & _ & Hs). exists n. split; [done|]. cbn zeta in *.
  set (seen := foldl store c _) in *.
  assert (bind method path module (as_value seen) ≠ Err Contention) as Hnc.
  { unfold bind, bind_owned. destruct (normalize_method method); [|done]. simpl.
    destruct (normalize_route_path path); [|done]. simpl. repeat case_match; done. }
  destruct r as [[x|e]|]; simpl in *.
  - destruct Hs as (_ & Ho & t' & Hb & ->). exists t'.
    destruct (bind method path module (as_value seen)) as [t2|]; [|done]. by injection Hb as ->.
  - destruct Hs as (_ & Hb & ->). destruct (bind method path module (as_value seen)) as [t2|e2]; [done|].
    injection Hb as ->. by destruct e.
  - destruct Hs as (_ & -> & _ & Ho). split; [done|]. intros k Hk. apply Ho. lia.
Qed.

(** What a bind leaves of the live table [c], with the bindings as a map. *)
Definition bind_left (method path module : bytes) (c : ArcSwap DynamicRoutes)
    (r : result BindError ()) (c' : ArcSwap DynamicRoutes) : Prop :=
  ∃ l, let seen := foldl store c l in
    match r with
    | Ok _ => ∃ t', bind method path module (as_value seen) = Ok t' ∧ c' = store seen t' ∧
        (table_ok (as_value seen) → ∃ k s, bind_key method path = Some (k, s) ∧
           bound t' = <[k := (s, module)]> (bound (as_value seen)))
    | Err _ => c' = seen
    end.

Lemma bind_route_left others method path module c :
  let '(r, c') := bind_dynamic_route others method path module c in bind_left method path module c r c'.
Proof.
  pose proof (live_bind_atomic others method path module c) as Hb.
  destruct (bind_dynamic_route _ _ _ _ _) as [r c']. destruct Hb as (n & _ & Hr). cbn zeta in Hr.
  assert (∀ e, r = Err e → bind_left method path module c r c') as Herr.
  { intros e ->. unfold bind_left. destruct e; try (destruct Hr as [_ ->]; rewrite <-foldl_app; by eexists).
    destruct Hr as [-> _]. by eexists. }
  destruct r as [[]|e]; [|by eapply Herr]. exists (stored others 0 n). cbn zeta.
  destruct Hr as (t' & Hb & -> & _). exists t'. split_and!; [done|done|]. intros Hok.
  pose proof (bind_owned_spec method path module false _ Hok) as Hs. unfold bind in Hb. rewrite Hb in Hs.
  destruct Hs as (_ & k & s & Hk & _ & Hbd & _). by exists k, s.
Qed.

(** What a removal leaves: every binding of the module gone, or, after losing every
    turn, nothing of its own done and no binding counted. *)
Definition unbind_left (module : bytes) (c : ArcSwap DynamicRoutes) (k : nat)
    (c' : ArcSwap DynamicRoutes) (lost : Prop) : Prop :=
  ∃ l, let seen := foldl store c l in
    (c' = store seen (unbind_module module (as_value seen)).1 ∧
     (table_ok (as_value seen) →
        bound (as_value c') = filter (λ kv, kv.2.2 ≠ module) (bound (as_value seen)) ∧
        k = (size (bound (as_value seen)) - size (bound (as_value c')))%nat)) ∨
    (lost ∧ k = 0%nat ∧ c' = seen).

Lemma unbind_module_left others module c :
  let '(k, c') := unbind_dynamic_module others module c in
  unbind_left module c k c' (∀ i, (i < CAS_TURNS)%nat → others i ≠ []).
Proof.
  unfold unbind_dynamic_module. pose proof (cas_loop_spec
    (λ _ (u : ()) t, (u, Ok (unbind_module module t) : result () (DynamicRoutes * nat))) eq (λ _ _ _, eq_refl)
    others CAS_TURNS 0 () c) as Hs.
  destruct (cas_loop _ _ _ _ _ _) as [[[] r] c']. destruct Hs as (n & [] & _ & _ & Hs).
  exists (stored others 0 n). cbn zeta in *. set (seen := foldl store c _) in *.
  destruct r as [[x|e]|]; simpl in Hs.
  - left. destruct Hs as (_ & _ & t' & Hu & ->).
    destruct (unbind_module module (as_value seen)) as [t2 n2] eqn:Eu. injection Hu as <- <-.
    split; [done|]. intros Hok. pose proof (unbind_module_spec module _ Hok) as Hm. rewrite Eu in Hm. apply Hm.
  - by destruct Hs as (_ & ? & _).
  - right. destruct Hs as (_ & -> & _ & Ho). split_and!; [|done..]. intros k Hk. apply Ho. lia.
Qed.

(** * Concrete tables *)

Definition ex_bind (method path module : string) (t : DynamicRoutes) : DynamicRoutes :=
  match bind (bs method) (bs path) (bs module) t with Ok t' => t' | Err _ => t end.

Definition ex_dynamic (path : string) : DynamicConfig := {|
  dy_dir := bs "mods"; dy_timeout_ms := 1; dy_max_memory_mb := 1; dy_on_failure := FailOpen;
  dy_max_body_bytes := 1; dy_settings := ∅;
  dy_routes := [{| dr_method := bs "get"; dr_path := bs path; dr_module := bs "cfg" |}] |}.

Lemma ex_bind_reachable method path module t :
  reachable_table t → reachable_table (ex_bind method path module t).
Proof.
  intros Ht. unfold ex_bind. destruct (bind _ _ _ t) as [t'|] eqn:E; [|done].
  eapply rtc_r; [exact Ht|]. by eapply ts_bind.
Qed.

Lemma dynamic_table_refines_map_witness :
  let t := ex_bind "GET" "/api/v1/*" "deep" (ex_bind "get" "/api/*" "shallow" new) in
  best_binding (bound t) (bs "get") (bs "/api/v1/x") (bs "deep") ∧ len t = 2%nat.
Proof.
  intros t. destruct (dynamic_table_refines_map t (bs "get") (bs "/api/v1/x") (bs "m")) as (_ & _ & Hl & _).
  - apply ex_bind_reachable, ex_bind_reachable, rtc_refl.
  - split; [|by vm_compute]. apply Hl. by vm_compute.
Defined.

Lemma dynamic_reload_exact_witness :
  let t := ex_bind "GET" "/b" "run" (apply_dynamic_routes (Some (ex_dynamic "/a")) new) in
  let t' := apply_dynamic_routes (Some (ex_dynamic "/c")) t in
  bound t' !! (bs "GET", bs "/b") = Some (false, bs "run") ∧
  bound t' !! (bs "GET", bs "/a") = None.
Proof.
  intros t t'. destruct (dynamic_reload_exact t (ex_dynamic "/c")) as (Hb & _).
  - apply ex_bind_reachable. apply rtc_once, ts_apply.
  - apply Z.leb_le. subst t' t. vm_compute. reflexivity.
  - subst t' t. split; rewrite Hb; vm_compute; reflexivity.
Defined.

(** Binding a configured key at run time does not make the binding a runtime
    one: the key stays owned by the configuration and the next reload that drops
    it drops the new binding as well. *)
Lemma rebound_config_key_dropped :
  let t := ex_bind "GET" "/a" "run" (apply_dynamic_routes (Some (ex_dynamic "/a")) new) in
  lookup_route (bs "GET") (bs "/a") t = Some (bs "run") ∧
  lookup_route (bs "GET") (bs "/a") (apply_dynamic_routes (Some (ex_dynamic "/c")) t) = None.
Proof. by vm_compute. Qed.

(** A reload is not under compare-and-swap: a bind that lands between its load
    and its store was acknowledged and is lost. *)
Lemma reload_loses_concurrent_bind :
  let c := {| as_version := 0; as_value := new |} in
  let '(r, c1) := bind_dynamic_route (λ _, []) (bs "GET") (bs "/b") (bs "run") c in
  let c2 := apply_live [as_value c1] (Some (ex_dynamic "/a")) c in
  r = Ok () ∧ lookup_route (bs "GET") (bs "/b") (as_value c1) = Some (bs "run") ∧
  lookup_route (bs "GET") (bs "/b") (as_value c2) = None.
Proof. by vm_compute. Qed.
