(* ===== verification/Intercept.v ===== *)
(** Transparently intercepted connections: protocol detection
    ([openrusty-proxy/src/detect.rs]), re-injection of the sniffed bytes
    ([openrusty-server/src/transparent/prefixed.rs]), and the routing of inbound
    and outbound connections ([transparent.rs], [egress.rs]).

    A connection's reads are a list of events.  What happens to a connection is
    data: the outcomes counted, and the action taken on its byte stream. *)

From S2P Require Import Prelude Text Net Config Forward.
From Stdlib Require Import ZArith Lia.
From stdpp Require Import options.
Local Open Scope Z_scope.

(** * Detection *)

Definition H2_PREFIX : bytes := bs "PRI *".

Definition H1_METHODS : list bytes :=
  map bs ["GET"; "POST"; "PUT"; "DELETE"; "HEAD"; "OPTIONS"; "PATCH"; "CONNECT"; "TRACE"]%string.

Inductive Protocol := H1 | H2 | Opaque.

#[global] Instance protocol_eq_dec : EqDecision Protocol.
Proof. solve_decision. Defined.

Inductive SniffDecision := Complete (p : Protocol) | Incomplete.

(** The loop over the methods. *)
Fixpoint classify_h1 (methods : list bytes) (buf : bytes) : SniffDecision :=
  match methods with
  | [] => Complete Opaque
  | method :: methods =>
      if starts_with method buf then
        match buf !! length method with
        | Some b => if bool_decide (b = x20) then Complete H1 else Complete Opaque
        | None => Incomplete
        end
      else if starts_with buf method then Incomplete
      else classify_h1 methods buf
  end.

Definition classify (buf : bytes) : SniffDecision :=
  if starts_with H2_PREFIX buf then Complete H2
  else if starts_with buf H2_PREFIX then Incomplete
  else if starts_with (bs "PRI ") buf then Complete Opaque
  else classify_h1 H1_METHODS buf.

(** What the probe's [select!] sees next: bytes (none at end of stream), a read
    error, or the deadline. *)
Inductive ReadEvent := Chunk (c : bytes) | ReadFailed | Deadline.

Inductive DetectError := UnexpectedEof | IoError.

(** [detect]; the first component is [None] while nothing has settled. *)
Fixpoint detect (buf : bytes) (evs : list ReadEvent)
    : option (result DetectError (Protocol * bytes)) * list ReadEvent :=
  match evs with
  | [] => (None, [])
  | Deadline :: evs => (Some (Ok (Opaque, buf)), evs)
  | ReadFailed :: evs => (Some (Err IoError), evs)
  | Chunk c :: evs =>
      if bool_decide (c = []) then (Some (Err UnexpectedEof), evs)
      else
        let buf := buf ++ c in
        match classify buf with
        | Complete p => (Some (Ok (p, buf)), evs)
        | Incomplete => detect buf evs
        end
  end.

(** * Re-injection *)

(** The read side of [PrefixedStream]; the inner socket is the environment. *)
Record PrefixedStream := { ps_prefix : bytes; ps_pos : nat }.

Definition prefixed (prefix : bytes) : PrefixedStream := {| ps_prefix := prefix; ps_pos := 0 |}.

(** [poll_read] with room for [remaining] bytes; [inner] is what polling the
    socket would yield ([None]: pending). *)
Definition poll_read (remaining : nat) (inner : option bytes) (s : PrefixedStream)
    : option bytes * bool * PrefixedStream :=
  if (ps_pos s <? length (ps_prefix s))%nat then
    let n := Nat.min remaining (length (ps_prefix s) - ps_pos s)%nat in
    (Some (take n (drop (ps_pos s) (ps_prefix s))), false,
     {| ps_prefix := ps_prefix s; ps_pos := (ps_pos s + n)%nat |})
  else (take remaining <$> inner, true, s).

(** A sequence of polls: the bytes read, and those taken from the socket. *)
Fixpoint read_all (polls : list (nat * option bytes)) (s : PrefixedStream)
    : bytes * bytes * PrefixedStream :=
  match polls with
  | [] => ([], [], s)
  | (remaining, inner) :: polls =>
      let '(got, from_inner, s) := poll_read remaining inner s in
      let '(out, ins, s) := read_all polls s in
      let got := default [] got in
      (got ++ out, (if from_inner then got else []) ++ ins, s)
  end.

(** * Routing *)

Inductive RejectReason := RejectLoop | NoOriginalDst.

Inductive Step :=
| DegradeHttp
| Sniff (dst : SocketAddr)
| Dial (dst : SocketAddr)
| Reject (r : RejectReason).

Definition route_pre (role : ListenerRole) (orig_dst : option SocketAddr) (own_ports : list Z) : Step :=
  match orig_dst with
  | Some dst =>
      if is_loopback dst own_ports then Reject RejectLoop
      else if bool_decide (role = Outbound) then Dial dst
      else Sniff dst
  | None => if bool_decide (role = Outbound) then Reject NoOriginalDst else DegradeHttp
  end.

(** [h2c::ProtoMode]. *)
Inductive ProtoMode := Auto | ForceHttp1 | ForceHttp2.

Definition proto_mode (http1_only : bool) : ProtoMode := if http1_only then ForceHttp1 else Auto.

Inductive HttpStep := ServeHttp (m : ProtoMode) | Tunnel.

Definition route_http (p : Protocol) : HttpStep :=
  match p with
  | H1 => ServeHttp ForceHttp1
  | H2 => ServeHttp ForceHttp2
  | Opaque => Tunnel
  end.

Inductive EgressDenyReason := ModeDeny | DenyOpaque | TlsPort.

Inductive EgressStep :=
| StepOrig (dst : SocketAddr)
| StepSniff (dst : SocketAddr)
| StepGateway (dst : SocketAddr)
| StepDeny (r : EgressDenyReason).

Definition route_egress (mode : EgressMode) (protocol : option Protocol) (orig_dst : SocketAddr)
    : EgressStep :=
  match mode with
  | Direct => StepOrig orig_dst
  | EgDeny => StepDeny ModeDeny
  | Gateway =>
      match protocol with
      | None => StepSniff orig_dst
      | Some Opaque => StepDeny DenyOpaque
      | Some _ => if port orig_dst =? 443 then StepDeny TlsPort else StepGateway orig_dst
      end
  end.

(** * One connection *)

Definition OUTCOME_HTTP : bytes := bs "http".
Definition OUTCOME_TUNNEL : bytes := bs "tunnel".
Definition OUTCOME_LOOP_REJECTED : bytes := bs "loop_rejected".
Definition OUTCOME_NO_ORIG_DST : bytes := bs "no_orig_dst".
Definition OUTCOME_EGRESS_DIRECT : bytes := bs "egress_direct".
Definition OUTCOME_EGRESS_DENY : bytes := bs "egress_deny".
Definition OUTCOME_EGRESS_GATEWAY_OK : bytes := bs "egress_gateway_ok".
Definition OUTCOME_EGRESS_GATEWAY_FAIL : bytes := bs "egress_gateway_fail".

(** What becomes of the connection; [prefix] is re-injected ahead of it. *)
Inductive Action :=
| Close
| Serve (m : ProtoMode) (prefix : bytes)
| TunnelTo (dst : SocketAddr) (prefix : bytes).

Record Disposition := { di_outcomes : list bytes; di_action : Action }.

Definition dispose (outcome : bytes) (a : Action) : Disposition :=
  {| di_outcomes := [outcome]; di_action := a |}.

(** [forward_to_gateway]; [connected] says whether the dial succeeds within
    [GATEWAY_CONNECT_TIMEOUT]. *)
Definition forward_to_gateway (gateway : option SocketAddr) (connected : bool) (prefix : bytes)
    : Disposition :=
  match gateway with
  | None => dispose OUTCOME_EGRESS_GATEWAY_FAIL Close
  | Some gw =>
      if connected then dispose OUTCOME_EGRESS_GATEWAY_OK (TunnelTo gw prefix)
      else dispose OUTCOME_EGRESS_GATEWAY_FAIL Close
  end.

(** [run_outbound]; the [unreachable!] arms panic.  [None]: still sniffing. *)
Definition run_outbound (orig_dst : SocketAddr) (mode : EgressMode) (gateway : option SocketAddr)
    (connected : bool) (evs : list ReadEvent) : exec (option Disposition) :=
  match route_egress mode None orig_dst with
  | StepOrig dst => Ret (Some (dispose OUTCOME_EGRESS_DIRECT (TunnelTo dst [])))
  | StepDeny _ => Ret (Some (dispose OUTCOME_EGRESS_DENY Close))
  | StepSniff dst =>
      match (detect [] evs).1 with
      | None => Ret None
      | Some (Err _) => Ret (Some {| di_outcomes := []; di_action := Close |})
      | Some (Ok (protocol, prefix)) =>
          match route_egress mode (Some protocol) dst with
          | StepGateway _ => Ret (Some (forward_to_gateway gateway connected prefix))
          | StepDeny _ => Ret (Some (dispose OUTCOME_EGRESS_DENY Close))
          | _ => Panic
          end
      end
  | StepGateway _ => Panic
  end.

Definition handle_conn (cfg : ListenerConfig) (mode : EgressMode) (gateway : option SocketAddr)
    (own_ports : list Z) (orig : option SocketAddr) (connected : bool) (evs : list ReadEvent)
    : exec (option Disposition) :=
  match route_pre (ls_role cfg) orig own_ports with
  | Reject RejectLoop => Ret (Some (dispose OUTCOME_LOOP_REJECTED Close))
  | Reject NoOriginalDst => Ret (Some (dispose OUTCOME_NO_ORIG_DST Close))
  | DegradeHttp => Ret (Some (dispose OUTCOME_HTTP (Serve (proto_mode (ls_http1_only cfg)) [])))
  | Dial dst => run_outbound dst mode gateway connected evs
  | Sniff dst =>
      match (detect [] evs).1 with
      | None => Ret None
      | Some (Err _) => Ret (Some {| di_outcomes := []; di_action := Close |})
      | Some (Ok (protocol, prefix)) =>
          Ret (Some match route_http protocol with
                    | ServeHttp m => dispose OUTCOME_HTTP (Serve m prefix)
                    | Tunnel => dispose OUTCOME_TUNNEL (TunnelTo dst prefix)
                    end)
      end
  end.

(** * Detection is exact *)

(** The byte sequences that decide for an HTTP flavour. *)
Definition tokens : list (bytes * Protocol) :=
  (H2_PREFIX, H2) :: map (λ m, (m ++ bs " ", H1)) H1_METHODS.

Definition comparable (a b : bytes) : Prop := a `prefix_of` b ∨ b `prefix_of` a.

(** The verdict on a buffer, declaratively. *)
Definition verdict (s : bytes) (d : SniffDecision) : Prop :=
  match d with
  | Complete Opaque => Forall (λ t : bytes * Protocol, ¬ comparable t.1 s) tokens
  | Complete p => ∃ t, (t, p) ∈ tokens ∧ t `prefix_of` s
  | Incomplete => ∃ t p, (t, p) ∈ tokens ∧ s `prefix_of` t ∧ s ≠ t
  end.

#[local] Instance comparable_dec a b : Decision (comparable a b).
Proof. unfold comparable. apply _. Defined.

Lemma comparable_common a b s : a `prefix_of` s → comparable b s → comparable a b.
Proof.
  intros Ha [Hb|Hb].
  - destruct (prefix_weak_total a b s); [done..|by left|by right].
  - left. by etrans.
Qed.

Lemma prefix_snoc_inv (s m : bytes) x : s `prefix_of` m ++ [x] → s = m ++ [x] ∨ s `prefix_of` m.
Proof.
  intros [r Hr]. destruct r as [|y r] using rev_ind.
  - left. by rewrite app_nil_r in Hr.
  - right. rewrite app_assoc in Hr. apply app_inj_tail in Hr as [-> _]. by exists r.
Qed.

(** No method or [PRI ] can be confused with another token. *)
Lemma tokens_apart :
  Forall (λ m, Forall (λ t : bytes * Protocol, comparable m t.1 → t = (m ++ bs " ", H1)) tokens)
    H1_METHODS ∧
  Forall (λ t : bytes * Protocol, comparable (bs "PRI ") t.1 → t = (H2_PREFIX, H2)) tokens.
Proof.
  split; [|apply (bool_decide_unpack (Forall _ tokens)); by vm_compute].
  apply (bool_decide_unpack (Forall _ H1_METHODS)). by vm_compute.
Qed.

Lemma classify_h1_spec ms s :
  match classify_h1 ms s with
  | Complete H1 => ∃ m, m ∈ ms ∧ (m ++ bs " ") `prefix_of` s
  | Complete H2 => False
  | Complete Opaque => (∃ m, m ∈ ms ∧ m `prefix_of` s ∧ ¬ comparable (m ++ bs " ") s) ∨
      ∀ m, m ∈ ms → ¬ comparable (m ++ bs " ") s
  | Incomplete => ∃ m, m ∈ ms ∧ s `prefix_of` m ++ bs " " ∧ s ≠ m ++ bs " "
  end.
Proof.
  assert (∀ m : bytes, m ≠ m ++ [x20]) as Hne.
  { intros m H. apply (f_equal length) in H. rewrite length_app in H. simpl in H. lia. }
  change (bs " ") with [x20]. induction ms as [|m ms IH]; simpl.
  { right. by intros m Hm%elem_of_nil. }
  destruct (starts_with m s) eqn:E1.
  - apply starts_with_iff in E1 as [r ->]. rewrite lookup_app_r, Nat.sub_diag by lia.
    destruct r as [|b r]; simpl.
    + rewrite app_nil_r. exists m. split_and!; [by left|by eexists|by apply Hne].
    + case_bool_decide as Hb.
      * subst b. exists m. split; [by left|]. exists r. by rewrite <-app_assoc.
      * left. exists m. split_and!; [by left|by eexists|].
        intros [Hp|Hp]; apply prefix_app_inv, prefix_cons_inv_1 in Hp; congruence.
  - destruct (starts_with s m) eqn:E2.
    + apply starts_with_iff in E2. exists m. split_and!; [by left|by apply prefix_app_r|].
      intros ->. apply prefix_length in E2. rewrite length_app in E2. simpl in E2. lia.
    + assert (¬ comparable (m ++ [x20]) s) as Hm.
      { intros [Hp|Hp].
        - assert (starts_with m s = true); [|congruence]. apply starts_with_iff.
          etrans; [|exact Hp]. by eexists.
        - apply prefix_snoc_inv in Hp as [->|Hp].
          + assert (starts_with m (m ++ [x20]) = true); [|congruence]. apply starts_with_iff. by eexists.
          + apply starts_with_iff in Hp. congruence. }
      destruct (classify_h1 ms s) as [[]|].
      * destruct IH as (m' & ? & ?). exists m'. split; [by right|done].
      * done.
      * destruct IH as [(m' & ? & ?)|IH]; [left; exists m'; split; [by right|done]|right].
        intros m' [->|?]%elem_of_cons; auto.
      * destruct IH as (m' & ? & ?). exists m'. split; [by right|done].
Qed.

Lemma token_h1 m : m ∈ H1_METHODS → (m ++ bs " ", H1) ∈ tokens.
Proof. intros Hm. right. apply list_elem_of_fmap. by exists m. Qed.

Lemma token_cases t p : (t, p) ∈ tokens →
  (t = H2_PREFIX ∧ p = H2) ∨ ∃ m, m ∈ H1_METHODS ∧ t = m ++ bs " " ∧ p = H1.
Proof.
  intros [[= -> ->]|Hm]%elem_of_cons; [by left|right].
  apply list_elem_of_fmap in Hm as (m & [= -> ->] & ?). by exists m.
Qed.

Lemma classify_verdict s : verdict s (classify s).
Proof.
  destruct tokens_apart as [Ham Hap]. unfold classify.
  destruct (starts_with H2_PREFIX s) eqn:E1.
  { apply starts_with_iff in E1. exists H2_PREFIX. split; [by left|done]. }
  destruct (starts_with s H2_PREFIX) eqn:E2.
  { apply starts_with_iff in E2. exists H2_PREFIX, H2. split_and!; [by left|done|].
    intros ->. by vm_compute in E1. }
  assert (¬ comparable H2_PREFIX s) as Hh2.
  { intros [H|H]; apply starts_with_iff in H; congruence. }
  destruct (starts_with (bs "PRI ") s) eqn:E3.
  { apply starts_with_iff in E3. simpl. apply Forall_forall. intros [t p] Hin Hc. simpl in Hc.
    rewrite Forall_forall in Hap. specialize (Hap _ Hin). simpl in Hap.
    assert ((t, p) = (H2_PREFIX, H2)) as [= -> ->]; [|done].
    apply Hap. by eapply comparable_common. }
  pose proof (classify_h1_spec H1_METHODS s) as Hs.
  destruct (classify_h1 H1_METHODS s) as [[]|].
  - destruct Hs as (m & Hm & Hp). exists (m ++ bs " "). split; [by apply token_h1|done].
  - done.
  - simpl. apply Forall_forall. intros [t p] Hin Hc. simpl in Hc.
    apply token_cases in Hin as Ht. destruct Ht as [[-> ->]|(m & Hm & -> & ->)]; [done|].
    destruct Hs as [(m' & Hm' & Hp & Hn)|Hs]; [|by apply (Hs m)].
    rewrite Forall_forall in Ham. specialize (Ham m' Hm'). rewrite Forall_forall in Ham.
    specialize (Ham _ Hin). simpl in Ham. apply Hn.
    assert ((m ++ bs " ", H1) = (m' ++ bs " ", H1)) as [= Heq].
    { apply Ham. by eapply comparable_common. }
    rewrite <-Heq. done.
  - destruct Hs as (m & Hm & Hp & Hn). exists (m ++ bs " "), H1. split; [by apply token_h1|done].
Qed.

Lemma tokens_pairwise :
  Forall (λ t1 : bytes * Protocol, Forall (λ t2 : bytes * Protocol,
    comparable t1.1 t2.1 → t1 = t2) tokens) tokens.
Proof. apply (bool_decide_unpack (Forall _ tokens)). by vm_compute. Qed.

Lemma token_unique t1 p1 t2 p2 :
  (t1, p1) ∈ tokens → (t2, p2) ∈ tokens → comparable t1 t2 → t1 = t2 ∧ p1 = p2.
Proof.
  intros H1 H2 Hc. pose proof tokens_pairwise as Ht. rewrite Forall_forall in Ht.
  specialize (Ht _ H1). rewrite Forall_forall in Ht. by injection (Ht _ H2 Hc).
Qed.

Lemma verdict_complete s p :
  verdict s (Complete p) ↔
    (∃ t, (t, p) ∈ tokens ∧ t `prefix_of` s) ∨
    (p = Opaque ∧ Forall (λ t : bytes * Protocol, ¬ comparable t.1 s) tokens).
Proof.
  destruct p; simpl; (split; [intros H|intros [H|[? H]]]); auto; try done.
  exfalso. destruct H as (t & Hin & _). apply token_cases in Hin as [[_ ?]|(? & _ & _ & ?)]; done.
Qed.

(** A settled verdict does not change as more bytes arrive. *)
Lemma verdict_stable s p more : verdict s (Complete p) → verdict (s ++ more) (Complete p).
Proof.
  rewrite !verdict_complete. intros [(t & Hin & Hp)|[-> Hf]].
  - left. exists t. split; [done|]. by apply prefix_app_r.
  - right. split; [done|]. eapply Forall_impl; [exact Hf|]. intros [t p] Hn Hc. apply Hn.
    simpl in *. destruct Hc as [Hc|Hc].
    + destruct (prefix_weak_total t s (s ++ more)); [done|by eexists|by left|by right].
    + right. etrans; [|exact Hc]. by eexists.
Qed.

Lemma verdict_unique s d1 d2 : verdict s d1 → verdict s d2 → d1 = d2.
Proof.
  assert (∀ p, verdict s (Complete p) → verdict s Incomplete → False) as Hx.
  { intros p Hp%verdict_complete (t & p' & Hin & Ht & Hne). destruct Hp as [(t' & Hin' & Hp)|[_ Hf]].
    - destruct (token_unique t' p t p' Hin' Hin) as [-> _]; [left; by etrans|].
      apply Hne. by apply prefix_length_eq; [|apply prefix_length in Hp].
    - rewrite Forall_forall in Hf. apply (Hf _ Hin). by right. }
  destruct d1 as [p1|], d2 as [p2|]; intros H1 H2; try done.
  - f_equal. apply verdict_complete in H1 as [(t1 & Hin1 & Hp1)|[-> Hf1]];
      apply verdict_complete in H2 as [(t2 & Hin2 & Hp2)|[-> Hf2]].
    + apply (token_unique t1 p1 t2 p2); [done..|]. destruct (prefix_weak_total t1 t2 s); [done|done|by left|by right].
    + rewrite Forall_forall in Hf2. exfalso. apply (Hf2 _ Hin1). by left.
    + rewrite Forall_forall in Hf1. exfalso. apply (Hf1 _ Hin2). by left.
    + done.
  - by destruct (Hx p1).
  - by destruct (Hx p2).
Qed.

Lemma detect_spec buf evs :
  classify buf = Incomplete →
  match detect buf evs with
  | (Some (Ok (p, out)), rest) => ∃ cs, out = buf ++ concat cs ∧
      ((evs = map Chunk cs ++ rest ∧ classify out = Complete p) ∨
       (evs = map Chunk cs ++ Deadline :: rest ∧ p = Opaque ∧ classify out = Incomplete))
  | (Some (Err UnexpectedEof), rest) => ∃ cs, evs = map Chunk cs ++ Chunk [] :: rest ∧
      classify (buf ++ concat cs) = Incomplete
  | (Some (Err IoError), rest) => ∃ cs, evs = map Chunk cs ++ ReadFailed :: rest
  | (None, rest) => ∃ cs, evs = map Chunk cs ∧ classify (buf ++ concat cs) = Incomplete
  end.
Proof.
  revert buf. induction evs as [|[c| |] evs IH]; intros buf Hb; simpl.
  - exists []. by rewrite app_nil_r.
  - case_bool_decide as Hc.
    { subst. exists []. by rewrite app_nil_r. }
    destruct (classify (buf ++ c)) as [p|] eqn:Ec.
    { exists [c]. simpl. rewrite app_nil_r. split; [done|by left]. }
    specialize (IH _ Ec). destruct (detect (buf ++ c) evs) as [[[[p out]|[]]|] rest].
    + destruct IH as (cs & -> & [[-> ?]|(-> & ? & ?)]); exists (c :: cs); simpl;
        rewrite app_assoc; auto.
    + destruct IH as (cs & -> & H). exists (c :: cs). simpl. by rewrite app_assoc.
    + destruct IH as (cs & ->). by exists (c :: cs).
    + destruct IH as (cs & -> & H). exists (c :: cs). simpl. by rewrite app_assoc.
  - by exists [].
  - exists []. rewrite app_nil_r. split; [done|by right].
Qed.

Lemma read_all_spec polls s :
  (ps_pos s ≤ length (ps_prefix s))%nat →
  let '(out, ins, s') := read_all polls s in
  ps_prefix s' = ps_prefix s ∧ (ps_pos s ≤ ps_pos s' ≤ length (ps_prefix s))%nat ∧
  out = take (ps_pos s' - ps_pos s) (drop (ps_pos s) (ps_prefix s)) ++ ins ∧
  (ins ≠ [] → ps_pos s' = length (ps_prefix s)).
Proof.
  revert s. induction polls as [|[n inner] polls IH]; intros s Hs; simpl.
  { split_and!; try done. by rewrite Nat.sub_diag. }
  unfold poll_read. destruct (Nat.ltb_spec (ps_pos s) (length (ps_prefix s))) as [Hl|Hl].
  - set (k := Nat.min n _). set (s1 := {| ps_prefix := ps_prefix s; ps_pos := _ |}).
    specialize (IH s1). destruct (read_all polls s1) as [[out ins] s2]. simpl in *.
    destruct IH as (Hp & Hr & -> & Hi); [lia|]. split_and!; [done|lia|lia| |done].
    rewrite app_assoc. f_equal.
    assert (drop (ps_pos s + k) (ps_prefix s) = drop k (drop (ps_pos s) (ps_prefix s))) as ->
      by (by rewrite drop_drop).
    rewrite take_take_drop. f_equal. lia.
  - specialize (IH s Hs). destruct (read_all polls s) as [[out ins] s2].
    destruct IH as (Hp & Hr & -> & Hi). assert (ps_pos s2 = length (ps_prefix s)) by lia.
    split_and!; [done|lia|lia| |done].
    rewrite (drop_ge (ps_prefix s)), !take_nil by lia. done.
Qed.

(** * Theorems *)

(** Detection is exact and loses nothing.  However the stream is cut into
    reads, the probe settles on the first prefix that decides, with the verdict
    every longer prefix of the stream has (so the cutting cannot matter): HTTP/2
    for [PRI *], HTTP/1 for a method and a space, opaque once neither can follow;
    the deadline yields opaque and end of stream an error only while undecided.
    The prefix returned is every byte read, and re-injected it comes out first,
    whole and once, ahead of the live socket, under any sequence of reads. *)
Theorem detect_exact (evs : list ReadEvent) :
  match detect [] evs with
  | (Some (Ok (p, prefix)), rest) => ∃ cs, prefix = concat cs ∧
      ((evs = map Chunk cs ++ rest ∧
        ∀ more d, verdict (prefix ++ more) d ↔ d = Complete p) ∨
       (evs = map Chunk cs ++ Deadline :: rest ∧ p = Opaque ∧ verdict prefix Incomplete)) ∧
      ∀ polls, let '(out, ins, s) := read_all polls (prefixed prefix) in
        out = take (ps_pos s) prefix ++ ins ∧ (ins ≠ [] → ps_pos s = length prefix)
  | (Some (Err UnexpectedEof), rest) => ∃ cs, evs = map Chunk cs ++ Chunk [] :: rest ∧
      verdict (concat cs) Incomplete
  | (Some (Err IoError), rest) => ∃ cs, evs = map Chunk cs ++ ReadFailed :: rest
  | (None, _) => ∃ cs, evs = map Chunk cs ∧ verdict (concat cs) Incomplete
  end.
Proof.
  pose proof (detect_spec [] evs eq_refl) as Hs.
  destruct (detect [] evs) as [[[[p prefix]|[]]|] rest].
  - destruct Hs as (cs & Hp & Hc). exists cs. split_and!; [done| |].
    + destruct Hc as [[-> Hc]|(-> & -> & Hc)]; [left|right].
      * split; [done|]. pose proof (classify_verdict prefix) as Hv. rewrite Hc in Hv.
        intros more d. apply (verdict_stable _ _ more) in Hv. split; [|by intros ->].
        intros Hd. by apply (verdict_unique (prefix ++ more)).
      * split_and!; [done|done|]. rewrite <-Hc. apply classify_verdict.
    + intros polls. pose proof (read_all_spec polls (prefixed prefix)) as Hr.
      destruct (read_all polls (prefixed prefix)) as [[out ins] s].
      destruct Hr as (_ & _ & -> & Hi); [simpl; lia|]. simpl. by rewrite Nat.sub_0_r, drop_0.
  - destruct Hs as (cs & -> & Hc). exists cs. split; [done|]. rewrite <-Hc. apply classify_verdict.
  - done.
  - destruct Hs as (cs & -> & Hc). exists cs. split; [done|]. rewrite <-Hc. apply classify_verdict.
Qed.

(** What may happen to a connection aimed at [orig]. *)
Definition permitted (cfg : ListenerConfig) (mode : EgressMode) (gateway : option SocketAddr)
    (own_ports : list Z) (orig : option SocketAddr) (evs : list ReadEvent) (d : Disposition) : Prop :=
  match di_action d with
  | Close => True
  | Serve m prefix => ls_role cfg ≠ Outbound ∧
      match orig with
      | None => prefix = [] ∧ m = proto_mode (ls_http1_only cfg)
      | Some dst => is_loopback dst own_ports = false ∧ ∃ p, (detect [] evs).1 = Some (Ok (p, prefix)) ∧
          route_http p = ServeHttp m
      end
  | TunnelTo a prefix => ∃ dst, orig = Some dst ∧ is_loopback dst own_ports = false ∧
      ((ls_role cfg ≠ Outbound ∧ a = dst ∧ (detect [] evs).1 = Some (Ok (Opaque, prefix))) ∨
       (ls_role cfg = Outbound ∧ mode = Direct ∧ a = dst ∧ prefix = []) ∨
       (ls_role cfg = Outbound ∧ mode = Gateway ∧ gateway = Some a ∧ port dst ≠ 443 ∧
        ∃ p, p ≠ Opaque ∧ (detect [] evs).1 = Some (Ok (p, prefix))))
  end.

(** C21. The interception policy, closed by default.  The handler never panics;
    a connection aimed at one of the gateway's own ports is always closed; an
    outbound connection is never served, is dialed directly only in [direct]
    mode, reaches only the configured gateway in [gateway] mode (and only as
    plaintext HTTP to a port other than 443) and nothing in [deny] mode, whatever
    the gateway's state; inbound streams are served when HTTP and tunneled to
    their own destination when opaque, always with the sniffed bytes first; and
    a connection is counted once, or not at all when its probe fails. *)
Theorem interception_policy (cfg : ListenerConfig) (mode : EgressMode) (gateway : option SocketAddr)
    (own_ports : list Z) (orig : option SocketAddr) (connected : bool) (evs : list ReadEvent) :
  ∃ r, handle_conn cfg mode gateway own_ports orig connected evs = Ret r ∧
    match r with
    | None => (detect [] evs).1 = None
    | Some d => permitted cfg mode gateway own_ports orig evs d ∧
        (length (di_outcomes d) = 1%nat ∨
         (di_outcomes d = [] ∧ di_action d = Close ∧ ∃ e, (detect [] evs).1 = Some (Err e))) ∧
        (connected = false → mode = Gateway → ls_role cfg = Outbound → di_action d = Close)
    end.
Proof.
  unfold handle_conn, route_pre. destruct orig as [dst|].
  - destruct (is_loopback dst own_ports) eqn:El.
    { eexists. split; [done|]. split_and!; [done|by left|done]. }
    case_bool_decide as Hr.
    + unfold run_outbound, route_egress. destruct mode.
      * eexists. split; [done|]. split_and!; [|by left|done]. exists dst. split_and!; [done|done|].
        right. by left.
      * destruct (detect [] evs).1 as [[[p prefix]|e]|] eqn:Ed; cycle 1.
        { eexists. split; [done|]. split_and!; [done|right; split_and!; [done|done|by exists e]|done]. }
        { by eexists. }
        destruct p; [destruct (port dst =? 443) eqn:E443..|];
          try (eexists; (split; [done|]); by split_and!; [|left|]).
        all: reflect_bool; unfold forward_to_gateway; destruct gateway as [gw|], connected;
          (eexists; (split; [done|])); (split_and!; [|by left|done]); try done.
        all: exists dst; (split_and!; [done|done|]); right; right;
          (split_and!; [done|done|done|done|]); (eexists; split; [|exact Ed]; done).
      * eexists. split; [done|]. split_and!; [done|by left|done].
    + destruct (detect [] evs).1 as [[[p prefix]|e]|] eqn:Ed; cycle 1.
      { eexists. split; [done|]. split_and!; [done|right; split_and!; [done|done|by exists e]|done]. }
      { by eexists. }
      eexists. split; [done|]. destruct p; simpl; (split_and!; [|by left|done]).
      * split; [done|]. split; [done|]. by exists H1.
      * split; [done|]. split; [done|]. by exists H2.
      * exists dst. split_and!; [done|done|]. by left.
  - case_bool_decide as Hr; (eexists; split; [done|]); split_and!; try done; by left.
Qed.

(** An HTTP/1 request split mid-method is still recognised, and nothing is lost. *)
Lemma detect_split_request :
  detect [] [Chunk (bs "DEL"); Chunk (bs "ETE /x HT"); Chunk (bs "TP")] =
    (Some (Ok (H1, bs "DELETE /x HT")), [Chunk (bs "TP")]).
Proof. reflexivity. Qed.
