(* ===== verification/Snapshot.v ===== *)
(** Watch snapshots: the metadata of the watched objects, watch events and the
    snapshot they are folded into ([openrusty-k8s/src/model/mod.rs],
    [snapshot.rs]). *)

From S2P Require Import Prelude Text.
From Stdlib Require Import ZArith Lia.
From stdpp Require Import options.

(** * Objects and events *)

Record ObjectMeta := {
  om_name : bytes;
  om_namespace : bytes;
  om_resource_version : bytes;
  om_annotations : gmap bytes bytes;
}.

(** The trait [ResourceMeta]. *)
Class ResourceMeta (T : Type) := {
  rm_namespace : T → bytes;
  rm_name : T → bytes;
  rm_resource_version : T → bytes;
}.

Inductive EventType := Added | Modified | Deleted | Bookmark | EventError.

#[global] Instance event_type_eq_dec : EqDecision EventType.
Proof. solve_decision. Defined.

Record WatchEvent (T : Type) := { we_type : EventType; we_object : T }.
Arguments we_type {T} _.
Arguments we_object {T} _.
Arguments Build_WatchEvent {T} _ _.

(** * Snapshots *)

Abbreviation ObjKey := (bytes * bytes)%type.

Record Snapshot (T : Type) := { sn_items : gmap ObjKey T; sn_resource_version : bytes }.
Arguments sn_items {T} _.
Arguments sn_resource_version {T} _.
Arguments Build_Snapshot {T} _ _.

Definition snapshot_new {T} : Snapshot T := {| sn_items := ∅; sn_resource_version := [] |}.

Definition snapshot_get {T} (namespace name : bytes) (s : Snapshot T) : option T :=
  sn_items s !! (namespace, name).

(** The order of a [BTreeMap] keyed by pairs of strings. *)
Definition key_leb (a b : ObjKey) : bool :=
  if bool_decide (a.1 = b.1) then bytes_leb a.2 b.2 else bytes_leb a.1 b.1.

Definition snapshot_iter {T} (s : Snapshot T) : list (ObjKey * T) :=
  sort_by (λ a b, key_leb a.1 b.1) (map_to_list (sn_items s)).

Definition snapshot_len {T} (s : Snapshot T) : nat := size (sn_items s).

Section snapshots.
Context {T : Type} `{ResourceMeta T}.

Definition object_key (o : T) : ObjKey := (rm_namespace o, rm_name o).

(** The closure [advance]. *)
Definition advance (e : WatchEvent T) (s : Snapshot T) : Snapshot T :=
  let rv := rm_resource_version (we_object e) in
  if bool_decide (rv = []) then s else {| sn_items := sn_items s; sn_resource_version := rv |}.

Definition apply_event (s : Snapshot T) (e : WatchEvent T) : Snapshot T :=
  match we_type e with
  | Added | Modified =>
      let next := advance e s in
      {| sn_items := <[object_key (we_object e) := we_object e]> (sn_items next);
         sn_resource_version := sn_resource_version next |}
  | Deleted =>
      let next := advance e s in
      {| sn_items := delete (object_key (we_object e)) (sn_items next);
         sn_resource_version := sn_resource_version next |}
  | Bookmark => advance e s
  | EventError => s
  end.

Definition replace_from_list (items : list T) (resource_version : bytes) : Snapshot T := {|
  sn_items := foldl (λ m o, <[object_key o := o]> m) ∅ items;
  sn_resource_version := resource_version;
|}.

(** * What a history leaves *)

(** The events that decide about an object. *)
Definition touches (k : ObjKey) (e : WatchEvent T) : Prop :=
  object_key (we_object e) = k ∧ we_type e ∈ [Added; Modified; Deleted].

#[global] Instance touches_dec k e : Decision (touches k e).
Proof. unfold touches. apply _. Defined.

(** The last word of a history about an object. *)
Definition outcome (e : WatchEvent T) : option T :=
  if bool_decide (we_type e = Deleted) then None else Some (we_object e).

Definition object_after (items : list T) (evs : list (WatchEvent T)) (k : ObjKey) : option T :=
  match last (filter (touches k) evs) with
  | Some e => outcome e
  | None => last (filter (λ o, object_key o = k) items)
  end.

Definition versioned (e : WatchEvent T) : Prop :=
  we_type e ≠ EventError ∧ rm_resource_version (we_object e) ≠ [].

#[global] Instance versioned_dec e : Decision (versioned e).
Proof. unfold versioned. apply _. Defined.

Definition version_after (rv : bytes) (evs : list (WatchEvent T)) : bytes :=
  from_option (λ e, rm_resource_version (we_object e)) rv (last (filter versioned evs)).

Lemma replace_from_list_lookup items rv k :
  sn_items (replace_from_list items rv) !! k = last (filter (λ o, object_key o = k) items).
Proof.
  simpl. induction items as [|o items IH] using rev_ind; [apply lookup_empty|].
  rewrite foldl_app, filter_app. simpl. rewrite filter_cons, filter_nil.
  destruct (decide (object_key o = k)) as [<-|Hk].
  - by rewrite lookup_insert_eq, last_snoc.
  - by rewrite lookup_insert_ne, app_nil_r.
Qed.

Lemma apply_event_lookup s e k :
  sn_items (apply_event s e) !! k =
    if decide (touches k e) then outcome e else sn_items s !! k.
Proof.
  assert (sn_items (advance e s) = sn_items s) as Ha by (unfold advance; by case_bool_decide).
  unfold apply_event, outcome. destruct (decide (touches k e)) as [[<- Ht]|Hd].
  - destruct (we_type e); simpl; rewrite ?Ha, ?lookup_insert_eq, ?lookup_delete_eq; try done; set_solver.
  - assert (we_type e ∈ [Added; Modified; Deleted] → object_key (we_object e) ≠ k) as Hk.
    { intros ? ?. by apply Hd. }
    destruct (we_type e); simpl; rewrite ?Ha, ?lookup_insert_ne, ?lookup_delete_ne; try done;
      apply Hk; set_solver.
Qed.

Lemma apply_event_version s e :
  sn_resource_version (apply_event s e) =
    if decide (versioned e) then rm_resource_version (we_object e) else sn_resource_version s.
Proof.
  unfold apply_event, advance. destruct (decide (versioned e)) as [[Ht Hv]|Hd].
  - rewrite bool_decide_false by done. by destruct (we_type e).
  - destruct (we_type e) eqn:Et; [..|done]; simpl; case_bool_decide as Hv; try done;
      destruct Hd; (split; [by rewrite Et|done]).
Qed.

(** Iteration is in key order and yields exactly the objects held. *)
Lemma object_order_total a b : key_leb a b = true ∨ key_leb b a = true.
Proof.
  unfold key_leb. repeat case_bool_decide; try congruence; apply bytes_leb_total.
Qed.

Lemma snapshot_iter_elem (s : Snapshot T) k o :
  (k, o) ∈ snapshot_iter s ↔ sn_items s !! k = Some o.
Proof.
  unfold snapshot_iter. rewrite sort_by_perm. apply elem_of_map_to_list.
Qed.

Lemma snapshot_iter_nodup (s : Snapshot T) : NoDup (snapshot_iter s).*1.
Proof.
  unfold snapshot_iter. rewrite sort_by_perm. apply NoDup_fst_map_to_list.
Qed.

Lemma snapshot_iter_sorted (s : Snapshot T) :
  Sorted (λ a b, key_leb a.1 b.1 = true) (snapshot_iter s).
Proof. apply sort_by_sorted. intros. apply object_order_total. Qed.

(** A snapshot is the history it was folded from.  After a re-list and any
    sequence of watch events, every object is the last one a listing, ADDED or
    MODIFIED named, unless a later DELETED removed it; the version is that of the
    last event that carries one; BOOKMARK and ERROR change no object; nothing
    from before the re-list survives; and iteration yields exactly these
    objects, once each, in (namespace, name) order. *)
Theorem snapshot_fold_exact (items : list T) (rv : bytes) (evs : list (WatchEvent T)) :
  let s := foldl apply_event (replace_from_list items rv) evs in
  (∀ ns name, snapshot_get ns name s = object_after items evs (ns, name)) ∧
  sn_resource_version s = version_after rv evs ∧
  NoDup (snapshot_iter s).*1 ∧
  Sorted (λ a b, key_leb a.1 b.1 = true) (snapshot_iter s) ∧
  (∀ k o, (k, o) ∈ snapshot_iter s ↔ object_after items evs k = Some o) ∧
  snapshot_len s = length (snapshot_iter s).
Proof.
  assert (∀ k, sn_items (foldl apply_event (replace_from_list items rv) evs) !! k =
    object_after items evs k) as Hl.
  { intros k. unfold object_after. induction evs as [|e evs IH] using rev_ind.
    { apply replace_from_list_lookup. }
    rewrite foldl_app, filter_app. simpl. rewrite apply_event_lookup, IH, filter_cons, filter_nil.
    case_decide; [by rewrite last_snoc|by rewrite app_nil_r]. }
  intros s. split_and!; [intros; apply Hl| |apply snapshot_iter_nodup|apply snapshot_iter_sorted| |].
  - unfold s, version_after. clear. induction evs as [|e evs IH] using rev_ind; [done|].
    rewrite foldl_app, filter_app. simpl. rewrite apply_event_version, IH, filter_cons, filter_nil.
    case_decide; [by rewrite last_snoc|by rewrite app_nil_r].
  - intros k o. by rewrite snapshot_iter_elem, Hl.
  - unfold snapshot_len, snapshot_iter. by rewrite sort_by_perm, length_map_to_list.
Qed.

End snapshots.

(** * Concrete objects *)

Record Probe := { pr_name : bytes; pr_version : bytes }.

#[export] Instance probe_meta : ResourceMeta Probe := {
  rm_namespace _ := bs "default";
  rm_name := pr_name;
  rm_resource_version := pr_version;
}.

Definition ex_probe (name rv : string) : Probe := {| pr_name := bs name; pr_version := bs rv |}.
