(* ===== verification/Watch.v ===== *)
(** The watch loop: list, watch, fold, debounce, hand over
    ([openrusty-k8s/src/watch.rs]).

    The loop is a machine over what it waits for: the answers of the API server,
    the chunks of the watch stream, and its two timers.  Times are milliseconds.
    JSON decoding is a parameter. *)

From S2P Require Import Prelude Text Snapshot.
From Stdlib Require Import ZArith Lia.
From stdpp Require Import options.
Local Open Scope Z_scope.

Definition BACKOFF_BASE : Z := 100.
Definition BACKOFF_CAP : Z := 30000.
Definition DEFAULT_DEBOUNCE : Z := 200.
Definition DEFAULT_RESYNC : Z := 30000.

Record WatchOptions := {
  wo_debounce : Z;
  wo_ingress_class : bytes;
  wo_resync : option Z;
}.

Definition watch_options (ingress_class : bytes) : WatchOptions := {|
  wo_debounce := DEFAULT_DEBOUNCE;
  wo_ingress_class := ingress_class;
  wo_resync := Some DEFAULT_RESYNC;
|}.

Record WatchStats := {
  ws_generation : Z;
  ws_lists : Z;
  ws_reconnects : Z;
  ws_last_success : option Z;
  ws_last_rv : bytes;
}.

Definition default_stats : WatchStats := {|
  ws_generation := 0; ws_lists := 0; ws_reconnects := 0; ws_last_success := None; ws_last_rv := [];
|}.

(** Saturation of the doubling is far above the cap. *)
Definition grow_backoff (d : Z) : Z := Z.min (d * 2) BACKOFF_CAP.

(** * Framing *)

Definition trim_cr (s : bytes) : bytes := trim_front (length s) [[x0d]] (reverse s).

(** [trim_end_matches('\r')]. *)
Definition trim_end_cr (s : bytes) : bytes := reverse (trim_cr s).

(** [take_lines]: the complete lines and what stays buffered; [fuel] is the
    number of newlines at most, which the length bounds. *)
Fixpoint take_lines_from (fuel : nat) (buf : bytes) : result () (list bytes * bytes) :=
  match fuel with
  | O => Ok ([], buf)
  | S fuel =>
      match split_once x0a buf with
      | None => Ok ([], buf)
      | Some (raw, buf) =>
          if valid_utf8 raw then
            '(lines, rest) ← take_lines_from fuel buf; Ok (trim_end_cr raw :: lines, rest)
          else Err ()
      end
  end.

Definition take_lines (buf : bytes) : result () (list bytes * bytes) :=
  take_lines_from (length buf) buf.

Section watch_loop.
Context {T : Type} `{ResourceMeta T}.

(** [serde_json::from_str]. *)
Context (json : bytes → option (WatchEvent T)).
Context (opts : WatchOptions).

Definition parse_line (line : bytes) : option (WatchEvent T) := json (trim line).

(** * The machine *)

(** Where the loop waits: for a listing, for the watch to open, or in
    [select!]. *)
Inductive WatchPhase := Listing | Opening | Watching.

Record Loop := {
  lp_phase : WatchPhase;
  lp_wake : Z;                  (* end of the backoff sleep before going on *)
  lp_backoff : Z;
  lp_stats : WatchStats;
  lp_snap : Snapshot T;
  lp_restart_rv : option bytes;
  lp_dirty : bool;
  lp_deadline : option Z;
  lp_resync_at : option Z;
  lp_buf : bytes;
  lp_handed : list (Snapshot T * WatchStats);   (* calls of [on_snapshot] *)
}.

Definition loop_init : Loop := {|
  lp_phase := Listing; lp_wake := 0; lp_backoff := BACKOFF_BASE; lp_stats := default_stats;
  lp_snap := snapshot_new; lp_restart_rv := None; lp_dirty := false; lp_deadline := None;
  lp_resync_at := None; lp_buf := []; lp_handed := [];
|}.

Inductive Input :=
| ListFailed                                   (* request, status or body *)
| Listed (items : list T) (rv : bytes)
| OpenFailed                                   (* 410, another status, or an error *)
| Opened
| Data (chunk : bytes)                         (* one body frame *)
| StreamOver                                   (* error or end of the stream *)
| DebounceTick
| ResyncTick.

(** [sleep(backoff); backoff = grow_backoff(backoff)], then [phase]. *)
Definition back_off (now : Z) (s : Loop) : Loop := {|
  lp_phase := Listing; lp_wake := now + lp_backoff s; lp_backoff := grow_backoff (lp_backoff s);
  lp_stats := lp_stats s; lp_snap := lp_snap s; lp_restart_rv := lp_restart_rv s;
  lp_dirty := lp_dirty s; lp_deadline := lp_deadline s; lp_resync_at := lp_resync_at s;
  lp_buf := lp_buf s; lp_handed := lp_handed s;
|}.

(** A stream that must be replaced: count, sleep, list again. *)
Definition reconnect (now : Z) (s : Loop) : Loop :=
  let st := lp_stats s in
  back_off now {|
    lp_phase := lp_phase s; lp_wake := lp_wake s; lp_backoff := lp_backoff s;
    lp_stats := {|
      ws_generation := ws_generation st; ws_lists := ws_lists st;
      ws_reconnects := wrap 64 (ws_reconnects st + 1);
      ws_last_success := ws_last_success st; ws_last_rv := ws_last_rv st |};
    lp_snap := lp_snap s; lp_restart_rv := lp_restart_rv s; lp_dirty := lp_dirty s;
    lp_deadline := lp_deadline s; lp_resync_at := lp_resync_at s; lp_buf := lp_buf s;
    lp_handed := lp_handed s;
  |}.

(** A successful LIST. *)
Definition on_listed (now : Z) (items : list T) (rv : bytes) (s : Loop) : Loop :=
  let st := lp_stats s in
  let snap := replace_from_list items rv in
  {| lp_phase := Opening; lp_wake := lp_wake s; lp_backoff := BACKOFF_BASE;
     lp_stats := {|
       ws_generation := ws_generation st; ws_lists := wrap 64 (ws_lists st + 1);
       ws_reconnects := ws_reconnects st; ws_last_success := Some now;
       ws_last_rv := sn_resource_version snap |};
     lp_snap := snap;
     lp_restart_rv := None;
     lp_dirty := match lp_restart_rv s with
                 | None => true
                 | Some rv => negb (bool_decide (sn_resource_version snap = rv))
                 end;
     lp_deadline := Some (now + wo_debounce opts);
     lp_resync_at := Z.add now <$> wo_resync opts;
     lp_buf := [];
     lp_handed := lp_handed s |}.

Definition set_phase (p : WatchPhase) (s : Loop) : Loop := {|
  lp_phase := p; lp_wake := lp_wake s; lp_backoff := lp_backoff s; lp_stats := lp_stats s;
  lp_snap := lp_snap s; lp_restart_rv := lp_restart_rv s; lp_dirty := lp_dirty s;
  lp_deadline := lp_deadline s; lp_resync_at := lp_resync_at s; lp_buf := lp_buf s;
  lp_handed := lp_handed s;
|}.

Definition set_buf (buf : bytes) (s : Loop) : Loop := {|
  lp_phase := lp_phase s; lp_wake := lp_wake s; lp_backoff := lp_backoff s; lp_stats := lp_stats s;
  lp_snap := lp_snap s; lp_restart_rv := lp_restart_rv s; lp_dirty := lp_dirty s;
  lp_deadline := lp_deadline s; lp_resync_at := lp_resync_at s; lp_buf := buf;
  lp_handed := lp_handed s;
|}.

(** [apply_line]; [false]: the stream must be dropped. *)
Definition apply_line (now : Z) (line : bytes) (s : Loop) : bool * Loop :=
  match parse_line line with
  | None => (false, s)
  | Some event =>
      if bool_decide (we_type event = EventError) then (false, s)
      else
        let change := negb (bool_decide (we_type event = Bookmark)) in
        (true, {|
          lp_phase := lp_phase s; lp_wake := lp_wake s; lp_backoff := lp_backoff s;
          lp_stats := lp_stats s; lp_snap := apply_event (lp_snap s) event;
          lp_restart_rv := lp_restart_rv s;
          lp_dirty := change || lp_dirty s;
          lp_deadline :=
            if change then Some (default (now + wo_debounce opts) (lp_deadline s)) else lp_deadline s;
          lp_resync_at := lp_resync_at s; lp_buf := lp_buf s; lp_handed := lp_handed s |})
  end.

Fixpoint apply_lines (now : Z) (lines : list bytes) (s : Loop) : bool * Loop :=
  match lines with
  | [] => (true, s)
  | line :: lines =>
      let '(ok, s) := apply_line now line s in
      if ok then apply_lines now lines s else (false, s)
  end.

Definition on_data (now : Z) (chunk : bytes) (s : Loop) : Loop :=
  match take_lines (lp_buf s ++ chunk) with
  | Err _ => reconnect now s
  | Ok (lines, rest) =>
      let '(ok, s) := apply_lines now lines (set_buf rest s) in
      if ok then s else reconnect now s
  end.

(** The debounce window closes. *)
Definition on_debounce (s : Loop) : Loop :=
  let st := lp_stats s in
  let stats := if lp_dirty s then {|
      ws_generation := wrap 64 (ws_generation st + 1); ws_lists := ws_lists st;
      ws_reconnects := ws_reconnects st; ws_last_success := ws_last_success st;
      ws_last_rv := sn_resource_version (lp_snap s) |} else st in
  {| lp_phase := lp_phase s; lp_wake := lp_wake s; lp_backoff := lp_backoff s;
     lp_stats := stats; lp_snap := lp_snap s; lp_restart_rv := lp_restart_rv s;
     lp_dirty := false; lp_deadline := None; lp_resync_at := lp_resync_at s;
     lp_buf := lp_buf s;
     lp_handed := lp_handed s ++ (if lp_dirty s then [(lp_snap s, stats)] else []) |}.

Definition on_resync (s : Loop) : Loop := {|
  lp_phase := Listing; lp_wake := lp_wake s; lp_backoff := lp_backoff s; lp_stats := lp_stats s;
  lp_snap := lp_snap s; lp_restart_rv := Some (sn_resource_version (lp_snap s));
  lp_dirty := lp_dirty s; lp_deadline := lp_deadline s; lp_resync_at := lp_resync_at s;
  lp_buf := lp_buf s; lp_handed := lp_handed s;
|}.

Definition due (now : Z) (t : option Z) : bool :=
  match t with Some t => t <=? now | None => false end.

(** One step of [watch_loop]; [None]: the loop does not wait for that. *)
Definition loop_step (now : Z) (i : Input) (s : Loop) : option Loop :=
  if now <? lp_wake s then None
  else match lp_phase s, i with
  | Listing, ListFailed => Some (back_off now s)
  | Listing, Listed items rv => Some (on_listed now items rv s)
  | Opening, OpenFailed => Some (reconnect now s)
  | Opening, Opened => Some (set_phase Watching s)
  | Watching, Data chunk => Some (on_data now chunk s)
  | Watching, StreamOver => Some (reconnect now s)
  | Watching, DebounceTick => if due now (lp_deadline s) then Some (on_debounce s) else None
  | Watching, ResyncTick => if due now (lp_resync_at s) then Some (on_resync s) else None
  | _, _ => None
  end.

Fixpoint loop_run (ins : list (Z * Input)) (s : Loop) : option Loop :=
  match ins with
  | [] => Some s
  | (now, i) :: ins => loop_step now i s ≫= loop_run ins
  end.

(** * Framing does not depend on the chunks *)

(** Declaratively: everything before the last newline, and what follows it. *)
Definition complete_lines (s : bytes) : list bytes :=
  take (pred (length (split_on x0a s))) (split_on x0a s).
Definition partial_line (s : bytes) : bytes := default [] (last (split_on x0a s)).

Lemma split_lines_eq s ls p :
  split_on x0a s = ls ++ [p] → complete_lines s = ls ∧ partial_line s = p.
Proof.
  unfold complete_lines, partial_line. intros ->. rewrite length_app, last_snoc. simpl.
  rewrite Nat.add_1_r. simpl. by rewrite take_app_length.
Qed.

Lemma split_lines s : split_on x0a s = complete_lines s ++ [partial_line s].
Proof.
  pose proof (split_on_nonempty x0a s) as Hn.
  destruct (split_on x0a s) as [|p ls _] eqn:E using rev_ind; [done|].
  by destruct (split_lines_eq s ls p E) as [-> ->].
Qed.

Lemma split_on_app a b :
  split_on x0a (a ++ b) = complete_lines a ++ split_on x0a (partial_line a ++ b).
Proof.
  induction a as [|x a IH]; [done|].
  pose proof (split_lines a) as Ha. simpl. case_bool_decide as Hx.
  - subst. destruct (split_lines_eq (x0a :: a) ([] :: complete_lines a) (partial_line a)) as [-> ->].
    { simpl. by rewrite Ha. }
    by rewrite IH.
  - destruct (complete_lines a) as [|c C] eqn:Ec.
    + destruct (split_lines_eq (x :: a) [] (x :: partial_line a)) as [-> ->].
      { simpl. rewrite bool_decide_false, Ha by done. done. }
      rewrite IH. simpl. by rewrite bool_decide_false.
    + destruct (split_lines_eq (x :: a) ((x :: c) :: C) (partial_line a)) as [-> ->].
      { simpl. rewrite bool_decide_false, Ha by done. done. }
      by rewrite IH.
Qed.

Lemma lines_app a b :
  complete_lines (a ++ b) = complete_lines a ++ complete_lines (partial_line a ++ b) ∧
  partial_line (a ++ b) = partial_line (partial_line a ++ b).
Proof. apply split_lines_eq. by rewrite split_on_app, split_lines, app_assoc. Qed.

Lemma take_lines_from_spec fuel s :
  (length s ≤ fuel)%nat →
  take_lines_from fuel s =
    if forallb valid_utf8 (complete_lines s) then Ok (map trim_end_cr (complete_lines s), partial_line s)
    else Err ().
Proof.
  revert s. induction fuel as [|fuel IH]; intros s Hf.
  { destruct s; [done|simpl in Hf; lia]. }
  simpl. destruct (split_once x0a s) as [[raw rest]|] eqn:E.
  - apply split_once_Some in E as [-> Hn]. rewrite length_app in Hf. simpl in Hf.
    destruct (split_lines_eq (raw ++ x0a :: rest) (raw :: complete_lines rest) (partial_line rest))
      as [-> ->].
    { clear Hf. induction raw as [|b raw IHr]; simpl.
      - by rewrite split_lines.
      - apply not_elem_of_cons in Hn as [Hb Hn]. rewrite bool_decide_false by done.
        by rewrite IHr. }
    simpl. destruct (valid_utf8 raw); [|done]. rewrite IH by lia. simpl.
    by destruct (forallb valid_utf8 (complete_lines rest)).
  - apply split_once_None in E. destruct (split_lines_eq s [] s) as [-> ->]; [|done].
    clear Hf. induction s as [|b s IHs]; [done|]. apply not_elem_of_cons in E as [Hb E]. simpl.
    rewrite bool_decide_false by done. by rewrite IHs.
Qed.

Lemma take_lines_spec s :
  take_lines s =
    if forallb valid_utf8 (complete_lines s) then Ok (map trim_end_cr (complete_lines s), partial_line s)
    else Err ().
Proof. by apply take_lines_from_spec. Qed.

(** * What the loop has seen *)

(** The listing in force and the bytes of the stream opened on it. *)
Definition received (ins : list (Z * Input)) : option (list T * bytes) * bytes :=
  foldl (λ acc x, match x.2 with
                  | Listed items rv => (Some (items, rv), [])
                  | Data chunk => (acc.1, acc.2 ++ chunk)
                  | _ => acc
                  end) (None, []) ins.

(** The events of a stream: its complete lines, all well formed, none an
    ERROR. *)
Definition decoded (stream : bytes) (evs : list (WatchEvent T)) : Prop :=
  Forall2 (λ raw e, valid_utf8 raw = true ∧ parse_line (trim_end_cr raw) = Some e ∧
                    we_type e ≠ EventError) (complete_lines stream) evs.

(** [sn] is the listing in force after [ins] and every event since. *)
Definition current (ins : list (Z * Input)) (sn : Snapshot T) : Prop :=
  ∃ items rv stream evs, received ins = (Some (items, rv), stream) ∧ decoded stream evs ∧
    sn = foldl apply_event (replace_from_list items rv) evs.

Lemma received_snoc ins now i :
  received (ins ++ [(now, i)]) =
    match i with
    | Listed items rv => (Some (items, rv), [])
    | Data chunk => ((received ins).1, (received ins).2 ++ chunk)
    | _ => received ins
    end.
Proof. unfold received. by rewrite foldl_app. Qed.

Lemma loop_run_snoc ins now i s :
  loop_run (ins ++ [(now, i)]) s = loop_run ins s ≫= loop_step now i.
Proof.
  revert s. induction ins as [|[n j] ins IH]; intros s; simpl.
  { destruct (loop_step now i s); done. }
  destruct (loop_step n j s); simpl; [apply IH|done].
Qed.

(** A batch of lines changes the snapshot, the dirty flag and the window only. *)
Lemma apply_lines_ok now lines s s' :
  apply_lines now lines s = (true, s') →
  ∃ evs, Forall2 (λ l e, parse_line l = Some e ∧ we_type e ≠ EventError) lines evs ∧
    lp_snap s' = foldl apply_event (lp_snap s) evs ∧
    lp_dirty s' = existsb (λ e, negb (bool_decide (we_type e = Bookmark))) evs || lp_dirty s.
Proof.
  revert s. induction lines as [|l lines IH]; intros s; simpl.
  { intros [= <-]. by exists []. }
  unfold apply_line at 1. destruct (parse_line l) as [e|] eqn:Ep; [|done].
  case_bool_decide as Hee; [done|]. intros (evs & Hf & Hs & Hd)%IH. exists (e :: evs).
  split_and!; [by constructor|done|]. rewrite Hd. simpl.
  by destruct (existsb _ evs), (bool_decide (we_type e = Bookmark)), (lp_dirty s).
Qed.

(** What no line touches. *)
Lemma apply_lines_frame now lines s :
  let s' := (apply_lines now lines s).2 in
  lp_phase s' = lp_phase s ∧ lp_wake s' = lp_wake s ∧ lp_backoff s' = lp_backoff s ∧
  lp_stats s' = lp_stats s ∧ lp_restart_rv s' = lp_restart_rv s ∧ lp_buf s' = lp_buf s ∧
  lp_handed s' = lp_handed s ∧
  (is_Some (lp_deadline s) → is_Some (lp_deadline s')) ∧
  (lp_dirty s' = true → lp_dirty s = true ∨ is_Some (lp_deadline s')) ∧
  (lp_dirty s' = false → lp_dirty s = false ∧ sn_items (lp_snap s') = sn_items (lp_snap s)).
Proof.
  revert s. induction lines as [|l lines IH]; intros s.
  { simpl. split_and!; auto. }
  simpl. destruct (apply_line now l s) as [ok s1] eqn:E1.
  assert (lp_phase s1 = lp_phase s ∧ lp_wake s1 = lp_wake s ∧ lp_backoff s1 = lp_backoff s ∧
    lp_stats s1 = lp_stats s ∧ lp_restart_rv s1 = lp_restart_rv s ∧ lp_buf s1 = lp_buf s ∧
    lp_handed s1 = lp_handed s ∧ (is_Some (lp_deadline s) → is_Some (lp_deadline s1)) ∧
    (lp_dirty s1 = true → lp_dirty s = true ∨ is_Some (lp_deadline s1)) ∧
    (lp_dirty s1 = false → lp_dirty s = false ∧ sn_items (lp_snap s1) = sn_items (lp_snap s)))
    as (P1 & P2 & P3 & P4 & P5 & P6 & P7 & P8 & P9 & P10).
  { unfold apply_line in E1. destruct (parse_line l) as [e|]; [|by injection E1 as <- <-; auto 20].
    case_bool_decide; [by injection E1 as <- <-; auto 20|]. injection E1 as <- <-. simpl.
    case_bool_decide as Hb; simpl; split_and!; auto; try done.
    intros ->. split; [done|]. unfold apply_event. rewrite Hb. unfold advance. by case_bool_decide. }
  destruct ok; [|simpl; split_and!; auto]. specialize (IH s1).
  destruct IH as (Q1 & Q2 & Q3 & Q4 & Q5 & Q6 & Q7 & Q8 & Q9 & Q10).
  simpl. split_and!; [congruence..|by auto| |].
  - intros [?|?]%Q9; [|by right]. destruct P9 as [?|?]; [done|by left|right; auto].
  - intros [? ?]%Q10. destruct P10 as [? Hi]; [done|]. split; [done|congruence].
Qed.
(** ** Exactness *)

Record exact (ins : list (Z * Input)) (s : Loop) : Prop := {
  ex_snap : lp_phase s ≠ Listing →
    ∃ items rv stream evs, received ins = (Some (items, rv), stream) ∧ decoded stream evs ∧
      lp_snap s = foldl apply_event (replace_from_list items rv) evs ∧ lp_buf s = partial_line stream;
  ex_handed : ∀ sn st, (sn, st) ∈ lp_handed s →
    ∃ pre, pre `prefix_of` ins ∧ current pre sn ∧ ws_last_rv st = sn_resource_version sn;
}.

Lemma on_data_exact ins now chunk s :
  exact ins s → lp_phase s = Watching → exact (ins ++ [(now, Data chunk)]) (on_data now chunk s).
Proof.
  intros [Hs Hh] Hp. unfold on_data.
  assert (∀ sn st, (sn, st) ∈ lp_handed s → ∃ pre, pre `prefix_of` ins ++ [(now, Data chunk)] ∧
    current pre sn ∧ ws_last_rv st = sn_resource_version sn) as Hh'.
  { intros sn st (pre & ? & ?)%Hh. exists pre. split; [by apply prefix_app_r|done]. }
  assert (∀ s', lp_handed s' = lp_handed s → exact (ins ++ [(now, Data chunk)]) (reconnect now s'))
    as Hrec.
  { intros s' He. split; simpl; [done|]. by rewrite He. }
  destruct Hs as (items & rv & stream & evs & Hr & Hd & Hsn & Hb); [by rewrite Hp|].
  rewrite take_lines_spec, Hb. destruct (forallb valid_utf8 _) eqn:Hu; [|by apply Hrec].
  set (raws := complete_lines (partial_line stream ++ chunk)) in *.
  destruct (apply_lines now _ _) as [ok s'] eqn:Ea.
  pose proof (apply_lines_frame now (map trim_end_cr raws) (set_buf (partial_line (partial_line stream ++ chunk)) s))
    as (_ & _ & _ & _ & _ & Fb & Fh & _).
  rewrite Ea in Fb, Fh. simpl in Fb, Fh. destruct ok; [|by apply Hrec].
  apply apply_lines_ok in Ea as (evs' & Hf & Hs' & _).
  split; [intros _|by rewrite Fh].
  exists items, rv, (stream ++ chunk), (evs ++ evs').
  destruct (lines_app stream chunk) as [Hl Hpl]. split_and!.
  - rewrite received_snoc. by rewrite Hr.
  - unfold decoded. rewrite Hl. apply Forall2_app; [done|]. fold raws.
    rewrite Forall2_fmap_l in Hf.
    assert (Forall (λ r, valid_utf8 r = true) raws) as Hfu.
    { apply Forall_forall. intros x Hx. rewrite forallb_forall in Hu. apply Hu. by apply list_elem_of_In. }
    clear -Hf Hfu. induction Hf; inversion Hfu; subst; constructor; auto.
  - rewrite Hs', foldl_app. simpl. by rewrite Hsn.
  - by rewrite Fb, Hpl.
Qed.

Lemma step_exact ins now i s s' :
  exact ins s → loop_step now i s = Some s' → exact (ins ++ [(now, i)]) s'.
Proof.
  intros Hx Hst. pose proof Hx as [Hs Hh].
  assert (∀ sn st, (sn, st) ∈ lp_handed s → ∃ pre, pre `prefix_of` ins ++ [(now, i)] ∧
    current pre sn ∧ ws_last_rv st = sn_resource_version sn) as Hh'.
  { intros sn st (pre & ? & ?)%Hh. exists pre. split; [by apply prefix_app_r|done]. }
  unfold loop_step in Hst. destruct (now <? lp_wake s); [done|].
  destruct (lp_phase s) eqn:Hp, i; try done.
  - injection Hst as <-. split; simpl; done.
  - injection Hst as <-. split; simpl; [|done]. intros _. exists items, rv, [], [].
    split_and!; [by rewrite received_snoc|constructor|done|done].
  - injection Hst as <-. split; simpl; done.
  - injection Hst as <-. split; simpl; [|done]. intros _. rewrite received_snoc. by apply Hs.
  - injection Hst as <-. by apply on_data_exact.
  - injection Hst as <-. split; simpl; done.
  - destruct (due now (lp_deadline s)); [|done]. injection Hst as <-. split; simpl.
    + rewrite received_snoc. rewrite Hp. intros _. by apply Hs.
    + intros sn st [?|Hin]%elem_of_app; [by apply Hh'|]. destruct (lp_dirty s); [|by apply elem_of_nil in Hin].
      apply list_elem_of_singleton in Hin as [= -> ->].
      exists (ins ++ [(now, DebounceTick)]). split_and!; [done| |done].
      destruct Hs as (items & rv & stream & evs & Hr & Hd & Hsn & _); [done|].
      exists items, rv, stream, evs. by rewrite received_snoc.
  - destruct (due now (lp_resync_at s)); [|done]. injection Hst as <-. split; simpl; done.
Qed.

(** ** Delivery *)

(** [sn]'s objects were handed over last. *)
Definition delivered (handed : list (Snapshot T * WatchStats)) (sn : Snapshot T) : Prop :=
  ∃ sn' st, last handed = Some (sn', st) ∧ sn_items sn' = sn_items sn.

(** An input that loses nothing: a resync tick finds no change still waiting in its
    window, and the API server lists the same objects at the same version. *)
Definition orderly (s : Loop) (i : Input) : Prop :=
  match i with
  | ResyncTick => lp_dirty s = false
  | Listed items rv => lp_restart_rv s = Some rv →
      sn_items (replace_from_list items rv) = sn_items (lp_snap s)
  | _ => True
  end.

Fixpoint orderly_run (ins : list (Z * Input)) (s : Loop) : Prop :=
  match ins with
  | [] => True
  | (now, i) :: ins => orderly s i ∧ ∀ s', loop_step now i s = Some s' → orderly_run ins s'
  end.

(** What holds on every run. *)
Record armed (s : Loop) : Prop := {
  ar_backoff : BACKOFF_BASE ≤ lp_backoff s ≤ BACKOFF_CAP;
  ar_generation : ws_generation (lp_stats s) = wrap 64 (Z.of_nat (length (lp_handed s)));
  ar_watching : lp_phase s ≠ Listing → lp_restart_rv s = None ∧
    (lp_dirty s = true → is_Some (lp_deadline s));
}.

(** No change is missing from both the caller and the window. *)
Definition kept (s : Loop) : Prop :=
  match lp_phase s with
  | Listing => ∀ rv, lp_restart_rv s = Some rv → delivered (lp_handed s) (lp_snap s)
  | _ => lp_dirty s = true ∨ delivered (lp_handed s) (lp_snap s)
  end.

Lemma grow_backoff_bounds d : BACKOFF_BASE ≤ d ≤ BACKOFF_CAP → BACKOFF_BASE ≤ grow_backoff d ≤ BACKOFF_CAP.
Proof. unfold grow_backoff, BACKOFF_BASE, BACKOFF_CAP. lia. Qed.

Lemma reconnect_armed now s :
  BACKOFF_BASE ≤ lp_backoff s ≤ BACKOFF_CAP →
  ws_generation (lp_stats s) = wrap 64 (Z.of_nat (length (lp_handed s))) → armed (reconnect now s).
Proof. intros Hb Hg. by split; simpl; [apply grow_backoff_bounds|..]. Qed.

Lemma reconnect_kept now s : lp_restart_rv s = None → kept (reconnect now s).
Proof. intros Hr. unfold kept. simpl. by rewrite Hr. Qed.

Lemma on_data_delivery now chunk s :
  armed s → lp_phase s = Watching →
  armed (on_data now chunk s) ∧ (kept s → kept (on_data now chunk s)).
Proof.
  intros [Hb Hg Hw] Hp. destruct Hw as [Hr Hw]; [by rewrite Hp|]. unfold on_data.
  destruct (take_lines _) as [[lines rest]|];
    [|split; [by apply reconnect_armed|intros _; by apply reconnect_kept]].
  destruct (apply_lines_frame now lines (set_buf rest s)) as (F1 & _ & F3 & F4 & F5 & _ & F7 & F8 & F9 & F10).
  destruct (apply_lines now lines (set_buf rest s)) as [ok s']. simpl in *.
  destruct ok; [|split; [apply reconnect_armed; congruence|intros _; apply reconnect_kept; congruence]].
  split.
  - split; [congruence|congruence|]. intros _. split; [congruence|]. intros Hd.
    destruct F9 as [Hd'|?]; [done| |done]. by apply F8, Hw.
  - unfold kept. rewrite F1, Hp. intros Hk. destruct (lp_dirty s'); [by left|right].
    destruct F10 as [Hd Hi]; [done|]. destruct Hk as [Hk|(sn & st & ? & ?)]; [congruence|].
    rewrite F7. exists sn, st. split; [done|congruence].
Qed.

Lemma step_delivery now i s s' :
  armed s → loop_step now i s = Some s' → armed s' ∧ (kept s → orderly s i → kept s').
Proof.
  intros Hx Hst. pose proof Hx as [Hb Hg Hw].
  unfold loop_step in Hst. destruct (now <? lp_wake s); [done|].
  destruct (lp_phase s) eqn:Hp, i; try done.
  - injection Hst as <-. split; [by split; simpl; [apply grow_backoff_bounds|..]|].
    unfold kept. rewrite Hp. auto.
  - injection Hst as <-. split; [by split; simpl; [unfold BACKOFF_BASE, BACKOFF_CAP; lia|..]|].
    unfold kept, orderly. rewrite Hp. simpl. intros Hl Ho.
    destruct (lp_restart_rv s) as [r|] eqn:Er; [|by left].
    case_bool_decide as Hv; simpl; [right|by left]. subst r.
    destruct (Hl rv eq_refl) as (sn & st & ? & Hi). exists sn, st. split; [done|].
    rewrite Hi. symmetry. by apply Ho.
  - injection Hst as <-. split; [by apply reconnect_armed|]. intros _ _. by apply reconnect_kept, Hw.
  - injection Hst as <-. split; [split; simpl; [done|done|intros _; by apply Hw]|].
    unfold kept. by rewrite Hp.
  - injection Hst as <-. destruct (on_data_delivery now chunk s) as [Ha Hk]; [done..|].
    split; [done|]. intros Hs _. by apply Hk.
  - injection Hst as <-. split; [by apply reconnect_armed|]. intros _ _. by apply reconnect_kept, Hw.
  - destruct (due now (lp_deadline s)); [|done]. injection Hst as <-. destruct Hw as [Hr Hw]; [done|].
    split.
    + split; simpl; [done| |by intros _].
      rewrite length_app. destruct (lp_dirty s); simpl; [|by rewrite Nat.add_0_r].
      rewrite Hg. unfold wrap. rewrite Zplus_mod_idemp_l. f_equal. lia.
    + unfold kept. simpl. rewrite Hp. intros Hk _. right. destruct (lp_dirty s).
      * eexists _, _. by rewrite last_snoc.
      * rewrite app_nil_r. by destruct Hk.
  - destruct (due now (lp_resync_at s)); [|done]. injection Hst as <-. split; [by split|].
    unfold kept, orderly. simpl. rewrite Hp. intros [Hk|Hk] Hd _ _; [congruence|done].
Qed.

Lemma run_armed ins s s' : armed s → loop_run ins s = Some s' → armed s'.
Proof.
  revert s. induction ins as [|[now i] ins IH]; intros s Hs; simpl; [by intros [= <-]|].
  intros (s1 & H1 & Hr)%bind_Some. apply (IH s1); [by eapply step_delivery|done].
Qed.

Lemma run_kept ins s s' :
  armed s → kept s → orderly_run ins s → loop_run ins s = Some s' → kept s'.
Proof.
  revert s. induction ins as [|[now i] ins IH]; intros s Hs Hk Ho; simpl; [by intros [= <-]|].
  destruct Ho as [Ho Hn]. intros (s1 & H1 & Hr)%bind_Some.
  destruct (step_delivery now i s s1) as [Ha Hk']; [done..|]. apply (IH s1); auto.
Qed.

Lemma init_armed : armed loop_init ∧ kept loop_init.
Proof. split; [split; simpl; [unfold BACKOFF_BASE, BACKOFF_CAP; lia|done|done]|done]. Qed.

(** * Theorems *)

(** C23. Every snapshot is a listing and the stream after it.  However the
    response bodies are cut into chunks, and whatever errors, reconnects and
    timer ticks come before, the loop's snapshot while watching is the last
    listing folded with the events of exactly the complete lines received since;
    so is every snapshot it ever hands over, at the moment it does, with the
    version it reports; no malformed line, ERROR event or partial line ever
    contributes. *)
Theorem watch_snapshot_exact (ins : list (Z * Input)) (s : Loop) :
  loop_run ins loop_init = Some s →
  (lp_phase s = Watching → current ins (lp_snap s)) ∧
  ∀ sn st, (sn, st) ∈ lp_handed s →
    ∃ pre, pre `prefix_of` ins ∧ current pre sn ∧ ws_last_rv st = sn_resource_version sn.
Proof.
  intros Hr. assert (exact ins s) as [Hs Hh].
  { revert s Hr. induction ins as [|[now i] ins IH] using rev_ind; intros s.
    { intros [= <-]. split; [done|]. by intros sn st ?%elem_of_nil. }
    rewrite loop_run_snoc. intros (s1 & Hs1 & Hst)%bind_Some.
    eapply step_exact; [|exact Hst]. by apply IH. }
  split; [|done]. intros Hp. destruct Hs as (items & rv & stream & evs & ? & ? & ? & _); [by rewrite Hp|].
  by exists items, rv, stream, evs.
Qed.

(** C22. Changes are delivered.  On every run, while the loop watches with a change
    pending, a hand-over is armed and the debounce tick, once due, delivers exactly
    the current snapshot; the generation counts the hand-overs, and the backoff
    stays between its base and its cap.  While it watches with nothing pending, its
    caller has the current objects, if that held (or a change was pending) at some
    earlier moment, say at the start, and no input since then was one that loses a
    change.  There are two such inputs: a resync tick that comes while a change is
    still in its debounce window (the loop then drops it without a hand-over, see
    [resync_drops_pending_change]), and a listing that has other objects under the
    very version it is asked to confirm. *)
Theorem watch_delivers (pre post : list (Z * Input)) (s0 s : Loop) :
  loop_run pre loop_init = Some s0 → loop_run post s0 = Some s →
  BACKOFF_BASE ≤ lp_backoff s ≤ BACKOFF_CAP ∧
  ws_generation (lp_stats s) = wrap 64 (Z.of_nat (length (lp_handed s))) ∧
  (lp_phase s = Watching → lp_dirty s = true →
    ∃ t, lp_deadline s = Some t ∧ ∀ now, t ≤ now → lp_wake s ≤ now →
      ∃ s' st, loop_step now DebounceTick s = Some s' ∧ lp_dirty s' = false ∧
        lp_handed s' = lp_handed s ++ [(lp_snap s, st)]) ∧
  (pre = [] ∨ lp_phase s0 = Watching ∧ (lp_dirty s0 = true ∨ delivered (lp_handed s0) (lp_snap s0)) →
   orderly_run post s0 →
   lp_phase s = Watching → lp_dirty s = false → delivered (lp_handed s) (lp_snap s)).
Proof.
  intros Hpre Hpost. destruct init_armed as [Ha Hk].
  pose proof (run_armed _ _ _ Ha Hpre) as Ha0. pose proof (run_armed _ _ _ Ha0 Hpost) as [Hb Hg Hw].
  split_and!; [lia..|done| |].
  - intros Hp Hd. destruct Hw as [_ [t Ht]%(λ H, H Hd)]; [by rewrite Hp|]. exists t. split; [done|].
    intros now Hn Hwk. unfold loop_step. rewrite Hp, Ht. simpl.
    rewrite (proj2 (Z.ltb_ge _ _)), (proj2 (Z.leb_le _ _)) by done.
    eexists _, _. split; [done|]. unfold on_debounce. simpl. rewrite Hd. done.
  - intros Hs Ho Hp Hd. assert (kept s0) as Hk0.
    { destruct Hs as [->|[Hp0 Hs]]; [by injection Hpre as <-|]. unfold kept. by rewrite Hp0. }
    pose proof (run_kept _ _ _ Ha0 Hk0 Ho Hpost) as Hks. unfold kept in Hks. rewrite Hp in Hks.
    destruct Hks as [Hks|Hks]; [congruence|done].
Qed.

End watch_loop.

(** * Concrete runs *)

(** A decoder for the lines of the examples. *)
Definition ex_json (line : bytes) : option (WatchEvent Probe) :=
  if bool_decide (line = bs "add b 2") then Some (Build_WatchEvent Added (ex_probe "b" "2")) else None.

Definition ex_opts : WatchOptions := watch_options (bs "openrusty").

(** Listed, opened, handed over, and a change split over two chunks. *)
Definition ex_inputs : list (Z * Input) :=
  [(0, Listed [ex_probe "a" "1"] (bs "1")); (1, Opened); (200, DebounceTick);
   (29900, Data (bs "add")); (29901, Data (bs " b 2" ++ [x0d; x0a]))].

Lemma watch_snapshot_exact_witness :
  ∃ s, loop_run ex_json ex_opts ex_inputs loop_init = Some s ∧
    current ex_json ex_inputs (lp_snap s) ∧
    snapshot_get (bs "default") (bs "b") (lp_snap s) = Some (ex_probe "b" "2").
Proof.
  eexists. split; [reflexivity|]. split.
  - apply (watch_snapshot_exact ex_json ex_opts ex_inputs); reflexivity.
  - by vm_compute.
Defined.

(** The caller has the listing, a change is pending; the tick due delivers it. *)
Definition ex_loop (ins : list (Z * Input)) : Loop :=
  default loop_init (loop_run ex_json ex_opts ins loop_init).

Lemma watch_delivers_witness :
  lp_dirty (ex_loop ex_inputs) = true ∧
  (∃ t, lp_deadline (ex_loop ex_inputs) = Some t ∧ t = 29901 + DEFAULT_DEBOUNCE) ∧
  delivered (lp_handed (ex_loop (take 3 ex_inputs))) (lp_snap (ex_loop (take 3 ex_inputs))).
Proof.
  split_and!; [reflexivity| |].
  - destruct (watch_delivers ex_json ex_opts ex_inputs [] (ex_loop ex_inputs) (ex_loop ex_inputs)
      eq_refl eq_refl) as (_ & _ & Hw & _).
    destruct (Hw eq_refl eq_refl) as (t & Ht & _). exists t. split; [exact Ht|].
    vm_compute in Ht. by injection Ht as <-.
  - destruct (watch_delivers ex_json ex_opts [] (take 3 ex_inputs) loop_init (ex_loop (take 3 ex_inputs))
      eq_refl eq_refl) as (_ & _ & _ & Hw).
    apply Hw; [by left| |reflexivity|reflexivity].
    split; [done|]. intros s1 _. split; [done|]. intros s2 _. by split.
Defined.

(** A change that arrives less than a debounce window before the resync tick is
    never handed over: the tick restarts at the version the change advanced to,
    the listing answers with that same version, and the fresh snapshot counts as
    clean, with no window left open. *)
Lemma resync_drops_pending_change :
  match loop_run ex_json ex_opts (ex_inputs ++
      [(30000, ResyncTick); (30001, Listed [ex_probe "a" "1"; ex_probe "b" "2"] (bs "2"));
       (30002, Opened); (30201, DebounceTick)]) loop_init with
  | Some s =>
      lp_dirty s = false ∧ lp_deadline s = None ∧
      snapshot_get (bs "default") (bs "b") (lp_snap s) = Some (ex_probe "b" "2") ∧
      map (λ h, snapshot_get (bs "default") (bs "b") h.1) (lp_handed s) = [None]
  | None => False
  end.
Proof. by vm_compute. Qed.
