(* ===== verification/Runtime.v ===== *)
(** The gateway's shared state and its reloads
    ([openrusty-server/src/state.rs], [reload.rs], the task side of
    [active_probe.rs], the material of [openrusty-proxy/src/tls/mod.rs]).

    Everything a reload awaits lets other tasks run; what they do to the state
    meanwhile is an arbitrary function. *)

From S2P Require Import Prelude Text Net Swap Config Upstream Health Client HostState Registry Peer DynRoutes.
From Stdlib Require Import ZArith Lia.
From stdpp Require Import options.
Local Open Scope Z_scope.

(** * Outbound TLS material *)

Inductive TlsError :=
| CannotRead (path : bytes)
| UnparsablePem (path : bytes)
| NoCertificates (path : bytes)
| RejectedCa (path : bytes)
| UnsupportedKey (path : bytes)
| NeedsTrustAnchor
| HalfClientPair.

(** Files and rustls: reading a file, the certificates of a PEM bundle, whether
    a certificate is accepted as a root, the key of a PEM, whether it can sign,
    and whether a server name parses. *)
Record TlsIo := {
  ti_cert : Type;
  ti_read : bytes → option bytes;
  ti_certs : bytes → option (list ti_cert);
  ti_root_ok : ti_cert → bool;
  ti_key : bytes → option bytes;
  ti_key_ok : bytes → bool;
  ti_name_ok : bytes → bool;
}.

Section tls_material.
Context (tio : TlsIo).

Definition read_certs (path : bytes) : result TlsError (list (ti_cert tio)) :=
  pem ← ok_or (ti_read tio path) (CannotRead path);
  certs ← ok_or (ti_certs tio pem) (UnparsablePem path);
  guard_err (bool_decide (length certs = 0%nat)) (NoCertificates path);;
  Ok certs.

(** [tls::build]: the server name is passed on as it is written. *)
Definition build_tls (cfg : UpstreamTlsConfig) : result TlsError UpstreamTls :=
  match ut_ca_cert cfg, ut_insecure_skip_verify cfg with
  | Some path, _ =>
      certs ← read_certs path;
      guard_err (negb (forallb (ti_root_ok tio) certs)) (RejectedCa path)
  | None, true => Ok ()
  | None, false => Err NeedsTrustAnchor
  end;;
  match ut_client_cert cfg, ut_client_key cfg with
  | Some cert_path, Some key_path =>
      certs ← read_certs cert_path;
      key_pem ← ok_or (ti_read tio key_path) (CannotRead key_path);
      key ← ok_or (ti_key tio key_pem) (UnparsablePem key_path);
      guard_err (negb (ti_key_ok tio key)) (UnsupportedKey key_path)
  | None, None => Ok ()
  | _, _ => Err HalfClientPair
  end;;
  Ok {| tls_server_name := ut_server_name cfg; tls_key := tls_key_from_config cfg |}.

(** What it gives, and what validation already excludes. *)
Lemma build_tls_ok cfg t :
  build_tls cfg = Ok t →
  tls_server_name t = ut_server_name cfg ∧ tls_key t = tls_key_from_config cfg ∧
  (is_Some (ut_ca_cert cfg) ∨ ut_insecure_skip_verify cfg = true).
Proof.
  unfold build_tls. intros (u & Ha & Hb)%bind_ok. apply bind_ok in Hb as (v & _ & Hb).
  injection Hb as <-. split_and!; [done|done|].
  destruct (ut_ca_cert cfg); [by left|]. destruct (ut_insecure_skip_verify cfg); [by right|done].
Qed.

End tls_material.

(** [DynamicConfig: PartialEq]. *)
#[global] Instance dynamic_route_eq_dec : EqDecision DynamicRoute.
Proof. solve_decision. Defined.

#[global] Instance dynamic_config_eq_dec : EqDecision DynamicConfig.
Proof. solve_decision. Defined.

(** * The runtime snapshot *)

Record RuntimeSnapshot := {
  rs_generation : Z;
  rs_routes : list RouteConfig;
  rs_upstreams : gmap bytes UpstreamRt;
}.

Definition empty_runtime : RuntimeSnapshot :=
  {| rs_generation := 0; rs_routes := []; rs_upstreams := ∅ |}.

(** [UpstreamRt] of a fresh snapshot: all accounting at zero. *)
Definition upstream_rt (up : Upstream) : UpstreamRt :=
  {| ur_up := up; ur_swrr := replicate (length (up_peers up)) 0 |}.

(** The smallest interval of the upstreams with active health checking. *)
Definition min_interval (acc : option Z) (up : UpstreamRt) : option Z :=
  match hc_active (up_health (ur_up up)) with
  | None => acc
  | Some a => Some (match acc with Some m => Z.min m (ah_interval_ms a) | None => ah_interval_ms a end)
  end.

Definition probe_interval (rt : RuntimeSnapshot) : option Z :=
  foldl min_interval None (map snd (map_to_list (rs_upstreams rt))).

Section state.
Context {Module_ : Type}.
Context (tio : TlsIo).
Context (lookup_host : bytes → option (list SocketAddr)).

Record AppState := {
  app_plugins : ArcSwap (@PluginSnapshot Module_);
  app_states : States;
  app_health : HealthRegistry;
  app_pool : ClientPool;
  app_runtime : ArcSwap RuntimeSnapshot;
  app_admin_token : option bytes;
  app_static_config : Config;
  app_dynamic : ArcSwap (option DynamicConfig);   (* the section the registry was built from *)
  app_dynamic_routes : ArcSwap DynamicRoutes;
  app_probe : option Z;                           (* interval of the running probe task *)
  app_gate : bool;                                (* the reload gate is taken *)
}.

(** ** [apply_runtime] *)

(** [build_tls_plans]: by upstream name; the first failure aborts. *)
Fixpoint tls_plans (ups : list UpstreamConfig) (plans : gmap bytes UpstreamTls)
    : result (bytes * TlsError) (gmap bytes UpstreamTls) :=
  match ups with
  | [] => Ok plans
  | uc :: ups =>
      match uc_tls uc with
      | None => tls_plans ups plans
      | Some tc =>
          match build_tls tio tc with
          | Ok tls => tls_plans ups (<[uc_name uc := tls]> plans)
          | Err e => Err (uc_name uc, e)
          end
      end
  end.

Definition build_tls_plans (cfg : Config) : result (bytes * TlsError) (gmap bytes UpstreamTls) :=
  tls_plans (cf_upstreams cfg) ∅.

(** The loop over the configured upstreams. *)
Fixpoint apply_upstreams (plans : gmap bytes UpstreamTls) (ucs : list UpstreamConfig)
    (h : HealthRegistry) (pool : ClientPool) (keys : list PoolKey) (ups : gmap bytes UpstreamRt)
    : exec (HealthRegistry * ClientPool * list PoolKey * gmap bytes UpstreamRt) :=
  match ucs with
  | [] => Ret (h, pool, keys, ups)
  | uc :: ucs =>
      let up := from_config uc (plans !! uc_name uc) in
      let h := register (up_name up) (pe_addr <$> up_peers up) h in
      pool ← prewarm_peers (ti_name_ok tio) up (up_peers up) pool;
      apply_upstreams plans ucs h pool (keys ++ (pool_key up <$> up_peers up))
        (<[up_name up := upstream_rt up]> ups)
  end.

Definition set_runtime (h : HealthRegistry) (pool : ClientPool) (rt : RuntimeSnapshot)
    (s : AppState) : AppState := {|
  app_plugins := app_plugins s; app_states := app_states s;
  app_health := h; app_pool := pool; app_runtime := store (app_runtime s) rt;
  app_admin_token := app_admin_token s; app_static_config := app_static_config s;
  app_dynamic := app_dynamic s; app_dynamic_routes := app_dynamic_routes s;
  app_probe := app_probe s; app_gate := app_gate s;
|}.

Definition apply_runtime (cfg : Config) (generation : Z) (plans : gmap bytes UpstreamTls)
    (s : AppState) : exec AppState :=
  '(h, pool, keys, ups) ←
    apply_upstreams plans (cf_upstreams cfg) (app_health s) (app_pool s) [] ∅;
  Ret (set_runtime h (evict_except keys pool)
         {| rs_generation := generation; rs_routes := cf_routes cfg; rs_upstreams := ups |} s).

(** ** The other planes a reload refreshes *)

Definition apply_dynamic (cfg : Config) (s : AppState) : AppState :=
  let changed := match as_value (app_dynamic s), cf_dynamic cfg with
                 | Some prev, Some next => negb (bool_decide (prev = next))
                 | None, None => false
                 | _, _ => true
                 end in
  if changed then {|
    app_plugins := app_plugins s; app_states := app_states s; app_health := app_health s;
    app_pool := app_pool s; app_runtime := app_runtime s; app_admin_token := app_admin_token s;
    app_static_config := app_static_config s;
    app_dynamic := store (app_dynamic s) (cf_dynamic cfg);
    app_dynamic_routes := app_dynamic_routes s; app_probe := app_probe s; app_gate := app_gate s |}
  else s.

Definition apply_routes (cfg : Config) (s : AppState) : AppState := {|
  app_plugins := app_plugins s; app_states := app_states s; app_health := app_health s;
  app_pool := app_pool s; app_runtime := app_runtime s; app_admin_token := app_admin_token s;
  app_static_config := app_static_config s; app_dynamic := app_dynamic s;
  app_dynamic_routes := apply_live [] (cf_dynamic cfg) (app_dynamic_routes s);
  app_probe := app_probe s; app_gate := app_gate s;
|}.

(** [active_probe::spawn]: the old task is always cancelled. *)
Definition spawn_probe (s : AppState) : AppState := {|
  app_plugins := app_plugins s; app_states := app_states s; app_health := app_health s;
  app_pool := app_pool s; app_runtime := app_runtime s; app_admin_token := app_admin_token s;
  app_static_config := app_static_config s; app_dynamic := app_dynamic s;
  app_dynamic_routes := app_dynamic_routes s;
  app_probe := probe_interval (as_value (app_runtime s)); app_gate := app_gate s;
|}.

Definition set_plugins (w : States) (c : ArcSwap (@PluginSnapshot Module_)) (s : AppState)
    : AppState := {|
  app_plugins := c; app_states := w; app_health := app_health s;
  app_pool := app_pool s; app_runtime := app_runtime s; app_admin_token := app_admin_token s;
  app_static_config := app_static_config s; app_dynamic := app_dynamic s;
  app_dynamic_routes := app_dynamic_routes s; app_probe := app_probe s; app_gate := app_gate s;
|}.

Definition set_token (t : option bytes) (s : AppState) : AppState := {|
  app_plugins := app_plugins s; app_states := app_states s; app_health := app_health s;
  app_pool := app_pool s; app_runtime := app_runtime s; app_admin_token := t;
  app_static_config := app_static_config s; app_dynamic := app_dynamic s;
  app_dynamic_routes := app_dynamic_routes s; app_probe := app_probe s; app_gate := app_gate s;
|}.

Definition set_gate (b : bool) (s : AppState) : AppState := {|
  app_plugins := app_plugins s; app_states := app_states s; app_health := app_health s;
  app_pool := app_pool s; app_runtime := app_runtime s; app_admin_token := app_admin_token s;
  app_static_config := app_static_config s; app_dynamic := app_dynamic s;
  app_dynamic_routes := app_dynamic_routes s; app_probe := app_probe s; app_gate := b;
|}.

(** ** Reloads *)

Inductive ReloadFailure :=
| FailedConfig (e : ConfigError)
| FailedTls (upstream : bytes) (e : TlsError)
| FailedPlugins (e : RegistryError).

Inductive ReloadError := InFlight | Failed (f : ReloadFailure).

(** What happens outside while a reload awaits. *)
Record Environment := {
  en_load : AppState → AppState;        (* while the file is read and parsed *)
  en_resolve : AppState → AppState;     (* while names resolve *)
  en_build : AppState → AppState;       (* while plugins compile *)
  en_dir : nat → option (list (option DirEntry));
  en_prepare : nat → bytes → result RegistryError (Module_ * bool);
  en_publishers : nat → list (@PluginSnapshot Module_);
}.

Definition publish (env : Environment) (cfg : Config) (s : AppState)
    : exec (result ReloadFailure Z * AppState) :=
  let cfg := resolve_config lookup_host cfg in
  let s := en_resolve env s in
  match build_tls_plans cfg with
  | Err (name, e) => Ret (Err (FailedTls name e), s)
  | Ok plans =>
      let s := en_build env s in
      let '(w, r, c) := Registry.reload (en_dir env) (en_prepare env) (en_publishers env) cfg
                          (app_states s) (app_plugins s) in
      let s := set_plugins w c s in
      match r with
      | Err e => Ret (Err (FailedPlugins e), s)
      | Ok generation =>
          s ← apply_runtime cfg generation plans s;
          Ret (Ok generation, spawn_probe (apply_routes cfg (apply_dynamic cfg s)))
      end
  end.

(** [reload]; [loaded] is what [load_config] returns for the file. *)
Definition reload_file (env : Environment) (loaded : result ConfigError Config) (s : AppState)
    : exec (result ReloadError (Z * list bytes) * AppState) :=
  if app_gate s then Ret (Err InFlight, s)
  else
    let s := en_load env (set_gate true s) in
    match loaded with
    | Err e => Ret (Err (Failed (FailedConfig e)), set_gate false s)
    | Ok cfg =>
        '(r, s) ← publish env cfg s;
        match r with
        | Err f => Ret (Err (Failed f), set_gate false s)
        | Ok generation =>
            let s := set_token (effective_token (cf_admin cfg)) s in
            Ret (Ok (generation, map ld_name (ps_plugins (as_value (app_plugins s)))), set_gate false s)
        end
    end.

(** [apply_config], for embedders. *)
Definition apply_config (env : Environment) (cfg : Config) (s : AppState)
    : exec (result ReloadError Z * AppState) :=
  if app_gate s then Ret (Err InFlight, s)
  else
    '(r, s) ← publish env cfg (set_gate true s);
    match r with
    | Err f => Ret (Err (Failed f), set_gate false s)
    | Ok generation => Ret (Ok generation, set_gate false s)
    end.

(** [from_config], once the registry has bootstrapped. *)
Definition boot_state (cfg : Config) (plans : gmap bytes UpstreamTls) (w : States)
    (plugins : @PluginSnapshot Module_) : exec AppState :=
  let fresh {A} (a : A) := {| as_version := 0; as_value := a |} in
  apply_runtime cfg (ps_generation plugins) plans {|
    app_plugins := fresh plugins; app_states := w; app_health := Health.new; app_pool := new_pool;
    app_runtime := fresh empty_runtime; app_admin_token := effective_token (cf_admin cfg);
    app_static_config := cfg; app_dynamic := fresh (cf_dynamic cfg);
    app_dynamic_routes := fresh (reconcile (from_option dy_routes [] (cf_dynamic cfg)) DynRoutes.new);
    app_probe := None; app_gate := false |}.

Definition boot (dir : option (list (option DirEntry)))
    (prepare : bytes → result RegistryError (Module_ * bool)) (cfg : Config) (w : States)
    : exec (result ReloadFailure AppState) :=
  match build_tls_plans cfg with
  | Err (name, e) => Ret (Err (FailedTls name e))
  | Ok plans =>
      match bootstrap dir prepare cfg w with
      | (w, Err e) => Ret (Err (FailedPlugins e))
      | (w, Ok plugins) => s ← boot_state cfg plans w plugins; Ret (Ok s)
      end
  end.

(** * What a publication leaves *)

(** The configuration that counts for a name: the last one. *)
Definition named (name : bytes) (ucs : list UpstreamConfig) : option UpstreamConfig :=
  last (filter (λ uc, uc_name uc = name) ucs).

Definition planned (plans : gmap bytes UpstreamTls) (uc : UpstreamConfig) : Upstream :=
  from_config uc (plans !! uc_name uc).

Definition peer_addrs (up : Upstream) : list SocketAddr := pe_addr <$> up_peers up.

(** The health registry after every upstream registered its addresses. *)
Definition registered (plans : gmap bytes UpstreamTls) (ucs : list UpstreamConfig)
    (h : HealthRegistry) : HealthRegistry :=
  foldl (λ h uc, register (uc_name uc) (peer_addrs (planned plans uc)) h) h ucs.

Lemma named_cons name uc ucs :
  named name (uc :: ucs) =
    match named name ucs with
    | Some u => Some u
    | None => if decide (uc_name uc = name) then Some uc else None
    end.
Proof.
  unfold named. rewrite filter_cons. case_decide; [|by destruct (last _)].
  by rewrite last_cons.
Qed.

Lemma named_name name ucs uc : named name ucs = Some uc → uc_name uc = name ∧ uc ∈ ucs.
Proof.
  unfold named. intros (l & Hl)%last_Some. assert (uc ∈ filter (λ u, uc_name u = name) ucs) as Hin.
  { rewrite Hl. apply elem_of_app. right. by left. }
  by apply list_elem_of_filter in Hin.
Qed.

Lemma apply_upstreams_cons plans uc ucs h pool keys ups :
  apply_upstreams plans (uc :: ucs) h pool keys ups =
    pool ← prewarm_peers (ti_name_ok tio) (planned plans uc) (up_peers (planned plans uc)) pool;
    apply_upstreams plans ucs (register (uc_name uc) (peer_addrs (planned plans uc)) h) pool
      (keys ++ (pool_key (planned plans uc) <$> up_peers (planned plans uc)))
      (<[uc_name uc := upstream_rt (planned plans uc)]> ups).
Proof. done. Qed.

(** The pool key of built material carries its server name. *)
Definition keys_named (plans : gmap bytes UpstreamTls) : Prop :=
  map_Forall (λ _ tls, tk_server_name (tls_key tls) = tls_server_name tls) plans.

Lemma apply_upstreams_cases plans ucs h pool keys ups :
  keys_named plans →
  match apply_upstreams plans ucs h pool keys ups with
  | Ret (h', pool', keys', ups') =>
      h' = registered plans ucs h ∧ keys' = keys ++ live_keys (planned plans <$> ucs) ∧
      pool_le pool pool' ∧ (∀ k, k ∈ live_keys (planned plans <$> ucs) → has_client pool' k) ∧
      (∀ a t, has_client pool' (Https a t) → has_client pool (Https a t) ∨ ti_name_ok tio (tk_server_name t) = true) ∧
      ∀ name, ups' !! name =
        match named name ucs with Some uc => Some (upstream_rt (planned plans uc)) | None => ups !! name end
  | Panic => unbuildable (ti_name_ok tio) (planned plans <$> ucs) pool
  end.
Proof.
  intros Hkn. revert h pool keys ups. induction ucs as [|uc ucs IH]; intros h pool keys ups.
  { simpl. rewrite app_nil_r. split_and!; try done; [by intros k ?%elem_of_nil|by left]. }
  rewrite apply_upstreams_cons.
  pose proof (prewarm_peers_cases (ti_name_ok tio) (planned plans uc) (up_peers (planned plans uc)) pool) as Hp.
  destruct (prewarm_peers _ _ _ _) as [p1|]; unfold mbind, exec_mbind; cycle 1.
  { destruct Hp as (tls & p & ? & ? & ? & ?). exists (planned plans uc), tls, p. split_and!; try done. by left. }
  destruct Hp as (Hle & Hc & Hn).
  specialize (IH (register (uc_name uc) (peer_addrs (planned plans uc)) h) p1
    (keys ++ (pool_key (planned plans uc) <$> up_peers (planned plans uc)))
    (<[uc_name uc := upstream_rt (planned plans uc)]> ups)).
  destruct (apply_upstreams _ _ _ _ _ _) as [[[[h' p2] keys'] u2]|].
  - destruct IH as (-> & -> & Hle2 & Hc2 & Hn2 & Hu). split_and!.
    + done.
    + by rewrite <-app_assoc.
    + by etrans.
    + intros k [Hk|Hk]%elem_of_app; [|by apply Hc2].
      apply list_elem_of_fmap in Hk as (q & -> & Hq). eapply has_client_mono; [done|]. by apply Hc.
    + intros a t [Ht|Ht]%Hn2; [|by right]. apply Hn in Ht as [Ht|(tls & Ht & -> & Hok)]; [by left|right].
      simpl in Ht. by rewrite (Hkn _ _ Ht).
    + intros name. rewrite Hu, named_cons. destruct (named name ucs); [done|].
      case_decide as Hd; [subst; by rewrite lookup_insert_eq|by rewrite lookup_insert_ne].
  - destruct IH as (up & tls & p & ? & ? & ? & ? & Hno). exists up, tls, p. split_and!; try done; [by right|].
    intros Hcl. apply Hno. by eapply has_client_mono.
Qed.

(** The loop panics exactly on a client that is missing and cannot be built. *)
Lemma apply_upstreams_panics plans ucs h pool keys ups : keys_named plans →
  apply_upstreams plans ucs h pool keys ups = Panic ↔ unbuildable (ti_name_ok tio) (planned plans <$> ucs) pool.
Proof.
  intros Hkn. pose proof (apply_upstreams_cases plans ucs h pool keys ups Hkn) as Hc.
  destruct (apply_upstreams _ _ _ _ _ _) as [[[[h' p2] keys'] u2]|]; [|by split].
  split; [done|]. destruct Hc as (_ & _ & _ & Hc & Hn & _).
  intros (up & tls & p & Hup & Ht & Hbad & Hp & Hno). exfalso.
  assert (Https (pe_addr p) (tls_key tls) ∈ live_keys (planned plans <$> ucs)) as Hk.
  { apply list_elem_of_bind. exists up. split; [|done]. unfold pool_key. rewrite list_elem_of_fmap.
    exists p. by rewrite Ht. }
  apply Hc, Hn in Hk as [Hk|Hk]; [done|].
  apply list_elem_of_fmap in Hup as (uc & -> & _). simpl in Ht. rewrite (Hkn _ _ Ht) in Hk. congruence.
Qed.

Lemma registered_cons plans uc ucs h :
  registered plans (uc :: ucs) h =
    registered plans ucs (register (uc_name uc) (peer_addrs (planned plans uc)) h).
Proof. done. Qed.

Lemma registered_other plans ucs h name :
  named name ucs = None → hr_upstreams (registered plans ucs h) !! name = hr_upstreams h !! name.
Proof.
  revert h. induction ucs as [|uc ucs IH]; intros h; [done|]. rewrite named_cons.
  destruct (named name ucs) eqn:En; [done|]. case_decide as Hn; [done|]. intros _.
  rewrite registered_cons. rewrite IH by done.
  unfold register. simpl. by rewrite lookup_insert_ne.
Qed.

Lemma registered_active plans ucs h : hr_active (registered plans ucs h) = hr_active h.
Proof.
  revert h. induction ucs as [|uc ucs IH]; intros h; [done|]. by rewrite registered_cons, IH.
Qed.

Lemma register_local up addrs h1 h2 :
  hr_upstreams h1 !! up = hr_upstreams h2 !! up → hr_active h1 = hr_active h2 →
  hr_upstreams (register up addrs h1) !! up = hr_upstreams (register up addrs h2) !! up.
Proof.
  intros Hu Ha. unfold register, is_active_healthy. simpl. by rewrite !lookup_insert_eq, Hu, Ha.
Qed.

Lemma registered_addrs plans ucs h name uc :
  named name ucs = Some uc →
  ∃ slots, hr_upstreams (registered plans ucs h) !! name = Some slots ∧
    sl_addrs slots = peer_addrs (planned plans uc).
Proof.
  revert h. induction ucs as [|u ucs IH]; intros h; [done|]. rewrite named_cons.
  rewrite registered_cons.
  destruct (named name ucs) as [u'|] eqn:En; [intros [= ->]; by apply IH|].
  case_decide as Hn; [|done]. intros [= ->]. rewrite registered_other by done. subst name.
  unfold register. simpl. rewrite lookup_insert_eq. by eexists.
Qed.

(** Under distinct names each upstream is registered once, on what the registry
    held for it. *)
Lemma registered_once plans ucs h name uc :
  NoDup (uc_name <$> ucs) → named name ucs = Some uc →
  hr_upstreams (registered plans ucs h) !! name =
    hr_upstreams (register name (peer_addrs (planned plans uc)) h) !! name.
Proof.
  revert h. induction ucs as [|u ucs IH]; intros h; [done|].
  rewrite fmap_cons, NoDup_cons, named_cons. intros [Hn Hd].
  rewrite registered_cons.
  destruct (named name ucs) as [u'|] eqn:En.
  - intros [= ->]. rewrite IH by done. apply register_local; [|done].
    unfold register. simpl. rewrite lookup_insert_ne; [done|]. intros He. apply Hn.
    apply named_name in En as [<- Hin]. rewrite He. by apply list_elem_of_fmap_2.
  - case_decide as He; [|done]. intros [= ->]. subst name. by rewrite registered_other.
Qed.

(** A published runtime agrees with everything a request will use with it: the
    health slots are those of its peers, every peer has a pooled client and no
    other client is left, and the round robin starts from zero. *)
Record runtime_ready (cfg : Config) (generation : Z) (plans : gmap bytes UpstreamTls)
    (s s' : AppState) : Prop := {
  rr_generation : rs_generation (as_value (app_runtime s')) = generation;
  rr_routes : rs_routes (as_value (app_runtime s')) = cf_routes cfg;
  rr_upstreams : ∀ name, rs_upstreams (as_value (app_runtime s')) !! name =
    (λ uc, upstream_rt (planned plans uc)) <$> named name (cf_upstreams cfg);
  rr_slots : ∀ name up, rs_upstreams (as_value (app_runtime s')) !! name = Some up →
    ∃ slots, hr_upstreams (app_health s') !! name = Some slots ∧
      sl_addrs slots = peer_addrs (ur_up up);
  rr_health : NoDup (uc_name <$> cf_upstreams cfg) →
    ∀ name up, rs_upstreams (as_value (app_runtime s')) !! name = Some up →
      hr_upstreams (app_health s') !! name =
        hr_upstreams (register name (peer_addrs (ur_up up)) (app_health s)) !! name;
  rr_pool : ∀ k, has_client (app_pool s') k ↔ k ∈ live_keys (planned plans <$> cf_upstreams cfg);
}.

Lemma apply_runtime_cases cfg generation plans s :
  keys_named plans →
  match apply_runtime cfg generation plans s with
  | Ret s' => runtime_ready cfg generation plans s s' ∧
      s' = set_runtime (app_health s') (app_pool s') (as_value (app_runtime s')) s
  | Panic => True
  end ∧
  (apply_runtime cfg generation plans s = Panic ↔
     unbuildable (ti_name_ok tio) (planned plans <$> cf_upstreams cfg) (app_pool s)).
Proof.
  intros Hkn. rewrite <-(apply_upstreams_panics plans (cf_upstreams cfg) (app_health s) (app_pool s) [] ∅ Hkn).
  unfold apply_runtime.
  pose proof (apply_upstreams_cases plans (cf_upstreams cfg) (app_health s) (app_pool s) [] ∅ Hkn) as H.
  destruct (apply_upstreams _ _ _ _ _ _) as [[[[h pool] keys] ups]|]; [|done].
  destruct H as (-> & -> & _ & Hc & _ & Hu). simpl. split; [|done]. split; [|done].
  assert (∀ name, ups !! name = (λ uc, upstream_rt (planned plans uc)) <$> named name (cf_upstreams cfg)) as Hu'.
  { intros name. rewrite Hu, lookup_empty. by destruct (named name _). }
  split; simpl; try done.
  - intros name up Hup. rewrite Hu' in Hup. apply fmap_Some in Hup as (uc & Hn & ->).
    by apply registered_addrs.
  - intros Hd name up Hup. rewrite Hu' in Hup. apply fmap_Some in Hup as (uc & Hn & ->).
    by apply registered_once.
  - intros k. rewrite evict_has_client. naive_solver.
Qed.

(** Every plan is that of a configured upstream's section. *)
Lemma tls_plans_source ups plans plans' name tls :
  tls_plans ups plans = Ok plans' → plans' !! name = Some tls →
  plans !! name = Some tls ∨
  ∃ uc tc, uc ∈ ups ∧ uc_name uc = name ∧ uc_tls uc = Some tc ∧
    tls = {| tls_server_name := ut_server_name tc; tls_key := tls_key_from_config tc |}.
Proof.
  revert plans. induction ups as [|uc ups IH]; intros plans; simpl; [intros [= ->]; by left|].
  destruct (uc_tls uc) as [tc|] eqn:Ec.
  - destruct (build_tls tio tc) as [t|] eqn:Et; [|done]. intros H Hl.
    destruct (IH _ H Hl) as [Hp|(u & c & ? & ? & ? & ?)]; [|right; exists u, c; split_and!; try done; by right].
    apply lookup_insert_Some in Hp as [[<- <-]|[_ Hp]]; [|by left]. right. exists uc, tc. split_and!; try done; [by left|].
    apply build_tls_ok in Et as (? & ? & _). destruct t. simpl in *. congruence.
  - intros H Hl. destruct (IH _ H Hl) as [Hp|(u & c & ? & ? & ? & ?)]; [by left|right].
    exists u, c. split_and!; try done. by right.
Qed.

Lemma plans_named cfg plans : build_tls_plans cfg = Ok plans → keys_named plans.
Proof.
  intros H name tls Hl. destruct (tls_plans_source _ _ _ _ _ H Hl) as [He|(uc & tc & _ & _ & _ & ->)]; [|done].
  by rewrite lookup_empty in He.
Qed.

(** Every configured TLS server name parses. *)
Definition names_parse (cfg : Config) : Prop :=
  ∀ uc tc, uc ∈ cf_upstreams cfg → uc_tls uc = Some tc → ti_name_ok tio (ut_server_name tc) = true.

Lemma names_parse_buildable cfg plans pool : names_parse cfg → build_tls_plans cfg = Ok plans →
  ¬ unbuildable (ti_name_ok tio) (planned plans <$> cf_upstreams cfg) pool.
Proof.
  intros Hn Hb (up & tls & p & Hup & Ht & Hbad & _). apply list_elem_of_fmap in Hup as (uc & -> & Hin). simpl in Ht.
  destruct (tls_plans_source _ _ _ _ _ Hb Ht) as [He|(u & tc & Hu & _ & Htc & ->)]; [by rewrite lookup_empty in He|].
  simpl in Hbad. rewrite (Hn u tc Hu Htc) in Hbad. done.
Qed.

Lemma resolved_names lookup cfg : names_parse cfg → names_parse (resolve_config lookup cfg).
Proof.
  intros Hn uc tc Hin Htc. simpl in Hin. apply list_elem_of_fmap in Hin as (u & -> & Hin). apply (Hn u tc Hin).
  unfold resolve_upstream in Htc. by repeat case_bool_decide.
Qed.

(** ** Publication *)

(** Every plane of [s'] is the one [cfg] (resolved) describes, built on [b], the
    state when the reload stopped awaiting. *)
Record published (env : Environment) (cfg : Config) (generation : Z) (b s' : AppState) : Prop := {
  pb_runtime : ∃ plans, build_tls_plans cfg = Ok plans ∧ runtime_ready cfg generation plans b s';
  pb_plugins : generation = ps_generation (as_value (app_plugins s'));
  pb_states : grows (app_states b) (app_states s');
  pb_dynamic : as_value (app_dynamic s') = cf_dynamic cfg ∧
    app_dynamic s' = if decide (as_value (app_dynamic b) = cf_dynamic cfg) then app_dynamic b
                     else store (app_dynamic b) (cf_dynamic cfg);
  pb_routes : app_dynamic_routes s' =
    store (app_dynamic_routes b) (apply_dynamic_routes (cf_dynamic cfg) (as_value (app_dynamic_routes b)));
  pb_probe : app_probe s' = probe_interval (as_value (app_runtime s'));
  pb_static : app_static_config s' = app_static_config b;
}.

Lemma apply_dynamic_spec cfg s :
  app_dynamic (apply_dynamic cfg s) =
    (if decide (as_value (app_dynamic s) = cf_dynamic cfg) then app_dynamic s
     else store (app_dynamic s) (cf_dynamic cfg)) ∧
  apply_dynamic cfg s = {|
    app_plugins := app_plugins s; app_states := app_states s; app_health := app_health s;
    app_pool := app_pool s; app_runtime := app_runtime s; app_admin_token := app_admin_token s;
    app_static_config := app_static_config s; app_dynamic := app_dynamic (apply_dynamic cfg s);
    app_dynamic_routes := app_dynamic_routes s; app_probe := app_probe s; app_gate := app_gate s |}.
Proof.
  unfold apply_dynamic. split; [|by case_match; destruct s].
  destruct (as_value (app_dynamic s)) as [p|] eqn:Ep, (cf_dynamic cfg) as [d|] eqn:Ed;
    simpl; repeat case_bool_decide; repeat case_decide; simplify_eq; done.
Qed.

(** Where a publication panics: the material and the plugins are fine, and a client
    it needs is missing and has a server name that does not parse. *)
Definition stuck (env : Environment) (cfg : Config) (b : AppState) : Prop :=
  ∃ plans, build_tls_plans cfg = Ok plans ∧
    is_ok (Registry.reload (en_dir env) (en_prepare env) (en_publishers env) cfg
             (app_states b) (app_plugins b)).1.2 = true ∧
    unbuildable (ti_name_ok tio) (planned plans <$> cf_upstreams cfg) (app_pool b).

Lemma names_not_stuck env cfg b : names_parse cfg → ¬ stuck env cfg b.
Proof. intros Hn (plans & Hb & _ & Hu). by eapply names_parse_buildable. Qed.

Lemma publish_spec env cfg s :
  let resolved := resolve_config lookup_host cfg in
  let b := en_build env (en_resolve env s) in
  match publish env cfg s with
  | Ret (Err (FailedPlugins _), s') => ∃ w l, grows (app_states b) w ∧
        (∀ p, p ∈ l → ∃ i, p ∈ en_publishers env i) ∧
        s' = set_plugins w (foldl store (app_plugins b) l) b
  | Ret (Err (FailedTls _ _), s') => s' = en_resolve env s
  | Ret (Err (FailedConfig _), _) => False
  | Ret (Ok g, s') => published env resolved g b s' ∧
        app_admin_token s' = app_admin_token b ∧ app_gate s' = app_gate b
  | Panic => True
  end ∧
  (publish env cfg s = Panic ↔ stuck env resolved b).
Proof.
  intros resolved b. unfold publish. fold resolved.
  destruct (build_tls_plans resolved) as [plans|[name e]] eqn:Epl.
  2:{ split; [done|]. split; [done|]. intros (? & Hx & _). congruence. }
  fold b. pose proof (reload_outcome (en_dir env) (en_prepare env) (en_publishers env) resolved
    (app_states b) (app_plugins b)) as Hr.
  destruct (Registry.reload _ _ _ _ _ _) as [[w r] c] eqn:Ereg. destruct Hr as [Hg Hr].
  destruct r as [g|e]; cycle 1.
  { destruct Hr as (l & -> & Hl). split; [by exists w, l|]. split; [done|].
    intros (? & _ & Hx & _). by rewrite Ereg in Hx. }
  destruct (apply_runtime_cases resolved g plans (set_plugins w c b) (plans_named _ _ Epl)) as [Hc Hp].
  change (app_pool (set_plugins w c b)) with (app_pool b) in Hp.
  assert (stuck env resolved b ↔ apply_runtime resolved g plans (set_plugins w c b) = Panic) as Hst.
  { rewrite Hp. split.
    - intros (plans' & Hx & _ & Hu). rewrite Epl in Hx. by injection Hx as <-.
    - intros Hu. exists plans. rewrite Ereg. by split_and!. }
  destruct (apply_runtime _ _ _ _) as [s1|]; [|split; [done|]; by rewrite Hst].
  destruct Hc as [Hready Hs1].
  split; [|rewrite Hst; by split]. simpl.
  destruct (apply_dynamic_spec resolved s1) as [Hd Hd'].
  destruct Hready as [Rg Rr Ru Rs Rh Rp]. rewrite Hs1 in Hd, Hd'. simpl in *.
  split; [|rewrite Hs1, Hd'; done]. split.
  - exists plans. split; [done|]. split; rewrite Hs1, Hd'; simpl; done.
  - rewrite Hs1, Hd'. done.
  - rewrite Hs1, Hd'. done.
  - rewrite Hs1. simpl. rewrite Hd. split; [|done]. by case_decide.
  - rewrite Hs1, Hd'. done.
  - done.
  - rewrite Hs1, Hd'. done.
Qed.

(** A reload panics only on such a client. *)
Lemma reload_file_panics env loaded s :
  reload_file env loaded s = Panic ↔ app_gate s = false ∧ ∃ cfg, loaded = Ok cfg ∧
    stuck env (resolve_config lookup_host cfg)
      (en_build env (en_resolve env (en_load env (set_gate true s)))).
Proof.
  unfold reload_file. destruct (app_gate s); [split; [done|by intros [? _]]|].
  destruct loaded as [cfg|e]; [|split; [done|by intros (_ & ? & ? & _)]].
  pose proof (proj2 (publish_spec env cfg (en_load env (set_gate true s)))) as Hp. cbn zeta in Hp.
  destruct (publish env cfg _) as [[[g|f] s1]|]; simpl; split.
  all: try done.
  - intros (_ & ? & [= <-] & Hx%Hp). done.
  - intros (_ & ? & [= <-] & Hx%Hp). done.
  - intros _. split; [done|]. exists cfg. split; [done|]. by apply Hp.
Qed.

Lemma reload_file_returns env cfg s : names_parse cfg → reload_file env (Ok cfg) s ≠ Panic.
Proof.
  intros Hn (_ & ? & [= <-] & Hs)%reload_file_panics. by eapply names_not_stuck, Hs; apply resolved_names.
Qed.

(** * Theorems *)

(** C24. A file reload is all or nothing.  While another reload holds the gate it
    changes nothing at all; when the file, the TLS material or a plugin is bad, the
    state is what the other tasks made of it meanwhile, with no change of the
    reload's own; and when it succeeds every plane is the new configuration's: the
    plugins and the runtime carry the same generation, the runtime's upstreams,
    health slots and clients agree with each other and keep the health of
    surviving addresses, the dynamic registry is replaced exactly when its section
    changed, bindings are reconciled, the probe task follows, the token rotates,
    and the boot-time base stays.  The gate is free again in every case.  The one
    exception: the reload panics, half-way, exactly when it got as far as building
    clients and needs one that is not pooled and whose TLS server name does not
    parse, which neither validation nor [tls::build] checks; it never does when
    every server name parses. *)
Theorem reload_atomic (env : Environment) (loaded : result ConfigError Config) (s : AppState) :
  let b0 := en_load env (set_gate true s) in
  let b := en_build env (en_resolve env b0) in
  match reload_file env loaded s with
  | Panic => True
  | Ret (Err InFlight, s') => app_gate s = true ∧ s' = s
  | Ret (Err (Failed f), s') => app_gate s = false ∧ app_gate s' = false ∧
        match f with
        | FailedConfig e => loaded = Err e ∧ s' = set_gate false b0
        | FailedTls _ _ => s' = set_gate false (en_resolve env b0)
        | FailedPlugins _ => ∃ w l, grows (app_states b) w ∧
            (∀ p, p ∈ l → ∃ i, p ∈ en_publishers env i) ∧
            s' = set_gate false (set_plugins w (foldl store (app_plugins b) l) b)
        end
  | Ret (Ok (g, names), s') => app_gate s = false ∧ app_gate s' = false ∧
        ∃ cfg, loaded = Ok cfg ∧ published env (resolve_config lookup_host cfg) g b s' ∧
          rs_generation (as_value (app_runtime s')) = ps_generation (as_value (app_plugins s')) ∧
          names = map ld_name (ps_plugins (as_value (app_plugins s'))) ∧
          app_admin_token s' = effective_token (cf_admin cfg)
  end ∧
  (reload_file env loaded s = Panic ↔ app_gate s = false ∧
     ∃ cfg, loaded = Ok cfg ∧ stuck env (resolve_config lookup_host cfg) b) ∧
  (∀ cfg, loaded = Ok cfg → names_parse cfg → reload_file env loaded s ≠ Panic).
Proof.
  intros b0 b. split; [|split; [apply reload_file_panics|by intros cfg -> ?; apply reload_file_returns]].
  unfold reload_file. destruct (app_gate s) eqn:Eg; [done|]. fold b0.
  destruct loaded as [cfg|e]; [|done].
  pose proof (proj1 (publish_spec env cfg b0)) as Hp. cbn zeta in Hp. fold b in Hp.
  destruct (publish env cfg b0) as [[[g|f] s1]|]; [| |done]; simpl.
  - destruct Hp as ([(plans & Hpl & [Rg Rr Ru Rs Rh Rp]) Pg Ps Pd Pr Pp Pst] & _ & _).
    split_and!; [done|done|]. exists cfg.
    split_and!; try done; [|congruence]. split; try done. exists plans. split; [done|]. by split.
  - split_and!; [done|done|]. destruct f; simpl.
    + done.
    + by subst s1.
    + destruct Hp as (w & l & ? & ? & ->). by exists w, l.
Qed.

End state.

(** * A concrete gateway *)

Definition ex_up (name : string) (p : Z) : UpstreamConfig := {|
  uc_name := bs name; uc_balancer := Swrr; uc_retries := 1; uc_retry_on_timeout := false;
  uc_connect_timeout_ms := 2000; uc_pool_idle_timeout_ms := 60000;
  uc_peers := [{| pc_addr := loopback p; pc_weight := 1 |}]; uc_endpoints := []; uc_tls := None;
  uc_health := default_health |}.

Definition with_upstreams (ups : list UpstreamConfig) (cfg : Config) : Config := {|
  cf_server := cf_server cfg; cf_admin := {| ad_token := Some (bs "secret") |};
  cf_plugins := cf_plugins cfg; cf_dynamic := cf_dynamic cfg; cf_upstreams := ups;
  cf_routes := cf_routes cfg; cf_ingress := cf_ingress cfg; cf_egress := cf_egress cfg |}.

Definition ex_new_config : Config := with_upstreams [ex_up "u" 9001; ex_up "v" 9002] (ex_config []).

(** Certificate files are never read by these configurations; a name with a space
    does not parse. *)
Definition ex_tls_io : TlsIo := {|
  ti_cert := (); ti_read := λ _, None; ti_certs := λ _, None; ti_root_ok := λ _, true;
  ti_key := λ _, None; ti_key_ok := λ _, true; ti_name_ok := λ n, bool_decide (x20 ∉ n) |}.

Definition ex_env : Environment (Module_ := ()) := {|
  en_load := id; en_resolve := id; en_build := id;
  en_dir := λ _, ex_dir; en_prepare := λ _, ex_prepare; en_publishers := λ _, [] |}.

Definition ex_state : AppState (Module_ := ()) := {|
  app_plugins := {| as_version := 0; as_value := ex_boot.2 |}; app_states := ex_boot.1;
  app_health := Health.new; app_pool := new_pool;
  app_runtime := {| as_version := 0; as_value := empty_runtime |}; app_admin_token := None;
  app_static_config := ex_config []; app_dynamic := {| as_version := 0; as_value := None |};
  app_dynamic_routes := {| as_version := 0; as_value := DynRoutes.new |};
  app_probe := None; app_gate := false |}.

(** The new configuration is published under generation 2. *)
Definition ex_published (r : result ReloadError (Z * list bytes)) (s : AppState (Module_ := ())) : bool :=
  match r with
  | Ok (g, names) =>
      bool_decide (g = 2) && bool_decide (names = [bs "a"; bs "b"]) &&
      bool_decide (rs_generation (as_value (app_runtime s)) = 2) &&
      bool_decide (app_admin_token s = Some (bs "secret")) &&
      is_some (rs_upstreams (as_value (app_runtime s)) !! bs "v")
  | Err _ => false
  end.

Definition ex_reload (cfg : Config) := reload_file ex_tls_io (λ _, None) ex_env (Ok cfg) ex_state.

Lemma reload_atomic_witness :
  ∃ r s', ex_reload ex_new_config = Ret (r, s') ∧ ex_published r s' = true ∧ app_gate s' = false.
Proof.
  pose proof (reload_atomic ex_tls_io (λ _, None) ex_env (Ok ex_new_config) ex_state) as (H & _ & Hn).
  fold (ex_reload ex_new_config) in H, Hn.
  assert (match ex_reload ex_new_config with
          | Ret (r, s) => ex_published r s | Panic => false end = true) as Ht by (vm_compute; reflexivity).
  destruct (ex_reload ex_new_config) as [[r s']|]; [|discriminate Ht].
  exists r, s'. split; [reflexivity|]. split; [exact Ht|].
  destruct r as [[g names]|e]; [apply H|discriminate Ht].
Defined.

(** A configuration that validates and whose reload panics: an upstream over TLS
    with a space in its server name. *)
Definition ex_tls_up : UpstreamConfig := {|
  uc_name := bs "t"; uc_balancer := Swrr; uc_retries := 1; uc_retry_on_timeout := false;
  uc_connect_timeout_ms := 2000; uc_pool_idle_timeout_ms := 60000;
  uc_peers := [{| pc_addr := loopback 9003; pc_weight := 1 |}]; uc_endpoints := [];
  uc_tls := Some {| ut_server_name := bs "a b"; ut_ca_cert := None; ut_client_cert := None;
                    ut_client_key := None; ut_insecure_skip_verify := true |};
  uc_health := default_health |}.

Lemma valid_reload_panics :
  validate (λ _, None) (with_upstreams [ex_tls_up] (ex_config [])) = Ok () ∧
  ex_reload (with_upstreams [ex_tls_up] (ex_config [])) = Panic.
Proof. split; vm_compute; reflexivity. Qed.

(** Passive outcomes are recorded by the index in the snapshot a request pinned,
    while a reload re-indexes the shared slots: an exchange with the first peer
    that fails after a reload reordered the upstream marks the other peer down. *)
Lemma stale_index_marks_other_peer :
  let a := loopback 9001 in let b := loopback 9002 in
  let cfg := {| hc_max_fails := 1; hc_fail_window_s := 10; hc_fail_timeout_s := 10; hc_active := None |} in
  let h := record_failure (bs "u") 0 cfg 1000
             (register (bs "u") [b; a] (register (bs "u") [a; b] Health.new)) in
  is_healthy h (bs "u") 0 1000 = false ∧ is_healthy h (bs "u") 1 1000 = true ∧
  (sl_addrs <$> hr_upstreams h !! bs "u") = Some [b; a].
Proof. by vm_compute. Qed.
