(* ===== verification/Certs.v ===== *)
(** TLS termination: certificate selection by server name, the sources of a
    listener's material, and the protocol a handshake settles on
    ([openrusty-server/src/tls/mod.rs], [resolver.rs], [accept.rs]).

    PEM and key parsing are parameters (rustls). *)

From S2P Require Import Prelude Text Net Config Intercept.
From Stdlib Require Import ZArith Lia.
From stdpp Require Import options.

(** [render::TlsPair]. *)
Record TlsPair := { tp_cert_pem : bytes; tp_key_pem : bytes }.

#[global] Instance tls_pair_eq_dec : EqDecision TlsPair.
Proof. solve_decision. Defined.

(** * Sources *)

Definition uses_tls (l : ListenerConfig) : bool :=
  ls_tls l && negb (bool_decide (ls_role l = Outbound)).

Inductive TlsSources :=
| SrcStatic (cert key : bytes)
| SrcIngress
| SrcStaticWithIngress (cert key : bytes).

Definition classify_sources (l : ListenerConfig) (ingress_enabled : bool) : TlsSources :=
  match ls_tls_cert l, ls_tls_key l with
  | Some cert, Some key => if ingress_enabled then SrcStaticWithIngress cert key else SrcStatic cert key
  | _, _ => SrcIngress
  end.

(** * The resolver *)

Inductive CertError := UnparsableCert | EmptyChain | UnparsableKey | NoKey | BadKey.

Section resolver.
(** A signing key and certificates as rustls parses them. *)
Context {Cert Key : Type}.
Context (pem_certs : bytes → option (list Cert)).
Context (pem_key : bytes → option (option bytes)).
Context (signing_key : bytes → option Key).

Definition CertifiedKey : Type := list Cert * Key.

Record Resolver := { rv_map : gmap bytes CertifiedKey; rv_fallback : option CertifiedKey }.

Definition resolver_new : Resolver := {| rv_map := ∅; rv_fallback := None |}.

Definition lookup_cert (server_name : option bytes) (r : Resolver) : option CertifiedKey :=
  match n ← server_name; rv_map r !! to_ascii_lowercase n with
  | Some found => Some found
  | None => rv_fallback r
  end.

Definition store_map (next : gmap bytes CertifiedKey) (r : Resolver) : nat * Resolver :=
  (size next, {| rv_map := next; rv_fallback := rv_fallback r |}).

Definition store_fallback (key : CertifiedKey) (r : Resolver) : Resolver :=
  {| rv_map := rv_map r; rv_fallback := Some key |}.

Definition hosts (r : Resolver) : nat := size (rv_map r).

Definition certified_key (p : TlsPair) : result CertError CertifiedKey :=
  certs ← ok_or (pem_certs (tp_cert_pem p)) UnparsableCert;
  guard_err (bool_decide (length certs = 0)) EmptyChain;;
  key ← ok_or (pem_key (tp_key_pem p)) UnparsableKey;
  key ← ok_or key NoKey;
  signing ← ok_or (signing_key key) BadKey;
  Ok (certs, signing).

Definition seed_fallback (p : TlsPair) (r : Resolver) : result CertError Resolver :=
  key ← certified_key p;
  Ok (store_fallback key r).

(** The loop over the rendered pairs, in host order; a broken one is skipped. *)
Definition add_pair (next : gmap bytes CertifiedKey) (e : bytes * TlsPair) : gmap bytes CertifiedKey :=
  match certified_key e.2 with
  | Ok key => <[to_ascii_lowercase e.1 := key]> next
  | Err _ => next
  end.

Definition host_order (pairs : gmap bytes TlsPair) : list (bytes * TlsPair) :=
  sort_by (λ a b, bytes_leb a.1 b.1) (map_to_list pairs).

Definition update_from_tls_pairs (pairs : gmap bytes TlsPair) (r : Resolver) : nat * Resolver :=
  store_map (foldl add_pair ∅ (host_order pairs)) r.

(** [tls::boot]: what it does to the shared resolver, and the ALPN list offered. *)
Inductive BootError := CertFile | KeyFile | BadPair (e : CertError).

Definition seed_from (read_file : bytes → option bytes) (sources : TlsSources) (r : Resolver)
    : result BootError Resolver :=
  match sources with
  | SrcIngress => Ok r
  | SrcStatic cert key | SrcStaticWithIngress cert key =>
      cert_pem ← ok_or (read_file cert) CertFile;
      key_pem ← ok_or (read_file key) KeyFile;
      match seed_fallback {| tp_cert_pem := cert_pem; tp_key_pem := key_pem |} r with
      | Ok r => Ok r
      | Err e => Err (BadPair e)
      end
  end.

Definition alpn_protocols (http1_only : bool) : list bytes :=
  if http1_only then [bs "http/1.1"] else [bs "h2"; bs "http/1.1"].

Definition boot_listener (read_file : bytes → option bytes) (sources : TlsSources)
    (http1_only : bool) (r : Resolver) : result BootError (Resolver * list bytes) :=
  r ← seed_from read_file sources r;
  Ok (r, alpn_protocols http1_only).

(** * Theorems *)

Lemma host_order_elem pairs h p : (h, p) ∈ host_order pairs ↔ pairs !! h = Some p.
Proof. unfold host_order. rewrite sort_by_perm. apply elem_of_map_to_list. Qed.

(** For a table whose names are already lowercase. *)
Lemma add_pairs_lookup l next h :
  NoDup l.*1 → Forall (λ e, to_ascii_lowercase e.1 = e.1) l →
  foldl add_pair next l !! h =
    match list_to_map (M := gmap bytes TlsPair) l !! h ≫= λ p, match certified_key p with Ok k => Some k | Err _ => None end with
    | Some k => Some k
    | None => next !! h
    end.
Proof.
  revert next. induction l as [|[h' p] l IH]; intros next Hd Hf; [done|].
  apply NoDup_cons in Hd as [Hn Hd]. inversion Hf as [|? ? Hh Hf']; subst. simpl in Hh, Hn. simpl.
  rewrite IH by done. unfold add_pair. simpl. rewrite Hh.
  destruct (decide (h = h')) as [->|Hne].
  - rewrite lookup_insert_eq. simpl.
    rewrite (not_elem_of_list_to_map_1 (M := gmap bytes) l h') by done. simpl.
    destruct (certified_key p); [by rewrite lookup_insert_eq|done].
  - rewrite (lookup_insert_ne (list_to_map l)) by done.
    destruct (_ ≫= _); [done|]. destruct (certified_key p); [by rewrite lookup_insert_ne|done].
Qed.

(** What each server name gets after a publication of lowercase hosts. *)
Lemma published_lookup pairs r name :
  (∀ h p, pairs !! h = Some p → to_ascii_lowercase h = h) →
  lookup_cert (Some name) (update_from_tls_pairs pairs r).2 =
    match pairs !! to_ascii_lowercase name with
    | Some p => match certified_key p with Ok k => Some k | Err _ => rv_fallback r end
    | None => rv_fallback r
    end.
Proof.
  intros Hl. unfold lookup_cert, update_from_tls_pairs, store_map. simpl.
  rewrite add_pairs_lookup.
  - assert (list_to_map (host_order pairs) = pairs) as ->.
    { rewrite <-(list_to_map_to_list pairs) at 2. apply list_to_map_proper; [|apply sort_by_perm].
      unfold host_order. rewrite sort_by_perm. apply NoDup_fst_map_to_list. }
    rewrite lookup_empty. destruct (pairs !! to_ascii_lowercase name) as [p|]; [|done]. simpl.
    by destruct (certified_key p).
  - unfold host_order. rewrite sort_by_perm. apply NoDup_fst_map_to_list.
  - apply Forall_forall. intros [h p] Hin. apply host_order_elem in Hin. by apply (Hl h p).
Qed.

End resolver.

(** * The accept path *)

(** [accept_tls]: the mode the negotiated ALPN value picks. *)
Definition negotiated_mode (alpn : option bytes) : option ProtoMode :=
  match alpn with
  | Some p => if bool_decide (p = bs "h2") then Some ForceHttp2
              else if bool_decide (p = bs "http/1.1") then Some Auto else None
  | None => None
  end.

(** The mode [serve_listener] serves an accepted connection with. *)
Definition conn_mode (http1_only : bool) (alpn : option bytes) : ProtoMode :=
  default (proto_mode http1_only) (negotiated_mode alpn).

(** An HTTP/1-only TLS listener whose client negotiates [http/1.1], the one value
    it offers, is served by sniffing, so an HTTP/2 preface is accepted on it;
    without ALPN it is not. *)
Lemma http1_only_alpn_sniffs :
  conn_mode true (Some (bs "http/1.1")) = Auto ∧ conn_mode true None = ForceHttp1 ∧
  alpn_protocols true = [bs "http/1.1"].
Proof. done. Qed.

(** The last static pair seeded is the fallback, not the first. *)
Lemma last_static_pair_wins {Cert Key} (k1 k2 : @CertifiedKey Cert Key) r :
  lookup_cert None (store_fallback k2 (store_fallback k1 r)) = Some k2.
Proof. done. Qed.
