(* ===== verification/Ingress.v ===== *)
(** The Kubernetes ingress plane: objects, rendering into routes, upstreams and
    certificates, composition with the static configuration, and the apply step
    ([openrusty-k8s/src/model/ingress.rs], [secret.rs], [render/*.rs],
    [openrusty-server/src/ingress/mod.rs]).

    Base64 is a parameter. *)

From S2P Require Import Prelude Text Net Swap Config Upstream Health Client Registry Peer Runtime Snapshot Certs.
From Stdlib Require Import ZArith Lia.
From stdpp Require Import options.
Local Open Scope Z_scope.

(** * Objects *)

Record ServiceBackendPort := { sp_name : option bytes; sp_number : option Z }.
Record IngressServiceBackend := { sb_name : bytes; sb_port : option ServiceBackendPort }.
Record IngressBackend := { ib_service : option IngressServiceBackend }.

Inductive PathType := ImplementationSpecific | PathPrefix | PathExact.

#[global] Instance path_type_eq_dec : EqDecision PathType.
Proof. solve_decision. Defined.

Record HttpIngressPath := { hp_path : bytes; hp_path_type : PathType; hp_backend : IngressBackend }.
Record HttpIngressRuleValue := { hv_paths : list HttpIngressPath }.
Record IngressRule := { ir_host : option bytes; ir_http : option HttpIngressRuleValue }.
Record IngressTls := { it_hosts : list bytes; it_secret_name : option bytes }.

Record IngressSpec := {
  sc_ingress_class_name : option bytes;
  sc_default_backend : option IngressBackend;
  sc_tls : list IngressTls;
  sc_rules : list IngressRule;
}.

Record Ingress := { ig_metadata : ObjectMeta; ig_spec : IngressSpec }.

#[export] Instance ingress_meta : ResourceMeta Ingress := {
  rm_namespace i := om_namespace (ig_metadata i);
  rm_name i := om_name (ig_metadata i);
  rm_resource_version i := om_resource_version (ig_metadata i);
}.

Definition TLS_TYPE : bytes := bs "kubernetes.io/tls".

Record Secret := { se_metadata : ObjectMeta; se_type : option bytes; se_data : gmap bytes bytes }.

#[export] Instance secret_meta : ResourceMeta Secret := {
  rm_namespace s := om_namespace (se_metadata s);
  rm_name s := om_name (se_metadata s);
  rm_resource_version s := om_resource_version (se_metadata s);
}.

(** * Errors and keys *)

Inductive RenderError :=
| BadPath (owner path : bytes)
| ServiceMissing (owner : bytes)
| BackendPortMissing (owner ns svc : bytes)
| NamedPort (owner ns svc port : bytes)
| SecretMissing (owner ns name : bytes)
| SecretNotTls (owner ns name ty : bytes)
| SecretPem (owner ns name field : bytes)
| TlsHostConflict (host a b : bytes).

Definition normalize_host (host : bytes) : bytes := to_ascii_lowercase (trim host).

Record RouteKey := { rk_host : option bytes; rk_path_prefix : bytes; rk_exact : bool }.

#[global] Instance route_key_eq_dec : EqDecision RouteKey.
Proof. solve_decision. Defined.

#[global] Instance route_key_countable : Countable RouteKey :=
  inj_countable' (λ k, (rk_host k, rk_path_prefix k, rk_exact k))
    (λ '(h, p, e), {| rk_host := h; rk_path_prefix := p; rk_exact := e |})
    ltac:(by intros []).

(** [RouteKey::of]. *)
Definition key_of (r : RouteConfig) : RouteKey := {|
  rk_host := normalize_host <$> rt_host r;
  rk_path_prefix := rt_path_prefix r;
  rk_exact := rt_exact r;
|}.

(** * Merge *)

Record Conflict := { cf_key : RouteKey; cf_a : bytes; cf_b : bytes }.

(** The closure [check], from index [i]. *)
Fixpoint check_routes (label : bytes) (i : Z) (routes : list RouteConfig) (seen : gmap RouteKey bytes)
    : result Conflict (gmap RouteKey bytes) :=
  match routes with
  | [] => Ok seen
  | route :: routes =>
      let key := key_of route in
      let here := label ++ bs "[" ++ fmt_dec i ++ bs "]" in
      match seen !! key with
      | Some there => Err {| cf_key := key; cf_a := there; cf_b := here |}
      | None => check_routes label (i + 1) routes (<[key := here]> seen)
      end
  end.

Definition merge (static_routes rendered : list RouteConfig) : result Conflict (list RouteConfig) :=
  seen ← check_routes (bs "static") 0 static_routes ∅;
  seen ← check_routes (bs "rendered") 0 rendered seen;
  Ok (static_routes ++ rendered).

(** * Routes and upstreams *)

Definition upstream_name (ns svc : bytes) (port : Z) : bytes :=
  bs "ing-" ++ ns ++ bs "-" ++ svc ++ bs "-" ++ fmt_dec port.

Definition endpoint (ns svc : bytes) (port : Z) : bytes :=
  svc ++ bs "." ++ ns ++ bs ".svc.cluster.local:" ++ fmt_dec port.

Abbreviation Target := (bytes * bytes * Z)%type.

Definition backend_target (owner ns : bytes) (b : IngressBackend) : result RenderError Target :=
  service ← ok_or (ib_service b) (ServiceMissing owner);
  port ← ok_or (sb_port service) (BackendPortMissing owner ns (sb_name service));
  match sp_number port with
  | Some number => Ok (ns, sb_name service, number)
  | None => Err (NamedPort owner ns (sb_name service) (default [] (sp_name port)))
  end.

Definition owner_label (k : ObjKey) : bytes := bs "ingress " ++ k.1 ++ bs "/" ++ k.2.

(** Class-matching objects, in key order. *)
Definition owned (snap : Snapshot Ingress) (ingress_class : bytes) : list (bytes * Ingress) :=
  map (λ e, (owner_label e.1, e.2))
    (filter (λ e, sc_ingress_class_name (ig_spec e.2) = Some ingress_class) (snapshot_iter snap)).

Definition target_route (path_prefix : bytes) (host : option bytes) (exact : bool) (t : Target)
    : RouteConfig := {|
  rt_path_prefix := path_prefix; rt_host := host; rt_exact := exact;
  rt_upstream := upstream_name t.1.1 t.1.2 t.2; rt_timeout_ms := 0;
|}.

Definition path_route (owner ns : bytes) (host : option bytes) (p : HttpIngressPath)
    : result RenderError RouteConfig :=
  guard_err (negb (starts_with (bs "/") (hp_path p))) (BadPath owner (hp_path p));;
  t ← backend_target owner ns (hp_backend p);
  Ok (target_route (hp_path p) host (bool_decide (hp_path_type p = PathExact)) t).

Definition rule_paths (r : IngressRule) : list HttpIngressPath := from_option hv_paths [] (ir_http r).

Definition rule_routes (owner ns : bytes) (r : IngressRule) : result RenderError (list RouteConfig) :=
  mapM (path_route owner ns (normalize_host <$> ir_host r)) (rule_paths r).

Definition default_route (owner ns : bytes) (b : option IngressBackend)
    : result RenderError (list RouteConfig) :=
  match b with
  | None => Ok []
  | Some b => t ← backend_target owner ns b; Ok [target_route (bs "/") None false t]
  end.

Definition ingress_routes (e : bytes * Ingress) : result RenderError (list RouteConfig) :=
  let ns := om_namespace (ig_metadata e.2) in
  d ← default_route e.1 ns (sc_default_backend (ig_spec e.2));
  rs ← mapM (rule_routes e.1 ns) (sc_rules (ig_spec e.2));
  Ok (d ++ concat rs).

Definition render_routes (snap : Snapshot Ingress) (ingress_class : bytes)
    : result RenderError (list RouteConfig) :=
  rs ← mapM ingress_routes (owned snap ingress_class);
  Ok (concat rs).

Definition backends (i : Ingress) : list IngressBackend :=
  option_list (sc_default_backend (ig_spec i)) ++
  (sc_rules (ig_spec i) ≫= λ r, hp_backend <$> rule_paths r).

Definition ingress_targets (e : bytes * Ingress) : result RenderError (list Target) :=
  mapM (backend_target e.1 (om_namespace (ig_metadata e.2))) (backends e.2).

(** The order of the [BTreeSet] of targets. *)
Definition target_leb (a b : Target) : bool :=
  if bool_decide (a.1.1 = b.1.1) then
    if bool_decide (a.1.2 = b.1.2) then a.2 <=? b.2 else bytes_leb a.1.2 b.1.2
  else bytes_leb a.1.1 b.1.1.

Definition build_upstream (t : Target) : UpstreamConfig := {|
  uc_name := upstream_name t.1.1 t.1.2 t.2;
  uc_balancer := Swrr;
  uc_retries := 0;
  uc_retry_on_timeout := false;
  uc_connect_timeout_ms := 2000;
  uc_pool_idle_timeout_ms := 60000;
  uc_peers := [];
  uc_endpoints := [endpoint t.1.1 t.1.2 t.2];
  uc_tls := None;
  uc_health := {| hc_max_fails := 0; hc_fail_window_s := hc_fail_window_s default_health;
                  hc_fail_timeout_s := hc_fail_timeout_s default_health;
                  hc_active := hc_active default_health |};
|}.

Definition render_upstreams (snap : Snapshot Ingress) (ingress_class : bytes)
    : result RenderError (list UpstreamConfig) :=
  ts ← mapM ingress_targets (owned snap ingress_class);
  Ok (map build_upstream (sort_by target_leb (remove_dups (concat ts)))).

(** * Certificates *)

Section tls.
Context (base64 : bytes → option bytes).

(** [decode_field]; the reasons of a failure are not kept. *)
Definition decode_field (s : Secret) (field : bytes) : result () (option bytes) :=
  match se_data s !! field with
  | None => Ok None
  | Some value =>
      decoded ← ok_or (base64 value) ();
      guard_err (negb (valid_utf8 decoded)) ();;
      Ok (Some decoded)
  end.

Definition decode_tls_secret (owner : bytes) (s : Secret) : result RenderError TlsPair :=
  let ns := om_namespace (se_metadata s) in
  let name := om_name (se_metadata s) in
  let fail field := SecretPem owner ns name field in
  let required field :=
    match decode_field s field with
    | Ok (Some pem) => Ok pem
    | _ => Err (fail field)
    end in
  guard_err (negb (bool_decide (se_type s = Some TLS_TYPE)))
    (SecretNotTls owner ns name (default [] (se_type s)));;
  cert ← required (bs "tls.crt");
  key ← required (bs "tls.key");
  guard_err (is_blank cert) (fail (bs "tls.crt"));;
  guard_err (is_blank key) (fail (bs "tls.key"));;
  Ok {| tp_cert_pem := cert; tp_key_pem := key |}.

(** The maps [out] and [claims]. *)
Abbreviation Claims := (gmap bytes TlsPair * gmap bytes bytes)%type.

Fixpoint claim_hosts (claim : bytes) (pair : TlsPair) (hosts : list bytes) (acc : Claims)
    : result RenderError Claims :=
  match hosts with
  | [] => Ok acc
  | host :: hosts =>
      let key := normalize_host host in
      if bool_decide (key = []) then claim_hosts claim pair hosts acc
      else
        match acc.1 !! key with
        | Some existing =>
            if bool_decide (existing = pair)
            then claim_hosts claim pair hosts (<[key := pair]> acc.1, acc.2)
            else Err (TlsHostConflict key (default [] (acc.2 !! key)) claim)
        | None => claim_hosts claim pair hosts (<[key := pair]> acc.1, <[key := claim]> acc.2)
        end
  end.

Fixpoint claim_sections (secrets : Snapshot Secret) (ns owner : bytes) (sections : list IngressTls)
    (acc : Claims) : result RenderError Claims :=
  match sections with
  | [] => Ok acc
  | tls :: sections =>
      match it_secret_name tls with
      | None => claim_sections secrets ns owner sections acc
      | Some secret_name =>
          secret ← ok_or (snapshot_get ns secret_name secrets) (SecretMissing owner ns secret_name);
          pair ← decode_tls_secret owner secret;
          let claim := owner ++ bs " (secret " ++ ns ++ bs "/" ++ secret_name ++ bs ")" in
          acc ← claim_hosts claim pair (it_hosts tls) acc;
          claim_sections secrets ns owner sections acc
      end
  end.

Fixpoint claim_all (secrets : Snapshot Secret) (objs : list (ObjKey * Ingress)) (acc : Claims)
    : result RenderError Claims :=
  match objs with
  | [] => Ok acc
  | (k, i) :: objs =>
      acc ← claim_sections secrets k.1 (owner_label k) (sc_tls (ig_spec i)) acc;
      claim_all secrets objs acc
  end.

Definition of_class (ingress_class : bytes) (snap : Snapshot Ingress) : list (ObjKey * Ingress) :=
  filter (λ e, sc_ingress_class_name (ig_spec e.2) = Some ingress_class) (snapshot_iter snap).

Definition render_tls (ingresses : Snapshot Ingress) (secrets : Snapshot Secret)
    (ingress_class : bytes) : result RenderError (gmap bytes TlsPair) :=
  acc ← claim_all secrets (of_class ingress_class ingresses) (∅, ∅);
  Ok acc.1.
End tls.

(** * The apply side *)

Definition INGRESS_API : bytes := bs "/apis/networking.k8s.io/v1".
Definition SECRET_API : bytes := bs "/api/v1".
Definition TLS_SECRET_SELECTOR : bytes := bs "fieldSelector=type%3Dkubernetes.io%2Ftls".

Definition resource_paths (api resource query : bytes) (namespaces : list bytes) : list bytes :=
  let tail := if bool_decide (query = []) then resource else resource ++ bs "?" ++ query in
  if bool_decide (namespaces = []) then [api ++ bs "/" ++ tail]
  else map (λ ns, api ++ bs "/namespaces/" ++ ns ++ bs "/" ++ tail) namespaces.

Definition ingress_paths (namespaces : list bytes) : list bytes :=
  resource_paths INGRESS_API (bs "ingresses") [] namespaces.

Definition secret_paths (namespaces : list bytes) : list bytes :=
  resource_paths SECRET_API (bs "secrets") TLS_SECRET_SELECTOR namespaces.

(** [fold_slot]: store the hand-over of loop [index], merge all slots. *)
Definition fold_slot {T} `{ResourceMeta T} (slots : list (option (Snapshot T))) (index : nat)
    (incoming : Snapshot T) : exec (Snapshot T * list (option (Snapshot T))) :=
  if bool_decide (index < length slots)%nat then
    let slots := <[index := Some incoming]> slots in
    let items := omap id slots ≫= λ snap, snd <$> snapshot_iter snap in
    Ret (replace_from_list items (sn_resource_version incoming), slots)
  else Panic.

Definition build_ingress_config (base : Config) (routes : list RouteConfig)
    (rendered : list UpstreamConfig) : Config := {|
  cf_server := cf_server base; cf_admin := cf_admin base; cf_plugins := cf_plugins base;
  cf_dynamic := cf_dynamic base;
  cf_upstreams := cf_upstreams base ++
    filter (λ u, uc_name u ∉ uc_name <$> cf_upstreams base) rendered;
  cf_routes := routes;
  cf_ingress := cf_ingress base; cf_egress := cf_egress base;
|}.

(** * Merging *)

Definition labelled (label : bytes) (i : Z) : bytes := label ++ bs "[" ++ fmt_dec i ++ bs "]".

(** The claims [check_routes] leaves: each key seen has the label of its first
    holder. *)
Fixpoint claimed (label : bytes) (i : Z) (routes : list RouteConfig) : list (RouteKey * bytes) :=
  match routes with
  | [] => []
  | r :: routes => (key_of r, labelled label i) :: claimed label (i + 1) routes
  end.

Lemma claimed_keys label i routes : (claimed label i routes).*1 = key_of <$> routes.
Proof. revert i. induction routes as [|r routes IH]; intros i; [done|]. simpl. by rewrite IH. Qed.

Lemma check_routes_spec label i routes l :
  NoDup l.*1 →
  match check_routes label i routes (list_to_map l) with
  | Ok seen => seen = list_to_map (l ++ claimed label i routes) ∧
      NoDup (l ++ claimed label i routes).*1
  | Err c => ∃ pre r post, routes = pre ++ r :: post ∧
      NoDup (l ++ claimed label i pre).*1 ∧ cf_key c = key_of r ∧
      (cf_key c, cf_a c) ∈ l ++ claimed label i pre ∧
      cf_b c = labelled label (i + Z.of_nat (length pre))
  end.
Proof.
  revert i l. induction routes as [|r routes IH]; intros i l Hl; simpl.
  { by rewrite app_nil_r. }
  destruct (list_to_map l !! key_of r) as [there|] eqn:E.
  - apply elem_of_list_to_map_2 in E. exists [], r, routes. simpl.
    rewrite app_nil_r, Z.add_0_r. done.
  - apply not_elem_of_list_to_map_2 in E.
    assert (NoDup (l ++ [(key_of r, labelled label i)]).*1) as Hl'.
    { rewrite fmap_app. apply NoDup_app. split_and!; [done| |apply NoDup_singleton].
      intros k Hk Hk'%list_elem_of_singleton. simpl in Hk'. by subst. }
    specialize (IH (i + 1) (l ++ [(key_of r, labelled label i)]) Hl').
    assert (<[key_of r := labelled label i]> (list_to_map l) =
      list_to_map (l ++ [(key_of r, labelled label i)]) :> gmap RouteKey bytes) as Hm.
    { rewrite list_to_map_snoc; [done|done]. }
    change (label ++ _) with (labelled label i). rewrite Hm.
    destruct (check_routes label (i + 1) routes _) as [seen|c].
    + rewrite <-app_assoc in IH. done.
    + destruct IH as (pre & r' & post & -> & Hn & Hk & Ha & Hb).
      exists (r :: pre), r', post. rewrite <-app_assoc in Hn, Ha. split_and!; try done.
      rewrite Hb. f_equal. simpl. lia.
Qed.

(** All routes with their labels, in merge order. *)
Definition all_claims (static_routes rendered : list RouteConfig) : list (RouteKey * bytes) :=
  claimed (bs "static") 0 static_routes ++ claimed (bs "rendered") 0 rendered.

Lemma merge_ok static_routes rendered l :
  merge static_routes rendered = Ok l ↔
    NoDup (key_of <$> static_routes ++ rendered) ∧ l = static_routes ++ rendered.
Proof.
  unfold merge. pose proof (check_routes_spec (bs "static") 0 static_routes [] (NoDup_nil_2)) as H1.
  change (list_to_map []) with (∅ : gmap RouteKey bytes) in H1.
  destruct (check_routes _ _ static_routes _) as [seen|c]; simpl.
  - destruct H1 as [-> Hn]. simpl in Hn |- *.
    pose proof (check_routes_spec (bs "rendered") 0 rendered _ Hn) as H2.
    destruct (check_routes _ _ rendered _) as [seen|c]; simpl.
    + destruct H2 as [-> Hn2]. rewrite fmap_app, !claimed_keys, <-fmap_app in Hn2.
      split; [by intros [= <-]|by intros [_ ->]].
    + split; [done|]. intros [Hd _]. destruct H2 as (pre & r & post & -> & Hn2 & Hk & Ha & _).
      rewrite Hk in Ha. apply (list_elem_of_fmap_2 fst) in Ha. simpl in Ha.
      rewrite fmap_app, !claimed_keys, <-fmap_app in Ha.
      rewrite app_assoc, fmap_app in Hd. apply NoDup_app in Hd as (_ & Hx & _).
      exfalso. apply (Hx (key_of r)); [done|by left].
  - split; [done|]. intros [Hd _]. destruct H1 as (pre & r & post & -> & Hn2 & Hk & Ha & _).
    rewrite Hk in Ha. apply (list_elem_of_fmap_2 fst) in Ha. simpl in Ha. rewrite claimed_keys in Ha.
    rewrite <-app_assoc, fmap_app in Hd. apply NoDup_app in Hd as (_ & Hx & _).
    exfalso. apply (Hx (key_of r)); [done|by left].
Qed.

(** * Rendering *)

Lemma mapM_ok {E A B} (f : A → result E B) l k :
  mapM f l = Ok k ↔ Forall2 (λ x y, f x = Ok y) l k.
Proof.
  revert k. induction l as [|x l IH]; intros k; simpl.
  { split; [intros [= <-]; constructor|]. intros H. by inversion H. }
  rewrite bind_ok. setoid_rewrite bind_ok. setoid_rewrite IH. split.
  - intros (y & Hy & ys & Hys & [= <-]). by constructor.
  - intros H. inversion H; subst. eauto 10.
Qed.

Lemma mapM_elem_r {E A B} (f : A → result E B) l k y :
  mapM f l = Ok k → y ∈ k → ∃ x, x ∈ l ∧ f x = Ok y.
Proof.
  rewrite mapM_ok. intros H Hy. induction H as [|x y' l k Hx H IH]; [by apply elem_of_nil in Hy|].
  apply elem_of_cons in Hy as [->|Hy]; [exists x; split; [by left|done]|].
  destruct (IH Hy) as (x' & ? & ?). exists x'. split; [by right|done].
Qed.

Lemma mapM_elem_l {E A B} (f : A → result E B) l k x :
  mapM f l = Ok k → x ∈ l → ∃ y, y ∈ k ∧ f x = Ok y.
Proof.
  rewrite mapM_ok. intros H Hx. induction H as [|x' y l k Hxy H IH]; [by apply elem_of_nil in Hx|].
  apply elem_of_cons in Hx as [->|Hx]; [exists y; split; [by left|done]|].
  destruct (IH Hx) as (y' & ? & ?). exists y'. split; [by right|done].
Qed.

Lemma elem_of_concat {A} (x : A) ls : x ∈ concat ls ↔ ∃ l, l ∈ ls ∧ x ∈ l.
Proof.
  rewrite list_elem_of_In, in_concat. setoid_rewrite list_elem_of_In. naive_solver.
Qed.

(** [r] is what a backend of a class-matching object renders to, and [t] the
    service it names. *)
Definition rendered_for (snap : Snapshot Ingress) (class : bytes) (r : RouteConfig) (t : Target)
    : Prop :=
  ∃ k i b, sn_items snap !! k = Some i ∧ sc_ingress_class_name (ig_spec i) = Some class ∧
    b ∈ backends i ∧ backend_target (owner_label k) (om_namespace (ig_metadata i)) b = Ok t ∧
    t.1.1 = om_namespace (ig_metadata i) ∧
    rt_upstream r = upstream_name t.1.1 t.1.2 t.2 ∧
    ((sc_default_backend (ig_spec i) = Some b ∧ rt_host r = None ∧ rt_path_prefix r = bs "/" ∧
      rt_exact r = false) ∨
     ∃ rule p, rule ∈ sc_rules (ig_spec i) ∧ p ∈ rule_paths rule ∧ hp_backend p = b ∧
       rt_host r = normalize_host <$> ir_host rule ∧ rt_path_prefix r = hp_path p ∧
       starts_with (bs "/") (hp_path p) = true ∧
       rt_exact r = bool_decide (hp_path_type p = PathExact)).

(** [t] is the service some backend of a class-matching object names. *)
Definition target_of (snap : Snapshot Ingress) (class : bytes) (t : Target) : Prop :=
  ∃ k i b, sn_items snap !! k = Some i ∧ sc_ingress_class_name (ig_spec i) = Some class ∧
    b ∈ backends i ∧ backend_target (owner_label k) (om_namespace (ig_metadata i)) b = Ok t.

Lemma rendered_target snap class r t : rendered_for snap class r t → target_of snap class t.
Proof. intros (k & i & b & ? & ? & ? & ? & _). by exists k, i, b. Qed.

Lemma owned_elem snap class l i :
  (l, i) ∈ owned snap class →
  ∃ k, l = owner_label k ∧ sn_items snap !! k = Some i ∧ sc_ingress_class_name (ig_spec i) = Some class.
Proof.
  unfold owned. intros ([k i'] & [= -> ->] & Hin)%list_elem_of_fmap.
  apply list_elem_of_filter in Hin as [Hc Hin]. apply snapshot_iter_elem in Hin. by exists k.
Qed.

Lemma backend_target_ns owner ns b t : backend_target owner ns b = Ok t → t.1.1 = ns.
Proof.
  unfold backend_target. intros (s & _ & H)%bind_ok. apply bind_ok in H as (p & _ & H).
  destruct (sp_number p); [|done]. by injection H as <-.
Qed.

Lemma render_routes_elem snap class routes r :
  render_routes snap class = Ok routes → r ∈ routes → ∃ t, rendered_for snap class r t.
Proof.
  unfold render_routes. intros (rs & Hrs & [= <-])%bind_ok (l & Hl & Hr)%elem_of_concat.
  destruct (mapM_elem_r _ _ _ _ Hrs Hl) as ([ow i] & Hin & Hi).
  apply owned_elem in Hin as (k & -> & Hk & Hc). unfold ingress_routes in Hi. simpl in Hi.
  apply bind_ok in Hi as (d & Hd & Hi). apply bind_ok in Hi as (rrs & Hrrs & [= <-]).
  apply elem_of_app in Hr as [Hr|Hr].
  - unfold default_route in Hd. destruct (sc_default_backend _) as [b|] eqn:Eb.
    + apply bind_ok in Hd as (t & Ht & [= <-]). apply list_elem_of_singleton in Hr as ->.
      exists t, k, i, b. split_and!; try done; [unfold backends; rewrite Eb; by left| |by left].
      by eapply backend_target_ns.
    + injection Hd as <-. by apply elem_of_nil in Hr.
  - apply elem_of_concat in Hr as (l' & Hl' & Hr).
    destruct (mapM_elem_r _ _ _ _ Hrrs Hl') as (rule & Hrule & Hrr).
    destruct (mapM_elem_r _ _ _ _ Hrr Hr) as (p & Hp & Hpr). unfold path_route in Hpr.
    apply bind_ok in Hpr as ([] & Hg & Hpr). apply guard_err_ok, negb_false_iff in Hg.
    apply bind_ok in Hpr as (t & Ht & [= <-]). exists t, k, i, (hp_backend p).
    split_and!; try done; [|by eapply backend_target_ns|].
    + unfold backends. apply elem_of_app. right. apply list_elem_of_bind. exists rule.
      split; [|done]. apply list_elem_of_fmap. by exists p.
    + right. by exists rule, p.
Qed.

(** Every backend of a class-matching object has its upstream. *)
Lemma render_upstreams_elem snap class ups k i b t :
  render_upstreams snap class = Ok ups → sn_items snap !! k = Some i →
  sc_ingress_class_name (ig_spec i) = Some class → b ∈ backends i →
  backend_target (owner_label k) (om_namespace (ig_metadata i)) b = Ok t →
  build_upstream t ∈ ups.
Proof.
  unfold render_upstreams. intros (ts & Hts & [= <-])%bind_ok Hk Hc Hb Ht.
  apply list_elem_of_fmap. exists t. split; [done|]. rewrite sort_by_perm.
  apply elem_of_remove_dups, elem_of_concat.
  destruct (mapM_elem_l ingress_targets (owned snap class) ts (owner_label k, i)) as (l & Hl & Hil); [done| |].
  - unfold owned. apply list_elem_of_fmap. exists (k, i). split; [done|].
    apply list_elem_of_filter. split; [done|]. by apply snapshot_iter_elem.
  - exists l. split; [done|]. unfold ingress_targets in Hil. simpl in Hil.
    destruct (mapM_elem_l _ _ _ b Hil Hb) as (t' & Ht' & He). congruence.
Qed.

Lemma render_upstreams_source snap class ups u :
  render_upstreams snap class = Ok ups → u ∈ ups →
  ∃ t, u = build_upstream t ∧ target_of snap class t.
Proof.
  unfold render_upstreams. intros (ts & Hts & [= <-])%bind_ok Hu.
  apply list_elem_of_fmap in Hu as (t & -> & Ht). exists t. split; [done|].
  rewrite sort_by_perm in Ht. apply elem_of_remove_dups, elem_of_concat in Ht as (l & Hl & Ht).
  destruct (mapM_elem_r _ _ _ _ Hts Hl) as ([ow i] & Hin & Hi).
  apply owned_elem in Hin as (k & -> & Hk & Hc). unfold ingress_targets in Hi. simpl in Hi.
  destruct (mapM_elem_r _ _ _ _ Hi Ht) as (b & Hb & Hbt). by exists k, i, b.
Qed.

(** ** Certificates *)

Lemma exists_cons {A} (P : A → Prop) a l :
  (∃ x, x ∈ a :: l ∧ P x) ↔ P a ∨ ∃ x, x ∈ l ∧ P x.
Proof.
  setoid_rewrite elem_of_cons. split.
  - intros (x & [->|?] & ?); [by left|right; by exists x].
  - intros [?|(x & ? & ?)]; [exists a; auto|exists x; auto].
Qed.

Lemma claim_hosts_spec claim pair hosts acc acc' :
  claim_hosts claim pair hosts acc = Ok acc' →
  ∀ h p, acc'.1 !! h = Some p ↔
    acc.1 !! h = Some p ∨ (p = pair ∧ h ≠ [] ∧ h ∈ normalize_host <$> hosts).
Proof.
  revert acc. induction hosts as [|host hosts IH]; intros acc; simpl.
  { intros [= ->] h p. split; [by left|]. intros [?|(_ & _ & Hn)]; [done|]. by apply elem_of_nil in Hn. }
  case_bool_decide as Hk.
  { intros H h p. rewrite (IH _ H). rewrite elem_of_cons. split; [naive_solver|].
    intros [?|(? & ? & [->|?])]; [by left|done|by right]. }
  assert (∀ a2, claim_hosts claim pair hosts (<[normalize_host host := pair]> acc.1, a2) = Ok acc' →
    (∀ p, acc.1 !! normalize_host host = Some p → p = pair) →
    ∀ h p, acc'.1 !! h = Some p ↔
      acc.1 !! h = Some p ∨ (p = pair ∧ h ≠ [] ∧ h ∈ normalize_host host :: (normalize_host <$> hosts)))
    as Hadd.
  { intros a2 H Hsame h p. rewrite (IH _ H), elem_of_cons. simpl.
    destruct (decide (h = normalize_host host)) as [->|Hne].
    - rewrite lookup_insert_eq. split; [naive_solver|].
      intros [Hp|(-> & _ & _)]; [left; by rewrite (Hsame p Hp)|by left].
    - rewrite lookup_insert_ne by done. naive_solver. }
  destruct (acc.1 !! normalize_host host) as [ex|] eqn:E; [|intros H; by apply (Hadd _ H)].
  case_bool_decide as Heq; [|done]. intros H. apply (Hadd _ H). intros p [= ->]. done.
Qed.

Section tls_claims.
Context (base64 : bytes → option bytes).

(** A TLS section of a class-matching object claims host [h] with [pair]. *)
Definition section_claim (secrets : Snapshot Secret) (ns owner : bytes) (tls : IngressTls)
    (h : bytes) (pair : TlsPair) : Prop :=
  h ≠ [] ∧ h ∈ normalize_host <$> it_hosts tls ∧
  ∃ name secret, it_secret_name tls = Some name ∧ snapshot_get ns name secrets = Some secret ∧
    decode_tls_secret base64 owner secret = Ok pair.

Definition tls_claim (class : bytes) (ingresses : Snapshot Ingress) (secrets : Snapshot Secret)
    (h : bytes) (pair : TlsPair) : Prop :=
  ∃ k i tls, sn_items ingresses !! k = Some i ∧ sc_ingress_class_name (ig_spec i) = Some class ∧
    tls ∈ sc_tls (ig_spec i) ∧ section_claim secrets k.1 (owner_label k) tls h pair.

Lemma claim_sections_spec secrets ns owner sections acc acc' :
  claim_sections base64 secrets ns owner sections acc = Ok acc' →
  ∀ h p, acc'.1 !! h = Some p ↔
    acc.1 !! h = Some p ∨ ∃ tls, tls ∈ sections ∧ section_claim secrets ns owner tls h p.
Proof.
  revert acc. induction sections as [|tls sections IH]; intros acc; simpl.
  { intros [= ->] h p. split; [by left|]. intros [?|(? & ?%elem_of_nil & _)]; done. }
  destruct (it_secret_name tls) as [name|] eqn:En.
  - intros (secret & Hs & H)%bind_ok. apply bind_ok in H as (pair & Hp & H).
    apply bind_ok in H as (acc1 & H1 & H). intros h p. rewrite exists_cons, (IH _ H), (claim_hosts_spec _ _ _ _ _ H1).
    destruct (snapshot_get ns name secrets) as [secret'|] eqn:Eg; [|done]. injection Hs as ->.
    assert (section_claim secrets ns owner tls h p ↔ p = pair ∧ h ≠ [] ∧ h ∈ normalize_host <$> it_hosts tls)
      as ->; [|tauto].
    unfold section_claim. split.
    + intros (? & ? & n & s & Hn & Hg & Hd). rewrite En in Hn. injection Hn as <-. split_and!; [|done..].
      rewrite Eg in Hg. injection Hg as <-. congruence.
    + intros (-> & ? & ?). split_and!; [done..|]. by exists name, secret.
  - intros H h p. rewrite exists_cons, (IH _ H).
    assert (¬ section_claim secrets ns owner tls h p) as Hc; [|tauto].
    intros (_ & _ & n & s & Hn & _). congruence.
Qed.

Lemma render_tls_spec ingresses secrets class out :
  render_tls base64 ingresses secrets class = Ok out →
  ∀ h p, out !! h = Some p ↔ tls_claim class ingresses secrets h p.
Proof.
  unfold render_tls. intros (acc & Ha & [= <-])%bind_ok h p.
  assert (∀ objs acc acc', claim_all base64 secrets objs acc = Ok acc' →
    acc'.1 !! h = Some p ↔ acc.1 !! h = Some p ∨
      ∃ k i tls, (k, i) ∈ objs ∧ tls ∈ sc_tls (ig_spec i) ∧ section_claim secrets k.1 (owner_label k) tls h p)
    as Hall.
  { clear. induction objs as [|[k i] objs IH]; intros acc acc'; simpl.
    { intros [= ->]. split; [by left|]. intros [?|(? & ? & ? & ?%elem_of_nil & _)]; done. }
    intros (acc1 & H1 & H)%bind_ok. rewrite (IH _ _ H), (claim_sections_spec _ _ _ _ _ _ H1).
    setoid_rewrite elem_of_cons. split.
    - intros [[?|(tls & ? & ?)]|(k' & i' & tls & ? & ? & ?)]; [by left|right..].
      + exists k, i, tls. auto.
      + exists k', i', tls. auto.
    - intros [?|(k' & i' & tls & [[= -> ->]|?] & ? & ?)]; [by left; left|left; right; by exists tls|].
      right. by exists k', i', tls. }
  rewrite (Hall _ _ _ Ha). simpl. rewrite lookup_empty. unfold tls_claim, of_class.
  setoid_rewrite list_elem_of_filter. setoid_rewrite snapshot_iter_elem. simpl. naive_solver.
Qed.

Lemma normalize_host_lower h : to_ascii_lowercase (normalize_host h) = normalize_host h.
Proof. apply to_ascii_lowercase_idemp. Qed.

Lemma tls_claim_lower class ingresses secrets h p :
  tls_claim class ingresses secrets h p → to_ascii_lowercase h = h.
Proof.
  intros (k & i & tls & _ & _ & _ & _ & Hh & _). apply list_elem_of_fmap in Hh as (h' & -> & _).
  apply normalize_host_lower.
Qed.
End tls_claims.

Section apply.
Context {Module_ Cert Key : Type}.
Context (base64 : bytes → option bytes).
Context (tio : TlsIo).
Context (lookup_host : bytes → option (list SocketAddr)).
Context (pem_certs : bytes → option (list Cert)) (pem_key : bytes → option (option bytes)).
Context (signing_key : bytes → option Key).

Abbreviation State := (@AppState Module_).
Abbreviation Certs_ := (@Resolver Cert Key).

(** Everything before the first [await]: the composed configuration, or the
    reason to keep the previous runtime. *)
Inductive ApplyError :=
| ApplyRender (e : RenderError)
| ApplyConflict (c : Conflict)
| ApplyTls (upstream : bytes) (e : TlsError).

Definition map_err {A E F} (f : E → F) (r : result E A) : result F A :=
  match r with Ok a => Ok a | Err e => Err (f e) end.

Definition compose (base : Config) (static_routes : list RouteConfig) (class : bytes)
    (pair : Snapshot Ingress * Snapshot Secret) : result ApplyError (Config * gmap bytes TlsPair) :=
  rendered_routes ← map_err ApplyRender (render_routes pair.1 class);
  rendered_upstreams ← map_err ApplyRender (render_upstreams pair.1 class);
  tls ← map_err ApplyRender (render_tls base64 pair.1 pair.2 class);
  merged ← map_err ApplyConflict (merge static_routes rendered_routes);
  Ok (build_ingress_config base merged rendered_upstreams, tls).

(** [apply_pair]; [others] is what happens while names resolve. *)
Definition apply_pair (others : State → State) (base : Config) (static_routes : list RouteConfig)
    (class : bytes) (pair : Snapshot Ingress * Snapshot Secret) (s : State) (certs : option Certs_)
    : exec (result ApplyError () * State * option Certs_) :=
  match compose base static_routes class pair with
  | Err e => Ret (Err e, s, certs)
  | Ok (cfg, tls) =>
      let cfg := resolve_config lookup_host cfg in
      let s := others s in
      match build_tls_plans tio cfg with
      | Err (name, e) => Ret (Err (ApplyTls name e), s, certs)
      | Ok plans =>
          s ← apply_runtime tio cfg (ps_generation (as_value (app_plugins s))) plans s;
          Ret (Ok (), s,
               (λ c, (update_from_tls_pairs pem_certs pem_key signing_key tls c).2) <$> certs)
      end
  end.
(** ** What an apply does *)

(** The composed configuration, declaratively. *)
Record composed (base : Config) (static_routes : list RouteConfig) (class : bytes)
    (pair : Snapshot Ingress * Snapshot Secret) (cfg : Config) (tls : gmap bytes TlsPair) : Prop := {
  cd_routes : ∃ rendered, render_routes pair.1 class = Ok rendered ∧
    cf_routes cfg = static_routes ++ rendered ∧
    NoDup (key_of <$> cf_routes cfg) ∧
    ∀ r, r ∈ rendered → ∃ t, rendered_for pair.1 class r t ∧
      rt_upstream r ∈ uc_name <$> cf_upstreams cfg ∧
      (rt_upstream r ∉ uc_name <$> cf_upstreams base → build_upstream t ∈ cf_upstreams cfg);
  cd_upstreams : ∃ l, cf_upstreams cfg = cf_upstreams base ++ l ∧
    ∀ u, u ∈ l → (∃ t, u = build_upstream t ∧ target_of pair.1 class t) ∧ uc_name u ∉ uc_name <$> cf_upstreams base;
  cd_rest : cf_server cfg = cf_server base ∧ cf_admin cfg = cf_admin base ∧
    cf_plugins cfg = cf_plugins base ∧ cf_dynamic cfg = cf_dynamic base ∧
    cf_ingress cfg = cf_ingress base ∧ cf_egress cfg = cf_egress base;
  cd_tls : ∀ h p, tls !! h = Some p ↔ tls_claim base64 class pair.1 pair.2 h p;
}.

Lemma map_err_ok {A E F} (f : E → F) (r : result E A) a : map_err f r = Ok a ↔ r = Ok a.
Proof. destruct r; simpl; split; congruence. Qed.

Lemma compose_spec base static_routes class pair cfg tls :
  compose base static_routes class pair = Ok (cfg, tls) →
  composed base static_routes class pair cfg tls.
Proof.
  unfold compose. intros (rr & Hrr%map_err_ok & H)%bind_ok. apply bind_ok in H as (ru & Hru%map_err_ok & H).
  apply bind_ok in H as (tl & Htl%map_err_ok & H). apply bind_ok in H as (mr & Hmr%map_err_ok & [= <- <-]).
  apply merge_ok in Hmr as [Hnd ->]. split; simpl; [| |done|by apply render_tls_spec].
  - exists rr. split_and!; [done|done|done|]. intros r Hr.
    destruct (render_routes_elem _ _ _ _ Hrr Hr) as (t & Ht). exists t. split; [done|].
    destruct Ht as (k & i & b & Hk & Hc & Hb & Hbt & _ & Hu & _).
    pose proof (render_upstreams_elem _ _ _ _ _ _ _ Hru Hk Hc Hb Hbt) as Hin.
    assert (rt_upstream r ∉ uc_name <$> cf_upstreams base →
      build_upstream t ∈ cf_upstreams base ++ filter (λ u, uc_name u ∉ uc_name <$> cf_upstreams base) ru) as Hnew.
    { intros Hn. apply elem_of_app. right. apply list_elem_of_filter. simpl. by rewrite <-Hu. }
    split; [|done]. destruct (decide (rt_upstream r ∈ uc_name <$> cf_upstreams base)) as [Ho|Hn].
    + rewrite fmap_app. apply elem_of_app. by left.
    + rewrite Hu. apply (list_elem_of_fmap_2 uc_name _ (build_upstream t)). by apply Hnew.
  - eexists. split; [done|]. intros u [Hn Hu]%list_elem_of_filter. split; [|done].
    by eapply render_upstreams_source.
Qed.

(** Where an apply panics: a client it needs is missing and has a server name that
    does not parse. *)
Definition apply_stuck (others : State → State) (base : Config) (static_routes : list RouteConfig)
    (class : bytes) (pair : Snapshot Ingress * Snapshot Secret) (s : State) : Prop :=
  ∃ cfg tls plans, compose base static_routes class pair = Ok (cfg, tls) ∧
    build_tls_plans tio (resolve_config lookup_host cfg) = Ok plans ∧
    unbuildable (ti_name_ok tio) (planned plans <$> cf_upstreams (resolve_config lookup_host cfg))
      (app_pool (others s)).

(** Rendered upstreams have no TLS. *)
Lemma composed_names base static_routes class pair cfg tls :
  compose base static_routes class pair = Ok (cfg, tls) → names_parse tio base → names_parse tio cfg.
Proof.
  intros Hc%compose_spec Hn uc tc Hin Htc. destruct (cd_upstreams _ _ _ _ _ _ Hc) as (l & Hl & Hr).
  rewrite Hl in Hin. apply elem_of_app in Hin as [Hin|Hin]; [by eapply Hn|].
  by destruct (Hr _ Hin) as [(t & -> & _) _].
Qed.

Lemma apply_pair_panics others base static_routes class pair s certs :
  apply_pair others base static_routes class pair s certs = Panic ↔
  apply_stuck others base static_routes class pair s.
Proof.
  unfold apply_pair, apply_stuck. destruct (compose _ _ _ _) as [[cfg tls]|e].
  2:{ split; [done|]. by intros (? & ? & ? & ? & _). }
  destruct (build_tls_plans _ _) as [plans|[name e]] eqn:Epl; cycle 1.
  { split; [done|]. intros (? & ? & ? & [= <- <-] & ? & _). congruence. }
  pose proof (proj2 (apply_runtime_cases tio (resolve_config lookup_host cfg)
    (ps_generation (as_value (app_plugins (others s)))) plans (others s) (plans_named tio _ _ Epl))) as Hp.
  destruct (apply_runtime _ _ _ _ _) as [s1|]; split.
  - done.
  - intros (? & ? & ? & [= <- <-] & Hx & Hu). rewrite Epl in Hx. injection Hx as <-. by apply Hp in Hu.
  - intros _. exists cfg, tls, plans. split_and!; [done|done|by apply Hp].
  - done.
Qed.

(** C25. An ingress apply is all or nothing and sound.  Any render error, route
    conflict or bad TLS material leaves the runtime and the certificates exactly
    as they were.  Otherwise the runtime published is the composition: the static
    routes then the rendered ones, no two with the same host, path and match kind,
    every rendered route that of a declared path or default backend of a
    class-matching Ingress and naming a configured upstream; the static upstreams
    kept; everything else of the base unchanged; at the current plugin generation.
    The certificates then answer each server name with the pair its claiming TLS
    section names, and with the static fallback when no section claims it or the
    claimed pair holds no usable key.  The one exception to all or nothing: the
    apply panics, having registered the health slots of the upstreams before it,
    exactly when it got as far as building clients and needs one that is not pooled
    and whose TLS server name does not parse; it never does when the server names
    of the static upstreams all parse. *)
Theorem ingress_apply_exact (others : State → State) (base : Config) (static_routes : list RouteConfig)
    (class : bytes) (pair : Snapshot Ingress * Snapshot Secret) (s : State) (certs : option Certs_) :
  match apply_pair others base static_routes class pair s certs with
  | Panic => True
  | Ret (Err e, s', certs') => certs' = certs ∧
      match e with
      | ApplyTls name te => s' = others s ∧ ∃ cfg tls, compose base static_routes class pair = Ok (cfg, tls) ∧
          build_tls_plans tio (resolve_config lookup_host cfg) = Err (name, te)
      | _ => s' = s ∧ compose base static_routes class pair = Err e
      end
  | Ret (Ok _, s', certs') => ∃ cfg tls plans, composed base static_routes class pair cfg tls ∧
      build_tls_plans tio (resolve_config lookup_host cfg) = Ok plans ∧
      runtime_ready (resolve_config lookup_host cfg) (ps_generation (as_value (app_plugins s'))) plans
        (others s) s' ∧
      s' = set_runtime (app_health s') (app_pool s') (as_value (app_runtime s')) (others s) ∧
      (certs = None → certs' = None) ∧
      ∀ c name, certs = Some c → ∃ c', certs' = Some c' ∧ rv_fallback c' = rv_fallback c ∧
        (∀ p, tls_claim base64 class pair.1 pair.2 (to_ascii_lowercase name) p →
           lookup_cert (Some name) c' =
             match certified_key pem_certs pem_key signing_key p with
             | Ok key => Some key
             | Err _ => rv_fallback c
             end) ∧
        ((∀ p, ¬ tls_claim base64 class pair.1 pair.2 (to_ascii_lowercase name) p) →
           lookup_cert (Some name) c' = rv_fallback c)
  end ∧
  (apply_pair others base static_routes class pair s certs = Panic ↔
     apply_stuck others base static_routes class pair s) ∧
  (names_parse tio base → apply_pair others base static_routes class pair s certs ≠ Panic).
Proof.
  split; [|split; [apply apply_pair_panics|]]; cycle 1.
  { intros Hn (cfg & tls & plans & Hc & Hb & Hu)%apply_pair_panics.
    eapply names_parse_buildable; [|exact Hb|exact Hu]. eapply resolved_names, composed_names; done. }
  unfold apply_pair. destruct (compose _ _ _ _) as [[cfg tls]|e] eqn:Ec; cycle 1.
  { split; [done|]. destruct e; try done. exfalso.
    unfold compose in Ec. destruct (render_routes _ _); [simpl in Ec|done].
    destruct (render_upstreams _ _); [simpl in Ec|done]. destruct (render_tls _ _ _ _); [simpl in Ec|done].
    by destruct (merge _ _). }
  destruct (build_tls_plans _ _) as [plans|[name e]] eqn:Epl; cycle 1.
  { split; [done|]. split; [done|]. by exists cfg, tls. }
  apply compose_spec in Ec.
  pose proof (proj1 (apply_runtime_cases tio (resolve_config lookup_host cfg)
    (ps_generation (as_value (app_plugins (others s)))) plans (others s) (plans_named tio _ _ Epl))) as Hr.
  destruct (apply_runtime _ _ _ _ _) as [s1|]; [|done]. destruct Hr as [Hr Hs].
  exists cfg, tls, plans. split; [done|]. split; [done|].
  split; [|split; [done|split; [by intros ->|]]].
  { assert (app_plugins s1 = app_plugins (others s)) as -> by (by rewrite Hs). done. }
  intros c name ->. eexists. split; [done|]. split; [done|].
  assert (∀ h p, tls !! h = Some p → to_ascii_lowercase h = h) as Hlow.
  { intros h p Hp. eapply tls_claim_lower. by apply (cd_tls _ _ _ _ _ _ Ec). }
  split.
  - intros p Hp%(cd_tls _ _ _ _ _ _ Ec). rewrite published_lookup by done. by rewrite Hp.
  - intros Hn. rewrite published_lookup by done.
    destruct (tls !! to_ascii_lowercase name) as [p|] eqn:Ep; [|done].
    exfalso. apply (Hn p). by apply (cd_tls _ _ _ _ _ _ Ec).
Qed.

(** Rendered routes reach their own service.  When no two services of the
    rendered objects share an upstream name and no static upstream has one of
    these names, the upstream the published runtime finds for a rendered route is
    the one that dials exactly the service its backend names, in the Ingress's own
    namespace. *)
Theorem ingress_routes_reach_backends (base : Config) (static_routes : list RouteConfig)
    (class : bytes) (pair : Snapshot Ingress * Snapshot Secret) (cfg : Config)
    (tls : gmap bytes TlsPair) (r : RouteConfig) (t : Target) :
  compose base static_routes class pair = Ok (cfg, tls) →
  (∀ t t', target_of pair.1 class t → target_of pair.1 class t' →
     upstream_name t.1.1 t.1.2 t.2 = upstream_name t'.1.1 t'.1.2 t'.2 → t = t') →
  (∀ t, target_of pair.1 class t → upstream_name t.1.1 t.1.2 t.2 ∉ uc_name <$> cf_upstreams base) →
  r ∈ cf_routes cfg → rendered_for pair.1 class r t →
  ∃ up, named (rt_upstream r) (cf_upstreams cfg) = Some up ∧
    uc_endpoints up = [endpoint t.1.1 t.1.2 t.2] ∧ uc_peers up = [] ∧ uc_tls up = None ∧
    ∃ k i, sn_items pair.1 !! k = Some i ∧ t.1.1 = om_namespace (ig_metadata i) ∧
      sc_ingress_class_name (ig_spec i) = Some class.
Proof.
  intros Hc Hinj Hfree Hin Hr. unfold compose in Hc.
  apply bind_ok in Hc as (rr & Hrr%map_err_ok & H). apply bind_ok in H as (ru & Hru%map_err_ok & H).
  apply bind_ok in H as (tl & _ & H). apply bind_ok in H as (mr & _ & [= <- <-]). simpl.
  pose proof (rendered_target _ _ _ _ Hr) as Ht.
  destruct Hr as (k & i & b & Hk & Hcl & Hb & Hbt & Hns & Hu & _).
  pose proof (render_upstreams_elem _ _ _ _ _ _ _ Hru Hk Hcl Hb Hbt) as Hup.
  exists (build_upstream t). split_and!; [|done..|by exists k, i].
  destruct (named (rt_upstream r) _) as [u|] eqn:En.
  - apply named_name in En as [Hn Hu']. apply elem_of_app in Hu' as [Hu'|Hu'].
    + exfalso. apply (Hfree t Ht). rewrite <-Hu, <-Hn. by apply list_elem_of_fmap_2.
    + apply list_elem_of_filter in Hu' as [_ Hu'].
      destruct (render_upstreams_source _ _ _ _ Hru Hu') as (t' & -> & Ht').
      f_equal. f_equal. apply Hinj; [done|done|]. simpl in Hn. congruence.
  - exfalso. unfold named in En. apply last_None in En.
    assert (build_upstream t ∈ filter (λ uc, uc_name uc = rt_upstream r)
      (cf_upstreams base ++ filter (λ u, uc_name u ∉ uc_name <$> cf_upstreams base) ru)) as Hx.
    { apply list_elem_of_filter. split; [done|]. apply elem_of_app. right.
      apply list_elem_of_filter. split; [by apply Hfree|done]. }
    rewrite En in Hx. by apply elem_of_nil in Hx.
Qed.

End apply.

(** * A concrete cluster *)

Definition ex_meta (ns name rv : string) : ObjectMeta := {|
  om_name := bs name; om_namespace := bs ns; om_resource_version := bs rv; om_annotations := ∅ |}.

Definition ex_backend (svc : string) (p : Z) : IngressBackend := {|
  ib_service := Some {| sb_name := bs svc;
                        sb_port := Some {| sp_name := None; sp_number := Some p |} |} |}.

Definition ex_ingress (ns name host path svc : string) (tls : list IngressTls) : Ingress := {|
  ig_metadata := ex_meta ns name "1";
  ig_spec := {|
    sc_ingress_class_name := Some (bs "openrusty"); sc_default_backend := None; sc_tls := tls;
    sc_rules := [{| ir_host := Some (bs host); ir_http := Some {| hv_paths :=
      [{| hp_path := bs path; hp_path_type := PathExact; hp_backend := ex_backend svc 80 |}] |} |}] |} |}.

Definition ex_secret : Secret := {|
  se_metadata := ex_meta "shop" "cert" "1"; se_type := Some TLS_TYPE;
  se_data := {[bs "tls.crt" := bs "CERT"; bs "tls.key" := bs "KEY"]} |}.

Definition ex_pair : Snapshot Ingress * Snapshot Secret :=
  (replace_from_list [ex_ingress "shop" "web" "Shop.Example" "/buy" "cart"
     [{| it_hosts := [bs "Shop.Example"]; it_secret_name := Some (bs "cert") |}]] (bs "1"),
   replace_from_list [ex_secret] (bs "1")).

Definition ex_base : Config := with_upstreams [ex_up "u" 9001] (ex_config []).

Definition ex_static : list RouteConfig :=
  [{| rt_path_prefix := bs "/"; rt_host := None; rt_exact := false; rt_upstream := bs "u";
      rt_timeout_ms := 0 |}].

(** One apply on the example gateway: PEMs are their own certificate and key. *)
Definition ex_apply (pair : Snapshot Ingress * Snapshot Secret) :=
  apply_pair (Module_ := ()) (Cert := bytes) (Key := bytes) Some ex_tls_io (λ _, None)
    (λ c, Some [c]) (λ k, Some (Some k)) Some id ex_base ex_static (bs "openrusty") pair ex_state
    (Some resolver_new).

(** What the example apply should leave. *)
Definition ex_applied (r : result ApplyError ()) (s : AppState (Module_ := ()))
    (certs : option (@Resolver bytes bytes)) : bool :=
  let rt := as_value (app_runtime s) in
  is_ok r && bool_decide (length (rs_routes rt) = 2%nat) &&
  bool_decide (is_Some (rs_upstreams rt !! bs "ing-shop-cart-80")) &&
  bool_decide ((c ← certs; lookup_cert (Some (bs "SHOP.example")) c) = Some ([bs "CERT"], bs "KEY")) &&
  bool_decide ((c ← certs; lookup_cert (Some (bs "other")) c) = None).

Lemma ingress_apply_exact_witness :
  ∃ r s' certs', ex_apply ex_pair = Ret (r, s', certs') ∧ ex_applied r s' certs' = true ∧
    rs_generation (as_value (app_runtime s')) = ps_generation (as_value (app_plugins s')).
Proof.
  pose proof (ingress_apply_exact (Module_ := ()) (Cert := bytes) (Key := bytes) Some ex_tls_io
    (λ _, None) (λ c, Some [c]) (λ k, Some (Some k)) Some id ex_base ex_static
    (bs "openrusty") ex_pair ex_state (Some resolver_new)) as (H & _).
  fold (ex_apply ex_pair) in H.
  assert (match ex_apply ex_pair with Ret (r, s, c) => ex_applied r s c | Panic => false end = true) as Ht
    by (vm_compute; reflexivity).
  destruct (ex_apply ex_pair) as [[[r s'] certs']|]; [|discriminate Ht].
  exists r, s', certs'. split; [reflexivity|]. split; [exact Ht|].
  destruct r as [u|e]; [|discriminate Ht].
  destruct H as (cfg & tls & plans & _ & _ & Hr & _). apply Hr.
Defined.

#[local] Instance RouteConfig_eq_dec : EqDecision RouteConfig.
Proof. solve_decision. Defined.

Lemma ingress_routes_reach_backends_witness :
  ∃ cfg tls, compose Some ex_base ex_static (bs "openrusty") ex_pair = Ok (cfg, tls) ∧
    ∃ up, named (bs "ing-shop-cart-80") (cf_upstreams cfg) = Some up ∧
      uc_endpoints up = [bs "cart.shop.svc.cluster.local:80"].
Proof.
  assert (∀ t, target_of ex_pair.1 (bs "openrusty") t → t = (bs "shop", bs "cart", 80)) as Hone.
  { intros t (k & i & b & Hk & _ & Hb & Ht). unfold ex_pair in Hk. simpl fst in Hk.
    rewrite replace_from_list_lookup, filter_cons, filter_nil in Hk. case_decide as Hko; [|done].
    injection Hk as <-. subst k. apply list_elem_of_singleton in Hb as ->. by injection Ht as <-. }
  set (r := target_route (bs "/buy") (Some (bs "shop.example")) true (bs "shop", bs "cart", 80)).
  assert (match compose Some ex_base ex_static (bs "openrusty") ex_pair with
          | Ok (cfg, _) => bool_decide (r ∈ cf_routes cfg) | Err _ => false end = true) as Ht
    by (vm_compute; reflexivity).
  destruct (compose Some ex_base ex_static (bs "openrusty") ex_pair) as [[cfg tls]|e] eqn:Hc; [|done].
  apply bool_decide_eq_true in Ht as Hin. clear Ht.
  exists cfg, tls. split; [reflexivity|].
  destruct (ingress_routes_reach_backends Some ex_base ex_static (bs "openrusty") ex_pair cfg tls r
    (bs "shop", bs "cart", 80) Hc) as (up & Hn & He & _).
  - intros t t' Ht%Hone Ht'%Hone _. by subst.
  - intros t ->%Hone. apply (bool_decide_unpack (_ ∉ _)). vm_compute. reflexivity.
  - exact Hin.
  - exists (bs "shop", bs "web"), (ex_ingress "shop" "web" "Shop.Example" "/buy" "cart"
       [{| it_hosts := [bs "Shop.Example"]; it_secret_name := Some (bs "cert") |}]), (ex_backend "cart" 80).
    split_and!; try reflexivity; [left|]. right. eexists _, _. split; [left|]. split; [left|].
    split_and!; vm_compute; reflexivity.
  - exists up. split; [exact Hn|exact He].
Defined.

(** Upstream names join namespace and service with the character both may
    contain: two Ingresses of different namespaces get one name, the rendered
    configuration is not validated again, the later upstream counts for both, and
    the first namespace's route is answered by the other's service. *)
Lemma cross_namespace_upstream_clash :
  let snap := replace_from_list [ex_ingress "a" "web" "a.example" "/" "b-c" [];
                                 ex_ingress "a-b" "web" "b.example" "/" "c" []] (bs "1") in
  match compose Some ex_base ex_static (bs "openrusty") (snap, snapshot_new) with
  | Ok (cfg, _) =>
      let route := target_route (bs "/") (Some (bs "a.example")) true (bs "a", bs "b-c", 80) in
      route ∈ cf_routes cfg ∧
      uc_endpoints <$> named (rt_upstream route) (cf_upstreams cfg) = Some [bs "c.a-b.svc.cluster.local:80"]
  | Err _ => False
  end.
Proof. vm_compute. split; [|reflexivity]. right. left. Qed.

(** A static upstream of a rendered name takes the rendered route over. *)
Lemma static_upstream_shadows :
  match compose Some (with_upstreams [ex_up "ing-shop-cart-80" 9001] (ex_config [])) [] (bs "openrusty") ex_pair with
  | Ok (cfg, _) => (uc_endpoints <$> named (bs "ing-shop-cart-80") (cf_upstreams cfg)) = Some [] ∧
      length (cf_routes cfg) = 1%nat
  | Err _ => False
  end.
Proof. by vm_compute. Qed.
