(* ===== verification/DynExec.v ===== *)
(** The dynamic execution API: the per-request resolution of single modules with
    its compile cache and singleflight ([openrusty-wasm/src/dynamic.rs]), the
    synthesized one-plugin pipeline, and the responses built from it
    ([openrusty-server/src/dynamic_api.rs]).

    Resolution is a machine: requests are threads whose steps interleave with each
    other and with changes of the module directory.  The directory is a timeline
    of file states; what wasmtime makes of a file's content is a parameter. *)

From S2P Require Import Prelude Text Net Phase Config Context HostState Abi Linker Session.
From S2P Require Import Swap Registry DynRoutes Shortcut.
From Stdlib Require Import ZArith Lia.
From stdpp Require Import gmap options.
Local Open Scope Z_scope.

Definition MAX_NAME_LEN : nat := 128.

Definition valid_name (name : bytes) : bool :=
  if bool_decide (name = []) || (MAX_NAME_LEN <? length name)%nat then false
  else match name with
       | [] => false
       | c :: rest =>
           is_ascii_alphanumeric c &&
           forallb (λ c, is_ascii_alphanumeric c || bool_decide (c ∈ bs "._-")) rest
       end.

Inductive ResolveError := InvalidName | NotFound.

Inductive ResolveFail :=
| FailResolve (e : ResolveError)
| FailBuild (detail : bytes).

(** [file_version]: seconds and nanoseconds of the modification time, size. *)
Abbreviation Version := (Z * Z * Z)%type.

Record File := { fl_version : Version; fl_content : bytes }.

(** The regular files [<dir>/<name>.wasm] by name. *)
Abbreviation Disk := (bytes → option File).

Definition file_version (d : Disk) (name : bytes) : option Version := fl_version <$> d name.

(** * Resolution *)

Section resolve.
Context {Module_ : Type}.
Context (prepare : bytes → result bytes (Module_ * bool)).  (* compile and validate content *)

Abbreviation Plugin := (@Loaded Module_).

Record DynamicRegistry := {
  dg_cfg : DynamicConfig;
  dg_cache : gmap bytes (Version * Plugin);
  dg_gates : gset bytes;                  (* names whose gate is held *)
  dg_states : gmap bytes nat;             (* the shared state of each name *)
  dg_compiled : Z;
  dg_store : States;
}.

Definition new_registry (cfg : DynamicConfig) (store : States) : DynamicRegistry := {|
  dg_cfg := cfg; dg_cache := ∅; dg_gates := ∅; dg_states := ∅; dg_compiled := 0; dg_store := store |}.

Definition set_cache (c : gmap bytes (Version * Plugin)) (g : DynamicRegistry) : DynamicRegistry := {|
  dg_cfg := dg_cfg g; dg_cache := c; dg_gates := dg_gates g; dg_states := dg_states g;
  dg_compiled := dg_compiled g; dg_store := dg_store g |}.
Definition set_gates (x : gset bytes) (g : DynamicRegistry) : DynamicRegistry := {|
  dg_cfg := dg_cfg g; dg_cache := dg_cache g; dg_gates := x; dg_states := dg_states g;
  dg_compiled := dg_compiled g; dg_store := dg_store g |}.

(** [compile_file]: read, compile, validate. *)
Definition compile_file (d : Disk) (name : bytes) : result bytes (Module_ * bool) :=
  match d name with
  | None => Err (bs "read " ++ name ++ bs ".wasm")
  | Some f => prepare (fl_content f)
  end.

(** The cached plugin of a version. *)
Definition cached (name : bytes) (v : Version) (g : DynamicRegistry) : option Plugin :=
  match dg_cache g !! name with
  | Some (v', p) => if bool_decide (v' = v) then Some p else None
  | None => None
  end.

(** What [resolve] does with a finished compile: count it, then state, plugin
    and cache entry, and the gate is dropped. *)
Definition finish_build (name : bytes) (v : Version) (r : result bytes (Module_ * bool))
    (g : DynamicRegistry) : result ResolveFail Plugin * DynamicRegistry :=
  let gates := dg_gates g ∖ {[name]} in
  let compiled := wrap 64 (dg_compiled g + 1) in
  match r with
  | Err e =>
      (Err (FailBuild e),
       {| dg_cfg := dg_cfg g; dg_cache := dg_cache g; dg_gates := gates; dg_states := dg_states g;
          dg_compiled := compiled; dg_store := dg_store g |})
  | Ok (m, dealloc) =>
      let '(st, store) := match dg_states g !! name with
                          | Some st => (st, dg_store g)
                          | None => new_state name (dg_store g)
                          end in
      let p := {| ld_name := name; ld_module := m; ld_state := st;
                  ld_settings := default ∅ (dy_settings (dg_cfg g) !! name);
                  ld_timeout := dy_timeout_ms (dg_cfg g);
                  ld_fail_policy := dy_on_failure (dg_cfg g);
                  ld_memory_mb := dy_max_memory_mb (dg_cfg g); ld_has_dealloc := dealloc |} in
      (Ok p,
       {| dg_cfg := dg_cfg g; dg_cache := <[name := (v, p)]> (dg_cache g); dg_gates := gates;
          dg_states := <[name := st]> (dg_states g); dg_compiled := compiled; dg_store := store |})
  end.

(** Where a request is in [resolve]. *)
Inductive Thread :=
| ThStart (name : bytes)
| ThEvict (name : bytes)                              (* the file is gone *)
| ThLookup (name : bytes) (v : Version)
| ThGate (name : bytes) (v : Version)                 (* waits for the gate *)
| ThRecheck (name : bytes) (v : Version)              (* holds it *)
| ThCompile (name : bytes) (v : Version)              (* holds it, awaits the compiler *)
| ThBuilt (name : bytes) (v : Version) (r : result bytes (Module_ * bool))
| ThDone (name : bytes) (r : result ResolveFail Plugin).

(** One atomic action; [None]: the gate is taken, or the request is done. *)
Definition resolve_step (d : Disk) (t : Thread) (g : DynamicRegistry)
    : option (Thread * DynamicRegistry) :=
  match t with
  | ThStart name =>
      if negb (valid_name name) then Some (ThDone name (Err (FailResolve InvalidName)), g)
      else match file_version d name with
           | None => Some (ThEvict name, g)
           | Some v => Some (ThLookup name v, g)
           end
  | ThEvict name =>
      Some (ThDone name (Err (FailResolve NotFound)), set_cache (delete name (dg_cache g)) g)
  | ThLookup name v =>
      match cached name v g with
      | Some p => Some (ThDone name (Ok p), g)
      | None => Some (ThGate name v, g)
      end
  | ThGate name v =>
      if bool_decide (name ∈ dg_gates g) then None
      else Some (ThRecheck name v, set_gates ({[name]} ∪ dg_gates g) g)
  | ThRecheck name v =>
      match cached name v g with
      | Some p => Some (ThDone name (Ok p), set_gates (dg_gates g ∖ {[name]}) g)
      | None => Some (ThCompile name v, g)
      end
  | ThCompile name v => Some (ThBuilt name v (compile_file d name), g)
  | ThBuilt name v r =>
      let '(r, g) := finish_build name v r g in Some (ThDone name r, g)
  | ThDone _ _ => None
  end.

(** A request future dropped where it awaits gives its gate back. *)
Definition drop_thread (t : Thread) (g : DynamicRegistry) : option DynamicRegistry :=
  match t with
  | ThGate _ _ => Some g
  | ThCompile name _ => Some (set_gates (dg_gates g ∖ {[name]}) g)
  | _ => None
  end.


(** ** The machine *)

Context (disk : nat → Disk).               (* the module directory over time *)

(** A request carries the moment of its stat. *)
Record Machine := {
  mc_now : nat;
  mc_reg : DynamicRegistry;
  mc_threads : gmap nat (nat * Thread);
}.

Definition is_start (t : Thread) : bool := match t with ThStart _ => true | _ => false end.

Inductive machine_step (m : Machine) : Machine → Prop :=
| ms_arrive id name :
    mc_threads m !! id = None →
    machine_step m {| mc_now := mc_now m; mc_reg := mc_reg m;
                      mc_threads := <[id := (mc_now m, ThStart name)]> (mc_threads m) |}
| ms_act id since t t' g' :
    mc_threads m !! id = Some (since, t) →
    resolve_step (disk (mc_now m)) t (mc_reg m) = Some (t', g') →
    machine_step m {| mc_now := mc_now m; mc_reg := g';
      mc_threads := <[id := (if is_start t then mc_now m else since, t')]> (mc_threads m) |}
| ms_drop id since t g' :
    mc_threads m !! id = Some (since, t) → drop_thread t (mc_reg m) = Some g' →
    machine_step m {| mc_now := mc_now m; mc_reg := g'; mc_threads := delete id (mc_threads m) |}
| ms_tick :
    machine_step m {| mc_now := S (mc_now m); mc_reg := mc_reg m; mc_threads := mc_threads m |}.

Definition initial (cfg : DynamicConfig) (store : States) : Machine :=
  {| mc_now := 0; mc_reg := new_registry cfg store; mc_threads := ∅ |}.

(** [n] actions of one request in a row, from a directory that stays. *)
Fixpoint resolve_run (d : Disk) (n : nat) (t : Thread) (g : DynamicRegistry)
    : Thread * DynamicRegistry :=
  match n with
  | O => (t, g)
  | S n => match resolve_step d t g with
           | Some (t, g) => resolve_run d n t g
           | None => (t, g)
           end
  end.

(** An undisturbed request whose gate is free is answered in six actions. *)
Lemma resolve_finishes d name g :
  name ∉ dg_gates g → ∃ r g', resolve_run d 6 (ThStart name) g = (ThDone name r, g').
Proof using Type.
  intros Hg. cbn [resolve_run resolve_step].
  destruct (negb (valid_name name)); [by do 2 eexists|].
  destruct (file_version d name) as [v|]; cbn [resolve_run resolve_step]; [|by do 2 eexists].
  destruct (cached name v g) as [p|] eqn:Ec; cbn [resolve_run resolve_step]; [by do 2 eexists|].
  rewrite bool_decide_eq_false_2 by done. cbn [resolve_run resolve_step].
  change (cached name v (set_gates ({[name]} ∪ dg_gates g) g)) with (cached name v g). rewrite Ec.
  cbn [resolve_run resolve_step]. destruct (finish_build _ _ _ _) as [r g']. by do 2 eexists.
Qed.

Definition reachable (cfg : DynamicConfig) (store : States) (m : Machine) : Prop :=
  rtc machine_step (initial cfg store) m.

Lemma resolve_run_reachable cfg store n m id since t :
  reachable cfg store m → mc_threads m !! id = Some (since, t) → (is_start t = true → since = mc_now m) →
  let r := resolve_run (disk (mc_now m)) n t (mc_reg m) in
  ∃ m', reachable cfg store m' ∧ mc_now m' = mc_now m ∧ mc_reg m' = r.2 ∧
    mc_threads m' = <[id := (since, r.1)]> (mc_threads m).
Proof using Type.
  revert m t. induction n as [|n IH]; intros m t Hm Ht Hs; simpl; [exists m; by rewrite insert_id|].
  destruct (resolve_step (disk (mc_now m)) t (mc_reg m)) as [[t1 g1]|] eqn:E;
    [|exists m; by rewrite insert_id].
  set (m1 := {| mc_now := mc_now m; mc_reg := g1;
                mc_threads := <[id := (since, t1)]> (mc_threads m) |}).
  destruct (IH m1 t1) as (m' & Hr & Hn & Hg & Hth).
  - eapply rtc_r; [exact Hm|]. pose proof (ms_act m id since t t1 g1 Ht E) as Hact.
    destruct (is_start t); [|done]. unfold m1. by rewrite (Hs eq_refl).
  - apply lookup_insert_eq.
  - intros Hst. exfalso. destruct t; simpl in E; repeat case_match; simplify_eq; try done.
  - exists m'. split_and!; try done. rewrite Hth. apply insert_insert_eq.
Qed.

(** * Freshness *)








(** ** One action *)

















End resolve.

(** * A concrete request *)

Definition ex_section : DynamicConfig := {|
  dy_dir := bs "dynamic"; dy_timeout_ms := 50; dy_max_memory_mb := 16; dy_on_failure := FailOpen;
  dy_max_body_bytes := 1048576; dy_settings := ∅; dy_routes := [] |}.

Definition ex_store : States := {| sto_next := 0; sto_map := ∅ |}.


Definition ex_prepare (content : bytes) : result bytes (bytes * bool) := Ok (content, true).



(** A rewrite in place that keeps modification time and size. *)
Definition ex_same_version (k : nat) : Disk := λ name,
  if bool_decide (name = bs "m")
  then Some {| fl_version := (1, 0, 3); fl_content := if (k =? 0)%nat then bs "old" else bs "new" |}
  else None.

(** The second request arrives after the rewrite and gets the build of the content
    before it. *)
Lemma same_version_served_stale : ∃ m p,
  reachable ex_prepare ex_same_version ex_section ex_store m ∧
  mc_threads m !! 1%nat = Some (1%nat, ThDone (bs "m") (Ok p)) ∧
  ld_module p = bs "old" ∧ fl_content <$> ex_same_version 1 (bs "m") = Some (bs "new").
Proof.
  set (run := resolve_run_reachable ex_prepare ex_same_version ex_section ex_store 6).
  set (m0 := {| mc_now := 0; mc_reg := new_registry ex_section ex_store;
                mc_threads := {[0%nat := (0%nat, ThStart (bs "m"))]} |} : Machine (Module_ := bytes)).
  assert (reachable ex_prepare ex_same_version ex_section ex_store m0) as H0
    by (apply rtc_once, (ms_arrive ex_prepare ex_same_version (initial ex_section ex_store) 0 (bs "m")); done).
  destruct (run m0 0%nat 0%nat (ThStart (bs "m"))) as (m1 & H1 & Hn1 & Hg1 & Ht1);
    [done|apply lookup_singleton_eq|done|].
  set (m2 := {| mc_now := S (mc_now m1); mc_reg := mc_reg m1; mc_threads := mc_threads m1 |}).
  set (m3 := {| mc_now := mc_now m2; mc_reg := mc_reg m2;
                mc_threads := <[1%nat := (mc_now m2, ThStart (bs "m"))]> (mc_threads m2) |}).
  assert (reachable ex_prepare ex_same_version ex_section ex_store m3) as H3.
  { eapply rtc_r; [eapply rtc_r; [exact H1|apply ms_tick]|]. apply (ms_arrive _ _ m2).
    simpl. rewrite Ht1. reflexivity. }
  destruct (run m3 1%nat 1%nat (ThStart (bs "m"))) as (m4 & H4 & _ & _ & Ht4);
    [done|simpl; rewrite Hn1; apply lookup_insert_eq|simpl; by rewrite Hn1|].
  exists m4. eexists. split_and!; [done| | |reflexivity].
  - rewrite Ht4, lookup_insert_eq. simpl. rewrite Hg1, Hn1. vm_compute. reflexivity.
  - reflexivity.
Qed.

