(* ===== verification/DynApi.v ===== *)
(** The dynamic execution API as the server sees it: the synthesized one-plugin
    pipeline ([DynamicRegistry::invoke] of [openrusty-wasm/src/dynamic.rs]), the
    mapping of its outcome to a response ([openrusty-server/src/dynamic_api.rs]),
    the fallback that tries bindings before the proxy ([app.rs]) and the
    registration face ([dynamic_admin.rs]). *)

From S2P Require Import Prelude Text Net Phase Config Context Upstream Health Forward.
From S2P Require Import HostState Abi Linker Session Router Peer Shortcut Pipeline Gateway WebSocket.
From S2P Require Import Swap Registry DynRoutes DynExec.
From Stdlib Require Import ZArith Lia.
From stdpp Require Import gmap options.
Local Open Scope Z_scope.

Record DynOutcome := {
  do_status : Z;
  do_body : option bytes;
  do_headers : headers;
  do_error : option bytes;
}.

(** [failed]. *)
Definition failed (f : ResolveFail) : DynOutcome :=
  let '(status, error) := match f with
    | FailResolve InvalidName => (400, bs "invalid dynamic module name")
    | FailResolve NotFound => (404, bs "dynamic module not found")
    | FailBuild detail => (500, detail)
    end in
  {| do_status := status; do_body := None; do_headers := []; do_error := Some error |}.

Section invoke.
Context `{GuestMemory M} `{!Guest M}.
Context {Module_ : Type}.

(** The plugin as the session sees it. *)
Definition session_plugin (p : @Loaded Module_) : LoadedPlugin := {|
  lp_name := ld_name p; lp_fail_policy := ld_fail_policy p; lp_settings := ld_settings p |}.

Definition drain_edits (rt : PluginRt M) : PluginRt M :=
  let d := rt_data rt in {|
  rt_data := {| hd_ctx := hd_ctx d; hd_peers := hd_peers d; hd_settings := hd_settings d;
    hd_resp_edits := []; hd_req_edits := hd_req_edits d; hd_resp_headers := hd_resp_headers d;
    hd_resp_body := hd_resp_body d; hd_req_body := hd_req_body d;
    hd_body_chunk := hd_body_chunk d; hd_body_last := hd_body_last d |};
  rt_mem := rt_mem rt |}.

(** [take_header_edits]: every instance's edits, in plugin order. *)
Definition take_header_edits (s : Session M) : list HeaderEdit * Session M :=
  (concat (omap (option_map (λ rt, hd_resp_edits (rt_data rt))) (ss_rts s)),
   ss_set_runtime (ss_states s) (map (option_map drain_edits) (ss_rts s)) s).

Definition apply_header_edit (hs : headers) (e : HeaderEdit) : headers :=
  match e with EditSet name val => resp_set hs name val | EditDel name => del_header hs name end.

Definition final_headers (s : Session M) : headers * Session M :=
  let '(edits, s') := take_header_edits s in (foldl apply_header_edit (ss_resp_headers s) edits, s').

(** The phases before the response; a terminal decision fixes the status. *)
Fixpoint dyn_phases (phases : list Phase) (s : Session M) : option Z * Session M :=
  match phases with
  | [] => (None, s)
  | ph :: phases =>
      let '(d, s) := run_phase ph s in
      match d with
      | Deny status => (Some status, s)
      | Done => (Some (match carried_body s with Some _ => 200 | None => 204 end), s)
      | _ => dyn_phases phases s
      end
  end.

Definition NO_RESPONSE : bytes := bs "dynamic module produced no response".

(** [invoke], once the module is resolved; [st] is its shared state. *)
Definition run_dynamic (p : LoadedPlugin) (st : HostState) (ctx : ReqCtx) (body : bytes)
    : DynOutcome * Session M :=
  let s := set_req_body body (new_session [p] [st] ctx []) in
  let '(terminal, s) := dyn_phases [PostRead; Rewrite; Access; Content] s in
  let '(status, error) := match terminal with
                          | Some status => (status, None)
                          | None => (500, Some NO_RESPONSE)
                          end in
  let s := set_resp_headers (ss_resp_headers s) s in
  let s := (run_phase HeaderFilter s).2 in
  let s := (run_phase Phase.Log s).2 in
  let status := match carried_body s with
                | Some _ => if bool_decide (status = 204) then 200 else status
                | None => status
                end in
  let '(out_body, s) := take_resp_body s in
  let '(hs, s) := final_headers s in
  ({| do_status := status; do_body := out_body; do_headers := hs; do_error := error |}, s).

Definition invoke (r : result ResolveFail (@Loaded Module_)) (st : HostState) (ctx : ReqCtx)
    (body : bytes) : DynOutcome * option (Session M) :=
  match r with
  | Err f => (failed f, None)
  | Ok p => let '(o, s) := run_dynamic (session_plugin p) st ctx body in (o, Some s)
  end.

(** ** Responses *)

Context (header_name : bytes → option bytes) (header_value : bytes → option bytes).

Definition valid_status (st : Z) : bool := (100 <=? st) && (st <? 1000).

Definition outcome_response (o : DynOutcome) : Response :=
  match do_body o with
  | None | Some [] =>
      if bool_decide (do_status o = 204) then empty_response 204
      else text_response (do_status o) (status_line (do_status o))
  | Some body =>
      let has_content_type :=
        existsb (λ h, eq_ignore_ascii_case h.1 (bs "content-type")) (do_headers o) in
      if negb (valid_status (do_status o)) then text_response 500 (bs "500 bad response" ++ [x0a])
      else {| rs_status := do_status o;
              rs_headers := omap (plugin_header header_name header_value) (do_headers o) ++
                            (if has_content_type then [] else [text_type]);
              rs_body := body |}
  end.

(** [route_hit]. *)
Definition route_hit (section : option DynamicConfig) (table : DynRoutes.DynamicRoutes) (method path : bytes)
    : option bytes :=
  if is_some section then DynRoutes.lookup_route method path table else None.

Definition dynamic_ctx (rq : Request) : ReqCtx := {|
  rc_method := rq_method rq; rc_path := rq_path rq; rc_query := default [] (rq_query rq);
  rc_version := if rq_http2 rq then bs "HTTP/2" else bs "HTTP/1.1";
  rc_client_addr := rq_remote rq; rc_headers := visible_headers (rq_headers rq);
  rc_route_index := None; rc_upstream := None; rc_peer_index := None; rc_attempts := 0;
  rc_tried := [] |}.

(** [dispatch]: the response and the counter it bumps.  [buffered] is the body
    read under the section's cap, [resolved] what the registry answers. *)
Definition dispatch (section : option DynamicConfig) (name : bytes) (rq : Request)
    (buffered : option bytes) (resolved : result ResolveFail (@Loaded Module_)) (st : HostState)
    : Response * option (bytes * Z) :=
  match section with
  | None => (text_response 404 (bs "404 not found" ++ [x0a]), None)
  | Some _ =>
      match buffered with
      | None => (text_response 413 (bs "413 payload too large" ++ [x0a]), Some (name, 413))
      | Some body =>
          let o := (invoke resolved st (dynamic_ctx rq) body).1 in
          (outcome_response o, Some (name, do_status o))
      end
  end.

(** ** The fallback of the data plane *)

Context (uri_ok : bytes → bool) (show_status : Z → bytes).

(** A binding wins over the proxy's routes; only proxied requests are counted
    per route, under the label of the snapshot they were served with. *)
Inductive Answer :=
| Dispatched (module : bytes) (r : Response) (counted : option (bytes * Z))
| Proxied (sv : Served (M := M)) (label : bytes).

Definition proxied_label (sv : Served (M := M)) : bytes :=
  default (bs "unknown")
    (match sv with ServedHttp ha => ha_label ha | ServedWs label _ _ _ => label end).

Definition fallback (section : option DynamicConfig) (table : DynRoutes.DynamicRoutes) (gw : Gateway) (rq : Request)
    (buffered : option bytes) (resolved : bytes → result ResolveFail (@Loaded Module_))
    (st : bytes → HostState) (envs : nat → Attempt) : exec (option Answer) :=
  match route_hit section table (rq_method rq) (rq_path rq) with
  | Some module =>
      let '(r, counted) := dispatch section module rq buffered (resolved module) (st module) in
      Ret (Some (Dispatched module r counted))
  | None =>
      sv ← serve header_name header_value uri_ok show_status gw rq envs;
      Ret (match sv with Some sv => Some (Proxied sv (proxied_label sv)) | None => None end)
  end.

(** ** What an invocation answers *)

Lemma dyn_phases_spec phases s :
  match dyn_phases phases s with
  | (None, s') => passed phases s s'
  | (Some st, s') => ∃ pre ph post s1 d, phases = pre ++ ph :: post ∧ passed pre s s1 ∧
      run_phase ph s1 = (d, s') ∧
      (d = Deny st ∨ d = Done ∧ st = match carried_body s' with Some _ => 200 | None => 204 end)
  end.
Proof using Type.
  revert s. induction phases as [|ph phases IH]; intros s; cbn [dyn_phases]; [constructor|].
  destruct (run_phase ph s) as [d s1] eqn:E.
  assert (is_terminal d = false → match dyn_phases phases s1 with
    | (None, s') => passed (ph :: phases) s s'
    | (Some st, s') => ∃ pre ph' post s2 d, ph :: phases = pre ++ ph' :: post ∧ passed pre s s2 ∧
        run_phase ph' s2 = (d, s') ∧
        (d = Deny st ∨ d = Done ∧ st = match carried_body s' with Some _ => 200 | None => 204 end)
    end) as Hgo.
  { intros Ht. specialize (IH s1). destruct (dyn_phases phases s1) as [[st|] s'].
    - destruct IH as (pre & ph' & post & s2 & d' & -> & Hp & Hr & Hd).
      exists (ph :: pre), ph', post, s2, d'. split_and!; [done|by econstructor|done|done].
    - by econstructor. }
  destruct d as [| | |st]; try (by apply Hgo).
  - exists [], ph, phases, s, Done. split_and!; [done|constructor|done|by right].
  - exists [], ph, phases, s, (Deny st). split_and!; [done|constructor|done|by left].
Qed.

(** What the client gets for an outcome. *)
Definition answers (o : DynOutcome) (r : Response) : Prop :=
  (rs_status r = do_status o ∨ (valid_status (do_status o) = false ∧ rs_status r = 500)) ∧
  (do_status o = 204 → rs_body r = [] ∧ rs_headers r = []) ∧
  match do_body o with
  | Some ((_ :: _) as b) => valid_status (do_status o) = true →
      rs_body r = b ∧ ∃ ct, rs_headers r = omap (plugin_header header_name header_value) (do_headers o) ++ ct ∧
        (ct = [] ↔ existsb (λ h, eq_ignore_ascii_case h.1 (bs "content-type")) (do_headers o) = true)
  | _ => rs_body r = if bool_decide (do_status o = 204) then [] else status_line (do_status o)
  end.

Lemma outcome_answers o : (do_status o = 204 → do_body o = None) → answers o (outcome_response o).
Proof using Type.
  intros H204. unfold answers, outcome_response. destruct (do_body o) as [[|b bd]|] eqn:Eb.
  - assert (do_status o ≠ 204) by (intros E; specialize (H204 E); congruence).
    rewrite bool_decide_eq_false_2 by done. by split_and!; [left|intros|].
  - destruct (valid_status (do_status o)) eqn:Ev; simpl.
    + split_and!; [by left|intros E; specialize (H204 E); congruence|]. intros _. split; [done|].
      eexists. split; [reflexivity|]. by destruct (existsb _ _).
    + split_and!; [by right|intros E; specialize (H204 E); congruence|done].
  - case_bool_decide as E; [rewrite E; by split_and!; [left|intros|]|].
    by split_and!; [left|intros|].
Qed.

(** A dynamic module answers exactly what its phases decide.  Its phases run
    in order until the first terminal decision: a [Deny] gives its status, a
    [Done] 200 or, when no body was written by the end of the log phase, 204, no
    decision 500; the header filter and the log phase always run after, and what
    they write still counts.  The response has that status, the body written
    last and the module's headers that parse, without a content length of its
    own; a 204 has neither body nor headers. *)
Theorem dynamic_outcome_exact (p : LoadedPlugin) (st : HostState) (ctx : ReqCtx) (body : bytes) :
  let s0 := set_req_body body (new_session [p] [st] ctx []) in
  let o := (run_dynamic p st ctx body).1 in
  ∃ s1, let s2 := (run_phase Phase.Log (run_phase HeaderFilter s1).2).2 in
    ((passed [PostRead; Rewrite; Access; Content] s0 s1 ∧ do_status o = 500 ∧
        do_error o = Some NO_RESPONSE) ∨
     do_error o = None ∧
     ∃ pre ph post s d, [PostRead; Rewrite; Access; Content] = pre ++ ph :: post ∧
       passed pre s0 s ∧ run_phase ph s = (d, s1) ∧
       match d with
       | Done => do_status o = match carried_body s1, carried_body s2 with None, None => 204 | _, _ => 200 end
       | Deny c => do_status o = if bool_decide (c = 204 ∧ carried_body s2 ≠ None) then 200 else c
       | _ => False
       end) ∧
    do_body o = carried_body s2 ∧
    do_headers o = (final_headers (take_resp_body s2).2).1 ∧
    answers o (outcome_response o).
Proof using Type.
  intros s0. unfold run_dynamic. fold s0.
  pose proof (dyn_phases_spec [PostRead; Rewrite; Access; Content] s0) as Hs.
  destruct (dyn_phases _ s0) as [t s1]. exists s1.
  assert (set_resp_headers (ss_resp_headers s1) s1 = s1) as -> by by destruct s1.
  set (s2 := (run_phase Phase.Log (run_phase HeaderFilter s1).2).2).
  assert (∀ o, (∀ (c : Z), do_status o = match carried_body s2 with
      | Some _ => if bool_decide (c = 204) then 200 else c | None => c end →
      do_body o = carried_body s2 → do_status o = 204 → do_body o = None)) as H204.
  { intros o c Hc Hb E. rewrite Hb. destruct (carried_body s2); [|done]. case_bool_decide; congruence. }
  destruct t as [c|]; unfold take_resp_body; simpl.
  - destruct Hs as (pre & ph & post & s & d & Hp & Hpa & Hr & Hd). split_and!; try done.
    + right. split; [done|]. exists pre, ph, post, s, d. split_and!; [done..|].
      destruct Hd as [->|[-> ->]].
      * destruct (carried_body s2) as [x|].
        -- case_bool_decide as E; [by rewrite bool_decide_eq_true_2|].
           by rewrite bool_decide_eq_false_2 by (intros [? _]; done).
        -- by rewrite bool_decide_eq_false_2 by (intros [_ Hx]; by apply Hx).
      * destruct (carried_body s1), (carried_body s2); try case_bool_decide; done.
    + apply outcome_answers. by eapply H204.
  - split_and!; try done.
    + left. split_and!; [done| |done]. by destruct (carried_body s2).
    + apply outcome_answers. simpl. by destruct (carried_body s2).
Qed.

End invoke.

(** Bindings only take requests while the section exists. *)
Lemma no_section_no_dispatch `{GuestMemory M} `{!Guest M} {Module_} hn hv uri_ok show_status table gw rq
    buffered (resolved : bytes → result ResolveFail (@Loaded Module_)) st envs :
  fallback (M := M) hn hv uri_ok show_status None table gw rq buffered resolved st envs =
  (sv ← serve hn hv uri_ok show_status gw rq envs;
   Ret (match sv with Some sv => Some (Proxied sv (proxied_label sv)) | None => None end)).
Proof. done. Qed.

(** * The registration face *)

Definition MAX_MODULE_BYTES : Z := 64 * 1024 * 1024.

(** The artifacts on disk by name, and the live table. *)
Record Face := { fc_modules : gmap bytes bytes; fc_table : ArcSwap DynRoutes.DynamicRoutes }.

Inductive FaceReply :=
| FcText (status : Z) (msg : bytes)
| FcBindError (e : BindError)                     (* 400 *)
| FcBound (name method path : bytes)              (* 200 *)
| FcStored (name : bytes) (size : Z)              (* 200 *)
| FcRemoved (name : bytes) (deleted : bool) (unbound : nat)
| FcList (modules : list bytes) (routes : list DynamicRoute).

Definition face_status (r : FaceReply) : Z :=
  match r with FcText st _ => st | FcBindError _ => 400 | _ => 200 end.

Section face.
Context (validate_bytes : bytes → result bytes ()).      (* compile and ABI check *)
Context (store_error : bytes → option bytes).            (* what the disk answers to a write *)
Context (remove_error : bytes → option bytes).           (* and to removing a present file *)

Definition bound_response (name method path : bytes) : FaceReply :=
  FcBound name (to_ascii_uppercase (trim method)) path.

(** [bind_dynamic_route] and the answer to it. *)
Definition bind_and_answer (others : nat → list DynRoutes.DynamicRoutes) (name method path : bytes) (f : Face)
    : FaceReply * Face :=
  let '(r, c) := bind_dynamic_route others method path name (fc_table f) in
  (match r with Ok _ => bound_response name method path | Err e => FcBindError e end,
   {| fc_modules := fc_modules f; fc_table := c |}).

(** [store_module]: a failed write leaves the directory as it was. *)
Definition store_module (name body : bytes) (f : Face) : result bytes Face :=
  match store_error name with
  | Some e => Err e
  | None => Ok {| fc_modules := <[name := body]> (fc_modules f); fc_table := fc_table f |}
  end.

(** An upload: validated before it lands, then bound when asked to. *)
Definition upload (name body : bytes) (bind : option (bytes * bytes))
    (others : nat → list DynRoutes.DynamicRoutes) (f : Face) : FaceReply * Face :=
  match validate_bytes body with
  | Err e => (FcText 400 (bs "400 " ++ e ++ [x0a]), f)
  | Ok _ =>
      match store_module name body f with
      | Err e => (FcText 500 (bs "500 " ++ e ++ [x0a]), f)
      | Ok f =>
          match bind with
          | Some (m, p) => bind_and_answer others name m p f
          | None => (FcStored name (Z.of_nat (length body)), f)
          end
      end
  end.

(** [register]; [buffered] is the body read under [MAX_MODULE_BYTES]. *)
Definition register (enabled : bool) (name : bytes) (method path : option bytes)
    (buffered : option bytes) (others : nat → list DynRoutes.DynamicRoutes) (f : Face) : FaceReply * Face :=
  if negb enabled then (FcText 404 (bs "404 not found" ++ [x0a]), f)
  else if negb (valid_name name) then (FcText 400 (bs "400 invalid dynamic module name" ++ [x0a]), f)
  else
    let bind := match method, path with
                | Some m, Some p => Some (Some (m, p))
                | None, None => Some None
                | _, _ => None
                end in
    match bind, buffered with
    | None, _ => (FcText 400 (bs "400 bind needs both 'method' and 'path' query params" ++ [x0a]), f)
    | _, None => (FcText 413 (bs "413 payload too large" ++ [x0a]), f)
    | Some None, Some [] =>
        (FcText 400 (bs "400 empty body: send the module bytes, or bind an existing module with 'method' and 'path'"
                       ++ [x0a]), f)
    | Some (Some (m, p)), Some [] =>
        if is_some (fc_modules f !! name) then bind_and_answer others name m p f
        else (FcText 404 (bs "404 dynamic module not found" ++ [x0a]), f)
    | Some bind, Some body => upload name body bind others f
    end.

Definition unregister (enabled : bool) (name : bytes) (others : nat → list DynRoutes.DynamicRoutes) (f : Face)
    : FaceReply * Face :=
  if negb enabled then (FcText 404 (bs "404 not found" ++ [x0a]), f)
  else if negb (valid_name name) then (FcText 400 (bs "400 invalid dynamic module name" ++ [x0a]), f)
  else
    let present := is_some (fc_modules f !! name) in
    match (if present then remove_error name else None) with
    | Some e => (FcText 500 (bs "500 remove " ++ e ++ [x0a]), f)
    | None =>
        let '(unbound, c) := unbind_dynamic_module others name (fc_table f) in
        let f := {| fc_modules := delete name (fc_modules f); fc_table := c |} in
        if negb present && bool_decide (unbound = 0%nat)
        then (FcText 404 (bs "404 dynamic module not found" ++ [x0a]), f)
        else (FcRemoved name present unbound, f)
    end.

(** [list]. *)
Definition list_face (enabled : bool) (f : Face) : FaceReply :=
  if negb enabled then FcText 404 (bs "404 not found" ++ [x0a])
  else FcList (filter (λ n, valid_name n = true) (map_keys (fc_modules f)))
         (DynRoutes.entries (as_value (fc_table f))).

(** What reached the disk through this face was validated. *)
Definition artifacts_ok (f : Face) : Prop :=
  map_Forall (λ n b, valid_name n = true ∧ validate_bytes b = Ok ()) (fc_modules f).

Lemma bind_and_answer_modules others name m p f :
  fc_modules (bind_and_answer others name m p f).2 = fc_modules f.
Proof. unfold bind_and_answer. by destruct (bind_dynamic_route _ _ _ _ _). Qed.

Lemma upload_modules name body bind others f :
  let f' := (upload name body bind others f).2 in
  fc_modules f' = fc_modules f ∨
  validate_bytes body = Ok () ∧ store_error name = None ∧ fc_modules f' = <[name := body]> (fc_modules f).
Proof.
  unfold upload, store_module. destruct (validate_bytes body) as [[]|e]; [|by left].
  destruct (store_error name); [by left|]. right. split_and!; [done..|].
  destruct bind as [[m p]|]; [apply bind_and_answer_modules|done].
Qed.

Lemma register_modules enabled name method path buffered others f :
  let f' := (register enabled name method path buffered others f).2 in
  fc_modules f' = fc_modules f ∨
  ∃ body, body ≠ [] ∧ buffered = Some body ∧ valid_name name = true ∧ validate_bytes body = Ok () ∧
    store_error name = None ∧ fc_modules f' = <[name := body]> (fc_modules f).
Proof.
  unfold register. destruct enabled; [|by left]. destruct (valid_name name); [|by left]. simpl.
  destruct method as [m|], path as [p|], buffered as [[|b bd]|]; try by left.
  - destruct (is_some _); left; [apply bind_and_answer_modules|done].
  - destruct (upload_modules name (b :: bd) (Some (m, p)) others f) as [->|(? & ? & ?)]; [by left|right].
    by exists (b :: bd).
  - destruct (upload_modules name (b :: bd) None others f) as [->|(? & ? & ?)]; [by left|right].
    by exists (b :: bd).
Qed.

Lemma register_artifacts enabled name method path buffered others f :
  artifacts_ok f → artifacts_ok (register enabled name method path buffered others f).2.
Proof.
  intros Hok. unfold artifacts_ok.
  destruct (register_modules enabled name method path buffered others f) as [->|(b & _ & _ & Hn & Hb & _ & ->)];
    [done|]. by apply map_Forall_insert_2.
Qed.

Lemma unregister_artifacts enabled name others f :
  artifacts_ok f → artifacts_ok (unregister enabled name others f).2.
Proof.
  intros Hok. unfold unregister. destruct enabled; [|done]. destruct (valid_name name); [|done]. simpl.
  destruct (if is_some (fc_modules f !! name) then remove_error name else None); [done|].
  destruct (unbind_dynamic_module _ _ _) as [n c]. destruct (_ && _);
    by apply map_Forall_delete.
Qed.

(** What a registration does, by its outcome.  [stores body]: the upload is
    well-formed, valid and written. *)
Definition stores (enabled : bool) (name : bytes) (method path buffered : option bytes) (body : bytes) : Prop :=
  enabled = true ∧ valid_name name = true ∧ is_some method = is_some path ∧
  buffered = Some body ∧ body ≠ [] ∧ validate_bytes body = Ok () ∧ store_error name = None.

(** [binds m p]: a binding is asked for, with the upload or for a module on disk. *)
Definition binds (enabled : bool) (name : bytes) (method path buffered : option bytes) (f : Face)
    (m p : bytes) : Prop :=
  method = Some m ∧ path = Some p ∧
  ((∃ body, stores enabled name method path buffered body) ∨
   (enabled = true ∧ valid_name name = true ∧ buffered = Some [] ∧ is_Some (fc_modules f !! name))).

Definition register_effect (enabled : bool) (name : bytes) (method path buffered : option bytes)
    (f : Face) (r : FaceReply) (f' : Face) : Prop :=
  (∀ body, stores enabled name method path buffered body →
     fc_modules f' = <[name := body]> (fc_modules f) ∧
     (method = None → r = FcStored name (Z.of_nat (length body)) ∧ fc_table f' = fc_table f)) ∧
  ((∀ body, ¬ stores enabled name method path buffered body) → fc_modules f' = fc_modules f) ∧
  (∀ m p, binds enabled name method path buffered f m p →
     ∃ b, bind_left m p name (fc_table f) b (fc_table f') ∧
       r = match b with Ok _ => bound_response name m p | Err e => FcBindError e end) ∧
  ((∀ m p, ¬ binds enabled name method path buffered f m p) → fc_table f' = fc_table f) ∧
  ((∀ body, ¬ stores enabled name method path buffered body) →
   (∀ m p, ¬ binds enabled name method path buffered f m p) → face_status r ≠ 200).

Lemma bind_and_answer_left others name m p f :
  let '(r, f') := bind_and_answer others name m p f in
  fc_modules f' = fc_modules f ∧
  ∃ b, bind_left m p name (fc_table f) b (fc_table f') ∧
    r = match b with Ok _ => bound_response name m p | Err e => FcBindError e end.
Proof.
  clear remove_error store_error validate_bytes.
  unfold bind_and_answer. pose proof (bind_route_left others m p name (fc_table f)) as Hb.
  destruct (bind_dynamic_route _ _ _ _ _) as [b c]. split; [done|]. by exists b.
Qed.

(** Nothing stored, nothing bound: the face is untouched. *)
Lemma register_refused enabled name method path buffered f r :
  face_status r ≠ 200 → (∀ body, ¬ stores enabled name method path buffered body) →
  (∀ m p, ¬ binds enabled name method path buffered f m p) →
  register_effect enabled name method path buffered f r f.
Proof.
  clear remove_error.
  intros Hr Hs Hb. split_and!; try done; [intros b Hx; by destruct (Hs b)|intros m p Hx; by destruct (Hb m p)].
Qed.

(** An upload of a non-empty body that passed the checks before it. *)
Lemma upload_effect name b bd method path others f (bind : option (bytes * bytes)) :
  valid_name name = true →
  match bind with Some (m, p) => method = Some m ∧ path = Some p | None => method = None ∧ path = None end →
  let '(r, f') := upload name (b :: bd) bind others f in
  register_effect true name method path (Some (b :: bd)) f r f'.
Proof.
  clear remove_error.
  intros Hn Hbind. unfold upload, store_module.
  assert (∀ body, stores true name method path (Some (b :: bd)) body ↔
    body = b :: bd ∧ validate_bytes (b :: bd) = Ok () ∧ store_error name = None) as Hst.
  { intros body. unfold stores. split; [intros (_ & _ & _ & [= <-] & _ & ? & ?); done|].
    intros (-> & ? & ?). split_and!; try done. destruct bind as [[m p]|]; destruct Hbind as [-> ->]; done. }
  assert (∀ m p, binds true name method path (Some (b :: bd)) f m p ↔
    method = Some m ∧ path = Some p ∧ validate_bytes (b :: bd) = Ok () ∧ store_error name = None) as Hbn.
  { intros m p. unfold binds. split.
    - intros (? & ? & [(body & Hx)|(_ & _ & ? & _)]); [|done]. apply Hst in Hx. tauto.
    - intros (? & ? & ? & ?). split_and!; [done|done|left]. exists (b :: bd). by apply Hst. }
  destruct (validate_bytes (b :: bd)) as [[]|e] eqn:Ev; cycle 1.
  { apply register_refused; [done|intros body (_ & ? & _)%Hst; done|intros m p (_ & _ & ? & _)%Hbn; done]. }
  destruct (store_error name) as [e|] eqn:Es.
  { apply register_refused; [done|intros body (_ & _ & ?)%Hst; done|intros m p (_ & _ & _ & ?)%Hbn; done]. }
  assert (stores true name method path (Some (b :: bd)) (b :: bd)) as Hyes by (by apply Hst).
  destruct bind as [[m p]|]; destruct Hbind as [-> ->].
  - pose proof (bind_and_answer_left others name m p
      {| fc_modules := <[name := b :: bd]> (fc_modules f); fc_table := fc_table f |}) as Hl.
    destruct (bind_and_answer _ _ _ _ _) as [r f']. destruct Hl as [Hm Hl].
    split_and!; [|by intros Hx; destruct (Hx _ Hyes)| | |by intros Hx; destruct (Hx _ Hyes)].
    + intros body (-> & _)%Hst. by split.
    + intros m' p' ([= <-] & [= <-] & _)%Hbn. exact Hl.
    + intros Hx. destruct (Hx m p). by apply Hbn.
  - split_and!; [|by intros Hx; destruct (Hx _ Hyes)| |done|by intros Hx; destruct (Hx _ Hyes)].
    + intros body (-> & _)%Hst. by split.
    + by intros m' p' (? & _)%Hbn.
Qed.

Lemma register_spec enabled name method path buffered others f :
  let '(r, f') := register enabled name method path buffered others f in
  register_effect enabled name method path buffered f r f'.
Proof.
  clear remove_error.
  unfold register.
  assert (enabled = false ∨ valid_name name = false ∨ is_some method ≠ is_some path ∨ buffered = None →
    (∀ body, ¬ stores enabled name method path buffered body) ∧
    ∀ m p, ¬ binds enabled name method path buffered f m p) as Hno.
  { intros Hc. assert (∀ body, ¬ stores enabled name method path buffered body) as Hs.
    { intros body (? & ? & ? & ? & _). destruct Hc as [?|[?|[?|?]]]; congruence. }
    split; [done|]. intros m p (-> & -> & [(body & Hx)|(? & ? & ? & _)]); [by apply (Hs body)|].
    destruct Hc as [?|[?|[Hx|?]]]; [congruence|congruence|by apply Hx|congruence]. }
  destruct enabled; [|apply register_refused; [done|by apply Hno; left..]].
  destruct (valid_name name) eqn:En; [|apply register_refused; [done|by apply Hno; right; left..]]. simpl.
  destruct method as [m|], path as [p|];
    try (destruct buffered as [[|]|]; (apply register_refused; [done|apply Hno; right; right; by left..])).
  - destruct buffered as [[|b bd]|]; [| |apply register_refused; [done|apply Hno; by repeat right..]].
    + assert (∀ body, ¬ stores true name (Some m) (Some p) (Some []) body) as Hs.
      { by intros body (_ & _ & _ & [= <-] & ? & _). }
      destruct (is_some (fc_modules f !! name)) eqn:Ei.
      * pose proof (bind_and_answer_left others name m p f) as Hl.
        destruct (bind_and_answer _ _ _ _ _) as [r f']. destruct Hl as [Hm Hl].
        assert (binds true name (Some m) (Some p) (Some []) f m p) as Hyes.
        { split_and!; [done|done|right]. split_and!; [done|done|done|].
          destruct (fc_modules f !! name); [by eexists|done]. }
        split_and!.
        -- intros body Hx. by destruct (Hs body).
        -- done.
        -- intros m' p' ([= <-] & [= <-] & _). exact Hl.
        -- intros Hx. by destruct (Hx m p).
        -- intros _ Hx. by destruct (Hx m p).
      * apply register_refused; [done|done|]. intros m' p' (_ & _ & [(body & Hx)|(_ & _ & _ & [b Hb])]).
        -- by apply (Hs body).
        -- by rewrite Hb in Ei.
    + by apply upload_effect.
  - destruct buffered as [[|b bd]|]; [| |apply register_refused; [done|apply Hno; by repeat right..]].
    + apply register_refused; [done|by intros body (_ & _ & _ & [= <-] & ? & _)|by intros m' p' (? & _)].
    + by apply upload_effect.
Qed.

(** What a removal does.  [removable]: the section is on, the name is one and the
    file, if any, goes. *)
Definition removable (enabled : bool) (name : bytes) (f : Face) : Prop :=
  enabled = true ∧ valid_name name = true ∧ (is_Some (fc_modules f !! name) → remove_error name = None).

Definition unregister_effect (enabled : bool) (name : bytes) (f : Face) (r : FaceReply) (f' : Face)
    (lost : Prop) : Prop :=
  (removable enabled name f → fc_modules f' = delete name (fc_modules f) ∧
     ∃ k, unbind_left name (fc_table f) k (fc_table f') lost ∧
       (face_status r = 404 ↔ fc_modules f !! name = None ∧ k = 0%nat) ∧
       (face_status r ≠ 404 → r = FcRemoved name (is_some (fc_modules f !! name)) k)) ∧
  (¬ removable enabled name f → f' = f ∧ face_status r ≠ 200).

Lemma unregister_spec enabled name others f :
  let '(r, f') := unregister enabled name others f in
  unregister_effect enabled name f r f' (∀ i, (i < CAS_TURNS)%nat → others i ≠ []).
Proof.
  clear store_error validate_bytes.
  unfold unregister.
  assert (∀ r, face_status r ≠ 200 → ¬ removable enabled name f →
    unregister_effect enabled name f r f (∀ i, (i < CAS_TURNS)%nat → others i ≠ [])) as Hno by (intros r Hr Hn; by split).
  destruct enabled; [|apply Hno; [done|by intros (? & _)]].
  destruct (valid_name name) eqn:En; [|apply Hno; [done|intros (_ & ? & _); congruence]]. simpl.
  destruct (if is_some (fc_modules f !! name) then remove_error name else None) as [e|] eqn:Ee.
  { apply Hno; [done|]. intros (_ & _ & Hr). destruct (fc_modules f !! name); simpl in Ee; [|done].
    rewrite Hr in Ee; [done|by eexists]. }
  pose proof (unbind_module_left others name (fc_table f)) as Hl.
  destruct (unbind_dynamic_module _ _ _) as [k c].
  assert (removable true name f) as Hyes.
  { split_and!; [done|done|]. intros [b Hb]. by rewrite Hb in Ee. }
  assert (negb (is_some (fc_modules f !! name)) && bool_decide (k = 0%nat) = true ↔
    fc_modules f !! name = None ∧ k = 0%nat) as Hiff.
  { rewrite andb_true_iff, bool_decide_eq_true. destruct (fc_modules f !! name); simpl; naive_solver. }
  destruct (_ && _); (split; [intros _; split; [done|]; exists k|intros Hx; by destruct Hx]).
  - split_and!; [done| |done]. split; [intros _; by apply Hiff|done].
  - split_and!; [done| |done]. split; [done|]. intros Hx. by apply Hiff in Hx.
Qed.

(** An upload with a bad route is refused with 400, yet the module is stored and
    served from then on. *)
Lemma refused_upload_is_stored name body f others :
  valid_name name = true → body ≠ [] → validate_bytes body = Ok () → store_error name = None →
  let '(r, f') := register true name (Some (bs "GET")) (Some (bs "no-slash")) (Some body) others f in
  face_status r = 400 ∧ fc_modules f' !! name = Some body.
Proof.
  intros Hn Hb Hv Hs. unfold register. rewrite Hn. destruct body as [|b bd]; [done|]. simpl.
  unfold upload, store_module. rewrite Hv, Hs. unfold bind_and_answer, bind_dynamic_route.
  simpl. split; [done|]. by rewrite lookup_insert_eq.
Qed.

End face.

(** A removal that loses every turn against other writers reports no binding
    gone; with no file left the answer is 404 while the bindings stay. *)
Definition busy (k : nat) : list DynRoutes.DynamicRoutes :=
  match bind (bs "GET") (bs "/a") (bs "m") DynRoutes.new with Ok t => [t] | Err _ => [] end.

Lemma contended_removal_keeps_bindings :
  let f := {| fc_modules := ∅; fc_table := {| as_version := 0; as_value := DynRoutes.new |} |} in
  let '(r, f') := unregister (λ _, None) true (bs "m") busy f in
  face_status r = 404 ∧ lookup_route (bs "GET") (bs "/a") (as_value (fc_table f')) = Some (bs "m").
Proof. by vm_compute. Qed.

(** Outcomes without a body lose the module's headers, those of the proxy's
    short circuits keep them: a redirect needs a body here. *)
Lemma bodyless_outcome_drops_headers :
  outcome_response Some Some {| do_status := 302; do_body := None;
    do_headers := [(bs "location", bs "/login")]; do_error := None |} =
    text_response 302 (bs "302" ++ [x0a]) ∧
  (bs "location", bs "/login") ∈ rs_headers (deny_response (M := bytes) Some Some
    (set_resp_headers [(bs "location", bs "/login")] (new_session [] [] ctx_empty [])) 302).
Proof. split; [reflexivity|]. left. Qed.

(** A module that ends the request in its access phase without a body. *)
Example dynamic_done_is_204 :
  (run_dynamic (M := bytes)
     (Guest0 := code_guest (λ _ ph, match ph with Access => Ok (-4) | _ => Ok (-5) end))
     (ex_plugin "m" FailOpen) (HostState.new (bs "m")) ctx_empty []).1 =
  {| do_status := 204; do_body := None; do_headers := []; do_error := None |}.
Proof. reflexivity. Qed.
