(* ===== verification/Sdk.v ===== *)
(** The guest SDK's pure parts ([openrusty-sdk/src/alloc_heap.rs], [sched.rs],
    [url.rs]): the bump allocator, least-loaded choice, URL helpers. *)

From S2P Require Import Prelude Text Numbers.
From Stdlib Require Import ZArith Lia.
From stdpp Require Import options.
Local Open Scope Z_scope.

(** * The bump allocator *)

(** [usize] of a wasm32 guest. *)
Definition usize_bits : Z := 32.

(** [HEAP_SIZE]. *)
Definition arena_size : Z := 1024 * 1024.

Definition checked_add (w a b : Z) : option Z := if a + b <? 2 ^ w then Some (a + b) else None.

Definition align_up (value align : Z) : option Z :=
  if negb (is_power_of_two align) then None
  else
    let mask := align - 1 in
    v ← checked_add usize_bits value mask;
    Some (Z.ldiff v mask).

(** One turn of the loop up to its exchange: where the region would lie. *)
Definition bump_turn (heap_size size align cur : Z) : option (Z * Z) :=
  start ← align_up cur align;
  end_ ← checked_add usize_bits start size;
  if heap_size <? end_ then None else Some (start, end_).

(** [bump_offset].  Each disturbed turn carries the water mark its exchange finds
    and whether the weak exchange fails by itself; after them a turn is alone. *)
Fixpoint bump_offset (turns : list (Z * bool)) (heap_size size align next : Z) : option Z * Z :=
  match bump_turn heap_size size align next, turns with
  | None, _ => (None, next)
  | Some (start, end_), [] => (Some start, end_)
  | Some (start, end_), (found, spurious) :: turns =>
      if (found =? next) && negb spurious then (Some start, end_)
      else bump_offset turns heap_size size align found
  end.

Definition bump_alloc (turns : list (Z * bool)) (heap_size size align next : Z) : option Z * Z :=
  if is_power_of_two align then bump_offset turns heap_size size align next else (None, next).

(** [alloc]: an absolute address, 0 on exhaustion. *)
Definition alloc (heap_base : Z) (turns : list (Z * bool)) (size next : Z) : Z * Z :=
  match bump_alloc turns arena_size size 8 next with
  | (Some off, next) => (wrap usize_bits (heap_base + off), next)
  | (None, next) => (0, next)
  end.

(** The exported [orr_alloc], on the ABI's signed integers. *)
Definition orr_alloc (heap_base : Z) (turns : list (Z * bool)) (size next : Z) : Z * Z :=
  let '(a, next) := alloc heap_base turns (wrap usize_bits size) next in
  (to_signed 32 a, next).

Lemma align_up_spec value align v :
  0 <= value → align_up value align = Some v →
  value <= v < value + align ∧ v mod align = 0 ∧ ∃ k, 0 <= k ∧ align = 2 ^ k.
Proof.
  unfold align_up. intros Hv. destruct (is_power_of_two align) eqn:Ep; [|done].
  apply is_power_of_two_spec in Ep as (k & Hk & ->). simpl. intros (u & Hu & Hs)%bind_Some.
  unfold checked_add in Hu. destruct (Z.ltb_spec (value + (2 ^ k - 1)) (2 ^ usize_bits)); [|done].
  injection Hu as <-. injection Hs as <-.
  assert (0 < 2 ^ k) by by apply Z.pow_pos_nonneg.
  replace (2 ^ k - 1) with (Z.ones k) by (rewrite Z.ones_equiv; lia).
  rewrite Z.ldiff_ones_r, Z.shiftl_mul_pow2, Z.shiftr_div_pow2, Z.ones_equiv by done.
  pose proof (Z.div_mod (value + Z.pred (2 ^ k)) (2 ^ k) ltac:(lia)) as Hdm.
  pose proof (Z.mod_pos_bound (value + Z.pred (2 ^ k)) (2 ^ k) ltac:(lia)) as Hmb.
  revert Hdm Hmb. generalize ((value + Z.pred (2 ^ k)) / 2 ^ k) ((value + Z.pred (2 ^ k)) mod 2 ^ k).
  intros q r Hdm Hmb. split_and!; [lia|lia|apply Z.mod_mul; lia|by exists k].
Qed.

(** A region is refused exactly when no aligned one fits below the end. *)
Lemma bump_turn_spec heap_size size align cur :
  0 <= cur <= heap_size → 0 <= size → heap_size <= 2 ^ 31 → align < 2 ^ usize_bits →
  is_power_of_two align = true →
  match bump_turn heap_size size align cur with
  | Some (start, end_) => cur <= start < cur + align ∧ start mod align = 0 ∧
      end_ = start + size ∧ end_ <= heap_size
  | None => ∀ start, cur <= start → start mod align = 0 → heap_size < start + size
  end.
Proof.
  intros Hc Hs Hh Ha Hp. unfold bump_turn. destruct (align_up cur align) as [start|] eqn:Ea; simpl.
  - apply align_up_spec in Ea as (Hr & Hm & k & Hk & ->); [|lia].
    assert (0 < 2 ^ k) by by apply Z.pow_pos_nonneg.
    assert (∀ s, cur <= s → s mod 2 ^ k = 0 → start <= s) as Hfirst.
    { intros s Hs1 Hs2. apply Z.mod_divide in Hs2 as [q ->]; [|lia].
      apply Z.mod_divide in Hm as [p ->]; [|lia].
      apply Z.mul_le_mono_nonneg_r; [lia|]. apply Z.lt_pred_le, (Z.mul_lt_mono_pos_r (2 ^ k)); lia. }
    unfold checked_add. destruct (Z.ltb_spec (start + size) (2 ^ usize_bits)); simpl.
    + destruct (Z.ltb_spec heap_size (start + size)); [|lia].
      intros s Hs1 Hs2. pose proof (Hfirst s Hs1 Hs2). lia.
    + intros s Hs1 Hs2. pose proof (Hfirst s Hs1 Hs2). unfold usize_bits in *. lia.
  - exfalso. unfold align_up in Ea. rewrite Hp in Ea. simpl in Ea.
    apply is_power_of_two_spec in Hp as (k & Hk & ->).
    assert (2 ^ k <= 2 ^ 31) as Hk31.
    { apply Z.pow_le_mono_r; [lia|]. unfold usize_bits in Ha. apply Z.pow_lt_mono_r_iff in Ha; lia. }
    unfold checked_add in Ea. destruct (Z.ltb_spec (cur + (2 ^ k - 1)) (2 ^ usize_bits)); [done|].
    unfold usize_bits in *. lia.
Qed.

(** Others only push the water mark up, inside the arena. *)
Fixpoint rising (heap_size next : Z) (turns : list (Z * bool)) : Prop :=
  match turns with
  | [] => True
  | (found, _) :: turns => next <= found <= heap_size ∧ rising heap_size found turns
  end.

Lemma bump_offset_spec turns heap_size size align next :
  0 <= next <= heap_size → 0 <= size → heap_size <= 2 ^ 31 → align < 2 ^ usize_bits →
  is_power_of_two align = true → rising heap_size next turns →
  let '(r, next') := bump_offset turns heap_size size align next in
  next <= next' <= heap_size ∧
  match r with
  | Some start => next <= start ∧ start mod align = 0 ∧ next' = start + size ∧
      ∃ cur, cur ∈ next :: turns.*1 ∧ cur <= start < cur + align
  | None => next' ∈ next :: turns.*1 ∧
      ∀ start, next' <= start → start mod align = 0 → heap_size < start + size
  end.
Proof.
  revert next. induction turns as [|[found sp] turns IH]; intros next Hn Hs Hh Ha Hp Hr; cbn [bump_offset];
    pose proof (bump_turn_spec heap_size size align next Hn Hs Hh Ha Hp) as Ht;
    destruct (bump_turn heap_size size align next) as [[start end_]|];
    try (split_and!; [lia|lia|by apply list_elem_of_here|done]).
  - destruct Ht as (? & ? & -> & ?). split_and!; [lia|lia|lia|done|done|]. exists next.
    split; [apply list_elem_of_here|lia].
  - destruct Hr as [Hf Hr]. destruct ((found =? next) && negb sp).
    + destruct Ht as (? & ? & -> & ?). split_and!; [lia|lia|lia|done|done|]. exists next.
      split; [apply list_elem_of_here|lia].
    + specialize (IH found ltac:(lia) Hs Hh Ha Hp Hr). destruct (bump_offset _ _ _ _ _) as [[s|] n'].
      * destruct IH as (? & ? & ? & ? & cur & ? & ?). split_and!; [lia|lia|lia|done|done|].
        exists cur. split; [by apply list_elem_of_further|done].
      * destruct IH as (? & ? & ?). split_and!; [lia|lia|by apply list_elem_of_further|done].
Qed.

(** A history of the arena: this guest's calls, each with the water mark before it,
    the marks its exchanges find, its answer and the mark it leaves, and what others
    take in between. *)
Record Grant := {
  gr_size : Z;
  gr_align : Z;
  gr_before : Z;
  gr_found : list Z;
  gr_start : option Z;
  gr_after : Z;
}.

Inductive arena_run (heap_size : Z) : Z → list Grant → Z → Prop :=
| RunEnd next : arena_run heap_size next [] next
| RunOthers next next1 l next' : next <= next1 <= heap_size → arena_run heap_size next1 l next' →
    arena_run heap_size next l next'
| RunCall next turns size align r next1 l next' :
    0 <= size → align < 2 ^ usize_bits → rising heap_size next turns →
    bump_alloc turns heap_size size align next = (r, next1) →
    arena_run heap_size next1 l next' →
    arena_run heap_size next ({| gr_size := size; gr_align := align; gr_before := next;
      gr_found := turns.*1; gr_start := r; gr_after := next1 |} :: l) next'.

Definition regions (l : list Grant) : list (Z * Z) :=
  omap (λ g, s ← gr_start g; Some (s, s + gr_size g)) l.

Definition before (a b : Z * Z) : Prop := a.2 <= b.1.

(** A region starts at the first aligned place above a mark the call met, and the
    mark moves exactly to its end; a refusal leaves a mark the call met, above which
    nothing fits. *)
Definition grant_ok (heap_size next : Z) (g : Grant) : Prop :=
  let met := gr_before g :: gr_found g in
  next <= gr_before g ∧
  match gr_start g with
  | Some s => is_power_of_two (gr_align g) = true ∧ s mod gr_align g = 0 ∧
      (∃ mark, mark ∈ met ∧ mark <= s < mark + gr_align g) ∧
      next <= s ∧ gr_after g = s + gr_size g ∧ gr_after g <= heap_size
  | None => gr_after g ∈ met ∧
      if is_power_of_two (gr_align g)
      then ∀ s, gr_after g <= s → s mod gr_align g = 0 → heap_size < s + gr_size g
      else gr_after g = gr_before g
  end.

Lemma grant_ok_later heap_size next next1 g :
  next <= next1 → grant_ok heap_size next1 g → grant_ok heap_size next g.
Proof.
  unfold grant_ok. intros Hn [Hb Hg]. split; [lia|]. destruct (gr_start g); [|done].
  destruct Hg as (? & ? & ? & ? & ? & ?). split_and!; (done || lia).
Qed.

Lemma arena_run_spec heap_size next l next' :
  heap_size <= 2 ^ 31 → arena_run heap_size next l next' → 0 <= next <= heap_size →
  next <= next' <= heap_size ∧ StronglySorted before (regions l) ∧
  Forall (λ r, next <= r.1) (regions l) ∧ Forall (grant_ok heap_size next) l.
Proof.
  intros Hh. induction 1 as [next|next n1 l n' H1 _ IH|next turns size align r n1 l n' Hs Ha Hrise E _ IH];
    intros Hn; [by split_and!; try constructor; lia| |].
  - destruct (IH ltac:(lia)) as (? & ? & Hf & Hg). split_and!; [lia|lia|done| |].
    + eapply Forall_impl; [exact Hf|]. simpl. lia.
    + eapply Forall_impl; [exact Hg|]. intros g. apply grant_ok_later. lia.
  - set (gr := {| gr_size := size |}). assert (next <= n1 <= heap_size ∧ grant_ok heap_size next gr ∧ (∀ s, r = Some s → next <= s ∧ n1 = s + size)) as (Hn1 & Hg & Hend).
    { unfold bump_alloc in E. destruct (is_power_of_two align) eqn:Ep.
      - pose proof (bump_offset_spec turns heap_size size align next Hn Hs Hh Ha Ep Hrise) as Ho.
        rewrite E in Ho. destruct Ho as [Hb Ho]. split; [done|]. unfold grant_ok. simpl. rewrite Ep.
        destruct r as [s|].
        + destruct Ho as (? & ? & -> & ?). split; [by split_and!; [lia|..|lia]|]. by intros ? [= <-].
        + split; [|done]. split; [lia|done].
      - injection E as <- <-. split_and!; [lia|lia| |done]. unfold grant_ok. simpl. rewrite Ep.
        split_and!; [lia|apply list_elem_of_here|done]. }
    destruct (IH ltac:(lia)) as (? & Hso & Hf & Hgs).
    assert (Forall (grant_ok heap_size next) l) as Hgs'.
    { eapply Forall_impl; [exact Hgs|]. intros g. apply grant_ok_later. lia. }
    split_and!; [lia|lia| | |by constructor]; unfold regions; simpl; destruct r as [s|]; simpl; fold (regions l).
    + destruct (Hend s eq_refl) as [? ->]. constructor; [done|].
      eapply Forall_impl; [exact Hf|]. unfold before. simpl. lia.
    + done.
    + destruct (Hend s eq_refl) as [? ->]. constructor; [simpl; lia|].
      eapply Forall_impl; [exact Hf|]. simpl. lia.
    + eapply Forall_impl; [exact Hf|]. simpl. lia.
Qed.

(** C29. The guest allocator hands out each byte once.  In every history of
    allocations, however others race for the water mark and however often the
    weak exchange fails, the regions handed out lie one after the other, disjoint,
    inside the arena and aligned within it; the mark never moves back.  A region
    starts at the first aligned place above a mark its call met, and the mark moves
    exactly to its end.  A refusal changes nothing: it leaves the mark as it was or
    as others had moved it, and it comes only when the alignment is no power of two
    or no aligned region of the size is left above that mark. *)
Theorem arena_regions_disjoint (heap_size next next' : Z) (l : list Grant) :
  0 <= next <= heap_size → heap_size <= 2 ^ 31 → arena_run heap_size next l next' →
  next <= next' <= heap_size ∧ StronglySorted before (regions l) ∧
  Forall (grant_ok heap_size next) l.
Proof.
  intros Hn Hh Hr. destruct (arena_run_spec heap_size next l next' Hh Hr Hn) as (? & ? & _ & ?).
  split; [done|by split].
Qed.

(** Two grants, the second disturbed by another allocation and a spurious failure,
    then two refusals. *)
Definition ex_grants : list Grant :=
  [{| gr_size := 10; gr_align := 8; gr_before := 0; gr_found := []; gr_start := Some 0; gr_after := 10 |};
   {| gr_size := 4; gr_align := 4; gr_before := 10; gr_found := [10; 24]; gr_start := Some 24; gr_after := 28 |};
   {| gr_size := 8; gr_align := 8; gr_before := 28; gr_found := []; gr_start := None; gr_after := 28 |};
   {| gr_size := 4; gr_align := 3; gr_before := 28; gr_found := []; gr_start := None; gr_after := 28 |}].

Lemma arena_regions_disjoint_witness :
  regions ex_grants = [(0, 10); (24, 28)] ∧ StronglySorted before (regions ex_grants).
Proof.
  assert (arena_run 32 0 ex_grants 28) as Hr.
  { unfold ex_grants. apply (RunCall _ 0 []); [lia|done|done|by vm_compute|].
    apply (RunCall _ 10 [(10, true); (24, false)]); [lia|done|by simpl; lia|by vm_compute|].
    apply (RunCall _ 28 []); [lia|done|done|by vm_compute|].
    apply (RunCall _ 28 []); [lia|done|done|by vm_compute|]. constructor. }
  split; [by vm_compute|].
  apply (arena_regions_disjoint 32 0 28 ex_grants); [lia|lia|exact Hr].
Defined.

(** The arena is an array of bytes without an alignment of its own, so the
    address of an 8-aligned offset is 8-aligned only when the array happens to
    be. *)
Lemma arena_base_alignment heap_base size next a next' :
  0 <= heap_base → heap_base + arena_size < 2 ^ usize_bits → 0 <= next <= arena_size → 0 <= size →
  alloc heap_base [] size next = (a, next') → a ≠ 0 → a mod 8 = heap_base mod 8.
Proof.
  intros Hb Hw Hn Hs. unfold alloc, bump_alloc. change (is_power_of_two 8) with true.
  pose proof (bump_offset_spec [] arena_size size 8 next Hn Hs) as Ho. cbn iota.
  destruct (bump_offset _ _ _ _ _) as [[off|] n]; intros [= <- <-] Ha; [|done].
  destruct Ho as (? & ? & Hm & ? & _); [done|done|done|done|].
  rewrite wrap_small by (unfold in_u, arena_size, usize_bits in *; lia).
  rewrite Z.add_mod, Hm, Z.add_0_r by lia. by rewrite Z.mod_mod.
Qed.

(** * Least-loaded choice *)

Record NodeStat := { ns_healthy : bool; ns_active : Z; ns_last_sched_ms : Z; ns_cap : Z }.

Definition NEVER : Z := 2 ^ 64 - 1.

Definition node_eligible (n : NodeStat) : bool :=
  ns_healthy n && negb (negb (ns_cap n =? 0) && (ns_cap n <=? ns_active n)).

Definition node_last (n : NodeStat) : Z :=
  if ns_last_sched_ms n =? NEVER then 0 else ns_last_sched_ms n.

(** [(active, last) < (best_active, best_last)] on pairs. *)
Definition load_ltb (a b : Z * Z) : bool := (a.1 <? b.1) || ((a.1 =? b.1) && (a.2 <? b.2)).

Definition node_key (n : NodeStat) : Z * Z := (ns_active n, node_last n).

Fixpoint choose_from (idx : nat) (nodes : list NodeStat) (best : option (nat * (Z * Z)))
    : option (nat * (Z * Z)) :=
  match nodes with
  | [] => best
  | n :: nodes =>
      let best :=
        if negb (node_eligible n) then best
        else match best with
             | None => Some (idx, node_key n)
             | Some (_, key) => if load_ltb (node_key n) key then Some (idx, node_key n) else best
             end in
      choose_from (S idx) nodes best
  end.

Definition choose_least_loaded (nodes : list NodeStat) : option nat := fst <$> choose_from 0 nodes None.

Definition load_le (a b : Z * Z) : Prop := load_ltb b a = false.

(** The best so far of a scanned prefix. *)
Definition best_of (seen : list NodeStat) (best : option (nat * (Z * Z))) : Prop :=
  match best with
  | None => ∀ j n, seen !! j = Some n → node_eligible n = false
  | Some (i, key) => ∃ n, seen !! i = Some n ∧ node_eligible n = true ∧ key = node_key n ∧
      ∀ j m, seen !! j = Some m → node_eligible m = true →
        load_le key (node_key m) ∧ ((j < i)%nat → load_ltb key (node_key m) = true)
  end.

Lemma load_ltb_iff a b : load_ltb a b = true ↔ a.1 < b.1 ∨ a.1 = b.1 ∧ a.2 < b.2.
Proof. unfold load_ltb. rewrite orb_true_iff, andb_true_iff, !Z.ltb_lt, Z.eqb_eq. lia. Qed.

Lemma load_le_iff a b : load_le a b ↔ a.1 < b.1 ∨ a.1 = b.1 ∧ a.2 <= b.2.
Proof.
  unfold load_le. destruct (load_ltb b a) eqn:E.
  - apply load_ltb_iff in E. split; [done|lia].
  - split; [intros _|done]. assert (¬ (b.1 < a.1 ∨ b.1 = a.1 ∧ b.2 < a.2)) by (rewrite <-load_ltb_iff; congruence).
    lia.
Qed.

Lemma best_of_snoc seen n best :
  best_of seen best →
  best_of (seen ++ [n])
    (if negb (node_eligible n) then best
     else match best with
          | None => Some (length seen, node_key n)
          | Some (_, key) => if load_ltb (node_key n) key then Some (length seen, node_key n) else best
          end).
Proof.
  assert (∀ j m, (seen ++ [n]) !! j = Some m ↔ seen !! j = Some m ∨ j = length seen ∧ m = n) as Hl.
  { intros j m. rewrite lookup_app. destruct (seen !! j) eqn:E.
    - apply lookup_lt_Some in E. split; [by left|intros [?|[-> _]]; [done|lia]].
    - rewrite list_lookup_singleton_Some. apply lookup_ge_None in E.
      split; [intros [? <-]; right; split; [lia|done]|intros [?|[-> ->]]; [done|split; [lia|done]]]. }
  intros Hb. destruct (node_eligible n) eqn:En; simpl; cycle 1.
  { destruct best as [[i key]|]; simpl in *.
    - destruct Hb as (b & Hi & He & -> & Hmin). exists b. split_and!; [by rewrite Hl; left|done|done|].
      intros j m [Hj|[-> ->]]%Hl Hm; [by apply Hmin|congruence].
    - intros j m [Hj|[-> ->]]%Hl; [by eapply Hb|done]. }
  assert (∀ P : nat → NodeStat → Prop, (∀ j m, seen !! j = Some m → node_eligible m = true → P j m) →
    P (length seen) n → ∀ j m, (seen ++ [n]) !! j = Some m → node_eligible m = true → P j m) as Hall.
  { intros P H1 H2 j m [Hj|[-> ->]]%Hl Hm; auto. }
  destruct best as [[i key]|]; simpl in *.
  - destruct Hb as (b & Hi & He & -> & Hmin). destruct (load_ltb (node_key n) (node_key b)) eqn:E.
    + exists n. split_and!; [by rewrite Hl; right|done|done|]. apply Hall.
      * intros j m Hj Hm. destruct (Hmin j m Hj Hm) as [H1 _]. apply load_le_iff in H1.
        apply load_ltb_iff in E. rewrite load_le_iff, load_ltb_iff. lia.
      * split; [rewrite load_le_iff|]; lia.
    + exists b. split_and!; [by rewrite Hl; left|done|done|]. apply Hall; [done|].
      split; [exact E|]. apply lookup_lt_Some in Hi. lia.
  - exists n. split_and!; [by rewrite Hl; right|done|done|]. apply Hall.
    + intros j m Hj Hm. rewrite (Hb _ _ Hj) in Hm. done.
    + split; [rewrite load_le_iff|]; lia.
Qed.

Lemma choose_from_spec nodes seen best :
  best_of seen best → best_of (seen ++ nodes) (choose_from (length seen) nodes best).
Proof.
  revert seen best. induction nodes as [|n nodes IH]; intros seen best Hb; simpl; [by rewrite app_nil_r|].
  apply (best_of_snoc seen n) in Hb. apply IH in Hb. rewrite length_app, Nat.add_1_r, <-app_assoc in Hb.
  exact Hb.
Qed.

(** The choice is the first eligible node of minimal load, and exists whenever
    some node is eligible. *)
Lemma choose_least_loaded_spec nodes :
  match choose_least_loaded nodes with
  | Some i => ∃ n, nodes !! i = Some n ∧ node_eligible n = true ∧
      ∀ j m, nodes !! j = Some m → node_eligible m = true →
        load_le (node_key n) (node_key m) ∧ ((j < i)%nat → load_ltb (node_key n) (node_key m) = true)
  | None => ∀ j n, nodes !! j = Some n → node_eligible n = false
  end.
Proof.
  assert (best_of nodes (choose_from 0 nodes None)) as H by by apply (choose_from_spec nodes [] None).
  unfold choose_least_loaded. destruct (choose_from 0 nodes None) as [[i key]|]; simpl in *; [|done].
  destruct H as (n & Hi & He & -> & Hm). by exists n.
Qed.

(** * URL helpers *)

Definition hex_val (b : byte) : option Z :=
  if in_range 48 57 b then Some (bz b - 48)
  else if in_range 97 102 b then Some (bz b - 97 + 10)
  else if in_range 65 70 b then Some (bz b - 65 + 10)
  else None.

Fixpoint decode_bytes (s : bytes) : bytes :=
  match s with
  | [] => []
  | b :: s =>
      if bz b =? 43 then x20 :: decode_bytes s
      else if negb (bz b =? 37) then b :: decode_bytes s
      else match s with
           | h :: l :: rest =>
               match hex_val h, hex_val l with
               | Some hi, Some lo => byte_of_Z (Z.lor (wrap 8 (Z.shiftl hi 4)) lo) :: decode_bytes rest
               | _, _ => x25 :: decode_bytes s
               end
           | _ => x25 :: decode_bytes s
           end
  end.

Definition decode (input : bytes) : bytes := from_utf8_lossy (decode_bytes input).

Definition query_param (query name : bytes) : option bytes :=
  let find pair :=
    let '(key, val) := default (pair, []) (split_once x3d pair) in
    if bool_decide (key = name) then Some (decode val) else None in
  head (omap find (split_on x26 query)).

Definition path_segment (path : bytes) (n : Z) : option bytes :=
  if n =? 0 then None
  else decode <$> filter (λ s, s ≠ []) (split_on x2f path) !! Z.to_nat (n - 1).

(** The encoder these helpers undo: every byte as an escape. *)
Definition hex_digit (d : Z) : byte := if d <? 10 then byte_of_Z (48 + d) else byte_of_Z (55 + d).

Definition percent_byte (b : byte) : bytes := [x25; hex_digit (bz b / 16); hex_digit (bz b mod 16)].

Definition percent_encode (s : bytes) : bytes := concat (map percent_byte s).

Lemma percent_byte_decodes b rest : decode_bytes (percent_byte b ++ rest) = b :: decode_bytes rest.
Proof. by destruct b. Qed.

Lemma percent_byte_plain b c : c ∈ percent_byte b → c ≠ x26 ∧ c ≠ x3d ∧ c ≠ x2f.
Proof.
  assert (forallb (λ c, negb (bool_decide (c = x26) || bool_decide (c = x3d) || bool_decide (c = x2f)))
    (percent_byte b) = true) as H by by destruct b.
  rewrite forallb_forall in H. intros Hc%list_elem_of_In%H. apply negb_true_iff in Hc.
  rewrite !orb_false_iff, !bool_decide_eq_false in Hc. naive_solver.
Qed.

Lemma percent_encode_plain s c : c ∈ percent_encode s → c ≠ x26 ∧ c ≠ x3d ∧ c ≠ x2f.
Proof.
  unfold percent_encode. intros Hc%list_elem_of_In%in_concat. destruct Hc as (l & Hl & Hc).
  apply list_elem_of_In, list_elem_of_fmap in Hl as (b & -> & _). by apply (percent_byte_plain b), list_elem_of_In.
Qed.

(** Decoding undoes the encoding. *)
Lemma decode_percent_encode s : valid_utf8 s = true → decode (percent_encode s) = s.
Proof.
  intros Hs. unfold decode. assert (decode_bytes (percent_encode s) = s) as ->.
  { clear Hs. induction s as [|b s IH]; [done|].
    change (percent_encode (b :: s)) with (percent_byte b ++ percent_encode s).
    by rewrite percent_byte_decodes, IH. }
  by apply from_utf8_lossy_valid.
Qed.

(** A query string of encoded values. *)
Definition encode_pair (kv : bytes * bytes) : bytes := kv.1 ++ x3d :: percent_encode kv.2.
Definition encode_query (kvs : list (bytes * bytes)) : bytes := join [x26] (map encode_pair kvs).

(** A parameter reads back as the value first written under its name. *)
Lemma query_param_roundtrip kvs name :
  Forall (λ kv, (x26 ∉ kv.1) ∧ (x3d ∉ kv.1) ∧ valid_utf8 kv.2 = true) kvs → name ≠ [] →
  query_param (encode_query kvs) name = snd <$> head (filter (λ kv, kv.1 = name) kvs).
Proof.
  intros Hok Hname. unfold query_param, encode_query.
  set (find pair := let '(key, val) := default (pair, []) (split_once x3d pair) in
    if bool_decide (key = name) then Some (decode val) else None).
  destruct kvs as [|kv0 kvs0].
  { change (join [x26] (map encode_pair [])) with (@nil byte).
    assert (find [] = None) as Hf by (unfold find; simpl; by rewrite bool_decide_eq_false_2).
    cbn [split_on omap list_omap]. by rewrite Hf. }
  rewrite split_on_joined; [|done|]; cycle 1.
  { apply Forall_fmap. eapply Forall_impl; [exact Hok|]. intros [k v] (Hk & _ & _). simpl in *.
    unfold compose, encode_pair. simpl. intros [Hin|Hin]%elem_of_app; [done|].
    apply elem_of_cons in Hin as [?|Hv]; [done|]. by apply percent_encode_plain in Hv as [? _]. }
  generalize (kv0 :: kvs0) Hok. clear. intros kvs Hok. induction Hok as [|[k v] kvs (Ha & He & Hv) _ IH]; [done|].
  simpl in Ha, He, Hv. assert (find (encode_pair (k, v)) = if bool_decide (k = name) then Some v else None) as Hf.
  { unfold find. assert (split_once x3d (encode_pair (k, v)) = Some (k, percent_encode v)) as ->.
    { by apply split_once_Some. }
    simpl. by rewrite decode_percent_encode. }
  cbn [map omap list_omap]. rewrite Hf, filter_cons. cbn [fst].
  case_bool_decide as Hk; [rewrite decide_True by done; done|rewrite decide_False by done; exact IH].
Qed.

(** Malformed escapes pass through. *)
Lemma decode_edges :
  decode (bs "a%41+%zz%4") = bs "aA %zz%4" ∧ path_segment (bs "//a//b%2Fc/") 2 = Some (bs "b/c") ∧
  query_param (bs "x=1&flag&x=2") (bs "flag") = Some [].
Proof. by vm_compute. Qed.
