(* ===== verification/SdkHost.v ===== *)
(** The guest SDK's wrappers over the host imports ([openrusty-sdk/src/host.rs]):
    what a plugin's code sees of the host, through its own memory.

    A string argument is where the guest holds it, a pointer and a length; the
    allocator's placement of read buffers is a parameter. *)

From S2P Require Import Prelude Text Config Context HostState Abi Linker.
From Stdlib Require Import ZArith Lia.
From stdpp Require Import options.
Local Open Scope Z_scope.

Inductive LogLevel := Error | Warn | Info | Debug.

Definition level_code (l : LogLevel) : Z :=
  match l with Error => 1 | Warn => 2 | Info => 3 | Debug => 4 end.

Definition nonempty (b : bytes) : option bytes := if bool_decide (b = []) then None else Some b.

(** [SCAN_BUF_LEN], [SCAN_CURSOR_DEAD]. *)
Definition SCAN_BUF_LEN : nat := 256.
Definition SCAN_CURSOR_DEAD : Z := -1.

Section wrappers.
Context `{GuestMemory M}.
Context (place : nat → nat).

Abbreviation Caller := (Caller M).

(** The memory a caller's imports write to. *)
#[global] Instance caller_memory : GuestMemory Caller := {
  mem_size c := mem_size (ca_mem c);
  mem_read c := mem_read (ca_mem c);
  mem_write c p b :=
    (λ m, {| ca_mem := m; ca_data := ca_data c; ca_state := ca_state c |}) <$> mem_write (ca_mem c) p b;
}.

#[global] Instance caller_memory_laws `{!GuestMemoryLaws M} : GuestMemoryLaws Caller.
Proof.
  split; cbn [mem_size mem_read mem_write caller_memory].
  - intros c. apply mem_read_some.
  - intros c. apply mem_read_in.
  - intros c. apply mem_read_prefix.
  - intros c p b Hp. rewrite fmap_is_Some. by apply mem_write_in.
  - intros c p b c' (m & Hm & ->)%fmap_Some. by apply mem_write_some.
Qed.

Definition call (i : import) (c : Caller) : Z * Caller := run_import i c.

(** [ffi::read_two_phase] around an import that takes a buffer. *)
Definition read_host (imp : Z → Z → import) (c : Caller) : option bytes * Caller :=
  read_two_phase place (λ op oc c, call (imp op oc) c) c.

(** A C-style argument: pointer and length. *)
Definition Str : Type := Z * Z.

Definition log (level : LogLevel) (msg : Str) (c : Caller) : Caller :=
  (call (HostLog (level_code level) msg.1 msg.2) c).2.

(** [host_now_ms() as u64]. *)
Definition now_ms (now : Z) (c : Caller) : Z * Caller :=
  let '(t, c) := call (HostNowMs now) c in (wrap 64 t, c).

Definition req_meta (key : Str) (c : Caller) : option bytes * Caller :=
  let '(r, c) := read_host (ReqMeta key.1 key.2) c in (r ≫= nonempty, c).

Definition req_meta_str (key : Str) (c : Caller) : option bytes * Caller :=
  let '(r, c) := req_meta key c in (from_utf8_lossy <$> r, c).

Definition peer_at (idx : Z) (c : Caller) : option PeerInfo * Caller :=
  let '(r, c) := read_host (ReqPeerGet idx) c in (peer_from_tlv <$> r, c).

Fixpoint peers_from (todo : nat) (idx : Z) (c : Caller) : list PeerInfo * Caller :=
  match todo with
  | O => ([], c)
  | S todo =>
      let '(p, c) := peer_at idx c in
      let '(ps, c) := peers_from todo (idx + 1) c in
      (option_list p ++ ps, c)
  end.

Definition peers (c : Caller) : list PeerInfo * Caller :=
  let '(count, c) := call ReqPeerCount c in
  if count <=? 0 then ([], c) else peers_from (Z.to_nat count) 0 c.

Definition set_peer (idx : Z) (c : Caller) : bool * Caller :=
  let '(r, c) := call (BalancerSetPeer (to_signed 32 idx)) c in (r =? 0, c).

Definition set_req_uri (path : Str) (c : Caller) : bool * Caller :=
  let '(r, c) := call (ReqSetUri path.1 path.2) c in (r =? 0, c).

Definition set_req_query (query : Str) (c : Caller) : bool * Caller :=
  let '(r, c) := call (ReqSetQuery query.1 query.2) c in (r =? 0, c).

Definition set_req_header (name val : Str) (c : Caller) : bool * Caller :=
  let '(r, c) := call (ReqSetHeader name.1 name.2 val.1 val.2) c in (r =? 0, c).

Definition del_req_header (name : Str) (c : Caller) : Caller := (call (ReqDelHeader name.1 name.2) c).2.

(** [now] is the host's clock during the call. *)
Definition kv_get (now : Z) (key : Str) (c : Caller) : option bytes * Caller :=
  let '(r, c) := read_host (KvGet now key.1 key.2) c in (r ≫= nonempty, c).

Definition kv_set (now : Z) (key val : Str) (ttl_ms : Z) (c : Caller) : Caller :=
  (call (KvSet now key.1 key.2 val.1 val.2 ttl_ms) c).2.

Definition kv_del (key : Str) (c : Caller) : Caller := (call (KvDel key.1 key.2) c).2.

Definition kv_scan (t1 t2 t3 : Z) (prefix : Str) (c : Caller) : Z * Caller :=
  call (KvScanBegin t1 t2 t3 prefix.1 prefix.2) c.

(** [scan_step]: one element's bytes, and the cursor as it is kept. *)
Definition scan_step (cursor : Z) (c : Caller) : option bytes * Z * Caller :=
  if cursor <? 0 then (None, cursor, c)
  else
    let buf := place SCAN_BUF_LEN in
    let '(ret, c) := call (KvScanNext cursor (Z.of_nat buf) (Z.of_nat SCAN_BUF_LEN)) c in
    if ret =? 0 then (None, cursor, c)
    else if ret =? SCAN_CURSOR_DEAD then (None, SCAN_CURSOR_DEAD, c)
    else if ret <? 0 then
      let '(r, c) := read_host (KvScanNext cursor) c in (r, cursor, c)
    else (take (Z.to_nat ret) <$> mem_read c buf SCAN_BUF_LEN, cursor, c).

(** [KvScan::next] and its [Drop]. *)
Definition scan_item (cursor : Z) (c : Caller) : option (bytes * bytes) * Z * Caller :=
  let '(r, cursor, c) := scan_step cursor c in (kv_pair_from_tlv <$> r, cursor, c).

Definition scan_drop (cursor : Z) (c : Caller) : Caller :=
  if 0 <=? cursor then (call (KvScanEnd cursor) c).2 else c.

(** A [for] loop over a scan, dropped at its end; [fuel] bounds the elements. *)
Fixpoint scan_loop (fuel : nat) (cursor : Z) (c : Caller) : list (bytes * bytes) * Caller :=
  match fuel with
  | O => ([], scan_drop cursor c)
  | S fuel =>
      match scan_item cursor c with
      | (Some kv, cursor, c) => let '(l, c) := scan_loop fuel cursor c in (kv :: l, c)
      | (None, cursor, c) => ([], scan_drop cursor c)
      end
  end.

Definition resp_header (name : Str) (c : Caller) : option bytes * Caller :=
  let '(r, c) := read_host (RespHeaderGet name.1 name.2) c in
  (from_utf8_lossy <$> (r ≫= nonempty), c).

Definition set_resp_header (name val : Str) (c : Caller) : Caller :=
  (call (RespHeaderSet name.1 name.2 val.1 val.2) c).2.

Definition del_resp_header (name : Str) (c : Caller) : Caller := (call (RespHeaderDel name.1 name.2) c).2.

(** [respond_redirect]; [location] names the header. *)
Definition redirect_code (status : Z) : Z := if (300 <=? status) && (status <=? 399) then status else 302.

Definition respond_redirect (status : Z) (location value : Str) (c : Caller) : Z * Caller :=
  (redirect_code status, set_resp_header location value c).

Definition set_resp_body (body : Str) (c : Caller) : bool * Caller :=
  let '(n, c) := call (RespBodySet body.1 body.2) c in (n =? to_signed 32 body.2, c).

Definition body_chunk (c : Caller) : (bytes * bool) * Caller :=
  let '(r, c) := read_host BodyChunk c in
  let '(last, c) := call BodyIsLast c in
  ((default [] r, last =? 1), c).

Definition cfg (key : Str) (c : Caller) : option bytes * Caller :=
  let '(r, c) := read_host (CfgGet key.1 key.2) c in
  (from_utf8_lossy <$> (r ≫= nonempty), c).

(** ** The wrappers against the host they call *)

Context `{!GuestMemoryLaws M}.

(** Everything but the guest's own memory is as it was. *)
Record same_host (c c' : Caller) : Prop := {
  sh_data : ca_data c' = ca_data c;
  sh_state : ca_state c' = ca_state c;
  sh_size : mem_size (ca_mem c') = mem_size (ca_mem c);
}.

Definition placed (c : Caller) : Prop :=
  ∀ n, (n ≤ MAX_READ_LEN)%nat → (place n + n ≤ mem_size (ca_mem c))%nat.

Lemma write_out_caller op oc payload (c : Caller) : write_out op oc payload c = out op oc payload c.
Proof using Type.
  unfold out, write_out. cbn [mem_read mem_write caller_memory].
  destruct c as [m d s]. cbn [ca_mem]. repeat (case_match; simplify_eq/=; try done).
Qed.

Lemma out_same_host op oc payload (c : Caller) r c' : out op oc payload c = (r, c') → same_host c c'.
Proof using All.
  unfold out, write_out. case_bool_decide.
  - intros [= <- <-]. by split.
  - destruct (_ || _); [intros [= <- <-]; by split|].
    destruct (mem_write (ca_mem c) _ _) as [m|] eqn:E; intros [= <- <-]; [|by split].
    apply mem_write_some in E as (_ & Hs & _). by split.
Qed.

(** An import that writes one payload, and then acts on the host's side only. *)
Lemma read_host_answers (g : Caller → Caller) imp payload (c : Caller) :
  (∀ c, ca_mem (g c) = ca_mem c) → placed c → (length payload ≤ MAX_READ_LEN)%nat →
  (∀ op oc, call (imp op oc) c =
     let '(r, c') := out op oc payload c in (r, if 0 <=? r then g c' else c')) →
  ∃ c', read_host imp c = (Some payload, g c') ∧ same_host c c'.
Proof using All.
  intros Hg Hp Hl Hi. assert (Z.of_nat (length payload) < 2 ^ 31) as Hl31.
  { unfold MAX_READ_LEN, HEAP_SIZE in Hl. lia. }
  pose proof (two_phase_answers g place (λ op oc c, call (imp op oc) c) payload c) as Ha.
  rewrite decide_True in Ha by done. destruct Ha as (c' & op & oc & r & Hr & Hw); [|done|done| |].
  - intros c1 p n. cbn [mem_read caller_memory]. by rewrite Hg.
  - intros op oc. rewrite write_out_caller. apply Hi.
  - exists c'. split; [exact Hr|]. rewrite write_out_caller in Hw. by eapply out_same_host.
Qed.

(** A payload the arena cannot hold reads as none, and changes nothing. *)
Lemma read_host_oversized (g : Caller → Caller) imp payload (c : Caller) :
  (∀ c, ca_mem (g c) = ca_mem c) → placed c → (MAX_READ_LEN < length payload)%nat →
  Z.of_nat (length payload) < 2 ^ 31 →
  (∀ op oc, call (imp op oc) c =
     let '(r, c') := out op oc payload c in (r, if 0 <=? r then g c' else c')) →
  read_host imp c = (None, c).
Proof using All.
  intros Hg Hp Hl Hl31 Hi.
  pose proof (two_phase_answers g place (λ op oc c, call (imp op oc) c) payload c) as Ha.
  rewrite decide_False in Ha by lia. apply Ha; [|done|done|].
  - intros c1 p n. cbn [mem_read caller_memory]. by rewrite Hg.
  - intros op oc. rewrite write_out_caller. apply Hi.
Qed.

(** One that refuses at once reads as nothing written. *)
Lemma read_host_zero imp (c c' : Caller) :
  placed c → ca_mem c' = ca_mem c → (∀ op oc, call (imp op oc) c = (0, c')) →
  read_host imp c = (Some [], c').
Proof using All.
  intros Hp Hm Hi. unfold read_host, read_two_phase, two_phase_loop. rewrite Hi. cbn [Z.leb].
  assert (START_LEN ≤ MAX_READ_LEN)%nat as Hs by (unfold MAX_READ_LEN, HEAP_SIZE, START_LEN; lia).
  specialize (Hp START_LEN Hs). cbn [mem_read caller_memory]. rewrite Hm.
  destruct (mem_read_in (ca_mem c) (place START_LEN) START_LEN Hp) as [b ->]. done.
Qed.

Lemma nonempty_id b : nonempty b = if bool_decide (b = []) then None else Some b.
Proof using Type. done. Qed.

(** [kv_get] is the store's own read, absent and empty values alike. *)
Lemma kv_get_exact now key k (c : Caller) :
  placed c → rd c key.1 key.2 = Some k →
  (∀ e, st_kv (ca_state c) !! k = Some e → blen (ke_value e) <= KV_MAX_VALUE_BYTES) →
  ∃ c', kv_get now key c = ((HostState.kv_get k now (ca_state c)).1 ≫= nonempty, c') ∧
    ca_state c' = (HostState.kv_get k now (ca_state c)).2 ∧ ca_data c' = ca_data c.
Proof using All.
  intros Hp Hk Hv. unfold kv_get.
  assert (∀ op oc, call (KvGet now key.1 key.2 op oc) c = kv_get_import now key.1 key.2 op oc c) as Hc by done.
  unfold kv_get_import in Hc. rewrite Hk in Hc.
  unfold HostState.kv_get. unfold kv_get_with in *. destruct (st_kv (ca_state c) !! k) as [e|] eqn:Ee.
  - specialize (Hv e eq_refl). destruct (negb (is_expired (ke_expires_at e) now)) eqn:Ex; simpl.
    + destruct (read_host_answers id (KvGet now key.1 key.2) (ke_value e) c) as (c' & -> & [Hd Hs _]);
        [done|done| | |].
      * unfold KV_MAX_VALUE_BYTES, blen in Hv. unfold MAX_READ_LEN, HEAP_SIZE. lia.
      * intros op oc. rewrite Hc. destruct (out op oc (ke_value e) c) as [r c1] eqn:Eo.
        apply out_same_host in Eo as [_ Hs _]. f_equal. rewrite <-Hs. destruct c1, (0 <=? r); done.
      * exists c'. by split_and!.
    + erewrite read_host_zero; [|done| |exact Hc]; [|done]. eexists. by split_and!.
  - erewrite read_host_zero; [|done| |exact Hc]; [|done]. eexists. by split_and!.
Qed.

(** [cfg] is the plugin's setting. *)
Lemma cfg_exact key k (c : Caller) :
  placed c → rds c key.1 key.2 = Some k →
  (∀ v, hd_settings (ca_data c) !! k = Some v → (length v ≤ MAX_READ_LEN)%nat) →
  ∃ c', cfg key c = (from_utf8_lossy <$> (hd_settings (ca_data c) !! k ≫= nonempty), c') ∧ same_host c c'.
Proof using All.
  intros Hp Hk Hv. unfold cfg.
  assert (∀ op oc, call (CfgGet key.1 key.2 op oc) c = cfg_get key.1 key.2 op oc c) as Hc by done.
  unfold cfg_get in Hc. rewrite Hk in Hc. destruct (hd_settings (ca_data c) !! k) as [v|].
  - destruct (read_host_answers id (CfgGet key.1 key.2) v c) as (c' & -> & Hs); [done|done|by apply Hv| |by exists c'].
    intros op oc. rewrite Hc. destruct (out op oc v c) as [r c1]. by destruct (0 <=? r).
  - rewrite (read_host_zero _ c c); [|done..]. exists c. split; [done|by split].
Qed.

(** ** Peers *)

Definition peer_view_ok (p : PeerView) : Prop :=
  u32_len (pv_name p) ∧ u32_len (pv_addr p) ∧ (length (peer_payload p) ≤ MAX_READ_LEN)%nat.

Definition seen_peer (p : PeerView) : PeerInfo := {|
  pi_name := from_utf8_lossy (pv_name p); pi_addr := from_utf8_lossy (pv_addr p);
  pi_healthy := pv_healthy p |}.

Lemma peer_payload_decodes p : peer_view_ok p → peer_from_tlv (peer_payload p) = seen_peer p.
Proof using Type.
  intros (Hn & Ha & _). unfold peer_from_tlv, peer_payload, parse_tlv.
  rewrite parse_loop_encode; [|by repeat constructor; [..|destruct (pv_healthy p)]|done].
  unfold seen_peer. simpl. f_equal. by destruct (pv_healthy p).
Qed.

Lemma same_host_trans c1 c2 c3 : same_host c1 c2 → same_host c2 c3 → same_host c1 c3.
Proof using Type. intros [] []. split; congruence. Qed.

Lemma placed_same c c' : same_host c c' → placed c → placed c'.
Proof using Type. intros [_ _ Hs] Hp n Hn. rewrite Hs. by apply Hp. Qed.

Lemma peer_at_exact idx p (c : Caller) :
  placed c → hd_peers (ca_data c) !! idx = Some p → peer_view_ok p →
  ∃ c', peer_at (Z.of_nat idx) c = (Some (seen_peer p), c') ∧ same_host c c'.
Proof using All.
  intros Hpl Hp Hok. unfold peer_at.
  destruct (read_host_answers id (ReqPeerGet (Z.of_nat idx)) (peer_payload p) c) as (c' & -> & Hs);
    [done|done|apply Hok| |].
  - intros op oc. unfold call. simpl. unfold req_peer_get. rewrite (proj2 (Z.ltb_ge _ 0)), Nat2Z.id, Hp by lia.
    destruct (out op oc (peer_payload p) c) as [r c1]. by destruct (0 <=? r).
  - exists c'. simpl. by rewrite peer_payload_decodes.
Qed.

Lemma peers_from_exact todo idx (c : Caller) :
  placed c → Forall peer_view_ok (hd_peers (ca_data c)) → (idx + todo = length (hd_peers (ca_data c)))%nat →
  ∃ c', peers_from todo (Z.of_nat idx) c = (map seen_peer (drop idx (hd_peers (ca_data c))), c') ∧
    same_host c c'.
Proof using All.
  revert idx c. induction todo as [|todo IH]; intros idx c Hpl Hok Hl; cbn [peers_from].
  { exists c. rewrite drop_ge by lia. split; [done|by split]. }
  destruct (lookup_lt_is_Some_2 (hd_peers (ca_data c)) idx) as [p Hp]; [lia|].
  destruct (peer_at_exact idx p c Hpl Hp) as (c1 & -> & Hs1); [by eapply Forall_lookup_1|].
  pose proof (sh_data _ _ Hs1) as Hd.
  destruct (IH (S idx) c1) as (c2 & E & Hs2); [by eapply placed_same|by rewrite Hd|rewrite Hd; lia|].
  replace (Z.of_nat idx + 1) with (Z.of_nat (S idx)) by lia. rewrite E, Hd. exists c2.
  rewrite (drop_S _ _ _ Hp). split; [done|]. by eapply same_host_trans.
Qed.

(** The plugin sees every peer of the upstream, at its own index. *)
Lemma peers_exact (c : Caller) :
  placed c → Forall peer_view_ok (hd_peers (ca_data c)) → Z.of_nat (length (hd_peers (ca_data c))) < 2 ^ 31 →
  ∃ c', peers c = (map seen_peer (hd_peers (ca_data c)), c') ∧ same_host c c'.
Proof using All.
  intros Hpl Hok Hl. unfold peers, call. simpl. rewrite to_signed_small by lia.
  destruct (Z.leb_spec (Z.of_nat (length (hd_peers (ca_data c)))) 0) as [H0|H0].
  - exists c. destruct (hd_peers (ca_data c)); [|simpl in H0; lia]. split; [done|by split].
  - rewrite Nat2Z.id. apply (peers_from_exact _ 0); [done|done|lia].
Qed.

(** ** Scans *)

Definition scan_pair_ok (kv : bytes * bytes) : Prop :=
  u32_len kv.1 ∧ u32_len kv.2 ∧ (length (encode_kv_pair kv.1 kv.2) ≤ MAX_READ_LEN)%nat.

Lemma kv_pair_decodes kv : scan_pair_ok kv → kv_pair_from_tlv (encode_kv_pair kv.1 kv.2) = kv.
Proof using Type.
  intros (Hk & Hv & _). unfold kv_pair_from_tlv, encode_kv_pair, parse_tlv.
  rewrite parse_loop_encode; [by destruct kv|by repeat constructor|done].
Qed.

Lemma encode_kv_pair_length k v : (8 ≤ length (encode_kv_pair k v))%nat.
Proof using Type.
  unfold encode_kv_pair. rewrite !encode_tlv_cons, !length_app.
  pose proof (encode_item_length k). pose proof (encode_item_length v). lia.
Qed.

Lemma kv_scan_next_live cursor sc kv op oc (c : Caller) :
  0 <= cursor → st_cursors (ca_state c) !! cursor = Some sc → sc_entries sc !! sc_pos sc = Some kv →
  call (KvScanNext cursor op oc) c =
    let '(r, c') := out op oc (encode_kv_pair kv.1 kv.2) c in
    (r, if 0 <=? r then on_state (scan_advance cursor (ca_state c')) c' else c').
Proof using Type.
  intros Hc Hs Hk. unfold call. simpl. unfold kv_scan_next.
  rewrite (proj2 (Z.ltb_ge cursor 0)) by done. unfold scan_is_valid, scan_peek, cursor_entry.
  rewrite Hs. simpl. rewrite Hk. destruct kv as [k v]. simpl. by destruct (out _ _ _ _).
Qed.

Lemma scan_item_exact cursor sc kv (c : Caller) :
  placed c → 0 <= cursor → st_cursors (ca_state c) !! cursor = Some sc →
  sc_entries sc !! sc_pos sc = Some kv → scan_pair_ok kv →
  ∃ c', scan_item cursor c = (Some kv, cursor, c') ∧ ca_state c' = scan_advance cursor (ca_state c) ∧
    ca_data c' = ca_data c ∧ mem_size (ca_mem c') = mem_size (ca_mem c).
Proof using All.
  intros Hp Hc Hs Hk Hok. unfold scan_item, scan_step. rewrite (proj2 (Z.ltb_ge cursor 0)) by done.
  set (payload := encode_kv_pair kv.1 kv.2).
  pose proof (encode_kv_pair_length kv.1 kv.2) as H8. fold payload in H8.
  assert (length payload ≤ MAX_READ_LEN)%nat as Hmax by apply Hok.
  assert (Z.of_nat (length payload) < 2 ^ 31) as H31 by (unfold MAX_READ_LEN, HEAP_SIZE in Hmax; lia).
  rewrite (kv_scan_next_live cursor sc kv) by done. fold payload.
  destruct (decide (length payload ≤ SCAN_BUF_LEN)%nat) as [Hsmall|Hbig].
  - assert (SCAN_BUF_LEN ≤ MAX_READ_LEN)%nat as Hb by (unfold SCAN_BUF_LEN, MAX_READ_LEN, HEAP_SIZE; lia).
    specialize (Hp SCAN_BUF_LEN Hb).
    destruct (write_out_fits (M := Caller) (place SCAN_BUF_LEN) SCAN_BUF_LEN payload c) as (c1 & Hw & Hz & Hr & _);
      [done|done|unfold SCAN_BUF_LEN; lia|].
    rewrite write_out_caller in Hw. rewrite Hw. cbn iota beta.
    rewrite (proj2 (Z.leb_le 0 _)), (proj2 (Z.eqb_neq _ 0)), (proj2 (Z.ltb_ge _ 0)) by lia.
    rewrite (proj2 (Z.eqb_neq _ SCAN_CURSOR_DEAD)) by (unfold SCAN_CURSOR_DEAD; lia).
    apply out_same_host in Hw as [Hd Hst Hsz]. rewrite Nat2Z.id.
    assert (take (length payload) <$> mem_read (ca_mem c1) (place SCAN_BUF_LEN) SCAN_BUF_LEN = Some payload) as Hrb.
    { apply (read_back (M := M)); [done|by rewrite Hsz|exact Hr]. }
    cbn [mem_read caller_memory on_state ca_mem]. rewrite Hrb. eexists.
    cbn [fmap option_fmap option_map]. unfold payload at 1. rewrite kv_pair_decodes by done.
    split_and!; [done|simpl; by rewrite Hst|done|done].
  - rewrite <-write_out_caller, (write_out_too_small (M := Caller) _ SCAN_BUF_LEN) by (lia || done).
    cbn iota beta. rewrite (proj2 (Z.leb_gt 0 (- Z.of_nat (length payload)))) by lia.
    rewrite (proj2 (Z.eqb_neq _ 0)), (proj2 (Z.ltb_lt _ 0)) by lia.
    rewrite (proj2 (Z.eqb_neq _ SCAN_CURSOR_DEAD)) by (unfold SCAN_CURSOR_DEAD; lia).
    destruct (read_host_answers (λ c, on_state (scan_advance cursor (ca_state c)) c) (KvScanNext cursor) payload c)
      as (c' & -> & [Hd Hst Hsz]); [done|done|done| |].
    + intros op oc. by apply kv_scan_next_live with sc.
    + eexists. cbn [fmap option_fmap option_map]. unfold payload at 1. rewrite kv_pair_decodes by done.
      split_and!; [done|simpl; by rewrite Hst|done|done].
Qed.

(** A cursor the host dropped ends the loop without another call. *)
Lemma scan_loop_dead fuel cursor (c : Caller) :
  0 <= cursor → st_cursors (ca_state c) !! cursor = None → scan_loop fuel cursor c = ([], scan_drop cursor c) ∨
  scan_loop fuel cursor c = ([], c).
Proof using Type.
  intros Hc Hs. destruct fuel; [by left|right]. simpl. unfold scan_item, scan_step, call. simpl.
  rewrite (proj2 (Z.ltb_ge cursor 0)) by done. unfold kv_scan_next.
  rewrite (proj2 (Z.ltb_ge cursor 0)) by done. unfold scan_is_valid. by rewrite Hs, bool_decide_eq_false_2.
Qed.

Lemma scan_drop_dead cursor (c : Caller) :
  st_cursors (ca_state c) !! cursor = None →
  st_cursors (ca_state (scan_drop cursor c)) = st_cursors (ca_state c) ∧
  st_kv (ca_state (scan_drop cursor c)) = st_kv (ca_state c) ∧ ca_data (scan_drop cursor c) = ca_data c.
Proof using Type.
  intros Hs. unfold scan_drop, call. destruct (0 <=? cursor) eqn:E; [|done]. simpl. unfold kv_scan_end.
  rewrite E. simpl. split_and!; [|done|done]. by rewrite delete_id.
Qed.

(** The loop over a scan sees exactly what is left of its snapshot, and leaves no
    cursor behind. *)
Lemma scan_loop_exact fuel cursor sc (c : Caller) :
  placed c → 0 <= cursor → st_cursors (ca_state c) !! cursor = Some sc →
  Forall scan_pair_ok (sc_entries sc) → (length (sc_entries sc) < sc_pos sc + fuel)%nat →
  ∃ c', scan_loop fuel cursor c = (drop (sc_pos sc) (sc_entries sc), c') ∧
    st_cursors (ca_state c') = delete cursor (st_cursors (ca_state c)) ∧
    st_kv (ca_state c') = st_kv (ca_state c) ∧ ca_data c' = ca_data c.
Proof using All.
  revert sc c. induction fuel as [|fuel IH]; intros sc c Hp Hc Hs Hok Hf.
  { simpl. rewrite drop_ge by lia. eexists. split; [done|]. unfold scan_drop, call.
    rewrite (proj2 (Z.leb_le 0 cursor)) by done. simpl. unfold kv_scan_end.
    by rewrite (proj2 (Z.leb_le 0 cursor)). }
  destruct (sc_entries sc !! sc_pos sc) as [kv|] eqn:Hk; cycle 1.
  { apply lookup_ge_None in Hk. rewrite drop_ge by done. cbn [scan_loop]. unfold scan_item, scan_step, call. simpl.
    rewrite (proj2 (Z.ltb_ge cursor 0)) by done. unfold kv_scan_next.
    rewrite (proj2 (Z.ltb_ge cursor 0)) by done. unfold scan_is_valid, scan_peek, cursor_entry, scan_next.
    unfold cursor_entry. rewrite Hs, bool_decide_eq_true_2 by done. simpl.
    rewrite (proj2 (lookup_ge_None (sc_entries sc) (sc_pos sc)) Hk). simpl. unfold scan_is_valid.
    rewrite Hs, bool_decide_eq_true_2 by done. eexists. split; [done|]. unfold scan_drop, call.
    rewrite (proj2 (Z.leb_le 0 cursor)) by done. simpl. unfold kv_scan_end.
    rewrite (proj2 (Z.leb_le 0 cursor)) by done. simpl. by rewrite delete_delete_eq. }
  destruct (scan_item_exact cursor sc kv c) as (c1 & E & Hst & Hd & Hz); [done..|by eapply Forall_lookup_1|].
  cbn [scan_loop]. rewrite E. rewrite (drop_S _ _ _ Hk).
  unfold scan_advance in Hst. rewrite Hs in Hst.
  destruct (exhausted (bump sc)) eqn:Ex.
  - unfold exhausted, bump in Ex. simpl in Ex. apply Nat.leb_le in Ex. rewrite (drop_ge _ (S _)) by done.
    assert (st_cursors (ca_state c1) !! cursor = None) as Hn by (rewrite Hst; simpl; apply lookup_delete_eq).
    destruct (scan_loop_dead fuel cursor c1 Hc Hn) as [-> | ->]; eexists; (split; [done|]).
    + destruct (scan_drop_dead cursor c1 Hn) as (-> & -> & ->). by rewrite Hst.
    + by rewrite Hst.
  - destruct (IH (bump sc) c1) as (c2 & E2 & H1 & H2 & H3); [|done| |done|simpl; lia|].
    + intros n Hn. rewrite Hz. by apply Hp.
    + rewrite Hst. apply lookup_insert_eq.
    + rewrite E2. eexists. split; [done|]. rewrite H1, H2, H3, Hst, Hd. simpl.
      split_and!; [apply delete_insert_eq|done|done].
Qed.

End wrappers.
