(* ===== verification/Program.v ===== *)
(** Plugins as programs over the SDK's host calls ([openrusty-sdk/src/host.rs]):
    what each call answers and does, runs under any clock and any concurrent
    writers, and the rules the plugins' proofs share; and the attribute that
    declares a phase handler ([openrusty-macros/src/lib.rs]). *)

From S2P Require Import Prelude Text Phase Context HostState Abi Linker Sdk SdkHost.
From Stdlib Require Import ZArith Lia.
From stdpp Require Import options.
Local Open Scope Z_scope.

(** * Programs over the host *)

Inductive HostCall : Type → Type :=
| HPeers : HostCall (list PeerInfo)
| HKvGet (key : bytes) : HostCall (option bytes)
| HKvSet (key val : bytes) (ttl_ms : Z) : HostCall ()
| HKvScan (prefix : bytes) : HostCall (list (bytes * bytes))
| HNowMs : HostCall Z
| HCfg (key : bytes) : HostCall (option bytes)
| HReqMeta (key : bytes) : HostCall (option bytes)
| HReqMetaStr (key : bytes) : HostCall (option bytes)
| HReqBody : HostCall (option bytes)
| HSetPeer (idx : Z) : HostCall bool
| HKvDel (key : bytes) : HostCall ()
| HSetReqUri (path : bytes) : HostCall bool
| HSetReqQuery (query : bytes) : HostCall bool
| HSetReqHeader (name val : bytes) : HostCall bool
| HDelReqHeader (name : bytes) : HostCall ()
| HRespHeader (name : bytes) : HostCall (option bytes)
| HSetRespHeader (name val : bytes) : HostCall ()
| HDelRespHeader (name : bytes) : HostCall ()
| HSetRespBody (body : bytes) : HostCall bool
| HBodyChunk : HostCall (bytes * bool)
| HLog (level : LogLevel) (msg : bytes) : HostCall ().

Inductive prog (A : Type) : Type :=
| Pure (a : A)
| Trap
| Ask {R : Type} (c : HostCall R) (k : R → prog A).
Arguments Pure {_} _. Arguments Trap {_}. Arguments Ask {_ _} _ _.

Fixpoint prog_bind {A B} (f : A → prog B) (p : prog A) : prog B :=
  match p with
  | Pure a => f a
  | Trap => Trap
  | Ask c k => Ask c (λ r, prog_bind f (k r))
  end.
#[global] Instance prog_mbind : MBind prog := λ A B f p, prog_bind f p.
#[global] Instance prog_mret : MRet prog := λ A, Pure.

Definition ask {R} (c : HostCall R) : prog R := Ask c Pure.

Definition of_exec {A} (e : exec A) : prog A := match e with Ret a => Pure a | Panic => Trap end.

(** [dispatch!]: the handler listed for a phase, [Declined] without one. *)
Definition dispatch (table : list (Phase * prog Decision)) (ph : Phase) : prog Decision :=
  match list_find (λ h, h.1 = ph) table with Some (_, h) => h.2 | None => Pure Declined end.

(** * The phase attribute *)

Module Attribute.

Definition PHASES : list bytes :=
  map bs ["post_read"; "rewrite"; "access"; "content"; "balancer"; "header_filter"; "body_filter"; "log"]%string.

(** An annotated function, as far as the macro looks at it: its name, its inputs,
    the path segments of its return type if that is a path, and the rest. *)
Record ItemFn (Rest : Type) := {
  fn_ident : bytes;
  fn_inputs : list bytes;
  fn_output : option (list bytes);
  fn_rest : Rest;
}.
Arguments fn_ident {_} _. Arguments fn_inputs {_} _. Arguments fn_output {_} _. Arguments fn_rest {_} _.
Arguments Build_ItemFn {_} _ _ _ _.

Definition is_decision (names : list bytes) : bool :=
  bool_decide (names = [bs "Decision"]) || bool_decide (names = [bs "openrusty_sdk"; bs "Decision"]).

Inductive SignatureError := TakesParameters | ReturnsOther.

Definition signature_errors {Rest} (f : ItemFn Rest) : list SignatureError :=
  (if bool_decide (fn_inputs f = []) then [] else [TakesParameters]) ++
  (if from_option is_decision false (fn_output f) then [] else [ReturnsOther]).

(** What the attribute expands to: an error alone, the function with its errors,
    or the renamed function and the alias under its old name. *)
Inductive Expansion (Rest : Type) :=
| UnknownPhase (name : bytes)
| Rejected (f : ItemFn Rest) (errors : list SignatureError)
| Expanded (f : ItemFn Rest) (alias : bytes).
Arguments UnknownPhase {_} _. Arguments Rejected {_} _ _. Arguments Expanded {_} _ _.

Definition phase {Rest} (name : bytes) (f : ItemFn Rest) : Expansion Rest :=
  if negb (bool_decide (name ∈ PHASES)) then UnknownPhase name
  else match signature_errors f with
       | [] => Expanded (Build_ItemFn (bs "__orr_phase_" ++ name) (fn_inputs f) (fn_output f) (fn_rest f)) (fn_ident f)
       | errors => Rejected f errors
       end.

(** The attribute knows the phases the gateway runs, by the names it gives them. *)
Lemma phases_are_the_hosts name : name ∈ PHASES ↔ ∃ p, phase_name p = name.
Proof.
  split.
  - unfold PHASES. cbn [map]. rewrite !elem_of_cons. intros H.
    destruct_or! H; [exists PostRead|exists Rewrite|exists Access|exists Content|exists Balancer
      |exists HeaderFilter|exists BodyFilter|exists Log|by apply elem_of_nil in H]; by rewrite H.
  - intros [p <-]. apply (bool_decide_unpack _). by destruct p; vm_compute.
Qed.

(** It accepts exactly the [fn() -> Decision] under a phase's name, and keeps them
    callable as they were. *)
Lemma phase_accepts {Rest} name (f : ItemFn Rest) f' alias : phase name f = Expanded f' alias →
  (∃ p, phase_name p = name) ∧ fn_inputs f = [] ∧ from_option is_decision false (fn_output f) = true ∧
  alias = fn_ident f ∧ fn_rest f' = fn_rest f ∧ fn_ident f' = bs "__orr_phase_" ++ name.
Proof.
  unfold phase, signature_errors. case_bool_decide as Hn; [|done]. cbn [negb].
  case_bool_decide as Hi; [|done]. destruct (from_option is_decision false (fn_output f)); [|done].
  cbn [app]. intros [= <- <-]. split_and!; try done. by apply phases_are_the_hosts.
Qed.

End Attribute.

(** * Running a program

    Each call meets the store as other requests left it, and the host's clock;
    the wrappers of [SdkHost] give these answers through the guest's memory. *)

Record View := { vw_data : HostData; vw_state : HostState }.

(** A read the guest can hold: neither empty nor larger than its arena. *)
Definition readable (b : bytes) : option bytes :=
  if bool_decide (length b ≤ MAX_READ_LEN)%nat then nonempty b else None.

(** A whole scan: its snapshot, none when no cursor was left. *)
Definition scan_all (prefix : bytes) (now : Z) (s : HostState) : list (bytes * bytes) * HostState :=
  let '(id, s) := scan_begin prefix now now now s in
  if id <? 0 then ([], s)
  else (from_option sc_entries [] (st_cursors s !! id), scan_end id s).

Definition host_call {R} (c : HostCall R) (now : Z) (d : HostData) (s : HostState)
    : R * HostData * HostState :=
  match c in HostCall R return R * HostData * HostState with
  | HPeers => (map seen_peer (hd_peers d), d, s)
  | HKvGet key => let '(r, s) := HostState.kv_get key now s in (r ≫= readable, d, s)
  | HKvSet key val ttl => ((), d, (HostState.kv_set key val ttl now s).2)
  | HKvScan prefix => let '(l, s) := scan_all prefix now s in (l, d, s)
  | HNowMs => (now, d, s)
  | HCfg key => (from_utf8_lossy <$> (hd_settings d !! key ≫= readable), d, s)
  | HReqMeta key => (readable (req_meta_payload (hd_ctx d) (hd_req_body d) key), d, s)
  | HReqMetaStr key =>
      (from_utf8_lossy <$> readable (req_meta_payload (hd_ctx d) (hd_req_body d) key), d, s)
  | HReqBody => (readable (req_meta_payload (hd_ctx d) (hd_req_body d) (bs "body")), d, s)
  | HSetPeer idx =>
      let idx := to_signed 32 idx in
      if (0 <=? idx) && (idx <? Z.of_nat (length (hd_peers d)))
      then (true, hd_set_ctx (set_peer_index (Some idx) (hd_ctx d)) d, s)
      else (false, d, s)
  | HKvDel key => ((), d, (HostState.kv_del key s).2)
  | HSetReqUri v =>
      if valid_uri v then (true, hd_rewrite (set_target v (rc_query (hd_ctx d)) (hd_ctx d)) (SetUri v) d, s)
      else (false, d, s)
  | HSetReqQuery v =>
      if valid_query v then (true, hd_rewrite (set_target (rc_path (hd_ctx d)) v (hd_ctx d)) (SetQuery v) d, s)
      else (false, d, s)
  | HSetReqHeader name val =>
      if is_protected_header name then (false, d, s)
      else (true, hd_rewrite (set_headers (set_header (rc_headers (hd_ctx d)) name val) (hd_ctx d)) (SetHeader name val) d, s)
  | HDelReqHeader name =>
      ((), if is_protected_header name then d
           else hd_rewrite (set_headers (del_header (rc_headers (hd_ctx d)) name) (hd_ctx d)) (DelHeader name) d, s)
  | HRespHeader name => (from_utf8_lossy <$> (find_header name (hd_resp_headers d) ≫= readable), d, s)
  | HSetRespHeader name val => ((), hd_resp (resp_set (hd_resp_headers d) name val) (EditSet name val) d, s)
  | HDelRespHeader name => ((), hd_resp (del_header (hd_resp_headers d) name) (EditDel name) d, s)
  | HSetRespBody body =>
      if Z.of_nat (length body) <=? RESP_BODY_MAX_BYTES then (true, hd_set_resp_body (Some body) d, s)
      else (false, d, s)
  | HBodyChunk => ((default [] (readable (hd_body_chunk d)), hd_body_last d), d, s)
  | HLog _ _ => ((), d, s)
  end.

Record Surroundings := { su_clock : nat → Z; su_others : nat → HostState → HostState }.

Fixpoint run_prog {A} (su : Surroundings) (n : nat) (p : prog A) (v : View) : exec (A * View) :=
  match p with
  | Pure a => Ret (a, v)
  | Trap => Panic
  | Ask c k =>
      let '(r, d, s) := host_call c (su_clock su n) (vw_data v) (su_others su n (vw_state v)) in
      run_prog su (S n) (k r) {| vw_data := d; vw_state := s |}
  end.

(** ** Whatever other requests do meanwhile *)

(** [p] runs to an outcome in [Q], for every clock and every store it meets. *)
Fixpoint wp {A} (p : prog A) (Q : A → HostData → Prop) (d : HostData) : Prop :=
  match p with
  | Pure a => Q a d
  | Trap => False
  | Ask c k => ∀ now s, in_u 64 now → let '(r, d', _) := host_call c now d s in wp (k r) Q d'
  end.

Lemma wp_run {A} (su : Surroundings) (p : prog A) Q n v :
  (∀ i, in_u 64 (su_clock su i)) → wp p Q (vw_data v) →
  ∃ a v', run_prog su n p v = Ret (a, v') ∧ Q a (vw_data v').
Proof.
  intros Hclock. revert n v. induction p as [a| |R c k IH]; intros n v Hp; simpl in *; [by eexists _, _|done|].
  specialize (Hp (su_clock su n) (su_others su n (vw_state v)) (Hclock n)).
  destruct (host_call c _ _ _) as [[r d] s]. by apply IH.
Qed.

Lemma wp_mono {A} (p : prog A) (Q Q' : A → HostData → Prop) d :
  (∀ a d, Q a d → Q' a d) → wp p Q d → wp p Q' d.
Proof.
  intros HQ. revert d. induction p as [a| |R c k IH]; intros d Hp; simpl in *; [by apply HQ|done|].
  intros now s Hn. specialize (Hp now s Hn). destruct (host_call c _ _ _) as [[r d'] s']. by apply IH.
Qed.

Lemma wp_bind {A B} (p : prog A) (f : A → prog B) Q d : wp p (λ a d, wp (f a) Q d) d → wp (p ≫= f) Q d.
Proof.
  revert d. induction p as [a| |R c k IH]; intros d Hp; simpl in *; [done|done|].
  intros now s Hn. specialize (Hp now s Hn). destruct (host_call c _ _ _) as [[r d'] s']. by apply IH.
Qed.

(** Calls that only read or write the store leave the request alone. *)
Definition leaves_data {R} (c : HostCall R) : Prop := match c with
  | HSetPeer _ | HSetReqUri _ | HSetReqQuery _ | HSetReqHeader _ _ | HDelReqHeader _
  | HSetRespHeader _ _ | HDelRespHeader _ | HSetRespBody _ => False
  | _ => True
  end.

Lemma host_call_data {R} (c : HostCall R) now d s : leaves_data c → (host_call c now d s).1.2 = d.
Proof. destruct c; simpl; try done; intros _; by repeat (case_match; simplify_eq/=). Qed.

Lemma wp_ask {R A} (c : HostCall R) (f : R → prog A) Q d :
  leaves_data c → (∀ r, wp (f r) Q d) → wp (r ← ask c; f r) Q d.
Proof.
  intros Hc Hf. simpl. intros now s _. pose proof (host_call_data c now d s Hc) as Hd.
  destruct (host_call c now d s) as [[r d'] s']. simpl in Hd. by subst.
Qed.

(** The same, keeping what the clock says. *)
Lemma wp_now {A} (f : Z → prog A) Q d :
  (∀ now, in_u 64 now → wp (f now) Q d) → wp (now ← ask HNowMs; f now) Q d.
Proof. intros Hf now s Hn. by apply Hf. Qed.

Lemma wp_peers {A} (f : list PeerInfo → prog A) Q d :
  wp (f (map seen_peer (hd_peers d))) Q d → wp (ps ← ask HPeers; f ps) Q d.
Proof. by intros Hf now s _. Qed.

(** ** Whatever is asked of it *)

(** [p] always ends, in a result satisfying [P], whatever request it serves. *)
Definition always {A} (P : A → Prop) (p : prog A) : Prop := ∀ d, wp p (λ a _, P a) d.

Lemma always_pure {A} (P : A → Prop) a : P a → always P (Pure a).
Proof. by intros Ha d. Qed.

Lemma always_ask {A R} (P : A → Prop) (c : HostCall R) (f : R → prog A) :
  (∀ r, always P (f r)) → always P (r ← ask c; f r).
Proof. intros Hf d now s _. cbn. destruct (host_call c now d s) as [[r d'] s']. apply Hf. Qed.

Lemma always_last {R} (c : HostCall R) : always (λ _, True) (ask c).
Proof. intros d now s _. by destruct (host_call c now d s) as [[r d'] s']. Qed.

Lemma always_bind {A B} (P : B → Prop) (p : prog A) (f : A → prog B) :
  always (λ _, True) p → (∀ a, always P (f a)) → always P (p ≫= f).
Proof. intros Hp Hf d. apply wp_bind. eapply wp_mono; [|apply Hp]. intros a d' _. apply Hf. Qed.

Lemma always_wp {A} (P : A → Prop) (p : prog A) su n v :
  (∀ i, in_u 64 (su_clock su i)) → always P p → ∃ a v', run_prog su n p v = Ret (a, v') ∧ P a.
Proof. intros Hc Hp. destruct (wp_run su p (λ a _, P a) n v Hc (Hp _)) as (a & v' & E & Ha). by exists a, v'. Qed.

(** ** One request at a time *)

Definition quiet (now : Z) : Surroundings := {| su_clock := λ _, now; su_others := λ _ s, s |}.

Definition quiet_run {A} (now : Z) (p : prog A) (v : View) : exec (A * View) := run_prog (quiet now) 0 p v.

Lemma run_quiet_any {A} now n (p : prog A) v : run_prog (quiet now) n p v = quiet_run now p v.
Proof.
  unfold quiet_run. generalize 0%nat as m. revert n v. induction p as [a| |R c k IH]; intros n v m; simpl; [done..|].
  destruct (host_call c _ _ _) as [[r d] s]. by rewrite (IH r (S n) _ (S m)).
Qed.

Lemma quiet_bind {A B} now (p : prog A) (f : A → prog B) v :
  quiet_run now (p ≫= f) v = '(a, v) ← quiet_run now p v; quiet_run now (f a) v.
Proof.
  revert v. induction p as [a| |R c k IH]; intros v; [done..|]. simpl.
  unfold quiet_run. simpl. destruct (host_call c _ _ _) as [[r d] s].
  change (run_prog (quiet now) 1 (prog_bind f (k r)) {| vw_data := d; vw_state := s |}) with
    (run_prog (quiet now) 1 (k r ≫= f) {| vw_data := d; vw_state := s |}).
  rewrite !run_quiet_any, IH. done.
Qed.

Lemma quiet_ask {A R} now (c : HostCall R) (f : R → prog A) v :
  quiet_run now (r ← ask c; f r) v =
    let '(r, d, s) := host_call c now (vw_data v) (vw_state v) in
    quiet_run now (f r) {| vw_data := d; vw_state := s |}.
Proof.
  unfold quiet_run at 1. simpl. destruct (host_call c _ _ _) as [[r d] s]. apply run_quiet_any.
Qed.

Lemma quiet_Ask {A R} now (c : HostCall R) (k : R → prog A) v :
  quiet_run now (Ask c k) v =
    let '(r, d, s) := host_call c now (vw_data v) (vw_state v) in
    quiet_run now (k r) {| vw_data := d; vw_state := s |}.
Proof. exact (quiet_ask now c k v). Qed.

Lemma quiet_pure {A} now (a : A) v : quiet_run now (Pure a) v = Ret (a, v).
Proof. done. Qed.

Lemma quiet_exec {A B} now (e : exec A) (f : A → prog B) v :
  quiet_run now (a ← of_exec e; f a) v = a ← e; quiet_run now (f a) v.
Proof. by destruct e. Qed.

(** ** The store between calls *)

Definition record_of (digits : bytes) (now ttl : Z) : KvEntry :=
  {| ke_value := digits; ke_expires_at := if ttl <=? 0 then U64_MAX else sat_add 64 now ttl |}.

(** Two stores that answer every read alike at this moment. *)
Definition reads_as (now : Z) (s s' : HostState) : Prop :=
  ∀ k, (HostState.kv_get k now s').1 = (HostState.kv_get k now s).1.

Lemma kv_get_value k now s :
  (HostState.kv_get k now s).1 =
    (e ← st_kv s !! k; if is_expired (ke_expires_at e) now then None else Some (ke_value e)).
Proof.
  unfold HostState.kv_get, kv_get_with. destruct (st_kv s !! k) as [e|]; [|done]. simpl.
  by destruct (is_expired (ke_expires_at e) now).
Qed.

Lemma drop_expired_reads k now s : reads_as now s (drop_expired k now s).
Proof.
  intros k'. rewrite !kv_get_value. unfold drop_expired.
  destruct (st_kv s !! k) as [e|] eqn:Ek; [|done].
  destruct (is_expired (ke_expires_at e) now) eqn:Ex; [|done]. simpl.
  destruct (decide (k = k')) as [<-|Hne]; [|by rewrite lookup_delete_ne].
  rewrite lookup_delete_eq, Ek. simpl. by rewrite Ex.
Qed.

Lemma kv_get_reads k now s : reads_as now s (HostState.kv_get k now s).2.
Proof.
  unfold HostState.kv_get, kv_get_with. destruct (st_kv s !! k) as [e|]; [|apply drop_expired_reads].
  destruct (negb _); [done|apply drop_expired_reads].
Qed.

Lemma reads_as_trans now s1 s2 s3 : reads_as now s1 s2 → reads_as now s2 s3 → reads_as now s1 s3.
Proof. intros H1 H2 k. by rewrite H2, H1. Qed.

Lemma kv_set_lookup k val ttl now s k' :
  st_kv (HostState.kv_set k val ttl now s).2 !! k' =
    if (HostState.kv_set k val ttl now s).1 && bool_decide (k = k')
    then Some (record_of val now ttl) else st_kv s !! k'.
Proof.
  unfold HostState.kv_set. destruct (negb _); [done|]. simpl. case_bool_decide as Hk.
  - subst. by rewrite lookup_insert_eq.
  - by rewrite lookup_insert_ne.
Qed.

(** ** What a program's reads and writes do to the store *)

(** No room for [val] under [key] beside the other entries. *)
Definition no_room (key val : bytes) (s : HostState) : Prop :=
  KV_MAX_TOTAL_BYTES < footprint (delete key (st_kv s)) + blen key + blen val.

Lemma kv_set_admitted key val ttl now s :
  state_ok s → blen val <= KV_MAX_VALUE_BYTES →
  (HostState.kv_set key val ttl now s).1 = true ∨
  no_room key val s ∧ (HostState.kv_set key val ttl now s).2 = s.
Proof.
  intros Hs Hv. pose proof (ok_total s Hs) as Ht. pose proof (ok_quota s Hs) as Hq.
  unfold HostState.kv_set, no_room. destruct (kv_set_verdict _ _ _) eqn:E; [by left|right].
  split; [|done]. apply not_true_iff_false in E. rewrite kv_set_verdict_true in E.
  destruct (st_kv s !! key) as [e|] eqn:Ek.
  - pose proof (footprint_delete _ _ _ Ek). pose proof (footprint_nonneg (delete key (st_kv s))).
    unfold sat_sub in E. lia.
  - rewrite delete_id by done. unfold sat_sub in E. pose proof (footprint_nonneg (st_kv s)). lia.
Qed.

(** What reading leaves: a valid store with no entry added or changed. *)
Definition shrinks (s s' : HostState) : Prop := state_ok s → state_ok s' ∧ st_kv s' ⊆ st_kv s.

Lemma shrinks_trans s1 s2 s3 : shrinks s1 s2 → shrinks s2 s3 → shrinks s1 s3.
Proof. intros H1 H2 [H3 ?]%H1. apply H2 in H3 as [??]. split; [done|]. by etrans. Qed.

Lemma kv_get_shrinks key now s : shrinks s (HostState.kv_get key now s).2.
Proof.
  intros Hs. split; [apply (host_step_ok s); [apply hs_get|done]|].
  unfold HostState.kv_get, kv_get_with, drop_expired. repeat case_match; try done; apply delete_subseteq.
Qed.

Lemma scan_begin_shrinks prefix now s : shrinks s (scan_begin prefix now now now s).2.
Proof.
  intros Hs. split; [by apply scan_begin_ok|]. unfold scan_begin.
  repeat case_match; simpl; try done; apply map_filter_subseteq.
Qed.

Lemma scan_all_shrinks prefix now s : shrinks s (scan_all prefix now s).2.
Proof.
  unfold scan_all. pose proof (scan_begin_shrinks prefix now s) as Hb.
  destruct (scan_begin prefix now now now s) as [id s1]. destruct (id <? 0); [done|].
  eapply shrinks_trans; [exact Hb|]. intros Hs. split; [|done].
  apply (host_step_ok s1); [apply hs_scan_end|done].
Qed.

Lemma no_room_shrunk key val s s' : shrinks s s' → state_ok s → no_room key val s' → no_room key val s.
Proof.
  intros H Hs. destruct (H Hs) as [_ Hsub]. unfold no_room.
  pose proof (footprint_subseteq (delete key (st_kv s')) (delete key (st_kv s)) ltac:(by apply delete_mono)). lia.
Qed.
