(* ===== verification/Scheduler.v ===== *)
(** The bundled affinity balancer ([plugins/vllm-kv-scheduler/src/choice.rs],
    [lib.rs]): task keys, affinity records and the least-loaded choice, as a
    program over the SDK's host calls. *)

From S2P Require Import Prelude Text Numbers Phase Context HostState Abi Linker Sdk SdkHost Program.
From Stdlib Require Import ZArith Lia.
From stdpp Require Import options.
Local Open Scope Z_scope.

(** * Task keys *)

Inductive ExtractRule :=
| QueryParam (param : bytes)
| PathSegment (n : Z)
| BodyField (field : bytes).

Definition nonblank (s : bytes) : option bytes := nonempty (trim s).

(** The segment number is cast to the guest's 32-bit [usize]. *)
Definition parse_extract (cfg : bytes) : option ExtractRule :=
  let cfg := trim cfg in
  match strip_prefix (bs "query:") cfg with
  | Some param => QueryParam <$> nonblank param
  | None =>
      match strip_prefix (bs "path:") cfg with
      | Some n =>
          n ← parse_ascii_u64 (trim n);
          let n := wrap usize_bits n in
          if n =? 0 then None else Some (PathSegment n)
      | None =>
          match strip_prefix (bs "body:") cfg with
          | Some field => BodyField <$> nonblank field
          | None => None
          end
      end
  end.

(** [windows(n).position]: the first offset of [needle]. *)
Fixpoint find_subslice (hay needle : bytes) : option nat :=
  if starts_with needle hay then Some 0%nat
  else match hay with
       | [] => None
       | _ :: hay => S <$> find_subslice hay needle
       end.

Definition is_json_ws (b : byte) : bool :=
  bool_decide (b = x20) || bool_decide (b = x09) || bool_decide (b = x0a) || bool_decide (b = x0d).

Fixpoint skip_ws (s : bytes) : bytes :=
  match s with
  | b :: t => if is_json_ws b then skip_ws t else s
  | [] => []
  end.

Definition parse_hex4 (a b c d : byte) : option Z :=
  a ← hex_val a; b ← hex_val b; c ← hex_val c; d ← hex_val d;
  Some (a * 4096 + b * 256 + c * 16 + d).

(** [char::encode_utf8] below the astral planes. *)
Definition encode_utf8 (cp : Z) : bytes :=
  if cp <? 128 then [byte_of_Z cp]
  else if cp <? 2048 then [byte_of_Z (192 + cp / 64); byte_of_Z (128 + cp mod 64)]
  else [byte_of_Z (224 + cp / 4096); byte_of_Z (128 + cp / 64 mod 64); byte_of_Z (128 + cp mod 64)].

Definition simple_escape (e : byte) : option byte :=
  if bool_decide (e = x22) then Some x22
  else if bool_decide (e = x5c) then Some x5c
  else if bool_decide (e = x2f) then Some x2f
  else if bool_decide (e = x62) then Some x08
  else if bool_decide (e = x66) then Some x0c
  else if bool_decide (e = x6e) then Some x0a
  else if bool_decide (e = x72) then Some x0d
  else if bool_decide (e = x74) then Some x09
  else None.

(** The bytes of a string literal after its opening quote. *)
Fixpoint decode_string (s : bytes) : option bytes :=
  match s with
  | [] => None
  | b :: s =>
      if bool_decide (b = x22) then Some []
      else if negb (bool_decide (b = x5c)) then cons b <$> decode_string s
      else match s with
           | [] => None
           | e :: s =>
               if bool_decide (e = x75) then
                 match s with
                 | a :: b :: c :: d :: s =>
                     match parse_hex4 a b c d with
                     | Some cp =>
                         if (55296 <=? cp) && (cp <=? 57343) then None
                         else app (encode_utf8 cp) <$> decode_string s
                     | None => None
                     end
                 | _ => None
                 end
               else match simple_escape e with
                    | Some x => cons x <$> decode_string s
                    | None => None
                    end
           end
  end.

Definition string_value_after (s : bytes) : option bytes :=
  match skip_ws s with
  | b :: s =>
      if bool_decide (b = x3a) then
        match skip_ws s with
        | q :: s => if bool_decide (q = x22) then decode_string s else None
        | [] => None
        end
      else None
  | [] => None
  end.

(** The scan over the occurrences of the quoted name; each turn starts one byte
    further, so the body's length bounds the turns. *)
Fixpoint field_from (fuel : nat) (needle body : bytes) : option bytes :=
  match fuel with
  | O => None
  | S fuel =>
      match find_subslice body needle with
      | None => None
      | Some pos =>
          match string_value_after (drop (pos + length needle) body) with
          | Some v => Some v
          | None => field_from fuel needle (drop (S pos) body)
          end
      end
  end.

Definition json_string_field (body field : bytes) : option bytes :=
  if bool_decide (field = []) then None
  else field_from (S (length body)) (x22 :: field ++ [x22]) body.

Definition AFF_PREFIX : bytes := bs "aff:".
Definition DEFAULT_TTL_S : Z := 300.

Definition aff_key (task : bytes) : bytes := AFF_PREFIX ++ task.

(** * The program *)

Definition sched_key (idx : Z) : prog bytes :=
  digits ← of_exec (ascii_u64 idx);
  Pure (bs "sched:" ++ digits).

Definition cfg_num (key : bytes) (dflt : Z) : prog Z :=
  s ← ask (HCfg key);
  Pure (default dflt (s ← s; parse_ascii_u64 (trim s))).

(** [ttl_s.saturating_mul(1000) as i64]. *)
Definition ttl_of (ttl_s : Z) : Z := to_signed 64 (sat_mul 64 ttl_s 1000).

Definition ttl_ms : prog Z :=
  s ← cfg_num (bs "affinity_ttl_s") DEFAULT_TTL_S;
  Pure (ttl_of s).

Definition task_key : prog (option bytes) :=
  extract ← ask (HCfg (bs "extract"));
  match extract ≫= parse_extract with
  | None => Pure None
  | Some (QueryParam param) =>
      query ← ask (HReqMetaStr (bs "query"));
      Pure (query ← query; query_param query param)
  | Some (PathSegment n) =>
      path ← ask (HReqMetaStr (bs "path"));
      Pure (path ← path; path_segment path n)
  | Some (BodyField field) =>
      body ← ask HReqBody;
      Pure (body ← body; raw ← json_string_field body field; nonblank (from_utf8_lossy raw))
  end.

Definition affinity_peer (task : bytes) (peers : list PeerInfo) : prog (option nat) :=
  raw ← ask (HKvGet (aff_key task));
  Pure (raw ← raw;
        idx ← parse_ascii_u64 raw;
        let idx := Z.to_nat (wrap usize_bits idx) in
        peer ← peers !! idx;
        if pi_healthy peer then Some idx else None).

Definition sched_ts (idx : nat) : prog Z :=
  key ← sched_key (Z.of_nat idx);
  v ← ask (HKvGet key);
  Pure (default 0 (v ≫= parse_ascii_u64)).

(** The live affinity records per peer. *)
Definition count_record (active : list Z) (val : bytes) : list Z :=
  match parse_ascii_u64 val with
  | Some idx => alter (λ n, sat_add 32 n 1) (Z.to_nat (wrap usize_bits idx)) active
  | None => active
  end.

Fixpoint node_stats (cap : Z) (active : list Z) (i : nat) (peers : list PeerInfo) : prog (list NodeStat) :=
  match peers with
  | [] => Pure []
  | p :: peers =>
      last ← sched_ts i;
      rest ← node_stats cap active (S i) peers;
      Pure ({| ns_healthy := pi_healthy p; ns_active := default 0 (active !! i);
               ns_last_sched_ms := last; ns_cap := cap |} :: rest)
  end.

Definition gather_and_pick (task : bytes) (peers : list PeerInfo) : prog Decision :=
  if bool_decide (peers = []) then Pure Declined
  else
    ttl_s ← cfg_num (bs "affinity_ttl_s") DEFAULT_TTL_S;
    cap ← cfg_num (bs "max_tasks_per_node") 0;
    let ttl := ttl_of ttl_s in
    records ← ask (HKvScan AFF_PREFIX);
    let active := foldl count_record (replicate (length peers) 0) (map snd records) in
    nodes ← node_stats (wrap 32 cap) active 0 peers;
    match choose_least_loaded nodes with
    | None => Pure Declined
    | Some pick =>
        val ← of_exec (ascii_u64 (Z.of_nat pick));
        ask (HKvSet (aff_key task) val ttl);;
        key ← sched_key (Z.of_nat pick);
        now ← ask HNowMs;
        val ← of_exec (ascii_u64 now);
        ask (HKvSet key val ttl);;
        ok ← ask (HSetPeer (wrap 32 (Z.of_nat pick)));
        Pure (if ok : bool then DOk else Declined)
    end.

Definition on_balancer : prog Decision :=
  task ← task_key;
  match task with
  | None => Pure Declined
  | Some task =>
      peers ← ask HPeers;
      sticky ← affinity_peer task peers;
      match sticky with
      | Some idx =>
          val ← of_exec (ascii_u64 (Z.of_nat idx));
          ttl ← ttl_ms;
          ask (HKvSet (aff_key task) val ttl);;
          ok ← ask (HSetPeer (wrap 32 (Z.of_nat idx)));
          if ok : bool then Pure DOk else gather_and_pick task peers
      | None => gather_and_pick task peers
      end
  end.

Definition on_log : prog Decision :=
  task ← task_key;
  match task with
  | Some task =>
      upstream ← ask (HReqMetaStr (bs "upstream"));
      ask (HLog Info (bs "vllm-kv-scheduler done task=" ++ task ++ bs " upstream=" ++ default [] upstream))
  | None => ask (HLog Info (bs "vllm-kv-scheduler done"))
  end;;
  Pure DOk.

Definition sched_dispatch (phase : Phase) : prog Decision :=
  match phase with Balancer => on_balancer | Phase.Log => on_log | _ => Pure Declined end.

(** * Running the program *)

Lemma wp_ascii {A} v (f : bytes → prog A) Q d :
  in_u 64 v → (∀ s, parse_ascii_u64 s = Some v → wp (f s) Q d) → wp (s ← of_exec (ascii_u64 v); f s) Q d.
Proof. intros Hv Hf. destruct (ascii_u64_roundtrip v Hv) as (s & -> & Hs). by apply Hf. Qed.

Lemma wp_cfg_num {A} key dflt (f : Z → prog A) Q d :
  (∀ v, wp (f v) Q d) → wp (v ← cfg_num key dflt; f v) Q d.
Proof. intros Hf. unfold cfg_num. apply wp_bind, wp_ask; [done|]. intros r. apply Hf. Qed.

Definition pin (i : nat) (d : HostData) : HostData :=
  hd_set_ctx (set_peer_index (Some (Z.of_nat i)) (hd_ctx d)) d.

Definition peers_bounded (d : HostData) : Prop := Z.of_nat (length (hd_peers d)) < 2 ^ 31.

Lemma set_peer_call i now d s :
  peers_bounded d → (i < length (hd_peers d))%nat →
  host_call (HSetPeer (wrap 32 (Z.of_nat i))) now d s = (true, pin i d, s).
Proof.
  unfold peers_bounded. intros Hb Hi. cbn [host_call]. rewrite wrap_small by (unfold in_u; lia).
  rewrite to_signed_small by lia.
  by rewrite (proj2 (Z.leb_le 0 _)), (proj2 (Z.ltb_lt _ (Z.of_nat (length (hd_peers d))))) by lia.
Qed.

(** What a run may answer: a healthy peer pinned, or nothing touched. *)
Definition balanced (d : HostData) (a : Decision) (d' : HostData) : Prop :=
  match a with
  | DOk => ∃ i p, hd_peers d !! i = Some p ∧ pv_healthy p = true ∧ d' = pin i d
  | Declined => d' = d
  | _ => False
  end.

Lemma wp_sched_ts i Q d : (Z.of_nat i < 2 ^ 64) → (∀ v, Q v d) → wp (sched_ts i) Q d.
Proof.
  intros Hi HQ. unfold sched_ts, sched_key. apply wp_bind, wp_ascii; [unfold in_u; lia|]. intros s _. simpl.
  intros now st _. destruct (HostState.kv_get _ _ _). simpl. apply HQ.
Qed.

(** The nodes are the peers, in order, with their health. *)
Lemma wp_node_stats cap active i peers Q d :
  Z.of_nat i + Z.of_nat (length peers) < 2 ^ 64 →
  (∀ nodes, map ns_healthy nodes = map pi_healthy peers → Q nodes d) →
  wp (node_stats cap active i peers) Q d.
Proof.
  revert i Q. induction peers as [|p peers IH]; intros i Q Hi HQ; [by apply HQ|].
  cbn [node_stats]. simpl in Hi. apply wp_bind, wp_sched_ts; [lia|]. intros last.
  apply wp_bind, IH; [lia|]. intros rest Hr. apply HQ. simpl. by rewrite Hr.
Qed.

Lemma wp_gather task d :
  peers_bounded d → wp (gather_and_pick task (map seen_peer (hd_peers d))) (balanced d) d.
Proof.
  intros Hb. unfold gather_and_pick. case_bool_decide as He; [done|].
  apply wp_cfg_num. intros ttl_s. apply wp_cfg_num. intros cap. apply wp_ask; [done|]. intros records.
  apply wp_bind, wp_node_stats.
  { rewrite length_map. unfold peers_bounded in Hb. lia. }
  intros nodes Hh. destruct (choose_least_loaded nodes) as [pick|] eqn:Ec; [|done].
  pose proof (choose_least_loaded_spec nodes) as Hc. rewrite Ec in Hc. destruct Hc as (n & Hn & Hel & _).
  apply (f_equal (λ l, l !! pick)) in Hh. rewrite !list_lookup_fmap, Hn in Hh. simpl in Hh.
  destruct (hd_peers d !! pick) as [p|] eqn:Ep; [|done]. simpl in Hh. injection Hh as Hh.
  pose proof (lookup_lt_Some _ _ _ Ep) as Hlt. unfold peers_bounded in Hb.
  apply wp_ascii; [unfold in_u; lia|]. intros val _. apply wp_ask; [done|]. intros _.
  unfold sched_key. apply wp_bind, wp_ascii; [unfold in_u; lia|]. intros key _. cbn [wp].
  apply wp_now. intros now Hnow. apply wp_ascii; [done|]. intros val2 _. apply wp_ask; [done|]. intros _.
  intros now3 s3 _. rewrite set_peer_call by done. simpl. exists pick, p. split_and!; [done| |done].
  unfold node_eligible in Hel. apply andb_true_iff in Hel as [Hel _]. congruence.
Qed.

Lemma wp_task_key {A} (f : option bytes → prog A) Q d :
  (∀ t, wp (f t) Q d) → wp (t ← task_key; f t) Q d.
Proof.
  intros Hf. unfold task_key. apply wp_bind, wp_ask; [done|]. intros r.
  destruct (r ≫= parse_extract) as [[param|n|field]|]; [| | |apply Hf];
    (apply wp_ask; [done|]; intros r2; apply Hf).
Qed.

Lemma wp_affinity {A} task d (f : option nat → prog A) Q :
  (∀ o, match o with
        | Some i => ∃ p, hd_peers d !! i = Some p ∧ pv_healthy p = true
        | None => True
        end → wp (f o) Q d) →
  wp (o ← affinity_peer task (map seen_peer (hd_peers d)); f o) Q d.
Proof.
  intros Hf. unfold affinity_peer. apply wp_bind, wp_ask; [done|]. intros r. apply Hf.
  destruct (r ≫= _) as [i|] eqn:E; [|done].
  apply bind_Some in E as (raw & _ & (idx & _ & (q & Hq & Hi)%bind_Some)%bind_Some).
  rewrite list_lookup_fmap in Hq. apply fmap_Some in Hq as (p & Hp & ->). simpl in Hi.
  destruct (pv_healthy p) eqn:Hh; [|done]. injection Hi as <-. by exists p.
Qed.

Lemma wp_balancer d : peers_bounded d → wp on_balancer (balanced d) d.
Proof.
  intros Hb. unfold on_balancer. apply wp_task_key. intros [task|]; [|done].
  apply wp_peers, wp_affinity. intros [i|] Hi; [|by apply wp_gather].
  destruct Hi as (p & Hp & Hh). pose proof (lookup_lt_Some _ _ _ Hp) as Hlt.
  pose proof Hb as Hb'. unfold peers_bounded in Hb'.
  apply wp_ascii; [unfold in_u; lia|]. intros val _. unfold ttl_ms. apply wp_bind, wp_cfg_num.
  intros ttl_s. cbn [wp]. apply wp_ask; [done|]. intros _. intros now s _.
  rewrite set_peer_call by done. simpl. by exists i, p.
Qed.














(** ** The choice for a task without a record *)






(** ** Affinity *)









(** ** Whatever runs beside it *)

(** Under every clock and every interference on the shared store, the balancer
    ends without a trap, having pinned a healthy peer or touched nothing. *)
Lemma balancer_total su n v :
  (∀ i, in_u 64 (su_clock su i)) → peers_bounded (vw_data v) →
  ∃ a v', run_prog su n on_balancer v = Ret (a, v') ∧ balanced (vw_data v) a (vw_data v').
Proof. intros Hc Hb. by apply wp_run, wp_balancer. Qed.

(** ** Task keys from a JSON body *)

Definition json_escape (v : bytes) : bytes :=
  concat (map (λ b, if bool_decide (b = x22) || bool_decide (b = x5c) then [x5c; b] else [b]) v).

Lemma decode_string_escape v rest : decode_string (json_escape v ++ x22 :: rest) = Some v.
Proof.
  induction v as [|b v IH]; [done|]. unfold json_escape in *. cbn [map concat]. rewrite <-app_assoc.
  destruct (decide (b = x22)) as [->|Hq]; [simpl; by rewrite IH|].
  destruct (decide (b = x5c)) as [->|Hs]; [simpl; by rewrite IH|].
  rewrite !bool_decide_eq_false_2 by done. cbn [orb app decode_string].
  rewrite !bool_decide_eq_false_2 by done. cbn [negb]. by rewrite IH.
Qed.

(** A field written first in an object reads back. *)
Lemma json_field_roundtrip field v :
  field ≠ [] →
  json_string_field (x7b :: x22 :: field ++ x22 :: x3a :: x22 :: json_escape v ++ [x22; x7d]) field = Some v.
Proof.
  intros Hf. unfold json_string_field. rewrite bool_decide_eq_false_2 by done.
  set (rest := x3a :: x22 :: json_escape v ++ [x22; x7d]).
  assert (x22 :: field ++ x22 :: rest = (x22 :: field ++ [x22]) ++ rest) as Hb.
  { simpl. by rewrite <-app_assoc. }
  cbn [length]. cbn [field_from]. rewrite Hb.
  assert (find_subslice (x7b :: (x22 :: field ++ [x22]) ++ rest) (x22 :: field ++ [x22]) = Some 1%nat) as ->.
  { cbn [find_subslice]. assert (starts_with (x22 :: field ++ [x22]) (x7b :: (x22 :: field ++ [x22]) ++ rest) = false) as ->.
    { unfold starts_with. by apply bool_decide_eq_false_2. }
    assert (starts_with (x22 :: field ++ [x22]) ((x22 :: field ++ [x22]) ++ rest) = true) as Hs.
    { apply starts_with_iff. by exists rest. }
    destruct ((x22 :: field ++ [x22]) ++ rest) eqn:E; cbn [find_subslice]; by rewrite Hs. }
  change (1 + length (x22 :: field ++ [x22]))%nat with (S (length (x22 :: field ++ [x22]))).
  cbn [drop]. rewrite drop_app_length. unfold rest, string_value_after. simpl.
  by rewrite decode_string_escape.
Qed.

(** The quoted name is looked for as text: a key that ends in an escaped quote and
    the name answers for it. *)
Lemma escaped_key_answers :
  json_string_field (x7b :: x22 :: bs "x" ++ x5c :: x22 :: bs "salt" ++ x22 :: x3a :: x22 :: bs "v" ++ [x22; x7d])
    (bs "salt") = Some (bs "v").
Proof. by vm_compute. Qed.

(** ** Edges of the settings *)

(** A time to live of zero, or one beyond 63 bits of milliseconds, is a record
    that never expires. *)
Lemma odd_ttl_never_expires :
  ttl_of 0 = 0 ∧ ttl_of (2 ^ 64 - 1) = -1 ∧ ttl_of 9223372036854776 < 0 ∧
  ∀ dg now ttl, ttl <= 0 → ke_expires_at (record_of dg now ttl) = U64_MAX.
Proof. split_and!; [done|done|done|]. intros dg now ttl H. unfold record_of. simpl. by rewrite (proj2 (Z.leb_le ttl 0)). Qed.

(** A capacity of 2^32 is truncated to none at all. *)
Lemma large_capacity_is_unlimited n :
  node_eligible {| ns_healthy := true; ns_active := n; ns_last_sched_ms := 0; ns_cap := wrap 32 (2 ^ 32) |} = true.
Proof. done. Qed.

(** A body the gateway accepts but the guest's arena cannot hold is no body. *)
Lemma oversized_body_is_absent now d s :
  (MAX_READ_LEN < length (hd_req_body d))%nat → (host_call HReqBody now d s).1.1 = None.
Proof.
  intros Hl. cbn [host_call fst]. unfold readable.
  change (req_meta_payload (hd_ctx d) (hd_req_body d) (bs "body")) with (hd_req_body d).
  by rewrite bool_decide_eq_false_2 by lia.
Qed.

(** * A concrete balancer *)




