(* ===== verification/Samples.v ===== *)
(** The sample plugins: [plugins/kv-probe/src/lib.rs], the drill over every host
    call, [plugins/dynamic-echo/src/lib.rs] and [plugins/dynamic-reverse/src/lib.rs],
    as programs over the SDK's host calls. *)

From S2P Require Import Prelude Text Numbers Phase Context HostState Abi Linker Sdk SdkHost Program.
From Stdlib Require Import ZArith Lia.
From stdpp Require Import options.
Local Open Scope Z_scope.

Module KvProbe.

Definition ROUNDTRIP_KEY : bytes := bs "probe:roundtrip".
Definition TTL_KEY : bytes := bs "probe:ttl".
Definition MARKER_KEY : bytes := bs "probe:marker".
Definition MARKER_VAL : bytes := bs "mk".
Definition POST_READ_KEY : bytes := bs "probe:post_read".
Definition REWRITE_KEY : bytes := bs "probe:rewrite".
Definition BODY_SEEN_PREFIX : bytes := bs "probe:body_seen:".
Definition LOG_RAN_KEY : bytes := bs "probe:log_ran".
Definition SCAN_PREFIX : bytes := bs "probe:scan:".
Definition SCAN_A_KEY : bytes := bs "probe:scan:a".
Definition SCAN_B_KEY : bytes := bs "probe:scan:b".
Definition WS_HANDSHAKE_PATH : bytes := bs "/ws".
Definition WS_AUTH_KEY : bytes := bs "probe:ws_auth".
Definition WS_COOKIE_KEY : bytes := bs "probe:ws_cookie".
Definition WS_AUTH_EXPECT : bytes := bs "Bearer ws-probe-token".
Definition WS_COOKIE_EXPECT : bytes := bs "session=ws-probe-cookie".
Definition PROBE_TTL_MS : Z := 10000.
Definition SHORT_TTL_MS : Z := 1500.
Definition RESP_HEADER : bytes := bs "x-kv-probe".
Definition RESP_BODY_PREFIX : bytes := bs "kv-probe-resp-body:".
Definition RW_URI : bytes := bs "/rewritten/by/plugin".
Definition RW_QUERY : bytes := bs "rw=1".
Definition RW_HEADER : bytes := bs "X-Rw-Probe".
Definition RW_DROP_HEADER : bytes := bs "X-Rw-Drop".
Definition REDIRECT_TO : bytes := bs "/moved/by/plugin".
Definition LOG_404_KEY : bytes := bs "probe:log404".
Definition LOG_404_HEADER : bytes := bs "X-Log404".

Inductive ProbeMode :=
| SetGetDel | Absent | TtlSet | TtlCheck | PostReadCheck | RewriteCheck | BodyCheck | LogCheck | Scan
| BalancerCheck | WsHeaders | RespBody | Log404Check.

Definition parse_mode (query : bytes) : option ProbeMode :=
  m ← query_param query (bs "mode");
  if bool_decide (m = bs "setgetdel") then Some SetGetDel
  else if bool_decide (m = bs "absent") then Some Absent
  else if bool_decide (m = bs "ttl-set") then Some TtlSet
  else if bool_decide (m = bs "ttl-check") then Some TtlCheck
  else if bool_decide (m = bs "postread") then Some PostReadCheck
  else if bool_decide (m = bs "rewritecheck") then Some RewriteCheck
  else if bool_decide (m = bs "bodycheck") then Some BodyCheck
  else if bool_decide (m = bs "logcheck") then Some LogCheck
  else if bool_decide (m = bs "scan") then Some Scan
  else if bool_decide (m = bs "wsheaders") then Some WsHeaders
  else if bool_decide (m = bs "balancer") then Some BalancerCheck
  else if bool_decide (m = bs "resp-body") then Some RespBody
  else if bool_decide (m = bs "l404check") then Some Log404Check
  else None.

Definition flag (query name : bytes) : bool := bool_decide (query_param query name = Some (bs "1")).

Definition parse_body_seen (raw : bytes) : option (Z * bool) :=
  '(total, last) ← split_once x3a raw;
  total ← parse_uint 64 total;
  if bool_decide (last = bs "0") then Some (total, false)
  else if bool_decide (last = bs "1") then Some (total, true)
  else None.

(** [req_meta_str(key).unwrap_or_default()]. *)
Definition meta_or_empty (key : bytes) : prog bytes :=
  r ← ask (HReqMetaStr key);
  Pure (default [] r).

Definition query_of : prog bytes := meta_or_empty (bs "query").

(** ** Early phases *)

(** [if let Some(v) = ... { kv_set(key, v) }]. *)
Definition store_if (key : bytes) (v : option bytes) : prog () :=
  match v with Some v => ask (HKvSet key v PROBE_TTL_MS) | None => Pure () end.

Definition record_ws_handshake_headers : prog () :=
  path ← ask (HReqMetaStr (bs "path"));
  if bool_decide (path ≠ Some WS_HANDSHAKE_PATH) then Pure ()
  else
    auth ← ask (HReqMetaStr (bs "header:authorization"));
    store_if WS_AUTH_KEY auth;;
    cookie ← ask (HReqMetaStr (bs "header:cookie"));
    store_if WS_COOKIE_KEY cookie.

Definition on_post_read : prog Decision :=
  path ← ask (HReqMeta (bs "path"));
  store_if POST_READ_KEY path;;
  record_ws_handshake_headers;;
  Pure Declined.

Definition apply_req_rewrite (query : bytes) : prog Decision :=
  uri ← (if flag query (bs "rwuri")
         then ok ← ask (HSetReqUri RW_URI); (if ok : bool then ask (HSetReqQuery RW_QUERY) else Pure false)
         else Pure true);
  if negb uri then Pure (Deny 500)
  else if flag query (bs "rwhdr") then
    ok ← ask (HSetReqHeader RW_HEADER (bs "yes"));
    if negb ok then Pure (Deny 500)
    else ask (HDelReqHeader RW_DROP_HEADER);; Pure Declined
  else Pure Declined.

Definition on_rewrite : prog Decision :=
  query ← query_of;
  path ← ask (HReqMeta (bs "path"));
  store_if REWRITE_KEY path;;
  if flag query (bs "rwdeny") then Pure (Deny 418) else apply_req_rewrite query.

(** [respond_redirect]. *)
Definition respond_redirect (status : Z) (location : bytes) : prog Decision :=
  ask (HSetRespHeader (bs "Location") location);;
  Pure (Deny (redirect_code status)).

Definition redirect_decision (query : bytes) : prog Decision :=
  if flag query (bs "redir") then respond_redirect 302 REDIRECT_TO else Pure Declined.

Definition on_access : prog Decision :=
  query ← query_of;
  if flag query (bs "accdeny") then Pure (Deny 403) else redirect_decision query.

(** ** Balancer *)

Fixpoint position_healthy (i : nat) (peers : list PeerInfo) : option nat :=
  match peers with
  | [] => None
  | p :: peers => if pi_healthy p then Some i else position_healthy (S i) peers
  end.

Definition valid_peer_view (peers : list PeerInfo) : option nat :=
  if negb (length peers =? 3)%nat || existsb (λ p, negb (pi_healthy p)) peers then None
  else position_healthy 0 peers.

Definition on_balancer : prog Decision :=
  query ← query_of;
  match parse_mode query with
  | Some BalancerCheck =>
      peers ← ask HPeers;
      match valid_peer_view peers with
      | None => Pure (Deny 409)
      | Some first_healthy =>
          far ← ask (HSetPeer 999);
          far ← (if far : bool then Pure true else ask (HSetPeer (umax 32)));
          if far : bool then Pure (Deny 409)
          else
            ok ← ask (HSetPeer (wrap 32 (Z.of_nat first_healthy)));
            Pure (if ok : bool then Declined else Deny 409)
      end
  | _ => Pure Declined
  end.

(** ** Content *)

Definition absent (key : bytes) : prog Decision :=
  r ← ask (HKvGet key);
  Pure (if bool_decide (r = None) then Done else Deny 409).

Definition present (key want : bytes) : prog Decision :=
  r ← ask (HKvGet key);
  Pure (if bool_decide (r = Some want) then Done else Deny 409).

Definition roundtrip : prog Decision :=
  ask (HKvSet ROUNDTRIP_KEY (bs "v1") PROBE_TTL_MS);;
  r ← ask (HKvGet ROUNDTRIP_KEY);
  if bool_decide (r ≠ Some (bs "v1")) then Pure (Deny 501)
  else
    ask (HKvDel ROUNDTRIP_KEY);;
    r ← ask (HKvGet ROUNDTRIP_KEY);
    Pure (if bool_decide (is_Some r) then Deny 502 else Done).

Definition equals_path (key : bytes) : prog Decision :=
  path ← ask (HReqMeta (bs "path"));
  let path := default [] path in
  stored ← ask (HKvGet key);
  Pure (if bool_decide (path ≠ [] ∧ stored = Some path) then Done else Deny 409).

(** [saw_full_body] after the loop. *)
Definition full_body (kv : bytes * bytes) : bool :=
  match parse_body_seen (from_utf8_lossy kv.2) with Some (total, true) => 0 <? total | _ => false end.

Definition body_check : prog Decision :=
  kvs ← ask (HKvScan BODY_SEEN_PREFIX);
  Pure (if existsb full_body kvs then Done else Deny 409).

Definition ws_headers : prog Decision :=
  auth ← ask (HKvGet WS_AUTH_KEY);
  cookie ← ask (HKvGet WS_COOKIE_KEY);
  Pure (if bool_decide (auth = Some WS_AUTH_EXPECT ∧ cookie = Some WS_COOKIE_EXPECT) then Done else Deny 409).

Definition resp_body_text (text : bytes) : bytes := RESP_BODY_PREFIX ++ text.

Definition deny_decision (deny : option bytes) : Decision :=
  match deny with
  | None => Done
  | Some raw =>
      match parse_uint 16 raw with
      | Some status => if (100 <=? status) && (status <=? 599) then Deny status else Deny 400
      | None => Deny 400
      end
  end.

Definition resp_body (query : bytes) : prog Decision :=
  ok ← match query_param query (bs "text") with
       | Some text => ask (HSetRespBody (resp_body_text text))
       | None => Pure true
       end;
  Pure (if ok : bool then deny_decision (query_param query (bs "deny")) else Deny 500).

Definition scan : prog Decision :=
  ask (HKvSet SCAN_A_KEY (bs "1") PROBE_TTL_MS);;
  ask (HKvSet SCAN_B_KEY (bs "2") PROBE_TTL_MS);;
  kvs ← ask (HKvScan SCAN_PREFIX);
  ask (HKvDel SCAN_A_KEY);;
  ask (HKvDel SCAN_B_KEY);;
  Pure (if bool_decide (2 ≤ length kvs)%nat && bool_decide (SCAN_A_KEY ∈ kvs.*1) && bool_decide (SCAN_B_KEY ∈ kvs.*1)
        then Done else Deny 409).

(** What the store holds under [key], or a dash. *)
Definition marker_or_dash (key : bytes) : prog bytes :=
  r ← ask (HKvGet key);
  Pure (match r with Some raw => from_utf8_lossy raw | None => bs "-" end).

Definition log404_check : prog Decision :=
  value ← marker_or_dash LOG_404_KEY;
  ask (HSetRespHeader LOG_404_HEADER value);;
  Pure Done.

(** [meta=1]: the three reads stop at the first that fails. *)
Definition meta_check : prog Decision :=
  m ← ask (HReqMeta (bs "method"));
  if bool_decide (m ≠ Some (bs "GET")) then Pure (Deny 409)
  else
    ip ← ask (HReqMeta (bs "client_ip"));
    if negb (from_option (starts_with (bs "127.0.0.1")) false ip) then Pure (Deny 409)
    else
      ua ← ask (HReqMeta (bs "header:user-agent"));
      Pure (if from_option (λ v, bool_decide (v ≠ [])) false ua then Done else Deny 409).

(** The marker flags, which act on any path. *)
Definition marker_flags (query : bytes) : prog () :=
  (if flag query (bs "pset") then ask (HKvSet MARKER_KEY MARKER_VAL PROBE_TTL_MS) else Pure ());;
  (if flag query (bs "pdel") then ask (HKvDel MARKER_KEY) else Pure ()).

Definition run_mode (query : bytes) : prog Decision :=
  match parse_mode query with
  | Some SetGetDel => roundtrip
  | Some Absent => absent ROUNDTRIP_KEY
  | Some TtlSet => ask (HKvSet TTL_KEY (bs "x") SHORT_TTL_MS);; Pure Done
  | Some TtlCheck => absent TTL_KEY
  | Some PostReadCheck => equals_path POST_READ_KEY
  | Some RewriteCheck => equals_path REWRITE_KEY
  | Some BodyCheck => body_check
  | Some LogCheck => present LOG_RAN_KEY (bs "1")
  | Some Scan => scan
  | Some WsHeaders => ws_headers
  | Some BalancerCheck => Pure Declined
  | Some RespBody => resp_body query
  | Some Log404Check => log404_check
  | None => Pure (Deny 400)
  end.

Definition on_content : prog Decision :=
  query ← query_of;
  marker_flags query;;
  if flag query (bs "meta") then meta_check
  else
    path ← meta_or_empty (bs "path");
    if negb (starts_with (bs "/probe") path) then Pure Declined else run_mode query.

(** ** Late phases *)

Definition on_header_filter : prog Decision :=
  query ← query_of;
  if flag query (bs "phdr") then
    value ← marker_or_dash MARKER_KEY;
    ask (HSetRespHeader RESP_HEADER value);;
    Pure DOk
  else if flag query (bs "respset") then
    ask (HSetRespHeader RESP_HEADER (bs "mk"));;
    v ← ask (HRespHeader RESP_HEADER);
    Pure (if bool_decide (v ≠ Some (bs "mk")) then Deny 409 else Declined)
  else if flag query (bs "respdel") then
    ask (HSetRespHeader RESP_HEADER (bs "mk"));;
    v ← ask (HRespHeader RESP_HEADER);
    if bool_decide (v ≠ Some (bs "mk")) then Pure (Deny 409)
    else
      ask (HDelRespHeader RESP_HEADER);;
      v ← ask (HRespHeader RESP_HEADER);
      Pure (if bool_decide (is_Some v) then Deny 409 else Declined)
  else Pure Declined.

Definition body_seen_key_for (path query : bytes) : bytes :=
  if bool_decide (query = []) then BODY_SEEN_PREFIX ++ path
  else BODY_SEEN_PREFIX ++ path ++ bs "?" ++ query.

Definition body_seen_key : prog bytes :=
  path ← meta_or_empty (bs "path");
  query ← query_of;
  Pure (body_seen_key_for path query).

(** ["{}:{}"] of the running total and the last-chunk flag. *)
Definition body_marker (seen chunk : Z) (last : bool) : bytes :=
  fmt_dec (wrap 64 (seen + chunk)) ++ bs ":" ++ (if last then bs "1" else bs "0").

Definition on_body_filter : prog Decision :=
  query ← query_of;
  if negb (flag query (bs "bmark")) then Pure Declined
  else
    c ← ask HBodyChunk;
    key ← body_seen_key;
    current ← ask (HKvGet key);
    let seen := (default (0, false) (parse_body_seen (default [] (from_utf8_lossy <$> current)))).1 in
    ask (HKvSet key (body_marker seen (Z.of_nat (length c.1)) c.2) PROBE_TTL_MS);;
    Pure Declined.

Definition on_log : prog Decision :=
  query ← query_of;
  (if flag query (bs "lmark") then
     ask (HKvSet LOG_RAN_KEY (bs "1") PROBE_TTL_MS);;
     ask (HLog Info (bs "kv-probe log phase marker"))
   else Pure ());;
  (if flag query (bs "l404") then ask (HKvSet LOG_404_KEY (bs "1") PROBE_TTL_MS) else Pure ());;
  Pure Declined.

Definition handlers : list (Phase * prog Decision) := [
  (PostRead, on_post_read); (Rewrite, on_rewrite); (Access, on_access); (Content, on_content);
  (Balancer, on_balancer); (HeaderFilter, on_header_filter); (BodyFilter, on_body_filter); (Log, on_log)].

End KvProbe.

Module Echo.

Definition DEFAULT_BODY : bytes := bs "dynamic-echo".
Definition GREETING_KEY : bytes := bs "greeting".

Definition base_body (req : option bytes) : bytes := default DEFAULT_BODY (req ≫= nonempty).

Definition join_greeting (greeting : option bytes) (body : bytes) : bytes :=
  match greeting ≫= nonempty with Some prefix => prefix ++ bs ": " ++ body | None => body end.

Definition on_access : prog Decision := Pure Declined.

Definition on_content : prog Decision :=
  greeting ← ask (HCfg GREETING_KEY);
  body ← ask HReqBody;
  ask (HSetRespHeader (bs "x-dynamic") (bs "echo"));;
  ask (HSetRespHeader (bs "content-type") (bs "application/octet-stream"));;
  ok ← ask (HSetRespBody (join_greeting greeting (base_body body)));
  Pure (if ok : bool then Done else Deny 500).

Definition on_log : prog Decision :=
  ask (HLog Debug (bs "dynamic-echo log phase"));; Pure Declined.

Definition handlers : list (Phase * prog Decision) :=
  [(Access, on_access); (Content, on_content); (Log, on_log)].

End Echo.

Module Reverse.

Definition DEFAULT_BODY : bytes := bs "dynamic-reverse".

Definition reverse_bytes (data : bytes) : bytes := reverse data.

Definition on_content : prog Decision :=
  body ← ask HReqBody;
  ok ← ask (HSetRespBody (reverse_bytes (default DEFAULT_BODY (body ≫= nonempty))));
  Pure (if ok : bool then Done else Deny 500).

Definition handlers : list (Phase * prog Decision) := [(Content, on_content)].

End Reverse.

(** * What the probe leaves alone *)

Import KvProbe.

(** The query and the path as the guest reads them. *)
Definition meta_seen (key : bytes) (d : HostData) : bytes :=
  default [] (from_utf8_lossy <$> readable (req_meta_payload (hd_ctx d) (hd_req_body d) key)).

Lemma wp_meta_or_empty {A} key (f : bytes → prog A) Q d :
  wp (f (meta_seen key d)) Q d → wp (v ← meta_or_empty key; f v) Q d.
Proof. by intros Hf now s _. Qed.

Lemma wp_store_if {A} key v (f : () → prog A) Q d : wp (f ()) Q d → wp (store_if key v ≫= f) Q d.
Proof. intros Hf. destruct v; [|done]. apply (wp_ask (HKvSet _ _ _)); [done|]. by intros []. Qed.

(** The drill's flags that change a request's fate. *)
Definition drill_flags : list bytes :=
  map bs ["pset"; "pdel"; "meta"; "phdr"; "respset"; "respdel"; "rwuri"; "rwhdr"; "rwdeny"; "accdeny"; "redir"]%string.

Definition bystander (d : HostData) : Prop :=
  Forall (λ f, flag (meta_seen (bs "query") d) f = false) drill_flags ∧
  parse_mode (meta_seen (bs "query") d) ≠ Some BalancerCheck ∧
  starts_with (bs "/probe") (meta_seen (bs "path") d) = false.

(** Declined, and the request as it was. *)
Definition passes (d : HostData) (a : Decision) (d' : HostData) : Prop := a = Declined ∧ d' = d.

Lemma wp_post_read d : wp on_post_read (passes d) d.
Proof.
  unfold on_post_read. apply wp_ask; [done|]. intros path. apply wp_store_if.
  unfold record_ws_handshake_headers. apply wp_bind, wp_ask; [done|]. intros p.
  case_bool_decide; [done|]. apply wp_ask; [done|]. intros auth. apply wp_store_if.
  apply wp_ask; [done|]. intros [cookie|]; [|done]. by intros now s _.
Qed.

Lemma wp_body_filter d : wp on_body_filter (passes d) d.
Proof.
  unfold on_body_filter, query_of. apply wp_meta_or_empty. destruct (negb _); [done|].
  apply wp_ask; [done|]. intros c. unfold body_seen_key, query_of. apply wp_bind.
  apply wp_meta_or_empty, wp_meta_or_empty. cbn [wp]. apply wp_ask; [done|]. intros r.
  apply wp_ask; [done|]. by intros [].
Qed.

Lemma wp_log d : wp on_log (passes d) d.
Proof.
  unfold on_log, query_of. apply wp_meta_or_empty. apply wp_bind.
  assert (wp (if flag (meta_seen (bs "query") d) (bs "l404")
              then ask (HKvSet LOG_404_KEY (bs "1") PROBE_TTL_MS) else Pure ()) (λ _ d', d' = d) d) as Hl
    by (destruct (flag _ _); [by intros now s _|done]).
  destruct (flag _ (bs "lmark")).
  - apply wp_ask; [done|]. intros _. intros now s _. cbn [host_call wp]. apply wp_bind.
    eapply wp_mono; [|exact Hl]. intros [] d' ->. exact (conj eq_refl eq_refl).
  - cbn [wp]. apply wp_bind. eapply wp_mono; [|exact Hl]. intros [] d' ->. exact (conj eq_refl eq_refl).
Qed.

Lemma bystander_flag d f : bystander d → f ∈ drill_flags → flag (meta_seen (bs "query") d) f = false.
Proof. intros (Hf & _) Hin. by apply (proj1 (Forall_forall _ _) Hf). Qed.

#[local] Ltac unflag Hf := rewrite !Hf by (apply (bool_decide_unpack _); vm_compute; exact I).

Lemma wp_bystander d ph : bystander d → wp (dispatch handlers ph) (passes d) d.
Proof.
  intros Hb. assert (∀ f, f ∈ drill_flags → flag (meta_seen (bs "query") d) f = false) as Hf
    by (intros f Hin; exact (bystander_flag d f Hb Hin)).
  destruct Hb as (_ & Hm & Hp).
  destruct ph.
  - apply wp_post_read.
  - change (wp on_rewrite (passes d) d). unfold on_rewrite, query_of. apply wp_meta_or_empty. cbv beta. apply wp_ask; [done|]. intros path. apply wp_store_if.
    unfold apply_req_rewrite. by unflag Hf.
  - change (wp on_access (passes d) d). unfold on_access, query_of. apply wp_meta_or_empty. unfold redirect_decision. by unflag Hf.
  - change (wp on_content (passes d) d). unfold on_content, query_of. apply wp_meta_or_empty. unfold marker_flags.
    unflag Hf. apply wp_meta_or_empty. by rewrite Hp.
  - change (wp on_balancer (passes d) d). unfold on_balancer, query_of. apply wp_meta_or_empty. by destruct (parse_mode _) as [[]|].
  - change (wp on_header_filter (passes d) d). unfold on_header_filter, query_of. apply wp_meta_or_empty. by unflag Hf.
  - apply wp_body_filter.
  - apply wp_log.
Qed.

(** Every phase of the probe ends, with an answer the wire can carry. *)
Lemma always_if {A} (P : A → Prop) (b : bool) (p q : prog A) :
  always P p → always P q → always P (if b then p else q).
Proof. by destruct b. Qed.

Lemma wire_if (b : bool) (d1 d2 : Decision) :
  wire_decision d1 → wire_decision d2 → wire_decision (if b then d1 else d2).
Proof. by destruct b. Qed.

#[local] Ltac walk := repeat match goal with
  | |- always _ (Pure _) => apply always_pure
  | |- always _ (ask _) => apply always_last
  | |- always _ (ask _ ≫= _) => apply always_ask; intros ?
  | |- always _ (if _ then _ else _) => apply always_if
  | |- always _ (_ ≫= _) => apply always_bind; [|intros ?]
  | |- always _ (store_if _ ?v) => destruct v; cbn [store_if]
  | |- wire_decision (if _ then _ else _) => apply wire_if
  | |- wire_decision (Deny _) => vm_compute; split; discriminate
  | |- wire_decision _ => exact I
  | |- True => exact I
  | |- always _ _ => progress (unfold query_of, meta_or_empty, marker_or_dash)
  end.

Lemma deny_decision_wire deny : wire_decision (deny_decision deny).
Proof.
  unfold deny_decision. destruct deny as [raw|]; [|done]. destruct (parse_uint 16 raw) as [st|]; [|simpl; lia].
  destruct (Z.leb_spec 100 st), (Z.leb_spec st 599); simpl; lia.
Qed.

Lemma on_content_wire : always wire_decision on_content.
Proof.
  unfold on_content, marker_flags, meta_check. walk. unfold run_mode. destruct (parse_mode _) as [[]|].
  - unfold roundtrip. walk.
  - unfold absent. walk.
  - walk.
  - unfold absent. walk.
  - unfold equals_path. walk.
  - unfold equals_path. walk.
  - unfold body_check. walk.
  - unfold present. walk.
  - unfold scan. walk.
  - walk.
  - unfold ws_headers. walk.
  - unfold resp_body. destruct (query_param _ (bs "text")); walk; apply deny_decision_wire.
  - unfold log404_check. walk.
  - walk.
Qed.

Lemma on_balancer_wire : always wire_decision on_balancer.
Proof.
  unfold on_balancer. walk. destruct (parse_mode _) as [[]|]; walk. destruct (valid_peer_view _); walk.
Qed.

Lemma probe_total ph : always wire_decision (dispatch handlers ph).
Proof.
  destruct ph.
  - change (always wire_decision on_post_read). unfold on_post_read, record_ws_handshake_headers. walk.
  - change (always wire_decision on_rewrite). unfold on_rewrite, apply_req_rewrite. walk.
  - change (always wire_decision on_access). unfold on_access, redirect_decision, respond_redirect. walk.
  - apply on_content_wire.
  - apply on_balancer_wire.
  - change (always wire_decision on_header_filter). unfold on_header_filter. walk.
  - change (always wire_decision on_body_filter). unfold on_body_filter, body_seen_key. walk.
  - change (always wire_decision on_log). unfold on_log. walk.
Qed.

(** * The body drill's count *)

(** One call of the body filter: the pipeline hands the guest a chunk. *)
Definition on_chunk (chunk : bytes) (last : bool) (d : HostData) : HostData := {|
  hd_ctx := hd_ctx d; hd_peers := hd_peers d; hd_settings := hd_settings d;
  hd_resp_edits := hd_resp_edits d; hd_req_edits := hd_req_edits d;
  hd_resp_headers := hd_resp_headers d; hd_resp_body := hd_resp_body d;
  hd_req_body := hd_req_body d; hd_body_chunk := chunk; hd_body_last := last |}.

Fixpoint filter_body (feed : list (Z * (bytes * bool))) (v : View) : exec View :=
  match feed with
  | [] => Ret v
  | (now, (chunk, last)) :: feed =>
      '(_, v) ← quiet_run now on_body_filter
                  {| vw_data := on_chunk chunk last (vw_data v); vw_state := vw_state v |};
      filter_body feed v
  end.

(** What the guest counts of a chunk: all of it, nothing of one it cannot hold. *)
Definition counted (chunk : bytes) : Z := Z.of_nat (length (default [] (readable chunk))).

Definition total (feed : list (Z * (bytes * bool))) : Z := zsum (map (λ c, counted c.2.1) feed).

(** Each chunk comes before the previous one's record expires. *)
Fixpoint paced (t : Z) (feed : list (Z * (bytes * bool))) : Prop :=
  match feed with
  | [] => True
  | (now, _) :: feed => now < t + PROBE_TTL_MS ∧ paced now feed
  end.

Definition body_key (d : HostData) : bytes :=
  body_seen_key_for (meta_seen (bs "path") d) (meta_seen (bs "query") d).

Definition drilled (d : HostData) : Prop := flag (meta_seen (bs "query") d) (bs "bmark") = true.

(** The count the guest finds under its key. *)
Definition found (now : Z) (key : bytes) (s : HostState) : Z :=
  (default (0, false) (parse_body_seen (default []
     (from_utf8_lossy <$> ((HostState.kv_get key now s).1 ≫= readable))))).1.

(** The store has room for the record. *)
Definition roomy (key : bytes) (s : HostState) : Prop :=
  state_ok s ∧ footprint (delete key (st_kv s)) + blen key + 22 <= KV_MAX_TOTAL_BYTES.

Definition counting (key : bytes) (seen : Z) (last : bool) (t : Z) (s : HostState) : Prop :=
  st_kv s !! key = Some (record_of (body_marker seen 0 last) t PROBE_TTL_MS).

Lemma ascii_loop_more room k v acc s : ascii_loop room v acc = Ret s → ascii_loop (room + k) v acc = Ret s.
Proof.
  revert v acc. induction room as [|room IH]; intros v acc; [done|]. cbn [ascii_loop Nat.add].
  destruct (v / 10 =? 0); [done|apply IH].
Qed.

Lemma fmt_dec_u64_length n : in_u 64 n → (length (fmt_dec n) ≤ 20)%nat.
Proof.
  intros Hn. destruct (ascii_u64_roundtrip n Hn) as (s & E & _). unfold ascii_u64 in E.
  pose proof (ascii_loop_length _ _ _ _ E) as Hl. apply (ascii_loop_more 20 20), fmt_radix_ascii in E.
  unfold fmt_dec. change 40%nat with (20 + 20)%nat. rewrite E. simpl in Hl. lia.
Qed.

Lemma body_marker_length seen chunk last : blen (body_marker seen chunk last) <= 22.
Proof.
  unfold blen, body_marker. rewrite !length_app.
  pose proof (fmt_dec_u64_length (wrap 64 (seen + chunk)) (wrap_range 64 _ ltac:(lia))) as Hl.
  assert (length (if last then bs "1" else bs "0") = 1%nat) as -> by by destruct last.
  change (length (bs ":")) with 1%nat. lia.
Qed.

(** The record reads back. *)
Lemma body_marker_parses seen chunk last :
  parse_body_seen (from_utf8_lossy (body_marker seen chunk last)) = Some (wrap 64 (seen + chunk), last).
Proof.
  pose proof (wrap_range 64 (seen + chunk) ltac:(lia)) as Hw. unfold in_u in Hw.
  rewrite from_utf8_lossy_valid.
  - unfold parse_body_seen, body_marker.
    replace (split_once x3a _) with (Some (fmt_dec (wrap 64 (seen + chunk)), if last then bs "1" else bs "0")).
    + cbn [mbind option_bind]. rewrite parse_fmt_dec by lia. cbn [mbind option_bind]. by destruct last.
    + symmetry. apply split_once_Some. split; [by destruct last|]. by apply fmt_dec_without.
  - apply ascii_valid_utf8, Forall_app. split.
    + apply Forall_forall. intros b Hb%list_elem_of_In. pose proof (fmt_dec_digits (wrap 64 (seen + chunk))) as Hd.
      rewrite forallb_forall in Hd. apply Hd in Hb. unfold is_ascii_digit, in_range in Hb.
      apply andb_true_iff in Hb as [_ Hb%Z.leb_le]. lia.
    + destruct last; repeat constructor.
Qed.

Lemma body_marker_readable seen chunk last : readable (body_marker seen chunk last) = Some (body_marker seen chunk last).
Proof.
  pose proof (body_marker_length seen chunk last) as Hl. unfold blen in Hl. unfold readable, nonempty.
  rewrite bool_decide_eq_true_2 by (unfold MAX_READ_LEN, HEAP_SIZE; lia).
  rewrite bool_decide_eq_false_2; [done|]. unfold body_marker. by intros [_ ?]%app_nil.
Qed.

(** A filter call on its own: what it finds, plus what it counts. *)
Lemma body_filter_step now v :
  drilled (vw_data v) →
  let key := body_key (vw_data v) in
  quiet_run now on_body_filter v =
    Ret (Declined,
      {| vw_data := vw_data v;
         vw_state := (HostState.kv_set key
           (body_marker (found now key (vw_state v)) (counted (hd_body_chunk (vw_data v))) (hd_body_last (vw_data v)))
           PROBE_TTL_MS now (HostState.kv_get key now (vw_state v)).2).2 |}).
Proof.
  intros Hb key. unfold on_body_filter, query_of, meta_or_empty. rewrite quiet_bind, quiet_ask. cbn [host_call].
  rewrite quiet_pure. cbn [mbind exec_mbind vw_data vw_state]. fold (meta_seen (bs "query") (vw_data v)). unfold drilled in Hb.
  rewrite Hb. cbn [negb]. rewrite quiet_ask. cbn [host_call vw_data vw_state].
  rewrite quiet_bind. unfold body_seen_key, query_of, meta_or_empty.
  rewrite quiet_bind, quiet_ask. cbn [host_call]. rewrite quiet_pure. cbn [mbind exec_mbind vw_data vw_state].
  rewrite quiet_bind, quiet_ask. cbn [host_call]. rewrite quiet_pure. cbn [mbind exec_mbind vw_data vw_state].
  rewrite quiet_pure. cbn [mbind exec_mbind].
  change (body_seen_key_for _ _) with key. rewrite quiet_ask. cbn [host_call vw_data vw_state].
  unfold found, counted. destruct (HostState.kv_get key now (vw_state v)) as [r s1]. cbn [fst snd].
  rewrite quiet_ask. cbn [host_call vw_data vw_state]. rewrite quiet_pure. done.
Qed.

(** The count an undisturbed run keeps. *)
Lemma kv_get_roomy key now s : roomy key s → roomy key (HostState.kv_get key now s).2.
Proof.
  intros [Hs Hr]. unfold HostState.kv_get, kv_get_with, drop_expired.
  destruct (st_kv s !! key) as [e|] eqn:E; [|done].
  destruct (is_expired (ke_expires_at e) now) eqn:X; simpl; [|done].
  split; [by apply with_kv_delete_ok|]. simpl. by rewrite delete_delete_eq.
Qed.

Lemma kv_set_roomy key val now s :
  in_u 64 now → roomy key s → blen val <= 22 →
  (HostState.kv_set key val PROBE_TTL_MS now s).1 = true ∧
  roomy key (HostState.kv_set key val PROBE_TTL_MS now s).2.
Proof.
  intros Hnow [Hs Hr] Hv. assert (footprint (st_kv s) =
      from_option (entry_bytes key) 0 (st_kv s !! key) + footprint (delete key (st_kv s))) as Hf.
  { destruct (st_kv s !! key) as [e|] eqn:E; simpl; [by apply footprint_delete|]. by rewrite delete_id. }
  assert ((HostState.kv_set key val PROBE_TTL_MS now s).1 = true) as H1.
  { unfold HostState.kv_set.
    replace (kv_set_verdict _ _ _) with true; [done|]. symmetry. apply kv_set_verdict_true.
    pose proof (ok_total s Hs). pose proof (footprint_nonneg (delete key (st_kv s))).
    split; [unfold KV_MAX_VALUE_BYTES; lia|].
    unfold sat_sub. destruct (st_kv s !! key); simpl in *; lia. }
  split; [done|]. split; [by apply kv_set_ok|].
  unfold HostState.kv_set in *. destruct (negb _); [done|]. simpl. by rewrite delete_insert_eq.
Qed.

Lemma counting_found key seen last t now s :
  in_u 64 t → t + PROBE_TTL_MS < 2 ^ 64 - 1 → now < t + PROBE_TTL_MS → counting key seen last t s →
  found now key s = wrap 64 seen ∧ (HostState.kv_get key now s).2 = s.
Proof.
  intros Ht Hb Hn Hc. unfold counting, record_of in Hc.
  assert (is_expired (sat_add 64 t PROBE_TTL_MS) now = false) as Hx.
  { unfold is_expired, sat_add, U64_MAX, umax, PROBE_TTL_MS in *. lia. }
  unfold found. rewrite kv_get_value, Hc. unfold HostState.kv_get, kv_get_with. rewrite Hc.
  cbn [mbind option_bind ke_expires_at ke_value]. change (PROBE_TTL_MS <=? 0) with false. cbv iota.
  rewrite Hx. cbn [negb]. split; [|done]. cbn [mbind option_bind]. rewrite body_marker_readable.
  cbn [fmap option_fmap option_map default]. unfold id. rewrite body_marker_parses. simpl.
  by rewrite Z.add_0_r.
Qed.

(** Times of a feed a clock can show. *)
Definition timely (feed : list (Z * (bytes * bool))) : Prop :=
  Forall (λ c, 0 <= c.1 ∧ c.1 + PROBE_TTL_MS < 2 ^ 64 - 1) feed.

Definition last_call (t : Z) (l : bool) (feed : list (Z * (bytes * bool))) : Z * bool :=
  from_option (λ c, (c.1, c.2.2)) (t, l) (last feed).

Lemma last_call_cons t l now chunk b feed : last_call t l ((now, (chunk, b)) :: feed) = last_call now b feed.
Proof. unfold last_call. rewrite last_cons. by destruct (last feed) as [[? [??]]|]. Qed.

Lemma wrap_wrap_add w a b : 0 <= w → wrap w (wrap w a + b) = wrap w (a + b).
Proof. intros Hw. unfold wrap. by rewrite Zplus_mod_idemp_l. Qed.

Lemma marker_wrap seen chunk last : body_marker (wrap 64 seen) chunk last = body_marker (seen + chunk) 0 last.
Proof. unfold body_marker. by rewrite wrap_wrap_add, Z.add_0_r. Qed.

(** One chunk: the record is what was found and what is counted. *)
Lemma filter_chunk now chunk last v :
  drilled (vw_data v) → 0 <= now → now + PROBE_TTL_MS < 2 ^ 64 - 1 →
  roomy (body_key (vw_data v)) (vw_state v) →
  ∃ v', quiet_run now on_body_filter {| vw_data := on_chunk chunk last (vw_data v); vw_state := vw_state v |}
          = Ret (Declined, v') ∧ vw_data v' = on_chunk chunk last (vw_data v) ∧
    roomy (body_key (vw_data v)) (vw_state v') ∧
    st_kv (vw_state v') !! body_key (vw_data v) =
      Some (record_of (body_marker (found now (body_key (vw_data v)) (vw_state v)) (counted chunk) last) now PROBE_TTL_MS).
Proof.
  intros Hd H0 Ht Hr. set (key := body_key (vw_data v)) in *.
  pose proof (body_filter_step now {| vw_data := on_chunk chunk last (vw_data v); vw_state := vw_state v |} Hd) as E.
  cbv zeta in E. change (body_key _) with key in E. cbn [vw_data vw_state on_chunk hd_body_chunk hd_body_last] in E.
  set (m := body_marker _ _ _) in *. eexists. split; [exact E|]. split; [done|]. cbn [vw_state].
  destruct (kv_set_roomy key m now (HostState.kv_get key now (vw_state v)).2) as [Hok Hroom].
  - unfold in_u, PROBE_TTL_MS in *. lia.
  - by apply kv_get_roomy.
  - apply body_marker_length.
  - split; [exact Hroom|]. rewrite kv_set_lookup, Hok. by rewrite bool_decide_eq_true_2.
Qed.

Lemma counting_run feed v t seen l :
  drilled (vw_data v) → timely feed → paced t feed → 0 <= t → t + PROBE_TTL_MS < 2 ^ 64 - 1 →
  roomy (body_key (vw_data v)) (vw_state v) → counting (body_key (vw_data v)) seen l t (vw_state v) →
  ∃ v', filter_body feed v = Ret v' ∧
    counting (body_key (vw_data v)) (seen + total feed) (last_call t l feed).2 (last_call t l feed).1 (vw_state v').
Proof.
  revert v t seen l. induction feed as [|[now [chunk b]] feed IH]; intros v t seen l Hd Hf Hp H0 Ht Hr Hc.
  { exists v. split; [done|]. unfold total. simpl. by rewrite Z.add_0_r. }
  apply Forall_cons in Hf as [[Hn0 Hn] Hf]. destruct Hp as [Hlt Hp]. cbn [fst] in Hn0, Hn.
  destruct (filter_chunk now chunk b v Hd Hn0 Hn Hr) as (v1 & E1 & Hd1 & Hr1 & Hk).
  destruct (counting_found _ _ _ t now _ ltac:(unfold in_u, PROBE_TTL_MS in *; lia) Ht Hlt Hc) as [Hfound _].
  rewrite Hfound, marker_wrap in Hk.
  assert (body_key (vw_data v1) = body_key (vw_data v)) as Hkey by (rewrite Hd1; done).
  destruct (IH v1 now (seen + counted chunk) b) as (v' & E & Hc').
  - rewrite Hd1. exact Hd.
  - exact Hf.
  - exact Hp.
  - exact Hn0.
  - exact Hn.
  - rewrite Hkey. exact Hr1.
  - rewrite Hkey. exact Hk.
  - exists v'. split; [cbn [filter_body]; rewrite E1; exact E|]. rewrite last_call_cons, <-Hkey.
    unfold total. cbn [map zsum foldr fst snd]. rewrite Z.add_assoc. exact Hc'.
Qed.

(** The drill's record after a whole body: what an earlier call under the same
    path and query left, plus every byte of the chunks the guest can hold. *)
Lemma body_accounted now0 chunk0 last0 feed v :
  drilled (vw_data v) → timely ((now0, (chunk0, last0)) :: feed) → paced now0 feed →
  roomy (body_key (vw_data v)) (vw_state v) →
  ∃ v', filter_body ((now0, (chunk0, last0)) :: feed) v = Ret v' ∧
    counting (body_key (vw_data v))
      (found now0 (body_key (vw_data v)) (vw_state v) + total ((now0, (chunk0, last0)) :: feed))
      (last_call now0 last0 feed).2 (last_call now0 last0 feed).1 (vw_state v').
Proof.
  intros Hd Hf Hp Hr. pose proof Hf as Hall. apply Forall_cons in Hf as [[Hn0 Hn] Hf]. cbn [fst] in Hn0, Hn.
  destruct (filter_chunk now0 chunk0 last0 v Hd Hn0 Hn Hr) as (v1 & E1 & Hd1 & Hr1 & Hk).
  assert (body_key (vw_data v1) = body_key (vw_data v)) as Hkey by (rewrite Hd1; done).
  set (seen := found now0 _ _) in *.
  assert (counting (body_key (vw_data v)) (seen + counted chunk0) last0 now0 (vw_state v1)) as Hc.
  { unfold counting. rewrite Hk. unfold body_marker. by rewrite Z.add_0_r. }
  rewrite <-Hkey in Hc.
  destruct (counting_run feed v1 now0 (seen + counted chunk0) last0) as (v' & E & Hc').
  - rewrite Hd1. exact Hd.
  - exact Hf.
  - exact Hp.
  - exact Hn0.
  - exact Hn.
  - rewrite Hkey. exact Hr1.
  - exact Hc.
  - exists v'. split; [cbn [filter_body]; rewrite E1; exact E|]. rewrite <-Hkey.
    unfold total. cbn [map zsum foldr fst snd]. rewrite Z.add_assoc. exact Hc'.
Qed.

(** * The dynamic modules' answers *)

Lemma find_header_cons n h hs :
  find_header n (h :: hs) = if eq_ignore_ascii_case h.1 n then Some h.2 else find_header n hs.
Proof.
  unfold find_header. cbn [list_find]. destruct (eq_ignore_ascii_case h.1 n) eqn:E; [by rewrite decide_True|].
  rewrite decide_False by congruence. by destruct (list_find _ hs) as [[i y]|].
Qed.

Lemma resp_set_cons h hs name value :
  resp_set (h :: hs) name value =
    if eq_ignore_ascii_case h.1 name then (h.1, value) :: hs else h :: resp_set hs name value.
Proof.
  unfold resp_set. cbn [list_find]. destruct (eq_ignore_ascii_case h.1 name) eqn:E; [by rewrite decide_True|].
  rewrite decide_False by congruence. by destruct (list_find _ hs) as [[i y]|].
Qed.

Lemma resp_set_find hs name value : find_header name (resp_set hs name value) = Some value.
Proof.
  induction hs as [|h hs IH].
  - change (resp_set [] name value) with [(name, value)]. rewrite find_header_cons. cbn [fst snd].
    by rewrite eq_ignore_ascii_case_refl.
  - rewrite resp_set_cons. destruct (eq_ignore_ascii_case h.1 name) eqn:E; rewrite find_header_cons; cbn [fst snd];
      by rewrite E.
Qed.

Lemma resp_set_find_other hs name name' value :
  eq_ignore_ascii_case name name' = false → find_header name' (resp_set hs name value) = find_header name' hs.
Proof.
  intros Hne. induction hs as [|h hs IH].
  - change (resp_set [] name value) with [(name, value)]. rewrite find_header_cons. cbn [fst snd]. by rewrite Hne.
  - rewrite resp_set_cons, (find_header_cons name' h hs). destruct (eq_ignore_ascii_case h.1 name) eqn:E;
      rewrite find_header_cons; cbn [fst snd]; [|by rewrite IH].
    destruct (eq_ignore_ascii_case h.1 name') eqn:E'; [|done].
    rewrite eq_ignore_ascii_case_sym in E. rewrite (eq_ignore_ascii_case_trans _ _ name' E), E' in Hne. done.
Qed.

(** What a guest sees of the request body. *)
Definition body_seen (d : HostData) : option bytes := readable (hd_req_body d).

Definition echoed (d : HostData) : bytes :=
  Echo.join_greeting (from_utf8_lossy <$> (hd_settings d !! Echo.GREETING_KEY ≫= readable))
    (Echo.base_body (body_seen d)).

(** Sealed with [out], or refused above the host's cap. *)
Definition sealed (out : bytes) (a : Decision) (d' : HostData) : Prop :=
  if Z.of_nat (length out) <=? RESP_BODY_MAX_BYTES
  then a = Done ∧ hd_resp_body d' = Some out else a = Deny 500.

Lemma wp_seal out d :
  wp (ok ← ask (HSetRespBody out); Pure (if ok : bool then Done else Deny 500))
    (λ a d', sealed out a d' ∧ hd_resp_headers d' = hd_resp_headers d ∧ hd_ctx d' = hd_ctx d) d.
Proof.
  intros now s _. unfold sealed. cbn [host_call]. by destruct (_ <=? RESP_BODY_MAX_BYTES).
Qed.

(** [dynamic-echo]: the greeting and the body under its own headers, whatever else runs. *)
Lemma echo_answers su n v :
  (∀ i, in_u 64 (su_clock su i)) →
  ∃ a v', run_prog su n (dispatch Echo.handlers Content) v = Ret (a, v') ∧
    sealed (echoed (vw_data v)) a (vw_data v') ∧
    find_header (bs "x-dynamic") (hd_resp_headers (vw_data v')) = Some (bs "echo") ∧
    find_header (bs "content-type") (hd_resp_headers (vw_data v')) = Some (bs "application/octet-stream") ∧
    hd_ctx (vw_data v') = hd_ctx (vw_data v).
Proof.
  intros Hc. apply (wp_run su (dispatch Echo.handlers Content) (λ a d', sealed (echoed (vw_data v)) a d' ∧
    find_header (bs "x-dynamic") (hd_resp_headers d') = Some (bs "echo") ∧
    find_header (bs "content-type") (hd_resp_headers d') = Some (bs "application/octet-stream") ∧
    hd_ctx d' = hd_ctx (vw_data v)) n v Hc).
  change (dispatch Echo.handlers Content) with Echo.on_content. unfold Echo.on_content.
  intros now1 s1 _ now2 s2 _ now3 s3 _ now4 s4 _.
  eapply wp_mono; [|apply wp_seal]. cbv beta. intros a d' (Hs & Hh & Hx). rewrite Hh.
  cbn [hd_resp hd_resp_headers]. split; [exact Hs|]. split; [|split; [apply resp_set_find|exact Hx]].
  rewrite resp_set_find_other by by vm_compute. apply resp_set_find.
Qed.

Definition reversed (d : HostData) : bytes :=
  Reverse.reverse_bytes (default Reverse.DEFAULT_BODY (body_seen d)).

(** [dynamic-reverse]: the body backwards, its headers left to the endpoint. *)
Lemma reverse_answers su n v :
  (∀ i, in_u 64 (su_clock su i)) →
  ∃ a v', run_prog su n (dispatch Reverse.handlers Content) v = Ret (a, v') ∧
    sealed (reversed (vw_data v)) a (vw_data v') ∧
    hd_resp_headers (vw_data v') = hd_resp_headers (vw_data v).
Proof.
  intros Hc. apply (wp_run su (dispatch Reverse.handlers Content) (λ a d', sealed (reversed (vw_data v)) a d' ∧
    hd_resp_headers d' = hd_resp_headers (vw_data v)) n v Hc).
  change (dispatch Reverse.handlers Content) with Reverse.on_content. unfold Reverse.on_content.
  intros now1 s1 _. cbn [host_call]. eapply wp_mono; [|apply wp_seal]. cbv beta. intros a d' (Hs & Hh & _).
  split; [|exact Hh].
  assert (body_seen (vw_data v) ≫= nonempty = body_seen (vw_data v)) as E.
  { unfold body_seen, readable. case_bool_decide; [|done]. unfold nonempty. case_bool_decide; [done|]. simpl.
    by rewrite bool_decide_eq_false_2. }
  unfold reversed. rewrite <-E. exact Hs.
Qed.

(** * Edges *)

Definition ex_drill : View := {|
  vw_data := new_host_data (set_target (bs "/file") (bs "bmark=1") ctx_empty) [] ∅;
  vw_state := HostState.new (bs "kv-probe") |}.

(** Two requests for the same target share a record: the second's count starts
    from the first's. *)
Lemma repeated_requests_alias :
  match filter_body [(1000, (bs "abc", true)); (2000, (bs "abc", true))] ex_drill with
  | Ret v => (HostState.kv_get (bs "probe:body_seen:/file?bmark=1") 3000 (vw_state v)).1 = Some (bs "6:1")
  | Panic => False
  end.
Proof. vm_compute. reflexivity. Qed.

(** A chunk larger than a read counts for nothing. *)
Lemma oversized_chunk_uncounted chunk : (MAX_READ_LEN < length chunk)%nat → counted chunk = 0.
Proof. intros Hl. unfold counted, readable. by rewrite bool_decide_eq_false_2 by lia. Qed.
