(* ===== verification/Admin.v ===== *)
(** The management plane ([openrusty-server/src/admin_auth.rs] and the endpoints
    of [app.rs]): the token guard, status, metrics, reload, readiness, shutdown
    and the registration face behind it, over the state of the whole node. *)

From S2P Require Import Prelude Text Net Swap Config Upstream Health HostState Registry Peer DynRoutes.
From S2P Require Import Runtime DynExec DynApi.
From Stdlib Require Import ZArith Lia.
From stdpp Require Import options.
Local Open Scope Z_scope.

(** * The token guard *)

Definition ALWAYS_OPEN : list bytes := [bs "/openrusty/ready"; bs "/openrusty/live"].

Definition is_always_open (path : bytes) : bool := bool_decide (path ∈ ALWAYS_OPEN).

(** Headers as [HeaderMap] keeps them: lower-case names, and [None] for a value
    that is not visible ASCII. *)
Definition header_get (name : bytes) (hs : list (bytes * option bytes)) : option bytes :=
  match list_find (λ h, h.1 = name) hs with Some (_, (_, v)) => v | None => None end.

Definition nonempty_token (t : bytes) : option bytes :=
  if bool_decide (trim t = []) then None else Some (trim t).

Definition bearer (auth : bytes) : option bytes :=
  rest ← match strip_prefix (bs "Bearer ") auth with
         | Some rest => Some rest
         | None => strip_prefix (bs "bearer ") auth
         end;
  nonempty_token rest.

Definition presented_token (hs : list (bytes * option bytes)) : option bytes :=
  match header_get (bs "authorization") hs ≫= bearer with
  | Some token => Some token
  | None => header_get (bs "x-openrusty-token") hs ≫= nonempty_token
  end.

(** The fold over the zipped bytes, on [u8]. *)
Definition xor_fold (a b : bytes) : Z :=
  foldl (λ acc p, Z.lor acc (Z.lxor (bz p.1) (bz p.2))) 0 (zip a b).

Definition token_eq (a b : bytes) : bool :=
  bool_decide (length a = length b) && (xor_fold a b =? 0).

(** [admin_auth]: whether the request goes on to its handler. *)
Definition admin_auth (token : option bytes) (path : bytes) (hs : list (bytes * option bytes)) : bool :=
  is_always_open path ||
  match token with
  | None => true
  | Some secret =>
      match presented_token hs with
      | Some presented => token_eq presented secret
      | None => false
      end
  end.

Lemma xor_fold_zero (l : list (byte * byte)) (acc : Z) :
  0 <= acc →
  (foldl (λ acc p, Z.lor acc (Z.lxor (bz p.1) (bz p.2))) acc l = 0 ↔
   acc = 0 ∧ Forall (λ p, p.1 = p.2) l).
Proof.
  revert acc. induction l as [|[x y] l IH]; intros acc Ha; simpl.
  { split; [by split|by intros [? _]]. }
  assert (0 <= Z.lxor (bz x) (bz y)) as Hx.
  { pose proof (bz_range x). pose proof (bz_range y). apply Z.lxor_nonneg; lia. }
  rewrite IH by (apply Z.lor_nonneg; lia). rewrite Z.lor_eq_0_iff, Z.lxor_eq_0_iff, Forall_cons. simpl.
  split; [intros ([-> He] & Hf)|intros (-> & -> & Hf)]; [|done].
  split_and!; [done|by apply bz_inj|done].
Qed.

(** The constant-time comparison is equality. *)
Lemma token_eq_spec (a b : bytes) : token_eq a b = true ↔ a = b.
Proof.
  unfold token_eq, xor_fold. rewrite andb_true_iff, bool_decide_eq_true, Z.eqb_eq.
  rewrite xor_fold_zero by done. split; [|intros ->; split_and!; [done..|]].
  - intros (Hl & _ & Hf). revert b Hl Hf. induction a as [|x a IH]; intros [|y b]; try done.
    simpl. intros [= Hl] [Hx Hf]%Forall_cons. simpl in Hx. subst. f_equal. by apply IH.
  - induction b as [|x b IH]; simpl; by constructor.
Qed.

Lemma admin_auth_spec (token : option bytes) (path : bytes) (hs : list (bytes * option bytes)) :
  admin_auth token path hs = true ↔ path ∈ ALWAYS_OPEN ∨ token = None ∨ presented_token hs = token.
Proof.
  unfold admin_auth, is_always_open. rewrite orb_true_iff, bool_decide_eq_true.
  destruct token as [s|]; [|naive_solver].
  destruct (presented_token hs) as [p|]; [rewrite token_eq_spec|]; naive_solver.
Qed.

(** A presented token is never blank, so neither is an accepted one. *)
Lemma nonempty_token_clean (x t : bytes) : nonempty_token x = Some t → t ≠ [].
Proof. unfold nonempty_token. case_bool_decide; [done|by intros [= <-]]. Qed.

Lemma presented_token_clean (hs : list (bytes * option bytes)) (t : bytes) :
  presented_token hs = Some t → t ≠ [].
Proof.
  unfold presented_token. destruct (header_get (bs "authorization") hs ≫= bearer) as [u|] eqn:E.
  - intros [= <-]. apply bind_Some in E as (a & _ & E). unfold bearer in E.
    apply bind_Some in E as (r & _ & E). by eapply nonempty_token_clean.
  - intros (a & _ & Ha)%bind_Some. by eapply nonempty_token_clean.
Qed.

(** The scheme is compared in two spellings only. *)
Lemma bearer_scheme_is_case_sensitive :
  presented_token [(bs "authorization", Some (bs "BEARER s"))] = None ∧
  presented_token [(bs "authorization", Some (bs "bearer s"))] = Some (bs "s").
Proof. by vm_compute. Qed.

(** * The node and its endpoints *)

(** [shutdown::is_draining]: the flag, or a sender that is gone. *)
Definition is_draining (flag sender_gone : bool) : bool := flag || sender_gone.

Record UpstreamStatus := { us_name : bytes; us_peers : nat; us_healthy : nat; us_active_healthy : nat }.

Record StatusReport := {
  sr_generation : Z;
  sr_uptime : Z;
  sr_plugins : list (bytes * Z);
  sr_routes : nat;
  sr_upstreams : list UpstreamStatus;
}.

(** [{name}] is the captured segment of the face's paths. *)
Inductive Endpoint :=
| EpStatus | EpReload | EpMetrics | EpReady | EpLive | EpShutdown
| EpList | EpRegister (name : bytes) | EpUnregister (name : bytes).

Record AdminRequest := {
  ar_method : bytes;
  ar_path : bytes;
  ar_headers : list (bytes * option bytes);
  ar_remote_loopback : bool;
  ar_query : gmap bytes bytes;       (* parsed query parameters *)
  ar_body : option bytes;            (* read under [MAX_MODULE_BYTES] *)
}.

Section admin.
Context {Module_ : Type}.
Context (tio : TlsIo).
Context (lookup_host : bytes → option (list SocketAddr)).
Context (validate_bytes : bytes → result bytes ()) (store_error remove_error : bytes → option bytes).
(** The name the router captures from [/openrusty/dynamic/{name}]. *)
Context (captured : bytes → option bytes).

Abbreviation AppState := (@AppState Module_).
Abbreviation Environment := (@Environment Module_).

(** The whole node: the shared state, the module directory, the shutdown flag. *)
Record Node := { nd_app : AppState; nd_modules : gmap bytes bytes; nd_draining : bool }.

Inductive AdminReply :=
| ArUnauthorized
| ArForbidden
| ArStatus (r : StatusReport)
| ArReloaded (generation : Z) (plugins : list bytes)
| ArConflict
| ArReloadFailed (f : ReloadFailure)
| ArMetrics (peers : list (bytes * bytes * bool)) (kv : list (bytes * Z))
            (errors : list (bytes * bytes * Z))
| ArReady (draining : bool)
| ArLive
| ArShutdown
| ArFace (r : FaceReply).

Definition ar_status (a : AdminReply) : Z :=
  match a with
  | ArUnauthorized => 401
  | ArForbidden => 403
  | ArConflict => 409
  | ArReloadFailed _ => 500
  | ArReady draining => if draining then 503 else 200
  | ArFace r => face_status r
  | ArStatus _ | ArReloaded _ _ | ArMetrics _ _ _ | ArLive | ArShutdown => 200
  end.

(** What a handler meets: the clock, and what other tasks do meanwhile. *)
Record AdminIo := {
  io_now : Z;
  io_uptime : Z;
  io_env : Environment;
  io_loaded : result ConfigError Config;
  io_binders : nat → list DynRoutes.DynamicRoutes;
}.

(** [admin_routes] and the routes of the registration face; a [get] also answers
    [HEAD].  [None] is what the router answers by itself. *)
Definition admin_routes (face : bool) (method path : bytes) : option Endpoint :=
  let get := bool_decide (method = bs "GET") || bool_decide (method = bs "HEAD") in
  let post := bool_decide (method = bs "POST") in
  let on (b : bool) (e : Endpoint) := if b then Some e else None in
  if bool_decide (path = bs "/openrusty/status") then on get EpStatus
  else if bool_decide (path = bs "/openrusty/reload") then on post EpReload
  else if bool_decide (path = bs "/openrusty/metrics") then on get EpMetrics
  else if bool_decide (path = bs "/openrusty/ready") then on get EpReady
  else if bool_decide (path = bs "/openrusty/live") then on get EpLive
  else if bool_decide (path = bs "/openrusty/shutdown") then on post EpShutdown
  else if negb face then None
  else if bool_decide (path = bs "/openrusty/dynamic") then on get EpList
  else
    name ← captured path;
    if bool_decide (method = bs "PUT") then Some (EpRegister name)
    else if bool_decide (method = bs "DELETE") then Some (EpUnregister name)
    else None.

(** [status]. *)
Definition upstream_status (h : HealthRegistry) (now : Z) (name : bytes) (u : UpstreamRt)
    : UpstreamStatus :=
  let peers := length (up_peers (ur_up u)) in
  {| us_name := name; us_peers := peers;
     us_healthy := length (healthy_indices h name peers now);
     us_active_healthy :=
       match hc_active (up_health (ur_up u)) with
       | Some _ => length (filter (λ p, p.1.1 = name ∧ p.2 = true) (active_peers h))
       | None => peers
       end |}.

Definition status (now uptime : Z) (s : AppState) : StatusReport :=
  let rt := as_value (app_runtime s) in {|
    sr_generation := rs_generation rt;
    sr_uptime := uptime;
    sr_plugins := Registry.status (app_states s) (as_value (app_plugins s));
    sr_routes := length (rs_routes rt);
    sr_upstreams := sort_by (λ a b, bytes_leb (us_name a) (us_name b))
      (map (λ '(name, u), upstream_status (app_health s) now name u) (map_to_list (rs_upstreams rt)));
  |}.

(** [metrics_endpoint]: the live gauges it hands to the renderer. *)
Definition peer_gauges (now : Z) (s : AppState) : list (bytes * bytes * bool) :=
  let ups := rs_upstreams (as_value (app_runtime s)) in
  concat (map (λ name,
    match ups !! name with
    | Some u => imap (λ i p, (name, addr_to_string (pe_addr p), is_healthy (app_health s) name i now))
                  (up_peers (ur_up u))
    | None => []
    end) (map_keys ups)).

(** [metric_view]. *)
Definition metric_view (w : States) (ps : @PluginSnapshot Module_) : list (bytes * list (bytes * Z) * Z) :=
  map (λ p, match sto_map w !! ld_state p with
            | Some st => (ld_name p, error_kinds st, Z.of_nat (size (st_kv st)))
            | None => (ld_name p, [], 0)
            end) (ps_plugins ps).

Definition metrics_endpoint (now : Z) (s : AppState) : AdminReply :=
  let view := metric_view (app_states s) (as_value (app_plugins s)) in
  ArMetrics (peer_gauges now s) (map (λ v, (v.1.1, v.2)) view)
    (concat (map (λ v, map (λ k, (v.1.1, k.1, k.2)) v.1.2) view)).

Definition reload_reply (r : result ReloadError (Z * list bytes)) : AdminReply :=
  match r with
  | Ok (generation, plugins) => ArReloaded generation plugins
  | Err InFlight => ArConflict
  | Err (Failed f) => ArReloadFailed f
  end.

Definition reload_endpoint (io : AdminIo) (remote_loopback : bool) (n : Node) : exec (AdminReply * Node) :=
  if negb remote_loopback then Ret (ArForbidden, n)
  else
    '(r, s) ← reload_file tio lookup_host (io_env io) (io_loaded io) (nd_app n);
    let n := {| nd_app := s; nd_modules := nd_modules n; nd_draining := nd_draining n |} in
    Ret (reload_reply r, n).

Definition ready (n : Node) : AdminReply := ArReady (is_draining (nd_draining n) false).

Definition shutdown_endpoint (n : Node) : AdminReply * Node :=
  (ArShutdown, {| nd_app := nd_app n; nd_modules := nd_modules n; nd_draining := true |}).

(** The registration face works on the module directory and the live table. *)
Definition face_of (n : Node) : Face :=
  {| fc_modules := nd_modules n; fc_table := app_dynamic_routes (nd_app n) |}.

Definition set_table (t : ArcSwap DynRoutes.DynamicRoutes) (s : AppState) : AppState := {|
  app_plugins := app_plugins s; app_states := app_states s; app_health := app_health s;
  app_pool := app_pool s; app_runtime := app_runtime s; app_admin_token := app_admin_token s;
  app_static_config := app_static_config s; app_dynamic := app_dynamic s;
  app_dynamic_routes := t; app_probe := app_probe s; app_gate := app_gate s;
|}.

Definition on_face (f : Face → FaceReply * Face) (n : Node) : AdminReply * Node :=
  let '(r, f) := f (face_of n) in
  (ArFace r, {| nd_app := set_table (fc_table f) (nd_app n); nd_modules := fc_modules f;
                nd_draining := nd_draining n |}).

Definition dynamic_enabled (n : Node) : bool := is_some (as_value (app_dynamic (nd_app n))).

Definition handle (ep : Endpoint) (io : AdminIo) (rq : AdminRequest) (n : Node)
    : exec (AdminReply * Node) :=
  match ep with
  | EpStatus => Ret (ArStatus (status (io_now io) (io_uptime io) (nd_app n)), n)
  | EpReload => reload_endpoint io (ar_remote_loopback rq) n
  | EpMetrics => Ret (metrics_endpoint (io_now io) (nd_app n), n)
  | EpReady => Ret (ready n, n)
  | EpLive => Ret (ArLive, n)
  | EpShutdown => Ret (shutdown_endpoint n)
  | EpList => Ret (ArFace (list_face (dynamic_enabled n) (face_of n)), n)
  | EpRegister name =>
      Ret (on_face (register validate_bytes store_error (dynamic_enabled n) name
                      (ar_query rq !! bs "method") (ar_query rq !! bs "path") (ar_body rq)
                      (io_binders io)) n)
  | EpUnregister name =>
      Ret (on_face (unregister remove_error (dynamic_enabled n) name (io_binders io)) n)
  end.

(** One request to the admin router; [face] is whether the face was mounted when
    the router was built. *)
Definition admin_serve (face : bool) (rq : AdminRequest) (io : AdminIo) (n : Node)
    : exec (option AdminReply * Node) :=
  match admin_routes face (ar_method rq) (ar_path rq) with
  | None => Ret (None, n)
  | Some ep =>
      if admin_auth (app_admin_token (nd_app n)) (ar_path rq) (ar_headers rq) then
        '(a, n) ← handle ep io rq n;
        Ret (Some a, n)
      else Ret (Some ArUnauthorized, n)
  end.

Fixpoint admin_run (face : bool) (rs : list (AdminRequest * AdminIo)) (n : Node)
    : exec (list (option AdminReply) * Node) :=
  match rs with
  | [] => Ret ([], n)
  | (rq, io) :: rs =>
      '(a, n) ← admin_serve face rq io n;
      '(l, n) ← admin_run face rs n;
      Ret (a :: l, n)
  end.

(** ** What a request may do *)

(** What [status] reports of an upstream: its configured peers, those a pick may
    use now, and those the active plane holds healthy under its name. *)
Definition upstream_reported (h : HealthRegistry) (now : Z) (u : UpstreamRt) (us : UpstreamStatus) : Prop :=
  let peers := up_peers (ur_up u) in
  us_peers us = length peers ∧
  us_healthy us = length (filter (λ i, is_healthy h (us_name us) i now = true) (seq 0 (length peers))) ∧
  us_active_healthy us =
    match hc_active (up_health (ur_up u)) with
    | Some _ => size (filter (λ kv, kv.1.1 = us_name us ∧ ap_healthy kv.2 = true) (hr_active h))
    | None => length peers
    end.

Definition status_report (now uptime : Z) (s : AppState) (r : StatusReport) : Prop :=
  let rt := as_value (app_runtime s) in
  sr_generation r = rs_generation rt ∧ sr_uptime r = uptime ∧
  sr_plugins r = map (λ p, (ld_name p, from_option st_errors 0 (sto_map (app_states s) !! ld_state p)))
    (ps_plugins (as_value (app_plugins s))) ∧
  sr_routes r = length (rs_routes rt) ∧
  Sorted (λ a b, bytes_leb a b = true) (us_name <$> sr_upstreams r) ∧
  (us_name <$> sr_upstreams r) ≡ₚ (map_to_list (rs_upstreams rt)).*1 ∧
  ∀ us, us ∈ sr_upstreams r → ∃ u, rs_upstreams rt !! us_name us = Some u ∧
    upstream_reported (app_health s) now u us.

(** What the live gauges show: every peer of every published upstream with its
    present verdict, the keys each plugin stores, its errors by kind. *)
Definition metrics_report (now : Z) (s : AppState) (peers : list (bytes * bytes * bool))
    (kv : list (bytes * Z)) (errors : list (bytes * bytes * Z)) : Prop :=
  let ps := ps_plugins (as_value (app_plugins s)) in
  (∀ x, x ∈ peers ↔ ∃ name u i p, rs_upstreams (as_value (app_runtime s)) !! name = Some u ∧
     up_peers (ur_up u) !! i = Some p ∧
     x = (name, addr_to_string (pe_addr p), is_healthy (app_health s) name i now)) ∧
  kv = map (λ p, (ld_name p, Z.of_nat (from_option (λ st, size (st_kv st)) 0%nat
                                         (sto_map (app_states s) !! ld_state p)))) ps ∧
  ∀ name kind c, (name, kind, c) ∈ errors ↔ ∃ p st, p ∈ ps ∧ ld_name p = name ∧
    sto_map (app_states s) !! ld_state p = Some st ∧ st_error_kinds st !! kind = Some c.

(** The face of [n'] is what [effect] makes of that of [n]; the rest stays. *)
Definition face_effect (effect : Face → FaceReply → Face → Prop) (n : Node) (a : AdminReply) (n' : Node) : Prop :=
  nd_draining n' = nd_draining n ∧ nd_app n' = set_table (app_dynamic_routes (nd_app n')) (nd_app n) ∧
  (∃ r, a = ArFace r ∧ effect (face_of n) r (face_of n')) ∧
  (dynamic_enabled n = false → n' = n ∧ ar_status a = 404) ∧
  (artifacts_ok validate_bytes (face_of n) → artifacts_ok validate_bytes (face_of n')).

(** A handler's effect, given that it was let through. *)
Definition admin_effect (ep : Endpoint) (io : AdminIo) (rq : AdminRequest) (n : Node) (a : AdminReply)
    (n' : Node) : Prop :=
  match ep with
  | EpReady => n' = n ∧ a = ArReady (nd_draining n)
  | EpLive => n' = n ∧ a = ArLive
  | EpStatus => n' = n ∧ ∃ r, a = ArStatus r ∧ status_report (io_now io) (io_uptime io) (nd_app n) r
  | EpMetrics => n' = n ∧ ∃ peers kv errors, a = ArMetrics peers kv errors ∧
      metrics_report (io_now io) (nd_app n) peers kv errors
  | EpList => n' = n ∧
      if dynamic_enabled n then ∃ l, a = ArFace (FcList l (DynRoutes.entries (as_value (app_dynamic_routes (nd_app n))))) ∧
        NoDup l ∧ ∀ name, name ∈ l ↔ valid_name name = true ∧ is_Some (nd_modules n !! name)
      else ar_status a = 404
  | EpShutdown => n' = {| nd_app := nd_app n; nd_modules := nd_modules n; nd_draining := true |} ∧
      a = ArShutdown
  | EpReload =>
      nd_modules n' = nd_modules n ∧ nd_draining n' = nd_draining n ∧
      if ar_remote_loopback rq then
        (∃ r, reload_file tio lookup_host (io_env io) (io_loaded io) (nd_app n) =
           Ret (r, nd_app n') ∧ a = reload_reply r) ∧
        (ar_status a = 409 ↔ app_gate (nd_app n) = true) ∧ (app_gate (nd_app n) = true → n' = n)
      else a = ArForbidden ∧ n' = n
  | EpRegister name =>
      face_effect (register_effect validate_bytes store_error (dynamic_enabled n) name
        (ar_query rq !! bs "method") (ar_query rq !! bs "path") (ar_body rq)) n a n'
  | EpUnregister name =>
      face_effect (λ f r f', unregister_effect remove_error (dynamic_enabled n) name f r f'
        (∀ i, (i < CAS_TURNS)%nat → io_binders io i ≠ [])) n a n'
  end.

(** The answers that need no credential. *)
Definition open_answer (a : option AdminReply) : Prop :=
  match a with None | Some ArUnauthorized | Some (ArReady _) | Some ArLive => True | _ => False end.

Lemma set_table_same (s : AppState) : set_table (app_dynamic_routes s) s = s.
Proof. by destruct s. Qed.

Lemma unchanged_node (n n' : Node) :
  nd_draining n' = nd_draining n → nd_app n' = set_table (app_dynamic_routes (nd_app n')) (nd_app n) →
  face_of n' = face_of n → n' = n.
Proof using Type.
  destruct n as [s m d], n' as [s' m' d']. simpl. unfold face_of. simpl. intros -> Hs [= -> Ht].
  by rewrite Hs, Ht, set_table_same.
Qed.

(** A handler of the face: what it does to modules and table is what its own
    specification says. *)
Lemma on_face_effect (f : Face → FaceReply * Face) effect n :
  (effect (face_of n) (f (face_of n)).1 (f (face_of n)).2) →
  (dynamic_enabled n = false → face_status (f (face_of n)).1 = 404 ∧ (f (face_of n)).2 = face_of n) →
  (artifacts_ok validate_bytes (face_of n) → artifacts_ok validate_bytes (f (face_of n)).2) →
  let '(a, n') := on_face f n in face_effect effect n a n'.
Proof using Type.
  intros He Hd Ha. unfold on_face. destruct (f (face_of n)) as [r g] eqn:Ef. simpl in *.
  assert (face_of {| nd_app := set_table (fc_table g) (nd_app n); nd_modules := fc_modules g;
                     nd_draining := nd_draining n |} = g) as Hg by (by destruct g).
  split; [done|]. split; [done|]. rewrite Hg. split_and!; [by exists r| |done].
  intros [? ->]%Hd. split; [|done]. by apply unchanged_node.
Qed.

(** ** What the reports hold *)

Lemma map_keys_perm {V} (m : gmap bytes V) : map_keys m ≡ₚ (map_to_list m).*1.
Proof using Type. unfold map_keys. apply sort_by_perm. Qed.

Lemma map_filter_count {K V} `{Countable K} (P : K * V → Prop) `{∀ x, Decision (P x)} (m : gmap K V) :
  size (filter P m) = length (filter P (map_to_list m)).
Proof using Type.
  rewrite map_filter_alt, map_size_list_to_map; [done|].
  eapply sublist_NoDup; [apply (NoDup_fst_map_to_list m)|apply fmap_sublist, sublist_filter].
Qed.

Lemma active_count h name :
  length (filter (λ p : bytes * bytes * bool, p.1.1 = name ∧ p.2 = true) (active_peers h)) =
  size (filter (λ kv : bytes * bytes * ActivePeer, kv.1.1 = name ∧ ap_healthy kv.2 = true) (hr_active h)).
Proof using Type.
  rewrite map_filter_count. unfold active_peers. rewrite sort_by_perm.
  induction (map_to_list (hr_active h)) as [|[[u a] p] l IH]; [done|]. simpl.
  rewrite !filter_cons. simpl. repeat case_decide; simpl; try (exfalso; tauto); by rewrite IH.
Qed.

Lemma healthy_count h name n now :
  healthy_indices h name n now = filter (λ i, is_healthy h name i now = true) (seq 0 n).
Proof using Type.
  unfold healthy_indices, is_healthy, slot_at. destruct (hr_upstreams h !! name) as [sl|]; simpl.
  - apply list_filter_iff. intros i. simpl. by destruct (sl_peers sl !! i).
  - induction (seq 0 n) as [|i l IH]; [done|]. rewrite filter_cons_True by done. by rewrite <-IH.
Qed.

Lemma sorted_by_name l :
  Sorted (λ a b, bytes_leb (us_name a) (us_name b) = true) l →
  Sorted (λ a b, bytes_leb a b = true) (us_name <$> l).
Proof using Type.
  induction 1 as [|us l Hs IH Hh]; simpl; [done|]. constructor; [done|].
  destruct Hh; by constructor.
Qed.

Lemma status_reported now uptime s : status_report now uptime s (status now uptime s).
Proof using Type.
  unfold status_report, status. simpl. split_and!; try done.
  - apply sorted_by_name, sort_by_sorted. intros a b. apply bytes_leb_total.
  - rewrite sort_by_perm.
    match goal with |- ?x ≡ₚ ?y => assert (x = y) as ->; [|done] end.
    rewrite <-list_fmap_compose. apply list_fmap_ext. by intros _ [name u] _.
  - intros us Hin. rewrite sort_by_perm in Hin. apply list_elem_of_fmap in Hin as ([name u] & -> & Hin).
    apply elem_of_map_to_list in Hin. exists u. split; [done|]. unfold upstream_reported. simpl.
    split_and!; [done|by rewrite healthy_count|]. destruct (hc_active _); [apply active_count|done].
Qed.

Lemma metrics_reported now s :
  ∃ peers kv errors, metrics_endpoint now s = ArMetrics peers kv errors ∧
    metrics_report now s peers kv errors.
Proof using Type.
  unfold metrics_endpoint, metrics_report, metric_view. eexists _, _, _. split; [done|]. split_and!.
  - intros x. unfold peer_gauges. rewrite list_elem_of_In, in_concat. setoid_rewrite in_map_iff.
    setoid_rewrite <-list_elem_of_In. setoid_rewrite elem_of_map_keys. split.
    + intros (l & (name & <- & Hn) & Hx). apply elem_of_dom in Hn as [u Hu]. rewrite Hu in Hx.
      apply elem_of_lookup_imap in Hx as (i & p & -> & Hp). by exists name, u, i, p.
    + intros (name & u & i & p & Hu & Hp & ->). eexists. split.
      * exists name. split; [done|]. apply elem_of_dom. by eexists.
      * rewrite Hu. apply elem_of_lookup_imap. by exists i, p.
  - rewrite map_map. apply map_ext. intros p. by destruct (sto_map (app_states s) !! ld_state p).
  - intros name kind c. rewrite list_elem_of_In, in_concat, map_map. setoid_rewrite in_map_iff. split.
    + intros (l & (p & <- & Hp) & Hx). destruct (sto_map (app_states s) !! ld_state p) as [st|] eqn:Est; [|done].
      apply in_map_iff in Hx as ([k c'] & [= <- <- <-] & Hk). exists p, st.
      split_and!; [by apply list_elem_of_In|done|done|].
      apply elem_of_map_to_list. rewrite <-list_elem_of_In in Hk. unfold error_kinds in Hk.
      by rewrite sort_by_perm in Hk.
    + intros (p & st & Hp & <- & Hst & Hk). eexists. split.
      * exists p. split; [done|by apply list_elem_of_In].
      * rewrite Hst. simpl. apply in_map_iff. exists (kind, c). split; [done|].
        apply list_elem_of_In. unfold error_kinds. rewrite sort_by_perm. by apply elem_of_map_to_list.
Qed.

Lemma list_reported io rq n : admin_effect EpList io rq n (ArFace (list_face (dynamic_enabled n) (face_of n))) n.
Proof using Type.
  simpl. split; [done|]. unfold list_face. destruct (dynamic_enabled n); simpl; [|done].
  eexists. split; [done|]. split.
  - apply NoDup_filter. rewrite map_keys_perm. apply NoDup_fst_map_to_list.
  - intros name. by rewrite list_elem_of_filter, elem_of_map_keys, elem_of_dom.
Qed.

(** What the gate decides of a reload, whatever it then meets. *)
Lemma reload_file_gate env loaded (s : AppState) :
  match reload_file tio lookup_host env loaded s with
  | Ret (r, s') => (r = Err InFlight ↔ app_gate s = true) ∧ (app_gate s = true → s' = s)
  | Panic => True
  end.
Proof using Type.
  unfold reload_file. destruct (app_gate s); [done|]. destruct loaded as [cfg|e]; [|done].
  destruct (publish _ _ _ _ _) as [[[g|f] s1]|]; simpl; done.
Qed.

(** A handler answers, unless it is the reload of a configuration it panics on. *)
Lemma handle_spec ep io rq n :
  match handle ep io rq n with
  | Ret (a, n') => admin_effect ep io rq n a n'
  | Panic => ep = EpReload ∧ ar_remote_loopback rq = true ∧
      reload_file tio lookup_host (io_env io) (io_loaded io) (nd_app n) = Panic
  end.
Proof using Type.
  destruct ep as [| | | | | | |name|name]; cbn [handle].
  - split; [done|]. eexists. split; [done|]. apply status_reported.
  - unfold reload_endpoint. destruct (ar_remote_loopback rq) eqn:Er; simpl; [|by rewrite Er].
    pose proof (reload_file_gate (io_env io) (io_loaded io) (nd_app n)) as Hg.
    destruct (reload_file _ _ _ _ _) as [[r s']|] eqn:Ef; [|done]. destruct Hg as [Hg Hs]. simpl. rewrite Er.
    split_and!; [done|done| | |].
    + by exists r.
    + rewrite <-Hg. destruct r as [[g ps]|[]]; simpl; naive_solver lia.
    + intros E. rewrite (Hs E). by destruct n.
  - split; [done|]. apply metrics_reported.
  - simpl. split; [done|]. unfold ready, is_draining. by rewrite orb_false_r.
  - by simpl.
  - by simpl.
  - apply list_reported.
  - set (f := register _ _ _ _ _ _ _ _). apply (on_face_effect f).
    + pose proof (register_spec validate_bytes store_error (dynamic_enabled n) name (ar_query rq !! bs "method")
        (ar_query rq !! bs "path") (ar_body rq) (io_binders io) (face_of n)) as Hs.
      unfold f. by destruct (register _ _ _ _ _ _ _ _ _).
    + intros He. unfold f. by rewrite He.
    + apply register_artifacts.
  - set (f := unregister _ _ _ _). apply (on_face_effect f).
    + pose proof (unregister_spec remove_error (dynamic_enabled n) name (io_binders io) (face_of n)) as Hs.
      unfold f. by destruct (unregister _ _ _ _ _).
    + intros He. unfold f. by rewrite He.
    + apply unregister_artifacts.
Qed.

(** The probes are the only endpoints behind the open paths. *)
Lemma open_endpoint face method path ep :
  path ∈ ALWAYS_OPEN → admin_routes face method path = Some ep → ep = EpReady ∨ ep = EpLive.
Proof using Type.
  intros Hp. apply elem_of_cons in Hp as [->|Hp]; [|apply list_elem_of_singleton in Hp as ->];
    unfold admin_routes; repeat case_bool_decide; try done; simpl; intros [= <-]; auto.
Qed.

(** One request of a history. *)
Inductive admin_step (face : bool) (rq : AdminRequest) (io : AdminIo) (n : Node)
    : option AdminReply → Node → Prop :=
| Unrouted : admin_routes face (ar_method rq) (ar_path rq) = None →
    admin_step face rq io n None n
| Refused ep s : admin_routes face (ar_method rq) (ar_path rq) = Some ep →
    ar_path rq ∉ ALWAYS_OPEN → app_admin_token (nd_app n) = Some s →
    presented_token (ar_headers rq) ≠ Some s →
    admin_step face rq io n (Some ArUnauthorized) n
| Handled ep a n' : admin_routes face (ar_method rq) (ar_path rq) = Some ep →
    ep = EpReady ∨ ep = EpLive ∨ app_admin_token (nd_app n) = None ∨
      presented_token (ar_headers rq) = app_admin_token (nd_app n) →
    admin_effect ep io rq n a n' →
    admin_step face rq io n (Some a) n'.

Inductive admin_history (face : bool)
    : list (AdminRequest * AdminIo) → Node → list (option AdminReply) → Node → Prop :=
| HistNil n : admin_history face [] n [] n
| HistCons rq io rs n a n1 l n2 : admin_step face rq io n a n1 → admin_history face rs n1 l n2 →
    admin_history face ((rq, io) :: rs) n (a :: l) n2.

(** What a request that is not answered met: the reload endpoint, let through, whose
    reload panics. *)
Definition reload_dies (face : bool) (rq : AdminRequest) (io : AdminIo) (n : Node) : Prop :=
  admin_routes face (ar_method rq) (ar_path rq) = Some EpReload ∧ ar_remote_loopback rq = true ∧
  (app_admin_token (nd_app n) = None ∨ presented_token (ar_headers rq) = app_admin_token (nd_app n)) ∧
  reload_file tio lookup_host (io_env io) (io_loaded io) (nd_app n) = Panic.

Lemma admin_serve_step face rq io n :
  match admin_serve face rq io n with
  | Ret (a, n') => admin_step face rq io n a n'
  | Panic => reload_dies face rq io n
  end.
Proof using Type.
  unfold admin_serve.
  destruct (admin_routes face (ar_method rq) (ar_path rq)) as [ep|] eqn:Er; [|by constructor].
  pose proof (admin_auth_spec (app_admin_token (nd_app n)) (ar_path rq) (ar_headers rq)) as Ha.
  destruct (admin_auth _ _ _).
  - assert (ep = EpReady ∨ ep = EpLive ∨ app_admin_token (nd_app n) = None ∨
      presented_token (ar_headers rq) = app_admin_token (nd_app n)) as Hc.
    { destruct (proj1 Ha eq_refl) as [Ho|Hrest]; [|tauto]. destruct (open_endpoint _ _ _ _ Ho Er); auto. }
    pose proof (handle_spec ep io rq n) as Hh. destruct (handle ep io rq n) as [[a n']|]; simpl.
    + by econstructor.
    + destruct Hh as (-> & Hl & Hp). split_and!; [done|done| |done]. by destruct Hc as [?|[?|?]].
  - destruct (app_admin_token (nd_app n)) as [s|] eqn:Et.
    + eapply Refused; [done| |done|]; intros Hx; by assert (false = true) by (apply Ha; auto).
    + by assert (false = true) by (apply Ha; auto).
Qed.

Lemma admin_run_cons face rq io rs n :
  admin_run face ((rq, io) :: rs) n =
    '(a, n) ← admin_serve face rq io n; '(l, n) ← admin_run face rs n; Ret (a :: l, n).
Proof using Type. done. Qed.

Lemma admin_run_history face rs n :
  match admin_run face rs n with
  | Ret (l, n') => admin_history face rs n l n'
  | Panic => ∃ pre rq io post l n1, rs = pre ++ (rq, io) :: post ∧ admin_history face pre n l n1 ∧
      reload_dies face rq io n1
  end.
Proof using Type.
  revert n. induction rs as [|[rq io] rs IH]; intros n; [constructor|]. rewrite admin_run_cons.
  pose proof (admin_serve_step face rq io n) as Hs. destruct (admin_serve face rq io n) as [[a n1]|].
  - unfold mbind at 1, exec_mbind at 1. specialize (IH n1). destruct (admin_run face rs n1) as [[l n2]|]; simpl.
    + by econstructor.
    + destruct IH as (pre & rq' & io' & post & l & n2 & -> & Hh & Hd).
      exists ((rq, io) :: pre), rq', io', post, (a :: l), n2. split_and!; [done|by econstructor|done].
  - exists [], rq, io, rs, [], n. split_and!; [done|constructor|done].
Qed.

Lemma locked_out face rs n l n' s :
  admin_history face rs n l n' → app_admin_token (nd_app n) = Some s →
  Forall (λ r, presented_token (ar_headers r.1) ≠ Some s) rs → n' = n ∧ Forall open_answer l.
Proof using Type.
  intros Hh. induction Hh as [n|rq io rs n a n1 l n2 Hs _ IH]; intros Ht Hf; [by split; constructor|].
  apply Forall_cons in Hf as [Hp Hf]. simpl in Hp.
  assert (n1 = n ∧ open_answer a) as [-> Ha].
  { destruct Hs as [|ep t|ep a n1 Hr Hc He]; [done|done|].
    destruct Hc as [->|[->|[Hc|Hc]]]; [by destruct He as [-> ->]| |congruence..].
    by destruct He as [-> ->]. }
  destruct (IH Ht Hf) as [-> Hl]. split; [done|by constructor].
Qed.

(** C26. The management plane obeys its secret.  A request is refused with 401, and
    changes nothing, exactly when a token is set, the path is no probe and the
    credential it presents is not that token, as the node stands at that moment.
    While every request of a history lacks the token, the node does not change at
    all and only the probes and 401 are answered.  A request let through does what
    its endpoint says and no more: status and metrics report the generation, the
    counts and verdicts of the published upstreams and the plugins' stores as they
    are, the listing the modules and bindings there are, the probes readiness (503
    exactly while draining), and none of them changes anything; shutdown only raises
    the flag; a reload from another host is forbidden, one that finds the gate taken
    changes nothing, and otherwise the answer is the reload's own; an upload that
    validates and can be written is stored under its name, even when the binding it
    asks for is then refused, and any other leaves the modules alone; only a binding
    asked for with such an upload, or for a module there is, changes the bindings;
    a removal takes the module and its bindings (or, when it loses every turn to
    other writers, the module alone); and the face never
    stores a module that does not validate.  Every history is answered, except that
    a reload let through that panics ends it; none does while every configuration a
    reload may read has only server names that parse. *)
Theorem admin_gate_exact (face : bool) (rs : list (AdminRequest * AdminIo)) (n : Node) :
  match admin_run face rs n with
  | Ret (l, n') => admin_history face rs n l n'
  | Panic => ∃ pre rq io post l n1, rs = pre ++ (rq, io) :: post ∧ admin_history face pre n l n1 ∧
      reload_dies face rq io n1
  end ∧
  (∀ s, app_admin_token (nd_app n) = Some s →
     Forall (λ r, presented_token (ar_headers r.1) ≠ Some s) rs →
     ∃ l, admin_run face rs n = Ret (l, n) ∧ Forall open_answer l) ∧
  (Forall (λ r, ∀ cfg, io_loaded r.2 = Ok cfg → names_parse tio cfg) rs → admin_run face rs n ≠ Panic).
Proof.
  pose proof (admin_run_history face rs n) as Hr. split; [exact Hr|]. split.
  - intros s Ht Hf. destruct (admin_run face rs n) as [[l n']|].
    + destruct (locked_out _ _ _ _ _ _ Hr Ht Hf) as [-> Hl]. by exists l.
    + destruct Hr as (pre & rq & io & post & l & n1 & -> & Hh & (_ & _ & Hc & _)).
      apply Forall_app in Hf as [Hf1 Hf2]. apply Forall_cons in Hf2 as [Hf2 _]. simpl in Hf2.
      destruct (locked_out _ _ _ _ _ _ Hh Ht Hf1) as [-> _]. rewrite Ht in Hc. by destruct Hc.
  - intros Hf Hp. rewrite Hp in Hr. destruct Hr as (pre & rq & io & post & l & n1 & -> & _ & (_ & _ & _ & Hd)).
    apply Forall_app in Hf as [_ Hf]. apply Forall_cons in Hf as [Hf _]. simpl in Hf.
    destruct (io_loaded io) as [cfg|e] eqn:El.
    + by eapply reload_file_returns; [apply Hf|].
    + unfold reload_file in Hd. by destruct (app_gate _).
Qed.

End admin.

(** * A concrete node *)

Definition ex_request (method path : string) (hs : list (string * string)) : AdminRequest := {|
  ar_method := bs method; ar_path := bs path;
  ar_headers := map (λ '(n, v), (bs n, Some (bs v))) hs;
  ar_remote_loopback := true; ar_query := ∅; ar_body := None |}.

Definition ex_io : AdminIo (Module_ := ()) := {|
  io_now := 10; io_uptime := 1; io_env := ex_env; io_loaded := Ok ex_new_config;
  io_binders := λ _, [] |}.

Definition ex_node : Node (Module_ := ()) :=
  {| nd_app := set_token (Some (bs "secret")) ex_state; nd_modules := ∅; nd_draining := false |}.

Definition ex_run (rs : list AdminRequest) :=
  admin_run ex_tls_io (λ _, None) (λ _, Ok ()) (λ _, None) (λ _, None) (λ _, None)
    false (map (λ rq, (rq, ex_io)) rs) ex_node.

(** A wrong token, a reload with the right one, a probe, a shutdown, a probe. *)
Definition ex_requests : list AdminRequest := [
  ex_request "POST" "/openrusty/reload" [("authorization", "Bearer guess")];
  ex_request "POST" "/openrusty/reload" [("authorization", "Bearer  secret ")];
  ex_request "GET" "/openrusty/ready" [];
  ex_request "POST" "/openrusty/shutdown" [("x-openrusty-token", "secret")];
  ex_request "GET" "/openrusty/ready" []]%string.

Definition answered (statuses : list Z) (r : exec (list (option AdminReply) * @Node ())) : bool :=
  match r with
  | Ret (l, n) => bool_decide (map (from_option ar_status 0) l = statuses) && (nd_draining n && negb (app_gate (nd_app n)))
  | Panic => false
  end.

Lemma admin_gate_exact_witness :
  ∃ l n', ex_run ex_requests = Ret (l, n') ∧ map (from_option ar_status 0) l = [401; 200; 200; 200; 503] ∧
    app_gate (nd_app n') = false.
Proof.
  destruct (admin_gate_exact ex_tls_io (λ _, None) (λ _, Ok ()) (λ _, None) (λ _, None)
    (λ _, None) false (map (λ rq, (rq, ex_io)) ex_requests) ex_node) as (_ & _ & Hn).
  fold (ex_run ex_requests) in Hn.
  assert (answered [401; 200; 200; 200; 503] (ex_run ex_requests) = true) as Ha by (vm_compute; reflexivity).
  destruct (ex_run ex_requests) as [[l n']|] eqn:E.
  - exists l, n'. apply andb_true_iff in Ha as [Ha Hd]. apply andb_true_iff in Hd as [_ Hd].
    apply bool_decide_eq_true in Ha. split; [reflexivity|]. split; [exact Ha|]. by apply negb_true_iff in Hd.
  - exfalso. apply Hn; [|reflexivity]. repeat constructor; simpl; intros cfg [= <-] uc tc Hin Htc;
      repeat (apply elem_of_cons in Hin as [->|Hin]; [discriminate Htc|]); by apply elem_of_nil in Hin.
Defined.

(** The active plane keeps the addresses a reload dropped, and [status] counts
    them: an upstream of one peer is reported with two actively healthy ones. *)
Lemma status_counts_forgotten_peers :
  let u addrs := {|
    ur_up := {| up_name := bs "u"; up_kind := Swrr; up_retries := 1; up_retry_on_timeout := false;
      up_connect_timeout := 1; up_pool_idle_timeout := 1;
      up_peers := map (λ a, {| pe_addr := a; pe_weight := 1 |}) addrs; up_tls := None;
      up_health := {| hc_max_fails := 1; hc_fail_window_s := 10; hc_fail_timeout_s := 10;
        hc_active := Some {| ah_interval_ms := 1; ah_timeout_ms := 1; ah_path := bs "/";
                             ah_unhealthy_threshold := 1; ah_healthy_threshold := 1 |} |} |};
    ur_swrr := [] |} in
  let probe idx a h := (record_probe (bs "u") idx (addr_to_string a) true 1 1 h).2 in
  let a := loopback 9001 in let b := loopback 9002 in
  let h := Health.register (bs "u") [b]
             (probe 1%nat b (probe 0%nat a (Health.register (bs "u") [a; b] Health.new))) in
  let r := upstream_status h 0 (bs "u") (u [b]) in
  us_peers r = 1%nat ∧ us_healthy r = 1%nat ∧ us_active_healthy r = 2%nat.
Proof. by vm_compute. Qed.
