(* ===== verification/Listeners.v ===== *)
(** Listeners and shutdown ([openrusty-server/src/listeners.rs], [sd_listen.rs],
    [shutdown.rs], the routers of [app.rs]): which router each socket serves,
    sockets inherited from a service manager, and the drain sequence. *)

From S2P Require Import Prelude Text Numbers Net Config Certs Admin.
From Stdlib Require Import ZArith Lia.
From stdpp Require Import options.
Local Open Scope Z_scope.

(** * Routers and mounts *)

(** [admin_router], [data_router], [router]. *)
Inductive RouterKind := AdminRouter | DataRouter | CombinedRouter.

Record Mount := {
  mt_listener : ListenerConfig;
  mt_router : RouterKind;
  mt_tls : option TlsSources;
}.

Definition router_of (has_admin : bool) (l : ListenerConfig) : RouterKind :=
  match ls_role l with
  | Admin => AdminRouter
  | Inbound | Outbound => if has_admin then DataRouter else CombinedRouter
  end.

(** [resolver] is whether the state holds a certificate resolver. *)
Definition mounts (resolver ingress_enabled : bool) (listeners : list ListenerConfig) : list Mount :=
  let has_admin := existsb (λ l, bool_decide (ls_role l = Admin)) listeners in
  map (λ l, {|
    mt_listener := l;
    mt_router := router_of has_admin l;
    mt_tls := if resolver && uses_tls l then Some (classify_sources l ingress_enabled) else None |}) listeners.

Definition uses_transparent (l : ListenerConfig) : bool :=
  ls_transparent l && negb (bool_decide (ls_role l = Admin)).

Definition own_ports (listeners : list ListenerConfig) : list Z :=
  dedup (sort_by Z.leb (map (λ l, port (ls_listen l)) listeners)).

(** Where a socket's router sends a request.  [captured] and [executed] are the
    names its path patterns capture ([/openrusty/dynamic/{name}] and
    [/api/v1/dynamic/{name}]). *)
Inductive Target :=
| ToAdmin (e : Endpoint)
| ToExecution (name : bytes)
| ToFallback
| MethodNotAllowed
| NotFoundHere.

Section routers.
Context (captured executed : bytes → option bytes).

Definition admin_paths : list bytes :=
  [bs "/openrusty/status"; bs "/openrusty/reload"; bs "/openrusty/metrics"; bs "/openrusty/ready";
   bs "/openrusty/live"; bs "/openrusty/shutdown"].

Definition admin_path (dynamic : bool) (path : bytes) : bool :=
  bool_decide (path ∈ admin_paths) ||
  (dynamic && (bool_decide (path = bs "/openrusty/dynamic") || is_some (captured path))).

(** A matched path with another method is the router's own 405. *)
Definition admin_target (dynamic : bool) (method path : bytes) : option Target :=
  if admin_path dynamic path then
    Some (match admin_routes captured dynamic method path with
          | Some e => ToAdmin e
          | None => MethodNotAllowed
          end)
  else None.

(** [with_dynamic_routes]. *)
Definition execution_target (dynamic : bool) (method path : bytes) : option Target :=
  if dynamic then
    name ← executed path;
    Some (if bool_decide (method = bs "POST") then ToExecution name else MethodNotAllowed)
  else None.

(** [dynamic] is whether the section was enabled when the router was built. *)
Definition route_request (kind : RouterKind) (dynamic : bool) (method path : bytes) : Target :=
  match kind with
  | AdminRouter => default NotFoundHere (admin_target dynamic method path)
  | DataRouter => default ToFallback (execution_target dynamic method path)
  | CombinedRouter =>
      match admin_target dynamic method path with
      | Some t => t
      | None => default ToFallback (execution_target dynamic method path)
      end
  end.

Definition is_admin_target (t : Target) : bool := match t with ToAdmin _ => true | _ => false end.
Definition is_data_target (t : Target) : bool :=
  match t with ToExecution _ | ToFallback => true | _ => false end.

Lemma mounts_lookup resolver ing ls i m :
  mounts resolver ing ls !! i = Some m →
  ls !! i = Some (mt_listener m) ∧
  mt_router m = router_of (existsb (λ l, bool_decide (ls_role l = Admin)) ls) (mt_listener m) ∧
  mt_tls m = if resolver && uses_tls (mt_listener m)
             then Some (classify_sources (mt_listener m) ing) else None.
Proof using Type.
  unfold mounts. rewrite list_lookup_fmap. destruct (ls !! i); [|done]. by intros [= <-].
Qed.

Lemma uses_tls_spec l : uses_tls l = true ↔ ls_tls l = true ∧ ls_role l ≠ Outbound.
Proof using Type. unfold uses_tls. by rewrite andb_true_iff, negb_true_iff, bool_decide_eq_false. Qed.

Lemma execution_not_admin dynamic method path t :
  execution_target dynamic method path = Some t → is_admin_target t = false.
Proof using Type.
  unfold execution_target. destruct dynamic; [|done]. intros (name & _ & [= <-])%bind_Some.
  by case_bool_decide.
Qed.

(** C27. The planes are mounted apart.  With a dedicated admin listener, no
    request on any other socket reaches a management endpoint, and none on the
    admin socket reaches the proxy or a dynamic module; without one, every
    data-plane socket serves the management endpoints.  A socket terminates TLS
    only when its role and configuration say so, and is an intercepting one exactly
    when it is a data-plane socket configured as transparent. *)
Theorem planes_mounted_apart (resolver ing dynamic : bool) (ls : list ListenerConfig) (i : nat) (m : Mount)
    (method path : bytes) :
  mounts resolver ing ls !! i = Some m →
  let t := route_request (mt_router m) dynamic method path in
  let role := ls_role (mt_listener m) in
  (role = Admin → is_data_target t = false) ∧
  (role ≠ Admin → (∃ l, l ∈ ls ∧ ls_role l = Admin) → is_admin_target t = false) ∧
  (role = Admin ∨ (¬ ∃ l, l ∈ ls ∧ ls_role l = Admin) →
    ∀ e, admin_path dynamic path = true → admin_routes captured dynamic method path = Some e → t = ToAdmin e) ∧
  (is_Some (mt_tls m) ↔ resolver = true ∧ ls_tls (mt_listener m) = true ∧ role ≠ Outbound) ∧
  (uses_transparent (mt_listener m) = true ↔ ls_transparent (mt_listener m) = true ∧ role ≠ Admin).
Proof using Type.
  intros Hm t role. apply mounts_lookup in Hm as (Hl & Hr & Htls).
  assert (existsb (λ l, bool_decide (ls_role l = Admin)) ls = true ↔ ∃ l, l ∈ ls ∧ ls_role l = Admin) as Hadm.
  { rewrite existsb_exists. split; intros (l & Hin & Hb); exists l; (split; [by apply list_elem_of_In|]).
    - by apply bool_decide_eq_true in Hb.
    - by apply bool_decide_eq_true. }
  unfold t. rewrite Hr. clear t Hr. unfold role, router_of. clear role. split_and!.
  - intros ->. cbn [route_request]. unfold admin_target.
    destruct (admin_path _ _), (admin_routes captured dynamic method path); done.
  - intros Hrole He. rewrite (proj2 Hadm He).
    assert (route_request DataRouter dynamic method path = default ToFallback (execution_target dynamic method path))
      as Hd by done.
    destruct (ls_role (mt_listener m)); try done; rewrite Hd;
      (destruct (execution_target dynamic method path) as [t|] eqn:E; [apply (execution_not_admin _ _ _ _ E)|done]).
  - intros Hor e Hp He. assert (admin_target dynamic method path = Some (ToAdmin e)) as Ht.
    { unfold admin_target. by rewrite Hp, He. }
    destruct (ls_role (mt_listener m)) eqn:Erole; [| |by cbn [route_request]; rewrite Ht].
    all: destruct Hor as [?|Hno]; [done|].
    all: destruct (existsb _ ls); [destruct Hno; by apply Hadm|by cbn [route_request]; rewrite Ht].
  - rewrite Htls, <-(uses_tls_spec (mt_listener m)).
    destruct resolver, (uses_tls _); simpl; (split; [by intros [? ?]|intros [? ?]; try done; by eexists]).
  - unfold uses_transparent. by rewrite andb_true_iff, negb_true_iff, bool_decide_eq_false.
Qed.

End routers.

Definition ex_listener (role : ListenerRole) (p : Z) : ListenerConfig := {|
  ls_role := role; ls_listen := SockV4 2130706433 p; ls_http1_only := false; ls_transparent := false;
  ls_detect_timeout_ms := 1000; ls_tls := false; ls_tls_cert := None; ls_tls_key := None |}.

Definition ex_listeners : list ListenerConfig := [ex_listener Admin 9000; ex_listener Inbound 8080].

(** [GET /openrusty/status] on the data-plane socket beside an admin socket. *)
Lemma planes_mounted_apart_witness :
  ∃ m, mounts false false ex_listeners !! 1%nat = Some m ∧
    is_admin_target (route_request (λ _, None) (λ _, None) (mt_router m) false (bs "GET") (bs "/openrusty/status")) = false.
Proof.
  eexists. split; [reflexivity|].
  apply (planes_mounted_apart (λ _, None) (λ _, None) false false false ex_listeners 1 _
    (bs "GET") (bs "/openrusty/status") eq_refl); [discriminate|].
  exists (ex_listener Admin 9000). split; [apply list_elem_of_here|reflexivity].
Defined.

(** * Socket activation *)

Record Activation := { act_fds : Z; act_names : list (option bytes) }.

Definition fd_name (n : bytes) : option bytes := if bool_decide (n = []) then None else Some n.

(** [capacity] is the longest name list the process can hold: [names.resize]
    panics beyond it. *)
Definition parse_activation (capacity : Z) (vars : bytes → option bytes) (pid : Z) : exec (option Activation) :=
  match v ← vars (bs "LISTEN_FDS"); parse_uint 64 (trim v) with
  | None => Ret None
  | Some fds =>
      if fds =? 0 then Ret None
      else
        let listen_pid := v ← vars (bs "LISTEN_PID"); parse_uint 32 (trim v) in
        if negb (bool_decide (listen_pid = Some pid)) then Ret None
        else
          let names := match vars (bs "LISTEN_FDNAMES") with
                       | Some raw => map fd_name (split_on x3a raw)
                       | None => []
                       end in
          if capacity <? fds then Panic
          else Ret (Some {| act_fds := fds; act_names := resize (Z.to_nat fds) None names |})
  end.

(** The first unused index whose port is [p]. *)
Fixpoint find_free (i : nat) (used : list bool) (ports : list Z) (p : Z) : option nat :=
  match used, ports with
  | u :: used, q :: ports => if negb u && (q =? p) then Some i else find_free (S i) used ports p
  | _, _ => None
  end.

Fixpoint match_loop (inherited : list Z) (expected : list SocketAddr) (used : list bool) (order : list nat)
    : option (list nat * list bool) :=
  match expected with
  | [] => Some (order, used)
  | addr :: expected =>
      match find_free 0 used inherited (port addr) with
      | Some i => match_loop inherited expected (<[i := true]> used) (order ++ [i])
      | None => None
      end
  end.

Definition received_fd (names : list (option bytes)) (i : nat) (p : Z) : bytes :=
  match mjoin (names !! i) with
  | Some name => bs "fd" ++ fmt_dec (3 + Z.of_nat i) ++ bs "(" ++ name ++ bs ")=" ++ fmt_dec p
  | None => bs "fd" ++ fmt_dec (3 + Z.of_nat i) ++ bs "=" ++ fmt_dec p
  end.

Definition mismatch_message (inherited : list Z) (names : list (option bytes)) (expected : list SocketAddr) : bytes :=
  bs "socket activation mismatch: expected [" ++ join (bs ", ") (map addr_to_string expected) ++
  bs "], received [" ++ join (bs ", ") (imap (received_fd names) inherited) ++ bs "]".

Definition match_ports (inherited : list Z) (names : list (option bytes)) (expected : list SocketAddr)
    : result bytes (list nat) :=
  match match_loop inherited expected (replicate (length inherited) false) [] with
  | None => Err (mismatch_message inherited names expected)
  | Some (order, used) =>
      if existsb negb used then Err (mismatch_message inherited names expected) else Ok order
  end.

Inductive ListenError :=
| NotTcpListener (fd : Z)
| PortMismatch (msg : bytes)
| SocketError (fd : Z)
| BindError (addr : SocketAddr)
| TlsError (e : BootError).

Section adopt.
(** What the kernel and the runtime answer about a socket. *)
Context (local_port : Z → option Z) (register : Z → bool).

Fixpoint local_ports (fds : list Z) : result ListenError (list Z) :=
  match fds with
  | [] => Ok []
  | fd :: fds =>
      p ← ok_or (local_port fd) (NotTcpListener fd);
      ps ← local_ports fds;
      Ok (p :: ps)
  end.

(** [sockets[i].take().expect(..)] in the order of the configuration. *)
Fixpoint hand_over (sockets : list (option Z)) (order : list nat) (done : list Z)
    : exec (result ListenError (list Z)) :=
  match order with
  | [] => Ret (Ok done)
  | i :: order =>
      s ← index sockets i;
      match s with
      | None => Panic
      | Some fd =>
          if register fd then hand_over (<[i := None]> sockets) order (done ++ [fd])
          else Ret (Err (SocketError fd))
      end
  end.

Definition adopt_fds (fds : list Z) (names : list (option bytes)) (expected : list SocketAddr)
    : exec (result ListenError (list Z)) :=
  match local_ports fds with
  | Err e => Ret (Err e)
  | Ok ports =>
      match match_ports ports names expected with
      | Err msg => Ret (Err (PortMismatch msg))
      | Ok order => hand_over (map Some fds) order []
      end
  end.

(** The range [3..3 + fds as i32]; the count is truncated to a descriptor. *)
Definition fd_range (fds : Z) : list Z :=
  let last := to_signed 32 (3 + to_signed 32 fds) in
  seqZ 3 (last - 3).

Definition adopt (capacity : Z) (vars : bytes → option bytes) (pid : Z) (expected : list SocketAddr)
    : exec (result ListenError (option (list Z))) :=
  a ← parse_activation capacity vars pid;
  match a with
  | None => Ret (Ok None)
  | Some a =>
      r ← adopt_fds (fd_range (act_fds a)) (act_names a) expected;
      Ret (fds ← r; Ok (Some fds))
  end.

End adopt.

(** The ports of the sockets no listener has claimed yet. *)
Fixpoint free_ports (used : list bool) (ports : list Z) : list Z :=
  match used, ports with
  | u :: used, q :: ports => if u then free_ports used ports else q :: free_ports used ports
  | _, _ => []
  end.

Lemma find_free_shift used ports p i k :
  find_free k used ports p = Some i → ∃ j, i = (k + j)%nat ∧ used !! j = Some false ∧ ports !! j = Some p ∧
    free_ports used ports ≡ₚ p :: free_ports (<[j := true]> used) ports.
Proof.
  revert ports k. induction used as [|u used IH]; intros [|q ports] k; try done. cbn [find_free].
  destruct (negb u && (q =? p)) eqn:E.
  - intros [= <-]. apply andb_true_iff in E as [Hu ->%Z.eqb_eq]. destruct u; [done|].
    exists 0%nat. split_and!; [lia|done|done|done].
  - intros (j & -> & Hu & Hp & Hf)%IH. exists (S j). split_and!; [lia|done|done|].
    cbn. destruct u; [done|]. rewrite Hf. apply Permutation_swap.
Qed.

Lemma find_free_none used ports p k : find_free k used ports p = None → p ∉ free_ports used ports.
Proof.
  revert ports k. induction used as [|u used IH]; intros [|q ports] k; cbn [find_free free_ports];
    try (intros _; apply not_elem_of_nil).
  destruct (negb u && (q =? p)) eqn:E; [done|]. intros H%IH. destruct u; [done|].
  apply andb_false_iff in E as [?|E%Z.eqb_neq]; [done|]. by apply not_elem_of_cons.
Qed.

Lemma match_loop_acc inh es used order : match_loop inh es used order =
  (λ r, (order ++ r.1, r.2)) <$> match_loop inh es used [].
Proof.
  revert used order. induction es as [|a es IH]; intros used order; simpl; [by rewrite app_nil_r|].
  destruct (find_free _ _ _ _) as [i|]; [|done]. rewrite (IH _ (order ++ [i])), (IH _ [i]).
  destruct (match_loop _ _ _ []); [|done]. simpl. by rewrite <-app_assoc.
Qed.

Lemma match_loop_step inh a es used :
  match_loop inh (a :: es) used [] =
  (i ← find_free 0 used inh (port a);
   (λ r, (i :: r.1, r.2)) <$> match_loop inh es (<[i := true]> used) []).
Proof. simpl. destruct (find_free _ _ _ _) as [i|]; [|done]. simpl. apply match_loop_acc. Qed.

Lemma match_loop_some inh es used order used' :
  match_loop inh es used [] = Some (order, used') →
  free_ports used inh ≡ₚ map port es ++ free_ports used' inh ∧
  length used' = length used ∧ NoDup order ∧
  Forall (λ i, used !! i = Some false) order ∧
  Forall2 (λ i a, inh !! i = Some (port a)) order es.
Proof.
  revert used order. induction es as [|a es IH]; intros used order.
  { simpl. intros [= <- <-]. split_and!; [done|done|constructor..]. }
  rewrite match_loop_step. intros (i & Hi & ([r u] & Hr & [= -> ->])%fmap_Some)%bind_Some.
  apply find_free_shift in Hi as (j & -> & Hj & Hp & Hf). simpl in Hr |- *.
  apply IH in Hr as (Hf' & Hl & Hnd & Hall & H2). rewrite length_insert in Hl.
  assert (Forall (λ i, used !! i = Some false ∧ i ≠ j) r) as Hboth.
  { eapply Forall_impl; [exact Hall|]. intros i Hi. simpl in Hi.
    destruct (decide (i = j)) as [->|Hne]; [|by rewrite list_lookup_insert_ne in Hi].
    rewrite list_lookup_insert_eq in Hi; [done|by apply lookup_lt_Some in Hj]. }
  split_and!; [by rewrite Hf, Hf'|done| | |by constructor].
  - constructor; [|done]. intros Hin. rewrite Forall_forall in Hboth. by destruct (Hboth _ Hin).
  - constructor; [done|]. eapply Forall_impl; [exact Hboth|]. by intros i [? ?].
Qed.

Lemma match_loop_complete inh es used rest :
  free_ports used inh ≡ₚ map port es ++ rest → is_Some (match_loop inh es used []).
Proof.
  revert used. induction es as [|a es IH]; intros used Hp; [by eexists|]. rewrite match_loop_step.
  destruct (find_free 0 used inh (port a)) as [i|] eqn:Hi.
  - apply find_free_shift in Hi as (j & -> & _ & _ & Hf). simpl in *.
    rewrite Hf in Hp. apply Permutation_cons_inv, IH in Hp. by apply fmap_is_Some.
  - apply find_free_none in Hi. destruct Hi. rewrite Hp. simpl. by left.
Qed.

Lemma free_ports_fresh ports : free_ports (replicate (length ports) false) ports = ports.
Proof. induction ports; simpl; [done|by f_equal]. Qed.

Lemma free_ports_nil used ports : length used = length ports →
  free_ports used ports = [] ↔ existsb negb used = false.
Proof.
  revert ports. induction used as [|u used IH]; intros [|q ports]; try done. intros [= Hl]. simpl.
  destruct u; simpl; [by apply IH|done].
Qed.

(** The inherited sockets fit the configuration exactly when both list the same
    ports as often; then the order is a permutation of the sockets that gives each
    listener one of its port. *)
Lemma match_ports_exact (inherited : list Z) (names : list (option bytes)) (expected : list SocketAddr) :
  match match_ports inherited names expected with
  | Ok order => inherited ≡ₚ map port expected ∧ order ≡ₚ seq 0 (length inherited) ∧
      Forall2 (λ i a, inherited !! i = Some (port a)) order expected
  | Err msg => ¬ inherited ≡ₚ map port expected ∧ msg = mismatch_message inherited names expected
  end.
Proof.
  unfold match_ports. destruct (match_loop _ _ _ _) as [[order used]|] eqn:E.
  - apply match_loop_some in E as (Hf & Hl & Hnd & Hall & H2).
    rewrite free_ports_fresh in Hf. rewrite length_replicate in Hl.
    pose proof (free_ports_nil used inherited Hl) as Hnil.
    destruct (existsb negb used).
    + split; [|done]. intros Hp. rewrite Hf in Hp. rewrite <-(app_nil_r (map port expected)) in Hp at 2.
      by apply Permutation_app_inv_l, Permutation_sym, Permutation_nil, Hnil in Hp.
    + rewrite (proj2 Hnil eq_refl), app_nil_r in Hf. split_and!; [done| |done].
      apply submseteq_length_Permutation.
      * apply NoDup_submseteq; [done|]. intros i Hi. rewrite Forall_forall in Hall.
        apply Hall, lookup_lt_Some in Hi. rewrite length_replicate in Hi. apply elem_of_seq. lia.
      * rewrite length_seq, (Forall2_length _ _ _ H2), Hf. by rewrite length_map.
  - split; [|done]. intros Hp. destruct (match_loop_complete inherited expected (replicate (length inherited) false) []);
      [by rewrite free_ports_fresh, app_nil_r|congruence].
Qed.

Lemma local_ports_ok local_port fds ports :
  local_ports local_port fds = Ok ports → Forall2 (λ fd p, local_port fd = Some p) fds ports.
Proof.
  revert ports. induction fds as [|fd fds IH]; intros ports; simpl; [by intros [= <-]|].
  intros (p & Hp & (ps & Hps & [= <-])%bind_ok)%bind_ok. unfold ok_or in Hp.
  destruct (local_port fd) eqn:E; [|done]. injection Hp as [= ->]. constructor; [done|by apply IH].
Qed.

Lemma local_ports_err local_port fds e :
  local_ports local_port fds = Err e → ∃ fd, e = NotTcpListener fd ∧ fd ∈ fds ∧ local_port fd = None.
Proof.
  induction fds as [|fd fds IH]; simpl; [done|]. unfold ok_or.
  destruct (local_port fd) as [p|] eqn:E; simpl.
  - destruct (local_ports local_port fds) as [ps|e']; simpl; [done|]. intros [= <-].
    destruct (IH eq_refl) as (x & -> & ? & ?). exists x. split_and!; [done|by apply list_elem_of_further|done].
  - intros [= <-]. exists fd. split_and!; [done|apply list_elem_of_here|done].
Qed.

Lemma hand_over_exact register sockets order done :
  NoDup order → Forall (λ i, ∃ fd, sockets !! i = Some (Some fd)) order →
  ∃ r, hand_over register sockets order done = Ret r ∧
    match r with
    | Ok fds => ∃ l, fds = done ++ l ∧ Forall2 (λ i fd, sockets !! i = Some (Some fd) ∧ register fd = true) order l
    | Err e => ∃ fd, e = SocketError fd ∧ register fd = false
    end.
Proof.
  revert sockets done. induction order as [|i order IH]; intros sockets done Hnd Hall; simpl.
  { exists (Ok done). split; [done|]. exists []. by rewrite app_nil_r. }
  inversion Hnd as [|? ? Hi Hnd']; subst. inversion Hall as [|? ? [fd Hfd] Hall']; subst.
  unfold index. rewrite Hfd. simpl. destruct (register fd) eqn:Hr; [|by eexists; split; [done|]; exists fd].
  assert (∀ j : nat, j ∈ order → <[i := None]> sockets !! j = sockets !! j) as Hsame.
  { intros j Hj. apply list_lookup_insert_ne. by intros ->. }
  destruct (IH (<[i := None]> sockets) (done ++ [fd]) Hnd') as (r & -> & H).
  { rewrite Forall_forall in Hall' |- *. intros j Hj. destruct (Hall' j Hj) as [x Hx]. exists x. by rewrite Hsame. }
  exists r. split; [by destruct r|]. destruct r as [fds|e]; [|done].
  destruct H as (l & -> & H2). exists (fd :: l). split; [by rewrite <-app_assoc|]. constructor; [done|].
  apply Forall2_same_length_lookup in H2 as [Hl H2]. apply Forall2_same_length_lookup. split; [done|].
  intros k j x Hj Hx. rewrite <-(Hsame j) by (by eapply list_elem_of_lookup_2). by apply (H2 k).
Qed.

(** Adoption never trips over its own permutation: it claims one registered socket
    of the right port per listener, or reports why it cannot. *)
Lemma adopt_fds_exact (local_port : Z → option Z) (register : Z → bool) (fds : list Z)
    (names : list (option bytes)) (expected : list SocketAddr) :
  ∃ r, adopt_fds local_port register fds names expected = Ret r ∧
    match r with
    | Ok claimed => claimed ≡ₚ fds ∧
        Forall2 (λ fd a, local_port fd = Some (port a) ∧ register fd = true) claimed expected
    | Err (NotTcpListener fd) => fd ∈ fds ∧ local_port fd = None
    | Err (PortMismatch msg) => ∃ ports, Forall2 (λ fd p, local_port fd = Some p) fds ports ∧
        ¬ ports ≡ₚ map port expected ∧ msg = mismatch_message ports names expected
    | Err (SocketError fd) => register fd = false
    | Err _ => False
    end.
Proof.
  unfold adopt_fds. destruct (local_ports local_port fds) as [ports|e] eqn:Hp.
  - pose proof (match_ports_exact ports names expected) as Hm. apply local_ports_ok in Hp.
    destruct (match_ports ports names expected) as [order|msg].
    + destruct Hm as (Hperm & Hord & H2).
      assert (length ports = length fds) as Hlen by (symmetry; by eapply Forall2_length).
      destruct (hand_over_exact register (map Some fds) order []) as (r & -> & Hr).
      { rewrite Hord. apply NoDup_seq. }
      { apply Forall_forall. intros i Hi. rewrite Hord, elem_of_seq, Hlen in Hi.
        destruct (lookup_lt_is_Some_2 fds i) as [fd Hfd]; [lia|]. exists fd. by rewrite list_lookup_fmap, Hfd. }
      exists r. split; [done|]. destruct r as [claimed|e]; [|destruct Hr as (fd & -> & Hr); done].
      destruct Hr as (l & -> & Hl). simpl in *.
      assert (Forall2 (λ i fd, fds !! i = Some fd ∧ register fd = true) order l) as Hl'.
      { eapply Forall2_impl; [exact Hl|]. intros i fd [Hi ?]. rewrite list_lookup_fmap in Hi.
        apply fmap_Some in Hi as (? & ? & [= ->]). done. }
      split.
      * destruct (Permutation_Forall2 Hord Hl') as (l' & -> & H'). replace l' with fds; [done|]. apply list_eq. intros i.
        apply Forall2_same_length_lookup in H' as [L' H']. rewrite length_seq, Hlen in L'.
        destruct (decide (i < length fds)%nat) as [Hi|Hi]; [|by rewrite !lookup_ge_None_2 by lia].
        destruct (lookup_lt_is_Some_2 l' i) as [x Hx]; [lia|]. rewrite Hx.
        destruct (H' i i x) as [-> _]; [by rewrite lookup_seq_lt by lia|done..].
      * apply Forall2_same_length_lookup in Hl' as [L1 Hl'], H2 as [L2 H2], Hp as [_ Hp].
        apply Forall2_same_length_lookup. split; [congruence|]. intros k fd a Hfd Ha.
        destruct (lookup_lt_is_Some_2 order k) as [i Hi]; [rewrite L2; by eapply lookup_lt_Some|].
        destruct (Hl' k i fd Hi Hfd) as [Hx Hr]. split; [|done]. by apply (Hp i), (H2 k).
    + exists (Err (PortMismatch msg)). split; [done|]. destruct Hm as [? ->]. by exists ports.
  - exists (Err e). split; [done|]. apply local_ports_err in Hp as (fd & -> & ? & ?). done.
Qed.

(** * Spawning *)

(** What an accept task runs on its socket. *)
Inductive AcceptLoop :=
| TlsLoop (alpn : list bytes)
| TransparentLoop (ports : list Z)
| PlainLoop (http1_only : bool).

Record AcceptTask := { at_router : RouterKind; at_fd : Z; at_loop : AcceptLoop }.

Definition accept_loop (ports : list Z) (m : Mount) (tls_cfg : option (list bytes)) : AcceptLoop :=
  match tls_cfg with
  | Some alpn => TlsLoop alpn
  | None => if uses_transparent (mt_listener m) then TransparentLoop ports else PlainLoop (ls_http1_only (mt_listener m))
  end.

Definition accept_task (ports : list Z) (b : Mount * Z * option (list bytes)) : AcceptTask :=
  {| at_router := mt_router b.1.1; at_fd := b.1.2; at_loop := accept_loop ports b.1.1 b.2 |}.

Section spawn.
Context {Cert Key : Type} (pem_certs : bytes → option (list Cert)) (pem_key : bytes → option (option bytes)).
Context (signing_key : bytes → option Key) (read_file : bytes → option bytes).
Context (bind : SocketAddr → option Z).

Definition boot_mount (m : Mount) (r : @Resolver Cert Key)
    : result ListenError (option (list bytes) * @Resolver Cert Key) :=
  match mt_tls m with
  | None => Ok (None, r)
  | Some sources =>
      match boot_listener pem_certs pem_key signing_key read_file sources (ls_http1_only (mt_listener m)) r with
      | Ok (r, alpn) => Ok (Some alpn, r)
      | Err e => Err (TlsError e)
      end
  end.

(** The first loop of [spawn]: inherit the next socket or bind, then boot TLS. *)
Fixpoint acquire (queue : list Z) (ms : list Mount) (r : @Resolver Cert Key)
    : result ListenError (list (Mount * Z * option (list bytes)) * @Resolver Cert Key) :=
  match ms with
  | [] => Ok ([], r)
  | m :: ms =>
      fd ← match queue with
           | fd :: _ => Ok fd
           | [] => let addr := ls_listen (mt_listener m) in ok_or (bind addr) (BindError addr)
           end;
      '(alpn, r) ← boot_mount m r;
      '(rest, r) ← acquire (tail queue) ms r;
      Ok ((m, fd, alpn) :: rest, r)
  end.

Definition spawn (adopted : exec (result ListenError (option (list Z)))) (ms : list Mount)
    (r : @Resolver Cert Key) : exec (result ListenError (list AcceptTask * @Resolver Cert Key)) :=
  a ← adopted;
  Ret (inherited ← a;
       '(bound, r) ← acquire (default [] inherited) ms r;
       Ok (map (accept_task (own_ports (map mt_listener ms))) bound, r)).

Lemma acquire_exact queue ms r bound r' :
  acquire queue ms r = Ok (bound, r') →
  map (fst ∘ fst) bound = ms ∧
  (queue = [] → Forall (λ b, bind (ls_listen (mt_listener b.1.1)) = Some b.1.2) bound) ∧
  (length queue = length ms → map (snd ∘ fst) bound = queue) ∧
  Forall (λ b, is_Some b.2 ↔ is_Some (mt_tls b.1.1)) bound.
Proof using Type.
  revert queue r bound r'. induction ms as [|m ms IH]; intros queue r bound r'; cbn [acquire].
  { intros [= <- _]. split_and!; [done|constructor|by destruct queue|constructor]. }
  intros (fd & Hfd & ([alpn r1] & Hb & ([rest r2] & Ha & [= <- <-])%bind_ok)%bind_ok)%bind_ok.
  apply IH in Ha as (Hm & Hbind & Hq & Htls). split_and!.
  - simpl. by rewrite Hm.
  - intros ->. constructor; [|by apply Hbind]. simpl in *. unfold ok_or in Hfd.
    destruct (bind _); [by injection Hfd as [= ->]|done].
  - destruct queue as [|q queue]; [done|]. injection Hfd as [= ->]. intros [= Hl]. simpl. by rewrite Hq.
  - constructor; [|done]. simpl. unfold boot_mount in Hb. destruct (mt_tls m); [|by injection Hb as [= <- _]].
    destruct (boot_listener _ _ _ _ _ _ _) as [[? ?]|]; [|done]. by injection Hb as [= <- _].
Qed.

(** A started gateway has one accept task per listener, in order, serving that
    listener's router on its own socket: the adopted ones when activated, freshly
    bound ones otherwise. *)
Lemma spawn_exact inherited ms r tasks r' :
  spawn (Ret (Ok inherited)) ms r = Ret (Ok (tasks, r')) →
  (∀ fds, inherited = Some fds → length fds = length ms) →
  map at_router tasks = map mt_router ms ∧
  match inherited with
  | Some fds => map at_fd tasks = fds
  | None => Forall2 (λ t m, bind (ls_listen (mt_listener m)) = Some (at_fd t)) tasks ms
  end ∧
  Forall2 (λ t m, match at_loop t with
                  | TlsLoop _ => is_Some (mt_tls m)
                  | TransparentLoop ports => mt_tls m = None ∧ uses_transparent (mt_listener m) = true ∧
                      ports = own_ports (map mt_listener ms)
                  | PlainLoop h1 => mt_tls m = None ∧ uses_transparent (mt_listener m) = false ∧
                      h1 = ls_http1_only (mt_listener m)
                  end) tasks ms.
Proof using Type.
  unfold spawn. cbn [mbind exec_mbind result_mbind]. intros H Hlen. injection H as H.
  apply bind_ok in H as ([bound r1] & Ha & [= <- <-]).
  apply acquire_exact in Ha as (Hm & Hbind & Hq & Htls). split_and!.
  - rewrite map_map, <-Hm at 1. by rewrite map_map.
  - destruct inherited as [fds|]; [rewrite map_map; by apply (Hq (Hlen _ eq_refl))|].
    specialize (Hbind eq_refl). generalize (own_ports (map mt_listener ms)). intros ports.
    clear -Hbind Hm. revert ms Hm.
    induction Hbind as [|b bound Hb _ IH]; intros ms <-; [constructor|]. constructor; [done|by apply IH].
  - generalize (own_ports (map mt_listener ms)). intros ports. clear -Htls Hm. revert ms Hm.
    induction Htls as [|[[m fd] alpn] bound Hb _ IH]; intros ms <-; [constructor|]. constructor; [|by apply IH].
    simpl in *. unfold accept_loop. destruct alpn; simpl; [by apply Hb; eexists|].
    assert (mt_tls m = None) as Hn.
    { destruct (mt_tls m); [|done]. by destruct (proj2 Hb). }
    by destruct (uses_transparent (mt_listener m)) eqn:E.
Qed.
End spawn.

(** * Shutdown *)

Record ShutdownReport := {
  sr_drained : Z;
  sr_forced : Z;
  sr_timed_out : bool;
  sr_task_errors : Z;
}.

(** What the waiting task observes: the accept task it awaits ended, a sample of
    the in-flight counter, the end of the grace. *)
Inductive DrainEvent :=
| TaskEnded (settled : bool)
| Sampled (in_flight : Z)
| GraceExpired.

Definition count_settle (settled : bool) (errors : Z) : Z := if settled then errors else errors + 1.

(** Phase 2 of [run]: the tasks in turn, then [until_drained]; whether it timed
    out and the failed tasks, or [None] while it still waits. *)
Fixpoint drain_wait (tasks : nat) (errors : Z) (evs : list DrainEvent) : option (bool * Z) :=
  match evs with
  | [] => None
  | GraceExpired :: _ => Some (true, errors)
  | TaskEnded settled :: evs =>
      match tasks with
      | S tasks => drain_wait tasks (count_settle settled errors) evs
      | O => drain_wait tasks errors evs
      end
  | Sampled c :: evs =>
      if bool_decide (tasks = 0%nat) && (c =? 0) then Some (false, errors) else drain_wait tasks errors evs
  end.

Definition run (tasks : nat) (at_signal remaining : Z) (evs : list DrainEvent) : option ShutdownReport :=
  '(timed_out, errors) ← drain_wait tasks 0 evs;
  Some {| sr_drained := sat_sub at_signal remaining;
          sr_forced := if timed_out : bool then remaining else 0;
          sr_timed_out := timed_out;
          sr_task_errors := errors |}.

Definition run_fast (tasks : list bool) (at_signal remaining : Z) : ShutdownReport :=
  {| sr_drained := sat_sub at_signal remaining;
     sr_forced := remaining;
     sr_timed_out := false;
     sr_task_errors := foldl (λ e t, count_settle t e) 0 tasks |}.

(** The end of [main]. *)
Definition exit_code (r : ShutdownReport) : Z := if 0 <? sr_task_errors r then 1 else 0.

(** The results of the accept tasks awaited before the wait ended. *)
Definition settled_of (evs : list DrainEvent) : list bool :=
  omap (λ e, match e with TaskEnded s => Some s | _ => None end) evs.

Fixpoint failures (l : list bool) : Z :=
  match l with [] => 0 | settled :: l => (if settled : bool then 0 else 1) + failures l end.

Lemma failures_spec l : 0 <= failures l ∧ (0 < failures l ↔ false ∈ l).
Proof.
  induction l as [|s l [IH1 IH2]]; cbn; [split; [done|]; by rewrite elem_of_nil|].
  rewrite elem_of_cons, <-IH2. destruct s; (split; [lia|]); split; try intros [?|?]; (done || lia || tauto).
Qed.

Lemma drain_wait_exact tasks errors evs timed_out n :
  drain_wait tasks errors evs = Some (timed_out, n) →
  ∃ before after, evs = before ++ (if timed_out then GraceExpired else Sampled 0) :: after ∧
    (GraceExpired ∉ before) ∧
    n = errors + failures (take tasks (settled_of before)) ∧
    (timed_out = false → (tasks <= length (settled_of before))%nat).
Proof.
  revert tasks errors. induction evs as [|e evs IH]; intros tasks errors; [done|]. cbn [drain_wait].
  destruct e as [s|c|].
  - intros H. assert (drain_wait (pred tasks) (match tasks with O => errors | _ => count_settle s errors end) evs =
      Some (timed_out, n)) as H' by (by destruct tasks). apply IH in H' as (b & a & -> & Hb & -> & Ht).
    exists (TaskEnded s :: b), a. split_and!; [done|by apply not_elem_of_cons| |].
    + destruct tasks as [|tasks]; [done|]. change (settled_of (TaskEnded s :: b)) with (s :: settled_of b).
      unfold count_settle. cbn [take failures pred]. destruct s; lia.
    + intros Hf. specialize (Ht Hf). change (settled_of (TaskEnded s :: b)) with (s :: settled_of b). destruct tasks; cbn [length pred] in *; lia.
  - destruct (bool_decide (tasks = 0%nat) && (c =? 0)) eqn:E.
    + intros [= <- <-]. apply andb_true_iff in E as [->%bool_decide_eq_true ->%Z.eqb_eq].
      exists [], evs. split_and!; [done|apply not_elem_of_nil|simpl; lia|done].
    + intros (b & a & -> & Hb & -> & Ht)%IH. exists (Sampled c :: b), a.
      split_and!; [done|by apply not_elem_of_cons|done|done].
  - intros [= <- <-]. exists [], evs. split_and!; [done|apply not_elem_of_nil|destruct tasks; simpl; lia|done].
Qed.

Lemma drain_wait_ends tasks errors evs : GraceExpired ∈ evs → is_Some (drain_wait tasks errors evs).
Proof.
  revert tasks errors. induction evs as [|e evs IH]; intros tasks errors; [by intros ?%elem_of_nil|].
  intros [<-|Hin]%elem_of_cons; [by eexists|]. cbn [drain_wait].
  destruct e as [s|c|]; [destruct tasks|case_match|]; by eauto.
Qed.

(** The drain ends by the grace at the latest.  It reports a clean end only after
    every accept task ended and a sample of zero connections before the grace, and
    forces nothing then; otherwise it forces whatever is left.  The exit code is 1
    exactly when an accept task it awaited failed. *)
Lemma shutdown_exact (tasks : nat) (at_signal remaining : Z) (evs : list DrainEvent) :
  (GraceExpired ∈ evs → is_Some (run tasks at_signal remaining evs)) ∧
  (∀ r, run tasks at_signal remaining evs = Some r →
    ∃ before after, (GraceExpired ∉ before) ∧
      evs = before ++ (if sr_timed_out r then GraceExpired else Sampled 0) :: after ∧
      (sr_timed_out r = false → (tasks <= length (settled_of before))%nat ∧ sr_forced r = 0) ∧
      (sr_timed_out r = true → sr_forced r = remaining) ∧
      sr_drained r = sat_sub at_signal remaining ∧
      (exit_code r = 1 ↔ false ∈ take tasks (settled_of before))).
Proof.
  unfold run. split.
  - intros H. destruct (drain_wait_ends tasks 0 evs H) as [[t n] ->]. by eexists.
  - intros r ([t n] & H & [= <-])%bind_Some. apply drain_wait_exact in H as (b & a & -> & Hb & -> & Ht).
    exists b, a. cbn [sr_timed_out sr_forced sr_drained]. split_and!; [done|done| |by intros ->|done|].
    + intros ->. by split; [apply Ht|].
    + unfold exit_code. cbn [sr_task_errors]. rewrite Z.add_0_l. destruct (failures_spec (take tasks (settled_of b))) as [_ <-].
      destruct (Z.ltb_spec 0 (failures (take tasks (settled_of b)))); lia.
Qed.
