(* ===== verification/Metrics.v ===== *)
(** The metrics collector and its text exposition
    ([openrusty-server/src/metrics.rs], [metrics_render.rs]): counters, cumulative
    histograms over [f64] observations, and the rendering scraped by Prometheus. *)

From S2P Require Import Prelude Text Numbers.
From Stdlib Require Import ZArith Lia.
From Stdlib Require Import SpecFloat.
From stdpp Require Import options.
Local Open Scope Z_scope.

(** * Doubles *)

(** [f64] is the standard library's executable model of binary64. *)
Definition F64 : Type := spec_float.
Definition f64_of_Z (z : Z) : F64 := binary_normalize 53 1024 z 0 false.
Definition f64_add : F64 → F64 → F64 := SFadd 53 1024.
Definition f64_div : F64 → F64 → F64 := SFdiv 53 1024.
Definition f64_le : F64 → F64 → bool := SFleb.
Definition f64_zero : F64 := S754_zero false.

(** [Duration::as_secs_f64]. *)
Definition as_secs_f64 (secs nanos : Z) : F64 :=
  f64_add (f64_of_Z secs) (f64_div (f64_of_Z nanos) (f64_of_Z 1000000000)).

(** A bucket boundary: a literal of the source, the double it denotes, and what
    [{}] prints for it. *)
Record Boundary := { bo_value : F64; bo_text : bytes }.

Definition boundary (num den : Z) (text : string) : Boundary :=
  {| bo_value := f64_div (f64_of_Z num) (f64_of_Z den); bo_text := bs text |}.

Definition DURATION_BUCKETS : list Boundary := [
  boundary 5 1000 "0.005"; boundary 1 100 "0.01"; boundary 25 1000 "0.025"; boundary 5 100 "0.05";
  boundary 1 10 "0.1"; boundary 25 100 "0.25"; boundary 5 10 "0.5"; boundary 1 1 "1"; boundary 25 10 "2.5";
  boundary 5 1 "5"; boundary 10 1 "10"; boundary 30 1 "30"; boundary 60 1 "60"; boundary 120 1 "120"].

Definition PHASE_BUCKETS : list Boundary := [
  boundary 25 1000000 "0.000025"; boundary 50 1000000 "0.00005"; boundary 100 1000000 "0.0001";
  boundary 250 1000000 "0.00025"; boundary 500 1000000 "0.0005"; boundary 1 1000 "0.001";
  boundary 25 10000 "0.0025"; boundary 5 1000 "0.005"; boundary 1 100 "0.01"; boundary 25 1000 "0.025";
  boundary 5 100 "0.05"; boundary 1 10 "0.1"; boundary 25 100 "0.25"; boundary 5 10 "0.5"; boundary 1 1 "1"].

(** * The collector *)

(** [PhaseHist]; the request histogram has the same three fields. *)
Record Hist := { hi_buckets : list Z; hi_count : Z; hi_sum : F64 }.

Definition hist_empty (bounds : list Boundary) : Hist :=
  {| hi_buckets := replicate (length bounds) 0; hi_count := 0; hi_sum := f64_zero |}.

(** The first boundary the value does not exceed. *)
Fixpoint bucket_index (bounds : list Boundary) (seconds : F64) : option nat :=
  match bounds with
  | [] => None
  | b :: bounds => if f64_le seconds (bo_value b) then Some 0%nat else S <$> bucket_index bounds seconds
  end.

Definition count_up (n : Z) : Z := wrap 64 (n + 1).

Definition observe (bounds : list Boundary) (seconds : F64) (h : Hist) : Hist := {|
  hi_buckets := match bucket_index bounds seconds with
                | Some i => take i (hi_buckets h) ++ map count_up (drop i (hi_buckets h))
                | None => hi_buckets h
                end;
  hi_count := count_up (hi_count h);
  hi_sum := f64_add (hi_sum h) seconds |}.

Record Metrics := {
  ms_requests : gmap (bytes * Z) Z;
  ms_attempts : gmap (bytes * bytes) Z;
  ms_plugin_errors : gmap (bytes * bytes) Z;
  ms_transparent : gmap (bytes * bytes) Z;
  ms_dynamic : gmap (bytes * Z) Z;
  ms_phases : gmap bytes Hist;
  ms_duration : Hist;
}.

Definition metrics_new : Metrics := {|
  ms_requests := ∅; ms_attempts := ∅; ms_plugin_errors := ∅; ms_transparent := ∅; ms_dynamic := ∅;
  ms_phases := ∅; ms_duration := hist_empty DURATION_BUCKETS |}.

(** The copy a scrape is rendered from. *)
Definition snapshot (s : Metrics) : Metrics := {|
  ms_requests := ms_requests s; ms_attempts := ms_attempts s; ms_plugin_errors := ms_plugin_errors s;
  ms_transparent := ms_transparent s; ms_dynamic := ms_dynamic s; ms_phases := ms_phases s;
  ms_duration := {| hi_buckets := hi_buckets (ms_duration s); hi_count := hi_count (ms_duration s);
                    hi_sum := hi_sum (ms_duration s) |} |}.

(** [*map.entry(k).or_insert(0) += 1]. *)
Definition bump `{Countable K} (k : K) (m : gmap K Z) : gmap K Z :=
  <[k := count_up (default 0 (m !! k))]> m.

Definition observe_phase (phase : bytes) (seconds : F64) (m : gmap bytes Hist) : gmap bytes Hist :=
  <[phase := observe PHASE_BUCKETS seconds (default (hist_empty PHASE_BUCKETS) (m !! phase))]> m.

Definition record_request (route : bytes) (code : Z) (s : Metrics) : Metrics := {|
  ms_requests := bump (route, code) (ms_requests s); ms_attempts := ms_attempts s;
  ms_plugin_errors := ms_plugin_errors s; ms_transparent := ms_transparent s; ms_dynamic := ms_dynamic s;
  ms_phases := ms_phases s; ms_duration := ms_duration s |}.

Definition record_duration (seconds : F64) (s : Metrics) : Metrics := {|
  ms_requests := ms_requests s; ms_attempts := ms_attempts s;
  ms_plugin_errors := ms_plugin_errors s; ms_transparent := ms_transparent s; ms_dynamic := ms_dynamic s;
  ms_phases := ms_phases s; ms_duration := observe DURATION_BUCKETS seconds (ms_duration s) |}.

Definition record_request_timed (route : bytes) (code : Z) (seconds : F64) (s : Metrics) : Metrics := {|
  ms_requests := bump (route, code) (ms_requests s); ms_attempts := ms_attempts s;
  ms_plugin_errors := ms_plugin_errors s; ms_transparent := ms_transparent s; ms_dynamic := ms_dynamic s;
  ms_phases := ms_phases s; ms_duration := observe DURATION_BUCKETS seconds (ms_duration s) |}.

Definition record_attempt (upstream result : bytes) (s : Metrics) : Metrics := {|
  ms_requests := ms_requests s; ms_attempts := bump (upstream, result) (ms_attempts s);
  ms_plugin_errors := ms_plugin_errors s; ms_transparent := ms_transparent s; ms_dynamic := ms_dynamic s;
  ms_phases := ms_phases s; ms_duration := ms_duration s |}.

Definition record_plugin_error (plugin kind : bytes) (s : Metrics) : Metrics := {|
  ms_requests := ms_requests s; ms_attempts := ms_attempts s;
  ms_plugin_errors := bump (plugin, kind) (ms_plugin_errors s); ms_transparent := ms_transparent s;
  ms_dynamic := ms_dynamic s; ms_phases := ms_phases s; ms_duration := ms_duration s |}.

Definition record_transparent (role outcome : bytes) (s : Metrics) : Metrics := {|
  ms_requests := ms_requests s; ms_attempts := ms_attempts s;
  ms_plugin_errors := ms_plugin_errors s; ms_transparent := bump (role, outcome) (ms_transparent s);
  ms_dynamic := ms_dynamic s; ms_phases := ms_phases s; ms_duration := ms_duration s |}.

Definition record_dynamic (module : bytes) (code : Z) (s : Metrics) : Metrics := {|
  ms_requests := ms_requests s; ms_attempts := ms_attempts s;
  ms_plugin_errors := ms_plugin_errors s; ms_transparent := ms_transparent s;
  ms_dynamic := bump (module, code) (ms_dynamic s); ms_phases := ms_phases s; ms_duration := ms_duration s |}.

Definition record_phase (phase : bytes) (seconds : F64) (s : Metrics) : Metrics := {|
  ms_requests := ms_requests s; ms_attempts := ms_attempts s;
  ms_plugin_errors := ms_plugin_errors s; ms_transparent := ms_transparent s; ms_dynamic := ms_dynamic s;
  ms_phases := observe_phase phase seconds (ms_phases s); ms_duration := ms_duration s |}.

(** The drained statistics of a session: phase, invocations, total time. *)
Definition record_phases (stats : list (bytes * Z * (Z * Z))) (s : Metrics) : Metrics :=
  foldl (λ s st, record_phase st.1.1 (as_secs_f64 st.2.1 st.2.2) s) s stats.

(** Everything the gateway reports; each call is one critical section. *)
Inductive Recorded :=
| RecRequest (route : bytes) (code : Z)
| RecDuration (seconds : F64)
| RecTimed (route : bytes) (code : Z) (seconds : F64)
| RecAttempt (upstream result : bytes)
| RecPluginError (plugin kind : bytes)
| RecTransparent (role outcome : bytes)
| RecDynamic (module : bytes) (code : Z)
| RecPhase (phase : bytes) (seconds : F64)
| RecPhases (stats : list (bytes * Z * (Z * Z))).

Definition record (r : Recorded) (s : Metrics) : Metrics :=
  match r with
  | RecRequest route code => record_request route code s
  | RecDuration x => record_duration x s
  | RecTimed route code x => record_request_timed route code x s
  | RecAttempt u res => record_attempt u res s
  | RecPluginError p k => record_plugin_error p k s
  | RecTransparent r o => record_transparent r o s
  | RecDynamic m code => record_dynamic m code s
  | RecPhase p x => record_phase p x s
  | RecPhases stats => record_phases stats s
  end.

Definition collect (rs : list Recorded) : Metrics := foldl (λ s r, record r s) metrics_new rs.

(** * What the collector holds *)

(** [f64_le] is transitive: it is the lexicographic order of sign, exponent and
    mantissa. *)
Definition f64_rank (x : F64) : option (Z * Z * Z) :=
  match x with
  | S754_nan => None
  | S754_infinity true => Some (-2, 0, 0)
  | S754_finite true m e => Some (-1, -e, Zneg m)
  | S754_zero _ => Some (0, 0, 0)
  | S754_finite false m e => Some (1, e, Zpos m)
  | S754_infinity false => Some (2, 0, 0)
  end.

Definition rank_le (a b : Z * Z * Z) : Prop :=
  a.1.1 < b.1.1 ∨ (a.1.1 = b.1.1 ∧ (a.1.2 < b.1.2 ∨ (a.1.2 = b.1.2 ∧ a.2 <= b.2))).

Lemma f64_le_rank x y :
  f64_le x y = true ↔ ∃ a b, f64_rank x = Some a ∧ f64_rank y = Some b ∧ rank_le a b.
Proof.
  assert (∀ a b, (∃ a' b', Some a = Some a' ∧ Some b = Some b' ∧ rank_le a' b') ↔ rank_le a b) as Hs.
  { intros a b. split; [by intros (? & ? & [= <-] & [= <-] & ?)|]. intros H. by exists a, b. }
  destruct x as [s|s| |s m e], y as [s'|s'| |s' m' e']; try destruct s; try destruct s'; unfold f64_le, SFleb; simpl;
    try rewrite Hs; unfold rank_le; simpl;
    try (split; [done || (intros _; lia)|]; try (intros (? & ? & ? & ? & ?); done); lia);
    try (split; [done|]; lia).
  all: change (Pos.compare_cont Eq m m') with (Pos.compare m m').
  all: destruct (Z.compare_spec e e'), (Pos.compare_spec m m'); simpl; split; try done; try lia.
Qed.

Lemma f64_le_trans x y z : f64_le x y = true → f64_le y z = true → f64_le x z = true.
Proof.
  rewrite !f64_le_rank. intros (a & b & Ha & Hb & Hab) (b' & c & Hb' & Hc & Hbc).
  exists a, c. split_and!; [done|done|]. rewrite Hb in Hb'. injection Hb' as [= <-].
  unfold rank_le in *. lia.
Qed.

Definition below (x : F64) (b : Boundary) : bool := f64_le x (bo_value b).

Definition ascending (bounds : list Boundary) : bool :=
  match bounds with
  | [] => true
  | b :: rest => forallb (λ p, f64_le (bo_value p.1) (bo_value p.2)) (zip bounds rest)
  end.

(** The histogram of a list of observations. *)
Definition occurrences {A} (P : A → bool) (l : list A) : Z := Z.of_nat (length (List.filter P l)).

Definition hist_of (bounds : list Boundary) (l : list F64) : Hist := {|
  hi_buckets := map (λ b, wrap 64 (occurrences (λ x, below x b) l)) bounds;
  hi_count := wrap 64 (Z.of_nat (length l));
  hi_sum := foldl f64_add f64_zero l |}.

Lemma count_up_wrap n : count_up (wrap 64 n) = wrap 64 (n + 1).
Proof. unfold count_up, wrap. by rewrite Zplus_mod_idemp_l. Qed.

Lemma occurrences_snoc {A} (P : A → bool) l x :
  occurrences P (l ++ [x]) = occurrences P l + (if P x then 1 else 0).
Proof. unfold occurrences. rewrite List.filter_app, length_app. simpl. destruct (P x); simpl; lia. Qed.

Lemma bucket_index_bump bounds x (n : Boundary → Z) : ascending bounds = true →
  match bucket_index bounds x with
  | Some i => take i (map (λ b, wrap 64 (n b)) bounds) ++ map count_up (drop i (map (λ b, wrap 64 (n b)) bounds))
  | None => map (λ b, wrap 64 (n b)) bounds
  end = map (λ b, wrap 64 (n b + (if below x b then 1 else 0))) bounds.
Proof.
  induction bounds as [|b bounds IH]; intros Ha; [done|]. cbn [bucket_index].
  change (f64_le x (bo_value b)) with (below x b). destruct (below x b) eqn:E.
  - rewrite take_0, drop_0. cbn [app]. rewrite map_map. clear IH. revert b Ha E.
    induction bounds as [|c bounds IH]; intros b Ha E; cbn [map]; rewrite E, count_up_wrap; [done|].
    cbn in Ha. apply andb_true_iff in Ha as [Hbc Ha]. f_equal. apply (IH c Ha). by eapply f64_le_trans.
  - assert (ascending bounds = true) as Ha'.
    { destruct bounds; [done|]. cbn in Ha. by apply andb_true_iff in Ha as [_ ?]. }
    specialize (IH Ha'). cbn [map]. rewrite E, Z.add_0_r.
    destruct (bucket_index bounds x); cbn [fmap option_fmap option_map take drop app]; by rewrite <-IH.
Qed.

Lemma observe_hist_of bounds l x : ascending bounds = true →
  observe bounds x (hist_of bounds l) = hist_of bounds (l ++ [x]).
Proof.
  intros Ha. unfold observe, hist_of. cbn [hi_buckets hi_count hi_sum]. f_equal.
  - rewrite bucket_index_bump by done. apply map_ext. intros b. by rewrite occurrences_snoc.
  - rewrite count_up_wrap, length_app. simpl. f_equal. lia.
  - by rewrite foldl_app.
Qed.

Lemma hist_of_nil bounds : hist_of bounds [] = hist_empty bounds.
Proof. unfold hist_of, hist_empty. f_equal. by induction bounds; [|simpl; f_equal]. Qed.

(** A counter family counts each key's events. *)
Definition tallies `{Countable K} (m : gmap K Z) (l : list K) : Prop :=
  ∀ k, m !! k = if bool_decide (k ∈ l) then Some (wrap 64 (occurrences (λ x, bool_decide (x = k)) l)) else None.

Lemma occurrences_absent `{EqDecision K} (l : list K) k : k ∉ l → occurrences (λ x, bool_decide (x = k)) l = 0.
Proof.
  unfold occurrences. induction l as [|x l IH]; [done|]. rewrite not_elem_of_cons. intros [Hne Hl].
  simpl. rewrite bool_decide_false by done. by apply IH.
Qed.

Lemma tallies_bump `{Countable K} (m : gmap K Z) l k : tallies m l → tallies (bump k m) (l ++ [k]).
Proof.
  intros Hm j. unfold bump. rewrite occurrences_snoc, (Hm k). destruct (decide (j = k)) as [->|Hne].
  - rewrite lookup_insert_eq, (bool_decide_true (k ∈ l ++ [k])) by (rewrite elem_of_app, list_elem_of_singleton; tauto).
    f_equal. rewrite (bool_decide_true (k = k)) by done. rewrite <-count_up_wrap.
    case_bool_decide as Hin; [done|]. by rewrite occurrences_absent.
  - rewrite lookup_insert_ne by done. rewrite (Hm j), (bool_decide_false (k = j)), Z.add_0_r by done.
    assert (j ∈ l ++ [k] ↔ j ∈ l) as Hiff by (rewrite elem_of_app, list_elem_of_singleton; tauto).
    by rewrite (bool_decide_ext _ _ Hiff).
Qed.

(** What each call contributes to each family. *)
Definition requests_in (r : Recorded) : list (bytes * Z) :=
  match r with RecRequest route code | RecTimed route code _ => [(route, code)] | _ => [] end.
Definition durations_in (r : Recorded) : list F64 :=
  match r with RecDuration x | RecTimed _ _ x => [x] | _ => [] end.
Definition attempts_in (r : Recorded) : list (bytes * bytes) :=
  match r with RecAttempt u res => [(u, res)] | _ => [] end.
Definition errors_in (r : Recorded) : list (bytes * bytes) :=
  match r with RecPluginError p k => [(p, k)] | _ => [] end.
Definition transparent_in (r : Recorded) : list (bytes * bytes) :=
  match r with RecTransparent role o => [(role, o)] | _ => [] end.
Definition dynamic_in (r : Recorded) : list (bytes * Z) :=
  match r with RecDynamic m code => [(m, code)] | _ => [] end.
Definition phases_in (r : Recorded) : list (bytes * F64) :=
  match r with
  | RecPhase p x => [(p, x)]
  | RecPhases stats => map (λ st, (st.1.1, as_secs_f64 st.2.1 st.2.2)) stats
  | _ => []
  end.

Definition all_of {A} (f : Recorded → list A) (rs : list Recorded) : list A := List.concat (map f rs).

Definition of_phase (phase : bytes) (l : list (bytes * F64)) : list F64 :=
  map snd (List.filter (λ o, bool_decide (o.1 = phase)) l).

Definition phases_hold (m : gmap bytes Hist) (l : list (bytes * F64)) : Prop :=
  ∀ p, m !! p = if bool_decide (p ∈ map fst l) then Some (hist_of PHASE_BUCKETS (of_phase p l)) else None.

(** The collector's state is that of the events [rs]. *)
Record collected (rs : list Recorded) (s : Metrics) : Prop := {
  col_requests : tallies (ms_requests s) (all_of requests_in rs);
  col_attempts : tallies (ms_attempts s) (all_of attempts_in rs);
  col_errors : tallies (ms_plugin_errors s) (all_of errors_in rs);
  col_transparent : tallies (ms_transparent s) (all_of transparent_in rs);
  col_dynamic : tallies (ms_dynamic s) (all_of dynamic_in rs);
  col_phases : phases_hold (ms_phases s) (all_of phases_in rs);
  col_duration : ms_duration s = hist_of DURATION_BUCKETS (all_of durations_in rs);
}.

Lemma all_of_snoc {A} (f : Recorded → list A) rs r : all_of f (rs ++ [r]) = all_of f rs ++ f r.
Proof. unfold all_of. by rewrite map_app, concat_app; simpl; rewrite app_nil_r. Qed.

Lemma phase_buckets_ascending : ascending PHASE_BUCKETS = true.
Proof. vm_compute. reflexivity. Qed.
Lemma duration_buckets_ascending : ascending DURATION_BUCKETS = true.
Proof. vm_compute. reflexivity. Qed.

Lemma of_phase_snoc p l o : of_phase p (l ++ [o]) = of_phase p l ++ (if bool_decide (o.1 = p) then [o.2] else []).
Proof. unfold of_phase. rewrite List.filter_app, map_app. simpl. by case_bool_decide. Qed.

Lemma of_phase_absent p l : p ∉ map fst l → of_phase p l = [].
Proof.
  unfold of_phase. induction l as [|[q x] l IH]; [done|]. cbn [map fst]. rewrite not_elem_of_cons. intros [Hne Hl].
  simpl. rewrite bool_decide_false by done. by apply IH.
Qed.

Lemma phases_hold_observe m l p x : phases_hold m l → phases_hold (observe_phase p x m) (l ++ [(p, x)]).
Proof.
  intros Hm q. unfold observe_phase. rewrite of_phase_snoc, map_app. cbn [map fst snd].
  destruct (decide (q = p)) as [->|Hne].
  - rewrite lookup_insert_eq, (bool_decide_true (p ∈ _ ++ _)), (bool_decide_true (p = p))
      by (done || rewrite elem_of_app, list_elem_of_singleton; tauto).
    f_equal. rewrite <-observe_hist_of by exact phase_buckets_ascending. f_equal. rewrite (Hm p).
    case_bool_decide as Hin; [done|]. by rewrite of_phase_absent, hist_of_nil.
  - rewrite lookup_insert_ne, (bool_decide_false (p = q)), app_nil_r by done. rewrite (Hm q).
    assert (q ∈ map fst l ++ [p] ↔ q ∈ map fst l) as Hiff by (rewrite elem_of_app, list_elem_of_singleton; tauto).
    by rewrite (bool_decide_ext _ _ Hiff).
Qed.

Lemma phases_hold_stats stats : ∀ s l, phases_hold (ms_phases s) l →
  phases_hold (ms_phases (record_phases stats s)) (l ++ phases_in (RecPhases stats)) ∧
  (λ s, (ms_requests s, ms_attempts s, ms_plugin_errors s, ms_transparent s, ms_dynamic s, ms_duration s))
    (record_phases stats s) =
  (ms_requests s, ms_attempts s, ms_plugin_errors s, ms_transparent s, ms_dynamic s, ms_duration s).
Proof.
  induction stats as [|[[p n] [secs nanos]] stats IH]; intros s l Hl; [by simpl; rewrite app_nil_r|].
  destruct (IH (record_phase p (as_secs_f64 secs nanos) s) (l ++ [(p, as_secs_f64 secs nanos)])) as [H1 H2].
  { by apply phases_hold_observe. }
  rewrite <-app_assoc in H1. split; [exact H1|exact H2].
Qed.

Lemma collect_collected rs : collected rs (collect rs).
Proof.
  induction rs as [|r rs IH] using rev_ind.
  { constructor; try (intros k; done). unfold all_of. simpl. by rewrite hist_of_nil. }
  unfold collect. rewrite foldl_app. cbn [foldl]. fold (collect rs). destruct IH as [H1 H2 H3 H4 H5 H6 H7].
  destruct r.
  9: { destruct (phases_hold_stats stats (collect rs) _ H6) as [Hp [= E1 E2 E3 E4 E5 E6]].
    constructor; cbn [record]; rewrite all_of_snoc; cbn [requests_in attempts_in errors_in transparent_in dynamic_in durations_in];
      rewrite ?app_nil_r, ?E1, ?E2, ?E3, ?E4, ?E5, ?E6; done. }
  all: constructor; rewrite all_of_snoc; cbn; rewrite ?app_nil_r; try done;
    try (by apply tallies_bump); try (by apply phases_hold_observe).
  all: rewrite H7; apply observe_hist_of, duration_buckets_ascending.
Qed.

(** * Rendering *)

Definition escape_byte (b : byte) : bytes :=
  if bool_decide (b = x5c) then [x5c; x5c]
  else if bool_decide (b = x22) then [x5c; x22]
  else if bool_decide (b = x0a) then [x5c; x6e]
  else [b].

(** Only ASCII characters are escaped, so the walk over bytes is that over chars. *)
Definition escape_label (v : bytes) : bytes := List.concat (map escape_byte v).

(** [{:.6}] rounds the exact value to six decimals, ties to even. *)
Definition round_even (num den : Z) : Z :=
  let q := num / den in
  let r := num mod den in
  if 2 * r <? den then q
  else if den <? 2 * r then q + 1
  else if Z.even q then q else q + 1.

Definition micros (m : positive) (e : Z) : Z :=
  if 0 <=? e then Zpos m * 1000000 * 2 ^ e else round_even (Zpos m * 1000000) (2 ^ (- e)).

(** 400 digits hold any double. *)
Definition fmt_wide (z : Z) : bytes := fmt_radix 400 10 z [].

Definition digit_at (z i : Z) : byte := digit_byte (z / 10 ^ i mod 10).

Definition fmt_micros (z : Z) : bytes :=
  fmt_wide (z / 1000000) ++ bs "." ++ map (digit_at z) [5; 4; 3; 2; 1; 0].

Definition sign_text (negative : bool) : bytes := if negative then bs "-" else [].

Definition fmt_fixed6 (v : F64) : bytes :=
  match v with
  | S754_nan => bs "NaN"
  | S754_infinity s => sign_text s ++ bs "inf"
  | S754_zero s => sign_text s ++ fmt_micros 0
  | S754_finite s m e => sign_text s ++ fmt_micros (micros m e)
  end.

Fixpoint drop_byte (b : byte) (s : bytes) : bytes :=
  match s with
  | c :: r => if bool_decide (c = b) then drop_byte b r else s
  | [] => []
  end.

(** [str::trim_end_matches] of one character. *)
Definition trim_end_byte (b : byte) (s : bytes) : bytes := reverse (drop_byte b (reverse s)).

Definition format_sum (v : F64) : bytes :=
  let s := trim_end_byte x2e (trim_end_byte x30 (fmt_fixed6 v)) in
  if bool_decide (s = []) then bs "0" else s.

(** One sample line; a label's value is already escaped. *)
Definition label_text (l : bytes * bytes) : bytes := l.1 ++ [x3d; x22] ++ l.2 ++ [x22].

Definition sample (name : bytes) (labels : list (bytes * bytes)) (value : bytes) : bytes :=
  name ++ (match labels with [] => [] | _ => [x7b] ++ join [x2c] (map label_text labels) ++ [x7d] end) ++
  [x20] ++ value ++ [x0a].

(** The two comment lines every family opens with. *)
Definition help (name text kind : string) : bytes :=
  bs "# HELP " ++ bs name ++ bs " " ++ bs text ++ [x0a] ++ bs "# TYPE " ++ bs name ++ bs " " ++ bs kind ++ [x0a].

Definition pair_leb {A B} `{EqDecision A} (leA : A → A → bool) (leB : B → B → bool) (x y : A * B) : bool :=
  if bool_decide (x.1 = y.1) then leB x.2 y.2 else leA x.1 y.1.

Definition coded_leb (x y : (bytes * Z) * Z) : bool := pair_leb bytes_leb Z.leb x.1 y.1.
Definition named_leb (x y : (bytes * bytes) * Z) : bool := pair_leb bytes_leb bytes_leb x.1 y.1.
Definition peer_leb (x y : bytes * bytes * bool) : bool := pair_leb (pair_leb bytes_leb bytes_leb) implb x y.

Definition sorted_codes (m : gmap (bytes * Z) Z) : list ((bytes * Z) * Z) := sort_by coded_leb (map_to_list m).
Definition sorted_names (m : gmap (bytes * bytes) Z) : list ((bytes * bytes) * Z) := sort_by named_leb (map_to_list m).
Definition sorted_phases (m : gmap bytes Hist) : list (bytes * Hist) :=
  sort_by (λ a b, bytes_leb a.1 b.1) (map_to_list m).

(** The registry's error counts added to the collector's own. *)
Definition merge_errors (own : gmap (bytes * bytes) Z) (live : list (bytes * bytes * Z)) : gmap (bytes * bytes) Z :=
  foldl (λ m e, <[e.1 := wrap 64 (default 0 (m !! e.1) + e.2)]> m) own live.

Definition code_line (name key : string) (e : (bytes * Z) * Z) : bytes :=
  sample (bs name) [(bs key, escape_label e.1.1); (bs "code", fmt_dec e.1.2)] (fmt_dec e.2).

Definition name_line (name key1 key2 : string) (e : (bytes * bytes) * Z) : bytes :=
  sample (bs name) [(bs key1, escape_label e.1.1); (bs key2, escape_label e.1.2)] (fmt_dec e.2).

Definition bucket_line (name : bytes) (labels : list (bytes * bytes)) (b : Boundary * Z) : bytes :=
  sample (name ++ bs "_bucket") (labels ++ [(bs "le", bo_text b.1)]) (fmt_dec b.2).

(** The lines of one histogram, [labels] being its own labels. *)
Definition hist_lines (name : bytes) (labels : list (bytes * bytes)) (bounds : list Boundary) (h : Hist) : bytes :=
  List.concat (map (bucket_line name labels) (zip bounds (hi_buckets h))) ++
  sample (name ++ bs "_bucket") (labels ++ [(bs "le", bs "+Inf")]) (fmt_dec (hi_count h)) ++
  sample (name ++ bs "_sum") labels (format_sum (hi_sum h)) ++
  sample (name ++ bs "_count") labels (fmt_dec (hi_count h)).

Definition lines {A} (f : A → bytes) (l : list A) : bytes := List.concat (map f l).

Definition peer_line (p : bytes * bytes * bool) : bytes :=
  sample (bs "openrusty_peer_healthy") [(bs "upstream", escape_label p.1.1); (bs "addr", escape_label p.1.2)]
    (if p.2 then bs "1" else bs "0").

Definition kv_line (e : bytes * Z) : bytes :=
  sample (bs "openrusty_kv_entries") [(bs "plugin", escape_label e.1)] (fmt_dec e.2).

Definition phase_lines (e : bytes * Hist) : bytes :=
  hist_lines (bs "openrusty_plugin_phase_seconds") [(bs "phase", escape_label e.1)] PHASE_BUCKETS e.2.

Definition render (snap : Metrics) (peers : list (bytes * bytes * bool)) (kv : list (bytes * Z))
    (plugin_errors : list (bytes * bytes * Z)) : bytes :=
  help "openrusty_requests_total" "Total HTTP requests handled by route and status code." "counter" ++
  lines (code_line "openrusty_requests_total" "route") (sorted_codes (ms_requests snap)) ++
  help "openrusty_request_duration_seconds" "Request handling duration in seconds." "histogram" ++
  hist_lines (bs "openrusty_request_duration_seconds") [] DURATION_BUCKETS (ms_duration snap) ++
  help "openrusty_upstream_attempts_total" "Total upstream attempts by upstream and result." "counter" ++
  lines (name_line "openrusty_upstream_attempts_total" "upstream" "result") (sorted_names (ms_attempts snap)) ++
  help "openrusty_plugin_errors_total" "Total plugin execution errors by plugin and kind." "counter" ++
  lines (name_line "openrusty_plugin_errors_total" "plugin" "kind")
    (sorted_names (merge_errors (ms_plugin_errors snap) plugin_errors)) ++
  help "openrusty_transparent_conns_total"
    "Transparently intercepted connections by listener role and disposition." "counter" ++
  lines (name_line "openrusty_transparent_conns_total" "role" "outcome") (sorted_names (ms_transparent snap)) ++
  (if bool_decide (ms_dynamic snap = ∅) then []
   else help "openrusty_dynamic_requests_total" "Dynamic module invocations by module name and status code." "counter" ++
        lines (code_line "openrusty_dynamic_requests_total" "module") (sorted_codes (ms_dynamic snap))) ++
  help "openrusty_peer_healthy" "Whether an upstream peer is currently healthy." "gauge" ++
  lines peer_line (sort_by peer_leb peers) ++
  help "openrusty_kv_entries" "Live KV entries held by each plugin." "gauge" ++
  lines kv_line (sort_by (λ a b, bytes_leb a.1 b.1) kv) ++
  help "openrusty_plugin_phase_seconds" "Total wall time spent in each plugin phase per request." "histogram" ++
  lines phase_lines (sorted_phases (ms_phases snap)).

(** * Scraping *)

(** A reader of the exposition format, as a scraper has it: a sample is a name,
    labels with their escapes undone, and a value; lines starting with a hash and
    empty lines are skipped. *)
Definition Sample : Type := bytes * list (bytes * bytes) * bytes.

Fixpoint read_value (s : bytes) : option (bytes * bytes) :=
  match s with
  | [] => None
  | b :: r =>
      if bool_decide (b = x22) then Some ([], r)
      else if bool_decide (b = x5c) then
        match r with
        | [] => None
        | c :: r =>
            '(v, r) ← read_value r;
            Some ((if bool_decide (c = x6e) then x0a else c) :: v, r)
        end
      else '(v, r) ← read_value r; Some (b :: v, r)
  end.

Fixpoint read_labels (fuel : nat) (s : bytes) : option (list (bytes * bytes) * bytes) :=
  match fuel with
  | O => None
  | S fuel =>
      '(k, r) ← split_once x3d s;
      r ← strip_prefix [x22] r;
      '(v, r) ← read_value r;
      match r with
      | b :: r =>
          if bool_decide (b = x7d) then Some ([(k, v)], r)
          else if bool_decide (b = x2c) then '(ls, r) ← read_labels fuel r; Some ((k, v) :: ls, r)
          else None
      | [] => None
      end
  end.

Definition is_name_byte (b : byte) : bool := negb (bool_decide (b = x7b)) && negb (bool_decide (b = x20)).

Fixpoint read_name (s : bytes) : bytes * bytes :=
  match s with
  | b :: r => if is_name_byte b then let '(n, r) := read_name r in (b :: n, r) else ([], s)
  | [] => ([], [])
  end.

Definition read_sample (line : bytes) : option Sample :=
  let '(name, r) := read_name line in
  match r with
  | b :: r =>
      if bool_decide (b = x7b) then
        '(ls, r) ← read_labels (length r) r;
        value ← strip_prefix [x20] r;
        Some (name, ls, value)
      else Some (name, [], r)
  | [] => None
  end.

Definition skipped (line : bytes) : bool := match line with [] => true | b :: _ => bool_decide (b = x23) end.

Fixpoint read_lines (ls : list bytes) : option (list Sample) :=
  match ls with
  | [] => Some []
  | l :: ls =>
      if skipped l then read_lines ls
      else s ← read_sample l; r ← read_lines ls; Some (s :: r)
  end.

Definition scrape (text : bytes) : option (list Sample) := read_lines (split_on x0a text).

(** [s] is a run of whole lines that read as [l]. *)
Definition reads (s : bytes) (l : list Sample) : Prop :=
  ∀ rest, scrape (s ++ rest) = (l ++.) <$> scrape rest.

Lemma reads_nil : reads [] [].
Proof. intros rest. simpl. by destruct (scrape rest). Qed.

Lemma reads_app s t l k : reads s l → reads t k → reads (s ++ t) (l ++ k).
Proof.
  intros Hs Ht rest. rewrite <-app_assoc, Hs, Ht. destruct (scrape rest); simpl; [by rewrite app_assoc|done].
Qed.

Lemma reads_lines {A} (f : A → bytes) (g : A → list Sample) l :
  (∀ x, reads (f x) (g x)) → reads (lines f l) (List.concat (map g l)).
Proof.
  intros H. unfold lines. induction l as [|x l IH]; [apply reads_nil|]. simpl. by apply reads_app.
Qed.

Lemma scrape_line line rest : x0a ∉ line → scrape (line ++ x0a :: rest) = read_lines (line :: split_on x0a rest).
Proof. intros H. unfold scrape. by rewrite split_on_app_sep. Qed.

Lemma read_value_byte b t : read_value (escape_byte b ++ t) = '(v, r) ← read_value t; Some (b :: v, r).
Proof.
  unfold escape_byte. repeat case_bool_decide; subst; cbn [app read_value];
    repeat (rewrite bool_decide_false by done); by repeat (rewrite bool_decide_true by done).
Qed.

Lemma read_value_escape v r : read_value (escape_label v ++ x22 :: r) = Some (v, r).
Proof.
  unfold escape_label. induction v as [|b v IH]; [done|].
  cbn [map List.concat]. by rewrite <-app_assoc, read_value_byte, IH.
Qed.

Definition key_ok (k : bytes) : Prop := (x3d ∉ k) ∧ (x0a ∉ k).

Definition escaped (l : bytes * bytes) : bytes * bytes := (l.1, escape_label l.2).

Lemma read_labels_exact ls r : ls ≠ [] → Forall (λ l, key_ok l.1) ls → ∀ fuel, (length ls <= fuel)%nat →
  read_labels fuel (join [x2c] (map label_text (map escaped ls)) ++ x7d :: r) = Some (ls, r).
Proof.
  induction ls as [|[k v] ls IH]; intros Hne Hk fuel Hf; [done|]. destruct fuel as [|fuel]; [cbn in Hf; lia|].
  apply Forall_cons in Hk as [[Hk _] Hks].
  assert (∀ tail, read_labels (S fuel) (label_text (escaped (k, v)) ++ tail) =
    match tail with
    | b :: r => if bool_decide (b = x7d) then Some ([(k, v)], r)
                else if bool_decide (b = x2c) then '(ls, r) ← read_labels fuel r; Some ((k, v) :: ls, r) else None
    | [] => None
    end) as Hone.
  { intros tail. cbn [read_labels]. unfold label_text, escaped. cbn [fst snd].
    assert (split_once x3d ((k ++ [x3d; x22] ++ escape_label v ++ [x22]) ++ tail) =
      Some (k, x22 :: escape_label v ++ x22 :: tail)) as ->.
    { apply split_once_Some. split; [|done]. by rewrite <-!app_assoc. }
    cbn [mbind option_bind strip_prefix]. rewrite bool_decide_true by done. cbn [mbind option_bind].
    by rewrite read_value_escape. }
  destruct ls as [|l ls].
  - cbn [map join]. by rewrite Hone.
  - cbn [map join]. rewrite <-!app_assoc, Hone. cbn [app].
    change (join [x2c] (label_text (escaped l) :: map label_text (map escaped ls)))
      with (join [x2c] (map label_text (map escaped (l :: ls)))).
    rewrite (bool_decide_false (x2c = x7d)), (bool_decide_true (x2c = x2c)) by done.
    rewrite IH by (done || cbn in *; lia). done.
Qed.

(** ** What the renderer writes is readable *)

Definition clean (s : bytes) : bool := forallb (λ b, negb (bool_decide (b = x0a))) s.

Lemma clean_spec s : clean s = true ↔ x0a ∉ s.
Proof.
  unfold clean. rewrite forallb_forall. split.
  - intros H Hin%list_elem_of_In. apply H in Hin. by rewrite bool_decide_true in Hin.
  - intros H b Hb%list_elem_of_In. apply negb_true_iff, bool_decide_eq_false. by intros ->.
Qed.

Lemma clean_app s t : clean (s ++ t) = clean s && clean t.
Proof. apply forallb_app. Qed.

Lemma clean_concat {A} (f : A → bytes) l : (∀ x, clean (f x) = true) → clean (List.concat (map f l)) = true.
Proof. intros H. induction l as [|x l IH]; [done|]. cbn [map List.concat]. by rewrite clean_app, H. Qed.

Lemma escape_label_clean v : clean (escape_label v) = true.
Proof.
  apply clean_concat. intros b. unfold escape_byte. repeat case_bool_decide; try done.
  unfold clean. cbn. by rewrite bool_decide_false.
Qed.

(** A byte a number is written with: neither a newline nor one the escaping touches. *)
Definition plain (b : byte) : bool := bool_decide (escape_byte b = [b]).

Lemma plain_clean s : forallb plain s = true → clean s = true ∧ escape_label s = s.
Proof.
  induction s as [|b s IH]; [done|]. cbn [forallb]. intros [Hb Hs]%andb_true_iff. destruct (IH Hs) as [IH1 IH2].
  apply bool_decide_eq_true in Hb. split.
  - change (negb (bool_decide (b = x0a)) && clean s = true). rewrite IH1, andb_true_r.
    apply negb_true_iff, bool_decide_eq_false. intros ->. done.
  - unfold escape_label in *. cbn [map List.concat]. by rewrite Hb, IH2.
Qed.

Lemma digits_plain s : forallb is_ascii_digit s = true → forallb plain s = true.
Proof.
  assert (∀ b, implb (is_ascii_digit b) (plain b) = true) as Hb by (intros []; vm_compute; reflexivity).
  rewrite !forallb_forall. intros H b Hin. specialize (Hb b). by rewrite (H b Hin) in Hb.
Qed.

Lemma fmt_dec_plain z : clean (fmt_dec z) = true ∧ escape_label (fmt_dec z) = fmt_dec z.
Proof. apply plain_clean, digits_plain, fmt_dec_digits. Qed.

Lemma drop_byte_clean b s : clean s = true → clean (drop_byte b s) = true.
Proof.
  induction s as [|c s IH]; [done|]. intros H. cbn [drop_byte]. case_bool_decide; [|done].
  apply IH. change (negb (bool_decide (c = x0a)) && clean s = true) in H. by apply andb_true_iff in H as [_ ?].
Qed.

Lemma clean_reverse s : clean (reverse s) = clean s.
Proof.
  apply eq_bool_prop_intro. rewrite !Is_true_true, !clean_spec. by rewrite elem_of_reverse.
Qed.

Lemma fmt_fixed6_clean v : clean (fmt_fixed6 v) = true.
Proof.
  assert (∀ z, clean (fmt_micros z) = true) as Hm.
  { intros z. unfold fmt_micros, fmt_wide. rewrite !clean_app.
    rewrite (proj1 (plain_clean _ (digits_plain _ (fmt_radix_digits 400 _ [] eq_refl)))). cbn [andb].
    apply plain_clean, digits_plain, forallb_forall. intros b (i & <- & _)%in_map_iff.
    apply digit_byte_digit. by apply Z.mod_pos_bound. }
  destruct v as [[]|[]| |[] m e]; cbn [fmt_fixed6 sign_text]; rewrite ?clean_app, ?Hm; done.
Qed.

Lemma format_sum_clean v : clean (format_sum v) = true.
Proof.
  unfold format_sum. case_bool_decide; [done|]. unfold trim_end_byte.
  rewrite clean_reverse. apply drop_byte_clean. rewrite clean_reverse, clean_reverse. apply drop_byte_clean.
  rewrite clean_reverse. apply fmt_fixed6_clean.
Qed.

(** Names of samples and labels, decidably. *)
Definition name_ok (n : bytes) : bool := forallb is_name_byte n && clean n && negb (skipped n).
Definition key_okb (k : bytes) : bool := forallb (λ b, negb (bool_decide (b = x3d))) k && clean k.

Lemma key_okb_spec k : key_okb k = true → key_ok k.
Proof.
  unfold key_okb. intros [H1 H2]%andb_true_iff. split; [|by apply clean_spec].
  intros Hin%list_elem_of_In. rewrite forallb_forall in H1. apply H1 in Hin. by rewrite bool_decide_true in Hin.
Qed.

Lemma read_name_exact n r : forallb is_name_byte n = true →
  (match r with b :: _ => is_name_byte b = false | [] => True end) → read_name (n ++ r) = (n, r).
Proof.
  intros Hn Hr. induction n as [|b n IH]; cbn [app].
  - destruct r as [|b r]; [done|]. cbn [read_name]. by rewrite Hr.
  - cbn in Hn. apply andb_true_iff in Hn as [Hb Hn]. cbn [read_name]. by rewrite Hb, IH.
Qed.

Lemma clean_labels ls : Forall (λ l, key_okb l.1 = true) ls →
  clean (join [x2c] (map label_text (map escaped ls))) = true.
Proof.
  assert (∀ l, key_okb l.1 = true → clean (label_text (escaped l)) = true) as Hl.
  { intros [k v] [_ Hk]%andb_true_iff. cbn [fst] in Hk. unfold label_text, escaped. cbn [fst snd].
    by rewrite !clean_app, Hk, escape_label_clean. }
  induction 1 as [|l ls Hk _ IH]; [done|]. cbn [map join]. destruct ls as [|l' ls]; [by apply Hl|].
  cbn [map] in *. by rewrite clean_app, Hl, clean_app, IH.
Qed.

Lemma reads_sample name ls value :
  name_ok name = true → Forall (λ l, key_okb l.1 = true) ls → clean value = true →
  reads (sample name (map escaped ls) value) [(name, ls, value)].
Proof.
  intros [[Hn Hc]%andb_true_iff Hs]%andb_true_iff Hk Hv rest.
  set (labels := match ls with [] => [] | _ => [x7b] ++ join [x2c] (map label_text (map escaped ls)) ++ [x7d] end).
  assert (sample name (map escaped ls) value = (name ++ labels ++ [x20] ++ value) ++ [x0a]) as ->.
  { unfold sample, labels. destruct ls; cbn [map app]; repeat (rewrite <-?app_assoc; cbn [app]); reflexivity. }
  rewrite <-app_assoc. cbn [app]. rewrite scrape_line.
  2: { apply clean_spec. change (x20 :: value) with ([x20] ++ value). rewrite !clean_app, Hc, Hv. unfold labels.
    destruct ls as [|l ls]; [done|]. by rewrite !clean_app, clean_labels. }
  cbn [read_lines]. assert (skipped (name ++ labels ++ x20 :: value) = false) as ->.
  { destruct name; [done|]. by apply negb_true_iff in Hs. }
  assert (read_sample (name ++ labels ++ x20 :: value) = Some (name, ls, value)) as ->.
  { unfold read_sample. unfold labels. destruct ls as [|l ls].
    - cbn [app]. by rewrite read_name_exact.
    - cbn [app]. rewrite read_name_exact by done. rewrite bool_decide_true by done.
      rewrite <-app_assoc. cbn [app]. rewrite read_labels_exact.
      + cbn [mbind option_bind strip_prefix]. by rewrite bool_decide_true.
      + done.
      + eapply Forall_impl; [exact Hk|]. intros ?; apply key_okb_spec.
      + rewrite length_app. clear. generalize (l :: ls). intros k.
        assert (length k <= length (join [x2c] (map label_text (map escaped k))))%nat; [|simpl; lia].
        induction k as [|x k IH]; [done|]. cbn [map join]. destruct k as [|y k].
        * cbn [map join]. unfold label_text. rewrite !length_app. simpl. lia.
        * cbn [map join] in *. rewrite !length_app. cbn [length] in *. lia. }
  cbn [mbind option_bind]. unfold scrape. by destruct (read_lines _).
Qed.

Lemma reads_comment text : clean text = true → skipped text = true → reads (text ++ [x0a]) [].
Proof.
  intros Hc Hs rest. rewrite <-app_assoc. cbn [app]. rewrite scrape_line by (by apply clean_spec).
  cbn [read_lines]. rewrite Hs. unfold scrape. by destruct (read_lines _).
Qed.

Lemma reads_help name text kind :
  clean (bs name) && clean (bs text) && clean (bs kind) = true → reads (help name text kind) [].
Proof.
  intros [[Hn Ht]%andb_true_iff Hk]%andb_true_iff. unfold help.
  replace (bs "# HELP " ++ _) with
    (((bs "# HELP " ++ bs name ++ bs " " ++ bs text) ++ [x0a]) ++ ((bs "# TYPE " ++ bs name ++ bs " " ++ bs kind) ++ [x0a]))
    by (by rewrite <-!app_assoc).
  apply (reads_app _ _ [] []); apply reads_comment; try done; by rewrite !clean_app, Hn, ?Ht, ?Hk.
Qed.

(** ** The samples a scrape yields *)

Definition code_sample (name key : string) (e : (bytes * Z) * Z) : Sample :=
  (bs name, [(bs key, e.1.1); (bs "code", fmt_dec e.1.2)], fmt_dec e.2).
Definition name_sample (name key1 key2 : string) (e : (bytes * bytes) * Z) : Sample :=
  (bs name, [(bs key1, e.1.1); (bs key2, e.1.2)], fmt_dec e.2).
Definition hist_samples (name : bytes) (labels : list (bytes * bytes)) (bounds : list Boundary) (h : Hist) : list Sample :=
  map (λ b : Boundary * Z, (name ++ bs "_bucket", labels ++ [(bs "le", bo_text b.1)], fmt_dec b.2)) (zip bounds (hi_buckets h)) ++
  [(name ++ bs "_bucket", labels ++ [(bs "le", bs "+Inf")], fmt_dec (hi_count h));
   (name ++ bs "_sum", labels, format_sum (hi_sum h));
   (name ++ bs "_count", labels, fmt_dec (hi_count h))].

Definition exposed (s : Metrics) (peers : list (bytes * bytes * bool)) (kv : list (bytes * Z))
    (plugin_errors : list (bytes * bytes * Z)) : list Sample :=
  map (code_sample "openrusty_requests_total" "route") (sorted_codes (ms_requests s)) ++
  hist_samples (bs "openrusty_request_duration_seconds") [] DURATION_BUCKETS (ms_duration s) ++
  map (name_sample "openrusty_upstream_attempts_total" "upstream" "result") (sorted_names (ms_attempts s)) ++
  map (name_sample "openrusty_plugin_errors_total" "plugin" "kind")
    (sorted_names (merge_errors (ms_plugin_errors s) plugin_errors)) ++
  map (name_sample "openrusty_transparent_conns_total" "role" "outcome") (sorted_names (ms_transparent s)) ++
  map (code_sample "openrusty_dynamic_requests_total" "module") (sorted_codes (ms_dynamic s)) ++
  map (λ p : bytes * bytes * bool, (bs "openrusty_peer_healthy", [(bs "upstream", p.1.1); (bs "addr", p.1.2)], if p.2 then bs "1" else bs "0"))
    (sort_by peer_leb peers) ++
  map (λ e : bytes * Z, (bs "openrusty_kv_entries", [(bs "plugin", e.1)], fmt_dec e.2)) (sort_by (λ a b, bytes_leb a.1 b.1) kv) ++
  List.concat (map (λ e : bytes * Hist, hist_samples (bs "openrusty_plugin_phase_seconds") [(bs "phase", e.1)] PHASE_BUCKETS e.2)
    (sorted_phases (ms_phases s))).

Lemma reads_map {A} (f : A → bytes) (g : A → Sample) l :
  (∀ x, reads (f x) [g x]) → reads (lines f l) (map g l).
Proof.
  intros H. replace (map g l) with (List.concat (map (λ x, [g x]) l)); [by apply reads_lines|].
  induction l as [|x l IH]; [done|]. simpl. by rewrite IH.
Qed.

Lemma reads_code_line name key e : name_ok (bs name) = true → key_okb (bs key) = true →
  reads (code_line name key e) [code_sample name key e].
Proof.
  intros Hn Hk. destruct (fmt_dec_plain e.1.2) as [_ He], (fmt_dec_plain e.2) as [Hc _].
  unfold code_line, code_sample. rewrite <-He at 1.
  apply (reads_sample (bs name) [(bs key, e.1.1); (bs "code", fmt_dec e.1.2)]); [done| |done].
  by repeat constructor.
Qed.

Lemma reads_name_line name key1 key2 e : name_ok (bs name) = true →
  key_okb (bs key1) = true → key_okb (bs key2) = true →
  reads (name_line name key1 key2 e) [name_sample name key1 key2 e].
Proof.
  intros Hn Hk1 Hk2. destruct (fmt_dec_plain e.2) as [Hc _].
  apply (reads_sample (bs name) [(bs key1, e.1.1); (bs key2, e.1.2)]); [done| |done]. by repeat constructor.
Qed.

(** The suffixed names and the boundary texts of a histogram are fine as they are. *)
Definition hist_ok (name : bytes) (bounds : list Boundary) : bool :=
  name_ok (name ++ bs "_bucket") && name_ok (name ++ bs "_sum") && name_ok (name ++ bs "_count") &&
  forallb (λ b, forallb plain (bo_text b)) bounds.

Lemma reads_hist name ls bounds h : hist_ok name bounds = true → Forall (λ l, key_okb l.1 = true) ls →
  reads (hist_lines name (map escaped ls) bounds h) (hist_samples name ls bounds h).
Proof.
  intros [[[Hb Hs]%andb_true_iff Hc]%andb_true_iff Ht]%andb_true_iff Hls.
  assert (∀ text value, forallb plain text = true → clean value = true →
    reads (sample (name ++ bs "_bucket") (map escaped ls ++ [(bs "le", text)]) value)
      [(name ++ bs "_bucket", ls ++ [(bs "le", text)], value)]) as Hline.
  { intros text value [_ Htext]%plain_clean Hv. rewrite <-Htext at 1.
    change [(bs "le", escape_label text)] with (map escaped [(bs "le", text)]). rewrite <-map_app.
    apply reads_sample; [done| |done]. apply Forall_app. split; [done|by repeat constructor]. }
  unfold hist_lines, hist_samples. apply reads_app.
  - rewrite forallb_forall in Ht. generalize (hi_buckets h). intros counts. revert counts.
    induction bounds as [|b bounds IH]; intros [|n counts]; try apply reads_nil. cbn [zip_with map List.concat].
    apply (reads_app _ _ [_]).
    + apply Hline; [apply Ht; by left|apply fmt_dec_plain].
    + apply IH. intros x Hx. apply Ht. by right.
  - apply (reads_app _ _ [_]); [by apply Hline; [|apply fmt_dec_plain]|].
    apply (reads_app _ _ [_]); apply reads_sample; try done; [apply format_sum_clean|apply fmt_dec_plain].
Qed.

(** A family: its comments, then its lines. *)
Lemma reads_family name text kind s l t k :
  clean (bs name) && clean (bs text) && clean (bs kind) = true → reads s l → reads t k →
  reads (help name text kind ++ s ++ t) (l ++ k).
Proof. intros Hc Hs Ht. apply (reads_app _ _ [] (l ++ k)); [by apply reads_help|by apply reads_app]. Qed.

Lemma reads_last_family name text kind s l :
  clean (bs name) && clean (bs text) && clean (bs kind) = true → reads s l → reads (help name text kind ++ s) l.
Proof. intros Hc Hs. apply (reads_app _ _ [] l); [by apply reads_help|done]. Qed.

Lemma reads_codes name key l : name_ok (bs name) = true → key_okb (bs key) = true →
  reads (lines (code_line name key) l) (map (code_sample name key) l).
Proof. intros Hn Hk. apply reads_map. intros e. by apply reads_code_line. Qed.

Lemma reads_names name key1 key2 l : name_ok (bs name) = true → key_okb (bs key1) = true → key_okb (bs key2) = true →
  reads (lines (name_line name key1 key2) l) (map (name_sample name key1 key2) l).
Proof. intros Hn Hk1 Hk2. apply reads_map. intros e. by apply reads_name_line. Qed.

Lemma reads_peer p : reads (peer_line p)
  [(bs "openrusty_peer_healthy", [(bs "upstream", p.1.1); (bs "addr", p.1.2)], if p.2 then bs "1" else bs "0")].
Proof.
  apply (reads_sample (bs "openrusty_peer_healthy") [(bs "upstream", p.1.1); (bs "addr", p.1.2)]);
    [done|by repeat constructor|by destruct (p.2)].
Qed.

Lemma reads_kv e : reads (kv_line e) [(bs "openrusty_kv_entries", [(bs "plugin", e.1)], fmt_dec e.2)].
Proof.
  apply (reads_sample (bs "openrusty_kv_entries") [(bs "plugin", e.1)]); [done|by repeat constructor|apply fmt_dec_plain].
Qed.

Lemma reads_phase e : reads (phase_lines e)
  (hist_samples (bs "openrusty_plugin_phase_seconds") [(bs "phase", e.1)] PHASE_BUCKETS e.2).
Proof.
  apply (reads_hist _ [(bs "phase", e.1)]); [vm_compute; reflexivity|by repeat constructor].
Qed.

Lemma reads_dynamic (m : gmap (bytes * Z) Z) :
  reads (if bool_decide (m = ∅) then []
         else help "openrusty_dynamic_requests_total" "Dynamic module invocations by module name and status code." "counter" ++
              lines (code_line "openrusty_dynamic_requests_total" "module") (sorted_codes m))
    (map (code_sample "openrusty_dynamic_requests_total" "module") (sorted_codes m)).
Proof.
  case_bool_decide as Hm.
  - subst m. unfold sorted_codes. rewrite map_to_list_empty. apply reads_nil.
  - apply reads_last_family; [vm_compute; reflexivity|]. by apply reads_codes; vm_compute.
Qed.

Lemma render_reads s peers kv errs : reads (render s peers kv errs) (exposed s peers kv errs).
Proof.
  unfold render, exposed.
  apply reads_family; [vm_compute; reflexivity|by apply reads_codes; vm_compute|].
  apply reads_family; [vm_compute; reflexivity|by apply (reads_hist _ []); [vm_compute|constructor]|].
  apply reads_family; [vm_compute; reflexivity|by apply reads_names; vm_compute|].
  apply reads_family; [vm_compute; reflexivity|by apply reads_names; vm_compute|].
  apply reads_family; [vm_compute; reflexivity|by apply reads_names; vm_compute|].
  apply reads_app; [apply reads_dynamic|].
  apply reads_family; [vm_compute; reflexivity|apply reads_map, reads_peer|].
  apply reads_family; [vm_compute; reflexivity|apply reads_map, reads_kv|].
  apply reads_last_family; [vm_compute; reflexivity|apply reads_lines, reads_phase].
Qed.

Lemma merge_errors_lookup own live k :
  default 0 (merge_errors own live !! k) mod 2 ^ 64 =
  (default 0 (own !! k) + foldr (λ e n, (if bool_decide (e.1 = k) then e.2 else 0) + n) 0 live) mod 2 ^ 64.
Proof.
  unfold merge_errors. revert own. induction live as [|[j n] live IH]; intros own; cbn [foldl foldr fst snd].
  { by rewrite Z.add_0_r. }
  rewrite IH. unfold wrap. case_bool_decide as Hj.
  - subst j. rewrite lookup_insert_eq. cbn [default from_option id]. unfold id. rewrite Zplus_mod_idemp_l. f_equal. lia.
  - rewrite lookup_insert_ne by done. f_equal.
Qed.

(** C33. A scrape tells exactly what happened.  Whatever has been recorded, and
    whatever bytes routes, upstreams, modules and addresses consist of, the
    exposition reads back as one sample per counter, boundary, peer and plugin, in
    order, with every label as it was recorded; each counter is the number of its
    events and each bucket the number of observations that do not exceed its
    boundary, to 64 bits; plugin errors add the live counts to the recorded ones. *)
Theorem exposition_exact (rs : list Recorded) (peers : list (bytes * bytes * bool)) (kv : list (bytes * Z))
    (errs : list (bytes * bytes * Z)) :
  let s := collect rs in
  scrape (render s peers kv errs) = Some (exposed s peers kv errs) ∧
  collected rs s ∧
  ∀ k, default 0 (merge_errors (ms_plugin_errors s) errs !! k) mod 2 ^ 64 =
       (default 0 (ms_plugin_errors s !! k) +
        foldr (λ e n, (if bool_decide (e.1 = k) then e.2 else 0) + n) 0 errs) mod 2 ^ 64.
Proof.
  intros s. split_and!.
  - pose proof (render_reads s peers kv errs []) as H. rewrite app_nil_r in H. rewrite H. simpl. by rewrite app_nil_r.
  - apply collect_collected.
  - intros k. apply merge_errors_lookup.
Qed.
