(* ===== verification/Init.v ===== *)
(** The [iptables-init] subcommand ([openrusty-server/src/init/mod.rs],
    [init/exec.rs]): its arguments, the plan of commands that redirects a pod's
    traffic into the transparent listeners, and the plan's execution against the
    kernel's nat table. *)

From S2P Require Import Prelude Text Numbers Net.
From Stdlib Require Import ZArith Lia.
From stdpp Require Import options.
Local Open Scope Z_scope.

(** * [IpAddr::from_str] *)

(** The parser of the standard library: each reader yields its value and the rest. *)
Definition hex_digit_value (b : byte) : option Z :=
  if is_ascii_digit b then Some (bz b - 48)
  else if (97 <=? bz b) && (bz b <=? 102) then Some (bz b - 87)
  else if (65 <=? bz b) && (bz b <=? 70) then Some (bz b - 55)
  else None.

Definition radix_digit (radix : Z) (b : byte) : option Z :=
  d ← hex_digit_value b; if d <? radix then Some d else None.

(** The digits at the front, at most [max] of them below [bound]. *)
Fixpoint read_digits (radix bound : Z) (max : nat) (v : Z) (count : nat) (s : bytes) {struct s} : option (Z * nat * bytes) :=
  match s with
  | b :: r =>
      match radix_digit radix b with
      | Some d =>
          if v * radix + d <? bound then
            match max with
            | O => None
            | S max => read_digits radix bound max (v * radix + d) (S count) r
            end
          else None
      | None => Some (v, count, s)
      end
  | [] => Some (v, count, s)
  end.

Definition read_number (radix bound : Z) (max : nat) (zero_prefix : bool) (s : bytes) : option (Z * bytes) :=
  '(v, count, r) ← read_digits radix bound max 0 0 s;
  if bool_decide (count = 0%nat) then None
  else if negb zero_prefix && starts_with [x30] s && bool_decide (1 < count)%nat then None
  else Some (v, r).

Definition read_char (c : byte) (s : bytes) : option bytes := strip_prefix [c] s.

(** [read_separator]: from the second element on, the separator comes first. *)
Definition read_separator {A} (c : byte) (index : nat) (read : bytes → option (A * bytes)) (s : bytes)
    : option (A * bytes) :=
  match index with
  | O => read s
  | S _ => r ← read_char c s; read r
  end.

Definition read_octet (i : nat) : bytes → option (Z * bytes) :=
  read_separator x2e i (read_number 10 256 3 false).

Definition read_ipv4 (s : bytes) : option (Z * bytes) :=
  '(a, s) ← read_octet 0 s;
  '(b, s) ← read_octet 1 s;
  '(c, s) ← read_octet 2 s;
  '(d, s) ← read_octet 3 s;
  Some (((a * 256 + b) * 256 + c) * 256 + d, s).

(** [read_groups] from index [i] of [limit]: the groups and whether they end with
    an embedded IPv4 address. *)
Fixpoint read_groups (left i : nat) (s : bytes) : list Z * bool * bytes :=
  match left with
  | O => ([], false, s)
  | S left' =>
      let embedded := if bool_decide (left' = 0%nat) then None else read_separator x3a i read_ipv4 s in
      match embedded with
      | Some (v, r) => ([v / 65536; v mod 65536], true, r)
      | None =>
          match read_separator x3a i (read_number 16 65536 4 true) s with
          | Some (g, r) => let '(gs, e, r) := read_groups left' (S i) r in (g :: gs, e, r)
          | None => ([], false, s)
          end
      end
  end.

Definition ipv6_of (groups : list Z) : Z := foldl (λ a g, a * 65536 + g) 0 groups.

Definition read_ipv6 (s : bytes) : option (Z * bytes) :=
  let '(head, v4, r) := read_groups 8 0 s in
  if bool_decide (length head = 8%nat) then Some (ipv6_of head, r)
  else if v4 : bool then None
  else
    r ← read_char x3a r;
    r ← read_char x3a r;
    let '(tail, _, r) := read_groups (7 - length head) 0 r in
    Some (ipv6_of (head ++ replicate (8 - length head - length tail) 0 ++ tail), r).

Definition parse_ip (s : bytes) : option IpAddr :=
  match read_ipv4 s with
  | Some (v, r) => match r with [] => Some (IpV4 v) | _ => None end
  | None => '(v, r) ← read_ipv6 s; match r with [] => Some (IpV6 v) | _ => None end
  end.

Example parse_ip_samples :
  map parse_ip (map bs ["10.0.0.1"; "10.0.0.256"; "010.0.0.1"; "::"; "::1"; "fe80::1:2"; "1:2:3:4:5:6:7:8"; "::ffff:1.2.3.4";
    "1:2:3:4:5:6:7::"; "1:2"; ":::"; "10.0.0.1 "]%string) =
  [Some (IpV4 167772161); None; None; Some (IpV6 0); Some (IpV6 1); Some (IpV6 (65152 * 2 ^ 112 + 65538));
   Some (IpV6 5192455318486707404433266433261576); Some (IpV6 (65535 * 2 ^ 32 + 16909060));
   Some (IpV6 5192455318486707404433266433261568); None; None; None].
Proof. vm_compute. reflexivity. Qed.

(** * Arguments *)

Inductive Backend := Auto | Iptables.

Record InitParams := {
  ip_proxy_uid : Z;
  ip_inbound_port : Z;
  ip_outbound_port : Z;
  ip_ignore_inbound_ports : list Z;
  ip_ignore_outbound_ports : list Z;
  ip_skip_subnets : list bytes;
  ip_backend : Backend;
  ip_dry_run : bool;
}.

Definition init_default : InitParams := {|
  ip_proxy_uid := 65534; ip_inbound_port := 4143; ip_outbound_port := 4140;
  ip_ignore_inbound_ports := [4191]; ip_ignore_outbound_ports := [443];
  ip_skip_subnets := []; ip_backend := Auto; ip_dry_run := false |}.

Inductive ArgError :=
| NeedsValue (flag : bytes)
| InvalidNumber (s : bytes)
| InvalidPort (s : bytes)
| InvalidSubnet (s : bytes)
| UnknownBackend (s : bytes)
| UnknownFlag (s : bytes)
| MissingUid.

Definition parse_num (s : bytes) : result ArgError Z := ok_or (parse_uint 32 s) (InvalidNumber s).

Definition parse_port (s : bytes) : result ArgError Z :=
  match parse_uint 16 s with
  | Some p => if p =? 0 then Err (InvalidPort s) else Ok p
  | None => Err (InvalidPort s)
  end.

(** [iter.map(f).collect::<Result<Vec<_>, _>>()]. *)
Fixpoint try_map {A B E} (f : A → result E B) (l : list A) : result E (list B) :=
  match l with
  | [] => Ok []
  | x :: l => y ← f x; ys ← try_map f l; Ok (y :: ys)
  end.

Definition nonempty_trimmed (s : bytes) : bool := negb (bool_decide (trim s = [])).

Definition parse_ports (s : bytes) : result ArgError (list Z) :=
  try_map (λ x, parse_port (trim x)) (List.filter nonempty_trimmed (split_on x2c s)).

Definition parse_subnet (cidr : bytes) : result ArgError bytes :=
  match split_once x2f cidr with
  | Some (addr, mask) =>
      a ← ok_or (parse_ip addr) (InvalidSubnet cidr);
      let max := match a with IpV4 _ => 32 | IpV6 _ => 128 end in
      match parse_uint 32 mask with
      | Some m => if m <=? max then Ok cidr else Err (InvalidSubnet cidr)
      | None => Err (InvalidSubnet cidr)
      end
  | None => _ ← ok_or (parse_ip cidr) (InvalidSubnet cidr); Ok cidr
  end.

Definition parse_subnets (s : bytes) : result ArgError (list bytes) :=
  try_map parse_subnet (List.filter (λ x, negb (bool_decide (x = []))) (map trim (split_on x2c s))).

(** [--flag=value] or [--flag]. *)
Definition split_flag (arg : bytes) : bytes * option bytes :=
  match split_once x3d arg with
  | Some (f, v) => if starts_with (bs "--") f then (f, Some v) else (arg, None)
  | None => (arg, None)
  end.

(** [next]: the inline value, or the following argument. *)
Definition next_value (flag : bytes) (inline : option bytes) (argv : list bytes) : result ArgError (bytes * list bytes) :=
  match inline with
  | Some v => Ok (v, argv)
  | None => match argv with v :: argv => Ok (v, argv) | [] => Err (NeedsValue flag) end
  end.

Definition with_inbound (port : Z) (p : InitParams) : InitParams := {|
  ip_proxy_uid := ip_proxy_uid p; ip_inbound_port := port; ip_outbound_port := ip_outbound_port p;
  ip_ignore_inbound_ports := ip_ignore_inbound_ports p; ip_ignore_outbound_ports := ip_ignore_outbound_ports p;
  ip_skip_subnets := ip_skip_subnets p; ip_backend := ip_backend p; ip_dry_run := ip_dry_run p |}.
Definition with_outbound (port : Z) (p : InitParams) : InitParams := {|
  ip_proxy_uid := ip_proxy_uid p; ip_inbound_port := ip_inbound_port p; ip_outbound_port := port;
  ip_ignore_inbound_ports := ip_ignore_inbound_ports p; ip_ignore_outbound_ports := ip_ignore_outbound_ports p;
  ip_skip_subnets := ip_skip_subnets p; ip_backend := ip_backend p; ip_dry_run := ip_dry_run p |}.
Definition with_ignore_in (ports : list Z) (p : InitParams) : InitParams := {|
  ip_proxy_uid := ip_proxy_uid p; ip_inbound_port := ip_inbound_port p; ip_outbound_port := ip_outbound_port p;
  ip_ignore_inbound_ports := ports; ip_ignore_outbound_ports := ip_ignore_outbound_ports p;
  ip_skip_subnets := ip_skip_subnets p; ip_backend := ip_backend p; ip_dry_run := ip_dry_run p |}.
Definition with_ignore_out (ports : list Z) (p : InitParams) : InitParams := {|
  ip_proxy_uid := ip_proxy_uid p; ip_inbound_port := ip_inbound_port p; ip_outbound_port := ip_outbound_port p;
  ip_ignore_inbound_ports := ip_ignore_inbound_ports p; ip_ignore_outbound_ports := ports;
  ip_skip_subnets := ip_skip_subnets p; ip_backend := ip_backend p; ip_dry_run := ip_dry_run p |}.
Definition with_subnets (subnets : list bytes) (p : InitParams) : InitParams := {|
  ip_proxy_uid := ip_proxy_uid p; ip_inbound_port := ip_inbound_port p; ip_outbound_port := ip_outbound_port p;
  ip_ignore_inbound_ports := ip_ignore_inbound_ports p; ip_ignore_outbound_ports := ip_ignore_outbound_ports p;
  ip_skip_subnets := subnets; ip_backend := ip_backend p; ip_dry_run := ip_dry_run p |}.
Definition with_backend (backend : Backend) (p : InitParams) : InitParams := {|
  ip_proxy_uid := ip_proxy_uid p; ip_inbound_port := ip_inbound_port p; ip_outbound_port := ip_outbound_port p;
  ip_ignore_inbound_ports := ip_ignore_inbound_ports p; ip_ignore_outbound_ports := ip_ignore_outbound_ports p;
  ip_skip_subnets := ip_skip_subnets p; ip_backend := backend; ip_dry_run := ip_dry_run p |}.
Definition with_dry_run (p : InitParams) : InitParams := {|
  ip_proxy_uid := ip_proxy_uid p; ip_inbound_port := ip_inbound_port p; ip_outbound_port := ip_outbound_port p;
  ip_ignore_inbound_ports := ip_ignore_inbound_ports p; ip_ignore_outbound_ports := ip_ignore_outbound_ports p;
  ip_skip_subnets := ip_skip_subnets p; ip_backend := ip_backend p; ip_dry_run := true |}.
Definition with_uid (uid : Z) (p : InitParams) : InitParams := {|
  ip_proxy_uid := uid; ip_inbound_port := ip_inbound_port p; ip_outbound_port := ip_outbound_port p;
  ip_ignore_inbound_ports := ip_ignore_inbound_ports p; ip_ignore_outbound_ports := ip_ignore_outbound_ports p;
  ip_skip_subnets := ip_skip_subnets p; ip_backend := ip_backend p; ip_dry_run := ip_dry_run p |}.

Definition parse_backend (s : bytes) : result ArgError Backend :=
  if bool_decide (s = bs "auto") then Ok Auto
  else if bool_decide (s = bs "iptables") then Ok Iptables
  else Err (UnknownBackend s).

(** A flag that takes a value: what it does to the parameters and the uid. *)
Definition flag_effect (flag : bytes) : option (bytes → InitParams * option Z → result ArgError (InitParams * option Z)) :=
  let on_params (f : bytes → result ArgError (InitParams → InitParams)) :=
    Some (λ (v : bytes) (st : InitParams * option Z), g ← f v; Ok (g st.1, st.2)) in
  if bool_decide (flag = bs "--proxy-uid") then Some (λ v st, uid ← parse_num v; Ok (st.1, Some uid))
  else if bool_decide (flag = bs "--inbound-port") then on_params (λ v, p ← parse_port v; Ok (with_inbound p))
  else if bool_decide (flag = bs "--outbound-port") then on_params (λ v, p ← parse_port v; Ok (with_outbound p))
  else if bool_decide (flag = bs "--ignore-inbound-ports") then on_params (λ v, p ← parse_ports v; Ok (with_ignore_in p))
  else if bool_decide (flag = bs "--ignore-outbound-ports") then on_params (λ v, p ← parse_ports v; Ok (with_ignore_out p))
  else if bool_decide (flag = bs "--skip-subnets") then on_params (λ v, s ← parse_subnets v; Ok (with_subnets s))
  else if bool_decide (flag = bs "--backend") then on_params (λ v, b ← parse_backend v; Ok (with_backend b))
  else None.

Fixpoint parse_loop (fuel : nat) (argv : list bytes) (st : InitParams * option Z)
    : result ArgError (InitParams * option Z) :=
  match fuel, argv with
  | _, [] | O, _ => Ok st
  | S fuel, arg :: argv =>
      let '(flag, inline) := split_flag arg in
      match flag_effect flag with
      | Some effect =>
          '(v, argv) ← next_value flag inline argv;
          st ← effect v st;
          parse_loop fuel argv st
      | None =>
          if bool_decide (flag = bs "--dry-run") && bool_decide (inline = None)
          then parse_loop fuel argv (with_dry_run st.1, st.2)
          else Err (UnknownFlag flag)
      end
  end.

(** Every turn takes at least one argument. *)
Definition parse_args (argv : list bytes) : result ArgError InitParams :=
  '(p, uid) ← parse_loop (length argv) argv (init_default, None);
  uid ← ok_or uid MissingUid;
  Ok (with_uid uid p).

(** * The plan *)

Definition CHAIN_IN : bytes := bs "OPENRUSTY_IN".
Definition CHAIN_OUT : bytes := bs "OPENRUSTY_OUT".
Definition COMMENT : bytes := bs "openrusty-init".
Definition PROBE_CHAIN : bytes := bs "OPENRUSTY_PROBE".

(** One line of the plan is its words joined by spaces. *)
Definition nat_command (words : list bytes) : bytes := join [x20] (bs "iptables" :: bs "-t" :: bs "nat" :: words).

Definition comment_words : list bytes := [bs "-m"; bs "comment"; bs "--comment"; COMMENT].
Definition jump_words (target : bytes) : list bytes := comment_words ++ [bs "-j"; target].

Definition chain_setup (chain hook : bytes) : list (list bytes) := [
  [bs "-N"; chain];
  [bs "-F"; chain];
  [bs "-C"; hook] ++ jump_words chain;
  [bs "-I"; hook] ++ jump_words chain].

(** The matches of the rules of a chain, in order. *)
Definition tcp (matches : list bytes) (target : list bytes) : list bytes :=
  [bs "-p"; bs "tcp"] ++ matches ++ comment_words ++ [bs "-j"] ++ target.

Definition return_rule (matches : list bytes) : list bytes := tcp matches [bs "RETURN"].
Definition redirect_rule (port : Z) : list bytes := tcp [] [bs "REDIRECT"; bs "--to-ports"; fmt_dec port].
Definition dport (port : Z) : list bytes := [bs "--dport"; fmt_dec port].

Definition in_rules (p : InitParams) : list (list bytes) :=
  [return_rule [bs "-i"; bs "lo"]] ++
  map (λ port, return_rule (dport port)) (ip_ignore_inbound_ports p) ++
  [redirect_rule (ip_inbound_port p)].

Definition out_rules (p : InitParams) : list (list bytes) :=
  [return_rule [bs "-o"; bs "lo"];
   return_rule [bs "-m"; bs "owner"; bs "--uid-owner"; fmt_dec (ip_proxy_uid p)]] ++
  map (λ port, return_rule (dport port)) (ip_ignore_outbound_ports p) ++
  map (λ subnet, return_rule [bs "-d"; subnet]) (ip_skip_subnets p) ++
  [redirect_rule (ip_outbound_port p)].

Definition append_to (chain : bytes) (rule : list bytes) : list bytes := [bs "-A"; chain] ++ rule.

Definition plan (p : InitParams) : list (list bytes) :=
  chain_setup CHAIN_IN (bs "PREROUTING") ++ map (append_to CHAIN_IN) (in_rules p) ++
  chain_setup CHAIN_OUT (bs "OUTPUT") ++ map (append_to CHAIN_OUT) (out_rules p).

Definition build_rules (p : InitParams) : list bytes := map nat_command (plan p).

(** * Execution *)

Section execution.
(** The machine the commands run on, and what one process does to it. *)
Context {Machine : Type}.
Context (exec : bytes → list bytes → Machine → result bytes () * Machine).
Context (conntrack_present : Machine → bool).

Record Abort := { ab_index : nat; ab_error : bytes; ab_executed : nat; ab_rule : bytes }.

(** The loop of [exec_plan] from command [idx]. *)
Fixpoint exec_from (bin : bytes) (idx : nat) (rules : list bytes) (skip_insert : bool) (executed appended : nat)
    (m : Machine) : result Abort (nat * nat) * Machine :=
  match rules with
  | [] => (Ok (executed, appended), m)
  | rule :: rules =>
      let words := split_on x20 rule in
      let op := default [] (words !! 3%nat) in
      if skip_insert && bool_decide (op = bs "-I") then exec_from bin (S idx) rules false (S executed) appended m
      else
        let '(outcome, m) := exec bin (tail words) m in
        match outcome with
        | Err e =>
            if bool_decide (op = bs "-N") || bool_decide (op = bs "-C")
            then exec_from bin (S idx) rules false (S executed) appended m
            else (Err {| ab_index := S idx; ab_error := e; ab_executed := executed; ab_rule := rule |}, m)
        | Ok _ =>
            exec_from bin (S idx) rules (bool_decide (op = bs "-C")) (S executed)
              (if bool_decide (op = bs "-A") then S appended else appended) m
        end
  end.

Definition exec_plan (bin : bytes) (rules : list bytes) (m : Machine) : result Abort (nat * nat) * Machine :=
  exec_from bin 0 rules false 0 0 m.

Fixpoint probe_backends (names : list bytes) (m : Machine) : option bytes * Machine :=
  match names with
  | [] => (None, m)
  | name :: names =>
      let '(r, m) := exec name [bs "--version"] m in
      if is_ok r then (Some name, m) else probe_backends names m
  end.

Definition detect_backend (backend : Backend) (m : Machine) : option bytes * Machine :=
  probe_backends (match backend with
                  | Iptables => [bs "iptables"]
                  | Auto => [bs "iptables"; bs "iptables-nft"; bs "iptables-legacy"]
                  end) m.

Definition check_conntrack (m : Machine) : bool * Machine :=
  if conntrack_present m then (true, m)
  else let '(r, m) := exec (bs "modprobe") [bs "nf_conntrack"] m in (is_ok r, m).

Definition nat_words (words : list bytes) : list bytes := bs "-t" :: bs "nat" :: words.

Definition check_redirect (bin : bytes) (m : Machine) : bool * Machine :=
  let '(_, m) := exec bin (nat_words [bs "-N"; PROBE_CHAIN]) m in
  let '(r, m) := exec bin (nat_words (append_to PROBE_CHAIN (redirect_rule 1))) m in
  let '(_, m) := exec bin (nat_words [bs "-F"; PROBE_CHAIN]) m in
  let '(_, m) := exec bin (nat_words [bs "-X"; PROBE_CHAIN]) m in
  (is_ok r, m).

Inductive InitError := NoBackend | NoConntrack | NoRedirect | PlanAborted (a : Abort).

(** The printed lines, and the machine afterwards. *)
Definition run (p : InitParams) (m : Machine) : result InitError (list bytes) * Machine :=
  let rules := build_rules p in
  if ip_dry_run p then (Ok rules, m)
  else
    match detect_backend (ip_backend p) m with
    | (None, m) => (Err NoBackend, m)
    | (Some bin, m) =>
        match check_conntrack m with
        | (false, m) => (Err NoConntrack, m)
        | (true, m) =>
            match check_redirect bin m with
            | (false, m) => (Err NoRedirect, m)
            | (true, m) =>
                match exec_plan bin rules m with
                | (Err a, m) => (Err (PlanAborted a), m)
                | (Ok _, m) => (Ok [], m)
                end
            end
        end
    end.

(** The exit code of the subcommand. *)
Definition run_cli (argv : list bytes) (m : Machine) : Z * Machine :=
  if existsb (λ a, bool_decide (a = bs "-h") || bool_decide (a = bs "--help")) argv then (0, m)
  else
    match parse_args argv with
    | Err _ => (2, m)
    | Ok p => match run p m with (Ok _, m) => (0, m) | (Err _, m) => (1, m) end
    end.
End execution.

(** * What the plan does to the nat table *)

Lemma join_words_split words : words ≠ [] → Forall (λ w, x20 ∉ w) words → split_on x20 (join [x20] words) = words.
Proof. apply split_on_joined. Qed.

Definition word_ok (w : bytes) : Prop := x20 ∉ w.

Definition word_okb (w : bytes) : bool := forallb (λ b, negb (bool_decide (b = x20))) w.

Lemma word_okb_ok w : word_okb w = true → word_ok w.
Proof.
  unfold word_okb, word_ok. intros H Hin%list_elem_of_In. rewrite forallb_forall in H. apply H in Hin.
  by rewrite bool_decide_true in Hin.
Qed.

Lemma const_words ws : forallb word_okb ws = true → Forall word_ok ws.
Proof.
  intros H. apply Forall_forall. intros w Hw%list_elem_of_In. rewrite forallb_forall in H. by apply word_okb_ok, H.
Qed.

Lemma nat_command_split words : Forall word_ok words →
  split_on x20 (nat_command words) = bs "iptables" :: nat_words words.
Proof.
  intros Hw. unfold nat_command. apply split_on_joined; [done|].
  apply (Forall_app_2 word_ok [bs "iptables"; bs "-t"; bs "nat"]); [by apply const_words; vm_compute|done].
Qed.

(** ** Arguments hold no spaces *)

Definition eats (s r : bytes) : Prop := ∃ f, s = f ++ r ∧ word_ok f.

Lemma eats_refl s : eats s s.
Proof. exists []. split; [done|]. apply not_elem_of_nil. Qed.

Lemma eats_trans s t r : eats s t → eats t r → eats s r.
Proof.
  intros (f & -> & Hf) (g & -> & Hg). exists (f ++ g). split; [by rewrite app_assoc|].
  unfold word_ok in *. rewrite elem_of_app. tauto.
Qed.

Lemma eats_all s : eats s [] → word_ok s.
Proof. intros (f & -> & Hf). by rewrite app_nil_r. Qed.

Lemma eats_byte b r : b ≠ x20 → eats (b :: r) r.
Proof. intros Hb. exists [b]. split; [done|]. unfold word_ok. rewrite list_elem_of_singleton. congruence. Qed.

Lemma read_digits_eats radix bound max v count s v' count' r :
  read_digits radix bound max v count s = Some (v', count', r) → eats s r.
Proof.
  revert max v count. induction s as [|b s IH]; intros max v count; cbn [read_digits].
  { intros [= _ _ <-]. apply eats_refl. }
  destruct (radix_digit radix b) as [d|] eqn:Ed; [|intros [= _ _ <-]; apply eats_refl].
  destruct (v * radix + d <? bound); [|done]. destruct max as [|max]; [done|]. intros H%IH.
  eapply eats_trans; [|exact H]. apply eats_byte. by intros ->.
Qed.

Lemma read_number_eats radix bound max zero s v r : read_number radix bound max zero s = Some (v, r) → eats s r.
Proof.
  unfold read_number. intros ([[v' c'] r'] & Hd & H)%bind_Some. case_bool_decide; [done|].
  destruct (_ && _); [done|]. injection H as [= -> ->]. by eapply read_digits_eats.
Qed.

Lemma read_char_eats c s r : c ≠ x20 → read_char c s = Some r → eats s r.
Proof. intros Hc Hs. apply strip_prefix_Some in Hs as ->. by apply eats_byte. Qed.

Lemma read_separator_eats {A} c i (read : bytes → option (A * bytes)) s v r : c ≠ x20 →
  (∀ s v r, read s = Some (v, r) → eats s r) → read_separator c i read s = Some (v, r) → eats s r.
Proof.
  intros Hc Hread. destruct i as [|i]; cbn [read_separator]; [apply Hread|].
  intros (t & Ht & H)%bind_Some. eapply eats_trans; [by eapply read_char_eats|by eapply Hread].
Qed.

Lemma read_octet_eats i s v r : read_octet i s = Some (v, r) → eats s r.
Proof. apply read_separator_eats; [done|]. intros ???. apply read_number_eats. Qed.

Lemma read_ipv4_eats s v r : read_ipv4 s = Some (v, r) → eats s r.
Proof.
  unfold read_ipv4. intros ([a s1] & H1 & ([b s2] & H2 & ([c s3] & H3 & ([d s4] & H4 & [= _ <-])%bind_Some)%bind_Some)%bind_Some)%bind_Some.
  apply read_octet_eats in H1, H2, H3, H4. eauto using eats_trans.
Qed.

Lemma read_groups_eats left i s gs e r : read_groups left i s = (gs, e, r) → eats s r.
Proof.
  revert i s gs e r. induction left as [|left IH]; intros i s gs e r; cbn [read_groups].
  { intros [= _ _ <-]. apply eats_refl. }
  destruct (if bool_decide _ then None else _) as [[v r']|] eqn:E4.
  { intros [= _ _ <-]. case_bool_decide; [done|]. by eapply (read_separator_eats x3a i read_ipv4); [|apply read_ipv4_eats|]. }
  destruct (read_separator x3a i (read_number 16 65536 4 true) s) as [[g r']|] eqn:E.
  - destruct (read_groups left (S i) r') as [[gs' e'] r''] eqn:Eg. intros [= _ _ <-]. apply IH in Eg.
    eapply eats_trans; [|exact Eg]. eapply read_separator_eats; [|apply read_number_eats|exact E]. done.
  - intros [= _ _ <-]. apply eats_refl.
Qed.

Lemma read_ipv6_eats s v r : read_ipv6 s = Some (v, r) → eats s r.
Proof.
  unfold read_ipv6. destruct (read_groups 8 0 s) as [[head v4] r1] eqn:Eh. apply read_groups_eats in Eh.
  case_bool_decide; [by intros [= _ <-]|]. destruct v4; [done|].
  intros (r2 & H2 & (r3 & H3 & Hr)%bind_Some)%bind_Some. apply read_char_eats in H2, H3; try done.
  destruct (read_groups (7 - length head) 0 r3) as [[tl e] r4] eqn:Et. apply read_groups_eats in Et.
  injection Hr as [= _ <-]. eauto using eats_trans.
Qed.

Lemma parse_ip_word s a : parse_ip s = Some a → word_ok s.
Proof.
  unfold parse_ip. destruct (read_ipv4 s) as [[v [|b r]]|] eqn:E4; [intros _|done|].
  { by apply eats_all, (read_ipv4_eats s v). }
  intros ([v [|b r]] & E6 & H)%bind_Some; [|done]. by apply eats_all, (read_ipv6_eats s v).
Qed.

Lemma parse_digits_word bound s v n : parse_digits bound s v = Some n → word_ok s.
Proof.
  revert v. induction s as [|b s IH]; intros v; cbn [parse_digits]; [intros _; apply not_elem_of_nil|].
  destruct (is_ascii_digit b) eqn:Eb; [|done]. cbn [negb]. destruct (_ <? bound); [|done]. intros H%IH.
  unfold word_ok. rewrite not_elem_of_cons. split; [|done]. by intros <-.
Qed.

Lemma parse_uint_word w s n : parse_uint w s = Some n → word_ok s.
Proof.
  unfold parse_uint. destruct (strip_prefix (bs "+") s) as [r|] eqn:E; cbn [default from_option]; unfold id.
  - apply strip_prefix_Some in E as ->. destruct r as [|b r]; [done|]. intros H%parse_digits_word.
    unfold word_ok in *. simpl. rewrite not_elem_of_cons. by split.
  - destruct s as [|b s]; [done|]. apply parse_digits_word.
Qed.

Lemma parse_subnet_word cidr c : parse_subnet cidr = Ok c → c = cidr ∧ word_ok cidr.
Proof.
  unfold parse_subnet. destruct (split_once x2f cidr) as [[addr mask]|] eqn:E.
  - apply split_once_Some in E as [-> _]. intros (a & Ha & H)%bind_ok. unfold ok_or in Ha.
    destruct (parse_ip addr) as [a'|] eqn:Eip; [|done]. destruct (parse_uint 32 mask) as [m|] eqn:Em; [|done].
    destruct (m <=? _); [|done]. injection H as [= <-]. split; [done|].
    apply parse_ip_word in Eip. apply parse_uint_word in Em. unfold word_ok in *.
    rewrite elem_of_app, elem_of_cons. intros [?|[?|?]]; done.
  - intros (a & Ha & [= <-])%bind_ok. unfold ok_or in Ha. destruct (parse_ip cidr) eqn:Eip; [|done].
    split; [done|]. by eapply parse_ip_word.
Qed.

Lemma try_map_ok {A B E} (f : A → result E B) l ys : try_map f l = Ok ys ↔ Forall2 (λ x y, f x = Ok y) l ys.
Proof.
  revert ys. induction l as [|x l IH]; intros ys; cbn [try_map].
  { split; [intros [= <-]; constructor|]. by intros ->%Forall2_nil_inv_l. }
  rewrite bind_ok. setoid_rewrite bind_ok. split.
  - intros (y & Hy & ys' & Hys & [= <-]). constructor; [done|]. by apply IH.
  - intros (y & ys' & Hy & Hys & ->)%Forall2_cons_inv_l. exists y. split; [done|]. exists ys'. split; [|done]. by apply IH.
Qed.

Lemma parse_subnets_words s l : parse_subnets s = Ok l → Forall word_ok l ∧ Forall (λ c, c ≠ bs "-j") l.
Proof.
  unfold parse_subnets. intros H%try_map_ok. rewrite <-Forall_and. apply Forall_forall.
  intros c (i & Hi)%list_elem_of_lookup. destruct (Forall2_lookup_r _ _ _ _ _ H Hi) as (x & _ & Hx).
  split; [by apply parse_subnet_word in Hx as [-> ?]|]. intros ->.
  destruct (parse_subnet_word _ _ Hx) as [<- _]. done.
Qed.

Lemma parse_uint_range w s n : 0 <= w → parse_uint w s = Some n → 0 <= n < 2 ^ w.
Proof.
  intros Hw. unfold parse_uint. destruct (default _ _) as [|b r]; [done|]. intros H%parse_digits_range; [done|done|].
  by apply Z.pow_pos_nonneg.
Qed.

Lemma parse_port_ok s n : parse_port s = Ok n → 0 < n < 2 ^ 16.
Proof.
  unfold parse_port. destruct (parse_uint 16 s) as [m|] eqn:E; [|done]. destruct (Z.eqb_spec m 0); [done|].
  intros [= <-]. apply parse_uint_range in E; lia.
Qed.

Lemma parse_ports_ok s l : parse_ports s = Ok l → Forall (λ port, 0 <= port < 2 ^ 16) l.
Proof.
  unfold parse_ports. intros H%try_map_ok. apply Forall_forall. intros c (i & Hi)%list_elem_of_lookup.
  destruct (Forall2_lookup_r _ _ _ _ _ H Hi) as (x & _ & Hx). apply parse_port_ok in Hx. lia.
Qed.

(** What parsing guarantees of the parameters. *)
Record params_ok (p : InitParams) : Prop := {
  po_words : Forall word_ok (ip_skip_subnets p);
  po_subnets : Forall (λ s, s ≠ bs "-j") (ip_skip_subnets p);
  po_in : Forall (λ port, 0 <= port < 2 ^ 16) (ip_ignore_inbound_ports p);
  po_out : Forall (λ port, 0 <= port < 2 ^ 16) (ip_ignore_outbound_ports p);
}.

Definition uid_ok (uid : option Z) : Prop := from_option (λ u, 0 <= u < 2 ^ 32) True uid.

Lemma flag_effect_ok flag effect v st st' : flag_effect flag = Some effect → effect v st = Ok st' →
  params_ok st.1 ∧ uid_ok st.2 → params_ok st'.1 ∧ uid_ok st'.2.
Proof.
  unfold flag_effect. repeat (case_bool_decide; [intros [= <-]|]); try done.
  all: intros (g & Hg & [= <-])%bind_ok [[Hw Hs Hi Ho] Hu]; cbn [fst snd].
  { split; [done|]. unfold parse_num, ok_or in Hg. destruct (parse_uint 32 v) eqn:E; [|done].
    injection Hg as [= ->]. by apply parse_uint_range in E. }
  all: apply bind_ok in Hg as (y & Hy & [= <-]); (split; [|done]).
  3, 4: apply parse_ports_ok in Hy.
  5: apply parse_subnets_words in Hy as [Hy1 Hy2].
  all: by constructor.
Qed.

Lemma parse_loop_ok fuel argv st st' : parse_loop fuel argv st = Ok st' →
  params_ok st.1 ∧ uid_ok st.2 → params_ok st'.1 ∧ uid_ok st'.2.
Proof.
  revert argv st. induction fuel as [|fuel IH]; intros argv st; [destruct argv; by intros [= <-]|].
  destruct argv as [|arg argv]; [by intros [= <-]|]. cbn [parse_loop].
  destruct (split_flag arg) as [flag inline]. destruct (flag_effect flag) as [effect|] eqn:Ee.
  - intros ([v argv'] & _ & (st1 & He & Hl)%bind_ok)%bind_ok Hs. eapply IH; [exact Hl|]. by eapply flag_effect_ok.
  - destruct (_ && _); [|done]. intros Hl [[Hw Hs Hi Ho] Hu]. eapply IH; [exact Hl|]. split; [by constructor|done].
Qed.

Lemma parse_args_ok argv p : parse_args argv = Ok p → params_ok p ∧ 0 <= ip_proxy_uid p < 2 ^ 32.
Proof.
  unfold parse_args. intros ([p' uid] & Hl & (u & Hu & [= <-])%bind_ok)%bind_ok.
  apply parse_loop_ok in Hl as [[Hw Hs Hi Ho] Huid]; [|split; [|done]; by repeat constructor].
  unfold ok_or in Hu. cbn [snd] in Huid. destruct uid; [|done]. injection Hu as [= ->]. split; [by constructor|done].
Qed.

(** The chains of the nat table, each a list of rules, a rule its words. *)
Abbreviation Table := (gmap bytes (list (list bytes))).

Section convergence.
Context {Machine : Type} (exec : bytes → list bytes → Machine → result bytes () * Machine) (bin : bytes).


(** The chains of the nat table, and what iptables documents of its commands: each
    has its effect, or fails without one. *)
Class NatTable := {
  table : Machine → Table;
  new_chain : ∀ chain m, match exec bin (nat_words [bs "-N"; chain]) m with
    | (Ok _, m') => table m !! chain = None ∧ table m' = <[chain := []]> (table m)
    | (Err _, m') => table m' = table m
    end;
  flush_chain : ∀ chain m, match exec bin (nat_words [bs "-F"; chain]) m with
    | (Ok _, m') => is_Some (table m !! chain) ∧ table m' = <[chain := []]> (table m)
    | (Err _, m') => table m' = table m
    end;
  delete_chain : ∀ chain m, match exec bin (nat_words [bs "-X"; chain]) m with
    | (Ok _, m') => table m !! chain = Some [] ∧ table m' = delete chain (table m)
    | (Err _, m') => table m' = table m
    end;
  check_rule : ∀ chain rule m, match exec bin (nat_words ([bs "-C"; chain] ++ rule)) m with
    | (Ok _, m') => (∃ rs, table m !! chain = Some rs ∧ rule ∈ rs) ∧ table m' = table m
    | (Err _, m') => (∀ rs, table m !! chain = Some rs → rule ∉ rs) ∧ table m' = table m
    end;
  insert_rule : ∀ chain rule m, match exec bin (nat_words ([bs "-I"; chain] ++ rule)) m with
    | (Ok _, m') => ∃ rs, table m !! chain = Some rs ∧ table m' = <[chain := rule :: rs]> (table m)
    | (Err _, m') => table m' = table m
    end;
  append_rule : ∀ chain rule m, match exec bin (nat_words (append_to chain rule)) m with
    | (Ok _, m') => ∃ rs, table m !! chain = Some rs ∧ table m' = <[chain := rs ++ [rule]]> (table m)
    | (Err _, m') => table m' = table m
    end;
}.
Context `{!NatTable}.

(** The hook's chain with the jump in front, unless it is there. *)
Definition hooked (hook : bytes) (rule : list bytes) (t : Table) : Table :=
  match t !! hook with
  | Some rs => if bool_decide (rule ∈ rs) then t else <[hook := rule :: rs]> t
  | None => t
  end.

Definition installed (chain hook : bytes) (rules : list (list bytes)) (t : Table) : Table :=
  <[chain := rules]> (hooked hook (jump_words chain) (<[chain := []]> t)).

(** The table [iptables-init] converges to. *)
Definition desired (p : InitParams) (t : Table) : Table :=
  installed CHAIN_OUT (bs "OUTPUT") (out_rules p) (installed CHAIN_IN (bs "PREROUTING") (in_rules p) t).

Definition untouched (chains : list bytes) (t t' : Table) : Prop := ∀ c, c ∉ chains → t' !! c = t !! c.

Lemma exec_from_nat idx words rules skip executed appended m : Forall word_ok words →
  exec_from exec bin idx (nat_command words :: rules) skip executed appended m =
  (let op := default [] (words !! 0%nat) in
   if skip && bool_decide (op = bs "-I") then exec_from exec bin (S idx) rules false (S executed) appended m
   else
     match exec bin (nat_words words) m with
     | (Err e, m) =>
         if bool_decide (op = bs "-N") || bool_decide (op = bs "-C")
         then exec_from exec bin (S idx) rules false (S executed) appended m
         else (Err {| ab_index := S idx; ab_error := e; ab_executed := executed; ab_rule := nat_command words |}, m)
     | (Ok _, m) =>
         exec_from exec bin (S idx) rules (bool_decide (op = bs "-C")) (S executed)
           (if bool_decide (op = bs "-A") then S appended else appended) m
     end).
Proof using Type.
  intros Hw. cbn [exec_from]. rewrite nat_command_split by done.
  change (default [] ((bs "iptables" :: nat_words words) !! 3%nat)) with (default [] (words !! 0%nat)).
  cbn [tail]. case_match; [done|]. by destruct (exec bin (nat_words words) m) as [[?|?] ?].
Qed.

Lemma exec_appends chain rl : word_ok chain → Forall (Forall word_ok) rl →
  ∀ rest idx executed appended m rs, table m !! chain = Some rs →
  let run := exec_from exec bin idx (map nat_command (map (append_to chain) rl) ++ rest) false executed appended m in
  (∃ a m', run = (Err a, m') ∧ untouched [chain] (table m) (table m')) ∨
  ∃ m', table m' = <[chain := rs ++ rl]> (table m) ∧
    run = exec_from exec bin (idx + length rl) rest false (executed + length rl) (appended + length rl) m'.
Proof using Type.
  intros Hc Hrl. induction Hrl as [|r rl Hr Hrl IH]; intros rest idx executed appended m rs Hm; cbn [map app].
  { right. exists m. split; [by rewrite app_nil_r, insert_id|]. cbn [length]. by rewrite !Nat.add_0_r. }
  rewrite exec_from_nat by (by constructor; [apply word_okb_ok; vm_compute|constructor]).
  cbn [append_to app lookup list_lookup default andb]. pose proof (append_rule chain r m) as Ha.
  change (nat_words (bs "-A" :: chain :: r)) with (nat_words (append_to chain r)).
  destruct (exec bin (nat_words (append_to chain r)) m) as [[?|e] m1].
  - destruct Ha as (rs' & Hrs & Ht). rewrite Hm in Hrs. injection Hrs as [= <-].
    assert (table m1 !! chain = Some (rs ++ [r])) as Hm1 by (by rewrite Ht, lookup_insert_eq).
    rewrite (bool_decide_true (default [] (Some (bs "-A")) = bs "-A")) by done.
    rewrite (bool_decide_false (default [] (Some (bs "-A")) = bs "-C")) by done.
    destruct (IH rest (S idx) (S executed) (S appended) m1 _ Hm1) as [(ab & m' & E & Hu)|(m' & E1 & E2)].
    + left. exists ab, m'. split; [exact E|]. intros c Hcn. rewrite (Hu c Hcn), Ht, lookup_insert_ne; [done|].
      apply not_elem_of_cons in Hcn as [? _]. done.
    + right. exists m'. split.
      * rewrite E1, Ht, insert_insert_eq. by rewrite <-app_assoc.
      * rewrite E2. f_equal; simpl; lia.
  - left. rewrite !bool_decide_false by done. cbn [orb]. eexists _, m1. split; [done|]. intros c _. by rewrite Ha.
Qed.

Lemma jump_words_ok chain : word_ok chain → Forall word_ok (jump_words chain).
Proof using Type.
  intros Hc. apply Forall_app. split; [apply const_words; vm_compute; reflexivity|].
  constructor; [apply word_okb_ok; vm_compute; reflexivity|by constructor].
Qed.

Lemma op_words_ok op chain rest : word_okb op = true → word_ok chain → Forall word_ok rest →
  Forall word_ok ([op; chain] ++ rest).
Proof using Type. intros Ho Hc Hr. constructor; [by apply word_okb_ok|by constructor]. Qed.

Lemma untouched_trans (cs : list bytes) (t1 t2 t3 : Table) : untouched cs t1 t2 → untouched cs t2 t3 → untouched cs t1 t3.
Proof using Type. intros Ha Hb c Hc. by rewrite Hb, Ha. Qed.

Lemma untouched_insert (cs : list bytes) (t : Table) c rs : c ∈ cs → untouched cs t (<[c := rs]> t).
Proof using Type. intros Hin d Hd. rewrite lookup_insert_ne; [done|]. by intros ->. Qed.

Lemma untouched_weaken (cs cs' : list bytes) (t t' : Table) : cs ⊆ cs' → untouched cs t t' → untouched cs' t t'.
Proof using Type. intros Hs Hu c Hc. apply Hu. intros Hin. by apply Hc, Hs. Qed.

(** The hook jump: the check and, unless it succeeds, the insert. *)
Lemma exec_hook chain hook : word_ok chain → word_ok hook →
  ∀ rest idx executed appended m,
  let run := exec_from exec bin idx (nat_command ([bs "-C"; hook] ++ jump_words chain) ::
    nat_command ([bs "-I"; hook] ++ jump_words chain) :: rest) false executed appended m in
  (∃ ab m', run = (Err ab, m') ∧ untouched [hook] (table m) (table m')) ∨
  ∃ m', table m' = hooked hook (jump_words chain) (table m) ∧
    run = exec_from exec bin (S (S idx)) rest false (S (S executed)) appended m'.
Proof using Type.
  intros Hc Hh rest idx executed appended m. pose proof (jump_words_ok chain Hc) as Hj. cbv zeta.
  rewrite exec_from_nat by (by apply op_words_ok). cbv zeta. cbn [app lookup list_lookup default from_option id andb].
  rewrite (bool_decide_true (bs "-C" = bs "-C")), (bool_decide_false (bs "-C" = bs "-A")) by done. rewrite orb_true_r.
  pose proof (check_rule hook (jump_words chain) m) as Hk. cbn [app] in Hk.
  destruct (exec bin (nat_words (bs "-C" :: hook :: jump_words chain)) m) as [[?|e] m1];
    (rewrite exec_from_nat by (by apply op_words_ok)); cbv zeta; cbn [app lookup list_lookup default from_option id andb].
  - destruct Hk as [(rs & Hrs & Hin) Ht]. rewrite bool_decide_true by done. right. exists m1. split; [|done].
    unfold hooked. by rewrite Hrs, bool_decide_true.
  - destruct Hk as [Hnot Ht]. rewrite (bool_decide_false (bs "-I" = bs "-C")), (bool_decide_false (bs "-I" = bs "-N")),
      (bool_decide_false (bs "-I" = bs "-A")) by done. cbn [orb].
    pose proof (insert_rule hook (jump_words chain) m1) as Hi. cbn [app] in Hi.
    destruct (exec bin (nat_words (bs "-I" :: hook :: jump_words chain)) m1) as [[?|e'] m2].
    + destruct Hi as (rs & Hrs & Ht2). right. exists m2. split; [|done]. rewrite Ht2, Ht. rewrite Ht in Hrs.
      unfold hooked. by rewrite Hrs, bool_decide_false by (by apply Hnot).
    + left. eexists _, m2. split; [done|]. intros c _. by rewrite Hi, Ht.
Qed.

Lemma exec_setup chain hook : word_ok chain → word_ok hook →
  ∀ rest idx executed appended m,
  let run := exec_from exec bin idx (map nat_command (chain_setup chain hook) ++ rest) false executed appended m in
  (∃ ab m', run = (Err ab, m') ∧ untouched [chain; hook] (table m) (table m')) ∨
  ∃ m', table m' = hooked hook (jump_words chain) (<[chain := []]> (table m)) ∧
    run = exec_from exec bin (S (S (S (S idx)))) rest false (S (S (S (S executed)))) appended m'.
Proof using Type.
  intros Hc Hh rest idx executed appended m. cbv zeta. unfold chain_setup. cbn [map app].
  assert (∀ m1, untouched [chain; hook] (table m) (table m1) → <[chain := []]> (table m1) = <[chain := []]> (table m) →
    let run := exec_from exec bin (S idx) (nat_command [bs "-F"; chain] :: nat_command ([bs "-C"; hook] ++ jump_words chain)
      :: nat_command ([bs "-I"; hook] ++ jump_words chain) :: rest) false (S executed) appended m1 in
    (∃ ab m', run = (Err ab, m') ∧ untouched [chain; hook] (table m) (table m')) ∨
    ∃ m', table m' = hooked hook (jump_words chain) (<[chain := []]> (table m)) ∧
      run = exec_from exec bin (S (S (S (S idx)))) rest false (S (S (S (S executed)))) appended m') as Hflush.
  { intros m1 Hu Hsame. cbv zeta. rewrite exec_from_nat by (by apply (op_words_ok (bs "-F") chain [])).
    cbv zeta. cbn [lookup list_lookup default from_option id andb].
    rewrite (bool_decide_false (bs "-F" = bs "-C")), (bool_decide_false (bs "-F" = bs "-N")),
      (bool_decide_false (bs "-F" = bs "-A")) by done. cbn [orb].
    pose proof (flush_chain chain m1) as Hf.
    destruct (exec bin (nat_words [bs "-F"; chain]) m1) as [[?|e] m2].
    - destruct Hf as [_ Ht2]. rewrite Hsame in Ht2.
      destruct (exec_hook chain hook Hc Hh rest (S (S idx)) (S (S executed)) appended m2)
        as [(ab & m' & E & Hu')|(m' & E1 & E2)].
      + left. exists ab, m'. split; [exact E|]. eapply untouched_trans; [|eapply untouched_weaken; [|exact Hu']].
        * rewrite Ht2. apply untouched_insert. by left.
        * intros c. rewrite !elem_of_cons. tauto.
      + right. exists m'. split; [by rewrite E1, Ht2|exact E2].
    - left. eexists _, m2. split; [done|]. by rewrite Hf. }
  rewrite exec_from_nat by (by apply (op_words_ok (bs "-N") chain [])).
  cbv zeta. cbn [lookup list_lookup default from_option id andb].
  rewrite (bool_decide_true (bs "-N" = bs "-N")), (bool_decide_false (bs "-N" = bs "-C")),
    (bool_decide_false (bs "-N" = bs "-A")) by done. cbn [orb].
  pose proof (new_chain chain m) as Hn. destruct (exec bin (nat_words [bs "-N"; chain]) m) as [[?|e] m1].
  - destruct Hn as [_ Ht]. apply Hflush; rewrite Ht; [apply untouched_insert; by left|apply insert_insert_eq].
  - apply Hflush; by rewrite Hn.
Qed.

Lemma exec_install chain hook rl : word_ok chain → word_ok hook → hook ≠ chain → Forall (Forall word_ok) rl →
  ∀ rest idx executed appended m,
  let run := exec_from exec bin idx (map nat_command (chain_setup chain hook) ++
    map nat_command (map (append_to chain) rl) ++ rest) false executed appended m in
  (∃ ab m', run = (Err ab, m') ∧ untouched [chain; hook] (table m) (table m')) ∨
  ∃ m', table m' = installed chain hook rl (table m) ∧
    run = exec_from exec bin (4 + idx + length rl) rest false (4 + executed + length rl) (appended + length rl) m'.
Proof using Type.
  intros Hc Hh Hne Hrl rest idx executed appended m.
  destruct (exec_setup chain hook Hc Hh (map nat_command (map (append_to chain) rl) ++ rest) idx executed appended m)
    as [?|(m1 & Ht & E)]; [by left|]. cbv zeta. rewrite E.
  assert (table m1 !! chain = Some []) as Hm1.
  { rewrite Ht. unfold hooked. rewrite (lookup_insert_ne _ chain hook) by done.
    destruct (table m !! hook) as [rs|]; [case_bool_decide|]; rewrite ?(lookup_insert_ne _ hook chain) by done;
      by rewrite lookup_insert_eq. }
  destruct (exec_appends chain rl Hc Hrl rest (S (S (S (S idx)))) (S (S (S (S executed)))) appended m1 [] Hm1)
    as [(ab & m' & E' & Hu)|(m' & E1 & E2)].
  - left. exists ab, m'. split; [exact E'|]. eapply untouched_trans; [|eapply untouched_weaken; [|exact Hu]].
    + rewrite Ht. apply (untouched_trans _ _ (<[chain := []]> (table m))); [apply untouched_insert; by left|].
      unfold hooked. destruct (_ !! hook); [case_bool_decide|]; try done. apply untouched_insert. right. by left.
    + intros c. rewrite !elem_of_cons. tauto.
  - right. exists m'. split; [by rewrite E1, Ht|]. rewrite E2. f_equal.
Qed.

Lemma dec_word z : word_ok (fmt_dec z).
Proof using Type. by apply fmt_dec_without. Qed.

Lemma tcp_words ms target : Forall word_ok ms → Forall word_ok target → Forall word_ok (tcp ms target).
Proof using Type.
  intros Hm Ht. unfold tcp, comment_words. repeat (apply Forall_app; split); try done; by apply const_words; vm_compute.
Qed.

Lemma return_words ms : Forall word_ok ms → Forall word_ok (return_rule ms).
Proof using Type. intros Hm. apply tcp_words; [done|]. by apply const_words; vm_compute. Qed.

Lemma redirect_words p : Forall word_ok (redirect_rule p).
Proof using Type.
  apply tcp_words; [constructor|]. do 2 (constructor; [apply word_okb_ok; vm_compute; reflexivity|]).
  constructor; [apply dec_word|constructor].
Qed.

Lemma flag_word flag v : word_okb (bs flag) = true → word_ok v → Forall word_ok (return_rule [bs flag; v]).
Proof using Type. intros Hf Hv. apply return_words. constructor; [by apply word_okb_ok|by constructor]. Qed.

Lemma in_rules_words p : Forall (Forall word_ok) (in_rules p).
Proof using Type.
  unfold in_rules. apply Forall_app; split; [|apply Forall_app; split].
  - constructor; [|constructor]. by apply flag_word; [vm_compute|apply word_okb_ok; vm_compute].
  - apply Forall_map, Forall_forall. intros port _. apply flag_word; [vm_compute; reflexivity|apply dec_word].
  - constructor; [apply redirect_words|constructor].
Qed.

Lemma out_rules_words p : Forall word_ok (ip_skip_subnets p) → Forall (Forall word_ok) (out_rules p).
Proof using Type.
  intros Hs. unfold out_rules. apply Forall_app; split; [|apply Forall_app; split; [|apply Forall_app; split]].
  - constructor; [by apply flag_word; [vm_compute|apply word_okb_ok; vm_compute]|]. constructor; [|constructor].
    apply return_words. do 3 (constructor; [apply word_okb_ok; vm_compute; reflexivity|]).
    constructor; [apply dec_word|constructor].
  - apply Forall_map, Forall_forall. intros port _. apply flag_word; [vm_compute; reflexivity|apply dec_word].
  - apply Forall_map. eapply Forall_impl; [exact Hs|]. intros s Hw. by apply flag_word; [vm_compute|].
  - constructor; [apply redirect_words|constructor].
Qed.

Definition our_chains : list bytes := [CHAIN_IN; bs "PREROUTING"; CHAIN_OUT; bs "OUTPUT"].

Lemma hooked_lookup (hook : bytes) (rule : list bytes) (t : Table) c : c ≠ hook → hooked hook rule t !! c = t !! c.
Proof using Type.
  intros Hne. unfold hooked. destruct (t !! hook); [|done]. case_bool_decide; [done|]. by rewrite lookup_insert_ne.
Qed.

Lemma hooked_has (hook : bytes) (rule : list bytes) (t : Table) rs : hooked hook rule t !! hook = Some rs → rule ∈ rs.
Proof using Type.
  unfold hooked. destruct (t !! hook) as [rs'|] eqn:E; [|congruence]. case_bool_decide as Hin.
  - rewrite E. by intros [= <-].
  - rewrite lookup_insert_eq. intros [= <-]. by left.
Qed.

Lemma installed_untouched (chain hook : bytes) (rl : list (list bytes)) (t : Table) : untouched [chain; hook] t (installed chain hook rl t).
Proof using Type.
  intros c [Hc [Hh _]%not_elem_of_cons]%not_elem_of_cons. unfold installed.
  by rewrite lookup_insert_ne, hooked_lookup, lookup_insert_ne.
Qed.

(** A chain that is installed stays as it is. *)
Definition in_place (chain hook : bytes) (rl : list (list bytes)) (t : Table) : Prop :=
  t !! chain = Some rl ∧ ∀ rs, t !! hook = Some rs → jump_words chain ∈ rs.

Lemma installed_in_place (chain hook : bytes) (rl : list (list bytes)) (t : Table) : hook ≠ chain → in_place chain hook rl (installed chain hook rl t).
Proof using Type.
  intros Hne. unfold installed. split; [by rewrite lookup_insert_eq|]. intros rs. rewrite lookup_insert_ne by done.
  apply hooked_has.
Qed.

Lemma in_place_installed (chain hook : bytes) (rl : list (list bytes)) (t : Table) : hook ≠ chain → in_place chain hook rl t → installed chain hook rl t = t.
Proof using Type.
  intros Hne [Hc Hh]. unfold installed, hooked. rewrite lookup_insert_ne by done.
  destruct (t !! hook) as [rs|] eqn:E.
  - rewrite bool_decide_true by (by apply Hh). by rewrite insert_insert_eq, insert_id.
  - by rewrite insert_insert_eq, insert_id.
Qed.

Lemma in_place_other (chain hook : bytes) (rl : list (list bytes)) (t t' : Table) :
  t' !! chain = t !! chain → t' !! hook = t !! hook → in_place chain hook rl t → in_place chain hook rl t'.
Proof using Type. unfold in_place. by intros -> ->. Qed.

Lemma desired_in_place (p : InitParams) (t : Table) :
  in_place CHAIN_IN (bs "PREROUTING") (in_rules p) (desired p t) ∧
  in_place CHAIN_OUT (bs "OUTPUT") (out_rules p) (desired p t).
Proof using Type.
  unfold desired. split; [|by apply installed_in_place].
  eapply in_place_other; [..|by apply (installed_in_place CHAIN_IN (bs "PREROUTING"))];
    apply installed_untouched; by apply (bool_decide_eq_true (_ ∉ _)); vm_compute.
Qed.

Lemma desired_idempotent (p : InitParams) (t : Table) : desired p (desired p t) = desired p t.
Proof using Type.
  destruct (desired_in_place p t) as [Hin Hout]. unfold desired at 1.
  rewrite (in_place_installed CHAIN_IN (bs "PREROUTING") (in_rules p)) by done. by apply in_place_installed.
Qed.

Lemma exec_plan_outcome p m : Forall word_ok (ip_skip_subnets p) →
  (∃ ab m', exec_plan exec bin (build_rules p) m = (Err ab, m') ∧ untouched our_chains (table m) (table m')) ∨
  ∃ m' n, exec_plan exec bin (build_rules p) m =
      (Ok (n, (length (in_rules p) + length (out_rules p))%nat), m') ∧
    table m' = desired p (table m).
Proof using Type.
  intros Hs. unfold exec_plan, build_rules, plan. rewrite !map_app.
  destruct (exec_install CHAIN_IN (bs "PREROUTING") (in_rules p)) with
    (rest := map nat_command (chain_setup CHAIN_OUT (bs "OUTPUT")) ++ map nat_command (map (append_to CHAIN_OUT) (out_rules p)))
    (idx := 0%nat) (executed := 0%nat) (appended := 0%nat) (m := m) as [(ab & m' & E & Hu)|(m1 & Ht1 & E1)];
    try (by apply word_okb_ok; vm_compute); try done; [apply in_rules_words| |].
  { left. exists ab, m'. split; [exact E|]. eapply untouched_weaken; [|exact Hu].
    intros c. unfold our_chains. rewrite !elem_of_cons. tauto. }
  rewrite E1. clear E1. generalize (4 + 0 + length (in_rules p))%nat. intros k.
  destruct (exec_install CHAIN_OUT (bs "OUTPUT") (out_rules p)) with
    (rest := @nil bytes) (idx := k) (executed := k)
    (appended := (0 + length (in_rules p))%nat) (m := m1) as [(ab & m' & E & Hu)|(m2 & Ht2 & E2)];
    try (by apply word_okb_ok; vm_compute); try done; [by apply out_rules_words| |].
  - left. exists ab, m'. rewrite app_nil_r in E. split; [exact E|]. rewrite Ht1 in Hu.
    eapply untouched_trans; [eapply untouched_weaken; [|apply installed_untouched]|eapply untouched_weaken; [|exact Hu]];
      intros c; unfold our_chains; rewrite !elem_of_cons; tauto.
  - right. exists m2. rewrite app_nil_r in E2. eexists. rewrite E2. split; [done|]. by rewrite Ht2, Ht1.
Qed.

(** The self-check leaves the table as it was, unless a chain of the probe's name
    was there or a command failed to clean up. *)
Lemma check_redirect_table m : table m !! PROBE_CHAIN = None →
  let '(ok, m') := check_redirect exec bin m in
  untouched [PROBE_CHAIN] (table m) (table m') ∧ (table m' !! PROBE_CHAIN = None → table m' = table m).
Proof using Type.
  intros Hnone. unfold check_redirect.
  pose proof (new_chain PROBE_CHAIN m) as Hn. destruct (exec bin _ m) as [r1 m1].
  pose proof (append_rule PROBE_CHAIN (redirect_rule 1) m1) as Ha. destruct (exec bin _ m1) as [r2 m2].
  pose proof (flush_chain PROBE_CHAIN m2) as Hf. destruct (exec bin _ m2) as [r3 m3].
  pose proof (delete_chain PROBE_CHAIN m3) as Hd. destruct (exec bin _ m3) as [r4 m4].
  assert (untouched [PROBE_CHAIN] (table m) (table m4)) as Hu.
  { assert (∀ (t : Table), untouched [PROBE_CHAIN] t (delete PROBE_CHAIN t)) as Hdel.
    { intros t c [? _]%not_elem_of_cons. by rewrite lookup_delete_ne. }
    assert (∀ (t : Table) rs, untouched [PROBE_CHAIN] t (<[PROBE_CHAIN := rs]> t)) as Hins.
    { intros t rs. apply untouched_insert. by left. }
    apply (untouched_trans _ _ (table m1)); [destruct r1; [rewrite (proj2 Hn); apply Hins|by rewrite Hn]|].
    apply (untouched_trans _ _ (table m2)); [destruct r2; [destruct Ha as (rs & _ & ->); apply Hins|by rewrite Ha]|].
    apply (untouched_trans _ _ (table m3)); [destruct r3; [rewrite (proj2 Hf); apply Hins|by rewrite Hf]|].
    destruct r4; [rewrite (proj2 Hd); apply Hdel|by rewrite Hd]. }
  split; [exact Hu|]. intros Hgone. apply map_eq. intros c. destruct (decide (c = PROBE_CHAIN)) as [->|Hne].
  - by rewrite Hgone, Hnone.
  - apply Hu. by apply not_elem_of_cons; split; [|apply not_elem_of_nil].
Qed.

(** ** Which packets are redirected *)

Record Packet := {
  pk_tcp : bool;
  pk_in_lo : bool;
  pk_out_lo : bool;
  pk_uid : Z;
  pk_dport : Z;
  pk_dst : IpAddr;
}.

(** What the matches the plan uses mean, and which subnets cover an address. *)
Class RuleMatch := {
  matches : list bytes → Packet → bool;
  covers : bytes → IpAddr → bool;
  match_any : ∀ target pk, matches (tcp [] target) pk = pk_tcp pk;
  match_in : ∀ target pk, matches (tcp [bs "-i"; bs "lo"] target) pk = pk_tcp pk && pk_in_lo pk;
  match_out : ∀ target pk, matches (tcp [bs "-o"; bs "lo"] target) pk = pk_tcp pk && pk_out_lo pk;
  match_owner : ∀ uid target pk, 0 <= uid < 2 ^ 32 →
    matches (tcp [bs "-m"; bs "owner"; bs "--uid-owner"; fmt_dec uid] target) pk = pk_tcp pk && (pk_uid pk =? uid);
  match_dport : ∀ port target pk, 0 <= port < 2 ^ 16 →
    matches (tcp (dport port) target) pk = pk_tcp pk && (pk_dport pk =? port);
  match_dest : ∀ subnet target pk, matches (tcp [bs "-d"; subnet] target) pk = pk_tcp pk && covers subnet (pk_dst pk);
}.
Context `{!RuleMatch}.

(** The words after [-j]. *)
Fixpoint jump_target (rule : list bytes) : list bytes :=
  match rule with
  | [] => []
  | w :: rule => if bool_decide (w = bs "-j") then rule else jump_target rule
  end.

(** The first matching rule decides; a RETURN leaves the packet alone. *)
Definition redirected (rules : list (list bytes)) (pk : Packet) : option bytes :=
  r ← List.find (λ r, matches r pk) rules;
  match jump_target r with
  | [t; _; port] => if bool_decide (t = bs "REDIRECT") then Some port else None
  | _ => None
  end.

Definition left_alone_in (p : InitParams) (pk : Packet) : bool :=
  pk_in_lo pk || existsb (λ port, pk_dport pk =? port) (ip_ignore_inbound_ports p).

Definition left_alone_out (p : InitParams) (pk : Packet) : bool :=
  pk_out_lo pk || (pk_uid pk =? ip_proxy_uid p) ||
  existsb (λ port, pk_dport pk =? port) (ip_ignore_outbound_ports p) ||
  existsb (λ subnet, covers subnet (pk_dst pk)) (ip_skip_subnets p).

Lemma jump_target_return ms : Forall (λ w, w ≠ bs "-j") ms → jump_target (return_rule ms) = [bs "RETURN"].
Proof using Type.
  intros Hm. unfold return_rule, tcp. cbn [app jump_target]. rewrite !bool_decide_false by done.
  induction Hm as [|w ms Hw _ IH]; cbn [app jump_target]; [done|]. by rewrite bool_decide_false.
Qed.

Lemma redirected_return ms rules pk : Forall (λ w, w ≠ bs "-j") ms →
  redirected (return_rule ms :: rules) pk = if matches (return_rule ms) pk then None else redirected rules pk.
Proof using Type.
  intros Hm. unfold redirected. cbn [List.find]. destruct (matches (return_rule ms) pk); [|done].
  cbn [mbind option_bind]. by rewrite jump_target_return.
Qed.

Lemma redirected_returns {A} (ms : A → list bytes) l rules pk : Forall (λ x, Forall (λ w, w ≠ bs "-j") (ms x)) l →
  redirected (map (λ x, return_rule (ms x)) l ++ rules) pk =
  if existsb (λ x, matches (return_rule (ms x)) pk) l then None else redirected rules pk.
Proof using Type.
  induction 1 as [|x l Hx _ IH]; cbn [map app existsb]; [done|].
  rewrite redirected_return by done. by destruct (matches (return_rule (ms x)) pk).
Qed.

Lemma redirected_last port pk : redirected [redirect_rule port] pk = if pk_tcp pk then Some (fmt_dec port) else None.
Proof using Type.
  unfold redirected. cbn [List.find]. unfold redirect_rule. rewrite match_any. by destruct (pk_tcp pk).
Qed.

Lemma dec_not_jump z : fmt_dec z ≠ bs "-j".
Proof using Type. intros E. pose proof (fmt_dec_digits z) as Hd. by rewrite E in Hd. Qed.

Lemma dport_no_jump port : Forall (λ w, w ≠ bs "-j") (dport port).
Proof using Type. constructor; [done|]. constructor; [apply dec_not_jump|constructor]. Qed.

Lemma existsb_dport ports pk : Forall (λ port, 0 <= port < 2 ^ 16) ports →
  existsb (λ port, matches (return_rule (dport port)) pk) ports = pk_tcp pk && existsb (λ port, pk_dport pk =? port) ports.
Proof using Type.
  induction 1 as [|port ports Hp _ IH]; cbn [existsb]; [by rewrite andb_false_r|].
  unfold return_rule at 1. rewrite match_dport, IH by done. by destruct (pk_tcp pk).
Qed.

Lemma redirected_in p pk : params_ok p →
  redirected (in_rules p) pk = if pk_tcp pk && negb (left_alone_in p pk) then Some (fmt_dec (ip_inbound_port p)) else None.
Proof using Type.
  intros Hn. unfold in_rules, left_alone_in. cbn [app]. rewrite redirected_return by (by repeat constructor).
  unfold return_rule at 1. rewrite match_in, redirected_returns, existsb_dport, redirected_last.
  - destruct (pk_tcp pk), (pk_in_lo pk); try done; cbn [andb orb negb]; by destruct (existsb _ _).
  - apply Hn.
  - apply Forall_forall. intros port _. apply dport_no_jump.
Qed.

Lemma redirected_out p pk : params_ok p → 0 <= ip_proxy_uid p < 2 ^ 32 →
  redirected (out_rules p) pk = if pk_tcp pk && negb (left_alone_out p pk) then Some (fmt_dec (ip_outbound_port p)) else None.
Proof using Type.
  intros Hn Huid. unfold out_rules, left_alone_out. cbn [app]. rewrite redirected_return by (by repeat constructor).
  unfold return_rule at 1. rewrite match_out, redirected_return.
  2: { do 3 (constructor; [done|]). constructor; [apply dec_not_jump|constructor]. }
  unfold return_rule at 1. rewrite match_owner by done.
  rewrite redirected_returns, existsb_dport, (redirected_returns (λ s, [bs "-d"; s])), redirected_last.
  - assert (existsb (λ s, matches (return_rule [bs "-d"; s]) pk) (ip_skip_subnets p) =
      pk_tcp pk && existsb (λ s, covers s (pk_dst pk)) (ip_skip_subnets p)) as ->.
    { generalize (ip_skip_subnets p). intros l. induction l as [|s l IH]; cbn [existsb]; [by rewrite andb_false_r|].
      unfold return_rule at 1. rewrite match_dest, IH. by destruct (pk_tcp pk). }
    destruct (pk_tcp pk), (pk_out_lo pk), (pk_uid pk =? ip_proxy_uid p); try done; cbn [andb orb negb];
      destruct (existsb (λ port, pk_dport pk =? port) _), (existsb (λ s, covers s (pk_dst pk)) _); done.
  - eapply Forall_impl; [apply (po_subnets p Hn)|]. intros s Hs. by repeat constructor.
  - apply Hn.
  - apply Forall_forall. intros port _. apply dport_no_jump.
Qed.

(** C30. The sidecar's traffic hijack.  For any accepted arguments and any nat table,
    a run of the plan touches no chain but its own two and the two hooks.  If the run
    succeeds, it leaves a table in which a packet is redirected exactly
    when it is TCP and none of the exemptions holds: loopback, the ignored ports and,
    outbound, the proxy's own user and the skipped subnets; both hooks hold their
    jump; and running the plan again, if that run succeeds too, changes nothing.
    A run ends at the first failure it does not tolerate, and what its earlier
    commands did stays: the accepted IPv6 subnets of [--skip-subnets], which the IPv4 [iptables]
    refuses, end it half-way, with the hooks in place and the outbound chain
    incomplete, and about such a run only the first sentence speaks. *)
Theorem init_installs_hijack (argv : list bytes) (p : InitParams) (m : Machine) :
  parse_args argv = Ok p →
  let '(r, m') := exec_plan exec bin (build_rules p) m in
  untouched our_chains (table m) (table m') ∧
  (is_ok r = true →
    table m' = desired p (table m) ∧
    (∃ rs, table m' !! CHAIN_IN = Some rs ∧ ∀ pk, redirected rs pk =
       if pk_tcp pk && negb (left_alone_in p pk) then Some (fmt_dec (ip_inbound_port p)) else None) ∧
    (∃ rs, table m' !! CHAIN_OUT = Some rs ∧ ∀ pk, redirected rs pk =
       if pk_tcp pk && negb (left_alone_out p pk) then Some (fmt_dec (ip_outbound_port p)) else None) ∧
    (∀ rs, table m' !! bs "PREROUTING" = Some rs → jump_words CHAIN_IN ∈ rs) ∧
    (∀ rs, table m' !! bs "OUTPUT" = Some rs → jump_words CHAIN_OUT ∈ rs) ∧
    let '(r2, m2) := exec_plan exec bin (build_rules p) m' in
    is_ok r2 = true → table m2 = table m').
Proof using Type.
  intros [Hp Huid]%parse_args_ok.
  destruct (exec_plan_outcome p m (po_words p Hp)) as [(ab & m' & -> & Hu)|(m' & n & -> & Ht)]; [by split|].
  destruct (desired_in_place p (table m)) as [[Hin Hpre] [Hout Hopt]]. split.
  { rewrite Ht. unfold desired. eapply untouched_trans; (eapply untouched_weaken; [|apply installed_untouched]);
      intros c; unfold our_chains; rewrite !elem_of_cons; tauto. }
  intros _. rewrite <-Ht in *. split_and!; [done| | |done|done|].
  - exists (in_rules p). split; [done|]. intros pk. by apply redirected_in.
  - exists (out_rules p). split; [done|]. intros pk. by apply redirected_out.
  - destruct (exec_plan_outcome p m' (po_words p Hp)) as [(ab & m2 & -> & Hu)|(m2 & n2 & -> & Ht2)]; [done|].
    intros _. by rewrite Ht2, Ht, desired_idempotent.
Qed.

End convergence.

(** * A concrete table *)

Definition nat_exec (_ : bytes) (words : list bytes) (t : Table) : result bytes () * Table :=
  match words with
  | _ :: _ :: op :: chain :: rule =>
      match t !! chain with
      | None => if bool_decide (op = bs "-N") then (Ok (), <[chain := []]> t) else (Err (bs "no such chain"), t)
      | Some rs =>
          if bool_decide (op = bs "-F") then (Ok (), <[chain := []]> t)
          else if bool_decide (op = bs "-X") then
            if bool_decide (rs = []) then (Ok (), delete chain t) else (Err (bs "not empty"), t)
          else if bool_decide (op = bs "-C") then
            if bool_decide (rule ∈ rs) then (Ok (), t) else (Err (bs "no such rule"), t)
          else if bool_decide (op = bs "-I") then (Ok (), <[chain := rule :: rs]> t)
          else if bool_decide (op = bs "-A") then (Ok (), <[chain := rs ++ [rule]]> t)
          else (Err (bs "chain exists"), t)
      end
  | _ => (Ok (), t)
  end.

#[global] Instance nat_exec_table (bin : bytes) : NatTable nat_exec bin.
Proof.
  refine {| table := λ t, t |}; intros; unfold nat_exec, nat_words, append_to; cbn [app];
    (destruct (_ !! _) as [rs|] eqn:E; repeat (case_bool_decide; try done));
    try (split; [|done]); subst; try (by eauto); try (by intros ? [= <-]); try (by eexists).
Defined.

Definition word_matches (words : list bytes) (pk : Packet) : bool :=
  pk_tcp pk &&
  match drop 2 words with
  | a :: b :: c :: d :: _ =>
      if bool_decide (a = bs "-i") then pk_in_lo pk
      else if bool_decide (a = bs "-o") then pk_out_lo pk
      else if bool_decide (a = bs "--dport") then bool_decide (parse_uint 16 b = Some (pk_dport pk))
      else if bool_decide (a = bs "-d") then bool_decide (parse_ip b = Some (pk_dst pk))
      else if bool_decide (b = bs "owner") then bool_decide (parse_uint 32 d = Some (pk_uid pk))
      else true
  | _ => true
  end.

#[global] Instance word_rule_match : RuleMatch.
Proof.
  refine {| matches := word_matches; covers := λ s a, bool_decide (parse_ip s = Some a) |}.
  - intros target pk. unfold word_matches, tcp. cbn. apply andb_true_r.
  - done.
  - done.
  - intros uid target pk Hu. change (pk_tcp pk && bool_decide (parse_uint 32 (fmt_dec uid) = Some (pk_uid pk)) = pk_tcp pk && (pk_uid pk =? uid)).
    rewrite parse_fmt_dec by lia. f_equal.
    destruct (Z.eqb_spec (pk_uid pk) uid); [by apply bool_decide_true; congruence|by apply bool_decide_false; congruence].
  - intros port target pk Hu. change (pk_tcp pk && bool_decide (parse_uint 16 (fmt_dec port) = Some (pk_dport pk)) = pk_tcp pk && (pk_dport pk =? port)).
    rewrite parse_fmt_dec by lia. f_equal.
    destruct (Z.eqb_spec (pk_dport pk) port); [by apply bool_decide_true; congruence|by apply bool_decide_false; congruence].
  - done.
Defined.

Definition ex_argv : list bytes := map bs ["--proxy-uid=511"; "--ignore-inbound-ports"; "4191,9000"; "--skip-subnets=10.0.0.1"]%string.
Definition ex_table : Table := <[bs "PREROUTING" := []]> (<[bs "OUTPUT" := [[bs "old"]]]> ∅).

(** Installed twice on a table with an empty and a used hook chain. *)
Lemma init_installs_hijack_witness :
  ∃ p m', parse_args ex_argv = Ok p ∧ exec_plan nat_exec (bs "iptables") (build_rules p) ex_table = m' ∧
    is_ok m'.1 = true ∧ m'.2 = desired p ex_table.
Proof.
  destruct (parse_args ex_argv) as [p|e] eqn:Ep; [|by vm_compute in Ep].
  pose proof (init_installs_hijack nat_exec (bs "iptables") ex_argv p ex_table Ep) as H.
  exists p, (exec_plan nat_exec (bs "iptables") (build_rules p) ex_table).
  assert (match parse_args ex_argv with
          | Ok p => is_ok (exec_plan nat_exec (bs "iptables") (build_rules p) ex_table).1
          | Err _ => false
          end = true) as Hok by (vm_compute; reflexivity).
  rewrite Ep in Hok. destruct (exec_plan nat_exec (bs "iptables") (build_rules p) ex_table) as [r m'].
  destruct H as [_ H]. destruct (H Hok) as [Ht _]. split_and!; [done|done|exact Hok|exact Ht].
Defined.
