(* ===== verification/Inject.v ===== *)
(** The [inject] subcommand ([openrusty-server/src/inject/mod.rs], [config.rs],
    [render.rs]): the annotations of a workload, the three pieces added to its
    pod, and the configuration of the sidecar. *)

From S2P Require Import Prelude Text Numbers Net Config Init.
From Stdlib Require Import ZArith Lia.
From stdpp Require Import options.
Local Open Scope Z_scope.

(** * YAML values *)

(** [serde_yaml::Value]; a number is the text it prints as. *)
Inductive Value :=
| VNull
| VBool (b : bool)
| VNumber (text : bytes)
| VString (s : bytes)
| VSequence (l : list Value)
| VMapping (m : list (Value * Value))
| VTagged (tag : bytes) (v : Value).

(** The accessors look through tags. *)
Fixpoint untag (v : Value) : Value := match v with VTagged _ v => untag v | _ => v end.

Definition as_str (v : Value) : option bytes := match untag v with VString s => Some s | _ => None end.
Definition as_sequence (v : Value) : option (list Value) := match untag v with VSequence l => Some l | _ => None end.
Definition as_mapping (v : Value) : option (list (Value * Value)) :=
  match untag v with VMapping m => Some m | _ => None end.

Definition is_key (key : bytes) (k : Value) : bool :=
  match k with VString s => bool_decide (s = key) | _ => false end.

Fixpoint find_entry (key : bytes) (m : list (Value * Value)) : option Value :=
  match m with
  | [] => None
  | (k, v) :: m => if is_key key k then Some v else find_entry key m
  end.

Definition get (key : bytes) (v : Value) : option Value := m ← as_mapping v; find_entry key m.

(** [get_mut]: what a write through the reference does to the whole. *)
Fixpoint set_entry (key : bytes) (new : Value) (m : list (Value * Value)) : list (Value * Value) :=
  match m with
  | [] => []
  | (k, v) :: m => if is_key key k then (k, new) :: m else (k, v) :: set_entry key new m
  end.

Fixpoint on_untagged (f : Value → Value) (v : Value) : Value :=
  match v with VTagged t v => VTagged t (on_untagged f v) | _ => f v end.

Definition set_key (key : bytes) (new : Value) (v : Value) : Value :=
  on_untagged (λ v, match v with VMapping m => VMapping (set_entry key new m) | _ => v end) v.

Fixpoint get_path (path : list bytes) (v : Value) : option Value :=
  match path with
  | [] => Some v
  | key :: path => w ← get key v; get_path path w
  end.

Fixpoint set_path (path : list bytes) (new : Value) (v : Value) : Value :=
  match path with
  | [] => new
  | key :: path =>
      match get key v with
      | Some w => set_key key (set_path path new w) v
      | None => v
      end
  end.

(** * Accessors of a workload *)

Definition metadata_of (doc : Value) : option Value := get (bs "metadata") doc.

Definition pod_template_metadata (doc : Value) : option Value :=
  get_path [bs "spec"; bs "template"; bs "metadata"] doc.

Definition annotations (meta : Value) : list (bytes * Value) :=
  match a ← get (bs "annotations") meta; as_mapping a with
  | None => []
  | Some m => omap (λ e : Value * Value, k ← as_str e.1; Some (k, e.2)) m
  end.

Definition scalar_string (v : Value) : option bytes :=
  match v with
  | VString s => Some s
  | VNumber n => Some n
  | VBool b => Some (if b then bs "true" else bs "false")
  | _ => None
  end.

(** * Annotations *)

Record InjectParams := {
  ij_enabled : bool;
  ij_skip_inbound_ports : list Z;
  ij_opaque_ports : list Z;
  ij_proxy_uid : Z;
  ij_log_level : bytes;
  ij_egress_mode : EgressMode;
  ij_egress_gateway : bytes;
  ij_app_port : option Z;
}.

Definition PREFIX : bytes := bs "config.openrusty.io/".
Definition INBOUND_PORT : Z := 4143.
Definition OUTBOUND_PORT : Z := 4140.
Definition ADMIN_PORT : Z := 4191.

Definition inject_default : InjectParams := {|
  ij_enabled := true; ij_skip_inbound_ports := []; ij_opaque_ports := []; ij_proxy_uid := 511;
  ij_log_level := bs "warn"; ij_egress_mode := Direct; ij_egress_gateway := []; ij_app_port := None |}.

Inductive InjectError :=
| EmptyInput
| InvalidYaml (e : bytes)
| InvalidAnnotation (name value : bytes)
| GatewayRequired
| NoName
| NoKind
| NotInjectable (kind : bytes)
| NoPodSpec (path : list bytes)
| NoContainers (path : list bytes)
| AlreadyInjected
| NotAMapping
| NotAList (key : bytes)
| ConfigUnparsable (e : bytes)
| ConfigRejected (e : ConfigError)
| Unrenderable (e : bytes).

(** Ports in the order given, each once. *)
Fixpoint ports_loop (name raw : bytes) (parts : list bytes) (out : list Z) : result InjectError (list Z) :=
  match parts with
  | [] => Ok out
  | part :: parts =>
      let part := trim part in
      if bool_decide (part = []) then Err (InvalidAnnotation name raw)
      else
        match parse_uint 16 part with
        | None => Err (InvalidAnnotation name raw)
        | Some port => ports_loop name raw parts (if bool_decide (port ∈ out) then out else out ++ [port])
        end
  end.

Definition parse_ports (name raw : bytes) : result InjectError (list Z) := ports_loop name raw (split_on x2c raw) [].

(** One annotation of ours, by its name after the prefix; an unknown one is only
    warned about. *)
Definition apply_annotation (name value : bytes) (p : InjectParams) : result InjectError InjectParams :=
  let upd enabled skip opaque uid level mode gateway app := Ok {|
    ij_enabled := enabled; ij_skip_inbound_ports := skip; ij_opaque_ports := opaque; ij_proxy_uid := uid;
    ij_log_level := level; ij_egress_mode := mode; ij_egress_gateway := gateway; ij_app_port := app |} in
  let bad {A} : result InjectError A := Err (InvalidAnnotation name value) in
  let keep_mode := ij_egress_mode p in
  if bool_decide (name = bs "inject") then
    b ← (if bool_decide (value = bs "enabled") then Ok true
         else if bool_decide (value = bs "disabled") then Ok false else bad);
    upd b (ij_skip_inbound_ports p) (ij_opaque_ports p) (ij_proxy_uid p) (ij_log_level p) keep_mode
      (ij_egress_gateway p) (ij_app_port p)
  else if bool_decide (name = bs "skip-inbound-ports") then
    l ← parse_ports name value;
    upd (ij_enabled p) l (ij_opaque_ports p) (ij_proxy_uid p) (ij_log_level p) keep_mode
      (ij_egress_gateway p) (ij_app_port p)
  else if bool_decide (name = bs "opaque-ports") then
    l ← parse_ports name value;
    upd (ij_enabled p) (ij_skip_inbound_ports p) l (ij_proxy_uid p) (ij_log_level p) keep_mode
      (ij_egress_gateway p) (ij_app_port p)
  else if bool_decide (name = bs "proxy-uid") then
    u ← (match parse_uint 32 (trim value) with Some u => Ok u | None => bad end);
    upd (ij_enabled p) (ij_skip_inbound_ports p) (ij_opaque_ports p) u (ij_log_level p) keep_mode
      (ij_egress_gateway p) (ij_app_port p)
  else if bool_decide (name = bs "proxy-log-level") then
    _ ← (if bool_decide (value ∈ [bs "trace"; bs "debug"; bs "info"; bs "warn"; bs "error"]) then Ok () else bad);
    upd (ij_enabled p) (ij_skip_inbound_ports p) (ij_opaque_ports p) (ij_proxy_uid p) value keep_mode
      (ij_egress_gateway p) (ij_app_port p)
  else if bool_decide (name = bs "egress-mode") then
    m ← (if bool_decide (value = bs "direct") then Ok Direct
         else if bool_decide (value = bs "gateway") then Ok Gateway
         else if bool_decide (value = bs "deny") then Ok EgDeny else bad);
    upd (ij_enabled p) (ij_skip_inbound_ports p) (ij_opaque_ports p) (ij_proxy_uid p) (ij_log_level p) m
      (ij_egress_gateway p) (ij_app_port p)
  else if bool_decide (name = bs "egress-gateway") then
    upd (ij_enabled p) (ij_skip_inbound_ports p) (ij_opaque_ports p) (ij_proxy_uid p) (ij_log_level p) keep_mode
      (trim value) (ij_app_port p)
  else if bool_decide (name = bs "app-port") then
    a ← (match parse_uint 16 (trim value) with Some a => Ok a | None => bad end);
    upd (ij_enabled p) (ij_skip_inbound_ports p) (ij_opaque_ports p) (ij_proxy_uid p) (ij_log_level p) keep_mode
      (ij_egress_gateway p) (Some a)
  else Ok p.

Fixpoint annotation_loop (entries : list (bytes * bytes)) (p : InjectParams) : result InjectError InjectParams :=
  match entries with
  | [] => Ok p
  | (key, value) :: entries =>
      match strip_prefix PREFIX key with
      | None => annotation_loop entries p
      | Some name => p ← apply_annotation name value p; annotation_loop entries p
      end
  end.

(** The map is walked in key order. *)
Definition parse_annotations (m : gmap bytes bytes) : result InjectError InjectParams :=
  p ← annotation_loop (sort_by (λ a b, bytes_leb a.1 b.1) (map_to_list m)) inject_default;
  if bool_decide (ij_egress_mode p = Gateway) && bool_decide (ij_egress_gateway p = []) then Err GatewayRequired
  else Ok p.

(** Scalars are taken, anything else is warned about and left out. *)
Definition merge_source (m : gmap bytes bytes) (meta : Value) : gmap bytes bytes :=
  foldl (λ m e, match scalar_string e.2 with Some s => <[e.1 := s]> m | None => m end) m (annotations meta).

Definition collect_annotations (doc : Value) : result InjectError InjectParams :=
  parse_annotations (foldl merge_source ∅ (option_list (metadata_of doc) ++ option_list (pod_template_metadata doc))).

(** The admin port and the skipped ports, sorted, each once. *)
Definition ignored_ports (p : InjectParams) : list Z :=
  dedup (sort_by Z.leb (ij_skip_inbound_ports p ++ [ADMIN_PORT])).

Definition ignore_inbound_ports (p : InjectParams) : bytes := join [x2c] (map fmt_dec (ignored_ports p)).

(** * The pieces *)

Definition INIT_NAME : bytes := bs "openrusty-init".
Definition SIDECAR_NAME : bytes := bs "openrusty-proxy".
Definition CONFIG_VOLUME : bytes := bs "openrusty-config".
Definition CONFIG_MOUNT : bytes := bs "/etc/openrusty".
Definition CONFIG_PATH : bytes := bs "/etc/openrusty/openrusty.toml".
Definition IMAGE : bytes := bs "ghcr.io/openrusty/openrusty:0.0.0-placeholder".

(** A struct serializes to a mapping in field order. *)
Definition mapping (fields : list (string * Value)) : Value := VMapping (map (λ f, (VString (bs f.1), f.2)) fields).
Definition number (n : Z) : Value := VNumber (fmt_dec n).
Definition strings (l : list bytes) : Value := VSequence (map VString l).

Definition init_command (p : InjectParams) : list bytes := [
  bs "openrusty"; bs "iptables-init";
  bs "--proxy-uid"; fmt_dec (ij_proxy_uid p);
  bs "--inbound-port"; fmt_dec INBOUND_PORT;
  bs "--outbound-port"; fmt_dec OUTBOUND_PORT;
  bs "--ignore-inbound-ports"; ignore_inbound_ports p].

Definition INIT_CAPS : list bytes := [bs "NET_ADMIN"; bs "NET_RAW"].

(** The pieces as structs, and what [derive(Serialize)] makes of each. *)
Record InitContainer := { ic_name : bytes; ic_image : bytes; ic_command : list bytes; ic_run_as_user : Z; ic_add : list bytes }.

Definition init_container_value (c : InitContainer) : Value := mapping [
  ("name", VString (ic_name c));
  ("image", VString (ic_image c));
  ("command", strings (ic_command c));
  ("securityContext", mapping [
    ("runAsUser", number (ic_run_as_user c));
    ("capabilities", mapping [("add", strings (ic_add c))])])]%string.

Record EnvVar := { ev_name : bytes; ev_value : bytes }.
Definition env_var_value (e : EnvVar) : Value :=
  mapping [("name", VString (ev_name e)); ("value", VString (ev_value e))]%string.

Record ContainerPort := { cp_name : bytes; cp_container_port : Z }.
Definition container_port_value (p : ContainerPort) : Value :=
  mapping [("name", VString (cp_name p)); ("containerPort", number (cp_container_port p))]%string.

Record VolumeMount := { vm_name : bytes; vm_mount_path : bytes; vm_read_only : bool }.
Definition volume_mount_value (v : VolumeMount) : Value := mapping [
  ("name", VString (vm_name v)); ("mountPath", VString (vm_mount_path v)); ("readOnly", VBool (vm_read_only v))]%string.

Record Sidecar := {
  sc_name : bytes;
  sc_image : bytes;
  sc_args : list bytes;
  sc_env : option (list EnvVar);
  sc_ports : list ContainerPort;
  sc_run_as_user : Z;
  sc_volume_mounts : list VolumeMount;
}.

(** An absent [env] is left out. *)
Definition sidecar_value (c : Sidecar) : Value := mapping (
  [("name", VString (sc_name c)); ("image", VString (sc_image c)); ("args", strings (sc_args c))]%string ++
  match sc_env c with Some env => [("env"%string, VSequence (map env_var_value env))] | None => [] end ++
  [("ports", VSequence (map container_port_value (sc_ports c)));
   ("securityContext", mapping [("runAsUser", number (sc_run_as_user c))]);
   ("volumeMounts", VSequence (map volume_mount_value (sc_volume_mounts c)))]%string).

Record ConfigVolume := { cv_name : bytes; cv_config_map : bytes }.
Definition config_volume_value (v : ConfigVolume) : Value := mapping [
  ("name", VString (cv_name v));
  ("configMap", mapping [("name", VString (cv_config_map v))])]%string.

Definition init_container (p : InjectParams) (image : bytes) : Value := init_container_value {|
  ic_name := INIT_NAME; ic_image := image; ic_command := init_command p; ic_run_as_user := 0; ic_add := INIT_CAPS |}.

Definition opaque_env (p : InjectParams) : option (list EnvVar) :=
  if bool_decide (ij_opaque_ports p = []) then None
  else Some [{| ev_name := bs "OPENRUSTY_OPAQUE_PORTS"; ev_value := join [x2c] (map fmt_dec (ij_opaque_ports p)) |}].

Definition container_port (name : string) (n : Z) : ContainerPort := {| cp_name := bs name; cp_container_port := n |}.

Definition sidecar (p : InjectParams) (image : bytes) : Value := sidecar_value {|
  sc_name := SIDECAR_NAME; sc_image := image; sc_args := [CONFIG_PATH]; sc_env := opaque_env p;
  sc_ports := [container_port "proxy" INBOUND_PORT; container_port "outbound" OUTBOUND_PORT; container_port "admin" ADMIN_PORT];
  sc_run_as_user := ij_proxy_uid p;
  sc_volume_mounts := [{| vm_name := CONFIG_VOLUME; vm_mount_path := CONFIG_MOUNT; vm_read_only := true |}] |}.

Definition config_volume (cm_name : bytes) : Value := config_volume_value {|
  cv_name := CONFIG_VOLUME; cv_config_map := cm_name |}.

(** * Injection *)

Definition container_names (spec : Value) (key : bytes) : list bytes :=
  match l ← get key spec; as_sequence l with
  | None => []
  | Some l => omap (λ c, n ← get (bs "name") c; as_str n) l
  end.

Definition push_value (item v : Value) : Value :=
  on_untagged (λ v, match v with VSequence l => VSequence (l ++ [item]) | _ => v end) v.

Definition append (key : bytes) (item : Value) (spec : Value) : result InjectError Value :=
  match as_mapping spec with
  | None => Err NotAMapping
  | Some m =>
      match find_entry key m with
      | Some entry =>
          if is_some (as_sequence entry) then Ok (set_key key (push_value item entry) spec) else Err (NotAList key)
      | None =>
          Ok (on_untagged (λ v, match v with VMapping m => VMapping (m ++ [(VString key, VSequence [item])]) | _ => v end) spec)
      end
  end.

Definition inject_pod_spec (p : InjectParams) (image cm_name : bytes) (spec : Value) : result InjectError Value :=
  if bool_decide (INIT_NAME ∈ container_names spec (bs "initContainers")) ||
     bool_decide (SIDECAR_NAME ∈ container_names spec (bs "containers")) then Err AlreadyInjected
  else
    spec ← append (bs "initContainers") (init_container p image) spec;
    spec ← append (bs "containers") (sidecar p image) spec;
    append (bs "volumes") (config_volume cm_name) spec.

Definition pod_path (kind : bytes) : option (list bytes) :=
  if bool_decide (kind = bs "Pod") then Some [bs "spec"]
  else if bool_decide (kind ∈ [bs "Deployment"; bs "ReplicaSet"; bs "StatefulSet"; bs "DaemonSet"; bs "Job"])
  then Some [bs "spec"; bs "template"; bs "spec"]
  else if bool_decide (kind = bs "CronJob")
  then Some [bs "spec"; bs "jobTemplate"; bs "spec"; bs "template"; bs "spec"]
  else None.

(** Where the pod spec is, and the spec. *)
Definition pod_spec (doc : Value) : result InjectError (list bytes * Value) :=
  kind ← ok_or (k ← get (bs "kind") doc; as_str k) NoKind;
  path ← ok_or (pod_path kind) (NotInjectable kind);
  spec ← ok_or (get_path path doc) (NoPodSpec path);
  _ ← ok_or (c ← get (bs "containers") spec; as_sequence c) (NoContainers path);
  Ok (path, spec).

(** * The sidecar's configuration *)

Definition line (parts : list bytes) : bytes := List.concat parts ++ [x0a].
Definition quoted (s : bytes) : bytes := [x22] ++ s ++ [x22].

Definition egress_mode_str (m : EgressMode) : bytes :=
  match m with Direct => bs "direct" | Gateway => bs "gateway" | EgDeny => bs "deny" end.

Definition gateway_line (p : InjectParams) : bytes :=
  if bool_decide (ij_egress_mode p = Gateway) then line [bs "gateway = "; quoted (ij_egress_gateway p)] else [].

Definition app_section (p : InjectParams) : bytes :=
  match ij_app_port p with
  | None => []
  | Some port => List.concat [
      line []; line [bs "[[upstreams]]"]; line [bs "name = "; quoted (bs "app")]; line [];
      line [bs "  [[upstreams.peers]]"]; line [bs "  addr = "; quoted (bs "127.0.0.1:" ++ fmt_dec port)]; line [];
      line [bs "[[routes]]"]; line [bs "path_prefix = "; quoted (bs "/")]; line [bs "upstream = "; quoted (bs "app")];
      line []]
  end.

Definition any_address (port : Z) : bytes := quoted (bs "0.0.0.0:" ++ fmt_dec port).

Definition config_toml (p : InjectParams) : bytes := List.concat [
  line [bs "# Generated by `openrusty inject`; edit with care - the sidecar"];
  line [bs "# restarts with this file verbatim."];
  line [bs "[server]"];
  line [bs "listen = "; any_address INBOUND_PORT];
  line [bs "log_level = "; quoted (ij_log_level p)];
  line [];
  line [bs "[[server.listeners]]"]; line [bs "role = "; quoted (bs "inbound")];
  line [bs "listen = "; any_address INBOUND_PORT]; line [bs "transparent = true"];
  line [];
  line [bs "[[server.listeners]]"]; line [bs "role = "; quoted (bs "outbound")];
  line [bs "listen = "; any_address OUTBOUND_PORT]; line [bs "transparent = true"];
  line [];
  line [bs "[[server.listeners]]"]; line [bs "role = "; quoted (bs "admin")];
  line [bs "listen = "; any_address ADMIN_PORT];
  line [];
  line [bs "[plugins]"];
  line [bs "# No plugins volume: a missing dir is "; quoted (bs "no plugins"); bs ", never fatal."];
  line [bs "dir = "; quoted (bs "/dev/null-plugins")];
  line [];
  line [bs "[egress]"];
  line [bs "mode = "; quoted (egress_mode_str (ij_egress_mode p))];
  gateway_line p;
  app_section p;
  line [bs "[ingress]"];
  line [bs "enabled = false"]].

(** The one validation failure that is only warned about: the message about the
    gateway's address. *)
Definition tolerated (e : ConfigError) : bool :=
  match e with CfgInvalid (EgressGatewayUnresolvable _) => true | _ => false end.

Section inject.
(** The YAML and TOML libraries and the resolver. *)
Context (yaml_parse : bytes → result bytes Value) (yaml_print : Value → result bytes bytes).
Context (toml_parse : bytes → result bytes Config) (to_socket_addrs : bytes → option (list SocketAddr)).

Definition render_config_toml (p : InjectParams) : result InjectError bytes :=
  if bool_decide (ij_egress_mode p = Gateway) && bool_decide (ij_egress_gateway p = []) then Err GatewayRequired
  else
    let src := config_toml p in
    match toml_parse src with
    | Err e => Err (ConfigUnparsable e)
    | Ok cfg =>
        match validate to_socket_addrs cfg with
        | Ok _ => Ok src
        | Err e => if tolerated e then Ok src else Err (ConfigRejected e)
        end
    end.

Definition config_map_name (name : bytes) : bytes := name ++ bs "-openrusty-config".

Definition render_config_map (name : bytes) (namespace : option bytes) (p : InjectParams) : result InjectError Value :=
  toml ← render_config_toml p;
  Ok (mapping [
    ("apiVersion", VString (bs "v1"));
    ("kind", VString (bs "ConfigMap"));
    ("metadata", mapping (
      [("name", VString (config_map_name name))] ++
      match namespace with Some ns => [("namespace", VString ns)] | None => [] end ++
      [("labels", mapping [("app.kubernetes.io/managed-by", VString (bs "openrusty-inject"))])]));
    ("data", mapping [("openrusty.toml", VString toml)])]%string).

Definition workload_name (doc : Value) : result InjectError bytes :=
  ok_or (m ← metadata_of doc; n ← get (bs "name") m; scalar_string n) NoName.

Definition namespace_of (doc : Value) : option bytes :=
  m ← metadata_of doc; n ← get (bs "namespace") m; scalar_string n.

Definition render_yaml (v : Value) : result InjectError bytes :=
  match yaml_print v with Ok s => Ok s | Err e => Err (Unrenderable e) end.

(** The injected workload and the ConfigMap. *)
Definition inject_doc (p : InjectParams) (image : bytes) (doc : Value) : result InjectError (Value * Value) :=
  name ← workload_name doc;
  '(path, spec) ← pod_spec doc;
  spec ← inject_pod_spec p image (config_map_name name) spec;
  cm ← render_config_map name (namespace_of doc) p;
  Ok (set_path path spec doc, cm).

Definition run_with_image (raw image : bytes) : result InjectError bytes :=
  if bool_decide (trim raw = []) then Err EmptyInput
  else
    doc ← (match yaml_parse raw with Ok d => Ok d | Err e => Err (InvalidYaml e) end);
    p ← collect_annotations doc;
    if negb (ij_enabled p) then Ok raw
    else
      '(workload, cm) ← inject_doc p image doc;
      w ← render_yaml workload;
      c ← render_yaml cm;
      Ok (trim_end w ++ [x0a] ++ bs "---" ++ [x0a] ++ trim_end c ++ [x0a]).

Definition run (raw : bytes) : result InjectError bytes := run_with_image raw IMAGE.

(** The [--image] flag. *)
Fixpoint parse_cli_loop (fuel : nat) (argv : list bytes) (image : option bytes) : result ArgError (option bytes) :=
  match fuel, argv with
  | _, [] | O, _ => Ok image
  | S fuel, arg :: argv =>
      let '(flag, inline) := split_flag arg in
      if bool_decide (flag = bs "--image") then
        '(v, argv) ← next_value flag inline argv;
        parse_cli_loop fuel argv (Some v)
      else Err (UnknownFlag flag)
  end.

Definition parse_cli_args (argv : list bytes) : result ArgError (option bytes) := parse_cli_loop (length argv) argv None.

(** [run_cli]: the exit code and what is written, given the decoded input. *)
Definition run_cli (argv : list bytes) (input : option bytes) : Z * bytes :=
  if existsb (λ a, bool_decide (a = bs "-h") || bool_decide (a = bs "--help")) argv then (0, [])
  else
    match parse_cli_args argv with
    | Err _ => (2, [])
    | Ok image =>
        match input with
        | None => (1, [])
        | Some raw =>
            match run_with_image raw (default IMAGE image) with
            | Ok rendered => (0, rendered)
            | Err _ => (1, [])
            end
        end
    end.
End inject.

(** * Writes reach one place *)

Lemma is_key_spec key k : is_key key k = true ↔ k = VString key.
Proof. destruct k; simpl; try done. rewrite bool_decide_eq_true. naive_solver. Qed.

Lemma is_key_other key key' k : is_key key k = true → key' ≠ key → is_key key' k = false.
Proof. intros ->%is_key_spec Hne. simpl. by apply bool_decide_false. Qed.

Lemma find_set_eq key new m w : find_entry key m = Some w → find_entry key (set_entry key new m) = Some new.
Proof.
  induction m as [|[k v] m IH]; [done|]. cbn [find_entry set_entry].
  destruct (is_key key k) eqn:E; cbn [find_entry]; by rewrite E.
Qed.

Lemma find_set_ne key key' new m : key' ≠ key → find_entry key' (set_entry key new m) = find_entry key' m.
Proof.
  intros Hne. induction m as [|[k v] m IH]; [done|]. cbn [find_entry set_entry].
  destruct (is_key key k) eqn:E; cbn [find_entry].
  - by rewrite (is_key_other key key' k E Hne).
  - by rewrite IH.
Qed.

Lemma find_app key m k w : find_entry key (m ++ [(VString k, w)]) =
  match find_entry key m with Some v => Some v | None => if bool_decide (k = key) then Some w else None end.
Proof.
  induction m as [|[j v] m IH]; cbn [app find_entry]; [done|]. by destruct (is_key key j).
Qed.

Lemma on_untagged_mapping (f : Value → Value) v m m' :
  as_mapping v = Some m → f (VMapping m) = VMapping m' → as_mapping (on_untagged f v) = Some m'.
Proof.
  unfold as_mapping. induction v as [| | | | |m0|t v IH]; simpl; try done. intros [= ->] ->. done.
Qed.

Lemma on_untagged_sequence (f : Value → Value) v l l' :
  as_sequence v = Some l → f (VSequence l) = VSequence l' → as_sequence (on_untagged f v) = Some l'.
Proof.
  unfold as_sequence. induction v as [| | | |l0| |t v IH]; simpl; try done. intros [= ->] ->. done.
Qed.

Lemma set_key_mapping key new v m : as_mapping v = Some m → as_mapping (set_key key new v) = Some (set_entry key new m).
Proof. intros Hm. by eapply on_untagged_mapping. Qed.

Lemma get_set_eq key new v w : get key v = Some w → get key (set_key key new v) = Some new.
Proof.
  unfold get. intros (m & Hm & Hw)%bind_Some. rewrite (set_key_mapping _ _ _ m Hm). cbn. by eapply find_set_eq.
Qed.

Lemma get_set_ne key key' new v : key' ≠ key → get key' (set_key key new v) = get key' v.
Proof.
  intros Hne. unfold get. destruct (as_mapping v) as [m|] eqn:Hm.
  - rewrite (set_key_mapping _ _ _ m Hm). cbn. by apply find_set_ne.
  - assert (as_mapping (set_key key new v) = None) as ->; [|done].
    revert Hm. unfold as_mapping, set_key. induction v; simpl; try done.
Qed.

Lemma set_path_lookup path new doc spec : get_path path doc = Some spec → get_path path (set_path path new doc) = Some new.
Proof.
  revert doc. induction path as [|key path IH]; intros doc; cbn [get_path set_path]; [done|].
  intros (w & Hw & Hp)%bind_Some. rewrite Hw. rewrite (get_set_eq _ _ _ w Hw). cbn. by apply IH.
Qed.

(** A key beside the path reads as before. *)
Lemma set_path_beside path new doc q key rest :
  path = q ++ key :: rest → ∀ k tail, k ≠ key → get_path (q ++ k :: tail) (set_path path new doc) = get_path (q ++ k :: tail) doc.
Proof.
  revert path doc. induction q as [|h q IH]; intros path doc -> k tail Hne; cbn [app get_path set_path].
  - destruct (get key doc) as [w|] eqn:E; [|done]. by rewrite get_set_ne.
  - destruct (get h doc) as [w|] eqn:E; [|by rewrite E]. rewrite (get_set_eq _ _ _ w E). cbn. by apply IH.
Qed.

(** ** The pod spec *)

(** The list at a key; absent reads as empty. *)
Definition list_at (key : bytes) (spec : Value) : list Value := default [] (e ← get key spec; as_sequence e).

Lemma append_exact key item spec spec' : append key item spec = Ok spec' →
  list_at key spec' = list_at key spec ++ [item] ∧ ∀ k, k ≠ key → get k spec' = get k spec.
Proof.
  unfold append, list_at. destruct (as_mapping spec) as [m|] eqn:Hm; [|done].
  destruct (find_entry key m) as [e|] eqn:He.
  - destruct (as_sequence e) as [l|] eqn:Hl; [|done]. intros [= <-].
    assert (get key spec = Some e) as Hg by (unfold get; by rewrite Hm).
    assert (as_sequence (push_value item e) = Some (l ++ [item])) as Hp by by eapply on_untagged_sequence.
    split; [|intros k Hne; by apply get_set_ne]. rewrite (get_set_eq _ _ _ e Hg), Hg. simpl mbind. by rewrite Hl, Hp.
  - intros [= <-]. unfold get. rewrite Hm. erewrite on_untagged_mapping; [|done|done]. cbn. split.
    + rewrite find_app, He, bool_decide_true by done. done.
    + intros k Hne. rewrite find_app, bool_decide_false by done. by destruct (find_entry k m).
Qed.

Lemma container_names_at spec key :
  container_names spec key = omap (λ c, n ← get (bs "name") c; as_str n) (list_at key spec).
Proof.
  unfold container_names, list_at. destruct (get key spec) as [e|]; [|done]. cbn. by destruct (as_sequence e).
Qed.

Lemma inject_pod_spec_exact p image cm spec spec' : inject_pod_spec p image cm spec = Ok spec' →
  list_at (bs "initContainers") spec' = list_at (bs "initContainers") spec ++ [init_container p image] ∧
  list_at (bs "containers") spec' = list_at (bs "containers") spec ++ [sidecar p image] ∧
  list_at (bs "volumes") spec' = list_at (bs "volumes") spec ++ [config_volume cm] ∧
  (∀ k, k ∉ [bs "initContainers"; bs "containers"; bs "volumes"] → get k spec' = get k spec) ∧
  ∀ p' image' cm', inject_pod_spec p' image' cm' spec' = Err AlreadyInjected.
Proof.
  unfold inject_pod_spec at 1. destruct (_ || _); [done|].
  intros (s1 & H1 & (s2 & H2 & H3)%bind_ok)%bind_ok.
  apply append_exact in H1 as [A1 B1], H2 as [A2 B2], H3 as [A3 B3].
  assert (list_at (bs "initContainers") spec' = list_at (bs "initContainers") spec ++ [init_container p image]) as Hinit.
  { rewrite <-A1. unfold list_at. by rewrite B3, B2. }
  split_and!; [done| | | |].
  - replace (list_at (bs "containers") spec') with (list_at (bs "containers") s2) by (unfold list_at; by rewrite B3).
    rewrite A2. unfold list_at at 1. by rewrite B1.
  - rewrite A3. f_equal. unfold list_at. by rewrite B2, B1.
  - intros k Hk. rewrite !not_elem_of_cons in Hk. destruct Hk as (? & ? & ? & _). by rewrite B3, B2, B1.
  - intros p' image' cm'. unfold inject_pod_spec. rewrite bool_decide_true; [done|].
    rewrite container_names_at, Hinit. apply list_elem_of_omap. exists (init_container p image).
    split; [|done]. rewrite elem_of_app, list_elem_of_singleton. by right.
Qed.

(** ** The document *)

Lemma pod_path_spec kind path : pod_path kind = Some path → ∃ rest, path = bs "spec" :: rest.
Proof. unfold pod_path. repeat case_bool_decide; try done; intros [= <-]; by eexists. Qed.

Lemma pod_spec_ok doc path spec : pod_spec doc = Ok (path, spec) →
  get_path path doc = Some spec ∧ ∃ kind rest, (k ← get (bs "kind") doc; as_str k) = Some kind ∧
    pod_path kind = Some path ∧ path = bs "spec" :: rest.
Proof.
  unfold pod_spec, ok_or. intros (kind & Hk & (path' & Hp & (spec' & Hs & (l & _ & [= -> ->])%bind_ok)%bind_ok)%bind_ok)%bind_ok.
  destruct (_ ≫= as_str) as [k|]; [|done]. injection Hk as [= ->].
  destruct (pod_path kind) as [pt|] eqn:Ep; [|done]. injection Hp as [= ->].
  destruct (get_path path doc); [|done]. injection Hs as [= ->]. split; [done|].
  destruct (pod_path_spec _ _ Ep) as [rest ->]. by exists kind, rest.
Qed.

(** The head of a document beside its [spec]. *)
Lemma get_beside path rest new doc k : path = bs "spec" :: rest → k ≠ bs "spec" →
  get k (set_path path new doc) = get k doc.
Proof.
  intros -> Hne. pose proof (set_path_beside (bs "spec" :: rest) new doc [] (bs "spec") rest eq_refl k [] Hne) as H.
  cbn [app get_path] in H. by destruct (get k (set_path _ _ _)), (get k doc).
Qed.

Lemma pod_spec_set doc path spec spec' : pod_spec doc = Ok (path, spec) →
  list_at (bs "containers") spec' ≠ [] → pod_spec (set_path path spec' doc) = Ok (path, spec').
Proof.
  intros (Hg & kind & rest & Hk & Hp & Hr)%pod_spec_ok Hl. unfold pod_spec.
  rewrite (get_beside path rest) by done. rewrite Hk. cbn [ok_or]. simpl mbind. rewrite Hp. simpl mbind.
  rewrite (set_path_lookup path spec' doc spec Hg). simpl mbind. unfold list_at in Hl.
  by destruct (_ ≫= as_sequence).
Qed.

Lemma workload_name_set path rest spec doc : path = bs "spec" :: rest →
  workload_name (set_path path spec doc) = workload_name doc.
Proof. intros Hp. unfold workload_name, metadata_of. by rewrite (get_beside path rest). Qed.

(** C31. Injecting a workload writes to exactly three places: the init
    container, the sidecar and the volume are the last elements of their lists
    and what was there stays before them; every other key of the pod spec, and
    everything beside the path to it, reads as before; the volume is named after
    the ConfigMap that is printed with it, whose file is the rendered
    configuration; and injecting the result again, with any parameters, is
    refused. *)
Theorem inject_exact toml_parse resolve p image doc doc' cm :
  inject_doc toml_parse resolve p image doc = Ok (doc', cm) →
  ∃ name path spec spec' toml,
    workload_name doc = Ok name ∧ pod_spec doc = Ok (path, spec) ∧ pod_spec doc' = Ok (path, spec') ∧
    list_at (bs "initContainers") spec' = list_at (bs "initContainers") spec ++ [init_container p image] ∧
    list_at (bs "containers") spec' = list_at (bs "containers") spec ++ [sidecar p image] ∧
    list_at (bs "volumes") spec' = list_at (bs "volumes") spec ++ [config_volume (config_map_name name)] ∧
    (∀ k, k ∉ [bs "initContainers"; bs "containers"; bs "volumes"] → get k spec' = get k spec) ∧
    (∀ q key rest k tail, path = q ++ key :: rest → k ≠ key → get_path (q ++ k :: tail) doc' = get_path (q ++ k :: tail) doc) ∧
    render_config_toml toml_parse resolve p = Ok toml ∧
    get_path [bs "metadata"; bs "name"] cm = Some (VString (config_map_name name)) ∧
    get_path [bs "data"; bs "openrusty.toml"] cm = Some (VString toml) ∧
    ∀ p' image', inject_doc toml_parse resolve p' image' doc' = Err AlreadyInjected.
Proof.
  intros (name & Hn & ([path spec] & Hs & (spec' & Hi & (cm' & Hc & [= <- <-])%bind_ok)%bind_ok)%bind_ok)%bind_ok.
  apply inject_pod_spec_exact in Hi as (Hinit & Hcont & Hvol & Hkeys & Htwice).
  assert (pod_spec (set_path path spec' doc) = Ok (path, spec')) as Hs'.
  { apply pod_spec_set with spec; [done|]. rewrite Hcont. by intros [_ ?]%app_nil. }
  apply bind_ok in Hc as (toml & Ht & [= <-]).
  destruct (pod_spec_ok _ _ _ Hs) as (_ & kind & rest & _ & _ & Hpath).
  exists name, path, spec, spec', toml. split_and!; try done.
  - intros q key r k tail Hq Hne. by eapply set_path_beside.
  - intros p' image'. unfold inject_doc. rewrite (workload_name_set path rest) by done. rewrite Hn.
    simpl mbind. rewrite Hs'. simpl mbind. by rewrite Htwice.
Qed.

(** ** The command of the init container *)

Definition no_digit_head (e : bytes) : bool := match e with c :: _ => negb (is_ascii_digit c) | [] => false end.

Lemma strip_any_head encs b s : forallb no_digit_head encs = true → is_ascii_digit b = true → strip_any encs (b :: s) = None.
Proof.
  intros H Hb. induction encs as [|e encs IH]; [done|]. cbn [forallb] in H. apply andb_true_iff in H as [He H].
  cbn [strip_any]. rewrite (IH H). destruct (strip_prefix e (b :: s)) as [r|] eqn:E; [|done].
  apply strip_prefix_Some in E. destruct e as [|c e]; [done|]. injection E as -> _. cbn in He. by rewrite Hb in He.
Qed.

Lemma strip_digit b s : is_ascii_digit b = true →
  strip_any whitespace_encodings (b :: s) = None ∧ strip_any (map reverse whitespace_encodings) (b :: s) = None.
Proof. intros Hb. split; (apply strip_any_head; [by vm_compute|done]). Qed.

Lemma trim_digits s : forallb is_ascii_digit s = true → trim s = s.
Proof.
  intros H. destruct s as [|b s]; [done|]. apply trim_idempotent_on_clean.
  - cbn [forallb] in H. apply andb_true_iff in H as [H _]. exact (proj1 (strip_digit b s H)).
  - destruct (reverse (b :: s)) as [|c r] eqn:E; [done|]. refine (proj2 (strip_digit c r _)).
    assert (c ∈ b :: s) as Hc by (apply elem_of_reverse; rewrite E; by left).
    rewrite forallb_forall in H. by apply H, list_elem_of_In.
Qed.

Lemma fmt_radix_nonempty fuel z acc : acc ≠ [] ∨ fuel ≠ O → fmt_radix fuel 10 z acc ≠ [].
Proof.
  revert z acc. induction fuel as [|fuel IH]; intros z acc Ha; [by destruct Ha|]. cbn [fmt_radix].
  destruct (_ =? 0); [done|]. apply IH. by left.
Qed.

Lemma fmt_dec_nonempty z : fmt_dec z ≠ [].
Proof. apply fmt_radix_nonempty. by right. Qed.

Lemma trim_fmt_dec z : trim (fmt_dec z) = fmt_dec z.
Proof. apply trim_digits, fmt_dec_digits. Qed.

Lemma parse_port_fmt n : in_u 16 n → Init.parse_port (fmt_dec n) = if n =? 0 then Err (InvalidPort (fmt_dec n)) else Ok n.
Proof. unfold in_u, parse_port. intros Hn. by rewrite parse_fmt_dec by lia. Qed.

(** A printed list of ports is read back, unless port 0 is in it. *)
Lemma parse_ports_fmt l : l ≠ [] → Forall (in_u 16) l →
  Init.parse_ports (join [x2c] (map fmt_dec l)) =
    if existsb (Z.eqb 0) l then Err (InvalidPort (bs "0")) else Ok l.
Proof.
  intros Hne Hl. unfold Init.parse_ports. rewrite split_on_joined.
  2: by destruct l.
  2: { apply Forall_map, Forall_forall. intros n _. by apply fmt_dec_without. }
  assert (List.filter nonempty_trimmed (map fmt_dec l) = map fmt_dec l) as ->.
  { clear. induction l as [|n l IH]; [done|]. cbn [map List.filter]. unfold nonempty_trimmed at 1.
    rewrite trim_fmt_dec, bool_decide_false by apply fmt_dec_nonempty. cbn. by rewrite IH. }
  clear Hne. induction l as [|n l IH]; [done|]. apply Forall_cons in Hl as [Hn Hl]. cbn [map try_map existsb].
  rewrite trim_fmt_dec, parse_port_fmt by done. rewrite Z.eqb_sym. destruct (Z.eqb_spec 0 n) as [<-|]; [done|].
  simpl mbind. rewrite IH by done. by destruct (existsb _ l).
Qed.

Lemma dedup_elem l x : x ∈ dedup l ↔ x ∈ l.
Proof.
  induction l as [|y l IH]; [done|]. cbn [dedup]. rewrite elem_of_cons, <-IH.
  destruct (dedup l) as [|z r]; [set_solver|]. destruct (Z.eqb_spec y z) as [->|]; set_solver.
Qed.

Lemma ignored_ports_elem p n : n ∈ ignored_ports p ↔ n = ADMIN_PORT ∨ n ∈ ij_skip_inbound_ports p.
Proof. unfold ignored_ports. rewrite dedup_elem, sort_by_perm. set_solver. Qed.

(** ** What the annotations can say *)

Definition ports_ok (l : list Z) : Prop := Forall (in_u 16) l.

Record inject_params_ok (p : InjectParams) : Prop := {
  io_uid : in_u 32 (ij_proxy_uid p);
  io_skip : ports_ok (ij_skip_inbound_ports p);
  io_opaque : ports_ok (ij_opaque_ports p);
  io_app : from_option (in_u 16) True (ij_app_port p);
}.

Lemma ports_loop_ok name raw parts out l : ports_loop name raw parts out = Ok l → ports_ok out → ports_ok l.
Proof.
  revert out. induction parts as [|part parts IH]; intros out; cbn [ports_loop]; [by intros [= ->]|].
  case_bool_decide; [done|]. destruct (parse_uint 16 (trim part)) as [n|] eqn:E; [|done]. intros H1 Ho.
  apply IH in H1; [done|]. case_bool_decide; [done|]. apply Forall_app. split; [done|].
  apply Forall_singleton. by apply parse_uint_range in E.
Qed.

Lemma apply_annotation_ok name value p p' : apply_annotation name value p = Ok p' → inject_params_ok p → inject_params_ok p'.
Proof.
  unfold apply_annotation, Inject.parse_ports. intros H [Hu Hs Ho Ha]. revert H.
  repeat (case_bool_decide; [intros (y & Hy & [= <-])%bind_ok || intros [= <-]|]); try (by intros [= <-]); constructor; cbn; try done.
  all: try (apply ports_loop_ok in Hy; [done|constructor]).
  - destruct (parse_uint 32 _) eqn:E; [|done]. injection Hy as [= ->]. by apply parse_uint_range in E.
  - destruct (parse_uint 16 _) eqn:E; [|done]. injection Hy as [= ->]. by apply parse_uint_range in E.
Qed.

Lemma annotation_loop_ok entries p p' : annotation_loop entries p = Ok p' → inject_params_ok p → inject_params_ok p'.
Proof.
  revert p. induction entries as [|[k v] entries IH]; intros p; cbn [annotation_loop]; [by intros [= ->]|].
  destruct (strip_prefix _ _); [|apply IH]. intros (p1 & H1 & H2)%bind_ok Hp.
  eapply IH; [exact H2|]. by eapply apply_annotation_ok.
Qed.

Lemma collect_annotations_ok doc p : collect_annotations doc = Ok p → inject_params_ok p.
Proof.
  unfold collect_annotations, parse_annotations. intros (p1 & H1 & H2)%bind_ok.
  destruct (_ && _); [done|]. injection H2 as [= <-]. apply annotation_loop_ok in H1; [done|].
  by constructor; cbn; try constructor; unfold in_u; lia.
Qed.

(** One flag with its value in the next argument. *)
Lemma parse_loop_flag fuel flag v argv st effect st' : split_flag flag = (flag, None) → flag_effect flag = Some effect →
  effect v st = Ok st' → parse_loop (S fuel) (flag :: v :: argv) st = parse_loop fuel argv st'.
Proof. intros Hs He Hv. cbn [parse_loop]. rewrite Hs, He. simpl mbind. by rewrite Hv. Qed.

Lemma parse_loop_flag_err fuel flag v argv st effect e : split_flag flag = (flag, None) → flag_effect flag = Some effect →
  effect v st = Err e → parse_loop (S fuel) (flag :: v :: argv) st = Err e.
Proof. intros Hs He Hv. cbn [parse_loop]. rewrite Hs, He. simpl mbind. by rewrite Hv. Qed.

Lemma parse_port_const n : in_u 16 n → n ≠ 0 → Init.parse_port (fmt_dec n) = Ok n.
Proof. intros Hn Hz. rewrite parse_port_fmt by done. by apply Z.eqb_neq in Hz as ->. Qed.

(** C32. The command the init container is given is one [iptables-init]
    understands, and it means what the annotations said: the proxy's uid is the
    one the sidecar runs under, so its own traffic is exempt; the two redirect
    ports are the listeners of the sidecar; the admin port and every skipped port
    are exempt. Except when port 0 is among the skipped ports: it is accepted
    here and the command is refused there. *)
Theorem inject_init_agree doc p image : collect_annotations doc = Ok p →
  get_path [bs "securityContext"; bs "runAsUser"] (sidecar p image) = Some (number (ij_proxy_uid p)) ∧
  (∀ n, n ∈ ignored_ports p ↔ n = ADMIN_PORT ∨ n ∈ ij_skip_inbound_ports p) ∧
  parse_args (drop 2 (init_command p)) =
    if existsb (Z.eqb 0) (ij_skip_inbound_ports p) then Err (InvalidPort (bs "0"))
    else Ok {| ip_proxy_uid := ij_proxy_uid p; ip_inbound_port := INBOUND_PORT; ip_outbound_port := OUTBOUND_PORT;
               ip_ignore_inbound_ports := ignored_ports p; ip_ignore_outbound_ports := [443];
               ip_skip_subnets := []; ip_backend := Auto; ip_dry_run := false |}.
Proof.
  intros [Hu Hs _ _]%collect_annotations_ok. split_and!; [unfold sidecar; by destruct (opaque_env p)|apply ignored_ports_elem|].
  assert (Init.parse_ports (ignore_inbound_ports p) =
    if existsb (Z.eqb 0) (ij_skip_inbound_ports p) then Err (InvalidPort (bs "0")) else Ok (ignored_ports p)) as Hp.
  { unfold ignore_inbound_ports. rewrite parse_ports_fmt.
    - replace (existsb (Z.eqb 0) (ignored_ports p)) with (existsb (Z.eqb 0) (ij_skip_inbound_ports p)); [done|].
      apply eq_bool_prop_intro. rewrite !Is_true_true, !existsb_exists. setoid_rewrite <-list_elem_of_In.
      setoid_rewrite ignored_ports_elem. split; intros (x & Hx & Hz); exists x; [by auto|].
      split; [|done]. apply Z.eqb_eq in Hz as <-. by destruct Hx.
    - intros He. assert (ADMIN_PORT ∈ ignored_ports p) as H by (apply ignored_ports_elem; by left). rewrite He in H. by apply elem_of_nil in H.
    - apply Forall_forall. intros n [->|Hn]%ignored_ports_elem; [done|]. by eapply Forall_forall in Hn. }
  unfold parse_args. change (drop 2 (init_command p)) with
    [bs "--proxy-uid"; fmt_dec (ij_proxy_uid p); bs "--inbound-port"; fmt_dec INBOUND_PORT;
     bs "--outbound-port"; fmt_dec OUTBOUND_PORT; bs "--ignore-inbound-ports"; ignore_inbound_ports p].
  change (length _) with 8%nat.
  unfold in_u in Hu. erewrite parse_loop_flag; [|reflexivity..|cbn beta; unfold parse_num; rewrite parse_fmt_dec by lia; reflexivity].
  do 2 (erewrite parse_loop_flag; [|reflexivity..|cbn beta; rewrite parse_port_const by done; reflexivity]).
  destruct (existsb _ _).
  - erewrite parse_loop_flag_err; [|reflexivity..|cbn beta; rewrite Hp; reflexivity]. done.
  - erewrite parse_loop_flag; [|reflexivity..|cbn beta; rewrite Hp; reflexivity]. done.
Qed.

(** * Concrete workloads *)

Definition ex_config : Config := {|
  cf_server := {| sv_listen := loopback INBOUND_PORT; sv_log_level := default_log_level; sv_log_file := None;
                  sv_http1_only := false; sv_listeners := []; sv_shutdown_grace_ms := default_shutdown_grace_ms |};
  cf_admin := {| ad_token := None |};
  cf_plugins := {| pl_dir := bs "/dev/null-plugins"; pl_order := []; pl_timeout_ms := default_timeout_ms;
                   pl_max_memory_mb := default_max_memory_mb; pl_on_failure := FailOpen; pl_settings := ∅;
                   pl_instance_pool_size := default_instance_pool_size; pl_log_on_no_route := true |};
  cf_dynamic := None; cf_upstreams := []; cf_routes := []; cf_ingress := default_ingress;
  cf_egress := {| eg_mode := Direct; eg_gateway := [] |} |}.

Definition ex_metadata (key value : string) : string * Value := ("metadata"%string, mapping [
  ("name", VString (bs "web")); ("annotations", mapping [(key, VString (bs value))])]%string).

Definition ex_containers : Value := mapping [("containers", VSequence [mapping [("name", VString (bs "app"))]])]%string.

Definition ex_deployment (skip : string) : Value := mapping [
  ("kind", VString (bs "Deployment"));
  ex_metadata "config.openrusty.io/skip-inbound-ports" skip;
  ("spec", mapping [("template", mapping [("spec", ex_containers)])])]%string.

(** A CronJob whose pods ask to be left alone. *)
Definition ex_cron_job : Value := mapping [
  ("kind", VString (bs "CronJob"));
  ("metadata", mapping [("name", VString (bs "web"))]);
  ("spec", mapping [("jobTemplate", mapping [("spec", mapping [("template", mapping [
    ex_metadata "config.openrusty.io/inject" "disabled"; ("spec", ex_containers)])])])])]%string.

Definition ex_toml (_ : bytes) : result bytes Config := Ok ex_config.
Definition ex_resolve (_ : bytes) : option (list SocketAddr) := None.

(** The annotations of the pod template of a CronJob are not looked at: it is
    injected. *)
Lemma cron_job_template_unread :
  collect_annotations ex_cron_job = Ok inject_default ∧
  is_ok (inject_doc ex_toml ex_resolve inject_default IMAGE ex_cron_job) = true.
Proof. split; vm_compute; reflexivity. Qed.

(** The gateway's address is pasted between quotes as it is. *)
Lemma gateway_unescaped p : ij_egress_mode p = Gateway →
  gateway_line p = bs "gateway = " ++ [x22] ++ ij_egress_gateway p ++ [x22; x0a].
Proof. intros E. unfold gateway_line. rewrite bool_decide_true by done. unfold line, quoted. cbn [List.concat]. by rewrite !app_nil_r, <-!app_assoc. Qed.

Lemma inject_exact_witness :
  ∃ doc' cm name path spec spec' toml,
    inject_doc ex_toml ex_resolve inject_default IMAGE (ex_deployment "9000") = Ok (doc', cm) ∧
    workload_name (ex_deployment "9000") = Ok name ∧ pod_spec (ex_deployment "9000") = Ok (path, spec) ∧
    pod_spec doc' = Ok (path, spec') ∧
    list_at (bs "containers") spec' = list_at (bs "containers") spec ++ [sidecar inject_default IMAGE] ∧
    get_path [bs "data"; bs "openrusty.toml"] cm = Some (VString toml) ∧
    inject_doc ex_toml ex_resolve inject_default IMAGE doc' = Err AlreadyInjected.
Proof.
  assert (is_ok (inject_doc ex_toml ex_resolve inject_default IMAGE (ex_deployment "9000")) = true) as H
    by (vm_compute; reflexivity).
  destruct (inject_doc _ _ _ _ _) as [[doc' cm]|e] eqn:E; [|done].
  destruct (inject_exact _ _ _ _ _ _ _ E) as (name & path & spec & spec' & toml & Hn & Hs & Hs' & _ & Hc & _ & _ & _ & _ & _ & Hd & Ht).
  by exists doc', cm, name, path, spec, spec', toml.
Defined.

(** Port 9000 is exempt; port 0 breaks the init container. *)
Lemma inject_init_agree_witness :
  ∃ p p0, collect_annotations (ex_deployment "9000") = Ok p ∧ collect_annotations (ex_deployment "9000, 0") = Ok p0 ∧
    is_ok (parse_args (drop 2 (init_command p))) = true ∧
    parse_args (drop 2 (init_command p0)) = Err (InvalidPort (bs "0")).
Proof.
  destruct (collect_annotations (ex_deployment "9000")) as [p|e] eqn:E; [|by vm_compute in E].
  destruct (collect_annotations (ex_deployment "9000, 0")) as [p0|e] eqn:E0; [|by vm_compute in E0].
  destruct (inject_init_agree _ p IMAGE E) as (_ & _ & H). destruct (inject_init_agree _ p0 IMAGE E0) as (_ & _ & H0).
  exists p, p0. vm_compute in E, E0. injection E as <-. injection E0 as <-. split_and!; [done|done|by rewrite H|by rewrite H0].
Defined.
