(* ===== verification/Auth.v ===== *)
(** Credentials for the Kubernetes apiserver and the client built from them
    ([openrusty-k8s/src/auth/], [client.rs], [error.rs]). *)

From S2P Require Import Prelude Text Config.
From Stdlib Require Import ZArith Lia.
From stdpp Require Import options.

(** * The kubeconfig document *)

Record ExecEnvVar := { ee_name : bytes; ee_value : bytes }.

Record ExecConfig := {
  ex_command : bytes;
  ex_args : list bytes;
  ex_env : list ExecEnvVar;
  ex_api_version : option bytes;
}.

Record ClusterData := {
  cd_server : bytes;
  cd_certificate_authority : option bytes;
  cd_certificate_authority_data : option bytes;
}.

Record NamedCluster := { nc_name : bytes; nc_cluster : ClusterData }.

Record UserData := {
  ud_token : option bytes;
  ud_username : option bytes;
  ud_password : option bytes;
  ud_client_certificate : option bytes;
  ud_client_key : option bytes;
  ud_client_certificate_data : option bytes;
  ud_client_key_data : option bytes;
  ud_exec : option ExecConfig;
}.

Record NamedUser := { nu_name : bytes; nu_user : UserData }.

Record ContextData := { cx_cluster : bytes; cx_user : bytes }.

Record NamedContext := { nx_name : bytes; nx_context : ContextData }.

Record Kubeconfig := {
  kc_clusters : list NamedCluster;
  kc_users : list NamedUser;
  kc_contexts : list NamedContext;
  kc_current_context : option bytes;
}.

(** What a [CredentialMissing] names. *)
Inductive Missing :=
| NoCurrentContext
| NoContext (name : bytes)
| NoCluster (name : bytes)
| NoUser (name : bytes)
| NoKubeconfig (paths : list bytes)
| NoCa
| CaFile (path : bytes)
| ClientCertFile (path : bytes)
| ClientKeyFile (path : bytes)
| KeyWithoutCert (user : bytes)
| CertWithoutKey (user : bytes)
| NoUsableCredential (user : bytes)
| NotInCluster
| InClusterToken
| InClusterCa.

Inductive Invalid := EmptyToken (user : bytes) | BasicAuth (user : bytes) | BadHeaderBytes.

Inductive PluginFailure :=
| FailedToSpawn
| BadStatus (stderr : bytes)
| BadDocument
| NoToken.

Inductive TlsFailure := BadCertPem | RejectedCa | EmptyClientChain | BadKeyPem | NoPrivateKey | UnsupportedKey.

Inductive K8sError :=
| Io (path : bytes)
| KubeconfigParse (path : bytes)
| CredentialMissing (m : Missing)
| CredentialInvalid (i : Invalid)
| Base64 (field : bytes)
| Exec (command : bytes) (message : PluginFailure)
| Tls (t : TlsFailure)
| Endpoint (url : bytes).

Definition find_by {A} (f : A → bool) (l : list A) : option A := head (List.filter f l).

(** [resolve]: the cluster and the user a context binds. *)
Definition resolve (config : Kubeconfig) (override_context : option bytes) : result K8sError (NamedCluster * NamedUser) :=
  name ← ok_or (match override_context with Some n => Some n | None => kc_current_context config end)
           (CredentialMissing NoCurrentContext);
  context ← ok_or (find_by (λ c, bool_decide (nx_name c = name)) (kc_contexts config))
           (CredentialMissing (NoContext name));
  cluster ← ok_or (find_by (λ c, bool_decide (nc_name c = cx_cluster (nx_context context))) (kc_clusters config))
           (CredentialMissing (NoCluster (cx_cluster (nx_context context))));
  user ← ok_or (find_by (λ u, bool_decide (nu_name u = cx_user (nx_context context))) (kc_users config))
           (CredentialMissing (NoUser (cx_user (nx_context context))));
  Ok (cluster, user).

(** * Paths *)

Definition is_absolute (path : bytes) : bool := starts_with [x2f] path.

(** [Path::join]. *)
Definition path_join (base p : bytes) : bytes :=
  if is_absolute p then p
  else if bool_decide (base = []) || ends_with [x2f] base then base ++ p
  else base ++ [x2f] ++ p.

(** A component that separates nothing: an empty one, or a dot that is not the
    first of a relative path. *)
Fixpoint drop_idle (absolute : bool) (rparts : list bytes) : list bytes :=
  match rparts with
  | part :: rest =>
      if bool_decide (part = []) || (bool_decide (part = bs ".") && (absolute || negb (bool_decide (rest = []))))
      then drop_idle absolute rest
      else rparts
  | [] => []
  end.

(** [Path::parent]. *)
Definition path_parent (path : bytes) : option bytes :=
  let absolute := is_absolute path in
  match drop_idle absolute (reverse (split_on x2f path)) with
  | [] => None
  | _ :: rest =>
      match drop_idle absolute rest with
      | [] => Some (if absolute then [x2f] else [])
      | kept => Some (join [x2f] (reverse kept))
      end
  end.

Example path_parent_samples :
  map (λ s, path_parent (bs s)) ["/home/u/.kube/config"; "config"; "/config"; "/"; "a/b/"; "a/./b/."; ""; "./k"]%string =
  map (option_map bs) [Some "/home/u/.kube"; Some ""; Some "/"; None; Some "a"; Some "a"; None; Some "."]%string.
Proof. vm_compute. reflexivity. Qed.

Definition home_kubeconfig (home : bytes) : bytes := path_join (path_join home (bs ".kube")) (bs "config").

Definition resolve_relative (base : option bytes) (path : bytes) : bytes :=
  if is_absolute path then path else path_join (default (bs ".") base) path.

(** * The machine *)

(** What the process sees of its surroundings: variables as the bytes they
    hold, files as their contents. *)
Record Env := {
  env_var_os : bytes → option bytes;
  env_exists : bytes → bool;
  env_read : bytes → option bytes;
}.

(** [env::var(..).ok()] is absent for a value that is not Unicode. *)
Definition env_var (e : Env) (name : bytes) : option bytes :=
  v ← env_var_os e name; if valid_utf8 v then Some v else None.

Definition read_to_string (e : Env) (path : bytes) : option bytes :=
  v ← env_read e path; if valid_utf8 v then Some v else None.

Record Uri := {
  uri_scheme : option bytes;
  uri_authority : option bytes;
  uri_host : option bytes;
  uri_path_and_query : bytes;
}.

Record Cluster := { cl_endpoint : Uri; cl_ca : bytes }.

Inductive Credentials :=
| Bearer (token : bytes)
| ClientCert (cert key : bytes)
| ExecToken (config : ExecConfig).

(** * Loading *)

Definition blank (s : bytes) : bool := bool_decide (trim s = []).

Definition strict_kubeconfig_source (explicit : bool) (kubeconfig_env : option bytes) : bool :=
  explicit || match kubeconfig_env with Some l => negb (blank l) | None => false end.

Definition env_entries (l : bytes) : list bytes := List.filter (λ p, negb (bool_decide (p = []))) (split_on x3a l).

Definition kubeconfig_candidates (explicit kubeconfig_env home : option bytes) : list bytes :=
  match explicit with
  | Some path => [path]
  | None =>
      match kubeconfig_env with
      | Some l => if blank l then option_list (home_kubeconfig <$> home) else env_entries l
      | None => option_list (home_kubeconfig <$> home)
      end
  end.

Section loading.
(** The YAML and JSON readers, the base64 decoder, the URI parser, the
    operating system's process call: command, arguments and extra variables to
    success, standard output and standard error. *)
Context (yaml_kubeconfig : bytes → option Kubeconfig).
Context (base64_decode : bytes → option bytes).
Context (parse_uri : bytes → option Uri).
Context (spawn : bytes → list bytes → gmap bytes bytes → option (bool * bytes * bytes)).
Context (json_credential : bytes → option (option (option bytes))).

Definition decode_data (field value : bytes) : result K8sError bytes :=
  ok_or (base64_decode (trim value)) (Base64 field).

Definition parse_endpoint (server : bytes) : result K8sError Uri :=
  match parse_uri (trim server) with
  | None => Err (Endpoint (trim server))
  | Some uri =>
      if bool_decide (uri_scheme uri ∈ [Some (bs "https"); Some (bs "http")]) && is_some (uri_host uri) then Ok uri
      else Err (Endpoint (trim server))
  end.

Definition load_cluster (e : Env) (server : bytes) (cluster : ClusterData) (kubeconfig_path : bytes)
    : result K8sError Cluster :=
  endpoint ← parse_endpoint server;
  ca ← (match cd_certificate_authority_data cluster with
        | Some data => decode_data (bs "certificate-authority-data") data
        | None =>
            match cd_certificate_authority cluster with
            | Some ca_path =>
                let resolved := resolve_relative (path_parent kubeconfig_path) ca_path in
                ok_or (env_read e resolved) (CredentialMissing (CaFile resolved))
            | None => Err (CredentialMissing NoCa)
            end
        end);
  Ok {| cl_endpoint := endpoint; cl_ca := ca |}.

(** A [-data] field wins over a path. *)
Definition material (e : Env) (kubeconfig_path field : bytes) (data path : option bytes)
    (unreadable : bytes → Missing) (absent : Missing) : result K8sError bytes :=
  match data with
  | Some encoded => decode_data field encoded
  | None =>
      match path with
      | Some p =>
          let resolved := resolve_relative (path_parent kubeconfig_path) p in
          ok_or (env_read e resolved) (CredentialMissing (unreadable resolved))
      | None => Err (CredentialMissing absent)
      end
  end.

Definition client_cert_credentials (e : Env) (user : NamedUser) (kubeconfig_path : bytes) : result K8sError Credentials :=
  let data := nu_user user in
  cert ← material e kubeconfig_path (bs "client-certificate-data") (ud_client_certificate_data data)
           (ud_client_certificate data) ClientCertFile (KeyWithoutCert (nu_name user));
  key ← material e kubeconfig_path (bs "client-key-data") (ud_client_key_data data)
          (ud_client_key data) ClientKeyFile (CertWithoutKey (nu_name user));
  Ok (ClientCert cert key).

Definition credentials_for_user (e : Env) (user : NamedUser) (kubeconfig_path : bytes) : result K8sError Credentials :=
  let data := nu_user user in
  match ud_token data with
  | Some token =>
      if blank token then Err (CredentialInvalid (EmptyToken (nu_name user))) else Ok (Bearer (trim token))
  | None =>
      if is_some (ud_client_certificate data) || is_some (ud_client_certificate_data data)
      then client_cert_credentials e user kubeconfig_path
      else
        match ud_exec data with
        | Some config => Ok (ExecToken config)
        | None =>
            if is_some (ud_username data) || is_some (ud_password data)
            then Err (CredentialInvalid (BasicAuth (nu_name user)))
            else Err (CredentialMissing (NoUsableCredential (nu_name user)))
        end
  end.

Definition load_kubeconfig_file (e : Env) (path : bytes) : result K8sError (Cluster * Credentials) :=
  text ← ok_or (read_to_string e path) (Io path);
  config ← ok_or (yaml_kubeconfig text) (KubeconfigParse path);
  '(named_cluster, named_user) ← resolve config None;
  cluster ← load_cluster e (cd_server (nc_cluster named_cluster)) (nc_cluster named_cluster) path;
  credentials ← credentials_for_user e named_user path;
  Ok (cluster, credentials).

Definition SERVICE_ACCOUNT_DIR : bytes := bs "/var/run/secrets/kubernetes.io/serviceaccount".
Definition HOST_ENV : bytes := bs "KUBERNETES_SERVICE_HOST".
Definition PORT_ENV : bytes := bs "KUBERNETES_SERVICE_PORT".

(** An IPv6 host is bracketed. *)
Definition endpoint (host port : bytes) : result K8sError Uri :=
  if bool_decide (host = []) || bool_decide (port = []) then Err (CredentialMissing NotInCluster)
  else
    let host := if bool_decide (x3a ∈ host) then [x5b] ++ host ++ [x5d] else host in
    let url := bs "https://" ++ host ++ [x3a] ++ port in
    ok_or (parse_uri url) (Endpoint url).

Definition load_with_root (e : Env) (root host port : bytes) : result K8sError (Cluster * Credentials) :=
  token ← ok_or (read_to_string e (path_join root (bs "token"))) (CredentialMissing InClusterToken);
  ca ← ok_or (env_read e (path_join root (bs "ca.crt"))) (CredentialMissing InClusterCa);
  ep ← endpoint host port;
  Ok ({| cl_endpoint := ep; cl_ca := ca |}, Bearer (trim token)).

Definition in_cluster_load (e : Env) : result K8sError (Cluster * Credentials) :=
  load_with_root e SERVICE_ACCOUNT_DIR (default [] (env_var e HOST_ENV)) (default [] (env_var e PORT_ENV)).

Definition load (e : Env) (explicit_path : option bytes) : result K8sError (Cluster * Credentials) :=
  let kubeconfig_env := env_var e (bs "KUBECONFIG") in
  let candidates := kubeconfig_candidates explicit_path kubeconfig_env (env_var e (bs "HOME")) in
  if bool_decide (candidates = []) then in_cluster_load e
  else
    match find_by (env_exists e) candidates with
    | Some candidate => load_kubeconfig_file e candidate
    | None =>
        if negb (strict_kubeconfig_source (is_some explicit_path) kubeconfig_env) then in_cluster_load e
        else Err (CredentialMissing (NoKubeconfig candidates))
    end.

(** * The credential plugin *)

(** Of two entries of one name the later wins. *)
Definition env_map (config : ExecConfig) : gmap bytes bytes :=
  foldl (λ m v, <[ee_name v := ee_value v]> m) ∅ (ex_env config).

Definition token_from_output (command stdout : bytes) : result K8sError bytes :=
  match json_credential stdout with
  | None => Err (Exec command BadDocument)
  | Some status =>
      match status ≫= id with
      | Some token => if bool_decide (token = []) then Err (Exec command NoToken) else Ok token
      | None => Err (Exec command NoToken)
      end
  end.

Definition run_plugin (config : ExecConfig) : result K8sError bytes :=
  match spawn (ex_command config) (ex_args config) (env_map config) with
  | None => Err (Exec (ex_command config) FailedToSpawn)
  | Some (success, stdout, stderr) =>
      if negb success then Err (Exec (ex_command config) (BadStatus (trim (from_utf8_lossy stderr))))
      else token_from_output (ex_command config) (from_utf8_lossy stdout)
  end.

(** * The client *)

Definition watch_path (path resource_version : bytes) : bytes :=
  let sep := if bool_decide (x3f ∈ path) then x26 else x3f in
  if bool_decide (resource_version = []) then path ++ [sep] ++ bs "watch=1&allowWatchBookmarks=true"
  else path ++ [sep] ++ bs "watch=1&allowWatchBookmarks=true&resourceVersion=" ++ resource_version.

(** The URI builder: scheme, authority, path and query. *)
Context (build_uri : bytes → bytes → bytes → option Uri).

Definition request_uri (ep : Uri) (path_and_query : bytes) : result K8sError Uri :=
  let scheme := default (bs "https") (uri_scheme ep) in
  authority ← ok_or (uri_authority ep) (Endpoint (uri_path_and_query ep));
  let path := if starts_with [x2f] path_and_query then path_and_query else [x2f] ++ path_and_query in
  ok_or (build_uri scheme authority path) (Endpoint (scheme ++ bs "://" ++ authority ++ path_and_query)).

(** rustls: PEM readers, the root store, the signing keys; and what a header
    value may hold. *)
Context {Cert Key Signer : Type}.
Context (pem_certs : bytes → option (list Cert)) (pem_key : bytes → option (option Key)).
Context (add_root : Cert → bool) (any_supported_type : Key → option Signer).
Context (header_value_ok : bytes → bool).

Definition parse_cert_pem (pem : bytes) : result K8sError (list Cert) := ok_or (pem_certs pem) (Tls BadCertPem).

Definition parse_key_pem (pem : bytes) : result K8sError Key :=
  key ← ok_or (pem_key pem) (Tls BadKeyPem);
  ok_or key (Tls NoPrivateKey).

Record TlsConfig := { tc_roots : list Cert; tc_identity : option (list Cert * Signer) }.

Definition build_tls_config (ca_pem : bytes) (client_cert : option (bytes * bytes)) : result K8sError TlsConfig :=
  roots ← parse_cert_pem ca_pem;
  _ ← (if forallb add_root roots then Ok () else Err (Tls RejectedCa));
  match client_cert with
  | None => Ok {| tc_roots := roots; tc_identity := None |}
  | Some (cert_pem, key_pem) =>
      certs ← parse_cert_pem cert_pem;
      if bool_decide (length certs = 0%nat) then Err (Tls EmptyClientChain)
      else
        key ← parse_key_pem key_pem;
        signer ← ok_or (any_supported_type key) (Tls UnsupportedKey);
        Ok {| tc_roots := roots; tc_identity := Some (certs, signer) |}
  end.

Record Client := { ct_endpoint : Uri; ct_tls : TlsConfig; ct_authorization : option bytes }.

Definition bearer_header (token : bytes) : result K8sError bytes :=
  let v := bs "Bearer " ++ token in
  if header_value_ok v then Ok v else Err (CredentialInvalid BadHeaderBytes).

Definition client_new (cluster : Cluster) (credentials : Credentials) : result K8sError Client :=
  '(authorization, client_cert) ←
    (match credentials with
     | Bearer token => h ← bearer_header token; Ok (Some h, None)
     | ExecToken config => token ← run_plugin config; h ← bearer_header token; Ok (Some h, None)
     | ClientCert cert key => Ok (None, Some (cert, key))
     end);
  tls ← build_tls_config (cl_ca cluster) client_cert;
  Ok {| ct_endpoint := cl_endpoint cluster; ct_tls := tls; ct_authorization := authorization |}.

Record ApiRequest := { ar_uri : Uri; ar_headers : list (bytes * bytes) }.

Definition request_builder (c : Client) (uri : Uri) : ApiRequest := {|
  ar_uri := uri;
  ar_headers := [(bs "accept", bs "application/json")] ++
    match ct_authorization c with Some a => [(bs "authorization", a)] | None => [] end |}.

(** The request [get] sends. *)
Definition get (c : Client) (path : bytes) : result K8sError ApiRequest :=
  uri ← request_uri (ct_endpoint c) path;
  Ok (request_builder c uri).

Definition watch_raw (c : Client) (path resource_version : bytes) : result K8sError ApiRequest :=
  get c (watch_path path resource_version).

Definition client_from_kubeconfig (e : Env) (path : bytes) : result K8sError Client :=
  '(cluster, credentials) ← load_kubeconfig_file e path;
  client_new cluster credentials.

(** * The documented order *)

Inductive Source := FromFile (path : bytes) | FromCluster | NoSource (paths : list bytes).

(** The first source that applies: the explicit path; a set [$KUBECONFIG], whose
    first existing entry counts; the home file if it exists; the service
    account. *)
Definition documented_source (exists_ : bytes → bool) (explicit kubeconfig home : option bytes) : Source :=
  match explicit with
  | Some p => if exists_ p then FromFile p else NoSource [p]
  | None =>
      match kubeconfig with
      | Some l =>
          if blank l then
            match home with
            | Some h => if exists_ (home_kubeconfig h) then FromFile (home_kubeconfig h) else FromCluster
            | None => FromCluster
            end
          else match find_by exists_ (env_entries l) with Some p => FromFile p | None => NoSource (env_entries l) end
      | None =>
          match home with
          | Some h => if exists_ (home_kubeconfig h) then FromFile (home_kubeconfig h) else FromCluster
          | None => FromCluster
          end
      end
  end.

Definition load_source (e : Env) (s : Source) : result K8sError (Cluster * Credentials) :=
  match s with
  | FromFile p => load_kubeconfig_file e p
  | FromCluster => in_cluster_load e
  | NoSource paths => Err (CredentialMissing (NoKubeconfig paths))
  end.

(** A value that [env::var] hides: it is set and not Unicode. *)
Definition hidden (value : option bytes) : bool :=
  match value with Some v => negb (valid_utf8 v) | None => false end.

(** A set [$KUBECONFIG] that is hidden, where it would count. *)
Definition unheard (explicit kubeconfig : option bytes) : bool := negb (is_some explicit) && hidden kubeconfig.

(** A set [$KUBECONFIG] of separators only. *)
Definition names_no_file (explicit kubeconfig : option bytes) : bool :=
  match explicit, kubeconfig with
  | None, Some l => negb (blank l) && bool_decide (env_entries l = [])
  | _, _ => false
  end.

Lemma load_in_order e explicit :
  load e explicit =
    if names_no_file explicit (env_var e (bs "KUBECONFIG")) then in_cluster_load e
    else load_source e (documented_source (env_exists e) explicit (env_var e (bs "KUBECONFIG")) (env_var e (bs "HOME"))).
Proof.
  unfold load, kubeconfig_candidates, documented_source, names_no_file, strict_kubeconfig_source.
  destruct explicit as [p|]; cbn [is_some orb negb].
  { rewrite bool_decide_false by done. unfold find_by. cbn. by destruct (env_exists e p). }
  destruct (env_var e (bs "KUBECONFIG")) as [l|]; cbn [negb].
  - destruct (blank l) eqn:Hb; cbn [negb andb].
    + destruct (env_var e (bs "HOME")) as [h|]; [|done]. rewrite bool_decide_false by done.
      unfold find_by. cbn. by destruct (env_exists e _).
    + case_bool_decide as He; [done|]. by destruct (find_by _ _).
  - destruct (env_var e (bs "HOME")) as [h|]; [|done]. rewrite bool_decide_false by done.
    unfold find_by. cbn. by destruct (env_exists e _).
Qed.

(** ** What a loaded credential can be *)

Lemma find_by_some {A} (f : A → bool) l a : find_by f l = Some a ↔ ∃ l1 l2, l = l1 ++ a :: l2 ∧ f a = true ∧ Forall (λ x, f x = false) l1.
Proof.
  unfold find_by. induction l as [|x l IH]; cbn.
  - split; [done|]. by intros ([|] & l2 & H & _).
  - destruct (f x) eqn:E; cbn.
    + split.
      * intros [= <-]. exists [], l. by repeat constructor.
      * intros (l1 & l2 & H & Ha & Hl). destruct l1 as [|y l1]; [by injection H as -> _|].
        injection H as -> _. apply Forall_cons in Hl as [H _]. congruence.
    + rewrite IH. split.
      * intros (l1 & l2 & -> & Ha & Hl). exists (x :: l1), l2. by repeat constructor.
      * intros (l1 & l2 & H & Ha & Hl). destruct l1 as [|y l1]; [injection H as -> _; congruence|].
        injection H as -> ->. apply Forall_cons in Hl as [_ Hl]. by exists l1, l2.
Qed.

Definition first_named {A} (name : A → bytes) (n : bytes) (l : list A) (a : A) : Prop :=
  ∃ l1 l2, l = l1 ++ a :: l2 ∧ name a = n ∧ Forall (λ x, name x ≠ n) l1.

Lemma find_named {A} (name : A → bytes) n l a :
  find_by (λ x, bool_decide (name x = n)) l = Some a ↔ first_named name n l a.
Proof.
  rewrite find_by_some. unfold first_named. setoid_rewrite bool_decide_eq_true.
  by setoid_rewrite bool_decide_eq_false.
Qed.

Lemma ok_or_ok {A F} (o : option A) (f : F) a : ok_or o f = Ok a ↔ o = Some a.
Proof. destruct o; simpl; split; congruence. Qed.

(** PEM material: the decoded [-data] field, or else the file, whose relative
    path starts at the directory of the kubeconfig. *)
Definition piece (e : Env) (path : bytes) (data file : option bytes) (content : bytes) : Prop :=
  match data with
  | Some d => base64_decode (trim d) = Some content
  | None => ∃ f, file = Some f ∧ env_read e (resolve_relative (path_parent path) f) = Some content
  end.

(** Token, else client certificate, else plugin; never a password. *)
Definition credential_of (e : Env) (path : bytes) (u : UserData) (creds : Credentials) : Prop :=
  match creds with
  | Bearer t => ∃ raw, ud_token u = Some raw ∧ t = trim raw ∧ t ≠ []
  | ClientCert cert key => ud_token u = None ∧
      piece e path (ud_client_certificate_data u) (ud_client_certificate u) cert ∧
      piece e path (ud_client_key_data u) (ud_client_key u) key
  | ExecToken x => ud_token u = None ∧ ud_client_certificate u = None ∧ ud_client_certificate_data u = None ∧
      ud_exec u = Some x
  end.

(** What a kubeconfig says of its current context. *)
Definition selected (e : Env) (path : bytes) (cluster : Cluster) (creds : Credentials) : Prop :=
  ∃ text config name cx nc nu,
    read_to_string e path = Some text ∧ yaml_kubeconfig text = Some config ∧
    kc_current_context config = Some name ∧ first_named nx_name name (kc_contexts config) cx ∧
    first_named nc_name (cx_cluster (nx_context cx)) (kc_clusters config) nc ∧
    first_named nu_name (cx_user (nx_context cx)) (kc_users config) nu ∧
    parse_uri (trim (cd_server (nc_cluster nc))) = Some (cl_endpoint cluster) ∧
    uri_scheme (cl_endpoint cluster) ∈ [Some (bs "https"); Some (bs "http")] ∧ is_Some (uri_host (cl_endpoint cluster)) ∧
    piece e path (cd_certificate_authority_data (nc_cluster nc)) (cd_certificate_authority (nc_cluster nc)) (cl_ca cluster) ∧
    credential_of e path (nu_user nu) creds.

(** The service account of the pod. *)
Definition mounted (e : Env) (cluster : Cluster) (creds : Credentials) : Prop :=
  ∃ token host port,
    read_to_string e (path_join SERVICE_ACCOUNT_DIR (bs "token")) = Some token ∧
    env_read e (path_join SERVICE_ACCOUNT_DIR (bs "ca.crt")) = Some (cl_ca cluster) ∧
    env_var e HOST_ENV = Some host ∧ env_var e PORT_ENV = Some port ∧ host ≠ [] ∧ port ≠ [] ∧
    parse_uri (bs "https://" ++ (if bool_decide (x3a ∈ host) then [x5b] ++ host ++ [x5d] else host) ++ [x3a] ++ port) =
      Some (cl_endpoint cluster) ∧
    creds = Bearer (trim token).

Lemma decode_data_ok field d content : decode_data field d = Ok content ↔ base64_decode (trim d) = Some content.
Proof. apply ok_or_ok. Qed.

Lemma material_ok e path field data file unreadable absent content :
  material e path field data file unreadable absent = Ok content ↔ piece e path data file content.
Proof.
  unfold material, piece. destruct data as [d|]; [apply decode_data_ok|]. destruct file as [f|].
  - rewrite ok_or_ok. split; [intros Hf; by exists f|by intros (f' & [= <-] & Hf)].
  - split; [done|by intros (f & ? & _)].
Qed.

Lemma is_some_spec {A} (o : option A) : is_some o = true ↔ is_Some o.
Proof. destruct o; simpl; split; eauto; [done|by intros [? ?]]. Qed.

Lemma parse_endpoint_ok server u : parse_endpoint server = Ok u ↔
  parse_uri (trim server) = Some u ∧ uri_scheme u ∈ [Some (bs "https"); Some (bs "http")] ∧ is_Some (uri_host u).
Proof.
  unfold parse_endpoint. destruct (parse_uri (trim server)) as [v|]; [|split; [done|by intros [? _]]].
  destruct (_ && _) eqn:E.
  - apply andb_true_iff in E as [E1%bool_decide_eq_true E2%is_some_spec].
    split; [by intros [= <-]|by intros ([= ->] & _)].
  - split; [done|]. intros ([= ->] & H1 & H2). apply andb_false_iff in E as [E|E].
    + by apply bool_decide_eq_false in E.
    + apply is_some_spec in H2. congruence.
Qed.

Lemma credentials_for_user_ok e u path creds :
  credentials_for_user e u path = Ok creds ↔ credential_of e path (nu_user u) creds.
Proof.
  unfold credentials_for_user, credential_of. destruct (ud_token (nu_user u)) as [raw|] eqn:Et.
  { unfold blank. case_bool_decide as Hb; (split; [|destruct creds as [t|c k|x]; [intros (raw' & [= <-] & -> & Ht)|by intros [? _]|by intros [? _]]]); try done.
    intros [= <-]. by exists raw. }
  destruct (is_some _ || is_some _) eqn:Ec.
  - unfold client_cert_credentials. rewrite bind_ok. setoid_rewrite bind_ok. setoid_rewrite material_ok. split.
    + intros (c & Hc & k & Hk & [= <-]). done.
    + destruct creds as [t|c k|x]; [by intros (? & ? & _)| |].
      * intros (_ & Hc & Hk). by exists c; split; [|exists k].
      * intros (_ & H1 & H2 & _). by rewrite H1, H2 in Ec.
  - apply orb_false_iff in Ec as [E1 E2].
    assert (ud_client_certificate (nu_user u) = None) as Hcert by by destruct (ud_client_certificate _).
    assert (ud_client_certificate_data (nu_user u) = None) as Hdata by by destruct (ud_client_certificate_data _).
    rewrite Hcert, Hdata. destruct (ud_exec (nu_user u)) as [x|].
    + split; [by intros [= <-]|]. destruct creds as [t|c k|y]; [by intros (? & ? & _)| |by intros (_ & _ & _ & [= <-])].
      by intros (_ & (f & ? & _) & _).
    + split; [by destruct (_ || _)|]. destruct creds as [t|c k|y]; [by intros (? & ? & _)| |by intros (_ & _ & _ & ?)].
      by intros (_ & (f & ? & _) & _).
Qed.

Lemma resolve_ok config nc nu : resolve config None = Ok (nc, nu) ↔
  ∃ name cx, kc_current_context config = Some name ∧ first_named nx_name name (kc_contexts config) cx ∧
    first_named nc_name (cx_cluster (nx_context cx)) (kc_clusters config) nc ∧
    first_named nu_name (cx_user (nx_context cx)) (kc_users config) nu.
Proof.
  unfold resolve. rewrite bind_ok. setoid_rewrite bind_ok. setoid_rewrite bind_ok. setoid_rewrite bind_ok.
  setoid_rewrite ok_or_ok. setoid_rewrite find_named. split.
  - intros (name & Hn & cx & Hx & c & Hc & u & Hu & [= -> ->]). by exists name, cx.
  - intros (name & cx & Hn & Hx & Hc & Hu). exists name. split; [done|]. exists cx. split; [done|].
    exists nc. split; [done|]. by exists nu.
Qed.

Lemma load_cluster_ok e server c path cluster : load_cluster e server c path = Ok cluster ↔
  parse_endpoint server = Ok (cl_endpoint cluster) ∧
  piece e path (cd_certificate_authority_data c) (cd_certificate_authority c) (cl_ca cluster).
Proof.
  unfold load_cluster. rewrite bind_ok. setoid_rewrite bind_ok.
  change (match cd_certificate_authority_data c with Some data => _ | None => _ end) with
    (material e path (bs "certificate-authority-data") (cd_certificate_authority_data c) (cd_certificate_authority c) CaFile NoCa).
  setoid_rewrite material_ok. split.
  - by intros (ep & He & ca & Hc & [= <-]).
  - intros [He Hc]. exists (cl_endpoint cluster). split; [done|]. exists (cl_ca cluster). split; [done|]. by destruct cluster.
Qed.

Lemma load_kubeconfig_file_ok e path cluster creds :
  load_kubeconfig_file e path = Ok (cluster, creds) ↔ selected e path cluster creds.
Proof.
  unfold load_kubeconfig_file, selected. rewrite bind_ok. setoid_rewrite ok_or_ok. setoid_rewrite bind_ok.
  setoid_rewrite ok_or_ok. setoid_rewrite bind_ok. split.
  - intros (text & Ht & config & Hc & [nc nu] & (name & cx & Hn & Hx & Hcl & Hu)%resolve_ok & H).
    apply bind_ok in H as (cl & [(He & Hs & Hh)%parse_endpoint_ok Hca]%load_cluster_ok & H).
    apply bind_ok in H as (cr & Hcr%credentials_for_user_ok & [= <- <-]).
    exists text, config, name, cx, nc, nu. by split_and!.
  - intros (text & config & name & cx & nc & nu & Ht & Hc & Hn & Hx & Hcl & Hu & He & Hs & Hh & Hca & Hcr).
    exists text. split; [done|]. exists config. split; [done|]. exists (nc, nu).
    split; [apply resolve_ok; by exists name, cx|].
    apply bind_ok. exists cluster. split; [apply load_cluster_ok; split; [by apply parse_endpoint_ok|done]|].
    apply bind_ok. exists creds. split; [by apply credentials_for_user_ok|done].
Qed.

Lemma in_cluster_load_ok e cluster creds : in_cluster_load e = Ok (cluster, creds) ↔ mounted e cluster creds.
Proof.
  unfold in_cluster_load, load_with_root, mounted. rewrite bind_ok. setoid_rewrite ok_or_ok. setoid_rewrite bind_ok.
  setoid_rewrite ok_or_ok. setoid_rewrite bind_ok. unfold endpoint. split.
  - intros (token & Ht & ca & Hca & ep & He & [= <- <-]). destruct (_ || _) eqn:Eb; [done|].
    apply orb_false_iff in Eb as [Eh%bool_decide_eq_false Ep%bool_decide_eq_false]. apply ok_or_ok in He.
    destruct (env_var e HOST_ENV) as [host|] eqn:Ehost; [|done]. destruct (env_var e PORT_ENV) as [port|] eqn:Eport; [|done].
    by exists token, host, port.
  - intros (token & host & port & Ht & Hca & -> & -> & Hh & Hp & He & ->). exists token. split; [done|].
    exists (cl_ca cluster). split; [done|]. exists (cl_endpoint cluster). cbn [default from_option]. unfold id.
    rewrite (bool_decide_false (host = [])), (bool_decide_false (port = [])) by done. cbn [orb].
    split; [by apply ok_or_ok|]. by destruct cluster.
Qed.

(** The source that answers: the first of the documented order, but for three
    settings of the variables. *)
Definition applied_source (e : Env) (explicit : option bytes) : Source :=
  let kubeconfig := env_var_os e (bs "KUBECONFIG") in
  let home := env_var_os e (bs "HOME") in
  let home := if hidden home then None else home in
  if unheard explicit kubeconfig then documented_source (env_exists e) None None home
  else if names_no_file explicit kubeconfig then FromCluster
  else documented_source (env_exists e) explicit kubeconfig home.

Lemma env_var_heard e name :
  env_var e name = if hidden (env_var_os e name) then None else env_var_os e name.
Proof. unfold env_var. destruct (env_var_os e name) as [v|]; [|done]. simpl. by destruct (valid_utf8 v). Qed.

Lemma load_applied e explicit : load e explicit = load_source e (applied_source e explicit).
Proof.
  rewrite load_in_order. unfold applied_source, unheard. rewrite !env_var_heard.
  destruct explicit as [p|]; [done|]. cbn [is_some negb andb].
  destruct (hidden (env_var_os e (bs "KUBECONFIG"))); [done|].
  by destruct (names_no_file None (env_var_os e (bs "KUBECONFIG"))).
Qed.

(** C34. The credentials are exactly those of the documented order.  [load]
    answers with a cluster and a credential if and only if the first source that
    applies provides them: an explicit path or a set, non-blank [$KUBECONFIG] is
    not left for another source; the file's current context picks the first cluster
    and user of its names; a token comes before a client certificate before a
    plugin, a password is never used, inline data comes before files, and no
    cluster is trusted without its CA.  Without an explicit path there are three
    exceptions ([applied_source]): a [$KUBECONFIG] of separators only is left for
    the service account; one whose value is not Unicode is silently treated as
    unset, so the home file or the service account answers for it; and a [$HOME]
    that is not Unicode is treated as unset, too. *)
Theorem credentials_resolved (e : Env) (explicit : option bytes) (cluster : Cluster) (creds : Credentials) :
  (load e explicit = Ok (cluster, creds) ↔
    match applied_source e explicit with
    | FromFile path => selected e path cluster creds
    | FromCluster => mounted e cluster creds
    | NoSource _ => False
    end) ∧
  (unheard explicit (env_var_os e (bs "KUBECONFIG")) = false →
   names_no_file explicit (env_var_os e (bs "KUBECONFIG")) = false →
   hidden (env_var_os e (bs "HOME")) = false →
   applied_source e explicit =
     documented_source (env_exists e) explicit (env_var_os e (bs "KUBECONFIG")) (env_var_os e (bs "HOME"))).
Proof.
  split.
  - rewrite load_applied. destruct (applied_source e explicit);
      [apply load_kubeconfig_file_ok|apply in_cluster_load_ok|done].
  - unfold applied_source. by intros -> -> ->.
Qed.

(** What the client sends: the token of the credential in the header, or its
    certificate in the handshake, never both; to the scheme and authority of the
    cluster's endpoint; trusting the cluster's CA alone. *)
Lemma client_request cluster creds c path req :
  client_new cluster creds = Ok c → get c path = Ok req →
  pem_certs (cl_ca cluster) = Some (tc_roots (ct_tls c)) ∧
  (∃ a, uri_authority (cl_endpoint cluster) = Some a ∧
     build_uri (default (bs "https") (uri_scheme (cl_endpoint cluster))) a
       (if starts_with [x2f] path then path else [x2f] ++ path) = Some (ar_uri req)) ∧
  match creds with
  | Bearer t => tc_identity (ct_tls c) = None ∧ (bs "authorization", bs "Bearer " ++ t) ∈ ar_headers req
  | ExecToken x => tc_identity (ct_tls c) = None ∧
      ∃ t, run_plugin x = Ok t ∧ t ≠ [] ∧ (bs "authorization", bs "Bearer " ++ t) ∈ ar_headers req
  | ClientCert cert key => (∃ certs signer, pem_certs cert = Some certs ∧ certs ≠ [] ∧
      tc_identity (ct_tls c) = Some (certs, signer)) ∧ bs "authorization" ∉ (ar_headers req).*1
  end.
Proof.
  unfold client_new, get. intros ([authorization client_cert] & Hcred & (tls & Htls & [= <-])%bind_ok)%bind_ok Hg.
  apply bind_ok in Hg as (uri & Huri & [= <-]). cbn [ct_endpoint ct_tls ar_uri] in *.
  unfold request_uri in Huri. apply bind_ok in Huri as (a & Ha%ok_or_ok & Hb%ok_or_ok).
  unfold build_tls_config, parse_cert_pem in Htls. apply bind_ok in Htls as (roots & Hroots%ok_or_ok & (u & _ & Htls)%bind_ok).
  assert (tc_roots tls = roots) as Hr.
  { destruct client_cert as [[cp kp]|]; [|by injection Htls as <-].
    apply bind_ok in Htls as (certs & _ & Htls). case_bool_decide; [done|].
    apply bind_ok in Htls as (k & _ & (s & _ & [= <-])%bind_ok). done. }
  split; [by rewrite Hr|]. split; [by exists a|]. destruct creds as [t|cert key|x].
  - apply bind_ok in Hcred as (h & Hh & [= <- <-]). injection Htls as <-. unfold bearer_header in Hh.
    destruct (header_value_ok _); [|done]. injection Hh as <-. split; [done|]. cbn. rewrite elem_of_cons. right. by apply list_elem_of_singleton.
  - injection Hcred as <- <-. apply bind_ok in Htls as (certs & Hc%ok_or_ok & Htls). case_bool_decide as Hl; [done|].
    apply bind_ok in Htls as (k & _ & (s & _ & [= <-])%bind_ok). split.
    + exists certs, s. split_and!; [done|by intros ->|done].
    + cbn. rewrite list_elem_of_singleton. by vm_compute.
  - apply bind_ok in Hcred as (t & Ht & (h & Hh & [= <- <-])%bind_ok). injection Htls as <-. unfold bearer_header in Hh.
    destruct (header_value_ok _); [|done]. injection Hh as <-. split; [done|]. exists t. split; [done|]. split; [|cbn; rewrite elem_of_cons; right; by apply list_elem_of_singleton].
    unfold run_plugin in Ht. destruct (spawn _ _ _) as [[[ok out] err]|]; [|done]. destruct ok; [|done]. cbn [negb] in Ht.
    unfold token_from_output in Ht. destruct (json_credential _) as [st|]; [|done]. destruct (st ≫= id) as [tk|]; [|done].
    case_bool_decide; [done|]. by injection Ht as <-.
Qed.

(** The path of the endpoint is dropped: an apiserver behind a prefix is asked
    at its root. *)
Lemma endpoint_path_dropped ep path ep' :
  uri_scheme ep' = uri_scheme ep → uri_authority ep' = uri_authority ep →
  ∀ u, request_uri ep path = Ok u → request_uri ep' path = Ok u.
Proof. unfold request_uri. intros Hs Ha u. rewrite Hs, Ha. by destruct (uri_authority ep). Qed.

(** An empty token is refused in a kubeconfig and accepted from the mount. *)
Lemma empty_mounted_token e cluster creds :
  in_cluster_load e = Ok (cluster, creds) → read_to_string e (path_join SERVICE_ACCOUNT_DIR (bs "token")) = Some [] →
  creds = Bearer [].
Proof. intros (token & host & port & Ht & _ & _ & _ & _ & _ & _ & ->)%in_cluster_load_ok He. rewrite He in Ht. by injection Ht as <-. Qed.

(** The arm for a key without a certificate is never taken. *)
Lemma key_without_cert_unreached e u path name :
  credentials_for_user e u path ≠ Err (CredentialMissing (KeyWithoutCert name)).
Proof.
  unfold credentials_for_user. destruct (ud_token _); [by destruct (blank _)|].
  destruct (is_some (ud_client_certificate (nu_user u)) || is_some (ud_client_certificate_data (nu_user u))) eqn:E.
  - unfold client_cert_credentials, material. intros H.
    destruct (ud_client_certificate_data (nu_user u)) as [d|] eqn:Ed.
    + unfold decode_data, ok_or in H. destruct (base64_decode (trim d)); [|done]. simpl in H.
      destruct (ud_client_key_data _); [by destruct (base64_decode _)|]. destruct (ud_client_key _); [by destruct (env_read _ _)|done].
    + destruct (ud_client_certificate (nu_user u)) as [f|] eqn:Ef; [|done].
      unfold decode_data, ok_or in H. destruct (env_read e _); [|done]. simpl in H.
      destruct (ud_client_key_data _); [by destruct (base64_decode _)|]. destruct (ud_client_key _); [by destruct (env_read _ _)|done].
  - destruct (ud_exec (nu_user u)) as [x|]; [done|]. by destruct (is_some (ud_username (nu_user u)) || _).
Qed.

End loading.

(** The watch query joins one that is there already. *)
Example watch_path_samples :
  watch_path (bs "/api/v1/secrets?fieldSelector=x") (bs "7") =
    bs "/api/v1/secrets?fieldSelector=x&watch=1&allowWatchBookmarks=true&resourceVersion=7" ∧
  watch_path (bs "/api/v1/secrets") [] = bs "/api/v1/secrets?watch=1&allowWatchBookmarks=true".
Proof. vm_compute. done. Qed.

(** A set [$KUBECONFIG] that is not Unicode is left for the home file, though the
    file it names exists. *)
Lemma non_unicode_falls_through :
  let e := {| env_var_os := λ name, if bool_decide (name = bs "KUBECONFIG") then Some [x2f; xff]
                                    else if bool_decide (name = bs "HOME") then Some (bs "/root") else None;
              env_exists := λ _, true; env_read := λ _, None |} in
  documented_source (env_exists e) None (env_var_os e (bs "KUBECONFIG")) (env_var_os e (bs "HOME")) =
    FromFile [x2f; xff] ∧
  applied_source e None = FromFile (bs "/root/.kube/config").
Proof. vm_compute. done. Qed.

(** [KUBECONFIG=:] is set, names no file, and is left for the service account. *)
Lemma separators_fall_through :
  strict_kubeconfig_source false (Some (bs ":")) = true ∧ names_no_file None (Some (bs ":")) = true.
Proof. vm_compute. done. Qed.
