(* ===== verification/Dial.v ===== *)
(** Outbound connections: the upstream TLS connector
    ([openrusty-proxy/src/tls/connector.rs]), the apiserver connector
    ([openrusty-k8s/src/connector.rs]), the bound of one attempt
    ([server/src/pipeline/mod.rs], [ws.rs]), the classification of client errors
    ([openrusty-proxy/src/forward.rs]), and the dial of an opaque tunnel
    ([server/src/transparent.rs], [proxy/src/orig_dst.rs]).

    Sockets and handshakes are parameters: what they do takes time, and may never
    end. *)

From S2P Require Import Prelude Text Net Config Upstream Client Forward Intercept Auth.
From Stdlib Require Import ZArith Lia.
From stdpp Require Import options.
Local Open Scope Z_scope.

(** * Futures with a duration *)

(** When a future is ready and with what; [None]: never. *)
Definition Timed (A : Type) : Type := option (Z * A).

(** [tokio::time::timeout], in the unit of the limit: the future is polled first. *)
Definition timeout {A} (limit : Z) (f : Timed A) : Timed (option A) :=
  match f with
  | Some (t, a) => if t <=? limit then Some (t, Some a) else Some (limit, None)
  | None => Some (limit, None)
  end.

Lemma timeout_bounded {A} limit (f : Timed A) : ∃ t r, timeout limit f = Some (t, r) ∧ (t ≤ limit).
Proof.
  destruct f as [[t a]|]; simpl; [|by eexists _, _]. destruct (Z.leb_spec t limit); by eexists _, _.
Qed.

(** The rest of a future after its first part. *)
Definition later {A} (t : Z) (f : Timed A) : Timed A := (λ '(t', a), (t + t', a)) <$> f.

(** * The upstream connector *)

Inductive DialError :=
| TimedOut
| Io (e : bytes)
| TlsFailed (e : bytes)
| NoHost
| InvalidServerName (host : bytes).

Section upstream.
Context {Tcp Stream : Type}.
Context (connect : SocketAddr → Timed (result bytes Tcp)).
Context (set_nodelay : Tcp → option bytes).
Context (handshake : bytes → Tcp → Timed (result bytes Stream)).

(** [HttpsConnector::call]: the URI is ignored, only the connect is bounded. *)
Definition call (c : HttpsClient) (uri : bytes) : Timed (result DialError Stream) :=
  match timeout (hs_connect_timeout c) (connect (hs_addr c)) with
  | None => None
  | Some (t, None) => Some (t, Err TimedOut)
  | Some (t, Some (Err e)) => Some (t, Err (Io e))
  | Some (t, Some (Ok tcp)) =>
      match set_nodelay tcp with
      | Some e => Some (t, Err (Io e))
      | None =>
          later t ((λ '(t', r), (t', match r with Ok s => Ok s | Err e => Err (TlsFailed e) end))
                     <$> handshake (hs_server_name c) tcp)
      end
  end.

(** One attempt under the route's limit, none when [timeout_ms] is zero. *)
Definition bounded {A} (limit : option Z) (f : Timed A) : Timed (option A) :=
  match limit with
  | Some limit => timeout limit f
  | None => (λ '(t, a), (t, Some a)) <$> f
  end.

(** ** What a dial can come to *)

(** A peer that does not take the connection costs the connect timeout at most. *)
Lemma call_connect_bounded c uri t r : call c uri = Some (t, Err r) →
  (∀ e, r ≠ TlsFailed e) → (t ≤ hs_connect_timeout c).
Proof.
  unfold call. destruct (timeout_bounded (hs_connect_timeout c) (connect (hs_addr c))) as (t0 & o & -> & Hle).
  destruct o as [[tcp|e]|].
  - destruct (set_nodelay tcp) as [e|]; [by intros [= <- <-]|].
    destruct (handshake _ tcp) as [[t' [s|e]]|]; simpl; try done. intros [= <- <-] Hn. by destruct (Hn e).
  - by intros [= <- <-].
  - by intros [= <- <-].
Qed.

(** A stream is the handshake's own, with the configured peer under the configured
    name, whatever the request's URI says. *)
Lemma call_secured c uri t s : call c uri = Some (t, Ok s) →
  ∃ t0 t1 tcp, connect (hs_addr c) = Some (t0, Ok tcp) ∧ (t0 ≤ hs_connect_timeout c) ∧
    handshake (hs_server_name c) tcp = Some (t1, Ok s) ∧ t = t0 + t1.
Proof.
  unfold call, timeout. destruct (connect (hs_addr c)) as [[t0 [tcp|e]]|]; [| |done].
  - destruct (Z.leb_spec t0 (hs_connect_timeout c)); [|done].
    destruct (set_nodelay tcp) as [e|]; [done|].
    destruct (handshake _ tcp) as [[t1 [s'|e]]|] eqn:Eh; simpl; try done. intros [= <- ->]. by exists t0, t1, tcp.
  - by destruct (Z.leb_spec t0 (hs_connect_timeout c)).
Qed.

(** A peer that accepts the connection and then says nothing: the connector waits
    for ever, and so does an attempt whose route has no timeout; with one, the
    attempt is over by then. *)
Lemma stalled_handshake_unbounded c uri t0 tcp :
  connect (hs_addr c) = Some (t0, Ok tcp) → t0 <= hs_connect_timeout c → set_nodelay tcp = None →
  handshake (hs_server_name c) tcp = None →
  bounded None (call c uri) = None ∧
  ∀ limit, ∃ r, bounded (Some limit) (call c uri) = Some (limit, r).
Proof.
  intros Hc Ht Hn Hh. assert (call c uri = None) as ->.
  { unfold call. rewrite Hc. simpl. rewrite (proj2 (Z.leb_le _ _) Ht), Hn, Hh. done. }
  split; [done|]. intros limit. by exists None.
Qed.

End upstream.

(** * The apiserver connector *)

Section apiserver.
Context {Tcp Stream : Type}.

(** [ServerName::try_from] of rustls: DNS names and addresses. *)
Context (server_name_ok : bytes → bool).
Context (http : Uri → Timed (result bytes Tcp)).
Context (handshake : bytes → Tcp → Timed (result bytes Stream)).

Definition api_call (uri : Uri) : Timed (result DialError Stream) :=
  match uri_host uri with
  | None => Some (0, Err NoHost)
  | Some host =>
      match http uri with
      | None => None
      | Some (t, Err e) => Some (t, Err (Io e))
      | Some (t, Ok tcp) =>
          if server_name_ok host then
            later t ((λ '(t', r), (t', match r with Ok s => Ok s | Err e => Err (TlsFailed e) end))
                       <$> handshake host tcp)
          else Some (t, Err (InvalidServerName host))
      end
  end.

(** Bearer tokens only ever travel over the handshake's stream. *)
Lemma api_call_secured uri t s : api_call uri = Some (t, Ok s) →
  ∃ host tcp t0 t1, uri_host uri = Some host ∧ server_name_ok host = true ∧ http uri = Some (t0, Ok tcp) ∧
    handshake host tcp = Some (t1, Ok s) ∧ t = t0 + t1.
Proof.
  unfold api_call. destruct (uri_host uri) as [host|]; [|done]. destruct (http uri) as [[t0 [tcp|e]]|]; try done.
  destruct (server_name_ok host) eqn:En; [|done].
  destruct (handshake host tcp) as [[t1 [s'|e]]|] eqn:Eh; simpl; try done. intros [= <- ->]. by exists host, tcp, t0, t1.
Qed.

(** Brackets belong to no DNS name and no address. *)
Lemma bracketed_host_unreachable uri host :
  (∀ n, x5b ∈ n → server_name_ok n = false) → uri_host uri = Some ([x5b] ++ host ++ [x5d]) →
  ∀ t s, api_call uri ≠ Some (t, Ok s).
Proof.
  intros Hbr Hu t s Hc. apply api_call_secured in Hc as (h & tcp & t0 & t1 & Hh & Hok & _).
  rewrite Hu in Hh. injection Hh as <-. rewrite Hbr in Hok; [done|]. by left.
Qed.

(** The host of a URI keeps the brackets of an IPv6 literal: in a cluster whose
    service address is IPv6 no connection to the apiserver succeeds. *)
Lemma ipv6_apiserver_unreachable (parse_uri : bytes → option Uri) host port uri :
  (∀ n, x5b ∈ n → server_name_ok n = false) →
  (∀ h p u, parse_uri (bs "https://" ++ ([x5b] ++ h ++ [x5d]) ++ [x3a] ++ p) = Some u →
     uri_host u = Some ([x5b] ++ h ++ [x5d])) →
  x3a ∈ host → endpoint parse_uri host port = Ok uri → ∀ t s, api_call uri ≠ Some (t, Ok s).
Proof.
  intros Hbr Hparse Hc. unfold endpoint. destruct (_ || _); [done|]. rewrite bool_decide_eq_true_2 by done.
  intros Hu%ok_or_ok. apply Hparse in Hu. by apply bracketed_host_unreachable with host.
Qed.
End apiserver.

(** * Client errors *)

(** What is read of a hyper client error: its kind, its debug text, and the
    messages of its chain of sources, its own first. *)
Record ClientError := { ce_connect : bool; ce_debug : bytes; ce_message : bytes; ce_sources : list bytes }.

Fixpoint describe_sources (message : bytes) (sources : list bytes) : bytes :=
  match sources with
  | [] => message
  | m :: sources => describe_sources (message ++ bs ": " ++ m) sources
  end.

Definition describe (e : ClientError) : bytes := describe_sources (ce_message e) (ce_sources e).

(** [str::contains]. *)
Fixpoint contains (hay needle : bytes) : bool :=
  starts_with needle hay || match hay with [] => false | _ :: hay => contains hay needle end.

Definition classify (e : ClientError) : ForwardError :=
  if ce_connect e then ErrConnect (describe e)
  else if contains (ce_debug e) (bs "SendRequest") then ErrSend (describe e)
  else ErrResponse (describe e).

Lemma describe_joined e : describe e = join (bs ": ") (ce_message e :: ce_sources e).
Proof.
  unfold describe. destruct e as [c d m l]. cbn [ce_message ce_sources]. revert m.
  induction l as [|x l IH]; intros m; [done|]. cbn [describe_sources]. rewrite IH. cbn [join].
  destruct l as [|y l]; [done|]. by rewrite <-!app_assoc.
Qed.

Lemma contains_iff hay needle : contains hay needle = true ↔ ∃ a b, hay = a ++ needle ++ b.
Proof.
  split.
  - induction hay as [|x hay IH]; cbn [contains]; rewrite orb_true_iff.
    + intros [[b Hb]%starts_with_iff|?]; [|done]. by exists [], b.
    + intros [[b Hb]%starts_with_iff|(a & b & ->)%IH]; [by exists [], b|by exists (x :: a), b].
  - intros (a & b & ->). induction a as [|x a IH].
    + assert (starts_with needle (needle ++ b) = true) as H by (apply starts_with_iff; by eexists).
      cbn [app]. destruct (needle ++ b) eqn:E; cbn [contains]; by rewrite H.
    + cbn [app contains]. by rewrite IH, orb_true_r.
Qed.

(** Only a failed connect, and an error that names the send, may be replayed. *)
Lemma classified_retryable e :
  is_retryable (classify e) = true ↔ ce_connect e = true ∨ ∃ a b, ce_debug e = a ++ bs "SendRequest" ++ b.
Proof.
  unfold classify. rewrite <-contains_iff. destruct (ce_connect e); [by split; [left|]|].
  destruct (contains _ _); simpl; split; [by right|done|done|by intros [?|?]].
Qed.

(** * Tunnels *)

(** The local family selects the socket option; the answer has to be an address. *)
Inductive Family := FamilyV4 | FamilyV6 | FamilyOther.

Inductive SockAddr := SockIp (a : SocketAddr) | SockOther.

Inductive OrigDstError := LocalAddr (e : bytes) | UnsupportedFamily | NoTuple (e : bytes) | NotAnAddress.

Definition original_dst_addr (addr : result bytes SockAddr) : result OrigDstError SocketAddr :=
  match addr with
  | Err e => Err (NoTuple e)
  | Ok (SockIp a) => Ok a
  | Ok SockOther => Err NotAnAddress
  end.

Definition original_dst (local : result bytes Family) (v4 v6 : result bytes SockAddr)
    : result OrigDstError SocketAddr :=
  match local with
  | Err e => Err (LocalAddr e)
  | Ok FamilyV4 => original_dst_addr v4
  | Ok FamilyV6 => original_dst_addr v6
  | Ok FamilyOther => Err UnsupportedFamily
  end.

(** The end of an opaque tunnel, as its log line tells it. *)
Inductive TunnelEnd :=
| TunnelFinished (up down : Z)
| TunnelAborted (e : bytes)
| DialFailed (e : bytes).

Section tunnel.
Context {Tcp : Type}.
Context (connect : SocketAddr → Timed (result bytes Tcp)).

(** [copy_bidirectional] between the client and the upstream. *)
Context (copy : Tcp → Timed (result bytes (Z * Z))).

(** The dial is the operating system's: no limit of its own. *)
Definition tunnel_to (dst : SocketAddr) : Timed TunnelEnd :=
  match connect dst with
  | None => None
  | Some (t, Err e) => Some (t, DialFailed e)
  | Some (t, Ok upstream) =>
      later t ((λ '(t', r), (t', match r with Ok (up, down) => TunnelFinished up down | Err e => TunnelAborted e end))
                 <$> copy upstream)
  end.
End tunnel.

(** [ErrorKind] of a copy error, as far as the WebSocket tunnel looks at it. *)
Inductive CopyErrorKind := UnexpectedEof | ConnectionReset | ConnectionAborted | BrokenPipe | OtherKind.

#[global] Instance copy_error_kind_eq_dec : EqDecision CopyErrorKind.
Proof. solve_decision. Defined.

(** [forward::tunnel]: a peer that goes away ends the tunnel normally. *)
Definition ws_tunnel {E} (kind : E → CopyErrorKind) (copied : result E (Z * Z)) : result E () :=
  match copied with
  | Ok _ => Ok ()
  | Err e => if bool_decide (kind e ∈ [UnexpectedEof; ConnectionReset; ConnectionAborted; BrokenPipe]) then Ok () else Err e
  end.

(** * What an intercepted connection is taken for *)

(** With the tuple at hand the local family does not matter; without it an
    inbound connection is served as plain HTTP, an outbound one refused. *)
Lemma original_dst_routes cfg mode gateway own_ports local v4 v6 connected evs :
  let orig := match original_dst local v4 v6 with Ok a => Some a | Err _ => None end in
  (∀ e, original_dst local v4 v6 = Err e →
     handle_conn cfg mode gateway own_ports orig connected evs =
       Ret (Some (if bool_decide (ls_role cfg = Outbound) then dispose OUTCOME_NO_ORIG_DST Close
                  else dispose OUTCOME_HTTP (Serve (proto_mode (ls_http1_only cfg)) [])))).
Proof.
  intros orig e He. subst orig. rewrite He. unfold handle_conn, route_pre. by case_bool_decide.
Qed.

(** * Concrete dials *)

(** A client with one second to connect: a peer that accepts at once and never
    shakes hands. *)
Definition ex_client : HttpsClient := {|
  hs_addr := SockV4 167772161 443; hs_server_name := bs "api.internal"; hs_connect_timeout := 1000; hs_idle_timeout := 30000 |}.

Lemma ex_stalled :
  bounded None (call (Tcp := ()) (Stream := ()) (λ _, Some (3, Ok ())) (λ _, None) (λ _ _, None) ex_client (bs "/")) = None ∧
  bounded (Some 60000) (call (Tcp := ()) (Stream := ()) (λ _, Some (3, Ok ())) (λ _, None) (λ _ _, None) ex_client (bs "/"))
    = Some (60000, None) ∧
  call (Tcp := ()) (Stream := ()) (λ _, None) (λ _, None) (λ _ _, None) ex_client (bs "/") = Some (1000, Err TimedOut).
Proof. done. Qed.
