(* ===== verification/Plane.v ===== *)
(** The ingress config plane as a machine: the watch tasks that hand snapshots
    over, the slots they fold them into, the channel that carries the latest
    pair, and the one task that applies it
    ([openrusty-server/src/ingress/mod.rs]). *)

From S2P Require Import Prelude Text Config Swap Snapshot Watch Ingress Auth.
From Stdlib Require Import ZArith Lia.
From stdpp Require Import options.

(** * Status *)

Record WatchStatus := {
  wt_enabled : bool;
  wt_watching : bool;
  wt_ingresses : option WatchStats;
  wt_secrets : option WatchStats;
}.

Inductive Which := Ingresses | Secrets.

Definition status_default : WatchStatus := {|
  wt_enabled := false; wt_watching := false; wt_ingresses := None; wt_secrets := None |}.

(** [serde_json::Value], as far as the status uses it. *)
Inductive Json := JNull | JBool (b : bool) | JNum (n : Z) | JStr (s : bytes) | JObj (fields : list (bytes * Json)).

Fixpoint put_field (key : bytes) (v : Json) (fields : list (bytes * Json)) : list (bytes * Json) :=
  match fields with
  | [] => [(key, v)]
  | (k, w) :: fields => if bool_decide (k = key) then (k, v) :: fields else (k, w) :: put_field key v fields
  end.

Definition stats_fields (now : Z) (stats : option WatchStats) : list (bytes * Json) :=
  match stats with
  | None => [(bs "generation", JNum 0); (bs "last_rv", JStr []); (bs "reconnects", JNum 0); (bs "last_success_age_ms", JNull)]
  | Some s => [
      (bs "generation", JNum (ws_generation s));
      (bs "last_rv", JStr (ws_last_rv s));
      (bs "reconnects", JNum (ws_reconnects s));
      (bs "last_success_age_ms", match ws_last_success s with Some t => JNum (wrap 64 (Z.max 0 (now - t))) | None => JNull end)]
  end.

Definition stats_json (now : Z) (stats : option WatchStats) : Json := JObj (stats_fields now stats).

Definition status_node (now : Z) (status : WatchStatus) : Json :=
  if negb (wt_enabled status) then JObj [(bs "enabled", JBool false)]
  else
    let fields := [(bs "enabled", JBool true); (bs "watching", JBool (wt_watching status))] in
    let fields := foldl (λ f e, put_field e.1 e.2 f) fields (stats_fields now (wt_ingresses status)) in
    JObj (put_field (bs "secrets") (stats_json now (wt_secrets status)) fields).

Definition record_stats (which : Which) (stats : WatchStats) (s : WatchStatus) : WatchStatus :=
  match which with
  | Ingresses => {| wt_enabled := wt_enabled s; wt_watching := wt_watching s;
                    wt_ingresses := Some stats; wt_secrets := wt_secrets s |}
  | Secrets => {| wt_enabled := wt_enabled s; wt_watching := wt_watching s;
                  wt_ingresses := wt_ingresses s; wt_secrets := Some stats |}
  end.

Definition set_status_watching (s : WatchStatus) : WatchStatus := {|
  wt_enabled := wt_enabled s; wt_watching := true; wt_ingresses := wt_ingresses s; wt_secrets := wt_secrets s |}.

Definition set_status_enabled (s : WatchStatus) : WatchStatus := {|
  wt_enabled := true; wt_watching := wt_watching s; wt_ingresses := wt_ingresses s; wt_secrets := wt_secrets s |}.

(** * The tasks of one resource kind *)

(** Where the callback of a watch loop is. *)
Inductive Task (T : Type) :=
| Waiting
| Recorded (snap : Snapshot T)
| Folded (merged : Snapshot T).
Arguments Waiting {T}.
Arguments Recorded {T} snap.
Arguments Folded {T} merged.

Record Side (T : Type) := { sd_slots : list (option (Snapshot T)); sd_tasks : list (Task T) }.
Arguments sd_slots {T} _.
Arguments sd_tasks {T} _.
Arguments Build_Side {T} _ _.

Section side.
Context {T : Type} `{ResourceMeta T}.

Definition side_init (n : nat) : Side T := {| sd_slots := replicate n None; sd_tasks := replicate n Waiting |}.

(** The loop hands a snapshot over; its counters are recorded. *)
Definition on_handed (i : nat) (snap : Snapshot T) (s : Side T) : option (Side T) :=
  match sd_tasks s !! i with
  | Some Waiting => Some {| sd_slots := sd_slots s; sd_tasks := <[i := Recorded snap]> (sd_tasks s) |}
  | _ => None
  end.

(** It is folded under the lock of the slots. *)
Definition on_fold (i : nat) (s : Side T) : option (Side T) :=
  match sd_tasks s !! i with
  | Some (Recorded snap) =>
      match fold_slot (sd_slots s) i snap with
      | Ret (merged, slots) => Some {| sd_slots := slots; sd_tasks := <[i := Folded merged]> (sd_tasks s) |}
      | Panic => None
      end
  | _ => None
  end.

(** The merged snapshot is sent, after the lock is released. *)
Definition on_send (i : nat) (s : Side T) : option (Snapshot T * Side T) :=
  match sd_tasks s !! i with
  | Some (Folded merged) => Some (merged, {| sd_slots := sd_slots s; sd_tasks := <[i := Waiting]> (sd_tasks s) |})
  | _ => None
  end.
End side.

(** * The plane *)

Abbreviation Pair := (Snapshot Ingress * Snapshot Secret)%type.

Inductive Consumer := Parked | Sleeping | Applying (taken : Pair).

Record Plane := {
  pl_ingresses : Side Ingress;
  pl_secrets : Side Secret;
  pl_status : WatchStatus;
  pl_pair : Pair;
  pl_version : nat;
  pl_seen : nat;
  pl_consumer : Consumer;
  pl_applied : list Pair;
}.

Inductive Event :=
| HandedIngress (i : nat) (snap : Snapshot Ingress) (stats : WatchStats)
| HandedSecret (i : nat) (snap : Snapshot Secret) (stats : WatchStats)
| Fold (which : Which) (i : nat)
| Send (which : Which) (i : nat)
| Wake
| Take
| Applied.

Definition set_sides (ing : Side Ingress) (sec : Side Secret) (status : WatchStatus) (p : Plane) : Plane := {|
  pl_ingresses := ing; pl_secrets := sec; pl_status := status;
  pl_pair := pl_pair p; pl_version := pl_version p; pl_seen := pl_seen p;
  pl_consumer := pl_consumer p; pl_applied := pl_applied p |}.

(** [send_if_modified], which always modifies. *)
Definition publish (latest : Pair) (p : Plane) : Plane := {|
  pl_ingresses := pl_ingresses p; pl_secrets := pl_secrets p; pl_status := pl_status p;
  pl_pair := latest; pl_version := S (pl_version p); pl_seen := pl_seen p;
  pl_consumer := pl_consumer p; pl_applied := pl_applied p |}.

Definition set_consumer (c : Consumer) (seen : nat) (applied : list Pair) (p : Plane) : Plane := {|
  pl_ingresses := pl_ingresses p; pl_secrets := pl_secrets p; pl_status := pl_status p;
  pl_pair := pl_pair p; pl_version := pl_version p; pl_seen := seen;
  pl_consumer := c; pl_applied := applied |}.

(** One step of some task.  [changed] resolves on an unseen version and marks it
    seen; so does taking the pair. *)
Definition plane_step (ev : Event) (p : Plane) : option Plane :=
  match ev with
  | HandedIngress i snap stats =>
      ing ← on_handed i snap (pl_ingresses p);
      Some (set_sides ing (pl_secrets p) (record_stats Ingresses stats (pl_status p)) p)
  | HandedSecret i snap stats =>
      sec ← on_handed i snap (pl_secrets p);
      Some (set_sides (pl_ingresses p) sec (record_stats Secrets stats (pl_status p)) p)
  | Fold Ingresses i => ing ← on_fold i (pl_ingresses p); Some (set_sides ing (pl_secrets p) (pl_status p) p)
  | Fold Secrets i => sec ← on_fold i (pl_secrets p); Some (set_sides (pl_ingresses p) sec (pl_status p) p)
  | Send Ingresses i =>
      '(merged, ing) ← on_send i (pl_ingresses p);
      Some (publish (merged, (pl_pair p).2) (set_sides ing (pl_secrets p) (pl_status p) p))
  | Send Secrets i =>
      '(merged, sec) ← on_send i (pl_secrets p);
      Some (publish ((pl_pair p).1, merged) (set_sides (pl_ingresses p) sec (pl_status p) p))
  | Wake =>
      match pl_consumer p with
      | Parked => if bool_decide (pl_seen p = pl_version p) then None
                  else Some (set_consumer Sleeping (pl_version p) (pl_applied p) p)
      | _ => None
      end
  | Take =>
      match pl_consumer p with
      | Sleeping => Some (set_consumer (Applying (pl_pair p)) (pl_version p) (pl_applied p) p)
      | _ => None
      end
  | Applied =>
      match pl_consumer p with
      | Applying taken => Some (set_consumer Parked (pl_seen p) (pl_applied p ++ [taken]) p)
      | _ => None
      end
  end.

Fixpoint plane_run (evs : list Event) (p : Plane) : option Plane :=
  match evs with
  | [] => Some p
  | ev :: evs => p ← plane_step ev p; plane_run evs p
  end.

Definition plane_init (n m : nat) (status : WatchStatus) : Plane := {|
  pl_ingresses := side_init n; pl_secrets := side_init m; pl_status := status;
  pl_pair := (snapshot_new, snapshot_new); pl_version := 0; pl_seen := 0;
  pl_consumer := Parked; pl_applied := [] |}.

(** [run] up to the loops: the status, and the client, the paths and the machine
    when there are credentials. *)
Section start.
Context (yaml_kubeconfig : bytes → option Kubeconfig) (base64_decode : bytes → option bytes) (parse_uri : bytes → option Uri).
Context (spawn : bytes → list bytes → gmap bytes bytes → option (bool * bytes * bytes)).
Context (json_credential : bytes → option (option (option bytes))).
Context {Cert Key Signer : Type} (pem_certs : bytes → option (list Cert)) (pem_key : bytes → option (option Key)).
Context (add_root : Cert → bool) (any_supported_type : Key → option Signer) (header_value_ok : bytes → bool).

Definition run (e : Env) (ingress : IngressConfig) (status : WatchStatus)
    : WatchStatus * option (Client * list bytes * list bytes * Plane) :=
  let status := set_status_enabled status in
  let kubeconfig := if bool_decide (trim (in_kubeconfig ingress) = []) then None else Some (trim (in_kubeconfig ingress)) in
  match load yaml_kubeconfig base64_decode parse_uri e kubeconfig with
  | Err _ => (status, None)
  | Ok (cluster, credentials) =>
      match client_new spawn json_credential pem_certs pem_key add_root any_supported_type header_value_ok
              cluster credentials with
      | Err _ => (status, None)
      | Ok client =>
          let ing_paths := ingress_paths (in_namespaces ingress) in
          let sec_paths := secret_paths (in_namespaces ingress) in
          let status := set_status_watching status in
          (status, Some (client, ing_paths, sec_paths, plane_init (length ing_paths) (length sec_paths) status))
      end
  end.
End start.

(** * What the slots merge to *)

Section merged.
Context {T : Type} `{ResourceMeta T}.



(** Objects are stored under their own key. *)
Definition well_keyed (s : Snapshot T) : Prop := ∀ k o, sn_items s !! k = Some o → object_key o = k.


Lemma apply_event_well_keyed s e : well_keyed s → well_keyed (apply_event s e).
Proof.
  intros Hs k o. rewrite apply_event_lookup. destruct (decide (touches k e)) as [[Hk _]|_]; [|apply Hs].
  unfold outcome. case_bool_decide; [done|]. by intros [= <-].
Qed.



(** ** The invariant of one kind *)

Definition last_of (handed : list (nat * Snapshot T)) (i : nat) : option (Snapshot T) :=
  snd <$> last (filter (λ e, e.1 = i) handed).


Definition is_waiting (t : Task T) : bool := match t with Waiting => true | _ => false end.
Definition idle (s : Side T) : bool := forallb is_waiting (sd_tasks s).


(** Before anything is published, a loop that waits has handed nothing over. *)
Definition fresh_ok (handed : list (nat * Snapshot T)) (version : nat) (s : Side T) : Prop :=
  version = 0%nat → ∀ i, sd_tasks s !! i = Some Waiting → last_of handed i = None.







(** ** Freshness, in any order of the steps *)


Lemma fresh_bump handed v s : fresh_ok handed (S v) s.
Proof. done. Qed.



(** ** What an idle side holds *)

Definition view (handed : list (nat * Snapshot T)) (n : nat) (k : ObjKey) : option T :=
  last (omap (λ i, s ← last_of handed i; sn_items s !! k) (seq 0 n)).



End merged.

(** * Runs *)

Definition ing_handed (evs : list Event) : list (nat * Snapshot Ingress) :=
  omap (λ ev, match ev with HandedIngress i snap _ => Some (i, snap) | _ => None end) evs.




(** No callback is under way. *)
Definition quiet (p : Plane) : bool := idle (pl_ingresses p) && idle (pl_secrets p).
























(** * Concrete runs *)

Definition ex_meta (ns name : string) : ObjectMeta := {|
  om_name := bs name; om_namespace := bs ns; om_resource_version := bs "1"; om_annotations := ∅ |}.

Definition ex_ingress (ns name : string) : Ingress := {|
  ig_metadata := ex_meta ns name;
  ig_spec := {| sc_ingress_class_name := None; sc_default_backend := None; sc_tls := []; sc_rules := [] |} |}.

Definition ex_snapshot (l : list Ingress) : Snapshot Ingress := replace_from_list l (bs "1").

Definition handed_over (i : nat) (l : list Ingress) : Event := HandedIngress i (ex_snapshot l) default_stats.

(** Two loops that overlap: the first folds, the second folds and sends, the first
    sends last.  All is quiet and at rest, and the object of the second loop is
    missing from what is applied. *)
Definition ex_overlap : list Event := [
  handed_over 0 [ex_ingress "a" "x"]; Fold Ingresses 0;
  handed_over 1 [ex_ingress "b" "y"]; Fold Ingresses 1; Send Ingresses 1; Send Ingresses 0;
  Wake; Take; Applied].

Lemma overlapping_hand_overs_lose_one :
  match plane_run ex_overlap (plane_init 2 1 status_default) with
  | Some p => quiet p && bool_decide (pl_seen p = pl_version p) &&
      bool_decide (is_Some (sn_items (pl_pair p).1 !! (bs "a", bs "x"))) &&
      bool_decide (sn_items (pl_pair p).1 !! (bs "b", bs "y") = None) &&
      bool_decide (is_Some (view (ing_handed ex_overlap) 2 (bs "b", bs "y")))
  | None => false
  end = true.
Proof. vm_compute. reflexivity. Qed.


