(* ===== verification/Serve.v ===== *)
(** Accept loops, connection drivers and the shutdown signal
    ([openrusty-server/src/h2c.rs], [tls/accept.rs], [transparent.rs],
    [shutdown.rs]) as a machine: the watch channel, the plain, TLS and
    intercepting loops, the accepted connections with what precedes their serving,
    and the in-flight counter. *)

From S2P Require Import Prelude Net Config Intercept Certs.
From Stdlib Require Import ZArith Lia.
From stdpp Require Import options.
Local Open Scope Z_scope.

(** * Connections *)

Record ConnTimeouts := {
  to_header_read : Z;
  to_h2_keep_alive_interval : option Z;
  to_h2_keep_alive_timeout : Z;
}.

(** In seconds. *)
Definition conn_timeouts : ConnTimeouts := {|
  to_header_read := 60; to_h2_keep_alive_interval := Some 30; to_h2_keep_alive_timeout := 20 |}.

Record Http1Settings := { h1_keep_alive : bool; h1_header_read : option Z }.
Record Http2Settings := { h2_adaptive_window : bool; h2_interval : option Z; h2_timeout : Z }.

(** What hyper serves a connection with; every one has a timer. *)
Inductive Connection :=
| Http1Connection (h1 : Http1Settings)
| Http2Connection (h2 : Http2Settings)
| AutoConnection (h1 : Http1Settings) (h2 : Http2Settings).

Definition http1_settings (t : ConnTimeouts) : Http1Settings := {|
  h1_keep_alive := true; h1_header_read := Some (to_header_read t) |}.

Definition http2_settings (t : ConnTimeouts) : Http2Settings := {|
  h2_adaptive_window := true; h2_interval := to_h2_keep_alive_interval t; h2_timeout := to_h2_keep_alive_timeout t |}.

Definition serve_conn (mode : ProtoMode) (t : ConnTimeouts) : Connection :=
  match mode with
  | ForceHttp1 => Http1Connection (http1_settings t)
  | ForceHttp2 => Http2Connection (http2_settings t)
  | Auto => AutoConnection (http1_settings t) (http2_settings t)
  end.

(** A client that sends no request head is closed after the same time on every
    path that speaks HTTP/1. *)
Lemma head_is_bounded mode t :
  match serve_conn mode t with
  | Http1Connection h1 | AutoConnection h1 _ => h1_header_read h1 = Some (to_header_read t)
  | Http2Connection h2 => h2_interval h2 = to_h2_keep_alive_interval t
  end.
Proof. by destruct mode. Qed.

(** * The machine *)

(** The three [serve_listener]s differ in what a connection goes through before
    it is served: nothing, a TLS handshake, or routing by its original destination. *)
Inductive ListenerKind := PlainListener | TlsListener | InterceptListener.

#[global] Instance listener_kind_eq_dec : EqDecision ListenerKind.
Proof. solve_decision. Defined.

(** A task and the last version of the channel it has seen. *)
Inductive LoopState := NotStarted (seen : nat) | Running (seen : nat) | Stopped.

Record Loop := { lp_kind : ListenerKind; lp_http1_only : bool; lp_state : LoopState }.

Inductive ConnState :=
| Spawned
| Settling
| Serving
| Tunnelling
| Finished
| Crashed.

#[global] Instance conn_state_eq_dec : EqDecision ConnState.
Proof. solve_decision. Defined.

Record Conn := {
  cn_kind : ListenerKind;
  cn_mode : ProtoMode;
  cn_state : ConnState;
  cn_seen : nat;
  cn_shutting : bool;
  cn_drains : nat;
}.

Record Server := {
  sv_flag : bool;
  sv_version : nat;
  sv_sender : bool;
  sv_loops : list Loop;
  sv_conns : list Conn;
  sv_in_flight : Z;
}.

(** How the stage before serving ends: a handshake with its ALPN value, or the
    disposition of an intercepted connection. *)
Inductive Settled :=
| Shaken (handshake : option (option bytes))
| Disposed (a : Action).

Inductive Event :=
| Sent (b : bool)
| SenderDropped
| LoopStarts (l : nat)
| LoopNotified (l : nat)
| Accepted (l : nat)
| AcceptFailed (l : nat)
| ConnStarts (c : nat)
| ConnSettles (c : nat) (r : Settled)
| ConnNotified (c : nat)
| ConnEnds (c : nat)
| ConnPanics (c : nat).

(** [shutdown::is_draining]. *)
Definition draining (s : Server) : bool := sv_flag s || negb (sv_sender s).

(** [changed] resolves on an unseen version, or when the sender is gone. *)
Definition notified (seen : nat) (s : Server) : bool := negb (seen =? sv_version s)%nat || negb (sv_sender s).

Definition with_loop (st : LoopState) (lp : Loop) : Loop :=
  {| lp_kind := lp_kind lp; lp_http1_only := lp_http1_only lp; lp_state := st |}.

Definition set_loop (l : nat) (lp : Loop) (s : Server) : Server := {|
  sv_flag := sv_flag s; sv_version := sv_version s; sv_sender := sv_sender s;
  sv_loops := <[l := lp]> (sv_loops s); sv_conns := sv_conns s; sv_in_flight := sv_in_flight s |}.

Definition set_conn (c : nat) (cn : Conn) (in_flight : Z) (s : Server) : Server := {|
  sv_flag := sv_flag s; sv_version := sv_version s; sv_sender := sv_sender s;
  sv_loops := sv_loops s; sv_conns := <[c := cn]> (sv_conns s); sv_in_flight := in_flight |}.

Definition send (b : bool) (s : Server) : Server := {|
  sv_flag := b; sv_version := S (sv_version s); sv_sender := sv_sender s;
  sv_loops := sv_loops s; sv_conns := sv_conns s; sv_in_flight := sv_in_flight s |}.

Definition drop_sender (s : Server) : Server := {|
  sv_flag := sv_flag s; sv_version := sv_version s; sv_sender := false;
  sv_loops := sv_loops s; sv_conns := sv_conns s; sv_in_flight := sv_in_flight s |}.

(** The branch of the loop on the channel: an error or the flag ends it. *)
Definition loop_notified (seen : nat) (s : Server) : LoopState :=
  if (seen =? sv_version s)%nat then Stopped
  else if sv_flag s then Stopped else Running (sv_version s).

Definition accept (seen : nat) (lp : Loop) (s : Server) : Server := {|
  sv_flag := sv_flag s; sv_version := sv_version s; sv_sender := sv_sender s; sv_loops := sv_loops s;
  sv_conns := sv_conns s ++ [{| cn_kind := lp_kind lp; cn_mode := proto_mode (lp_http1_only lp);
                                cn_state := Spawned; cn_seen := seen; cn_shutting := false; cn_drains := 0 |}];
  sv_in_flight := wrap 64 (sv_in_flight s + 1) |}.

Definition with_state (st : ConnState) (shutting : bool) (drains : nat) (c : Conn) : Conn := {|
  cn_kind := cn_kind c; cn_mode := cn_mode c; cn_state := st; cn_seen := cn_seen c;
  cn_shutting := shutting; cn_drains := drains |}.

Definition with_mode (m : ProtoMode) (c : Conn) : Conn := {|
  cn_kind := cn_kind c; cn_mode := m; cn_state := cn_state c; cn_seen := cn_seen c;
  cn_shutting := cn_shutting c; cn_drains := cn_drains c |}.

(** A connection is handed to [serve_conn]. *)
Definition start_serving (c : nat) (cn : Conn) (s : Server) : Server :=
  set_conn c (with_state Serving (draining s) 0 cn) (sv_in_flight s) s.

(** Its task ends and takes itself off the counter. *)
Definition finish (c : nat) (cn : Conn) (s : Server) : Server :=
  set_conn c (with_state Finished (cn_shutting cn) (cn_drains cn) cn) (wrap 64 (sv_in_flight s - 1)) s.

(** After the handshake: the negotiated protocol, else the listener's. *)
Definition settle_tls (c : nat) (cn : Conn) (handshake : option (option bytes)) (s : Server) : Server :=
  match handshake with
  | Some alpn => start_serving c (with_mode (default (cn_mode cn) (negotiated_mode alpn)) cn) s
  | None => finish c cn s
  end.

(** After the disposition; a tunnel is not told of the shutdown. *)
Definition settle_intercepted (c : nat) (cn : Conn) (a : Action) (s : Server) : Server :=
  match a with
  | Close => finish c cn s
  | Intercept.Serve m _ => start_serving c (with_mode m cn) s
  | TunnelTo _ _ => set_conn c (with_state Tunnelling (cn_shutting cn) (cn_drains cn) cn) (sv_in_flight s) s
  end.

Definition settle (c : nat) (cn : Conn) (r : Settled) (s : Server) : option Server :=
  match cn_kind cn, r with
  | TlsListener, Shaken h => Some (settle_tls c cn h s)
  | InterceptListener, Disposed a => Some (settle_intercepted c cn a s)
  | _, _ => None
  end.

Definition serve_step (ev : Event) (s : Server) : option Server :=
  match ev with
  | Sent b => if sv_sender s then Some (send b s) else None
  | SenderDropped => if sv_sender s then Some (drop_sender s) else None
  | LoopStarts l =>
      lp ← sv_loops s !! l;
      match lp_state lp with
      | NotStarted seen => Some (set_loop l (with_loop (if draining s then Stopped else Running seen) lp) s)
      | _ => None
      end
  | LoopNotified l =>
      lp ← sv_loops s !! l;
      match lp_state lp with
      | Running seen => if notified seen s then Some (set_loop l (with_loop (loop_notified seen s) lp) s) else None
      | _ => None
      end
  | Accepted l =>
      lp ← sv_loops s !! l;
      match lp_state lp with Running seen => Some (accept seen lp s) | _ => None end
  | AcceptFailed l =>
      lp ← sv_loops s !! l;
      match lp_state lp with Running _ => Some s | _ => None end
  | ConnStarts c =>
      cn ← sv_conns s !! c;
      match cn_state cn, cn_kind cn with
      | Spawned, PlainListener => Some (start_serving c cn s)
      | Spawned, _ => Some (set_conn c (with_state Settling (cn_shutting cn) (cn_drains cn) cn) (sv_in_flight s) s)
      | _, _ => None
      end
  | ConnSettles c r =>
      cn ← sv_conns s !! c;
      match cn_state cn with Settling => settle c cn r s | _ => None end
  | ConnNotified c =>
      cn ← sv_conns s !! c;
      match cn_state cn with
      | Serving =>
          if negb (cn_shutting cn) && notified (cn_seen cn) s
          then Some (set_conn c (with_state Serving true (S (cn_drains cn)) cn) (sv_in_flight s) s) else None
      | _ => None
      end
  | ConnEnds c =>
      cn ← sv_conns s !! c;
      match cn_state cn with Serving | Tunnelling => Some (finish c cn s) | _ => None end
  | ConnPanics c =>
      cn ← sv_conns s !! c;
      match cn_state cn with
      | Settling | Serving | Tunnelling =>
          Some (set_conn c (with_state Crashed (cn_shutting cn) (cn_drains cn) cn) (sv_in_flight s) s)
      | _ => None
      end
  end.

Fixpoint serve_run (evs : list Event) (s : Server) : option Server :=
  match evs with
  | [] => Some s
  | ev :: evs => s ← serve_step ev s; serve_run evs s
  end.

(** [new_signal], and the loops that were spawned. *)
Definition serve_init (ls : list (ListenerKind * bool)) : Server := {|
  sv_flag := false; sv_version := 0; sv_sender := true;
  sv_loops := map (λ l, {| lp_kind := l.1; lp_http1_only := l.2; lp_state := NotStarted 0 |}) ls;
  sv_conns := []; sv_in_flight := 0 |}.

(** * The invariant *)

(** Connections whose task still runs, and those whose task panicked: it never comes
    to its decrement. *)
Definition alive (cn : Conn) : bool := match cn_state cn with Finished | Crashed => false | _ => true end.
Definition crashed (cn : Conn) : bool := match cn_state cn with Crashed => true | _ => false end.
Definition counted (cn : Conn) : bool := match cn_state cn with Finished => false | _ => true end.

Definition count (f : Conn → bool) (s : Server) : Z := Z.of_nat (length (List.filter f (sv_conns s))).

Definition live (s : Server) : Z := count alive s.
Definition leaked (s : Server) : Z := count crashed s.
Definition unfinished (s : Server) : Z := count counted s.

Lemma unfinished_split s : unfinished s = live s + leaked s.
Proof.
  unfold unfinished, live, leaked, count. induction (sv_conns s) as [|cn l IH]; [done|]. cbn [List.filter].
  unfold counted at 1, alive at 1, crashed at 1. destruct (cn_state cn); cbn [length]; lia.
Qed.

Definition loop_ok (s : Server) (lp : Loop) : Prop :=
  match lp_state lp with
  | NotStarted seen | Running seen => (seen ≤ sv_version s)%nat ∧ (seen = sv_version s → sv_flag s = false)
  | Stopped => True
  end.

(** Told at most once, and only while being served. *)
Definition conn_ok (s : Server) (cn : Conn) : Prop :=
  (cn_seen cn ≤ sv_version s)%nat ∧ (cn_drains cn ≤ 1)%nat ∧
  match cn_state cn with
  | Spawned | Settling | Tunnelling => cn_shutting cn = false ∧ cn_drains cn = 0%nat
  | _ => (cn_shutting cn = false → cn_drains cn = 0%nat ∧ (cn_state cn = Serving → cn_seen cn = sv_version s → sv_flag s = false))
  end.

Record server_ok (s : Server) : Prop := {
  sk_count : sv_in_flight s = wrap 64 (unfinished s);
  sk_loops : Forall (loop_ok s) (sv_loops s);
  sk_conns : Forall (conn_ok s) (sv_conns s);
}.

Lemma serve_init_ok ls : server_ok (serve_init ls).
Proof.
  constructor; [done| |constructor]. apply Forall_forall. intros lp Hl.
  apply list_elem_of_fmap in Hl as (l & -> & _). by split.
Qed.

Lemma filter_insert_length (f : Conn → bool) l c cn cn' : l !! c = Some cn →
  Z.of_nat (length (List.filter f (<[c := cn']> l))) =
    Z.of_nat (length (List.filter f l)) - (if f cn then 1 else 0) + (if f cn' then 1 else 0).
Proof.
  revert c. induction l as [|x l IH]; intros [|c]; try done.
  - intros [= ->]. change (<[0%nat:=cn']> (cn :: l)) with (cn' :: l). cbn [List.filter].
    destruct (f cn), (f cn'); cbn [length]; lia.
  - intros H. apply IH in H. change (<[S c:=cn']> (x :: l)) with (x :: <[c:=cn']> l). cbn [List.filter].
    destruct (f x); cbn [length]; lia.
Qed.

(** A connection changes its state, not the channel. *)
Lemma set_conn_ok c cn cn' z s : server_ok s → sv_conns s !! c = Some cn → conn_ok s cn' →
  z = wrap 64 (unfinished s - (if counted cn then 1 else 0) + (if counted cn' then 1 else 0)) → server_ok (set_conn c cn' z s).
Proof.
  intros [Hc Hl Hn] Hcn Hok Hz. constructor; cbn; [|done|].
  - rewrite Hz. unfold unfinished, count. cbn. by rewrite (filter_insert_length counted _ c cn cn').
  - by apply Forall_insert.
Qed.

Lemma set_loop_ok l lp s : server_ok s → loop_ok s lp → server_ok (set_loop l lp s).
Proof. intros [Hc Hl Hn] Hok. constructor; cbn; [done| |done]. by apply Forall_insert. Qed.

Lemma wrap_add_wrap a b : wrap 64 (wrap 64 a + b) = wrap 64 (a + b).
Proof. unfold wrap. apply Zplus_mod_idemp_l. Qed.

(** A task that goes on counting. *)
Lemma move_conn_ok c cn cn' s : server_ok s → sv_conns s !! c = Some cn → conn_ok s cn' →
  counted cn = true → counted cn' = true → server_ok (set_conn c cn' (sv_in_flight s) s).
Proof.
  intros Hok Hcn Hok' H1 H2. apply set_conn_ok with cn; [done..|]. rewrite H1, H2, (sk_count _ Hok). f_equal. lia.
Qed.

Lemma finish_ok c cn s : server_ok s → sv_conns s !! c = Some cn → counted cn = true → server_ok (finish c cn s).
Proof.
  intros Hok Hcn Hc. pose proof (Forall_lookup_1 _ _ _ _ (sk_conns _ Hok) Hcn) as (H1 & H2 & H3).
  apply set_conn_ok with cn; [done|done| |].
  - split; [done|]. cbn. split; [done|]. intros Hs. split; [|done]. destruct (cn_state cn); by apply H3.
  - rewrite Hc. cbn. rewrite (sk_count _ Hok). unfold wrap. rewrite Zminus_mod_idemp_l. f_equal. lia.
Qed.

Lemma start_serving_ok c cn cn' s : server_ok s → sv_conns s !! c = Some cn → counted cn = true →
  cn_seen cn' = cn_seen cn → server_ok (start_serving c cn' s).
Proof.
  intros Hok Hcn Hc Hs. destruct (Forall_lookup_1 _ _ _ _ (sk_conns _ Hok) Hcn) as (H1 & H2 & H3).
  apply move_conn_ok with cn; [done|done| |done|done]. split; [by rewrite <-Hs in H1|]. cbn. split; [lia|].
  intros Hd. split; [done|]. intros _ _. unfold draining in Hd. by apply orb_false_iff in Hd as [? _].
Qed.

Lemma settle_ok c cn r s s' : server_ok s → sv_conns s !! c = Some cn → cn_state cn = Settling →
  settle c cn r s = Some s' → server_ok s'.
Proof.
  intros Hok Hcn Hst. destruct (Forall_lookup_1 _ _ _ _ (sk_conns _ Hok) Hcn) as (H1 & H2 & H3). rewrite Hst in H3.
  assert (counted cn = true) as Hc by (unfold counted; by rewrite Hst).
  unfold settle, settle_tls, settle_intercepted. destruct (cn_kind cn), r as [[alpn|]|[|m pre|dst pre]]; try done; intros [= <-];
    [by eapply start_serving_ok|by apply finish_ok|by apply finish_ok|by eapply start_serving_ok|].
  apply move_conn_ok with cn; [done|done| |done|done]. split; [done|]. split; [done|]. cbn. done.
Qed.

Lemma loop_notified_ok seen lp s : loop_ok s (with_loop (loop_notified seen s) lp).
Proof.
  unfold loop_ok, loop_notified. cbn. destruct (_ =? _)%nat; [done|]. destruct (sv_flag s) eqn:Ef; [done|]. by split.
Qed.

Lemma serve_step_ok ev s s' : server_ok s → serve_step ev s = Some s' → server_ok s'.
Proof.
  intros Hok. pose proof Hok as [Hc Hl Hn]. destruct ev as [b| |l|l|l|l|c|c r|c|c|c]; cbn [serve_step].
  - destruct (sv_sender s); [|done]. intros [= <-]. constructor; cbn; [done| |].
    + eapply Forall_impl; [exact Hl|]. intros lp. unfold loop_ok. destruct (lp_state lp); [| |done]; (intros [Hs _]; split; cbn; [lia|intros ?; lia]).
    + eapply Forall_impl; [exact Hn|]. intros cn (H1 & H2 & H3). split; [cbn; lia|]. split; [done|].
      destruct (cn_state cn); try done; cbn; intros Hs; apply H3 in Hs as [Hs _]; (split; [done|intros ? ?; lia]).
  - destruct (sv_sender s); [|done]. by intros [= <-].
  - intros (lp & El & H)%bind_Some. destruct (lp_state lp) as [seen| |] eqn:Es; try done. injection H as <-.
    apply set_loop_ok; [done|]. eapply Forall_lookup_1 in El; [|exact Hl]. unfold loop_ok in El. rewrite Es in El.
    unfold loop_ok. cbn. by destruct (draining s).
  - intros (lp & El & H)%bind_Some. destruct (lp_state lp) as [|seen|] eqn:Es; try done.
    destruct (notified seen s); [|done]. injection H as <-. apply set_loop_ok; [done|]. apply loop_notified_ok.
  - intros (lp & El & H)%bind_Some. destruct (lp_state lp) as [|seen|] eqn:Es; try done. injection H as <-.
    eapply Forall_lookup_1 in El; [|exact Hl]. unfold loop_ok in El. rewrite Es in El. constructor; cbn; [|done|].
    + unfold unfinished, count. cbn. rewrite List.filter_app, length_app. cbn. rewrite Hc, wrap_add_wrap.
      unfold unfinished, count. f_equal. lia.
    + apply Forall_app. split; [done|]. apply Forall_singleton. destruct El as [El _]. split; [done|]. by split; [cbn; lia|].
  - intros (lp & El & H)%bind_Some. destruct (lp_state lp); try done. by injection H as <-.
  - intros (cn & Hcn & H)%bind_Some. destruct (cn_state cn) eqn:Es; try done.
    assert (counted cn = true) as Hct by (unfold counted; by rewrite Es).
    pose proof (Forall_lookup_1 _ _ _ _ Hn Hcn) as (H1 & H2 & H3). rewrite Es in H3.
    destruct (cn_kind cn); injection H as <-; [by eapply start_serving_ok|..];
      (apply move_conn_ok with cn; [done|done| |done|done]; split; [done|]; by split).
  - intros (cn & Hcn & H)%bind_Some. destruct (cn_state cn) eqn:Es; try done. by eapply settle_ok.
  - intros (cn & Hcn & H)%bind_Some. destruct (cn_state cn) eqn:Es; try done. destruct (_ && _) eqn:Eb; [|done]. injection H as <-.
    pose proof (Forall_lookup_1 _ _ _ _ Hn Hcn) as (H1 & H2 & H3). rewrite Es in H3.
    apply andb_true_iff in Eb as [Eb _]. apply negb_true_iff in Eb. apply H3 in Eb as [Eb _].
    apply move_conn_ok with cn; [done|done| |unfold counted; by rewrite Es|done].
    split; [done|]. cbn. rewrite Eb. split; [lia|done].
  - intros (cn & Hcn & H)%bind_Some. destruct (cn_state cn) eqn:Es; try done; injection H as <-;
      (apply finish_ok; [done|done|unfold counted; by rewrite Es]).
  - intros (cn & Hcn & H)%bind_Some.
    pose proof (Forall_lookup_1 _ _ _ _ Hn Hcn) as (H1 & H2 & H3).
    destruct (cn_state cn) eqn:Es; try done; injection H as <-;
      (apply move_conn_ok with cn; [done|done| |unfold counted; by rewrite Es|done]; split; [done|]; cbn; split; [done|];
       intros Hs; split; [by apply H3|done]).
Qed.

Lemma serve_run_ok evs s s' : server_ok s → serve_run evs s = Some s' → server_ok s'.
Proof.
  revert s. induction evs as [|ev evs IH]; intros s Hok; cbn [serve_run]; [by intros [= <-]|].
  intros (s1 & H1 & H2)%bind_Some. eapply IH; [|exact H2]. by eapply serve_step_ok.
Qed.

(** * Draining *)

Lemma notified_draining seen s : draining s = true → (seen = sv_version s → sv_flag s = false) → notified seen s = true.
Proof.
  unfold draining, notified. intros Hd Hf. destruct (Nat.eqb_spec seen (sv_version s)) as [E|]; [|done].
  by rewrite (Hf E) in Hd.
Qed.

Lemma loop_stops s l lp : server_ok s → draining s = true → sv_loops s !! l = Some lp →
  ∃ more s', more ∈ [[]; [LoopStarts l]; [LoopNotified l]; [LoopNotified l; LoopNotified l]] ∧
    serve_run more s = Some s' ∧ lp_state <$> sv_loops s' !! l = Some Stopped.
Proof.
  intros Hok Hd Hl. pose proof (Forall_lookup_1 _ _ _ _ (sk_loops _ Hok) Hl) as Hst. unfold loop_ok in Hst.
  pose proof (lookup_lt_Some _ _ _ Hl) as Hlen. destruct (lp_state lp) as [seen|seen|] eqn:Es.
  - exists [LoopStarts l]. eexists. split; [set_solver|]. cbn. rewrite Hl. cbn. rewrite Es, Hd. split; [done|]. cbn.
    by rewrite list_lookup_insert_eq.
  - destruct Hst as [Hle Hf]. pose proof (notified_draining seen s Hd Hf) as Hn.
    assert (serve_step (LoopNotified l) s = Some (set_loop l (with_loop (loop_notified seen s) lp) s)) as Hstep
      by (cbn; rewrite Hl; cbn; by rewrite Es, Hn).
    destruct (loop_notified seen s) as [| seen'|] eqn:En; unfold loop_notified in En.
    + by destruct (_ =? _)%nat, (sv_flag s).
    + destruct (_ =? _)%nat; [done|]. destruct (sv_flag s) eqn:Ef; [done|]. injection En as <-.
      exists [LoopNotified l; LoopNotified l]. eexists. split; [set_solver|]. cbn [serve_run]. rewrite Hstep.
      cbn [mbind option_bind serve_step sv_loops set_loop]. rewrite list_lookup_insert_eq by done. cbn [mbind option_bind with_loop lp_state].
      unfold draining in Hd. rewrite Ef in Hd. cbn [orb] in Hd. unfold notified. cbn [sv_sender set_loop]. rewrite Hd, orb_true_r.
      split; [done|]. cbn. rewrite list_lookup_insert_eq by (by rewrite length_insert). unfold loop_notified. cbn.
      by rewrite Nat.eqb_refl.
    + exists [LoopNotified l]. eexists. split; [set_solver|]. cbn [serve_run]. rewrite Hstep. split; [done|].
      cbn. by rewrite list_lookup_insert_eq.
  - exists [], s. split; [set_solver|]. split; [done|]. rewrite Hl. cbn. by rewrite Es.
Qed.

Definition all_stopped (s : Server) : bool :=
  forallb (λ lp, match lp_state lp with Stopped => true | _ => false end) (sv_loops s).

Lemma all_stopped_lookup s l lp : all_stopped s = true → sv_loops s !! l = Some lp → lp_state lp = Stopped.
Proof.
  unfold all_stopped. rewrite forallb_forall. intros Ha Hl%list_elem_of_lookup_2%list_elem_of_In%Ha. by destruct (lp_state lp).
Qed.

Lemma settle_conns c cn r s s' : settle c cn r s = Some s' →
  sv_loops s' = sv_loops s ∧ length (sv_conns s') = length (sv_conns s).
Proof.
  unfold settle, settle_tls, settle_intercepted. destruct (cn_kind cn), r as [[alpn|]|[|m pre|dst pre]]; try done; intros [= <-]; cbn; by rewrite length_insert.
Qed.

Lemma stopped_run more s s' : all_stopped s = true → serve_run more s = Some s' →
  all_stopped s' = true ∧ length (sv_conns s') = length (sv_conns s).
Proof.
  revert s. induction more as [|ev more IH]; intros s Ha; cbn [serve_run]; [by intros [= <-]|].
  intros (s1 & H1 & H2)%bind_Some.
  assert (sv_loops s1 = sv_loops s ∧ length (sv_conns s1) = length (sv_conns s)) as [Hl Hc].
  { destruct ev as [b| |l|l|l|l|c|c r|c|c|c]; cbn [serve_step] in H1.
    1, 2: destruct (sv_sender s); [|done]; by injection H1 as <-.
    1, 2, 3, 4: apply bind_Some in H1 as (lp & El & H1); by rewrite (all_stopped_lookup s l lp Ha El) in H1.
    2: { apply bind_Some in H1 as (cn & Hcn & H1). destruct (cn_state cn); try done. by eapply settle_conns. }
    all: apply bind_Some in H1 as (cn & Hcn & H1); destruct (cn_state cn); try done;
      try (destruct (cn_kind cn)); try (destruct (_ && _); [|done]); injection H1 as <-; cbn; by rewrite length_insert. }
  destruct (IH s1) as [Ha' Hc']; [unfold all_stopped; by rewrite Hl|done|]. by rewrite Hc', Hc.
Qed.

Lemma none_unfinished s : unfinished s = 0 → Forall (λ cn, cn_state cn = Finished) (sv_conns s).
Proof.
  unfold unfinished, count. generalize (sv_conns s). induction l as [|cn l IH]; [constructor|]. cbn [List.filter].
  unfold counted at 1. destruct (cn_state cn) eqn:E; cbn [length]; try lia. intros Hz. by constructor; [|apply IH].
Qed.

(** A step adds a connection, or moves one whose task has not panicked. *)
Lemma step_conns ev s s' : serve_step ev s = Some s' →
  sv_conns s' = sv_conns s ∨
  (∃ x, crashed x = false ∧ sv_conns s' = sv_conns s ++ [x]) ∨
  ∃ c cn cn', sv_conns s !! c = Some cn ∧ crashed cn = false ∧ sv_conns s' = <[c := cn']> (sv_conns s).
Proof.
  intros H1. destruct ev as [b| |l|l|l|l|c|c r|c|c|c]; cbn [serve_step] in H1.
  1, 2: destruct (sv_sender s); [|done]; injection H1 as <-; by left.
  1, 2, 3, 4: apply bind_Some in H1 as (lp & El & H1); destruct (lp_state lp) eqn:E; try done;
    try (destruct (notified _ _); [|done]); injection H1 as <-; (by left) || (right; left; eexists; split; [|reflexivity]; reflexivity).
  all: apply bind_Some in H1 as (cn & Hcn & H1); right; right; exists c, cn;
    destruct (cn_state cn) eqn:E; try done;
    try (unfold settle, settle_tls, settle_intercepted in H1;
         destruct (cn_kind cn), r as [[alpn|]|[|m pre|dst pre]]; try done);
    try (destruct (cn_kind cn)); try (destruct (_ && _); [|done]); injection H1 as <-;
    (eexists; split_and!; [exact Hcn|unfold crashed; by rewrite E|reflexivity]).
Qed.

(** What leaked stays. *)
Lemma leaked_step ev s s' : serve_step ev s = Some s' → leaked s <= leaked s'.
Proof.
  unfold leaked, count.
  intros [->|[(x & Hx & ->)|(c & cn & cn' & Hcn & Hc & ->)]]%step_conns; [lia| |].
  - rewrite List.filter_app, length_app. lia.
  - rewrite (filter_insert_length crashed _ c cn cn' Hcn), Hc. destruct (crashed cn'); lia.
Qed.

Lemma leaked_run more s s' : serve_run more s = Some s' → leaked s <= leaked s'.
Proof.
  revert s. induction more as [|ev more IH]; intros s; cbn [serve_run]; [intros [= <-]; lia|].
  intros (s1 & H1%leaked_step & H2%IH)%bind_Some. lia.
Qed.

(** C36. The in-flight counter and the drain.  In any interleaving of accepts,
    handshakes, routing, requests, panics and signals over any number of plain, TLS
    and intercepting listeners, the counter is, to 64 bits, the number of accepted
    connections whose task still runs, plus the number of tasks that panicked: each
    of these leaves the counter raised by one for good, so after a panic it is not
    the number of live connections any more and no longer falls to zero.  A zero
    (below the bound) means that nothing is left.  Once the signal is up, or its
    sender gone, every loop can stop and every connection that was being served and
    has not noticed yet is told to drain; none is told twice, and a connection
    before its serving or in a tunnel is not told at all.  When the loops have
    stopped nothing is accepted any more. *)
Theorem serving_drains (ls : list (ListenerKind * bool)) (evs : list Event) (s : Server) :
  serve_run evs (serve_init ls) = Some s →
  sv_in_flight s = wrap 64 (live s + leaked s) ∧
  (∀ more s', serve_run more s = Some s' → leaked s <= leaked s') ∧
  (sv_in_flight s = 0 → live s + leaked s < 2 ^ 64 → Forall (λ cn, cn_state cn = Finished) (sv_conns s)) ∧
  (∀ c cn, sv_conns s !! c = Some cn → (cn_drains cn ≤ 1)%nat ∧
     (cn_state cn = Spawned ∨ cn_state cn = Settling ∨ cn_state cn = Tunnelling → cn_drains cn = 0%nat)) ∧
  (draining s = true →
     (∀ l lp, sv_loops s !! l = Some lp → ∃ more s', (length more ≤ 2)%nat ∧
        more ∈ [[]; [LoopStarts l]; [LoopNotified l]; [LoopNotified l; LoopNotified l]] ∧
        serve_run more s = Some s' ∧ lp_state <$> sv_loops s' !! l = Some Stopped) ∧
     (∀ c cn, sv_conns s !! c = Some cn → cn_state cn = Serving → cn_shutting cn = false →
        ∃ s' cn', serve_step (ConnNotified c) s = Some s' ∧ sv_conns s' !! c = Some cn' ∧ cn_drains cn' = 1%nat)) ∧
  (all_stopped s = true → ∀ more s', serve_run more s = Some s' → length (sv_conns s') = length (sv_conns s)).
Proof.
  intros Hr. pose proof (serve_run_ok _ _ _ (serve_init_ok ls) Hr) as Hok. split_and!.
  - rewrite <-unfinished_split. apply Hok.
  - intros more s'. apply leaked_run.
  - rewrite <-unfinished_split. intros Hz Hlt. apply none_unfinished. rewrite (sk_count _ Hok) in Hz. rewrite wrap_small in Hz; [done|].
    unfold in_u. split; [apply Nat2Z.is_nonneg|done].
  - intros c cn Hcn. destruct (Forall_lookup_1 _ _ _ _ (sk_conns _ Hok) Hcn) as (_ & H2 & H3).
    split; [done|]. intros [E|[E|E]]; rewrite E in H3; apply H3.
  - intros Hd. split.
    + intros l lp Hl. destruct (loop_stops s l lp Hok Hd Hl) as (more & s' & Hm & H1 & H2). exists more, s'.
      split; [|done]. rewrite !elem_of_cons in Hm. destruct Hm as [->|[->|[->|[->|Hm]]]]; cbn; try lia. by apply elem_of_nil in Hm.
    + intros c cn Hcn Hs Hsh. destruct (Forall_lookup_1 _ _ _ _ (sk_conns _ Hok) Hcn) as (H1 & H2 & H3).
      rewrite Hs in H3. destruct (H3 Hsh) as [H4 H5]. cbn [serve_step]. rewrite Hcn. cbn [mbind option_bind]. rewrite Hs, Hsh.
      rewrite (notified_draining _ s Hd (H5 eq_refl)). cbn [negb andb]. eexists _, _. split; [done|].
      cbn. rewrite list_lookup_insert_eq by (by eapply lookup_lt_Some). split; [done|]. cbn. by rewrite H4.
  - intros Ha more s' Hm. by apply (stopped_run more s s' Ha Hm).
Qed.

(** * Concrete runs *)

Definition ex_listeners : list (ListenerKind * bool) := [(PlainListener, false); (TlsListener, true); (InterceptListener, false)].

(** A plain connection that ends by itself, a TLS one, a tunnel, one whose task
    panics, and the signal. *)
Definition ex_run : list Event := [
  LoopStarts 0; LoopStarts 1; LoopStarts 2; Accepted 0; ConnStarts 0; Accepted 1; ConnStarts 1;
  ConnSettles 1 (Shaken (Some None)); ConnEnds 0; Accepted 2; ConnStarts 2;
  ConnSettles 2 (Disposed (TunnelTo (SockV4 167772167 5432) [])); Accepted 0; ConnStarts 3; ConnPanics 3;
  Sent true].

Lemma serving_drains_witness :
  match serve_run ex_run (serve_init ex_listeners) with
  | Some s => sv_in_flight s = wrap 64 (live s + leaked s) ∧ live s = 2 ∧ leaked s = 1 ∧
      ∃ s' cn', serve_step (ConnNotified 1) s = Some s' ∧ sv_conns s' !! 1%nat = Some cn' ∧ cn_drains cn' = 1%nat
  | None => False
  end.
Proof.
  destruct (serve_run ex_run (serve_init ex_listeners)) as [s|] eqn:E; [|by vm_compute in E].
  destruct (serving_drains ex_listeners ex_run s E) as (H1 & _ & _ & _ & H2 & _). vm_compute in E. injection E as <-.
  split; [exact H1|]. split; [reflexivity|]. split; [reflexivity|]. destruct H2 as [_ H2]; [reflexivity|].
  by eapply (H2 1%nat).
Defined.

(** The signal is never taken back. *)
Definition one_way (ev : Event) : Prop := ev ≠ Sent false.

Lemma draining_stays ev s s' : one_way ev → serve_step ev s = Some s' → draining s = true → draining s' = true.
Proof.
  intros Hw H1 Hd. destruct ev as [b| |l|l|l|l|c|c r|c|c|c]; cbn [serve_step] in H1.
  - destruct (sv_sender s); [|done]. injection H1 as <-. destruct b; [done|by destruct Hw].
  - destruct (sv_sender s); [|done]. injection H1 as <-. unfold draining. cbn. apply orb_true_r.
  - apply bind_Some in H1 as (lp & El & H1). destruct (lp_state lp); try done. by injection H1 as <-.
  - apply bind_Some in H1 as (lp & El & H1). destruct (lp_state lp); try done. destruct (notified _ _); [|done]. by injection H1 as <-.
  - apply bind_Some in H1 as (lp & El & H1). destruct (lp_state lp); try done. by injection H1 as <-.
  - apply bind_Some in H1 as (lp & El & H1). destruct (lp_state lp); try done. by injection H1 as <-.
  - apply bind_Some in H1 as (cn & Hcn & H1). destruct (cn_state cn), (cn_kind cn); try done; by injection H1 as <-.
  - apply bind_Some in H1 as (cn & Hcn & H1). destruct (cn_state cn); try done. unfold settle, settle_tls, settle_intercepted in H1.
    destruct (cn_kind cn), r as [[alpn|]|[|m pre|dst pre]]; try done; by injection H1 as <-.
  - apply bind_Some in H1 as (cn & Hcn & H1). destruct (cn_state cn); try done. destruct (_ && _); [|done]. by injection H1 as <-.
  - apply bind_Some in H1 as (cn & Hcn & H1). destruct (cn_state cn); try done; by injection H1 as <-.
  - apply bind_Some in H1 as (cn & Hcn & H1). destruct (cn_state cn); try done; by injection H1 as <-.
Qed.

(** A connection that was not being served when the signal came up takes itself for
    draining once it is: it is never told, and serves a client that keeps it open
    until the grace expires. *)
Definition missed (cn : Conn) : Prop := cn_drains cn = 0%nat ∧ (cn_state cn = Serving → cn_shutting cn = true).

Lemma settle_missed c cn r s s' : draining s = true → sv_conns s !! c = Some cn → missed cn →
  settle c cn r s = Some s' → ∃ cn', sv_conns s' = <[c := cn']> (sv_conns s) ∧ missed cn'.
Proof.
  intros Hd Hcn [Hz Hm]. unfold settle, start_serving. rewrite ?Hd.
  destruct (cn_kind cn), r as [[alpn|]|[|m pre|dst pre]]; try done; intros [= <-]; eexists; by (split; [done|split]).
Qed.

Lemma missed_step ev s s' c cn : draining s = true → serve_step ev s = Some s' →
  sv_conns s !! c = Some cn → missed cn → ∃ cn', sv_conns s' !! c = Some cn' ∧ missed cn'.
Proof.
  intros Hd H1 Hcn Hm. pose proof (lookup_lt_Some _ _ _ Hcn) as Hlt.
  assert (∀ d x x' z, sv_conns s !! d = Some x → (d = c → missed x') →
            ∃ cn', sv_conns (set_conn d x' z s) !! c = Some cn' ∧ missed cn') as Hset.
  { intros d x x' z Hx Hx'. cbn. destruct (decide (d = c)) as [->|Hne].
    - exists x'. rewrite list_lookup_insert_eq by done. by split; [|apply Hx'].
    - exists cn. by rewrite list_lookup_insert_ne. }
  destruct ev as [b| |l|l|l|l|d|d r|d|d|d]; cbn [serve_step] in H1.
  1, 2: destruct (sv_sender s); [|done]; injection H1 as <-; by exists cn.
  1, 2, 4: apply bind_Some in H1 as (lp & El & H1); destruct (lp_state lp); try done;
    try (destruct (notified _ _); [|done]); injection H1 as <-; by exists cn.
  { apply bind_Some in H1 as (lp & El & H1). destruct (lp_state lp); try done. injection H1 as <-.
    exists cn. cbn. split; [|done]. by apply lookup_app_l_Some. }
  all: apply bind_Some in H1 as (x & Hx & H1).
  - destruct (cn_state x) eqn:Ex, (cn_kind x); try done; injection H1 as <-; apply (Hset d x); try done;
      unfold missed; cbn; try (by rewrite Hd); intros ->; (assert (x = cn) as -> by congruence); by destruct Hm as [? _].
  - destruct (cn_state x) eqn:Ex; try done. destruct (decide (d = c)) as [->|Hne].
    + assert (x = cn) as -> by congruence. destruct (settle_missed c cn r s s' Hd Hcn Hm H1) as (cn' & -> & ?).
      exists cn'. by rewrite list_lookup_insert_eq.
    + exists cn. split; [|done]. unfold settle, settle_tls, settle_intercepted in H1.
      destruct (cn_kind x), r as [[alpn|]|[|m pre|dst pre]]; try done; injection H1 as <-; cbn; by rewrite list_lookup_insert_ne.
  - destruct (cn_state x) eqn:Ex; try done. destruct (_ && _) eqn:Eb; [|done]. injection H1 as <-. apply (Hset d x); [done|].
    intros ->. assert (x = cn) as -> by congruence. destruct Hm as [_ Hm]. rewrite (Hm Ex) in Eb. done.
  - destruct (cn_state x) eqn:Ex; try done; injection H1 as <-; apply (Hset d x); try done;
      intros ->; (assert (x = cn) as -> by congruence); destruct Hm as [Hz _]; by split.
  - destruct (cn_state x) eqn:Ex; try done; injection H1 as <-; apply (Hset d x); try done;
      intros ->; (assert (x = cn) as -> by congruence); destruct Hm as [Hz _]; by split.
Qed.

Lemma missed_for_good more s s' c cn : Forall one_way more → draining s = true → serve_run more s = Some s' →
  sv_conns s !! c = Some cn → missed cn → ∃ cn', sv_conns s' !! c = Some cn' ∧ cn_drains cn' = 0%nat.
Proof.
  revert s cn. induction more as [|ev more IH]; intros s cn Hw Hd; cbn [serve_run].
  - intros [= <-] Hcn [Hz _]. by exists cn.
  - intros (s1 & H1 & H2)%bind_Some Hcn Hm. apply Forall_cons in Hw as [Hev Hw].
    destruct (missed_step ev s s1 c cn Hd H1 Hcn Hm) as (cn1 & Hcn1 & Hm1).
    apply (IH s1 cn1); [done|by eapply draining_stays|done..].
Qed.

(** A plain connection whose task starts after the flip, and a TLS one whose
    handshake ends after it, are served and never told. *)
Definition late_start : list Event := [LoopStarts 0; Accepted 0; Sent true; ConnStarts 0].

Definition late_handshake : list Event :=
  [LoopStarts 0; Accepted 0; ConnStarts 0; Sent true; ConnSettles 0 (Shaken (Some (Some (bs "h2"))))].

Lemma started_after_flip_never_drained k evs more s s' :
  (k, evs) ∈ [(PlainListener, late_start); (TlsListener, late_handshake)] →
  serve_run evs (serve_init [(k, false)]) = Some s → Forall one_way more → serve_run more s = Some s' →
  (∃ cn, sv_conns s !! 0%nat = Some cn ∧ cn_state cn = Serving) ∧
  ∃ cn, sv_conns s' !! 0%nat = Some cn ∧ cn_drains cn = 0%nat.
Proof.
  intros Hin H0 Hw Hr. assert (draining s = true ∧ ∃ cn, sv_conns s !! 0%nat = Some cn ∧ cn_state cn = Serving ∧ missed cn)
    as (Hd & cn & Hcn & Hs & Hm).
  { rewrite !elem_of_cons in Hin. destruct Hin as [[= -> ->]|[[= -> ->]|Hin%elem_of_nil]]; [| |done];
      vm_compute in H0; injection H0 as <-; (split; [done|]); eexists; by split_and!. }
  split; [by exists cn|]. by eapply missed_for_good.
Qed.
