(* ===== verification/Probe.v ===== *)
(** The active prober ([openrusty-server/src/active_probe.rs]) as a machine: the
    one probing task, its sweeps over the runtime snapshot it loaded, and what
    runs beside it on the health registry: traffic, reloads, ingress applies. *)

From S2P Require Import Prelude Text Net Config Upstream Health Forward Peer Runtime.
From Stdlib Require Import ZArith Lia.
From stdpp Require Import options.
Local Open Scope Z_scope.

(** * One probe *)

(** A peer to probe: upstream, index and address as of the loaded snapshot. *)
Record Job := { jb_up : bytes; jb_idx : nat; jb_addr : SocketAddr; jb_active : ActiveHealthConfig }.

Definition job_key (j : Job) : bytes * bytes := (jb_up j, addr_to_string (jb_addr j)).

(** How the bounded exchange ended. *)
Inductive ProbeOutcome :=
| ProbeTimeout
| ProbeError
| ProbeStatus (code : Z).

Definition probe_request (a : ActiveHealthConfig) : ForwardRequest := {|
  fr_method := bs "GET"; fr_path_and_query := ah_path a; fr_headers := []; fr_body := [];
  fr_client_ip := bs "127.0.0.1" |}.

(** [StatusCode::is_success]. *)
Definition is_success (code : Z) : bool := (200 <=? code) && (code <? 300).

Definition probe_ok (o : ProbeOutcome) : bool :=
  match o with ProbeStatus code => is_success code | _ => false end.

(** The end of [probe_peer], with the outcome of the exchange. *)
Definition probe_peer (j : Job) (o : ProbeOutcome) (h : HealthRegistry) : bool * HealthRegistry :=
  record_probe (jb_up j) (jb_idx j) (addr_to_string (jb_addr j)) (probe_ok o)
    (ah_unhealthy_threshold (jb_active j)) (ah_healthy_threshold (jb_active j)) h.

(** The log line a verdict deserves. *)
Definition transition (prev : option bool) (new : bool) : option bool :=
  match prev with
  | Some p => if bool_decide (p ≠ new) then Some new else None
  | None => None
  end.

(** The loop over the results: the lines, and the verdicts remembered. *)
Fixpoint note_results (results : list (bytes * bytes * bool)) (prev : gmap (bytes * bytes) bool)
    : list (bytes * bytes * bool) * gmap (bytes * bytes) bool :=
  match results with
  | [] => ([], prev)
  | (key, healthy) :: results =>
      let line := match transition (prev !! key) healthy with Some b => [(key, b)] | None => [] end in
      let '(lines, prev) := note_results results (<[key := healthy]> prev) in
      (line ++ lines, prev)
  end.

(** * The task *)

Definition upstream_jobs (up : UpstreamRt) : list Job :=
  match hc_active (up_health (ur_up up)) with
  | None => []
  | Some a =>
      imap (λ idx p, {| jb_up := up_name (ur_up up); jb_idx := idx; jb_addr := pe_addr p; jb_active := a |})
        (up_peers (ur_up up))
  end.

(** The peers of every enabled upstream; the map's own order stands for the hash
    map's (the probes run concurrently). *)
Definition jobs (rt : RuntimeSnapshot) : list Job :=
  mjoin ((λ kv, upstream_jobs kv.2) <$> map_to_list (rs_upstreams rt)).

(** A sweep keeps a slot per probe, as [join_all] does. *)
Inductive Task :=
| NoTask
| Sleeping (interval : Z) (prev : gmap (bytes * bytes) bool)
| Sweeping (interval : Z) (prev : gmap (bytes * bytes) bool) (probes : list (Job * option bool)).

Record ProbeSys := {
  ps_health : HealthRegistry;
  ps_runtime : RuntimeSnapshot;
  ps_task : Task;
  ps_log : list (bytes * bytes * bool);
}.

(** What requests do to the registry meanwhile. *)
Inductive Traffic :=
| PeerFailed (up : bytes) (idx : nat) (cfg : HealthConfig) (now_ms : Z)
| PeerServed (up : bytes) (idx : nat) (now_ms : Z)
| RequestStarted (up : bytes) (addr : SocketAddr)
| RequestEnded (up : bytes) (addr : SocketAddr).

Definition traffic (t : Traffic) (h : HealthRegistry) : HealthRegistry :=
  match t with
  | PeerFailed up idx cfg now_ms => record_failure up idx cfg now_ms h
  | PeerServed up idx now_ms => record_success up idx now_ms h
  | RequestStarted up addr => inc_in_flight up addr h
  | RequestEnded up addr => dec_in_flight up addr h
  end.

(** The steps of the task, the traffic, and the parts of a runtime publication:
    a file reload registers, publishes and respawns, an ingress apply does not
    respawn.  The task is aborted where it awaits; what it still does on the way
    there is a step before the respawn. *)
Inductive ProbeEvent :=
| SleepElapsed
| Probed (k : nat) (o : ProbeOutcome)
| SweepDone
| TrafficStep (t : Traffic)
| Registered (up : bytes) (addrs : list SocketAddr)
| Published (rt : RuntimeSnapshot)
| Respawned.

Definition set_health (h : HealthRegistry) (s : ProbeSys) : ProbeSys :=
  {| ps_health := h; ps_runtime := ps_runtime s; ps_task := ps_task s; ps_log := ps_log s |}.

Definition set_task (t : Task) (s : ProbeSys) : ProbeSys :=
  {| ps_health := ps_health s; ps_runtime := ps_runtime s; ps_task := t; ps_log := ps_log s |}.

(** [spawn]: the old task is always cancelled, with what it remembers. *)
Definition respawn (rt : RuntimeSnapshot) : Task :=
  match probe_interval rt with None => NoTask | Some ms => Sleeping ms ∅ end.

(** The results, once every probe has one. *)
Definition sweep_results (probes : list (Job * option bool)) : option (list (bytes * bytes * bool)) :=
  mapM (λ p, pair (job_key p.1) <$> p.2) probes.

Definition probe_step (ev : ProbeEvent) (s : ProbeSys) : option ProbeSys :=
  match ev, ps_task s with
  | SleepElapsed, Sleeping ms prev =>
      Some (set_task (Sweeping ms prev ((λ j, (j, None)) <$> jobs (ps_runtime s))) s)
  | Probed k o, Sweeping ms prev probes =>
      match probes !! k with
      | Some (j, None) =>
          let '(healthy, h) := probe_peer j o (ps_health s) in
          Some (set_task (Sweeping ms prev (<[k := (j, Some healthy)]> probes)) (set_health h s))
      | _ => None
      end
  | SweepDone, Sweeping ms prev probes =>
      results ← sweep_results probes;
      let '(lines, prev) := note_results results prev in
      Some {| ps_health := ps_health s; ps_runtime := ps_runtime s; ps_task := Sleeping ms prev;
              ps_log := ps_log s ++ lines |}
  | TrafficStep t, _ => Some (set_health (traffic t (ps_health s)) s)
  | Registered up addrs, _ => Some (set_health (register up addrs (ps_health s)) s)
  | Published rt, task =>
      Some {| ps_health := ps_health s; ps_runtime := rt; ps_task := task; ps_log := ps_log s |}
  | Respawned, _ => Some (set_task (respawn (ps_runtime s)) s)
  | _, _ => None
  end.

Fixpoint probe_run (evs : list ProbeEvent) (s : ProbeSys) : option ProbeSys :=
  match evs with
  | [] => Some s
  | ev :: evs => s ← probe_step ev s; probe_run evs s
  end.

(** * What a step leaves *)

(** The verdict a slot mirrors. *)
Definition flag (h : HealthRegistry) (up : bytes) (idx : nat) : option bool :=
  ph_active_ok <$> slot_at h up idx.




Lemma flag_update f up idx h up' idx' :
  flag (update_slot f up idx h) up' idx' =
    if decide ((up', idx') = (up, idx)) then (ph_active_ok ∘ f) <$> slot_at h up idx else flag h up' idx'.
Proof.
  unfold flag. case_decide as E; [|by rewrite slot_at_update_other].
  injection E as -> ->. by rewrite slot_at_update, option_fmap_compose.
Qed.

Lemma flag_kept f up idx h up' idx' :
  (∀ p, ph_active_ok (f p) = ph_active_ok p) → flag (update_slot f up idx h) up' idx' = flag h up' idx'.
Proof.
  intros Hf. rewrite flag_update. case_decide as E; [|done]. injection E as -> ->.
  unfold flag. destruct (slot_at h up idx); simpl; [by rewrite Hf|done].
Qed.

Lemma update_addr_kept f up a h : (∀ p, ph_active_ok (f p) = ph_active_ok p) →
  hr_active (update_addr f up a h) = hr_active h ∧ ∀ up' idx, flag (update_addr f up a h) up' idx = flag h up' idx.
Proof. intros Hf. unfold update_addr. repeat case_match; try done. split; [done|]. intros. by apply flag_kept. Qed.

(** Traffic touches neither the active plane nor its mirror. *)
Lemma traffic_kept t h : hr_active (traffic t h) = hr_active h ∧ ∀ up idx, flag (traffic t h) up idx = flag h up idx.
Proof.
  destruct t; cbn [traffic]; [|split; [done|intros; by apply flag_kept]|by apply update_addr_kept|by apply update_addr_kept].
  unfold record_failure. case_match; [done|]. split; [done|]. intros. apply flag_kept. intros p. unfold peer_failure. by repeat case_match.
Qed.

(** * A sweep *)




Definition during (ev : ProbeEvent) : Prop := match ev with Probed _ _ | TrafficStep _ => True | _ => False end.















(** ** The end of a sweep *)




(** ** The peers a sweep probes *)








(** ** Completion *)



Lemma during_only_probes outs l : Forall during ((λ k, Probed k (outs k)) <$> l).
Proof. apply Forall_fmap, Forall_true. done. Qed.



(** * Concrete gateways *)

Definition ex_active : ActiveHealthConfig := {|
  ah_interval_ms := 5000; ah_timeout_ms := 1000; ah_path := bs "/health";
  ah_unhealthy_threshold := 1; ah_healthy_threshold := 1 |}.

Definition probe_upstream (addrs : list SocketAddr) : UpstreamRt := upstream_rt (from_config {|
  uc_name := bs "u"; uc_balancer := Swrr; uc_retries := 1; uc_retry_on_timeout := false;
  uc_connect_timeout_ms := 2000; uc_pool_idle_timeout_ms := 60000;
  uc_peers := (λ a, {| pc_addr := a; pc_weight := 1 |}) <$> addrs; uc_endpoints := []; uc_tls := None;
  uc_health := {| hc_max_fails := 3; hc_fail_window_s := 10; hc_fail_timeout_s := 10; hc_active := Some ex_active |} |} None).

Definition probe_runtime (addrs : list SocketAddr) : RuntimeSnapshot := {|
  rs_generation := 1; rs_routes := []; rs_upstreams := {[ bs "u" := probe_upstream addrs ]} |}.

Definition ex_a : SocketAddr := loopback 9001.
Definition ex_b : SocketAddr := loopback 9002.

Definition ex_sys : ProbeSys := {|
  ps_health := register (bs "u") [ex_a; ex_b] Health.new; ps_runtime := probe_runtime [ex_a; ex_b];
  ps_task := Sleeping 5000 {[ (bs "u", addr_to_string ex_b) := true ]}; ps_log := [] |}.




(** An ingress apply that reorders the peers while a probe is out: the probe
    reports under the index it was started with, so its failure marks the slot of
    the other peer, which answers, while the peer that failed is still served.
    The next undisturbed sweep puts both right. *)
Definition crossed : list ProbeEvent :=
  [SleepElapsed; Probed 1 (ProbeStatus 200); Registered (bs "u") [ex_b; ex_a]; Published (probe_runtime [ex_b; ex_a]);
   Probed 0 ProbeTimeout; SweepDone].

Lemma crossed_probe_marks_the_wrong_peer :
  (λ s', let h := ps_health s' in
     (sl_addrs <$> hr_upstreams h !! bs "u", is_active_healthy h (bs "u") (addr_to_string ex_b),
      is_active_healthy h (bs "u") (addr_to_string ex_a), healthy_indices h (bs "u") 2 0)) <$> probe_run crossed ex_sys =
  Some (Some [ex_b; ex_a], true, false, [1%nat]).
Proof. vm_compute. reflexivity. Qed.

(** An ingress apply composes on the boot-time configuration and does not respawn
    the task: an upstream with active checks it brings back after a reload had
    dropped them is never probed, whatever happens until the next reload. *)
Lemma published_without_respawn_is_unprobed evs s s' :
  ps_task s = NoTask → Forall (λ ev, ev ≠ Respawned) evs → probe_run evs s = Some s' →
  ps_task s' = NoTask ∧ hr_active (ps_health s') = hr_active (ps_health s).
Proof.
  intros Ht Hf. revert s Ht. induction Hf as [|ev evs Hev _ IH]; intros s Ht; cbn [probe_run]; [by intros [= <-]|].
  intros (s1 & H1 & H2)%bind_Some.
  assert (ps_task s1 = NoTask ∧ hr_active (ps_health s1) = hr_active (ps_health s)) as [Ht1 Ha].
  { destruct ev; cbn [probe_step] in H1; rewrite ?Ht in H1; try done; injection H1 as <-; cbn; rewrite ?Ht; try done.
    split; [done|]. apply (traffic_kept t). }
  destruct (IH s1 Ht1 H2) as [Ht' Hk]. by rewrite Hk.
Qed.
