(* ===== verification/Engine.v ===== *)
(** The wasm engine: epoch deadlines and their ticker
    ([openrusty-wasm/src/epoch.rs]), the engine's pool ([registry.rs]), and the two
    places a module is instantiated, the probe of [linker.rs] and [runner.rs]. *)

From S2P Require Import Prelude Text Config Registry.
From Stdlib Require Import ZArith Lia.
From stdpp Require Import options.
Local Open Scope Z_scope.

(** * Deadlines *)

Definition TICK_MS : Z := 10.

(** Whole ticks of a budget in milliseconds; at least one. *)
Definition ticks_for (timeout_ms : Z) : Z :=
  Z.max 1 ((if timeout_ms <? 2 ^ 64 then timeout_ms else umax 64) / TICK_MS).

(** A guest call under its own deadline. *)
Record Call := { cl_started : Z; cl_budget : Z; cl_deadline : Z }.

(** One engine: its clock in milliseconds, its epoch, when the ticker thread last
    went to sleep (if it runs), and the calls in its stores. *)
Record Engine := {
  en_now : Z;
  en_epoch : Z;
  en_slept : Z;
  en_ticking : bool;
  en_calls : gmap nat Call;
}.

(** [EpochTicker::new]; without its thread no deadline ever fires. *)
Definition new_ticker (spawned : bool) : Engine :=
  {| en_now := 0; en_epoch := 0; en_slept := 0; en_ticking := spawned; en_calls := ∅ |}.

Inductive EngineEvent :=
| Elapsed (ms : Z)
| Ticked
| TickerDropped
| CallStarts (i : nat) (timeout_ms : Z)
| GuestRuns (i : nat)
| Interrupted (i : nat)
| CallReturns (i : nat).

Definition set_calls (calls : gmap nat Call) (s : Engine) : Engine :=
  {| en_now := en_now s; en_epoch := en_epoch s; en_slept := en_slept s; en_ticking := en_ticking s; en_calls := calls |}.

Section deadlines.
(** How late the sleeping thread may wake. *)
Context (late : Z).

(** A sleep is at least [TICK_MS]; guest code runs below its deadline and traps at
    it. *)
Definition engine_step (ev : EngineEvent) (s : Engine) : option Engine :=
  match ev with
  | Elapsed ms =>
      if (0 <=? ms) && (negb (en_ticking s) || (en_now s + ms - en_slept s <=? TICK_MS + late))
      then Some {| en_now := en_now s + ms; en_epoch := en_epoch s; en_slept := en_slept s;
                   en_ticking := en_ticking s; en_calls := en_calls s |}
      else None
  | Ticked =>
      if en_ticking s && (TICK_MS <=? en_now s - en_slept s)
      then Some {| en_now := en_now s; en_epoch := en_epoch s + 1; en_slept := en_now s;
                   en_ticking := true; en_calls := en_calls s |}
      else None
  | TickerDropped =>
      Some {| en_now := en_now s; en_epoch := en_epoch s; en_slept := en_slept s;
              en_ticking := false; en_calls := en_calls s |}
  | CallStarts i timeout_ms =>
      match en_calls s !! i with
      | None => Some (set_calls (<[i := {| cl_started := en_now s; cl_budget := timeout_ms;
                                          cl_deadline := en_epoch s + ticks_for timeout_ms |}]> (en_calls s)) s)
      | Some _ => None
      end
  | GuestRuns i =>
      c ← en_calls s !! i;
      if en_epoch s <? cl_deadline c then Some s else None
  | Interrupted i =>
      c ← en_calls s !! i;
      if cl_deadline c <=? en_epoch s then Some (set_calls (delete i (en_calls s)) s) else None
  | CallReturns i =>
      c ← en_calls s !! i;
      Some (set_calls (delete i (en_calls s)) s)
  end.

Fixpoint engine_run (evs : list EngineEvent) (s : Engine) : option Engine :=
  match evs with
  | [] => Some s
  | ev :: evs => s ← engine_step ev s; engine_run evs s
  end.

(** Ticks since the call started. *)
Definition elapsed_ticks (s : Engine) (c : Call) : Z := en_epoch s - (cl_deadline c - ticks_for (cl_budget c)).

Record call_ok (s : Engine) (c : Call) : Prop := {
  ck_ticks : 0 <= elapsed_ticks s c;
  ck_started : cl_started c <= en_now s;
  ck_low : 1 <= elapsed_ticks s c → (elapsed_ticks s c - 1) * TICK_MS <= en_slept s - cl_started c;
  ck_high : en_slept s - cl_started c <= elapsed_ticks s c * (TICK_MS + late);
}.

Record engine_ok (s : Engine) : Prop := {
  ek_slept : en_slept s <= en_now s;
  ek_awake : en_ticking s = true → en_now s - en_slept s <= TICK_MS + late;
  ek_calls : map_Forall (λ _, call_ok s) (en_calls s);
}.

Lemma ticks_for_pos t : 1 <= ticks_for t.
Proof. unfold ticks_for. lia. Qed.

Lemma new_ticker_ok b : 0 <= late → engine_ok (new_ticker b).
Proof. intros Hl. constructor; cbn; [lia|unfold TICK_MS; lia|apply map_Forall_empty]. Qed.

Lemma set_calls_ok calls s c : call_ok s c → call_ok (set_calls calls s) c.
Proof. by intros [H1 H2 H3 H4]. Qed.

Lemma engine_step_ok ev s s' : 0 <= late → engine_ok s → engine_step ev s = Some s' → engine_ok s'.
Proof.
  intros Hl [Hs Ha Hc]. destruct ev as [ms| | |i t|i|i|i]; cbn [engine_step].
  - destruct (_ && _) eqn:E; [|done]. intros [= <-]. apply andb_true_iff in E as [E1 E2]. apply Z.leb_le in E1.
    constructor; cbn; [lia| |].
    + intros Ht. rewrite Ht in E2. cbn in E2. apply Z.leb_le in E2. lia.
    + eapply map_Forall_impl; [exact Hc|]. intros j c [H1 H2 H3 H4]. by constructor; cbn; [|lia| |].
  - destruct (_ && _) eqn:E; [|done]. intros [= <-]. apply andb_true_iff in E as [E1 E2]. apply Z.leb_le in E2.
    specialize (Ha E1). constructor; cbn; [lia|unfold TICK_MS in *; lia|].
    eapply map_Forall_impl; [exact Hc|]. intros j c [H1 H2 H3 H4]. unfold elapsed_ticks in *. constructor; unfold elapsed_ticks; cbn.
    + lia.
    + lia.
    + intros _. destruct (decide (1 <= en_epoch s - (cl_deadline c - ticks_for (cl_budget c)))) as [Hn|Hn]; [specialize (H3 Hn); lia|].
      assert (en_epoch s - (cl_deadline c - ticks_for (cl_budget c)) = 0) by lia. nia.
    + nia.
  - intros [= <-]. constructor; cbn; [lia|done|]. eapply map_Forall_impl; [exact Hc|]. by intros j c [H1 H2 H3 H4].
  - destruct (en_calls s !! i); [done|]. intros [= <-]. constructor; cbn; [lia|done|]. apply map_Forall_insert_2.
    { constructor; unfold elapsed_ticks; cbn; lia. }
    eapply map_Forall_impl; [exact Hc|]. intros. by apply set_calls_ok.
  - intros (c & _ & H)%bind_Some. destruct (_ <? _); [|done]. injection H as <-. by constructor.
  - intros (c & _ & H)%bind_Some. destruct (_ <=? _); [|done]. injection H as <-. constructor; cbn; [lia|done|]. apply map_Forall_delete.
    eapply map_Forall_impl; [exact Hc|]. intros. by apply set_calls_ok.
  - intros (c & _ & [= <-])%bind_Some. constructor; cbn; [lia|done|]. apply map_Forall_delete.
    eapply map_Forall_impl; [exact Hc|]. intros. by apply set_calls_ok.
Qed.

Lemma engine_run_ok evs s s' : 0 <= late → engine_ok s → engine_run evs s = Some s' → engine_ok s'.
Proof.
  intros Hl. revert s. induction evs as [|ev evs IH]; intros s Hok; cbn [engine_run]; [by intros [= <-]|].
  intros (s1 & H1 & H2)%bind_Some. eapply IH; [|exact H2]. by eapply engine_step_ok.
Qed.

(** Without the thread the epoch stands still below every deadline. *)
Lemma unticked evs s s' : en_ticking s = false → map_Forall (λ _ c, en_epoch s < cl_deadline c) (en_calls s) →
  engine_run evs s = Some s' → map_Forall (λ _ c, en_epoch s' < cl_deadline c) (en_calls s').
Proof using Type.
  revert s. induction evs as [|ev evs IH]; intros s Ht Hc; cbn [engine_run]; [by intros [= <-]|].
  intros (s1 & H1 & H2)%bind_Some. destruct ev as [ms| | |i t|i|i|i]; cbn [engine_step] in H1.
  - destruct (_ && _); [|done]. injection H1 as <-. eapply IH; [| |exact H2]; done.
  - by rewrite Ht in H1.
  - injection H1 as <-. eapply IH; [| |exact H2]; done.
  - destruct (en_calls s !! i); [done|]. injection H1 as <-. eapply IH; [| |exact H2]; [done|]. cbn.
    apply map_Forall_insert_2; [|done]. cbn. pose proof (ticks_for_pos t). lia.
  - apply bind_Some in H1 as (c & _ & H1). destruct (_ <? _); [|done]. injection H1 as <-. eapply IH; [| |exact H2]; done.
  - apply bind_Some in H1 as (c & _ & H1). destruct (_ <=? _); [|done]. injection H1 as <-. eapply IH; [| |exact H2]; [done|]. by apply map_Forall_delete.
  - apply bind_Some in H1 as (c & _ & H1). injection H1 as <-. eapply IH; [| |exact H2]; [done|]. by apply map_Forall_delete.
Qed.

(** C40. The window of a deadline.  Whatever other calls the engine serves, and
    whenever in a tick a call starts, while the ticker thread runs: guest code of a
    call with a budget of at least one tick (10 ms) still runs only within the
    budget (plus the thread's own lateness per tick), so it cannot hang; it is
    interrupted only in the last two ticks of its budget or later, never sooner.
    The two exceptions: a budget below a tick runs up to a whole tick (a valid
    [timeout_ms] of 1 up to 10 ms); and without the ticker thread, whose failure
    to spawn is only logged, or after it has ended, the bound does not hold: an engine whose
    thread was never there runs its guests without end. *)
Theorem deadline_window (spawned : bool) (evs : list EngineEvent) (s : Engine) (i : nat) (c : Call) :
  0 <= late → engine_run evs (new_ticker spawned) = Some s → en_calls s !! i = Some c →
  (en_ticking s = true → is_Some (engine_step (GuestRuns i) s) →
     en_now s - cl_started c <= ticks_for (cl_budget c) * (TICK_MS + late)) ∧
  (is_Some (engine_step (Interrupted i) s) →
     (ticks_for (cl_budget c) - 1) * TICK_MS <= en_now s - cl_started c ∧ spawned = true) ∧
  (TICK_MS <= cl_budget c < 2 ^ 64 →
     (en_ticking s = true → is_Some (engine_step (GuestRuns i) s) →
        en_now s - cl_started c <= cl_budget c + cl_budget c / TICK_MS * late) ∧
     (is_Some (engine_step (Interrupted i) s) → cl_budget c - 2 * TICK_MS < en_now s - cl_started c)) ∧
  (cl_budget c < TICK_MS → en_ticking s = true → is_Some (engine_step (GuestRuns i) s) →
     en_now s - cl_started c <= TICK_MS + late) ∧
  (spawned = false → is_Some (engine_step (GuestRuns i) s) ∧ engine_step (Interrupted i) s = None).
Proof.
  intros Hl Hr Hc. pose proof (engine_run_ok _ _ _ Hl (new_ticker_ok spawned Hl) Hr) as [Hs Ha Hcs].
  pose proof (map_Forall_lookup_1 _ _ _ _ Hcs Hc) as [H1 H2 H3 H4]. unfold elapsed_ticks in *.
  assert (en_ticking s = true → is_Some (engine_step (GuestRuns i) s) →
    en_now s - cl_started c <= ticks_for (cl_budget c) * (TICK_MS + late)) as Hrun.
  { cbn [engine_step]. rewrite Hc. cbn [mbind option_bind]. intros Ht [s' Hg].
    destruct (Z.ltb_spec (en_epoch s) (cl_deadline c)); [|done]. specialize (Ha Ht). unfold TICK_MS in *. nia. }
  assert (is_Some (engine_step (Interrupted i) s) →
    (ticks_for (cl_budget c) - 1) * TICK_MS <= en_now s - cl_started c ∧ spawned = true) as Hint.
  { cbn [engine_step]. rewrite Hc. cbn [mbind option_bind]. intros [s' Hg].
    destruct (Z.leb_spec (cl_deadline c) (en_epoch s)); [|done]. pose proof (ticks_for_pos (cl_budget c)). split.
    - specialize (H3 ltac:(lia)). unfold TICK_MS in *. lia.
    - destruct spawned; [done|]. exfalso. pose proof (unticked evs (new_ticker false) s eq_refl (map_Forall_empty _) Hr) as Hu.
      pose proof (map_Forall_lookup_1 _ _ _ _ Hu Hc) as Hlt. cbn in Hlt. lia. }
  split_and!; [exact Hrun|exact Hint| | |]; [intros Hb|intros Hb Ht Hg|intros ->]; cycle 1.
  { specialize (Hrun Ht Hg). assert (ticks_for (cl_budget c) = 1) as Et; [|rewrite Et in Hrun; lia].
    unfold ticks_for. rewrite (proj2 (Z.ltb_lt _ _)) by (unfold TICK_MS in *; lia). apply Z.max_l.
    apply Z.lt_succ_r, Z.div_lt_upper_bound; unfold TICK_MS in *; lia. }
  { pose proof (unticked evs (new_ticker false) s eq_refl (map_Forall_empty _) Hr) as Hu.
    pose proof (map_Forall_lookup_1 _ _ _ _ Hu Hc) as Hlt. cbn in Hlt. cbn [engine_step]. rewrite Hc.
    cbn [mbind option_bind]. rewrite (proj2 (Z.ltb_lt _ _)), (proj2 (Z.leb_gt _ _)) by lia. by split. }
  assert (ticks_for (cl_budget c) = cl_budget c / TICK_MS) as Eb.
  { unfold ticks_for. rewrite (proj2 (Z.ltb_lt _ _)) by lia. apply Z.max_r. apply Z.div_le_lower_bound; unfold TICK_MS in *; lia. }
  rewrite Eb in *. unfold TICK_MS in *. pose proof (Z.div_mod (cl_budget c) 10 ltac:(lia)) as Hq.
  pose proof (Z.mod_pos_bound (cl_budget c) 10 ltac:(lia)) as Hq'. split.
  - intros Ht Hg. specialize (Hrun Ht Hg). rewrite Z.mul_add_distr_l in Hrun. lia.
  - intros Hg. apply Hint in Hg as [Hg _]. lia.
Qed.

End deadlines.

(** Two calls, the second in the middle of a tick; 25 ms are two ticks. *)
Definition ex_events : list EngineEvent :=
  [Elapsed 10; CallStarts 0 25; Ticked; Elapsed 6; CallStarts 1 50; Elapsed 4; Ticked; GuestRuns 1].

Lemma deadline_window_witness :
  match engine_run 0 ex_events (new_ticker true) with
  | Some s => match en_calls s !! 0%nat with
              | Some c => is_Some (engine_step 0 (Interrupted 0) s) ∧ en_now s - cl_started c = 10 ∧
                  cl_budget c - 2 * TICK_MS < en_now s - cl_started c
              | None => False
              end
  | None => False
  end.
Proof.
  destruct (engine_run 0 ex_events (new_ticker true)) as [s|] eqn:E; [|by vm_compute in E].
  assert (en_calls s !! 0%nat = Some {| cl_started := 10; cl_budget := 25; cl_deadline := 2 |}) as Hc
    by (vm_compute in E; injection E as <-; vm_compute; reflexivity).
  destruct (deadline_window 0 true ex_events s 0 _ ltac:(lia) E Hc) as (_ & _ & H & _).
  assert (is_Some (engine_step 0 (Interrupted 0) s)) as Hi
    by (vm_compute in E; injection E as <-; vm_compute; eexists; reflexivity).
  rewrite Hc. split_and!; [exact Hi|vm_compute in E; injection E as <-; vm_compute; reflexivity|].
  apply H; [vm_compute; split; [discriminate|reflexivity]|exact Hi].
Defined.

(** Nearly two ticks of a budget can be lost: a call with 19 ms that starts just
    before a tick is interrupted at once. *)
Lemma deadline_fires_early :
  (λ s, (en_now s, is_some (engine_step 0 (Interrupted 0) s))) <$>
    engine_run 0 [Elapsed 10; CallStarts 0 19; Ticked] (new_ticker true) = Some (10, true).
Proof. vm_compute. reflexivity. Qed.

(** * The engine's pool *)

(** The settings [new_engine] gives wasmtime: slots and bytes per memory. *)
Definition new_engine (cfg : PluginsConfig) : option (Z * Z) :=
  if 0 <? pl_instance_pool_size cfg
  then Some (pl_instance_pool_size cfg, memory_slot_bytes (pl_max_memory_mb cfg))
  else None.

(** * Instantiating a module *)

Inductive InstError := TrapInterrupt | InstFailed (detail : bytes).

Inductive AbiError :=
| Instantiate (detail : bytes)
| InstantiateTimedOut (budget_ms : Z)
| BadExport (name : bytes).

Record AbiInfo := { has_dealloc : bool }.

Definition PROBE_INSTANTIATE_TIMEOUT : Z := 5000.
Definition INSTANTIATE_TIMEOUT : Z := 5000.
Definition EXPORT_ON_PHASE : bytes := bs "orr_on_phase".
Definition EXPORT_ALLOC : bytes := bs "orr_alloc".
Definition EXPORT_DEALLOC : bytes := bs "orr_dealloc".
Definition MEMORY_EXPORT : bytes := bs "memory".
Definition PROBE_MEMORY : Z := Z.shiftl 256 20.

(** Why an instance for a request was not made. *)
Inductive RtError := RtInstantiate (e : InstError) | RtMissing (export : bytes).

Section modules.
Context {Module_ Instance : Type}.
(** wasmtime: instantiation under a deadline in ticks, a memory ceiling and whether
    growth beyond it traps; the exported functions by name and number of [i32]
    arguments (with one [i32] result), the exported functions of any type, and the
    exported memories. *)
Context (wasm_instantiate : Module_ → Z → Z → bool → result InstError Instance).
Context (typed_func : Instance → bytes → nat → bool) (any_func exported_memory : Instance → bytes → bool).

(** The probe at load time. *)
Definition validate_module_with_budget (budget_ms : Z) (m : Module_) : result AbiError AbiInfo :=
  match wasm_instantiate m (ticks_for budget_ms) PROBE_MEMORY false with
  | Err TrapInterrupt => Err (InstantiateTimedOut budget_ms)
  | Err (InstFailed d) => Err (Instantiate d)
  | Ok inst =>
      guard_err (negb (typed_func inst EXPORT_ON_PHASE 2)) (BadExport EXPORT_ON_PHASE);;
      guard_err (negb (typed_func inst EXPORT_ALLOC 1)) (BadExport EXPORT_ALLOC);;
      Ok {| has_dealloc := any_func inst EXPORT_DEALLOC |}
  end.

Definition validate_module (m : Module_) : result AbiError AbiInfo :=
  validate_module_with_budget PROBE_INSTANTIATE_TIMEOUT m.

(** The instance of a request. *)
Definition instantiate_with_budget (m : Module_) (memory_limit_mb budget_ms : Z) : result RtError Instance :=
  match wasm_instantiate m (ticks_for budget_ms) (sat_mul 64 memory_limit_mb (1024 * 1024)) true with
  | Err e => Err (RtInstantiate e)
  | Ok inst =>
      guard_err (negb (typed_func inst EXPORT_ON_PHASE 2)) (RtMissing EXPORT_ON_PHASE);;
      guard_err (negb (typed_func inst EXPORT_ALLOC 1)) (RtMissing EXPORT_ALLOC);;
      guard_err (negb (exported_memory inst MEMORY_EXPORT)) (RtMissing MEMORY_EXPORT);;
      Ok inst
  end.

Definition instantiate (m : Module_) (memory_limit_mb : Z) : result RtError Instance :=
  instantiate_with_budget m memory_limit_mb INSTANTIATE_TIMEOUT.

(** Exports are the module's, the same in every instance. *)
Definition exports_of_module : Prop := ∀ m t c g i t' c' g' i',
  wasm_instantiate m t c g = Ok i → wasm_instantiate m t' c' g' = Ok i' →
  (∀ n k, typed_func i n k = typed_func i' n k) ∧ (∀ n, exported_memory i n = exported_memory i' n).

(** An accepted module fails a request only by what instantiation itself does under
    the plugin's own ceiling, or for want of a memory named [memory], which the
    probe does not ask for. *)
Lemma accepted_module m info mb budget_ms : exports_of_module → validate_module m = Ok info →
  (∀ e, instantiate_with_budget m mb budget_ms = Err e →
     (∃ e', e = RtInstantiate e' ∧ wasm_instantiate m (ticks_for budget_ms) (sat_mul 64 mb (1024 * 1024)) true = Err e') ∨
     e = RtMissing MEMORY_EXPORT).
Proof using Type.
  intros Hex Hv e He. unfold validate_module, validate_module_with_budget in Hv.
  destruct (wasm_instantiate m (ticks_for PROBE_INSTANTIATE_TIMEOUT) PROBE_MEMORY false) as [i|[|d]] eqn:Ei; [|done|done].
  unfold instantiate_with_budget in He.
  destruct (wasm_instantiate m (ticks_for budget_ms) _ true) as [j|e'] eqn:Ej; [|injection He as <-; left; by exists e'].
  destruct (Hex _ _ _ _ _ _ _ _ _ Ei Ej) as [Hf _].
  apply bind_ok in Hv as ([] & H1%guard_err_ok%negb_false_iff & Hv). apply bind_ok in Hv as ([] & H2%guard_err_ok%negb_false_iff & _).
  rewrite <-!Hf, H1, H2 in He. cbn [negb guard_err] in He. right.
  destruct (exported_memory j MEMORY_EXPORT); [done|]. by injection He.
Qed.

(** A module whose memory has another name is accepted at load and fails every
    request. *)
Lemma unnamed_memory_accepted m info mb budget_ms i : exports_of_module → validate_module m = Ok info →
  wasm_instantiate m (ticks_for PROBE_INSTANTIATE_TIMEOUT) PROBE_MEMORY false = Ok i → exported_memory i MEMORY_EXPORT = false →
  ∃ e, instantiate_with_budget m mb budget_ms = Err e.
Proof using Type.
  intros Hex Hv Hi Hm. destruct (instantiate_with_budget m mb budget_ms) as [j|e] eqn:Ej; [exfalso|by exists e].
  unfold instantiate_with_budget in Ej. destruct (wasm_instantiate m (ticks_for budget_ms) _ true) as [j'|] eqn:Ej'; [|done].
  destruct (Hex _ _ _ _ _ _ _ _ _ Hi Ej') as [_ Hmem].
  apply bind_ok in Ej as (? & _ & Ej). apply bind_ok in Ej as (? & _ & Ej). apply bind_ok in Ej as ([] & H%guard_err_ok & _).
  by rewrite <-Hmem, Hm in H.
Qed.
End modules.

(** The probe's ceiling is not the plugin's: with a wasmtime that refuses a memory
    beyond its ceiling, a module of 32 MiB is accepted and fails every request
    under the default ceiling of 16 MiB (on-demand allocation). *)
Lemma probe_ceiling_is_not_the_plugins :
  let wasm (m t ceiling : Z) (_ : bool) := if ceiling <? m then Err (InstFailed (bs "memory")) else Ok m in
  let func (_ : Z) (_ : bytes) (_ : nat) := true in let any (_ : Z) (_ : bytes) := true in
  is_ok (validate_module wasm func any (Z.shiftl 32 20)) = true ∧
  instantiate wasm func any (Z.shiftl 32 20) default_max_memory_mb = Err (RtInstantiate (InstFailed (bs "memory"))).
Proof. vm_compute. done. Qed.
