(* ===== verification/Shell.v ===== *)
(** The binary: the command line, the boot sequence, the dry run and the end of the
    process ([openrusty-server/src/main.rs], [check.rs]), and the log file that a
    signal reopens ([logging.rs]). *)

From S2P Require Import Prelude Text Net Config Swap Upstream Health Client HostState Registry Peer DynRoutes Runtime Certs Listeners.
From Stdlib Require Import ZArith Lia.
From stdpp Require Import options.
Local Open Scope Z_scope.

(** * The command line *)

Inductive Command :=
| RunInit (args : list bytes)
| RunInject (args : list bytes)
| ShowUsage
| TestConfig (path : bytes)
| Serve (path : bytes).

Definition DEFAULT_CONFIG : bytes := bs "config/openrusty.toml".

(** The path of an argument, of the environment, the documented default. *)
Definition config_from (arg env : option bytes) : bytes :=
  default DEFAULT_CONFIG (match arg with Some a => Some a | None => env end).

(** [args] starts with the program; [env] is [OPENRUSTY_CONFIG]. *)
Definition dispatch (args : list bytes) (env : option bytes) : Command :=
  let arg_is name := bool_decide (args !! 1%nat = Some (bs name)) in
  if arg_is "iptables-init" then RunInit (drop 2 args)
  else if arg_is "inject" then RunInject (drop 2 args)
  else if arg_is "-h" || arg_is "--help" then ShowUsage
  else if arg_is "-t" || arg_is "--test" then TestConfig (config_from (args !! 2%nat) env)
  else Serve (config_from (args !! 1%nat) env).

(** * Shared by boot and dry run *)

Section shell.
Context {Module_ Cert Key : Type}.
(** The gateway resolver of the validator, the TOML parser, the environment and the
    files, the plugin directory and compiler, the TLS material, the sockets. *)
Context (resolve : bytes → option (list SocketAddr)) (from_str : bytes → option Config).
Context (dynamic_dir : option bytes) (is_file : bytes → bool) (read_config : bytes → option bytes).
Context (log_opens : bytes → bool).
Context (plugin_dir : bytes → option (list (option DirEntry))).
Context (prepare : bytes → bytes → result RegistryError (Module_ * bool)).
Context (tio : TlsIo).
Context (pem_certs : bytes → option (list Cert)) (pem_key : bytes → option (option bytes)).
Context (signing_key : bytes → option Key) (read_file : bytes → option bytes).
Context (adopted : list SocketAddr → exec (result ListenError (option (list Z)))) (bind : SocketAddr → option Z).

Definition load (path : bytes) : result ConfigError Config :=
  load_config resolve (read_config path) from_str dynamic_dir.

(** ** [check::run] *)

Inductive CheckError :=
| CannotReadConfig (path : bytes)
| ParseError (path : bytes)
| ConfigInvalid (path : bytes) (e : ConfigError)
| PluginLoadFailed (dir : bytes) (e : RegistryError).

Record Summary := {
  sm_config_path : bytes;
  sm_listeners : list bytes;
  sm_route_count : nat;
  sm_upstream_names : list bytes;
  sm_plugin_names : list bytes;
  sm_plugin_dir : bytes;
  sm_generation : Z;
}.

Definition listener_line (l : ListenerConfig) : bytes :=
  role_as_str (ls_role l) ++ bs "@" ++ addr_to_string (ls_listen l).

Definition config_error (path : bytes) (e : ConfigError) : CheckError :=
  match e with
  | CfgIo => CannotReadConfig path
  | CfgParse => ParseError path
  | CfgInvalid _ => ConfigInvalid path e
  end.

Definition map_err {A E E'} (f : E → E') (r : result E A) : result E' A :=
  match r with Ok a => Ok a | Err e => Err (f e) end.

Definition check_run (path : bytes) (w : States) : result CheckError Summary :=
  cfg ← map_err (config_error path) (load path);
  map_err (ConfigInvalid path) (validate resolve cfg);;
  snap ← map_err (PluginLoadFailed (pl_dir (cf_plugins cfg)))
           (bootstrap (plugin_dir (pl_dir (cf_plugins cfg))) (prepare (pl_dir (cf_plugins cfg))) cfg w).2;
  Ok {| sm_config_path := path;
        sm_listeners := listener_line <$> effective_listeners cfg;
        sm_route_count := length (cf_routes cfg);
        sm_upstream_names := uc_name <$> cf_upstreams cfg;
        sm_plugin_names := ld_name <$> ps_plugins snap;
        sm_plugin_dir := pl_dir (cf_plugins cfg);
        sm_generation := ps_generation snap |}.

Definition counted (names : list bytes) : bytes :=
  if bool_decide (names = []) then bs "0"
  else fmt_dec (Z.of_nat (length names)) ++ bs ": " ++ join (bs ", ") names.

Definition writeln (s : bytes) : bytes := s ++ [x0a].

(** [Summary::print]. *)
Definition report (s : Summary) : bytes :=
  writeln (bs "config file " ++ sm_config_path s) ++
  mjoin ((λ l, writeln (bs "listener    " ++ l)) <$> sm_listeners s) ++
  writeln (bs "routes      " ++ fmt_dec (Z.of_nat (sm_route_count s))) ++
  writeln (bs "upstreams   " ++ counted (sm_upstream_names s)) ++
  writeln (bs "plugin dir  " ++ sm_plugin_dir s) ++
  writeln (bs "plugins     " ++ counted (sm_plugin_names s) ++ bs " (phase order)") ++
  writeln (bs "generation  " ++ fmt_dec (sm_generation s)) ++
  writeln (bs "syntax is ok").

(** ** The serve path of [main] *)

Inductive BootError :=
| ConfigNotFound
| InvalidConfig (e : ConfigError)
| LogFile (path : bytes)
| Bootstrap (f : ReloadFailure)
| ListenerFailed (e : ListenError).

(** What runs once everything is up; every boot error exits with 1. *)
Record Booted := {
  bt_config : Config;
  bt_state : @AppState Module_;        (* as the accept loops first see it *)
  bt_ingress : bool;                   (* the watch task was started *)
  bt_log_file : option bytes;          (* what SIGUSR1 reopens *)
  bt_tasks : list AcceptTask;
  bt_resolver : @Resolver Cert Key;
}.

Definition mounts_of (cfg : Config) : list Mount :=
  mounts (existsb uses_tls (effective_listeners cfg)) (in_enabled (cf_ingress cfg)) (effective_listeners cfg).

Definition log_init (cfg : ServerConfig) : result BootError (option bytes) :=
  match sv_log_file cfg with
  | None => Ok None
  | Some path => if log_opens path then Ok (Some path) else Err (LogFile path)
  end.

Definition boot_main (path : bytes) (w : States) : exec (result BootError Booted) :=
  if negb (is_file path) then Ret (Err ConfigNotFound)
  else match load path with
  | Err e => Ret (Err (InvalidConfig e))
  | Ok cfg =>
      match log_init (cf_server cfg) with
      | Err e => Ret (Err e)
      | Ok log =>
          r ← boot tio (plugin_dir (pl_dir (cf_plugins cfg))) (prepare (pl_dir (cf_plugins cfg))) cfg w;
          match r with
          | Err f => Ret (Err (Bootstrap f))
          | Ok s =>
              let s := spawn_probe s in
              r ← spawn pem_certs pem_key signing_key read_file bind
                    (adopted (ls_listen <$> effective_listeners cfg)) (mounts_of cfg) resolver_new;
              match r with
              | Err e => Ret (Err (ListenerFailed e))
              | Ok (tasks, resolver) =>
                  Ret (Ok {| bt_config := cfg; bt_state := s; bt_ingress := in_enabled (cf_ingress cfg);
                             bt_log_file := log; bt_tasks := tasks; bt_resolver := resolver |})
              end
          end
      end
  end.

(** ** The background tasks *)

(** One tick of the sweeper: every plugin of the current snapshot. *)
Definition sweep_states (now : Z) (locs : list nat) (w : States) : States :=
  {| sto_next := sto_next w;
     sto_map := foldl (λ m loc, alter (λ h, (sweep now h).2) loc m) (sto_map w) locs |}.

Definition sweep_tick (now : Z) (s : @AppState Module_) : AppState :=
  set_plugins (sweep_states now (ld_state <$> ps_plugins (as_value (app_plugins s))) (app_states s)) (app_plugins s) s.

(** SIGHUP reloads the file; its result only goes to the log. *)
Definition on_sighup (lookup : bytes → option (list SocketAddr)) (env : @Environment Module_) (path : bytes) (s : @AppState Module_)
    : exec (@AppState Module_) :=
  '(_, s) ← reload_file tio lookup env (load path) s;
  Ret s.

(** ** The end of the process *)

Inductive Trigger := Terminate | Interrupt | Quit | Endpoint.

#[global] Instance trigger_eq_dec : EqDecision Trigger.
Proof. solve_decision. Defined.

(** The report of either sequence; [settled] are the ends of the accept tasks. *)
Definition shut_down (t : Trigger) (settled : list bool) (at_signal remaining : Z) (evs : list DrainEvent)
    : option ShutdownReport :=
  if bool_decide (t = Quit) then Some (run_fast settled at_signal remaining)
  else run (length settled) at_signal remaining evs.

(** * What a started gateway is *)

(** The runtime fits together: routes name its upstreams, upstreams are under their
    own names with the accounting of their peers, no peer is weightless, health
    slots and pooled clients are those of the peers, probing waits. *)
Record well_formed (s : @AppState Module_) : Prop := {
  wf_routes : Forall (λ r, is_Some (rs_upstreams (as_value (app_runtime s)) !! rt_upstream r)) (rs_routes (as_value (app_runtime s)));
  wf_upstreams : ∀ name up, rs_upstreams (as_value (app_runtime s)) !! name = Some up →
    up_name (ur_up up) = name ∧ name ≠ [] ∧ length (ur_swrr up) = length (up_peers (ur_up up)) ∧
    Forall (λ p, pe_weight p ≠ 0) (up_peers (ur_up up)) ∧
    (∀ a, hc_active (up_health (ur_up up)) = Some a → valid_active a) ∧
    (∃ slots, hr_upstreams (app_health s) !! name = Some slots ∧ sl_addrs slots = peer_addrs (ur_up up)) ∧
    (∀ p, p ∈ up_peers (ur_up up) → has_client (app_pool s) (pool_key (ur_up up) p));
  wf_probe : app_probe s ≠ Some 0;
}.

(** ** From a valid configuration *)










(** The sweeper changes nothing a plugin can still read. *)
Lemma sweep_tick_same now (s : @AppState Module_) loc h : sto_map (app_states s) !! loc = Some h →
  ∃ h', sto_map (app_states (sweep_tick now s)) !! loc = Some h' ∧ same_from now h h'.
Proof using Type.
  cbn. generalize (ld_state <$> ps_plugins (as_value (app_plugins s))). intros locs. generalize (sto_map (app_states s)).
  intros m Hm. revert m h Hm. induction locs as [|l locs IH]; intros m h Hm; cbn [foldl]; [by exists h|].
  destruct (decide (l = loc)) as [->|Hne].
  - destruct (IH (alter (λ h, (sweep now h).2) loc m) (sweep now h).2) as (h' & Hh & Hs); [by rewrite lookup_alter_eq, Hm|].
    exists h'. split; [done|]. by transitivity (sweep now h).2; [apply sweep_same|].
  - apply IH. by rewrite lookup_alter_ne.
Qed.

Lemma sweep_tick_well_formed now (s : @AppState Module_) : well_formed s → well_formed (sweep_tick now s).
Proof using Type. by intros []. Qed.

(** ** Boot, step by step *)

(** Where a boot panics: the material and the plugins are fine, and an upstream with
    peers has a server name that does not parse. *)
Definition boot_stuck (dir : option (list (option DirEntry)))
    (prep : bytes → result RegistryError (Module_ * bool)) (cfg : Config) (w : States) : Prop :=
  ∃ plans, build_tls_plans tio cfg = Ok plans ∧ is_ok (bootstrap dir prep cfg w).2 = true ∧
    unbuildable (ti_name_ok tio) (planned plans <$> cf_upstreams cfg) new_pool.

Lemma boot_spec dir (prep : bytes → result RegistryError (Module_ * bool)) cfg w :
  match boot tio dir prep cfg w with
  | Ret (Ok s) => ¬ boot_stuck dir prep cfg w ∧
      ∃ plans w' plugins s0, build_tls_plans tio cfg = Ok plans ∧ bootstrap dir prep cfg w = (w', Ok plugins) ∧
        as_value (app_plugins s) = plugins ∧ app_probe s = None ∧ runtime_ready cfg (ps_generation plugins) plans s0 s
  | Ret (Err f) => ¬ boot_stuck dir prep cfg w ∧
      match f with
      | FailedPlugins e => (bootstrap dir prep cfg w).2 = Err e
      | _ => ∃ name e, f = FailedTls name e
      end
  | Panic => boot_stuck dir prep cfg w
  end.
Proof using Type.
  unfold boot. destruct (build_tls_plans tio cfg) as [plans|[name e]] eqn:Ep.
  2:{ split; [intros (? & Hx & _); congruence|by exists name, e]. }
  destruct (bootstrap dir prep cfg w) as [w' [plugins|e]] eqn:Eb.
  2:{ split; [intros (? & _ & Hx & _); by rewrite Eb in Hx|done]. }
  unfold boot_state. match goal with |- context [apply_runtime _ cfg _ plans ?s0] =>
    destruct (apply_runtime_cases tio cfg (ps_generation plugins) plans s0 (plans_named tio _ _ Ep)) as [Hc Hp] end.
  assert (boot_stuck dir prep cfg w ↔ unbuildable (ti_name_ok tio) (planned plans <$> cf_upstreams cfg) new_pool) as Hst.
  { split; [|intros Hu; exists plans; by rewrite Eb].
    intros (plans' & Hx & _ & Hu). rewrite Ep in Hx. by injection Hx as <-. }
  destruct (apply_runtime _ _ _ _ _) as [s|]; cbn [mbind exec_mbind]; [|by apply Hst, Hp].
  destruct Hc as [Hr He]. split; [rewrite Hst; by intros Hx%Hp|].
  eexists plans, w', plugins, _. split_and!; [done|done| |by rewrite He|exact Hr]. by rewrite He.
Qed.

(** It never does when every server name parses. *)
Lemma names_boot dir (prep : bytes → result RegistryError (Module_ * bool)) cfg w :
  names_parse tio cfg → ¬ boot_stuck dir prep cfg w.
Proof using Type. intros Hn (plans & Hb & _ & Hu). by eapply names_parse_buildable. Qed.

(** A started gateway, taken apart. *)
Lemma boot_main_ok path w b : boot_main path w = Ret (Ok b) →
  load path = Ok (bt_config b) ∧ is_file path = true ∧
  (∃ s, boot tio (plugin_dir (pl_dir (cf_plugins (bt_config b)))) (prepare (pl_dir (cf_plugins (bt_config b))))
          (bt_config b) w = Ret (Ok s) ∧ bt_state b = spawn_probe s) ∧
  (∃ r, adopted (ls_listen <$> effective_listeners (bt_config b)) = Ret (Ok r) ∧
     ∃ bound, acquire pem_certs pem_key signing_key read_file bind (default [] r) (mounts_of (bt_config b)) resolver_new = Ok (bound, bt_resolver b) ∧
       bt_tasks b = map (accept_task (own_ports (map mt_listener (mounts_of (bt_config b))))) bound).
Proof using Type.
  unfold boot_main. destruct (is_file path); [|done]. cbn [negb]. destruct (load path) as [cfg|] eqn:El; [|done].
  destruct (log_init _); [|done]. destruct (boot _ _ _ cfg w) as [[s|]|] eqn:Eb; try done. cbn zeta.
  unfold spawn. destruct (adopted _) as [[r|]|] eqn:Ea; try done.
  cbn [mbind exec_mbind result_mbind].
  destruct (acquire pem_certs pem_key signing_key read_file bind (default [] r) (mounts_of cfg) resolver_new) as [[bound rv]|] eqn:Eq; cbn; [|done].
  intros [= <-]. cbn.
  split_and!; [done|done|by exists s|]. exists r. split; [done|]. by exists bound.
Qed.

(** The panics of a boot: of the runtime, or of the adoption of inherited sockets. *)
Definition boot_panics (path : bytes) (w : States) : Prop :=
  ∃ cfg log, load path = Ok cfg ∧ log_init (cf_server cfg) = Ok log ∧
    (boot_stuck (plugin_dir (pl_dir (cf_plugins cfg))) (prepare (pl_dir (cf_plugins cfg))) cfg w ∨
     (∃ s, boot tio (plugin_dir (pl_dir (cf_plugins cfg))) (prepare (pl_dir (cf_plugins cfg))) cfg w = Ret (Ok s)) ∧
     adopted (ls_listen <$> effective_listeners cfg) = Panic).

Lemma boot_main_panics path w : is_file path = true → boot_main path w = Panic ↔ boot_panics path w.
Proof using Type.
  intros Hfile. unfold boot_main, boot_panics. rewrite Hfile. cbn [negb].
  destruct (load path) as [cfg|e]; [|split; [done|by intros (? & ? & ? & _)]].
  destruct (log_init (cf_server cfg)) as [log|e] eqn:Eg; [|split; [done|intros (? & ? & [= <-] & ? & _); congruence]].
  pose proof (boot_spec (plugin_dir (pl_dir (cf_plugins cfg))) (prepare (pl_dir (cf_plugins cfg))) cfg w) as Hb.
  destruct (boot tio _ _ cfg w) as [[s|f]|] eqn:Eb; cbn [mbind exec_mbind]; cbn zeta.
  - unfold spawn. destruct (adopted (ls_listen <$> effective_listeners cfg)) as [a|] eqn:Ea; cbn [mbind exec_mbind].
    + split; [intros Hx; by destruct (mbind _ _) as [[]|] in Hx|].
      intros (? & ? & [= <-] & _ & [Hx|[_ Hx]]); [by destruct Hb|congruence].
    + split; [|done]. intros _. exists cfg, log. split_and!; [done|done|right]. split; [by exists s|done].
  - split; [done|]. intros (? & ? & [= <-] & _ & [Hx|[[s Hs] _]]); [by destruct Hb|congruence].
  - split; [|done]. intros _. exists cfg, log. split_and!; [done|done|by left].
Qed.

(** A task of a started gateway against the listener it serves. *)
Definition serves (cfg : Config) (t : AcceptTask) (l : ListenerConfig) : Prop :=
  at_router t = router_of (existsb (λ l, bool_decide (ls_role l = Admin)) (effective_listeners cfg)) l.

Lemma booted_tasks path w b : boot_main path w = Ret (Ok b) →
  let ls := effective_listeners (bt_config b) in
  Forall2 (serves (bt_config b)) (bt_tasks b) ls ∧
  ∃ inherited, adopted (ls_listen <$> ls) = Ret (Ok inherited) ∧
    match inherited with
    | None => Forall2 (λ t l, bind (ls_listen l) = Some (at_fd t)) (bt_tasks b) ls
    | Some fds => length fds = length ls → map at_fd (bt_tasks b) = fds
    end.
Proof using Type.
  intros (_ & _ & _ & (r & Ha & bound & Hq & Ht))%boot_main_ok. cbn zeta. rewrite Ht.
  apply acquire_exact in Hq as (Hm & Hbind & Hqueue & _).
  set (ls := effective_listeners (bt_config b)) in *.
  assert (map (mt_listener ∘ fst ∘ fst) bound = ls) as Hls.
  { transitivity (map mt_listener (map (fst ∘ fst) bound)); [by rewrite map_map|].
    rewrite Hm. unfold mounts_of, mounts. rewrite map_map. apply map_id. }
  split.
  - assert (Forall (λ x, mt_router x.1.1 = router_of (existsb (λ l, bool_decide (ls_role l = Admin)) ls) (mt_listener x.1.1)) bound) as Hr.
    { apply Forall_forall. intros x Hx. assert (x.1.1 ∈ mounts_of (bt_config b)) as Hin.
      { rewrite <-Hm. apply list_elem_of_In, in_map_iff. exists x. split; [done|by apply list_elem_of_In]. }
      apply list_elem_of_In, in_map_iff in Hin as (l & <- & _). done. }
    rewrite <-Hls. clear -Hr. revert Hr. generalize (own_ports (map mt_listener (mounts_of (bt_config b)))).
    intros ports Hr. induction Hr as [|x bound Hx _ IH]; [constructor|]. constructor; [exact Hx|exact IH].
  - exists r. split; [done|]. destruct r as [fds|]; cbn in Hbind, Hqueue.
    + intros Hl. rewrite map_map. apply Hqueue. rewrite Hl, <-Hls, <-Hm. by rewrite !length_map.
    + specialize (Hbind eq_refl). rewrite <-Hls. clear -Hbind.
      generalize (own_ports (map mt_listener (mounts_of (bt_config b)))). intros ports.
      induction Hbind as [|x bound Hx _ IH]; [constructor|]. constructor; [exact Hx|exact IH].
Qed.

(** C38. The dry run is the boot without its sockets.  For the same files, [-t]
    accepts what can boot but for what it does not try: when it passes, starting the
    gateway fails only on the log file, upstream TLS material, sockets and listener
    certificates, and it panics exactly when, the log file, the material and the
    plugins being fine, an upstream with peers has a TLS server name that does not
    parse, or the adoption of inherited sockets does.  A gateway that started is one
    [-t] accepts, with the plugins in the order and of the generation that it
    reported, the routes and the upstreams it named in the runtime, and, in the order
    it listed them as role and address, one accept task per listener, with that
    listener's router on the socket bound to its address (the inherited sockets, in
    order, when activated). *)
Theorem dry_run_predicts_boot (path : bytes) (w : States) :
  is_file path = true →
  (∀ sm r, check_run path w = Ok sm → boot_main path w = Ret (Err r) →
     (∃ p, r = LogFile p) ∨ (∃ name e, r = Bootstrap (FailedTls name e)) ∨ (∃ e, r = ListenerFailed e)) ∧
  (boot_main path w = Panic ↔ boot_panics path w) ∧
  (∀ b, boot_main path w = Ret (Ok b) → ∃ sm, check_run path w = Ok sm ∧
     sm_plugin_names sm = ld_name <$> ps_plugins (as_value (app_plugins (bt_state b))) ∧
     sm_generation sm = ps_generation (as_value (app_plugins (bt_state b))) ∧
     sm_generation sm = rs_generation (as_value (app_runtime (bt_state b))) ∧
     sm_route_count sm = length (rs_routes (as_value (app_runtime (bt_state b)))) ∧
     (∀ name, name ∈ sm_upstream_names sm ↔ is_Some (rs_upstreams (as_value (app_runtime (bt_state b))) !! name)) ∧
     let ls := effective_listeners (bt_config b) in
     sm_listeners sm = (λ l, role_as_str (ls_role l) ++ bs "@" ++ addr_to_string (ls_listen l)) <$> ls ∧
     Forall2 (serves (bt_config b)) (bt_tasks b) ls ∧
     ∃ inherited, adopted (ls_listen <$> ls) = Ret (Ok inherited) ∧
       match inherited with
       | None => Forall2 (λ t l, bind (ls_listen l) = Some (at_fd t)) (bt_tasks b) ls
       | Some fds => length fds = length ls → map at_fd (bt_tasks b) = fds
       end).
Proof using Type.
  intros Hfile. split; [|split; [by apply boot_main_panics|]].
  - intros sm r Hc Hb. unfold check_run, boot_main in *. rewrite Hfile in Hb. cbn [negb] in Hb.
    apply bind_ok in Hc as (cfg & Hl & Hc). apply bind_ok in Hc as ([] & _ & (snap & Hs & _)%bind_ok).
    destruct (load path) as [cfg'|] eqn:El; [|done]. injection Hl as ->.
    destruct (log_init (cf_server cfg)) as [log|e] eqn:Eg.
    2:{ injection Hb as <-. left. unfold log_init in Eg. destruct (sv_log_file (cf_server cfg)) as [p|]; [|done].
        destruct (log_opens p); [done|]. injection Eg as <-. by exists p. }
    pose proof (boot_spec (plugin_dir (pl_dir (cf_plugins cfg))) (prepare (pl_dir (cf_plugins cfg))) cfg w) as Eb.
    destruct (boot _ _ _ cfg w) as [[s|f]|]; [| |done].
    + cbn zeta in Hb. unfold mbind, exec_mbind in Hb. destruct (spawn pem_certs pem_key signing_key read_file bind _ _ _) as [[[tasks rv]|e]|]; [done| |done].
      injection Hb as <-. right. right. by exists e.
    + cbn in Hb. injection Hb as <-. right. left. destruct Eb as [_ Eb]. destruct f as [e|name e|e].
      * by destruct Eb as (? & ? & ?).
      * by exists name, e.
      * by rewrite Eb in Hs.
  - intros b Hbm. pose proof (booted_tasks path w b Hbm) as Htasks.
    apply boot_main_ok in Hbm as (Hl & _ & (s & Hs & Hst) & _).
    pose proof (boot_spec (plugin_dir (pl_dir (cf_plugins (bt_config b)))) (prepare (pl_dir (cf_plugins (bt_config b)))) (bt_config b) w) as Hsp.
    rewrite Hs in Hsp. destruct Hsp as (_ & plans & w' & plugins & s0 & _ & Hb & Hp & _ & [Rg Rr Ru _ _ _]).
    unfold check_run. rewrite Hl. cbn [map_err mbind result_mbind].
    assert (validate resolve (bt_config b) = Ok ()) as ->.
    { unfold load, load_config in Hl. apply bind_ok in Hl as (? & _ & Hl). apply bind_ok in Hl as (? & _ & Hl).
      apply bind_ok in Hl as ([] & Hv & [= <-]). exact Hv. }
    cbn [map_err mbind result_mbind]. rewrite Hb. cbn [snd map_err mbind result_mbind]. eexists. split; [done|].
    rewrite Hst. cbn. rewrite Hp, Rg, Rr. split_and!; try done; [|apply Htasks..].
    intros name. rewrite Ru, fmap_is_Some. unfold named. rewrite last_is_Some. rewrite list_elem_of_fmap. split.
    * intros (uc & -> & Hin) E. assert (uc ∈ filter (λ u, uc_name u = uc_name uc) (cf_upstreams (bt_config b))) as Hx by (by apply list_elem_of_filter).
      rewrite E in Hx. by apply elem_of_nil in Hx.
    * intros Hne. destruct (filter _ _) as [|uc l] eqn:E; [done|].
      assert (uc ∈ filter (λ u, uc_name u = name) (cf_upstreams (bt_config b))) as Hx by (rewrite E; by left).
      apply list_elem_of_filter in Hx as [<- Hx]. by exists uc.
Qed.


(** Boot applies the configuration as it is written: an upstream that only has DNS
    endpoints starts without peers; only a reload or an ingress apply resolves
    them. *)
Lemma boot_leaves_endpoints_unresolved path w b name uc :
  boot_main path w = Ret (Ok b) → named name (cf_upstreams (bt_config b)) = Some uc →
  ∃ up, rs_upstreams (as_value (app_runtime (bt_state b))) !! name = Some up ∧
    peer_addrs (ur_up up) = pc_addr <$> uc_peers uc.
Proof using Type.
  intros (_ & _ & (s & Hs & ->) & _)%boot_main_ok Hn.
  pose proof (boot_spec (plugin_dir (pl_dir (cf_plugins (bt_config b)))) (prepare (pl_dir (cf_plugins (bt_config b)))) (bt_config b) w) as Hsp.
  rewrite Hs in Hsp. destruct Hsp as (_ & plans & w' & plugins & s0 & _ & _ & _ & _ & [_ _ Ru _ _ _]). cbn.
  exists (upstream_rt (planned plans uc)). rewrite Ru, Hn. split; [done|]. unfold peer_addrs, planned. cbn.
  induction (uc_peers uc) as [|p ps IH]; [done|]. cbn. by f_equal.
Qed.

End shell.

(** Only the first argument selects a subcommand, and anything else is a path. *)
Lemma unknown_flag_is_a_path prog flag rest env :
  flag ∉ [bs "iptables-init"; bs "inject"; bs "-h"; bs "--help"; bs "-t"; bs "--test"] →
  dispatch (prog :: flag :: rest) env = Serve flag.
Proof.
  rewrite !not_elem_of_cons. intros (H1 & H2 & H3 & H4 & H5 & H6 & _). unfold dispatch. cbn [lookup list_lookup].
  by rewrite !bool_decide_eq_false_2 by congruence.
Qed.

(** SIGQUIT never waits for connections, and both doors leave with the same code. *)
Lemma shut_down_quit settled at_signal remaining evs :
  ∃ r, shut_down Quit settled at_signal remaining evs = Some r ∧ sr_forced r = remaining ∧ sr_timed_out r = false ∧
    sr_task_errors r = failures settled.
Proof.
  eexists. split; [done|]. cbn. split_and!; [done|done|].
  assert (∀ e, foldl (λ e t, count_settle t e) e settled = e + failures settled) as ->; [|lia].
  induction settled as [|t l IH]; intros e; cbn [foldl failures]; [lia|]. rewrite IH. unfold count_settle. destruct t; lia.
Qed.

(** * The log file *)

(** Names and open files of the log's file system. *)
Record LogFs := { lf_names : gmap bytes nat; lf_files : gmap nat bytes; lf_next : nat }.

(** The writer's path and the file behind its descriptor. *)
Record ReopenableWriter := { rw_path : bytes; rw_file : nat }.

(** Create and append: an existing file is opened as it is. *)
Definition open_file (path : bytes) (fs : LogFs) : nat * LogFs :=
  match lf_names fs !! path with
  | Some i => (i, fs)
  | None => (lf_next fs, {| lf_names := <[path := lf_next fs]> (lf_names fs);
                            lf_files := <[lf_next fs := []]> (lf_files fs); lf_next := S (lf_next fs) |})
  end.

Definition log_open (path : bytes) (fs : LogFs) : ReopenableWriter * LogFs :=
  let '(i, fs) := open_file path fs in ({| rw_path := path; rw_file := i |}, fs).

Definition log_write (buf : bytes) (w : ReopenableWriter) (fs : LogFs) : LogFs :=
  {| lf_names := lf_names fs; lf_files := alter (λ c, c ++ buf) (rw_file w) (lf_files fs); lf_next := lf_next fs |}.

(** [reopen], when the file opens; the path of the writer stays. *)
Definition reopen (opens : bool) (w : ReopenableWriter) (fs : LogFs) : bool * ReopenableWriter * LogFs :=
  if opens then
    let '(i, fs) := open_file (rw_path w) fs in (true, {| rw_path := rw_path w; rw_file := i |}, fs)
  else (false, w, fs).

(** A write, a rotation by another process, the signal. *)
Inductive LogEvent :=
| Wrote (buf : bytes)
| Rotated (to : bytes)
| Usr1 (opens : bool).

Definition log_step (ev : LogEvent) (st : ReopenableWriter * LogFs) : ReopenableWriter * LogFs :=
  let '(w, fs) := st in
  match ev with
  | Wrote buf => (w, log_write buf w fs)
  | Rotated to =>
      match lf_names fs !! rw_path w with
      | Some i => (w, {| lf_names := <[to := i]> (delete (rw_path w) (lf_names fs));
                         lf_files := lf_files fs; lf_next := lf_next fs |})
      | None => (w, fs)
      end
  | Usr1 opens => let '(_, w, fs) := reopen opens w fs in (w, fs)
  end.

Record log_ok (st : ReopenableWriter * LogFs) : Prop := {
  lo_open : is_Some (lf_files st.2 !! rw_file st.1);
  lo_names : map_Forall (λ _ i, (i < lf_next st.2)%nat) (lf_names st.2);
  lo_files : map_Forall (λ i _, (i < lf_next st.2)%nat) (lf_files st.2);
  lo_there : map_Forall (λ _ i, is_Some (lf_files st.2 !! i)) (lf_names st.2);
}.

(** No event loses a byte: every file only grows, a write lands at the end of the
    open file, a failed reopen changes nothing, and after a successful one the
    writer is on the file its path names, a fresh one if it had been rotated
    away. *)
Lemma rotation_keeps_history ev w fs : log_ok (w, fs) →
  let '(w', fs') := log_step ev (w, fs) in
  log_ok (w', fs') ∧ rw_path w' = rw_path w ∧
  (∀ i c, lf_files fs !! i = Some c → ∃ more, lf_files fs' !! i = Some (c ++ more) ∧
     (more = [] ∨ (i = rw_file w ∧ ev = Wrote more))) ∧
  (∀ buf, ev = Wrote buf → ∃ c, lf_files fs !! rw_file w = Some c ∧ lf_files fs' !! rw_file w' = Some (c ++ buf)) ∧
  (ev = Usr1 false → w' = w ∧ fs' = fs) ∧
  (ev = Usr1 true → lf_names fs' !! rw_path w' = Some (rw_file w') ∧
     (lf_names fs !! rw_path w = None → lf_files fs' !! rw_file w' = Some [])).
Proof.
  intros [[c0 Ho] Hn Hf Ht]. cbn [fst snd] in *. destruct ev as [buf|to|[|]]; cbn [log_step].
  - split_and!.
    + constructor; cbn; [rewrite lookup_alter_eq, Ho; by eexists|done| |].
      * intros i c. rewrite lookup_alter_Some. intros [(<- & x & Hx & _)|[_ Hx]]; by apply (Hf _ _ Hx).
      * intros k i Hk. destruct (Ht _ _ Hk) as [x Hx]. destruct (decide (rw_file w = i)) as [<-|Hne];
          [rewrite lookup_alter_eq, Hx|rewrite lookup_alter_ne, Hx by done]; by eexists.
    + done.
    + intros i c Hi. unfold log_write. cbn. destruct (decide (rw_file w = i)) as [<-|Hne].
      * rewrite lookup_alter_eq, Hi. exists buf. split; [done|by right].
      * rewrite lookup_alter_ne, Hi by done. exists []. rewrite app_nil_r. split; [done|by left].
    + intros b [= <-]. exists c0. unfold log_write. cbn. by rewrite lookup_alter_eq, Ho.
    + done.
    + done.
  - assert (∀ i c, lf_files fs !! i = Some c → ∃ more, lf_files fs !! i = Some (c ++ more) ∧
      (more = [] ∨ (i = rw_file w ∧ Rotated to = Wrote more))) as Hg.
    { intros i c Hi. exists []. rewrite app_nil_r. split; [done|by left]. }
    destruct (lf_names fs !! rw_path w) as [i|] eqn:Ei; (split_and!; [|done|exact Hg|done|done|done]); constructor; cbn; try done.
    + apply map_Forall_insert_2; [by apply (Hn _ _ Ei)|by apply map_Forall_delete].
    + apply map_Forall_insert_2; [by apply (Ht _ _ Ei)|by apply map_Forall_delete].
  - unfold reopen, open_file. destruct (lf_names fs !! rw_path w) as [i|] eqn:Ei.
    + split_and!; [|done| |done|done|].
      * constructor; cbn; [by apply (Ht _ _ Ei)|done|done|done].
      * intros j c Hj. exists []. rewrite app_nil_r. split; [done|by left].
      * intros _. cbn. by split.
    + assert (lf_files fs !! lf_next fs = None) as Hfresh.
      { destruct (lf_files fs !! lf_next fs) eqn:E; [|done]. apply Hf in E. lia. }
      split_and!; [|done| |done|done|].
      * constructor; cbn; [rewrite lookup_insert_eq; by eexists| | |].
        -- apply map_Forall_insert_2; [lia|]. eapply map_Forall_impl; [exact Hn|]. cbn. intros; lia.
        -- apply map_Forall_insert_2; [lia|]. eapply map_Forall_impl; [exact Hf|]. cbn. intros; lia.
        -- apply map_Forall_insert_2; [rewrite lookup_insert_eq; by eexists|]. eapply map_Forall_impl; [exact Ht|]. cbn.
           intros _ j [x Hx]. destruct (decide (lf_next fs = j)) as [<-|Hne]; [by rewrite Hfresh in Hx|rewrite lookup_insert_ne by done; by eexists].
      * intros j c Hj. exists []. rewrite app_nil_r. cbn. split; [|by left]. rewrite lookup_insert_ne; [done|]. intros <-. by rewrite Hfresh in Hj.
      * intros _. cbn. rewrite !lookup_insert_eq. by split.
  - cbn. split_and!; [by constructor|done| |done|done|done]. intros j c Hj. exists []. rewrite app_nil_r. split; [done|by left].
Qed.

(** * A concrete gateway *)

Definition ex_from_str (_ : bytes) : option Config := Some ex_new_config.


Definition no_states : States := {| sto_next := 0; sto_map := ∅ |}.

Definition ex_boot : exec (result BootError (@Booted () () ())) :=
  boot_main (λ _, None) ex_from_str None (λ _, true) (λ _, Some []) (λ _, true) (λ _, ex_dir) (λ _, ex_prepare)
    ex_tls_io (λ _, None) (λ _, None) (λ _, None) (λ _, None) (λ _, Ret (Ok None)) (λ _, Some 3) (bs "c.toml") no_states.

Definition ex_check : result CheckError Summary :=
  check_run (Module_ := ()) (λ _, None) ex_from_str None (λ _, Some []) (λ _, ex_dir) (λ _, ex_prepare) (bs "c.toml") no_states.

Lemma ex_booted : match ex_boot with Ret (Ok _) => true | _ => false end = true.
Proof. vm_compute. reflexivity. Qed.

Lemma dry_run_predicts_boot_witness :
  match ex_boot, ex_check with
  | Ret (Ok b), Ok sm => sm_plugin_names sm = ld_name <$> ps_plugins (as_value (app_plugins (bt_state b))) ∧
      length (bt_tasks b) = length (sm_listeners sm)
  | _, _ => False
  end.
Proof.
  pose proof ex_booted as Hb. destruct ex_boot as [[b|]|] eqn:E; [|discriminate Hb|discriminate Hb]. clear Hb.
  destruct (dry_run_predicts_boot (Cert := ()) (Key := ()) (λ _, None) ex_from_str None (λ _, true) (λ _, Some []) (λ _, true) (λ _, ex_dir) (λ _, ex_prepare)
    ex_tls_io (λ _, None) (λ _, None) (λ _, None) (λ _, None) (λ _, Ret (Ok None)) (λ _, Some 3)
    (bs "c.toml") no_states eq_refl) as (_ & _ & H).
  destruct (H b E) as (sm & Hc & Hn & _ & _ & _ & _ & Hls & Ht & _). unfold ex_check. rewrite Hc. split; [exact Hn|].
  rewrite Hls, length_fmap. exact (Forall2_length _ _ _ Ht).
Defined.

